(* ===== verification/_CoqProject ===== *)
-Q . S2P
Prelude.v
HttpProtocol.v
HttpIo.v
TimedIo.v
BodyReader.v
Pico.v
PathNormalize.v
IpRules.v
PathRules.v
Config.v
Doubles.v
Rounding.v
RateLimiter.v
GlobalBucket.v
RateSnapshot.v
SnapshotFile.v
Response.v
Cors.v
Jwt.v
SecurityRules.v
HttpPool.v
Upstream.v
Proxy.v
JsonTransform.v
ClientSession.v
RequestReader.v
SessionLoop.v
AdminJson.v
Lifecycle.v
HttpServer.v
Combo.v
AppConfig.v
ReloadService.v
DbPool.v
RedisPool.v
DbJson.v
MysqlPool.v
PoolStats.v
AdminAuth.v
AdminLogin.v
AdminPages.v
OrderedMap.v
ConfigHistory.v
JsonText.v
ConfigSync.v
SyncSafety.v
SyncLifecycle.v
AppLifecycle.v
AppWiring.v
RedisStore.v
HistoryScripts.v
HistorySafety.v
HistoryService.v
HistoryTimer.v
PublicRoutes.v
AdminStore.v
AdminOps.v
AdminSafety.v
AdminRead.v
AdminAsync.v
