(* ===== verification/Prelude.v ===== *)
(** * Verification of the asio_owen HTTP gateway

    asio_owen is an HTTP/1.1 gateway in C++20 on asio coroutines (own code under
    src/src/).  A client session reads a request, the security chain judges it,
    a local handler or an upstream service answers it, and the answer is written
    back; configuration files are reloaded while the gateway runs.  This library
    models the parts that decide what happens to a request and proves what makes
    them correct.

    ** The program and its parts

    - A session ([http/client_session.hpp]) reads header and body with the vendored
      request parser ([picohttpparser.c]), has the request checked by
      [SecurityRules], looks for a local route, and otherwise asks
      [UpstreamManager] for a service, takes a connection from that service's
      [HttpPool], writes the request and reads the response, and serializes the
      answer, with CORS headers and renamed JSON keys.
    - [SecurityRules] ([security/]) chains the client address behind trusted
      proxies, the IP blacklist, the rate limiter, JWT authentication with its
      whitelist, and path rules with roles, on a normalized path.
    - [ReloadService] observes config.d, parses it with [Config] when it has
      settled, prepares new rules and a new route table, and publishes the rules
      first and the table second.
    - [HttpServer] accepts sessions under the [ShutdownCoordinator], handlers run
      under the [RouteLifecycle], and both are drained at shutdown.
    - [MysqlPool] and [RedisPool] ([db/]) serve the local handlers; combined
      queries run under a shared limit and a deadline ([app/combo_*]).
    - Administrators ([app/admin/]) log in with a password and then present a
      token; their JSON requests are read by a reader of the gateway's own, and
      their operations read, save, roll back and repair the configuration.
    - The configuration is kept in Redis in versions ([app/admin/config_history*],
      [app/config_history_service.hpp]): Lua scripts publish a version with its
      snapshot, metadata and index entry, a service checks the history and collects
      old versions; every machine pulls the current version into its config.d
      ([app/config_sync_*]), where the reload finds it.

    ** Files, in the order in which they depend on each other

    - [Prelude]: bytes as lists of [ascii], size_t as [Z] with its wrap-around,
      the <cctype>, std::string and std::stoi functions the code uses, outcomes of
      functions that throw, std::sort as a class with laws, the tactics and hints
      of the library, and sums over the threads of a machine.
    - [HttpProtocol] (http_protocol.hpp, http_context.hpp): size and status line
      parsing, the framing state of a header block.
    - [HttpIo] (http_io.hpp): classification of completions, the shared deadline;
      [TimedIo] (http_io.hpp, http_pool.hpp): timed reads, writes and connects.
    - [BodyReader] (http_body_reader.hpp): Content-Length and chunked bodies over
      a socket, which is the list of its read completions.
    - [Pico] (picohttpparser.c): the request line and header lines.
    - [PathNormalize] (path_normalize.hpp), [IpRules] (real_ip.hpp, cidr.hpp,
      ip_blacklist.hpp), [PathRules] (path_blacklist.hpp, auth_whitelist.hpp,
      principal.hpp): the pure parts of the chain.
    - [Config] (config.hpp): the ini reader and its typed getters.
    - [Doubles]: the type double, as a class with an IEEE binary64 instance and a
      rounding-free one; [Rounding]: how far products and truncations in binary64
      can exceed the exact ones; [RateLimiter], [GlobalBucket], [RateSnapshot],
      [SnapshotFile] (rate_limiter.hpp): token buckets in LRU shards, the lock-free
      global bucket as an interleaved machine, the format of the snapshot, and the
      threads that write its file.
    - [Response] (response.hpp, response_builder.hpp) and [Cors] (cors.hpp): what
      is written to the client.
    - [Jwt] (jwt_auth.hpp) and [SecurityRules] (security_rules.hpp): tokens, the
      whole chain, hot reload and the thread-local snapshot cache.
    - [HttpPool] (http_pool.hpp): the connection pools as an interleaved machine.
    - [Upstream] (upstream_manager.hpp): routing and the reload of the table.
    - [Proxy] (proxy_forwarder.hpp): the forwarded request, the upstream response.
    - [JsonTransform] (json_transform.hpp): the key transform.
    - [ClientSession] (client_session.hpp): request bodies, local handlers, the
      consistency loop against reloads, the forwarding loop; [RequestReader]
      (client_session.hpp): the header read loop, and a whole request from the
      bytes of a connection; [SessionLoop] (client_session.hpp): the loop of a
      session, composed of the above and of [SecurityRules], [Cors], [Upstream] and
      [Response], as a writer and error monad over an environment.
    - [AdminJson] (config_admin_parse.cpp): the JSON reader of admin requests.
    - [Lifecycle] (shutdown_coordinator.hpp, route_lifecycle.hpp,
      route_runtime.hpp): counted leases as an interface, and the two counters that
      implement it; [HttpServer] (http_server.hpp): sessions, stop, accept loop;
      [Combo] (combo_query_limiter.hpp, combo_deadline.hpp): queries and deadlines.
    - [AppConfig] (app_config.hpp, process_fd_budget.hpp): the typed configuration.
    - [ReloadService] (reload_service.hpp): the debounced reload.
    - [DbPool]: what the two database pools share, with the interface of a thread
      that uses the pool; [RedisPool] (redis_pool.hpp, redis_connection.cpp,
      redis_reply.cpp), [MysqlPool] (mysql_pool.hpp, mysql_connection.cpp) and
      [DbJson] (mysql_result_json.cpp); [PoolStats] (redis_pool_stats.cpp,
      mysql_pool_stats.cpp, and the commands that count): counters and their text;
      [JsonText] (after [ConfigHistory] in the order): UTF-8 and the grammar of JSON,
      and what the two escaping routines make of arbitrary bytes.
    - [AdminAuth] (config_admin_auth.cpp, admin_auth_runtime.hpp): base64url,
      password hashes, the login throttle; [AdminLogin] (admin_credential_store.hpp,
      config_admin_auth.cpp, admin_routes.cpp): the credential store, tokens, the
      guard of the admin API, and the login handler as an interleaved machine;
      [AdminPages] (admin_routes.cpp): the two pages and their nonce.
    - [OrderedMap]: std::map with string keys; [ConfigHistory]
      (config_history_data.cpp): digests, metadata, records and differences of
      versions.
    - [ConfigSync] (config_sync_state.cpp, config_sync_files.cpp,
      config_sync_apply.cpp, config_sync_remote.cpp): the files a machine accepts,
      the state file, one tick as a machine driven by the replies of Redis;
      [SyncSafety]: its theorems; [SyncLifecycle] (config_sync_lifecycle.cpp,
      config_sync_dispatch.cpp): the timer, the ticks in flight and stop as an
      interleaved machine, the blocking first pull, the delivery of replies.
    - [AppLifecycle] (application.cpp): the configuration a process starts with, and
      its end as an interleaved machine of threads, exceptions and the drain;
      [AppWiring] (application.cpp, snapshot_service.hpp, pool_stats_service.hpp):
      who holds and who refers to whom, from the construction to the cleanup.
    - [RedisStore]: Redis as the scripts see it, and scripts as a monad with a
      predicate transformer; [HistoryScripts] (config_history_scripts.cpp, and the
      scripts of config_history_service.hpp): every script, with the keys and
      arguments of its callers; [HistorySafety]: the effect of each transaction and
      the immutability of what was published; [HistoryService]
      (config_history_service.hpp): a check driven by its replies, and the gathering
      of requests for checks; [HistoryTimer]: the timer that asks for checks, stop,
      and the completion of a command.
    - [PublicRoutes] (routes.cpp, public_routes.cpp): the table of local routes and
      the public handlers.
    - [AdminStore] (config_admin_store.cpp): replies, file sets, the dry run;
      [AdminOps] (admin_config_routes.cpp, admin_history_*.cpp): every operation of
      the configuration and history routes from request to response; [AdminSafety]
      and [AdminRead]: what they do to the store, and what they read; [AdminAsync]
      (admin_routes.cpp): a request's way between the executors, for any operation
      that keeps the interface, and that the operations of [AdminOps] do.

    State is a record with the fields of the C++ class and an operation is a
    function from state to state; a function that throws returns an [outcome], one
    with undefined behaviour an [option] (shown to be defined where it is called),
    one that waits for a socket a [co].  Code that runs on several threads is a
    machine: a program counter per thread, one step per critical section or atomic
    operation, and theorems about every interleaving.  Code outside the repository
    (asio address parsing, jwt-cpp and OpenSSL, hiredis and the MySQL client, the
    Redis server and the numbers of its Lua, std::hash, strtod, the iteration order
    of unordered maps, the results of file operations) is a class, an
    argument or an event of the definitions that use it, with the documented
    behaviour as laws where a theorem needs it, and a concrete instance shows that
    the laws can hold.

    ** What the theorems show

    - The chain: a request is admitted exactly when every rule allows it; without
      JWT only when that is configured; a client cannot choose its own address;
      CIDR, blacklist, whitelist and role rules mean what their specification
      says; normalized paths are safe and stable.
    - Limits: no window admits more than burst and rate, sequentially (without
      rounding) and for the global bucket under every interleaving and in binary64,
      where the two roundings of a refill add a factor of (1 + 2^-52)^2; checks keep the LRU structure; snapshots are restored or
      rejected; the budget of file descriptors is exact.
    - Framing: the request parser accepts exactly its grammar, and its fast scan of
      a line equals the plain one; the chunked decoder accepts exactly the chunked
      coding, for every cut into reads; accepted requests have one interpretation
      and pipelined ones start where the last one ended; what is forwarded and what
      is answered is one message with the body that was meant; a connection is
      reused only after a complete exchange.
    - The session: whatever a client sends and whatever happens meanwhile, the
      requests served are consecutive messages of the connection, each is answered
      once, none is handed on unless every check of it admitted it under rules and
      routes that did not move, and nothing follows a body that could not be read.
    - Concurrency: the three pools lose no reservation and share no connection,
      reloads are atomic and debounced and a settled change is applied, a request
      is never matched against a table newer than the rules that admitted it, a
      late timer is harmless, queries and logins in flight are bounded, and the
      file of the rate snapshot is complete at every moment.
    - Shutdown: the lock-free coordinator refines an abstract set of sessions; once
      draining, every schedule ends with no session left and the drain succeeds;
      stop reaches every session; a requested shutdown is carried out by what is
      under way in a bounded number of steps, whatever handlers threw before, and
      the exit code tells whether one did; wherever the
      construction of the application fails, its cleanup leaves nothing dangling.
    - Administration: the JSON readers terminate and accept only valid requests; a
      password is accepted exactly when it derives the stored key, the throttle
      locks exactly the addresses it should, and the guard admits exactly what the
      credentials now on disk allow, so that a changed password revokes tokens.
    - The history: every transaction has exactly its specified effect and a refused
      one none; a published version is immutable until it is collected and the
      version counter never goes back, whatever transactions are interleaved; a
      check answers every request that waited for it, and versions are collected
      only under a healthy verdict.
    - The admin API: operations issue only valid transactions, acknowledge exactly
      what took effect, a save answered 200 was published with the files of the
      request, a read shows one moment of the store, and an accepted dry run
      that saw every file whole predicts the reload; every request resumes its coroutine exactly once, within
      a bounded number of steps, also when work, posts or commands throw; the pages
      carry their nonce on every inline element.
    - Configuration sync: when writes are complete and names are of one line, a
      machine touches only managed files whatever else Redis answers, these cannot change the sections that are kept local, and a version
      that was applied is on disk and not applied again; a tick ends after six
      replies at most, ticks never overlap, and the blocking first pull decides.
    - Text: ini files, status lines, JSON strings, query results, password hashes
      and snapshots are read back as they were written, and so are the statistics of
      the pools, which count what they say; the key transform changes keys only; the
      responses of the public routes can be decoded exactly when the texts they carry
      are UTF-8, and result sets have the shape of UTF-8 whatever they hold.
    - Some theorems and lemmas record where the code falls short: deeply nested
      admin requests overflow the stack, the wake-up of a waiting command can be
      taken by the maintenance thread, shutdown can miss its wake-up, a rule with a
      trailing slash misses its directory, the router does not see the normalized
      path, a login that races with a change of its password is answered with a
      token for the new one, a file name from Redis can add lines to the state file,
      so can a recorded name with a slash remove a local file, a short write is
      reported as done (also by the dry run, which skips local files it cannot
      examine), values of Redis that are not UTF-8 make undecodable JSON, an unreadable directory seeds an empty
      version, a respelled rule blocks the admin API, the dry run does not look at
      the reload interval, a stop of the synchronization can miss a tick that is
      about to start, a pulled configuration that is refused ends the start, and any
      OPTIONS request reaches handlers and upstreams without a token.

    ** Bounds

    Loops that are not structural take fuel that is shown to be enough: the
    chunk and trailer loops and the loop of a session one unit per byte of the
    stream ([chunk_fuel], [session_run]), the
    response heads ten units for at most eight informational responses
    ([head_fuel]), the eviction loops one unit per entry, the readers of JSON one
    per byte of their text; the recursion of the admin reader has the depth of the
    stack as an argument.  Counters of shards and leases wrap on decrement as size_t
    does and are shown not to; increments of counters that count sockets or requests
    are not wrapped.  The tokens of the global bucket are shown to stay within 64 bits
    when the rate times the clock stays below 2^61, 1000 times the burst below 2^60
    and at most 2^40 threads call.  Atomic operations are taken to be sequentially consistent.
    Versions of the history are counted exactly by Lua below 10^14 ([LUA_EXACT]);
    the theorems about transactions assume a counter with room below it.

    ** What is not modelled

    Logging; of JWT verification and of the database clients what OpenSSL, hiredis
    and the MySQL client do, which are classes or events; of the vendored parser the
    entry points for responses and chunked bodies that the gateway does not call;
    the text of the admin pages, which the build embeds.  Failed allocations are not modelled, except where they
    are one reason among others why a call throws. *)

From Stdlib Require Export ZArith Lia Ascii.
From Stdlib Require Strings.String.
From stdpp Require Export base gmap strings list fin_maps option relations sorting.

#[export] Set Default Goal Selector "!".
Global Open Scope string_scope.
Global Open Scope list_scope.
Global Open Scope Z_scope.

(** [simpl] leaves the integer tests of translated conditionals alone. *)
#[global] Arguments Z.eqb : simpl never.
#[global] Arguments Z.leb : simpl never.
#[global] Arguments Z.ltb : simpl never.

(** ** Bytes and strings

    A [std::string] or [std::string_view] is its sequence of [char]s; a string
    literal of the source is read through the coercion below. *)
Abbreviation bytes := (list ascii).
Coercion String.list_ascii_of_string : String.string >-> list.

(** The value of [static_cast<unsigned char>(c)]. *)
Definition code (c : ascii) : Z := Z.of_N (N_of_ascii c).

(** The [char] of a byte value; [uint8_t] arithmetic wraps modulo 256. *)
Definition chr (z : Z) : ascii := ascii_of_N (Z.to_N (z `mod` 256)).

(** [s.size()] as a [size_t] value. *)
Definition slen (s : bytes) : Z := Z.of_nat (length s).

(** The control characters the gateway compares with. *)
Definition NUL : ascii := chr 0.
Definition TAB : ascii := chr 9.
Definition LF : ascii := chr 10.
Definition CR : ascii := chr 13.
Definition DQUOTE : ascii := chr 34.
Definition BACKSLASH : ascii := chr 92.
Definition CRLF : bytes := [CR; LF].

(** *** <cctype>, "C" locale *)

Definition in_range (lo hi c : Z) : bool := (lo <=? c) && (c <=? hi).
Definition isspace (c : ascii) : bool := in_range 9 13 (code c) || (code c =? 32).
Definition isdigit (c : ascii) : bool := in_range 48 57 (code c).
Definition isupper (c : ascii) : bool := in_range 65 90 (code c).
Definition islower (c : ascii) : bool := in_range 97 122 (code c).
Definition isprint (c : ascii) : bool := in_range 32 126 (code c).
Definition isxdigit (c : ascii) : bool :=
  isdigit c || in_range 65 70 (code c) || in_range 97 102 (code c).
Definition tolower (c : ascii) : ascii := if isupper c then chr (code c + 32) else c.
Definition toupper (c : ascii) : ascii := if islower c then chr (code c - 32) else c.

(** *** Equality tests of [char] and [std::string] *)

Definition ceqb (a b : ascii) : bool := bool_decide (a = b).
Definition beqb (a b : bytes) : bool := bool_decide (a = b).

(** *** Searching *)

(** [s.find(c)]: the first position that holds [c]. *)
Fixpoint find_char (c : ascii) (s : bytes) : option nat :=
  match s with
  | [] => None
  | x :: t => if ceqb x c then Some 0%nat else S <$> find_char c t
  end.

(** [s.rfind(c)]: the last position that holds [c]. *)
Fixpoint rfind_char (c : ascii) (s : bytes) : option nat :=
  match s with
  | [] => None
  | x :: t =>
      match rfind_char c t with
      | Some i => Some (S i)
      | None => if ceqb x c then Some 0%nat else None
      end
  end.

(** [s.starts_with(p)], which is also [s.find(p) == 0] and
    [s.rfind(p, 0) == 0]. *)
Fixpoint starts_with (p s : bytes) : bool :=
  match p, s with
  | [], _ => true
  | _ :: _, [] => false
  | a :: p', b :: s' => ceqb a b && starts_with p' s'
  end.

(** [s.find(p)] for a string [p]. *)
Fixpoint find_str (p s : bytes) : option nat :=
  if starts_with p s then Some 0%nat
  else match s with
       | [] => None
       | _ :: t => S <$> find_str p t
       end.

Definition contains_char (c : ascii) (s : bytes) : bool :=
  match find_char c s with Some _ => true | None => false end.

Definition contains_str (p s : bytes) : bool :=
  match find_str p s with Some _ => true | None => false end.

Definition front (s : bytes) : option ascii := head s.
Definition back (s : bytes) : option ascii := last s.

(** *** Trimming with [std::isspace] *)

Fixpoint drop_space (s : bytes) : bytes :=
  match s with
  | [] => []
  | c :: t => if isspace c then drop_space t else s
  end.

Definition drop_space_back (s : bytes) : bytes := reverse (drop_space (reverse s)).

Definition trim (s : bytes) : bytes := drop_space_back (drop_space s).

(** *** Splitting at a separator

    [split_on sep s] lists the maximal pieces between separators, the empty
    pieces included: what the loops of the form
    [while (start <= s.size()) { ... find(sep, start) ... }] visit. *)
Fixpoint split_on (sep : ascii) (s : bytes) : list bytes :=
  match s with
  | [] => [[]]
  | c :: t =>
      if ceqb c sep then [] :: split_on sep t
      else match split_on sep t with
           | [] => [[c]]
           | p :: ps => (c :: p) :: ps
           end
  end.

(** The loops of the form [while (pos < s.size()) { ... }] do not visit the
    empty piece at the end of the input. *)
Definition split_lt (sep : ascii) (s : bytes) : list bytes :=
  let ps := split_on sep s in
  if bool_decide (last ps = Some []) then take (length ps - 1) ps else ps.

Fixpoint join_with (sep : bytes) (ps : list bytes) : bytes :=
  match ps with
  | [] => []
  | [p] => p
  | p :: ps' => p ++ sep ++ join_with sep ps'
  end.

(** ** Machine integers *)

Definition two64 : Z := 2 ^ 64.
Definition SIZE_MAX : Z := 2 ^ 64 - 1.
Definition INT_MAX : Z := 2 ^ 31 - 1.
Definition INT_MIN : Z := - 2 ^ 31.
Definition wrap64 (z : Z) : Z := z `mod` 2 ^ 64.
Definition wrap32 (z : Z) : Z := z `mod` 2 ^ 32.
(** The value a 64-bit two's complement register holds. *)
Definition swrap64 (z : Z) : Z := (z + 2 ^ 63) `mod` 2 ^ 64 - 2 ^ 63.

(** *** [std::to_string] *)

Definition digit (d : Z) : ascii := chr (48 + d).

Fixpoint dec_digits (fuel : nat) (n : Z) : bytes :=
  match fuel with
  | O => []
  | S f => if n <? 10 then [digit n] else dec_digits f (n / 10) ++ [digit (n mod 10)]
  end.

(** A 64-bit value has at most 20 decimal digits. *)
Definition to_string (n : Z) : bytes :=
  if n <? 0 then "-"%char :: dec_digits 20 (- n) else dec_digits 20 n.

(** *** [std::stoi]

    [std::strtol] in base 10: leading white space, an optional sign, digits up
    to the first other byte.  [None] is the exception thrown when there is no
    digit or the value does not fit an [int]; otherwise the value and the number
    of characters consumed. *)
Fixpoint scan_digits (v : Z) (n : nat) (s : bytes) : Z * nat :=
  match s with
  | c :: t => if isdigit c then scan_digits (v * 10 + (code c - 48)) (S n) t else (v, n)
  | [] => (v, n)
  end.

Definition stoi (s : bytes) : option (Z * nat) :=
  let t := drop_space s in
  let '(neg, t') := match t with
                    | c :: u => if ceqb c "-" then (true, u)
                                else if ceqb c "+" then (false, u) else (false, t)
                    | [] => (false, t)
                    end in
  let '(v, n) := scan_digits 0 0 t' in
  let v := if (neg : bool) then - v else v in
  if bool_decide (n = 0%nat) then None
  else if (v <? INT_MIN) || (INT_MAX <? v) then None
  else Some (v, (length s - length t' + n)%nat).

(** ** Exceptions

    A C++ function that may throw returns [Ret] or [Throw what]. *)
Inductive outcome (A : Type) : Type :=
| Ret (a : A)
| Throw (what : bytes).
Arguments Ret {A} a.
Arguments Throw {A} what.

#[export] Instance outcome_ret : MRet outcome := @Ret.
#[export] Instance outcome_bind : MBind outcome := λ A B f m,
  match m with
  | Ret a => f a
  | Throw e => Throw e
  end.
#[export] Instance outcome_fmap : FMap outcome := λ A B f m,
  match m with
  | Ret a => Ret (f a)
  | Throw e => Throw e
  end.

Definition is_ret {A} (m : outcome A) : bool :=
  match m with Ret _ => true | Throw _ => false end.

Lemma bind_Ret_inv {A B} (m : outcome A) (k : A → outcome B) b :
  m ≫= k = Ret b ↔ ∃ a, m = Ret a ∧ k a = Ret b.
Proof. destruct m; naive_solver. Qed.

(** ** [std::sort]

    [std::sort] promises a permutation in which no element is smaller than an
    earlier one; the order of equivalent elements is left open, so the clients
    are proved against every implementation of this class. *)
Class StdSort := std_sort : ∀ {A : Type}, (A → A → bool) → list A → list A.

(** A strict weak order, the precondition of [std::sort]. *)
Record strict_weak {A} (less : A → A → bool) : Prop := {
  sw_irrefl a : less a a = false;
  sw_trans a b c : less a b = true → less b c = true → less a c = true;
  sw_incomp a b c : less a b = false → less b c = false → less a c = false
}.

Class StdSortLaws `{StdSort} := {
  std_sort_perm {A} (less : A → A → bool) l : strict_weak less → std_sort less l ≡ₚ l;
  std_sort_sorted {A} (less : A → A → bool) l : strict_weak less →
    StronglySorted (λ a b, less b a = false) (std_sort less l)
}.

(** An insertion sort, to run the clients. *)
Fixpoint insert_by {A} (less : A → A → bool) (x : A) (l : list A) : list A :=
  match l with
  | [] => [x]
  | y :: t => if less y x then y :: insert_by less x t else x :: l
  end.

Definition insertion_sort : StdSort := λ A less l, foldr (insert_by less) [] l.

(** ** Shared automation *)

Create HintDb gw discriminated.

(** Settle a closed fact about one byte by trying all 256 of them. *)
Ltac all_bytes c := destruct c as [[] [] [] [] [] [] [] []]; vm_compute; try reflexivity; try congruence.

(** Case analysis on the boolean tests of translated conditionals. *)
Ltac case_if :=
  match goal with
  | |- context [if ?b then _ else _] => destruct b eqn:?
  | H : context [if ?b then _ else _] |- _ => destruct b eqn:?
  end.

Ltac bool_prop :=
  repeat match goal with
  | H : (_ && _) = true |- _ => apply andb_prop in H; destruct H
  | H : (_ || _) = false |- _ => apply orb_false_elim in H; destruct H
  | H : (_ || _) = true |- _ => apply orb_prop in H
  | H : negb _ = true |- _ => apply negb_true_iff in H
  | H : negb _ = false |- _ => apply negb_false_iff in H
  | H : (_ <=? _) = true |- _ => apply Z.leb_le in H
  | H : (_ <=? _) = false |- _ => apply Z.leb_gt in H
  | H : (_ <? _) = true |- _ => apply Z.ltb_lt in H
  | H : (_ <? _) = false |- _ => apply Z.ltb_ge in H
  | H : (_ =? _) = true |- _ => apply Z.eqb_eq in H
  | H : (_ =? _) = false |- _ => apply Z.eqb_neq in H
  | H : bool_decide _ = true |- _ => apply bool_decide_eq_true_1 in H
  | H : bool_decide _ = false |- _ => apply bool_decide_eq_false_1 in H
  end.

(** Induction on the length of a list, for loops that consume several elements. *)
Lemma list_length_ind {A} (P : list A → Prop) :
  (∀ l, (∀ l', (length l' < length l)%nat → P l') → P l) → ∀ l, P l.
Proof.
  intros H. assert (∀ n l, (length l < n)%nat → P l) as Hn.
  { induction n as [|n IH]; intros l Hl; [lia|]. apply H. intros l' Hl'. apply IH. lia. }
  intros l. apply (Hn (S (length l))). lia.
Qed.

(** ** Lemmas on bytes *)

Lemma ceqb_eq a b : ceqb a b = true ↔ a = b.
Proof. unfold ceqb. apply bool_decide_eq_true. Qed.

Lemma ceqb_ne a b : ceqb a b = false ↔ a ≠ b.
Proof. unfold ceqb. apply bool_decide_eq_false. Qed.

Lemma ceqb_refl a : ceqb a a = true.
Proof. by apply ceqb_eq. Qed.

Lemma beqb_eq a b : beqb a b = true ↔ a = b.
Proof. unfold beqb. apply bool_decide_eq_true. Qed.

Lemma beqb_ne a b : beqb a b = false ↔ a ≠ b.
Proof. unfold beqb. apply bool_decide_eq_false. Qed.

Lemma beqb_refl a : beqb a a = true.
Proof. by apply beqb_eq. Qed.

Lemma code_range c : 0 ≤ code c < 256.
Proof.
  unfold code. pose proof (N_ascii_bounded c). lia.
Qed.

Lemma chr_code c : chr (code c) = c.
Proof.
  unfold chr. rewrite Z.mod_small by apply code_range.
  unfold code. rewrite N2Z.id. apply ascii_N_embedding.
Qed.

Lemma code_chr z : 0 ≤ z < 256 → code (chr z) = z.
Proof.
  intros Hz. unfold code, chr. rewrite Z.mod_small by done.
  rewrite N_ascii_embedding; lia.
Qed.

Lemma code_inj a b : code a = code b → a = b.
Proof. intros H. by rewrite <- (chr_code a), <- (chr_code b), H. Qed.

Lemma tolower_idem c : tolower (tolower c) = tolower c.
Proof. all_bytes c. Qed.

Lemma toupper_idem c : toupper (toupper c) = toupper c.
Proof. all_bytes c. Qed.

(** A byte that is no upper-case letter is the image of itself only, or of an
    upper-case letter when it is a lower-case one. *)
Lemma tolower_special c d : islower d = false → tolower c = d → c = d.
Proof.
  unfold tolower. intros Hd Hc. case_if; [|done]. exfalso.
  unfold isupper, in_range in *. bool_prop. subst d.
  unfold islower, in_range in Hd. rewrite code_chr in Hd by lia.
  apply andb_false_iff in Hd as [?|?]; bool_prop; lia.
Qed.

Lemma digit_code d : 0 ≤ d < 10 → code (digit d) = 48 + d.
Proof. intros. apply code_chr. lia. Qed.

Lemma slen_app s t : slen (s ++ t) = slen s + slen t.
Proof. unfold slen. rewrite length_app. lia. Qed.

Lemma slen_nonneg s : 0 ≤ slen s.
Proof. unfold slen. lia. Qed.

Lemma slen_0 s : slen s = 0 ↔ s = [].
Proof. unfold slen. rewrite <- length_zero_iff_nil. lia. Qed.

#[export] Hint Resolve slen_nonneg code_range : gw.

(** ** Searching *)

Lemma find_char_Some c s i :
  find_char c s = Some i →
  s = take i s ++ c :: drop (S i) s ∧ c ∉ take i s ∧ (i < length s)%nat.
Proof.
  revert i. induction s as [|x t IH]; intros i; simpl; [done|].
  destruct (ceqb x c) eqn:E.
  - intros [= <-]. apply ceqb_eq in E as ->. simpl. repeat split; [set_solver|lia].
  - destruct (find_char c t) as [j|] eqn:F; simpl; [|done]. intros [= <-].
    destruct (IH j eq_refl) as (Ht & Hn & Hl). simpl. apply ceqb_ne in E.
    repeat split; [by rewrite <- Ht| |lia]. rewrite elem_of_cons. naive_solver.
Qed.

Lemma find_char_None c s : find_char c s = None ↔ c ∉ s.
Proof.
  induction s as [|x t IH]; simpl; [set_solver|].
  rewrite elem_of_cons. destruct (ceqb x c) eqn:E.
  - apply ceqb_eq in E as ->. split; [done|]. intros []. by left.
  - apply ceqb_ne in E. destruct (find_char c t); naive_solver.
Qed.

Lemma find_char_app c p t : c ∉ p → find_char c (p ++ c :: t) = Some (length p).
Proof.
  induction p as [|x p IH]; simpl; [by rewrite ceqb_refl|].
  rewrite not_elem_of_cons. intros [Hx Hp].
  rewrite (proj2 (ceqb_ne x c)) by done. by rewrite IH.
Qed.

Lemma find_char_skip c p t : c ∉ p → find_char c (p ++ t) = Nat.add (length p) <$> find_char c t.
Proof.
  induction p as [|x p IH]; simpl; [by destruct (find_char c t)|].
  rewrite not_elem_of_cons. intros [Hx Hp]. rewrite (proj2 (ceqb_ne x c)) by done.
  rewrite IH by done. by destruct (find_char c t).
Qed.

Lemma contains_char_spec c s : contains_char c s = true ↔ c ∈ s.
Proof.
  unfold contains_char. destruct (find_char c s) eqn:E.
  - apply find_char_Some in E as (-> & _). set_solver.
  - apply find_char_None in E. naive_solver.
Qed.

Lemma contains_char_false c s : contains_char c s = false ↔ c ∉ s.
Proof. rewrite <- contains_char_spec. destruct (contains_char c s); naive_solver. Qed.

Lemma starts_with_spec p s : starts_with p s = true ↔ ∃ t, s = p ++ t.
Proof.
  revert s. induction p as [|a p IH]; intros s; simpl; [naive_solver|].
  destruct s as [|b s]; [naive_solver|].
  rewrite andb_true_iff, ceqb_eq, IH. naive_solver.
Qed.

Lemma starts_with_app p t : starts_with p (p ++ t) = true.
Proof. apply starts_with_spec. eauto. Qed.

Lemma starts_with_app_l p s t : starts_with p s = true → starts_with p (s ++ t) = true.
Proof.
  rewrite !starts_with_spec. intros [u ->]. exists (u ++ t). by rewrite app_assoc.
Qed.

Lemma find_str_Some p s i :
  find_str p s = Some i → s = take i s ++ p ++ drop (i + length p) s ∧ (i + length p ≤ length s)%nat.
Proof.
  revert i. induction s as [|x t IH]; intros i; simpl.
  - destruct p; [|done]. intros [= <-]. done.
  - destruct (starts_with p (x :: t)) eqn:E.
    + intros [= <-]. apply starts_with_spec in E as [u Hu].
      change (S (length t)) with (length (x :: t)). rewrite Hu. simpl.
      rewrite drop_app_length, length_app. split; [done|lia].
    + destruct (find_str p t) as [j|] eqn:F; simpl; [|done]. intros [= <-].
      destruct (IH j eq_refl) as [Ht Hl]. simpl. split; [by rewrite <- Ht|lia].
Qed.

(** Data appended on the right never moves a match. *)
Lemma find_str_app_l p s t i : find_str p s = Some i → find_str p (s ++ t) = Some i.
Proof.
  revert i. induction s as [|x s IH]; intros i H.
  - simpl in H. destruct p; [|done]. simplify_eq. by destruct t.
  - cbn [find_str app] in *. change (x :: s ++ t) with ((x :: s) ++ t).
    destruct (starts_with p (x :: s)) eqn:E.
    + simplify_eq. by rewrite starts_with_app_l.
    + destruct (find_str p s) as [j|] eqn:F; simplify_eq/=.
      destruct (starts_with p (x :: s ++ t)) eqn:E'.
      * exfalso. apply starts_with_spec in E' as [u Hu].
        apply find_str_Some in F as [Hs Hl].
        assert (length p ≤ length (x :: s))%nat as Hle by (simpl; lia).
        assert (starts_with p (x :: s) = true); [|congruence].
        apply starts_with_spec. exists (drop (length p) (x :: s)).
        assert (p = take (length p) (x :: s)) as Hp.
        { rewrite <- (take_app_le (x :: s) t) by done.
          change ((x :: s) ++ t) with (x :: s ++ t). by rewrite Hu, take_app_length. }
        rewrite Hp at 1. by rewrite take_drop.
      * by rewrite (IH j eq_refl).
Qed.

(** [line] contains no complete CRLF, nor one completed by the CRLF that ends
    the line: the first match in [line ++ CRLF] is the terminator. *)
Definition crlf_free (line : bytes) : Prop := find_str CRLF (line ++ CRLF) = Some (length line).

Lemma find_crlf_line line rest :
  crlf_free line → find_str CRLF (line ++ CRLF ++ rest) = Some (length line).
Proof. intros H. rewrite app_assoc. by apply find_str_app_l. Qed.

Lemma crlf_free_no_cr line : CR ∉ line → crlf_free line.
Proof.
  unfold crlf_free. induction line as [|c line IH]; intros Hc; [done|].
  apply not_elem_of_cons in Hc as [Hne Hc]. cbn [find_str app length].
  replace (starts_with CRLF (c :: line ++ CRLF)) with false; [by rewrite IH|].
  simpl. rewrite (proj2 (ceqb_ne CR c)) by done. done.
Qed.

(** While the terminator has not fully arrived there is no match. *)
Lemma find_crlf_partial line buf suf :
  crlf_free line → line ++ CRLF = buf ++ suf → suf ≠ [] → find_str CRLF buf = None.
Proof.
  unfold crlf_free. intros H1 Heq Hs. destruct (find_str CRLF buf) as [i|] eqn:F; [|done].
  rewrite Heq, (find_str_app_l _ _ _ _ F) in H1. simplify_eq.
  apply find_str_Some in F as [_ Hl]. simpl in Hl.
  assert (length (line ++ CRLF) = length (buf ++ suf)) as HL by congruence.
  rewrite !length_app in HL. simpl in HL. destruct suf; simpl in *; [done|lia].
Qed.

(** What stands before the first CRLF of a buffer is such a line. *)
Lemma find_crlf_take buf pos :
  find_str CRLF buf = Some pos →
  crlf_free (take pos buf) ∧ length (take pos buf) = pos ∧
  buf = take pos buf ++ CRLF ++ drop (pos + 2) buf.
Proof.
  intros H. pose proof (find_str_Some _ _ _ H) as [Heq Hl]. simpl in Hl.
  assert (length (take pos buf) = pos) as Hlen by (rewrite length_take; lia).
  repeat split; [|done|exact Heq]. unfold crlf_free. rewrite Hlen.
  destruct (find_str CRLF (take pos buf ++ CRLF)) as [i|] eqn:F.
  - pose proof (find_str_app_l _ _ (drop (pos + 2) buf) _ F) as F'.
    rewrite <- app_assoc in F'. change (pos + 2)%nat with (pos + length CRLF)%nat in F'.
    rewrite <- Heq in F'. congruence.
  - exfalso. revert F. clear. generalize (take pos buf) as l.
    induction l as [|c l IH]; cbn [app find_str]; [done|].
    case_if; [done|]. destruct (find_str CRLF (l ++ CRLF)); [done|auto].
Qed.

(** ** Splitting *)

Lemma split_on_nonempty sep s : split_on sep s ≠ [].
Proof. destruct s; simpl; [done|]. case_if; [done|]. by destruct (split_on sep s). Qed.

Lemma join_split sep s : join_with [sep] (split_on sep s) = s.
Proof.
  induction s as [|c t IH]; simpl; [done|].
  pose proof (split_on_nonempty sep t) as Hne.
  destruct (ceqb c sep) eqn:E.
  - apply ceqb_eq in E as ->. destruct (split_on sep t); [done|].
    by rewrite <- IH.
  - destruct (split_on sep t) as [|p [|q ps]]; [done| |]; simpl in *; by rewrite <- IH.
Qed.

Lemma split_on_pieces sep s : Forall (λ p, sep ∉ p) (split_on sep s).
Proof.
  induction s as [|c t IH]; simpl; [repeat constructor; set_solver|].
  destruct (ceqb c sep) eqn:E; [constructor; [set_solver|done]|].
  apply ceqb_ne in E. inversion IH; subst; constructor; [|done| |done]; set_solver.
Qed.

Lemma split_on_app sep p t : sep ∉ p → split_on sep (p ++ sep :: t) = p :: split_on sep t.
Proof.
  induction p as [|c p IH]; simpl; intros Hp; [by rewrite ceqb_refl|].
  apply not_elem_of_cons in Hp as [Hne Hp].
  rewrite (proj2 (ceqb_ne c sep)) by done. by rewrite IH.
Qed.

Lemma split_on_app_gen sep a b :
  split_on sep (a ++ sep :: b) = split_on sep a ++ split_on sep b.
Proof.
  induction a as [|c a IH]; simpl; [by rewrite ceqb_refl|].
  destruct (ceqb c sep); [by rewrite IH|].
  rewrite IH. pose proof (split_on_nonempty sep a). by destruct (split_on sep a).
Qed.

Lemma split_lt_app sep a b :
  split_lt sep (a ++ sep :: b) = split_on sep a ++ split_lt sep b.
Proof.
  unfold split_lt. rewrite split_on_app_gen, last_app.
  pose proof (split_on_nonempty sep b) as Hb.
  destruct (last (split_on sep b)) as [l|] eqn:E; [|by apply last_None in E].
  destruct (bool_decide (Some l = Some [])); [|done].
  rewrite length_app, take_app_ge by (destruct (split_on sep b); simpl in *; [done|lia]).
  f_equal. f_equal. destruct (split_on sep b); simpl in *; [done|lia].
Qed.

Lemma split_on_notin sep p : sep ∉ p → split_on sep p = [p].
Proof.
  induction p as [|c p IH]; simpl; intros Hp; [done|].
  apply not_elem_of_cons in Hp as [Hne Hp].
  rewrite (proj2 (ceqb_ne c sep)) by done. by rewrite IH.
Qed.

(** ** Trimming *)

Lemma drop_space_suffix s : ∃ p, s = p ++ drop_space s ∧ Forall (λ c, isspace c = true) p.
Proof.
  induction s as [|c t IH]; simpl; [by exists []|].
  destruct (isspace c) eqn:E; [|by exists []].
  destruct IH as (p & Ht & Hp). exists (c :: p). split; [simpl; by f_equal|by constructor].
Qed.

Lemma drop_space_id s : (∀ c, head s = Some c → isspace c = false) → drop_space s = s.
Proof. destruct s as [|c t]; simpl; [done|]. intros H. by rewrite (H c). Qed.

Lemma drop_space_head s c : head (drop_space s) = Some c → isspace c = false.
Proof. induction s as [|x t IH]; simpl; [done|]. case_if; [done|]. simpl. congruence. Qed.

Lemma trim_id s :
  (∀ c, head s = Some c → isspace c = false) →
  (∀ c, last s = Some c → isspace c = false) → trim s = s.
Proof.
  intros H1 H2. unfold trim, drop_space_back. rewrite (drop_space_id s H1).
  rewrite drop_space_id, reverse_involutive; [done|].
  intros c. rewrite head_reverse. apply H2.
Qed.

Lemma trim_no_space s : Forall (λ c, isspace c = false) s → trim s = s.
Proof.
  intros Hs. apply trim_id; intros c Hc.
  - destruct s; simplify_eq/=. by inversion Hs.
  - apply last_Some_elem_of in Hc. rewrite Forall_forall in Hs. by apply Hs.
Qed.

Lemma trim_infix s : ∃ p q, s = p ++ trim s ++ q ∧
  Forall (λ c, isspace c = true) p ∧ Forall (λ c, isspace c = true) q.
Proof.
  unfold trim, drop_space_back.
  destruct (drop_space_suffix s) as (p & Hp & Fp).
  destruct (drop_space_suffix (reverse (drop_space s))) as (q & Hq & Fq).
  exists p, (reverse q). split; [|split; [done|by apply Forall_reverse]].
  rewrite Hp at 1. f_equal.
  rewrite <- reverse_app, <- Hq. by rewrite reverse_involutive.
Qed.

Lemma trim_elem c s : c ∈ trim s → c ∈ s.
Proof. destruct (trim_infix s) as (p & q & Hs & _). rewrite Hs at 2. set_solver. Qed.

Lemma trim_head s c : head (trim s) = Some c → isspace c = false.
Proof.
  unfold trim, drop_space_back. set (t := drop_space s) in *.
  destruct (drop_space_suffix (reverse t)) as (q & Hq & Fq).
  assert (t = reverse (drop_space (reverse t)) ++ reverse q) as Ht.
  { by rewrite <- reverse_app, <- Hq, reverse_involutive. }
  intros Hc. apply (drop_space_head s). fold t. rewrite Ht.
  destruct (reverse (drop_space (reverse t))); simplify_eq/=. done.
Qed.

Lemma trim_last s c : last (trim s) = Some c → isspace c = false.
Proof.
  unfold trim, drop_space_back. rewrite last_reverse. apply drop_space_head.
Qed.

Lemma trim_idem s : trim (trim s) = trim s.
Proof. apply trim_id; [apply trim_head|apply trim_last]. Qed.

(** ** Filtering *)

Lemma filter_ext_in {A} (P Q : A → Prop) `{∀ x, Decision (P x), ∀ x, Decision (Q x)} (l : list A) :
  (∀ x, x ∈ l → P x ↔ Q x) → filter P l = filter Q l.
Proof.
  induction l as [|x l IH]; intros Hl; [done|].
  assert (filter P l = filter Q l) as Hf by (apply IH; intros y Hy; apply Hl; by right).
  pose proof (Hl x (list_elem_of_here _ _)) as Hx. destruct (decide (P x)) as [HP|HP].
  - rewrite !filter_cons_True by naive_solver. by rewrite Hf.
  - rewrite !filter_cons_False by naive_solver. done.
Qed.

Lemma filter_all {A} (P : A → Prop) `{∀ x, Decision (P x)} (l : list A) :
  Forall P l → filter P l = l.
Proof. induction 1; [done|]. rewrite filter_cons_True by done. by f_equal. Qed.

Lemma fmap_filter {A B} (f : A → B) (P : B → Prop) `{∀ x, Decision (P x), ∀ x, Decision (P (f x))}
    (l : list A) :
  f <$> filter (λ x, P (f x)) l = filter P (f <$> l).
Proof.
  induction l as [|x l IH]; [done|]. rewrite fmap_cons. destruct (decide (P (f x))).
  - rewrite !filter_cons_True by done. by rewrite fmap_cons, IH.
  - by rewrite !filter_cons_False by done.
Qed.

(** ** Decimal numbers *)

(** The value of a digit string. *)
Definition dec_number_from (v : Z) (s : bytes) : Z := foldl (λ v c, v * 10 + (code c - 48)) v s.
Definition dec_number (s : bytes) : Z := dec_number_from 0 s.

Lemma isdigit_range c : isdigit c = true ↔ 48 ≤ code c ≤ 57.
Proof.
  unfold isdigit, in_range. rewrite andb_true_iff, !Z.leb_le. lia.
Qed.

Lemma dec_value_from_ge s v : Forall (λ c, isdigit c = true) s → 0 ≤ v → v ≤ dec_number_from v s.
Proof.
  revert v. induction s as [|c t IH]; intros v Hs Hv; [simpl; lia|].
  inversion Hs as [|?? Hc Ht]; subst. apply isdigit_range in Hc.
  unfold dec_number_from in *. simpl. etrans; [|apply IH; [done|lia]]. lia.
Qed.

Lemma dec_digits_spec fuel n :
  0 ≤ n < 10 ^ Z.of_nat fuel →
  Forall (λ c, isdigit c = true) (dec_digits fuel n) ∧
  (∀ v, dec_number_from v (dec_digits fuel n) = v * 10 ^ slen (dec_digits fuel n) + n) ∧
  ((0 < fuel)%nat → dec_digits fuel n ≠ []).
Proof.
  revert n. induction fuel as [|f IH]; intros n Hn.
  { change (10 ^ Z.of_nat 0) with 1 in Hn. simpl. repeat split; [constructor| |lia].
    intros v. unfold dec_number_from. simpl. change (slen []) with 0. lia. }
  cbn [dec_digits]. destruct (n <? 10) eqn:E; bool_prop.
  - assert (isdigit (digit n) = true).
    { apply isdigit_range. rewrite digit_code by lia. lia. }
    repeat split; [by repeat constructor| |done].
    intros v. unfold dec_number_from. simpl. rewrite digit_code by lia.
    change (slen [digit n]) with 1. lia.
  - pose proof (Z.mod_pos_bound n 10). pose proof (Z.div_mod n 10).
    rewrite Nat2Z.inj_succ, Z.pow_succ_r in Hn by lia.
    destruct (IH (n / 10)) as (H1 & H2 & H3).
    { split; [apply Z.div_pos; lia|apply Z.div_lt_upper_bound; lia]. }
    assert (isdigit (digit (n mod 10)) = true).
    { apply isdigit_range. rewrite digit_code by lia. lia. }
    repeat split.
    + apply Forall_app. split; [done|by repeat constructor].
    + intros v. unfold dec_number_from in *. rewrite foldl_app, H2. simpl.
      rewrite digit_code by lia. rewrite slen_app. change (slen [_]) with 1.
      rewrite Z.pow_add_r by (auto with gw || lia). lia.
    + intros _ Hnil. by apply app_eq_nil in Hnil as [_ ?].
Qed.

Lemma to_string_digits n :
  0 ≤ n ≤ SIZE_MAX →
  Forall (λ c, isdigit c = true) (to_string n) ∧ dec_number (to_string n) = n ∧ to_string n ≠ [].
Proof.
  intros Hn. unfold to_string. replace (n <? 0) with false by lia.
  destruct (dec_digits_spec 20 n) as (H1 & H2 & H3).
  { split; [lia|]. unfold SIZE_MAX in Hn. change (Z.of_nat 20) with 20. lia. }
  repeat split; [done| |by apply H3; lia]. unfold dec_number. rewrite H2. lia.
Qed.

Lemma isdigit_not_space c : isdigit c = true → isspace c = false.
Proof. all_bytes c. Qed.

Lemma digits_trim s : Forall (λ c, isdigit c = true) s → trim s = s.
Proof. intros H. apply trim_no_space. eapply Forall_impl; [done|]. apply isdigit_not_space. Qed.

Lemma to_string_trim n : 0 ≤ n ≤ SIZE_MAX → trim (to_string n) = to_string n.
Proof. intros H. by apply digits_trim, to_string_digits. Qed.

Lemma digits_not_elem c s : Forall (λ c, isdigit c = true) s → isdigit c = false → c ∉ s.
Proof. intros Hs Hc Hin. rewrite Forall_forall in Hs. apply Hs in Hin. congruence. Qed.

(** ** Sorting *)

Lemma insert_by_perm {A} less (x : A) l : insert_by less x l ≡ₚ x :: l.
Proof.
  induction l as [|y t IH]; simpl; [done|]. case_if; [|done].
  rewrite IH. constructor.
Qed.

Lemma insert_by_sorted {A} less (x : A) l : strict_weak less →
  StronglySorted (λ a b, less b a = false) l →
  StronglySorted (λ a b, less b a = false) (insert_by less x l).
Proof.
  intros Hsw. induction 1 as [|y t Ht IH Hy]; simpl; [by repeat constructor|].
  destruct (less y x) eqn:E.
  - constructor; [done|]. rewrite insert_by_perm. constructor; [|done].
    destruct (less x y) eqn:E'; [|done].
    pose proof (sw_trans _ Hsw _ _ _ E E'). by rewrite (sw_irrefl _ Hsw) in *.
  - constructor; [by constructor|]. constructor; [done|].
    eapply Forall_impl; [exact Hy|]. intros z Hz. by apply (sw_incomp _ Hsw z y x).
Qed.

#[export] Instance insertion_sort_laws : @StdSortLaws insertion_sort.
Proof.
  split; intros A less l Hsw; unfold std_sort, insertion_sort.
  - induction l as [|x l IH]; simpl; [done|]. by rewrite insert_by_perm, IH.
  - induction l as [|x l IH]; simpl; [constructor|]. by apply insert_by_sorted.
Qed.

(** With keys compared strictly, sorting is determined by the elements. *)
Lemma sorted_perm_unique {A} (less : A → A → bool) l1 l2 :
  (∀ a b, a ∈ l1 → b ∈ l1 → less a b = false → less b a = false → a = b) →
  StronglySorted (λ a b, less b a = false) l1 →
  StronglySorted (λ a b, less b a = false) l2 → l1 ≡ₚ l2 → l1 = l2.
Proof.
  intros Hanti H1. revert l2. induction H1 as [|x t Ht IH Hx]; intros l2 H2 Hp.
  { symmetry. by apply Permutation_nil. }
  destruct H2 as [|y u Hu Hy]; [by symmetry in Hp; apply Permutation_nil in Hp|].
  assert (x = y) as <-.
  { rewrite Forall_forall in Hx, Hy.
    assert (x ∈ y :: u) as Hxin by (rewrite <- Hp; left).
    assert (y ∈ x :: t) as Hyin by (rewrite Hp; left).
    apply elem_of_cons in Hxin as [?|Hxin]; [done|]. pose proof Hyin as Hyin'.
    apply elem_of_cons in Hyin as [?|Hyin]; [done|].
    apply Hanti; [left|done| |]; auto. }
  apply Permutation_cons_inv in Hp. f_equal. apply IH; [|done|done].
  intros a b Ha Hb. apply Hanti; by right.
Qed.

#[export] Hint Rewrite ceqb_refl beqb_refl slen_app trim_idem tolower_idem toupper_idem : gw.

(** ** Sums over the threads of a machine *)

Definition total {A} (f : A → Z) (ts : list A) : Z := foldr (λ p acc, f p + acc) 0 ts.

Lemma total_app {A} (f : A → Z) ts us : total f (ts ++ us) = total f ts + total f us.
Proof. induction ts as [|p ts IH]; [done|]. cbn [app total foldr] in *. unfold total in *. lia. Qed.

Lemma total_fmap {A} (f : A → Z) (g : A → A) ts : (∀ p, f (g p) = f p) → total f (g <$> ts) = total f ts.
Proof. intros Hg. induction ts as [|p ts IH]; [done|]. cbn [fmap list_fmap total foldr] in *. unfold total in *. rewrite Hg. lia. Qed.

Lemma total_insert {A} (f : A → Z) ts i p p' :
  ts !! i = Some p → total f (<[i := p']> ts) = total f ts - f p + f p'.
Proof.
  revert i. induction ts as [|q ts IH]; intros [|i]; simpl; try done.
  - intros [= ->]. lia.
  - intros Hi. rewrite IH by done. lia.
Qed.

Lemma total_bounds {A} (f : A → Z) ts lo hi : (∀ p, lo ≤ f p ≤ hi) →
  lo * Z.of_nat (length ts) ≤ total f ts ≤ hi * Z.of_nat (length ts).
Proof. intros Hf. induction ts as [|p ts IH]; simpl; [lia|]. specialize (Hf p). lia. Qed.

Lemma total_mono {A} (f g : A → Z) ts : (∀ p, p ∈ ts → f p ≤ g p) → total f ts ≤ total g ts.
Proof.
  intros Hf. induction ts as [|p ts IH]; simpl; [done|].
  pose proof (Hf p (list_elem_of_here _ _)). cut (total f ts ≤ total g ts); [lia|].
  apply IH. intros q Hq. apply Hf. by right.
Qed.

Lemma total_zero {A} (f : A → Z) ts : (∀ p, p ∈ ts → f p = 0) → total f ts = 0.
Proof.
  intros Hf. induction ts as [|p ts IH]; simpl; [done|].
  rewrite Hf by left. rewrite IH; [done|]. intros q Hq. apply Hf. by right.
Qed.

Lemma wrap64_small z : 0 ≤ z ≤ SIZE_MAX → wrap64 z = z.
Proof. unfold wrap64, SIZE_MAX. intros Hz. apply Z.mod_small. lia. Qed.

Lemma total_nonneg {A} (f : A → Z) ts : (∀ p, 0 ≤ f p) → 0 ≤ total f ts.
Proof. intros Hf. induction ts as [|p ts IH]; cbn; [lia|]. specialize (Hf p). unfold total in IH. lia. Qed.

(** One summand is at most the sum; two are too. *)
Lemma total_one {A} (f : A → Z) ts i p : (∀ q, 0 ≤ f q) → ts !! i = Some p → f p ≤ total f ts.
Proof.
  intros Hf. revert i. induction ts as [|q ts IH]; intros [|i]; simpl; try done.
  - intros [= ->]. pose proof (total_mono (λ _, 0) f ts (λ q _, Hf q)) as Hm.
    rewrite (total_zero (λ _ : A, 0)) in Hm by done. lia.
  - intros Hi. specialize (IH _ Hi). pose proof (Hf q). lia.
Qed.

Lemma total_two {A} (f : A → Z) ts i j p q : (∀ q, 0 ≤ f q) → ts !! i = Some p → ts !! j = Some q → i ≠ j →
  f p + f q ≤ total f ts.
Proof.
  intros Hf. revert i j. induction ts as [|r ts IH]; intros [|i] [|j]; simpl; try done.
  - intros [= ->] Hq _. pose proof (total_one f ts _ _ Hf Hq). lia.
  - intros Hp [= ->] _. pose proof (total_one f ts _ _ Hf Hp). lia.
  - intros Hp Hq Hne. pose proof (IH _ _ Hp Hq ltac:(congruence)). pose proof (Hf r). lia.
Qed.
