(* ===== verification/HttpProtocol.v ===== *)
(** * HTTP protocol helpers (src/src/http/http_protocol.hpp, http_context.hpp)

    The byte-level routines every other HTTP component calls: size parsing with
    its overflow guards, the status line, header fields and the framing state
    ([HeaderParseState]) that decides how a message body is delimited.  The
    theorems give each parser its reference meaning and show that a header
    block whose framing state is accepted describes exactly one body length. *)

From S2P Require Import Prelude.

(** ** Constants and records *)

Definition kHttpIoBufferSize : Z := 4096.
Definition kClientReadBufferSize : Z := 8192.
Definition kMaxHeaderSize : Z := 64 * 1024.
Definition kMaxBodySize : Z := 10 * 1024 * 1024.

Abbreviation headers := (list (bytes * bytes)).

Record HeaderParseState := mkHeaderParseState {
  content_length : option Z;
  invalid_header_name : bool;
  duplicate_content_length : bool;
  invalid_content_length : bool;
  is_chunked : bool;
  has_transfer_encoding : bool;
  invalid_transfer_encoding : bool;
  connection_close : bool;
  connection_keep_alive : bool
}.

Definition header_state0 : HeaderParseState :=
  mkHeaderParseState None false false false false false false false false.

Record HeaderTokens := mkHeaderTokens { tok_close : bool; tok_keep_alive : bool }.

(** ** Size parsing *)

Definition trim_view (s : bytes) : bytes := trim s.
Definition trim_copy (s : bytes) : bytes := trim_view s.

(** The digit loop, with the guard
    [value > (max - d) / 10] that rejects before [value * 10 + d] can wrap. *)
Fixpoint decimal_loop (value : Z) (s : bytes) : option Z :=
  match s with
  | [] => Some value
  | c :: t =>
      if (code c <? 48) || (57 <? code c) then None
      else let d := code c - 48 in
           if (SIZE_MAX - d) / 10 <? value then None
           else decimal_loop (value * 10 + d) t
  end.

Definition parse_decimal_size (s : bytes) : option Z :=
  let trimmed := trim_view s in
  match trimmed with
  | [] => None
  | _ => decimal_loop 0 trimmed
  end.

Definition hex_digit (c : ascii) : option Z :=
  if in_range 48 57 (code c) then Some (code c - 48)
  else if in_range 97 102 (code c) then Some (code c - 97 + 10)
  else if in_range 65 70 (code c) then Some (code c - 65 + 10)
  else None.

Arguments hex_digit : simpl never.

Fixpoint hex_loop (value : Z) (s : bytes) : option Z :=
  match s with
  | [] => Some value
  | c :: t =>
      match hex_digit c with
      | None => None
      | Some d =>
          if (SIZE_MAX - d) / 16 <? value then None
          else hex_loop (value * 16 + d) t
      end
  end.

(** A chunk-size line; whatever follows [';'] is a chunk extension. *)
Definition parse_hex_size_line (line : bytes) : option Z :=
  let digits := trim_view (match find_char ";" line with
                           | None => line
                           | Some e => take e line
                           end) in
  match digits with
  | [] => None
  | _ => hex_loop 0 digits
  end.

(** ** Status line *)

(** The part after the version test: the text between the first two spaces is
    the code, what follows is the reason phrase. *)
Definition status_line_fields (line : bytes) : option (Z * bytes) :=
  match find_char " " line with
  | None => None
  | Some first_space =>
      match find_char " " (drop (first_space + 1) line) with
      | None => None
      | Some k =>
          let second_space := (first_space + 1 + k)%nat in
          let code_text := take (second_space - first_space - 1) (drop (first_space + 1) line) in
          match parse_decimal_size code_text with
          | None => None
          | Some c =>
              if negb (slen code_text =? 3) || (c <? 100) || (599 <? c) then None
              else Some (c, drop (second_space + 1) line)
          end
      end
  end.

Definition parse_http_status_line (line : bytes) : option (Z * bytes) :=
  let http10 := starts_with "HTTP/1.0 " line in
  let http11 := starts_with "HTTP/1.1 " line in
  if negb http10 && negb http11 then None else status_line_fields line.

(** ** Header names *)

Fixpoint header_iequals (a b : bytes) : bool :=
  match a, b with
  | [], [] => true
  | x :: a', y :: b' => ceqb (tolower x) (tolower y) && header_iequals a' b'
  | _, _ => false
  end.

Definition to_lower (s : bytes) : bytes := tolower <$> s.

(** ** The Connection header *)

Definition connection_token_step (acc : HeaderTokens * list bytes) (piece : bytes) :
    HeaderTokens * list bytes :=
  let '(tokens, out) := acc in
  let token := trim_view piece in
  match token with
  | [] => acc
  | _ =>
      (mkHeaderTokens (tok_close tokens || header_iequals token "close")
                      (tok_keep_alive tokens || header_iequals token "keep-alive"),
       out ++ [token])
  end.

(** The tokens seen and the list pushed to [*out]. *)
Definition split_connection_tokens (value : bytes) : HeaderTokens * list bytes :=
  foldl connection_token_step (mkHeaderTokens false false, []) (split_on "," value).

(** ** Framing state *)

Definition set_invalid_header_name (st : HeaderParseState) : HeaderParseState :=
  mkHeaderParseState st.(content_length) true st.(duplicate_content_length)
    st.(invalid_content_length) st.(is_chunked) st.(has_transfer_encoding)
    st.(invalid_transfer_encoding) st.(connection_close) st.(connection_keep_alive).

Definition update_content_length (v : bytes) (st : HeaderParseState) : HeaderParseState :=
  let '(mkHeaderParseState cl ihn dup inv ch te ite cc cka) := st in
  match parse_decimal_size v with
  | None => mkHeaderParseState cl ihn dup true ch te ite cc cka
  | Some p =>
      match cl with
      | Some q =>
          if negb (q =? p) then mkHeaderParseState cl ihn true inv ch te ite cc cka
          else mkHeaderParseState (Some p) ihn dup inv ch te ite cc cka
      | None => mkHeaderParseState (Some p) ihn dup inv ch te ite cc cka
      end
  end.

(** One coding of a Transfer-Encoding value: the flags are
    [(invalid_transfer_encoding, is_chunked, saw_token)]. *)
Definition transfer_coding_step (acc : bool * bool * bool) (piece : bytes) : bool * bool * bool :=
  let '(invalid, chunked, saw) := acc in
  let token := trim_view piece in
  match token with
  | [] => (true, chunked, saw)
  | _ =>
      let is_chunk := header_iequals token "chunked" in
      (invalid || negb is_chunk || chunked, chunked || is_chunk, true)
  end.

Definition update_transfer_encoding (v : bytes) (st : HeaderParseState) : HeaderParseState :=
  let '(mkHeaderParseState cl ihn dup inv ch te ite cc cka) := st in
  let '(invalid, chunked, saw) :=
    foldl transfer_coding_step (ite || te, ch, false) (split_on "," v) in
  mkHeaderParseState cl ihn dup inv chunked true (invalid || negb saw) cc cka.

Definition update_connection (v : bytes) (st : HeaderParseState) : HeaderParseState :=
  let '(mkHeaderParseState cl ihn dup inv ch te ite cc cka) := st in
  let '(tokens, _) := split_connection_tokens v in
  mkHeaderParseState cl ihn dup inv ch te ite (cc || tok_close tokens)
    (cka || tok_keep_alive tokens).

Definition update_header_state (k v : bytes) (st : HeaderParseState) : HeaderParseState :=
  let st := if slen (trim_view k) =? slen k then st else set_invalid_header_name st in
  let k := trim_view k in
  let v := trim_view v in
  if header_iequals k "content-length" then update_content_length v st
  else if header_iequals k "transfer-encoding" then update_transfer_encoding v st
  else if header_iequals k "connection" then update_connection v st
  else st.

(** ** Header fields *)

Definition parse_header_pair_into (key value : bytes) (acc : headers * HeaderParseState) :
    headers * HeaderParseState :=
  let '(out, st) := acc in
  (out ++ [(trim_copy key, trim_copy value)], update_header_state key value st).

Definition parse_header_line_into (line : bytes) (acc : headers * HeaderParseState) :
    headers * HeaderParseState :=
  match find_char ":" line with
  | None => acc
  | Some colon => parse_header_pair_into (take colon line) (drop (colon + 1) line) acc
  end.

(** The pieces between the leftmost, non-overlapping CRLF pairs. *)
Fixpoint split_crlf (s : bytes) : list bytes :=
  match s with
  | [] => [[]]
  | c :: t =>
      match t with
      | [] => [[c]]
      | d :: t' =>
          if ceqb c CR && ceqb d LF then [] :: split_crlf t'
          else match split_crlf t with
               | [] => [[c]]
               | p :: ps => (c :: p) :: ps
               end
      end
  end.

Definition parse_header_fields (header_lines : bytes) (acc : headers * HeaderParseState) :
    headers * HeaderParseState :=
  foldl (λ acc line, match line with [] => acc | _ => parse_header_line_into line acc end)
        acc (split_crlf header_lines).

Definition is_hop_by_hop_header (k : bytes) : bool :=
  header_iequals k "connection" || header_iequals k "keep-alive" ||
  header_iequals k "proxy-authenticate" || header_iequals k "proxy-authorization" ||
  header_iequals k "te" || header_iequals k "trailer" ||
  header_iequals k "transfer-encoding" || header_iequals k "upgrade".

Definition add_connection_tokens (hs : headers) (filtered : list bytes) : list bytes :=
  foldl (λ acc kv, if header_iequals kv.1 "connection"
                   then acc ++ (split_connection_tokens kv.2).2 else acc) filtered hs.

Definition contains_header_name (names : list bytes) (name : bytes) : bool :=
  existsb (λ candidate, header_iequals candidate name) names.

(** [get_header_value] and [HttpContext::get_header]. *)
Fixpoint get_header_value (hs : headers) (key : bytes) : bytes :=
  match hs with
  | [] => []
  | (k, v) :: t => if header_iequals k key then v else get_header_value t key
  end.

(** ** Log sanitising *)

Definition is_secret_header (k : bytes) : bool :=
  header_iequals k "authorization" || header_iequals k "cookie" || header_iequals k "set-cookie".

Definition describe_header (out : bytes) (kv : bytes * bytes) : bytes :=
  (match out with [] => [] | _ => out ++ ", " end) ++ kv.1 ++ "(len=" ++ to_string (slen kv.2) ++
  (if is_secret_header kv.1 then (",redacted" : bytes) else []) ++ ")".

Definition describe_headers (hs : headers) : bytes := foldl describe_header [] hs.

Definition kMaxLogValue : Z := 160.

Definition sanitize_header_value (key value : bytes) : bytes :=
  if is_secret_header key then "<redacted len=" ++ to_string (slen value) ++ ">"
  else if slen value <=? kMaxLogValue then value
  else take 160 value ++ "...<truncated len=" ++ to_string (slen value) ++ ">".

Definition kMaxPreview : Z := 512.

Definition preview_char (c : ascii) : bytes :=
  if ceqb c CR then [BACKSLASH; "r"%char]
  else if ceqb c LF then [BACKSLASH; "n"%char]
  else if isprint c then [c]
  else ["."%char].

Definition sanitize_body_preview (body : bytes) : bytes :=
  let n := Z.to_nat (Z.min (slen body) kMaxPreview) in
  concat (preview_char <$> take n body) ++
  (if kMaxPreview <? slen body
   then "...<truncated len=" ++ to_string (slen body) ++ ">" else []).

(** ** Case-insensitive names *)

Lemma header_iequals_spec a b : header_iequals a b = true ↔ to_lower a = to_lower b.
Proof.
  unfold to_lower. revert b. induction a as [|x a IH]; intros [|y b]; simpl; try done.
  rewrite andb_true_iff, ceqb_eq, IH. split; [intros [-> H]; f_equal; exact H|by intros [= -> H]].
Qed.

Lemma header_iequals_refl a : header_iequals a a = true.
Proof. by apply header_iequals_spec. Qed.

Lemma header_iequals_sym a b : header_iequals a b = header_iequals b a.
Proof.
  destruct (header_iequals a b) eqn:E, (header_iequals b a) eqn:F; try done.
  - apply header_iequals_spec in E. symmetry in E. apply header_iequals_spec in E. congruence.
  - apply header_iequals_spec in F. symmetry in F. apply header_iequals_spec in F. congruence.
Qed.

Lemma header_iequals_trans a b c :
  header_iequals a b = true → header_iequals b c = true → header_iequals a c = true.
Proof. rewrite !header_iequals_spec. congruence. Qed.

(** Names equal up to case are interchangeable in every test. *)
Lemma header_iequals_cong a b c :
  header_iequals a b = true → header_iequals a c = header_iequals b c.
Proof.
  intros H. destruct (header_iequals b c) eqn:E.
  - by eapply header_iequals_trans.
  - destruct (header_iequals a c) eqn:F; [|done].
    rewrite header_iequals_sym in H. rewrite (header_iequals_trans b a c) in E; done.
Qed.

#[export] Hint Rewrite header_iequals_refl : gw.

(** ** Numbers *)

(** The value a hexadecimal digit string denotes. *)
Definition hex_number_from (v : Z) (s : bytes) : Z :=
  foldl (λ v c, v * 16 + default 0 (hex_digit c)) v s.
Definition hex_number (s : bytes) : Z := hex_number_from 0 s.

Lemma decimal_loop_spec s value v :
  0 ≤ value ≤ SIZE_MAX →
  decimal_loop value s = Some v ↔
  Forall (λ c, isdigit c = true) s ∧ v = dec_number_from value s ∧ v ≤ SIZE_MAX.
Proof.
  revert value. induction s as [|c t IH]; intros value Hv; simpl.
  { split; [intros [= ->]; repeat split; [constructor|lia]|intros (_ & -> & _); done]. }
  rewrite Forall_cons, isdigit_range.
  destruct ((code c <? 48) || (57 <? code c)) eqn:E.
  { apply orb_true_iff in E. split; [done|]. intros ((? & _) & _).
    destruct E as [E|E]; bool_prop; lia. }
  bool_prop. set (d := code c - 48).
  destruct ((SIZE_MAX - d) / 10 <? value) eqn:E; bool_prop.
  - split; [done|]. intros ((_ & Ht) & -> & Hle). exfalso.
    unfold dec_number_from in Hle. simpl in Hle. fold d in Hle.
    pose proof (dec_value_from_ge t (value * 10 + d) Ht). unfold dec_number_from in *.
    pose proof (Z.mul_succ_div_gt (SIZE_MAX - d) 10). lia.
  - assert (value * 10 + d ≤ SIZE_MAX).
    { pose proof (Z.mul_div_le (SIZE_MAX - d) 10). lia. }
    rewrite IH by lia. unfold dec_number_from. simpl. fold d.
    split; [intros (?&?&?)|intros ((?&?)&?&?)]; repeat split; (done || lia).
Qed.

Lemma hex_digit_range c d : hex_digit c = Some d → 0 ≤ d < 16.
Proof.
  unfold hex_digit, in_range. repeat case_if; intros [= <-]; bool_prop; lia.
Qed.

Lemma hex_value_from_ge s v : Forall (λ c, is_Some (hex_digit c)) s → 0 ≤ v → v ≤ hex_number_from v s.
Proof.
  revert v. induction s as [|c t IH]; intros v Hs Hv; [simpl; lia|].
  inversion Hs as [|?? [d Hd] Ht]; subst. pose proof (hex_digit_range _ _ Hd).
  unfold hex_number_from in *. simpl. rewrite Hd. simpl. etrans; [|apply IH; [done|lia]]. lia.
Qed.

Lemma hex_loop_spec s value v :
  0 ≤ value ≤ SIZE_MAX →
  hex_loop value s = Some v ↔
  Forall (λ c, is_Some (hex_digit c)) s ∧ v = hex_number_from value s ∧ v ≤ SIZE_MAX.
Proof.
  revert value. induction s as [|c t IH]; intros value Hv; simpl.
  { split; [intros [= ->]; repeat split; [constructor|lia]|intros (_ & -> & _); done]. }
  rewrite Forall_cons.
  destruct (hex_digit c) as [d|] eqn:Hd; [|split; [done|intros (([]&_)&_); done]].
  pose proof (hex_digit_range _ _ Hd).
  destruct ((SIZE_MAX - d) / 16 <? value) eqn:E; bool_prop.
  - split; [done|]. intros ((_ & Ht) & -> & Hle). exfalso.
    unfold hex_number_from in Hle. simpl in Hle.
    pose proof (hex_value_from_ge t (value * 16 + d) Ht). unfold hex_number_from in *.
    pose proof (Z.mul_succ_div_gt (SIZE_MAX - d) 16). lia.
  - assert (value * 16 + d ≤ SIZE_MAX).
    { pose proof (Z.mul_div_le (SIZE_MAX - d) 16). lia. }
    rewrite IH by lia. unfold hex_number_from. simpl.
    split; [intros (?&?&?)|intros ((?&?)&?&?)]; repeat split; (done || lia || eauto).
Qed.

(** ** Decimal output read back *)

(** ** Body delimitation *)

(** The request-framing test of [ClientSession::run]. *)
Definition framing_rejected (st : HeaderParseState) : bool :=
  st.(invalid_header_name) || st.(invalid_content_length) || st.(duplicate_content_length) ||
  st.(invalid_transfer_encoding) || (st.(has_transfer_encoding) && negb st.(is_chunked)).

Definition header_state_of (hs : headers) : HeaderParseState :=
  foldl (λ st kv, update_header_state kv.1 kv.2 st) header_state0 hs.

Definition flags_clear (st : HeaderParseState) : Prop :=
  st.(invalid_header_name) = false ∧ st.(invalid_content_length) = false ∧
  st.(duplicate_content_length) = false ∧ st.(invalid_transfer_encoding) = false.

Definition named (name : bytes) (hs : headers) : headers :=
  filter (λ kv, header_iequals kv.1 name = true) hs.

Lemma framing_rejected_flags st : framing_rejected st = false → flags_clear st.
Proof. unfold framing_rejected, flags_clear. intros. bool_prop. done. Qed.

Lemma transfer_fold_clean ps inv0 ch0 s0 c s :
  foldl transfer_coding_step (inv0, ch0, s0) ps = (false, c, s) →
  inv0 = false ∧
  ((ps = [] ∧ c = ch0 ∧ s = s0) ∨
   (∃ p, ps = [p] ∧ ch0 = false ∧ header_iequals (trim p) "chunked" = true ∧ c = true)).
Proof.
  revert inv0 ch0 s0. induction ps as [|p ps IH]; intros inv0 ch0 s0 H.
  { simpl in H. simplify_eq. naive_solver. }
  cbn [foldl] in H. unfold transfer_coding_step at 2 in H. unfold trim_view in H.
  destruct (trim p) as [|x tk] eqn:E.
  { apply IH in H as [H _]. done. }
  rewrite <- E in *. apply IH in H as [Hi Hps]. bool_prop.
  destruct Hps as [(-> & -> & _)|(q & _ & Hc & _)].
  - split; [done|]. right. exists p. subst ch0.
    match goal with H : header_iequals _ _ = true |- _ => by rewrite H end.
  - bool_prop. congruence.
Qed.

Lemma update_transfer_encoding_clean v st :
  invalid_transfer_encoding (update_transfer_encoding v st) = false →
  st.(invalid_transfer_encoding) = false ∧ st.(has_transfer_encoding) = false ∧
  st.(is_chunked) = false ∧ header_iequals (trim v) "chunked" = true ∧
  update_transfer_encoding v st =
    mkHeaderParseState st.(content_length) st.(invalid_header_name) st.(duplicate_content_length)
      st.(invalid_content_length) true true false st.(connection_close) st.(connection_keep_alive).
Proof.
  destruct st as [cl ihn dup inv ch te ite cc cka]. simpl.
  destruct (foldl transfer_coding_step (ite || te, ch, false) (split_on "," v))
    as [[i c] s] eqn:F. simpl. intros Hi. bool_prop. subst i s.
  apply transfer_fold_clean in F as [H1 [(H2 & _)|(p & Hp & -> & Hch & ->)]].
  - by apply split_on_nonempty in H2.
  - bool_prop. subst. pose proof (join_split "," v) as Hj. rewrite Hp in Hj. simpl in Hj.
    subst p. done.
Qed.

Lemma slen_trim_eq k : slen (trim k) = slen k → trim k = k.
Proof.
  destruct (trim_infix k) as (p & q & Hk & _). intros H.
  rewrite Hk in H at 2. rewrite !slen_app in H.
  pose proof (slen_nonneg p). pose proof (slen_nonneg q).
  assert (p = []) as -> by (apply slen_0; lia). assert (q = []) as -> by (apply slen_0; lia).
  simpl in Hk. rewrite app_nil_r in Hk. done.
Qed.

(** What one header field contributes, when no flag is raised afterwards. *)
Lemma update_header_state_clean k v st :
  flags_clear (update_header_state k v st) →
  flags_clear st ∧ trim k = k ∧
  update_header_state k v st =
    (if header_iequals k "content-length" then update_content_length (trim v) st
     else if header_iequals k "transfer-encoding" then update_transfer_encoding (trim v) st
     else if header_iequals k "connection" then update_connection (trim v) st else st).
Proof.
  unfold update_header_state, trim_view.
  destruct (slen (trim k) =? slen k) eqn:E.
  - bool_prop. apply slen_trim_eq in E. rewrite E. intros H. split; [|done]. revert H.
    destruct (header_iequals k "content-length").
    { destruct st as [[q|] ihn dup inv ch te ite cc cka]; unfold flags_clear, update_content_length;
        destruct (parse_decimal_size (trim v)); simpl; try case_if; naive_solver. }
    destruct (header_iequals k "transfer-encoding").
    { intros (H1 & H2 & H3 & H4). pose proof (update_transfer_encoding_clean _ _ H4) as (?&?&?&?&Heq).
      rewrite Heq in H1, H2, H3. done. }
    destruct (header_iequals k "connection"); [|done].
    destruct st. unfold update_connection, flags_clear. by destruct (split_connection_tokens _).
  - intros H. exfalso. destruct H as (Hn & _). revert Hn. clear E.
    destruct st as [[q|] ihn dup inv ch te ite cc cka]; repeat case_if;
    unfold update_content_length, update_transfer_encoding, update_connection, set_invalid_header_name; simpl;
      repeat case_match; done.
Qed.

(** What the state records of the fields read so far, as long as no flag is up. *)
Definition framing_inv (hs : headers) (st : HeaderParseState) : Prop :=
  (∀ k v, (k, v) ∈ named "content-length" hs → ∃ n, st.(content_length) = Some n ∧
     parse_decimal_size v = Some n) ∧
  (st.(content_length) ≠ None → named "content-length" hs ≠ []) ∧
  st.(has_transfer_encoding) = st.(is_chunked) ∧
  (if st.(is_chunked)
   then ∃ k v, named "transfer-encoding" hs = [(k, v)] ∧ header_iequals (trim v) "chunked" = true
   else named "transfer-encoding" hs = []).

Lemma named_snoc name hs k v :
  named name (hs ++ [(k, v)]) =
  named name hs ++ (if header_iequals k name then [(k, v)] else []).
Proof.
  unfold named. rewrite filter_app. f_equal.
  destruct (header_iequals k name) eqn:E; by rewrite ?filter_cons_True, ?filter_cons_False by (simpl; congruence).
Qed.

Lemma parse_decimal_trim v : parse_decimal_size (trim v) = parse_decimal_size v.
Proof. unfold parse_decimal_size, trim_view. by rewrite trim_idem. Qed.

Lemma iequals_exclusive k a b :
  header_iequals a b = false → header_iequals k a = true → header_iequals k b = false.
Proof. intros Hab Hk. rewrite <- Hab. by apply header_iequals_cong. Qed.

Lemma framing_inv_content_length hs st k v :
  framing_inv hs st → header_iequals k "content-length" = true →
  flags_clear (update_content_length (trim v) st) →
  framing_inv (hs ++ [(k, v)]) (update_content_length (trim v) st).
Proof.
  intros (H1 & H2 & H3 & H4) Hk Hf.
  unfold framing_inv. rewrite !named_snoc, Hk.
  rewrite (iequals_exclusive k "content-length" "transfer-encoding") by done.
  rewrite app_nil_r. revert Hf H1 H2 H3 H4.
  destruct st as [cl ihn dup inv ch te ite cc cka]. unfold update_content_length, flags_clear.
  rewrite parse_decimal_trim.
  destruct (parse_decimal_size v) as [p|] eqn:Hp; simpl; [|naive_solver].
  intros Hf H1 H2 H3 H4.
  assert (∀ n, cl = Some n → n = p) as Hsame.
  { intros n ->. destruct (n =? p) eqn:E; simpl in Hf; [by bool_prop|naive_solver]. }
  assert (∀ P : HeaderParseState → Prop,
    P (mkHeaderParseState (Some p) ihn dup inv ch te ite cc cka) →
    P (match cl with
       | Some q => if negb (q =? p) then mkHeaderParseState cl ihn true inv ch te ite cc cka
                   else mkHeaderParseState (Some p) ihn dup inv ch te ite cc cka
       | None => mkHeaderParseState (Some p) ihn dup inv ch te ite cc cka
       end)) as Hcase.
  { intros P HP. destruct cl as [q|]; [|done]. rewrite (Hsame q), Z.eqb_refl by done. done. }
  apply Hcase. simpl. repeat split; [| |done|done].
  - intros k' v' [Hin|Hin]%elem_of_app.
    + destruct (H1 k' v' Hin) as (n & -> & ?). exists n. rewrite (Hsame n) at 1 by done. done.
    + apply list_elem_of_singleton in Hin. simplify_eq. eauto.
  - intros _ [_ ?]%app_eq_nil. done.
Qed.

Lemma framing_inv_other hs st st' k v :
  framing_inv hs st → header_iequals k "content-length" = false →
  header_iequals k "transfer-encoding" = false →
  st'.(content_length) = st.(content_length) →
  st'.(has_transfer_encoding) = st.(has_transfer_encoding) →
  st'.(is_chunked) = st.(is_chunked) → framing_inv (hs ++ [(k, v)]) st'.
Proof.
  intros H H1 H2 E1 E2 E3. unfold framing_inv.
  rewrite !named_snoc, H1, H2, !app_nil_r, E1, E2, E3. exact H.
Qed.

Lemma framing_inv_holds hs : flags_clear (header_state_of hs) → framing_inv hs (header_state_of hs).
Proof.
  induction hs as [|[k v] hs IH] using rev_ind; intros Hf.
  { unfold framing_inv. simpl. repeat split; [set_solver|done]. }
  unfold header_state_of in *. rewrite foldl_snoc in *. simpl in *.
  set (st := foldl _ _ hs) in *.
  destruct (update_header_state_clean k v st Hf) as (Hst & Hk & Heq).
  specialize (IH Hst). rewrite Heq in *. clear Heq.
  destruct (header_iequals k "content-length") eqn:E1; [by apply framing_inv_content_length|].
  destruct (header_iequals k "transfer-encoding") eqn:E2.
  - destruct Hf as (_ & _ & _ & Hi).
    destruct (update_transfer_encoding_clean _ _ Hi) as (_ & _ & Hch & Hv & ->).
    destruct IH as (H1 & H2 & H3 & H4). rewrite Hch in H4.
    unfold framing_inv. rewrite !named_snoc, E1, E2, H4, app_nil_r. simpl.
    repeat split; [done|done|]. rewrite trim_idem in Hv. eauto.
  - destruct (header_iequals k "connection"); [|by eapply framing_inv_other].
    eapply framing_inv_other; try done; unfold update_connection;
      destruct st as [? ? ? ? ? ? ? ? ?]; by destruct (split_connection_tokens _).
Qed.

(** ** Header blocks *)

Definition render_header (kv : bytes * bytes) : bytes := kv.1 ++ ": " ++ kv.2 ++ CRLF.
Definition render_headers (hs : headers) : bytes := concat (render_header <$> hs).

(** A field that survives a trip over the wire: a name without colon, both
    parts without CR. *)
Definition wire_safe (kv : bytes * bytes) : Prop :=
  ":"%char ∉ kv.1 ∧ CR ∉ kv.1 ∧ CR ∉ kv.2.

Lemma split_crlf_cons c t :
  c ≠ CR →
  split_crlf (c :: t) = match split_crlf t with [] => [[c]] | p :: ps => (c :: p) :: ps end.
Proof.
  intros Hc. destruct t as [|d t]; [done|].
  change (split_crlf (c :: d :: t)) with
    (if ceqb c CR && ceqb d LF then [] :: split_crlf t
     else match split_crlf (d :: t) with [] => [[c]] | p :: ps => (c :: p) :: ps end).
  by rewrite (proj2 (ceqb_ne c CR)).
Qed.

Lemma split_crlf_line line rest :
  CR ∉ line → split_crlf (line ++ CRLF ++ rest) = line :: split_crlf rest.
Proof.
  induction line as [|c line IH]; intros Hc; [done|].
  apply not_elem_of_cons in Hc as [Hne Hc]. cbn [app].
  rewrite split_crlf_cons by done. by rewrite (IH Hc).
Qed.

Lemma trim_space_prefix v : trim (" " ++ v) = trim v.
Proof. done. Qed.

Lemma parse_header_line_render kv acc :
  wire_safe kv →
  parse_header_line_into (kv.1 ++ ": " ++ kv.2) acc = parse_header_pair_into kv.1 (" " ++ kv.2) acc.
Proof.
  intros (Hc & _). unfold parse_header_line_into.
  change (kv.1 ++ ": " ++ kv.2) with (kv.1 ++ ":"%char :: " " ++ kv.2).
  rewrite find_char_app by done. rewrite take_app_length.
  replace (length kv.1 + 1)%nat with (length (kv.1 ++ [":"%char])) by (rewrite length_app; done).
  replace (kv.1 ++ ":"%char :: " " ++ kv.2) with ((kv.1 ++ [":"%char]) ++ " " ++ kv.2)
    by (rewrite <- app_assoc; done).
  by rewrite drop_app_length.
Qed.

Lemma update_header_state_space k v st :
  update_header_state k (" " ++ v) st = update_header_state k v st.
Proof. done. Qed.

Lemma parse_header_fields_render hs acc :
  Forall wire_safe hs →
  parse_header_fields (render_headers hs) acc =
  foldl (λ acc kv, parse_header_pair_into kv.1 kv.2 acc) acc hs.
Proof.
  unfold parse_header_fields, render_headers. revert acc.
  induction hs as [|kv hs IH]; intros acc Hs; [done|].
  inversion Hs as [|?? Hkv Hs']; subst. cbn [fmap list_fmap concat foldl].
  unfold render_header at 1. rewrite <- !app_assoc.
  replace (kv.1 ++ ": " ++ kv.2 ++ CRLF ++ concat (render_header <$> hs))
    with ((kv.1 ++ ": " ++ kv.2) ++ CRLF ++ concat (render_header <$> hs))
    by (by rewrite <- !app_assoc).
  rewrite split_crlf_line.
  - cbn [foldl]. rewrite IH by done. f_equal.
    destruct (kv.1 ++ ": " ++ kv.2) eqn:E; [by destruct kv.1|].
    rewrite <- E, parse_header_line_render by done. by destruct acc.
  - destruct Hkv as (_ & ? & ?). rewrite !not_elem_of_app. repeat split; [done| |done].
    apply (bool_decide_eq_true_1 (CR ∉ (": " : bytes))). vm_compute. done.
Qed.

Lemma parse_pairs_fold hs out st :
  foldl (λ acc kv, parse_header_pair_into kv.1 kv.2 acc) (out, st) hs =
  (out ++ ((λ kv, (trim kv.1, trim kv.2)) <$> hs),
   foldl (λ st kv, update_header_state kv.1 kv.2 st) st hs).
Proof.
  revert out st. induction hs as [|kv hs IH]; intros out st; simpl.
  - by rewrite app_nil_r.
  - rewrite IH. by rewrite <- app_assoc.
Qed.

Lemma parse_rendered_headers hs :
  Forall wire_safe hs →
  parse_header_fields (render_headers hs) ([], header_state0) =
  ((λ kv, (trim kv.1, trim kv.2)) <$> hs, header_state_of hs).
Proof. intros Hs. by rewrite parse_header_fields_render, parse_pairs_fold. Qed.

(** ** Properties *)

(** [parse_decimal_size] is exactly "the trimmed text is a non-empty digit
    string whose value fits a [size_t]": the overflow guard neither lets a
    wrapped value through nor rejects one that fits. *)
Lemma parse_decimal_size_correct s v :
  parse_decimal_size s = Some v ↔
  trim s ≠ [] ∧ Forall (λ c, isdigit c = true) (trim s) ∧ v = dec_number (trim s) ∧ v ≤ SIZE_MAX.
Proof.
  unfold parse_decimal_size, trim_view, dec_number.
  destruct (trim s) as [|c t] eqn:E; [naive_solver|].
  rewrite decimal_loop_spec by (unfold SIZE_MAX; lia). naive_solver.
Qed.

(** [parse_hex_size_line] reads the hexadecimal digits before the first
    [';'] and fails on an empty field, on any other byte and on a value that
    does not fit a [size_t]. *)
Lemma parse_hex_size_line_correct line v :
  let field := trim (match find_char ";" line with None => line | Some e => take e line end) in
  parse_hex_size_line line = Some v ↔
  field ≠ [] ∧ Forall (λ c, is_Some (hex_digit c)) field ∧ v = hex_number field ∧ v ≤ SIZE_MAX.
Proof.
  unfold parse_hex_size_line, trim_view, hex_number.
  destruct (trim _) as [|c t] eqn:E; [naive_solver|].
  rewrite hex_loop_spec by (unfold SIZE_MAX; lia). naive_solver.
Qed.

Lemma parse_decimal_to_string n : 0 ≤ n ≤ SIZE_MAX → parse_decimal_size (to_string n) = Some n.
Proof.
  intros Hn. destruct (to_string_digits n Hn) as (H1 & H2 & H3).
  apply parse_decimal_size_correct. rewrite to_string_trim by done.
  repeat split; [done|done|done|lia].
Qed.

Lemma to_string_3digits c : 100 ≤ c ≤ 599 → slen (to_string c) = 3.
Proof.
  intros Hc. unfold to_string. replace (c <? 0) with false by lia.
  change 20%nat with (S (S (S 17))). cbn [dec_digits].
  replace (c <? 10) with false by lia.
  pose proof (Z.div_mod c 10). pose proof (Z.mod_pos_bound c 10).
  replace (c / 10 <? 10) with false by lia.
  assert (c / 10 / 10 < 10) as Hlt by (repeat (apply Z.div_lt_upper_bound; [lia|]); lia).
  apply Z.ltb_lt in Hlt. rewrite Hlt.
  rewrite !slen_app. done.
Qed.

Lemma status_line_fields_ok version c reason :
  100 ≤ c ≤ 599 → " "%char ∉ version →
  status_line_fields (version ++ " "%char :: to_string c ++ " "%char :: reason) = Some (c, reason).
Proof.
  intros Hc Hv. destruct (to_string_digits c) as (Hd & _ & _); [unfold SIZE_MAX; lia|].
  unfold status_line_fields. rewrite find_char_app by done.
  assert (∀ rest, drop (length version + 1) (version ++ " "%char :: rest) = rest) as Hdrop.
  { intros rest. by rewrite <- drop_drop, drop_app_length. }
  rewrite Hdrop, find_char_app by (by apply digits_not_elem). cbv zeta.
  replace (length version + 1 + length (to_string c) - length version - 1)%nat
    with (length (to_string c)) by lia.
  rewrite take_app_length, parse_decimal_to_string by (unfold SIZE_MAX; lia).
  rewrite to_string_3digits by done.
  replace (c <? 100) with false by lia. replace (599 <? c) with false by lia.
  change (negb (3 =? 3)) with false. cbn [orb]. do 2 f_equal.
  rewrite <- Nat.add_assoc, <- drop_drop, Hdrop. by rewrite <- drop_drop, drop_app_length.
Qed.

(** a well-formed status line is read back: version 1.0 or 1.1, a status in
    100..599 and any reason phrase give that status and that phrase. *)
Lemma status_line_roundtrip (minor : bool) c reason :
  100 ≤ c ≤ 599 →
  parse_http_status_line
    ((if minor then "HTTP/1.1 " else "HTTP/1.0 ") ++ to_string c ++ " " ++ reason) =
  Some (c, reason).
Proof.
  intros Hc. assert (" "%char ∉ ("HTTP/1.1" : bytes) ∧ " "%char ∉ ("HTTP/1.0" : bytes)) as [H1 H0].
  { split; apply (bool_decide_eq_true_1 _); vm_compute; reflexivity. }
  destruct minor.
  - exact (status_line_fields_ok "HTTP/1.1" c reason Hc H1).
  - exact (status_line_fields_ok "HTTP/1.0" c reason Hc H0).
Qed.

Lemma status_line_roundtrip_witness :
  100 ≤ 404 ≤ 599 ∧
  parse_http_status_line ("HTTP/1.1 " ++ to_string 404 ++ " " ++ "Not Found") =
  Some (404, "Not Found" : bytes).
Proof. split; [lia|]. apply (status_line_roundtrip true 404 "Not Found"). lia. Defined.

(** C28: an accepted header block delimits the body in exactly one way.  If the
    framing test does not reject, every Content-Length field parses to the one
    recorded length (and there is one iff a length is recorded), a chunked body
    comes from a single Transfer-Encoding field whose only coding is "chunked",
    and a body that is not chunked has no Transfer-Encoding field at all. *)
Theorem accepted_framing_unambiguous hs :
  framing_rejected (header_state_of hs) = false →
  let st := header_state_of hs in
  (∀ k v, (k, v) ∈ named "content-length" hs →
     ∃ n, st.(content_length) = Some n ∧ parse_decimal_size v = Some n) ∧
  (st.(content_length) = None ↔ named "content-length" hs = []) ∧
  (st.(is_chunked) = true →
     ∃ k v, named "transfer-encoding" hs = [(k, v)] ∧ header_iequals (trim v) "chunked" = true) ∧
  (st.(is_chunked) = false → named "transfer-encoding" hs = []).
Proof.
  intros H%framing_rejected_flags st. destruct (framing_inv_holds hs H) as (H1 & H2 & _ & H4).
  fold st in H1, H2, H4. split; [exact H1|]. split; [|by destruct (is_chunked st)].
  split.
  - intros Hn. destruct (named "content-length" hs) as [|[k v] t] eqn:E; [done|].
    destruct (H1 k v) as (n & ? & _); [left|congruence].
  - intros Hn. destruct (content_length st); [by destruct H2|done].
Qed.

Lemma accepted_framing_unambiguous_witness :
  let hs : headers := [("Host" : bytes, "a" : bytes); ("Content-Length" : bytes, "12" : bytes)] in
  framing_rejected (header_state_of hs) = false ∧
  (content_length (header_state_of hs) = None ↔ named "content-length" hs = []).
Proof.
  split; [vm_compute; reflexivity|].
  destruct (accepted_framing_unambiguous
    [("Host" : bytes, "a" : bytes); ("Content-Length" : bytes, "12" : bytes)]) as (_ & H & _);
    [vm_compute; reflexivity|exact H].
Defined.
