(* ===== verification/HttpIo.v ===== *)
(** * Socket operations and their deadline (src/src/http/http_io.hpp)

    [async_read_some]/[async_write] complete with an error code and a byte
    count; the header classifies the completion into an [IoStatus].  One
    [OperationDeadline] object is re-armed for every operation of a session;
    its timer callbacks run on the session's strand, possibly late.  The theorem
    shows that a late callback of an earlier operation is harmless. *)

From S2P Require Import Prelude.

(** The [asio::error_code] values the code distinguishes. *)
Inductive error_code :=
| ec_none
| ec_eof
| ec_connection_reset
| ec_broken_pipe
| ec_operation_aborted
| ec_other (value : Z).

#[export] Instance error_code_eq_dec : EqDecision error_code.
Proof. solve_decision. Defined.

(** [explicit operator bool] of [error_code]: an error is set. *)
Definition ec_set (ec : error_code) : bool := negb (bool_decide (ec = ec_none)).

Inductive IoStatus := IoSuccess | IoTimeout | IoPeerClosed | IoSysError.

#[export] Instance IoStatus_eq_dec : EqDecision IoStatus.
Proof. solve_decision. Defined.

Record IoResult := mkIoResult { io_status : IoStatus; io_bytes : Z; io_ec : error_code }.

Definition io_ok (r : IoResult) : bool := bool_decide (io_status r = IoSuccess).

Definition io_status_name (s : IoStatus) : bytes :=
  match s with
  | IoSuccess => "success"
  | IoTimeout => "timeout"
  | IoPeerClosed => "peer_closed"
  | IoSysError => "sys_error"
  end.

Definition classify_read_error (ec : error_code) (timed_out : bool) (n : Z) : IoStatus :=
  if timed_out then IoTimeout
  else if negb (ec_set ec) && (0 <? n) then IoSuccess
  else if negb (ec_set ec) && (n =? 0) then IoPeerClosed
  else if bool_decide (ec = ec_eof) || bool_decide (ec = ec_connection_reset) then IoPeerClosed
  else IoSysError.

Definition classify_write_error (ec : error_code) (timed_out : bool) : IoStatus :=
  if timed_out then IoTimeout
  else if negb (ec_set ec) then IoSuccess
  else if bool_decide (ec = ec_eof) || bool_decide (ec = ec_connection_reset) ||
          bool_decide (ec = ec_broken_pipe) then IoPeerClosed
  else IoSysError.

(** ** OperationDeadline

    The three counters of [OperationDeadline::State], and how often the timer
    callbacks cancelled the socket. *)
Record Deadline := mkDeadline {
  next_operation : Z;
  active_operation : Z;
  timed_out_operation : Z;
  socket_cancels : nat
}.

Definition deadline0 : Deadline := mkDeadline 0 0 0 0.

(** [arm]: a fresh operation number (a [uint64_t]) becomes the active one. *)
Definition arm (d : Deadline) : Z * Deadline :=
  let operation := wrap64 (next_operation d + 1) in
  (operation, mkDeadline operation operation (timed_out_operation d) (socket_cancels d)).

(** The timer callback of [operation]; [ec] is set when the wait was cancelled. *)
Definition timer_fired (operation : Z) (ec : error_code) (d : Deadline) : Deadline :=
  if ec_set ec || negb (active_operation d =? operation) then d
  else mkDeadline (next_operation d) 0 operation (S (socket_cancels d)).

Definition disarm (operation : Z) (d : Deadline) : bool * Deadline :=
  let timed_out := timed_out_operation d =? operation in
  (timed_out,
   if active_operation d =? operation
   then mkDeadline (next_operation d) 0 (timed_out_operation d) (socket_cancels d)
   else d).

Definition deadline_cancel (d : Deadline) : Deadline :=
  mkDeadline (next_operation d) 0 (timed_out_operation d) (socket_cancels d).

(** Callbacks delivered while one operation is in progress. *)
Definition deliver (fired : list (Z * error_code)) (d : Deadline) : Deadline :=
  foldl (λ d f, timer_fired f.1 f.2 d) d fired.

(** Every recorded operation number has been issued, and 0 means none. *)
Definition deadline_wf (d : Deadline) : Prop :=
  0 ≤ next_operation d ∧
  0 ≤ active_operation d ≤ next_operation d ∧
  0 ≤ timed_out_operation d ≤ next_operation d.

Lemma deliver_idle fired d :
  active_operation d = 0 → Forall (λ f, f.1 ≠ 0) fired → deliver fired d = d.
Proof.
  intros Ha. revert d Ha. induction fired as [|[o ec] fired IH]; intros d Ha Hf; [done|].
  inversion Hf; subst. cbn [deliver foldl]. fold (deliver fired).
  unfold timer_fired at 2. simpl in *. rewrite Ha.
  replace (0 =? o) with false by lia. rewrite orb_true_r. by apply IH.
Qed.

Lemma deliver_active fired d op :
  active_operation d = op → op ≠ 0 → Forall (λ f, f.1 ≠ 0) fired →
  let hit := existsb (λ f, (f.1 =? op) && negb (ec_set f.2)) fired in
  deliver fired d =
  if hit then mkDeadline (next_operation d) 0 op (S (socket_cancels d)) else d.
Proof.
  intros Ha Hop. revert d Ha. induction fired as [|[o ec] fired IH]; intros d Ha Hf; [done|].
  inversion Hf; subst. cbn [deliver foldl existsb fst snd]. fold (deliver fired).
  unfold timer_fired at 2. cbn [fst snd].
  destruct (ec_set ec); cbn [orb andb negb].
  { rewrite andb_false_r. cbn [orb]. by apply IH. }
  rewrite andb_true_r, (Z.eqb_sym (active_operation d) o).
  destruct (o =? active_operation d) eqn:E; cbn [orb negb]; [|by apply IH].
  bool_prop. subst o. by apply deliver_idle.
Qed.

(** an operation's deadline is decided by its own timer alone.  Arm a
    well-formed deadline, deliver any timer callbacks (late ones of earlier
    operations included) and disarm: the operation is reported timed out, and
    the socket cancelled (once), exactly when its own callback ran without
    having been cancelled. *)
Lemma deadline_isolated d fired :
  deadline_wf d → next_operation d + 1 < 2 ^ 64 → Forall (λ f, f.1 ≠ 0) fired →
  let '(op, d1) := arm d in
  let '(timed_out, d2) := disarm op (deliver fired d1) in
  (timed_out = true ↔ (op, ec_none) ∈ fired) ∧
  socket_cancels d2 = (socket_cancels d + (if timed_out then 1 else 0))%nat ∧
  active_operation d2 = 0 ∧ deadline_wf d2.
Proof.
  intros (Hn & Ha & Ht) Hw Hf. unfold arm. cbn zeta.
  assert (wrap64 (next_operation d + 1) = next_operation d + 1) as ->.
  { unfold wrap64. apply Z.mod_small. lia. }
  remember (next_operation d + 1) as op eqn:Hop.
  set (d1 := mkDeadline op op (timed_out_operation d) (socket_cancels d)).
  rewrite (deliver_active fired d1 op) by (done || lia).
  assert (existsb (λ f, (f.1 =? op) && negb (ec_set f.2)) fired = true ↔ (op, ec_none) ∈ fired) as Hhit.
  { rewrite existsb_exists. setoid_rewrite <- list_elem_of_In. split.
    - intros ([o ec] & Hin & H). bool_prop. simpl in *. subst.
      destruct ec; done || (by unfold ec_set in *).
    - intros Hin. exists (op, ec_none). split; [done|]. simpl. by rewrite Z.eqb_refl. }
  destruct (existsb _ fired) eqn:E; unfold disarm, deadline_wf, d1; simpl.
  - rewrite Z.eqb_refl. replace (0 =? op) with false by lia. simpl.
    rewrite <- Hhit. split_and!; done || lia.
  - rewrite Z.eqb_refl. replace (timed_out_operation d =? op) with false by lia. simpl.
    rewrite <- Hhit. split_and!; done || lia.
Qed.

Lemma deadline_isolated_witness :
  let d := mkDeadline 4 0 3 1 in
  let fired := [(3, ec_none); (4, ec_operation_aborted); (5, ec_none)] in
  (disarm (arm d).1 (deliver fired (arm d).2)).1 = true ↔ (5, ec_none) ∈ fired.
Proof.
  apply (deadline_isolated (mkDeadline 4 0 3 1)
           [(3, ec_none); (4, ec_operation_aborted); (5, ec_none)]).
  - unfold deadline_wf. simpl. lia.
  - simpl. lia.
  - repeat constructor; simpl; lia.
Defined.
