(* ===== verification/TimedIo.v ===== *)
(** * Timed socket operations (src/src/http/http_io.hpp, src/src/http/http_pool.hpp)

    [read_with_timeout] and [write_with_timeout], with the deadline a session
    shares between its operations and with a timer of their own, and the resolve
    and connect of the pool.  What the socket and the timers deliver is the input:
    callbacks that ran before the completion, or which of the two operations of a
    parallel group completed first.  The lemmas say exactly when an operation
    succeeds and when it reports a timeout, also in a sequence on one deadline. *)

From S2P Require Import Prelude HttpIo.

(** The completion of a socket operation: error code and bytes. *)
Record completion := mkCompletion { cp_ec : error_code; cp_bytes : Z }.

(** ** With the deadline of the session *)

(** [fired] are the timer callbacks that ran before the completion. *)
Definition read_with_deadline (timeout_ms : Z) (fired : list (Z * error_code)) (c : completion) (d : Deadline) : IoResult * Deadline :=
  if timeout_ms <=? 0 then
    (mkIoResult (classify_read_error (cp_ec c) false (cp_bytes c)) (cp_bytes c) (cp_ec c), deliver fired d)
  else
    let '(operation, d) := arm d in
    let '(timed_out, d) := disarm operation (deliver fired d) in
    (mkIoResult (classify_read_error (cp_ec c) timed_out (cp_bytes c)) (cp_bytes c) (cp_ec c), d).

Definition write_with_deadline (timeout_ms : Z) (data : bytes) (fired : list (Z * error_code)) (c : completion) (d : Deadline) :
    IoResult * Deadline :=
  if timeout_ms <=? 0 then
    (mkIoResult (classify_write_error (cp_ec c) false) (if ec_set (cp_ec c) then 0 else slen data) (cp_ec c), deliver fired d)
  else
    let '(operation, d) := arm d in
    let '(timed_out, d) := disarm operation (deliver fired d) in
    (mkIoResult (classify_write_error (cp_ec c) timed_out) (if ec_set (cp_ec c) then 0 else cp_bytes c) (cp_ec c), d).

(** ** With a timer of their own *)

(** A parallel group that waits for one: whether the timer was first, and the
    completions of both. *)
Record race := mkRace { rc_timer_first : bool; rc_operation : completion; rc_timer_ec : error_code }.

(** [order[0] == 1 && !timer_ec] *)
Definition timer_won (r : race) : bool := rc_timer_first r && negb (ec_set (rc_timer_ec r)).

Definition timed_out_result : IoResult := mkIoResult IoTimeout 0 ec_operation_aborted.

Definition read_with_timer (timeout_ms : Z) (r : race) : IoResult :=
  let c := rc_operation r in
  if (0 <? timeout_ms) && timer_won r then timed_out_result
  else mkIoResult (classify_read_error (cp_ec c) false (cp_bytes c)) (cp_bytes c) (cp_ec c).

Definition write_with_timer (timeout_ms : Z) (data : bytes) (r : race) : IoResult :=
  let c := rc_operation r in
  if timeout_ms <=? 0 then
    mkIoResult (classify_write_error (cp_ec c) false) (if ec_set (cp_ec c) then 0 else slen data) (cp_ec c)
  else if timer_won r then timed_out_result
  else mkIoResult (classify_write_error (cp_ec c) false) (if ec_set (cp_ec c) then 0 else cp_bytes c) (cp_ec c).

(** ** Connecting *)

(** The results of [resolve_with_timeout], and whether the resolver was cancelled. *)
Definition resolve_with_timeout {E : Type} (r : race) (results : list E) : option (list E) * bool :=
  if timer_won r || ec_set (cp_ec (rc_operation r)) then (None, timer_won r) else (Some results, false).

(** Whether [connect_with_timeout] connected, and whether it closed the socket. *)
Definition connect_with_timeout (r : race) : bool * bool :=
  if timer_won r then (false, true) else (negb (ec_set (cp_ec (rc_operation r))), false).

(** ** When an operation succeeds *)

Lemma read_ok ec timed_out n : 0 ≤ n →
  classify_read_error ec timed_out n = IoSuccess ↔ timed_out = false ∧ ec = ec_none ∧ 0 < n.
Proof.
  intros Hn. unfold classify_read_error, ec_set. destruct timed_out; [naive_solver|].
  destruct (bool_decide (ec = ec_none)) eqn:E; [apply bool_decide_eq_true in E as ->|apply bool_decide_eq_false in E]; cbn.
  - destruct (0 <? n) eqn:E0; bool_prop; [done|]. replace (n =? 0) with true by lia. split; [done|]. intros (_ & _ & ?). lia.
  - case_if; split; done || naive_solver.
Qed.

Lemma write_ok ec timed_out : classify_write_error ec timed_out = IoSuccess ↔ timed_out = false ∧ ec = ec_none.
Proof.
  unfold classify_write_error, ec_set. destruct timed_out; [naive_solver|].
  destruct (bool_decide (ec = ec_none)) eqn:E; [apply bool_decide_eq_true in E as ->|apply bool_decide_eq_false in E]; cbn;
    [naive_solver|]. repeat case_if; naive_solver.
Qed.

(** With a timer of its own, an operation with a timeout succeeds exactly when
    the timer did not win and the socket reported no error (and, for a read, at
    least one byte); otherwise no byte of a write is reported. *)
Lemma timed_operation_exact timeout_ms data r :
  0 < timeout_ms → 0 ≤ cp_bytes (rc_operation r) →
  (io_ok (read_with_timer timeout_ms r) = true ↔
     timer_won r = false ∧ cp_ec (rc_operation r) = ec_none ∧ 0 < cp_bytes (rc_operation r)) ∧
  (io_ok (write_with_timer timeout_ms data r) = true ↔ timer_won r = false ∧ cp_ec (rc_operation r) = ec_none) ∧
  (io_ok (write_with_timer timeout_ms data r) = false → io_bytes (write_with_timer timeout_ms data r) = 0).
Proof.
  intros Ht Hn. unfold read_with_timer, write_with_timer, io_ok.
  replace (0 <? timeout_ms) with true by lia. replace (timeout_ms <=? 0) with false by lia. cbn [andb].
  destruct (timer_won r); cbn [io_status timed_out_result io_bytes]; [naive_solver|].
  rewrite !bool_decide_eq_true, bool_decide_eq_false, read_ok, write_ok by done.
  split; [naive_solver|]. split; [naive_solver|]. intros Hw. unfold ec_set.
  by destruct (bool_decide (cp_ec (rc_operation r) = ec_none)) eqn:E; [apply bool_decide_eq_true in E; naive_solver|].
Qed.

(** ** One deadline for many operations *)

(** An operation of a session, with the callbacks that ran meanwhile. *)
Record timed_op := mkTimedOp { to_write : option bytes; to_timeout_ms : Z; to_fired : list (Z * error_code); to_done : completion }.

Definition run_op (o : timed_op) (d : Deadline) : IoResult * Deadline :=
  match to_write o with
  | None => read_with_deadline (to_timeout_ms o) (to_fired o) (to_done o) d
  | Some data => write_with_deadline (to_timeout_ms o) data (to_fired o) (to_done o) d
  end.

Fixpoint run_ops (ops : list timed_op) (d : Deadline) : list IoResult * Deadline :=
  match ops with
  | [] => ([], d)
  | o :: ops =>
      let '(r, d) := run_op o d in
      let '(rs, d) := run_ops ops d in (r :: rs, d)
  end.

Definition is_timeout (r : IoResult) : bool := bool_decide (io_status r = IoTimeout).

Lemma read_timeout ec timed_out n : classify_read_error ec timed_out n = IoTimeout ↔ timed_out = true.
Proof. unfold classify_read_error. destruct timed_out; [done|]. repeat case_if; naive_solver. Qed.

Lemma write_timeout ec timed_out : classify_write_error ec timed_out = IoTimeout ↔ timed_out = true.
Proof. unfold classify_write_error. destruct timed_out; [done|]. repeat case_if; naive_solver. Qed.

Lemma run_op_spec o d :
  deadline_wf d → next_operation d + 1 < 2 ^ 64 → 0 < to_timeout_ms o → Forall (λ f, f.1 ≠ 0) (to_fired o) →
  let '(r, d') := run_op o d in
  (is_timeout r = true ↔ (next_operation d + 1, ec_none) ∈ to_fired o) ∧
  socket_cancels d' = (socket_cancels d + (if is_timeout r then 1 else 0))%nat ∧
  next_operation d' = next_operation d + 1 ∧ deadline_wf d'.
Proof.
  intros Hwf Hlt Ht Hf. pose proof (deadline_isolated d (to_fired o) Hwf Hlt Hf) as Hd.
  assert ((arm d).1 = next_operation d + 1) as Hop.
  { unfold arm. cbn. unfold wrap64. apply Z.mod_small. destruct Hwf. lia. }
  assert (∀ fired op dd, next_operation (disarm op (deliver fired dd)).2 = next_operation dd) as Hnext.
  { intros fired op dd. unfold disarm. cbn [snd]. transitivity (next_operation (deliver fired dd)); [by case_if|].
    unfold deliver. revert dd. induction fired as [|f fired IH]; intros dd; [done|]. cbn [foldl]. rewrite IH.
    unfold timer_fired. by case_if. }
  unfold run_op, read_with_deadline, write_with_deadline. replace (to_timeout_ms o <=? 0) with false by lia.
  pose proof (Hnext (to_fired o) (arm d).1 (arm d).2) as Hn.
  assert (next_operation (arm d).2 = (arm d).1) as Ha by done. rewrite Ha in Hn.
  destruct (arm d) as [op d1]. cbn [fst snd] in *. subst op.
  destruct (disarm _ _) as [timed_out d2]. cbn [snd] in *. destruct Hd as (H1 & H2 & _ & H3).
  assert (∀ r, is_timeout r = timed_out → (is_timeout r = true ↔ (next_operation d + 1, ec_none) ∈ to_fired o) ∧
    socket_cancels d2 = (socket_cancels d + (if is_timeout r then 1 else 0))%nat ∧
    next_operation d2 = next_operation d + 1 ∧ deadline_wf d2) as Hend by (intros r ->; done).
  destruct (to_write o) as [data|]; apply Hend; unfold is_timeout; cbn [io_status];
    apply eq_true_iff_eq; rewrite bool_decide_eq_true; [apply write_timeout|apply read_timeout].
Qed.

(** The operations of a session share one deadline: in any sequence of timed
    reads and writes, whichever callbacks ran when (late ones of earlier
    operations included), an operation reports a timeout exactly when its own
    timer expired before it completed, and the socket was cancelled once for each
    of these and for no other. *)
Lemma deadline_sequence ops d :
  deadline_wf d → next_operation d + Z.of_nat (length ops) < 2 ^ 64 →
  Forall (λ o, 0 < to_timeout_ms o ∧ Forall (λ f, f.1 ≠ 0) (to_fired o)) ops →
  let '(rs, d') := run_ops ops d in
  (∀ i o r, ops !! i = Some o → rs !! i = Some r →
     (is_timeout r = true ↔ (next_operation d + Z.of_nat i + 1, ec_none) ∈ to_fired o)) ∧
  length rs = length ops ∧
  socket_cancels d' = (socket_cancels d + length (filter (λ r, is_timeout r = true) rs))%nat.
Proof.
  revert d. induction ops as [|o ops IH]; intros d Hwf Hlt Hops; cbn [run_ops].
  { split_and!; [done|done|cbn; lia]. }
  apply Forall_cons in Hops as [[Ht Hf] Hops]. cbn [length] in Hlt.
  pose proof (run_op_spec o d Hwf ltac:(lia) Ht Hf) as Ho. destruct (run_op o d) as [r d1]. destruct Ho as (H1 & H2 & H3 & H4).
  specialize (IH d1 H4 ltac:(lia) Hops). destruct (run_ops ops d1) as [rs d2]. destruct IH as (I1 & I2 & I3). split_and!.
  - intros [|i] o' r'; cbn [lookup list_lookup].
    + intros [= <-] [= <-]. by rewrite Z.add_0_r.
    + intros Ho Hr. rewrite (I1 i o' r' Ho Hr), H3. replace (next_operation d + 1 + Z.of_nat i + 1) with
        (next_operation d + Z.of_nat (S i) + 1) by lia. done.
  - cbn. by rewrite I2.
  - rewrite I3, H2, filter_cons. destruct (is_timeout r); case_decide; cbn [length]; done || lia.
Qed.
