(* ===== verification/BodyReader.v ===== *)
(** * Message bodies (src/src/http/http_body_reader.hpp)

    The coroutines that read a Content-Length or a chunked body from a socket.
    A socket is the sequence of its future [async_read_some] completions; a
    coroutine that needs one more completion than the sequence holds is still
    suspended.  The theorems show that the chunked reader accepts exactly the
    chunked coding, whatever the fragmentation into reads, leaves the bytes
    after the message in the buffer, and never returns more than the limit. *)

From S2P Require Import Prelude HttpProtocol HttpIo.

Inductive BodyReadStatus :=
| BodySuccess | BodyTimeout | BodyPeerClosed | BodyTooLarge | BodyInvalidChunk | BodySysError.

#[export] Instance BodyReadStatus_eq_dec : EqDecision BodyReadStatus.
Proof. solve_decision. Defined.

Record BodyReadResult := mkBody {
  body_status : BodyReadStatus;
  body_bytes : bytes;
  body_ec : error_code
}.

Definition body_ok (r : BodyReadResult) : bool := bool_decide (body_status r = BodySuccess).

Definition kMaxChunkControlLineSize : Z := 8192.

Definition body_status_from_io (r : IoResult) : BodyReadStatus :=
  match io_status r with
  | IoSuccess => BodySuccess
  | IoTimeout => BodyTimeout
  | IoPeerClosed => BodyPeerClosed
  | IoSysError => BodySysError
  end.

(** ** Sockets *)

(** One completion of a read: its error code, whether the deadline fired, the
    bytes stored in the caller's buffer. *)
Record read_event := mkRead { ev_ec : error_code; ev_timed_out : bool; ev_data : bytes }.

Abbreviation sock := (list read_event).

(** [read_body_some] on the next completion, through [read_with_timeout]. *)
Definition read_body_some (ev : read_event) : IoResult :=
  mkIoResult (classify_read_error (ev_ec ev) (ev_timed_out ev) (slen (ev_data ev)))
             (slen (ev_data ev)) (ev_ec ev).

(** A coroutine has returned, waits for the socket, or the loop bound of the
    model is used up (shown not to happen). *)
Inductive co (A : Type) := Done (a : A) | Suspended | OutOfFuel.
Arguments Done {A} a.
Arguments Suspended {A}.
Arguments OutOfFuel {A}.

Inductive line_result :=
| LineOk (line : bytes)
| LineFail (status : BodyReadStatus) (ec : error_code).

(** ** consume_line, consume_exact *)

(** The state is the read buffer and the rest of the socket. *)
Fixpoint consume_line (sk : sock) (buffer : bytes) (max_line_size : Z) {struct sk} :
    co (line_result * bytes * sock) :=
  match find_str CRLF buffer with
  | Some pos => Done (LineOk (take pos buffer), drop (pos + 2) buffer, sk)
  | None =>
      if max_line_size <? slen buffer then Done (LineFail BodyInvalidChunk ec_none, buffer, sk)
      else match sk with
           | [] => Suspended
           | ev :: sk' =>
               let read := read_body_some ev in
               if io_ok read then consume_line sk' (buffer ++ ev_data ev) max_line_size
               else Done (LineFail (body_status_from_io read) (io_ec read), buffer, sk')
           end
  end.

(** [while (len > 0)]: take what the buffer has, then read. *)
Fixpoint consume_exact (sk : sock) (buffer out : bytes) (len : Z) {struct sk} :
    co (BodyReadStatus * error_code * bytes * bytes * sock) :=
  let tk := Z.to_nat (Z.min len (slen buffer)) in
  let out := out ++ take tk buffer in
  let len := len - slen (take tk buffer) in
  let buffer := drop tk buffer in
  if len <=? 0 then Done (BodySuccess, ec_none, buffer, out, sk)
  else match sk with
       | [] => Suspended
       | ev :: sk' =>
           let read := read_body_some ev in
           if io_ok read then consume_exact sk' (buffer ++ ev_data ev) out len
           else Done (body_status_from_io read, io_ec read, buffer, out, sk')
       end.

(** ** Content-Length bodies *)

Definition read_content_length_body (sk : sock) (preread : bytes) (content_length max_body_size : Z) :
    co (BodyReadResult * bytes * sock) :=
  if max_body_size <? content_length then Done (mkBody BodyTooLarge [] ec_none, preread, sk)
  else if content_length <=? slen preread then
    Done (mkBody BodySuccess (take (Z.to_nat content_length) preread) ec_none,
          drop (Z.to_nat content_length) preread, sk)
  else
    match consume_exact sk [] preread (content_length - slen preread) with
    | Done (status, ec, preread', out, sk') =>
        if bool_decide (status = BodySuccess)
        then Done (mkBody BodySuccess out ec_none, preread', sk')
        else Done (mkBody status [] ec, preread', sk')
    | Suspended => Suspended
    | OutOfFuel => OutOfFuel
    end.

(** ** Chunked bodies *)

(** The trailer loop after the zero chunk: lines up to the first empty one. *)
Fixpoint read_trailers (fuel : nat) (sk : sock) (preread body : bytes) :
    co (BodyReadResult * bytes * sock) :=
  match fuel with
  | O => OutOfFuel
  | S f =>
      match consume_line sk preread kMaxChunkControlLineSize with
      | Done (LineFail status ec, preread', sk') => Done (mkBody status body ec, preread', sk')
      | Done (LineOk [], preread', sk') => Done (mkBody BodySuccess body ec_none, preread', sk')
      | Done (LineOk _, preread', sk') => read_trailers f sk' preread' body
      | Suspended => Suspended
      | OutOfFuel => OutOfFuel
      end
  end.

(** [tmp[n] != '\r' || tmp[n+1] != '\n'] *)
Definition ends_with_crlf (tmp : bytes) (n : Z) : bool :=
  bool_decide (tmp !! Z.to_nat n = Some CR) && bool_decide (tmp !! Z.to_nat (n + 1) = Some LF).

Fixpoint read_chunks (fuel : nat) (sk : sock) (preread body : bytes) (max_body_size : Z) :
    co (BodyReadResult * bytes * sock) :=
  match fuel with
  | O => OutOfFuel
  | S f =>
      match consume_line sk preread kMaxChunkControlLineSize with
      | Done (LineFail status ec, preread', sk') => Done (mkBody status body ec, preread', sk')
      | Done (LineOk line, preread', sk') =>
          match parse_hex_size_line line with
          | None => Done (mkBody BodyInvalidChunk body ec_none, preread', sk')
          | Some chunk_size =>
              if chunk_size =? 0 then read_trailers f sk' preread' body
              else if (max_body_size <? chunk_size) || (max_body_size - chunk_size <? slen body)
              then Done (mkBody BodyTooLarge [] ec_none, preread', sk')
              else
                match consume_exact sk' preread' [] (wrap64 (chunk_size + 2)) with
                | Done (status, ec, preread'', tmp, sk'') =>
                    if negb (bool_decide (status = BodySuccess))
                    then Done (mkBody status [] ec, preread'', sk'')
                    else if (slen tmp <? wrap64 (chunk_size + 2)) || negb (ends_with_crlf tmp chunk_size)
                    then Done (mkBody BodyInvalidChunk [] ec_none, preread'', sk'')
                    else read_chunks f sk'' preread'' (body ++ take (Z.to_nat chunk_size) tmp)
                           max_body_size
                | Suspended => Suspended
                | OutOfFuel => OutOfFuel
                end
          end
      | Suspended => Suspended
      | OutOfFuel => OutOfFuel
      end
  end.

(** All bytes the socket still has to offer. *)
Definition stream (sk : sock) (buffer : bytes) : bytes := buffer ++ concat (ev_data <$> sk).

(** Every round of the loops consumes a CRLF, so the number of bytes bounds the
    number of rounds. *)
Definition chunk_fuel (sk : sock) (preread : bytes) : nat := S (length (stream sk preread)).

Definition read_chunked_body (sk : sock) (preread : bytes) (max_body_size : Z) :
    co (BodyReadResult * bytes * sock) :=
  read_chunks (chunk_fuel sk preread) sk preread [] max_body_size.

(** ** The chunked coding

    [chunked L body wire]: [wire] is a chunked coding of [body] whose
    chunk-size and trailer lines satisfy [L]; chunk extensions and trailer
    fields are allowed. *)
Inductive chunked (L : bytes → Prop) : bytes → bytes → Prop :=
| chunked_last line trailers :
    L line → parse_hex_size_line line = Some 0 →
    Forall (λ t, L t ∧ t ≠ []) trailers →
    chunked L [] (line ++ CRLF ++ concat ((λ t, t ++ CRLF) <$> trailers) ++ CRLF)
| chunked_cons line d body wire :
    L line → parse_hex_size_line line = Some (slen d) → d ≠ [] →
    chunked L body wire →
    chunked L (d ++ body) (line ++ CRLF ++ d ++ CRLF ++ wire).

(** Reads that deliver data. *)
Definition delivers (ev : read_event) : Prop :=
  ev_ec ev = ec_none ∧ ev_timed_out ev = false ∧ ev_data ev ≠ [].

Lemma delivers_ok ev : delivers ev → io_ok (read_body_some ev) = true.
Proof.
  intros (He & Ht & Hd). unfold io_ok, read_body_some, classify_read_error. simpl.
  rewrite He, Ht. simpl. replace (0 <? slen (ev_data ev)) with true; [done|].
  symmetry. apply Z.ltb_lt. pose proof (slen_nonneg (ev_data ev)).
  assert (slen (ev_data ev) ≠ 0) by (by rewrite slen_0). lia.
Qed.

Lemma stream_cons ev sk buf : stream (ev :: sk) buf = stream sk (buf ++ ev_data ev).
Proof. unfold stream. simpl. by rewrite app_assoc. Qed.

Lemma slen_stream_nil buf : stream [] buf = buf.
Proof. unfold stream. simpl. apply app_nil_r. Qed.

(** ** Lines *)

Lemma consume_line_complete sk buf line rest m :
  Forall delivers sk → crlf_free line → slen line < m →
  stream sk buf = line ++ CRLF ++ rest →
  ∃ buf' sk', consume_line sk buf m = Done (LineOk line, buf', sk') ∧
    Forall delivers sk' ∧ stream sk' buf' = rest.
Proof.
  intros Hsk Hl Hm. revert buf. induction sk as [|ev sk IH]; intros buf Hs.
  - rewrite slen_stream_nil in Hs. subst buf. cbn [consume_line]. rewrite find_crlf_line by done.
    rewrite take_app_length. eexists _, _. split_and!; [reflexivity|done|].
    rewrite slen_stream_nil, <- drop_drop, drop_app_length. done.
  - inversion Hsk as [|?? Hev Hsk']; subst. cbn [consume_line].
    destruct (find_str CRLF buf) as [pos|] eqn:F.
    + assert (pos = length line) as ->.
      { pose proof (find_str_app_l _ _ (concat (ev_data <$> ev :: sk)) _ F) as F'.
        fold (stream (ev :: sk) buf) in F'. rewrite Hs, find_crlf_line in F' by done. congruence. }
      destruct (find_crlf_take _ _ F) as (_ & Hlen & Hbuf).
      unfold stream in Hs. rewrite Hbuf, <- !app_assoc in Hs.
      apply app_inj_1 in Hs as [Ht Hs]; [|done]. rewrite Ht.
      eexists _, _. split_and!; [reflexivity|done|]. by apply (app_inv_head CRLF) in Hs.
    + replace (m <? slen buf) with false.
      * rewrite delivers_ok by done. apply IH; [done|]. by rewrite <- stream_cons.
      * symmetry. apply Z.ltb_ge.
        destruct (decide (slen buf ≤ slen line + 1)) as [?|Hgt]; [lia|]. exfalso.
        assert (take (length (line ++ CRLF)) buf = line ++ CRLF) as Ht.
        { unfold stream in Hs. rewrite app_assoc in Hs.
          rewrite <- (take_app_le _ (concat (ev_data <$> ev :: sk))), Hs, take_app_length; [done|].
          rewrite length_app. unfold slen in *. simpl. lia. }
        assert (find_str CRLF buf = Some (length line)) as F'; [|congruence].
        rewrite <- (take_drop (length (line ++ CRLF)) buf), Ht.
        by apply find_str_app_l.
Qed.

Lemma not_ok_status ev : io_ok (read_body_some ev) = false → body_status_from_io (read_body_some ev) ≠ BodySuccess.
Proof. unfold io_ok, body_status_from_io. intros. bool_prop. by destruct (io_status _). Qed.

Lemma consume_line_sound sk buf m line buf' sk' :
  consume_line sk buf m = Done (LineOk line, buf', sk') →
  crlf_free line ∧ stream sk buf = line ++ CRLF ++ stream sk' buf'.
Proof.
  revert buf. induction sk as [|ev sk IH]; intros buf; cbn [consume_line];
    destruct (find_str CRLF buf) as [pos|] eqn:F.
  1,3: intros [= <- <- <-]; destruct (find_crlf_take _ _ F) as (? & _ & Hb); split; [done|];
    unfold stream; rewrite Hb at 1; by rewrite <- !app_assoc.
  - by destruct (m <? slen buf).
  - destruct (m <? slen buf); [done|]. destruct (io_ok _); [|done]. rewrite stream_cons. apply IH.
Qed.

Lemma consume_line_fueled sk buf m : consume_line sk buf m ≠ OutOfFuel.
Proof.
  revert buf. induction sk as [|ev sk IH]; intros buf; cbn [consume_line];
    destruct (find_str CRLF buf); try done; destruct (m <? slen buf); try done.
  destruct (io_ok _); [apply IH|done].
Qed.

(** ** Exact reads *)

Lemma consume_exact_complete sk buf out d rest :
  Forall delivers sk → stream sk buf = d ++ rest →
  ∃ buf' sk', consume_exact sk buf out (slen d) = Done (BodySuccess, ec_none, buf', out ++ d, sk') ∧
    Forall delivers sk' ∧ stream sk' buf' = rest.
Proof.
  intros Hsk. revert buf out d. induction sk as [|ev sk IH]; intros buf out d Hs; cbn [consume_exact].
  - rewrite slen_stream_nil in Hs. subst buf.
    assert (Z.to_nat (Z.min (slen d) (slen (d ++ rest))) = length d) as ->
      by (rewrite slen_app; unfold slen; lia).
    rewrite take_app_length, drop_app_length.
    replace (slen d - slen d <=? 0) with true by lia.
    eexists _, _. split_and!; [reflexivity|done|by rewrite slen_stream_nil].
  - inversion Hsk as [|?? Hev Hsk']; subst.
    destruct (decide (slen d ≤ slen buf)) as [Hle|Hgt].
    + assert (Z.to_nat (Z.min (slen d) (slen buf)) = length d) as -> by (unfold slen in *; lia).
      assert (take (length d) buf = d) as Ht.
      { rewrite <- (take_app_le _ (concat (ev_data <$> ev :: sk))) by (unfold slen in *; lia).
        fold (stream (ev :: sk) buf). by rewrite Hs, take_app_length. }
      rewrite Ht. replace (slen d - slen d <=? 0) with true by lia.
      eexists _, _. split_and!; [reflexivity|done|].
      unfold stream in *. rewrite <- drop_app_le by (unfold slen in *; lia).
      by rewrite Hs, drop_app_length.
    + assert (Z.to_nat (Z.min (slen d) (slen buf)) = length buf) as -> by (unfold slen in *; lia).
      rewrite take_ge, drop_ge by lia.
      assert (∃ d', d = buf ++ d') as [d' ->].
      { exists (drop (length buf) d). rewrite <- (take_drop (length buf) d) at 1. f_equal.
        rewrite <- (take_app_le d rest) by (unfold slen in *; lia). rewrite <- Hs.
        unfold stream. by rewrite take_app_length. }
      rewrite slen_app in Hgt |- *.
      replace (slen buf + slen d' - slen buf) with (slen d') by lia.
      replace (slen d' <=? 0) with false by lia. rewrite delivers_ok by done. simpl.
      unfold stream in Hs. rewrite <- app_assoc in Hs. apply app_inv_head in Hs.
      rewrite app_assoc. apply IH; [done|]. unfold stream. exact Hs.
Qed.

Lemma consume_exact_sound sk buf out len ec buf' out' sk' :
  0 ≤ len → consume_exact sk buf out len = Done (BodySuccess, ec, buf', out', sk') →
  ∃ d, out' = out ++ d ∧ slen d = len ∧ stream sk buf = d ++ stream sk' buf'.
Proof.
  revert buf out len. induction sk as [|ev sk IH]; intros buf out len Hlen; cbn [consume_exact];
    set (tk := Z.to_nat (Z.min len (slen buf)));
    assert (slen (take tk buf) = Z.min len (slen buf)) as Htk
      by (unfold slen in *; rewrite length_take; lia);
    rewrite Htk; destruct (len - Z.min len (slen buf) <=? 0) eqn:E; bool_prop.
  1,3: intros [= <- <- <- <-]; exists (take tk buf); split_and!; [done|lia|];
    unfold stream; by rewrite app_assoc, take_drop.
  - done.
  - destruct (io_ok _) eqn:Ho.
    + intros H. apply IH in H as (d & -> & Hd & Hs); [|lia].
      exists (take tk buf ++ d). rewrite app_assoc, slen_app. split_and!; [done|lia|].
      rewrite <- app_assoc, <- Hs, stream_cons. unfold stream.
      by rewrite <- !app_assoc, (app_assoc (take tk buf)), take_drop.
    + intros [= H]. by apply not_ok_status in Ho.
Qed.

Lemma consume_exact_fueled sk buf out len : consume_exact sk buf out len ≠ OutOfFuel.
Proof.
  revert buf out len. induction sk as [|ev sk IH]; intros buf out len; cbn [consume_exact];
    destruct (_ <=? 0); try done. destruct (io_ok _); [apply IH|done].
Qed.

Lemma length_line (line rest : bytes) : length (line ++ CRLF ++ rest) = (length line + 2 + length rest)%nat.
Proof. rewrite !length_app. simpl. lia. Qed.

(** ** Trailers and chunks: completeness *)

(** The lines the reader is sure to accept: below the control-line limit. *)
Definition short_line (line : bytes) : Prop := crlf_free line ∧ slen line < kMaxChunkControlLineSize.

Lemma read_trailers_complete fuel sk pre body trailers rest :
  Forall delivers sk → Forall (λ t, short_line t ∧ t ≠ []) trailers →
  stream sk pre = concat ((λ t, t ++ CRLF) <$> trailers) ++ CRLF ++ rest →
  (length (stream sk pre) < fuel)%nat →
  ∃ pre' sk', read_trailers fuel sk pre body = Done (mkBody BodySuccess body ec_none, pre', sk') ∧
    Forall delivers sk' ∧ stream sk' pre' = rest.
Proof.
  revert sk pre trailers. induction fuel as [|f IH]; intros sk pre trailers Hsk Ht Hs Hf; [lia|].
  cbn [read_trailers]. destruct trailers as [|t ts].
  - destruct (consume_line_complete sk pre [] rest kMaxChunkControlLineSize)
      as (pre' & sk' & -> & ? & ?); [done|done|done|done|]. eauto.
  - inversion Ht as [|?? [[Hc Hl] Hne] Ht']; subst. cbn [fmap list_fmap concat] in Hs.
    rewrite <- !app_assoc in Hs.
    destruct (consume_line_complete sk pre t _ kMaxChunkControlLineSize Hsk Hc Hl Hs)
      as (pre' & sk' & -> & Hsk' & Hs').
    destruct t as [|c t]; [done|]. apply (IH sk' pre' ts); [done|done|done|].
    rewrite Hs, length_line in Hf. rewrite Hs'. lia.
Qed.

Lemma read_chunks_complete body wire :
  chunked short_line body wire → ∀ fuel sk pre body0 rest m,
  Forall delivers sk → 0 ≤ m ≤ SIZE_MAX - 2 →
  stream sk pre = wire ++ rest → slen body0 + slen body ≤ m →
  (length (stream sk pre) < fuel)%nat →
  ∃ pre' sk',
    read_chunks fuel sk pre body0 m = Done (mkBody BodySuccess (body0 ++ body) ec_none, pre', sk') ∧
    Forall delivers sk' ∧ stream sk' pre' = rest.
Proof.
  induction 1 as [line trailers [Hc Hl] Hz Ht|line d body wire [Hc Hl] Hd Hne Hch IH];
    intros fuel sk pre body0 rest m Hsk Hm Hs Hb Hf; (destruct fuel as [|f]; [lia|]);
    cbn [read_chunks]; rewrite <- !app_assoc in Hs;
    destruct (consume_line_complete sk pre line _ kMaxChunkControlLineSize Hsk Hc Hl Hs)
      as (pre1 & sk1 & -> & Hsk1 & Hs1).
  - rewrite Hz, app_nil_r. simpl. eapply read_trailers_complete; [done|done|done|].
    rewrite Hs, length_line in Hf. rewrite Hs1. lia.
  - rewrite Hd. pose proof (slen_nonneg d). pose proof (slen_nonneg body0).
    pose proof (slen_nonneg body). rewrite slen_app in Hb.
    assert (slen d ≠ 0) by (by rewrite slen_0).
    replace (slen d =? 0) with false by lia.
    replace (m <? slen d) with false by lia.
    replace (m - slen d <? slen body0) with false by lia. cbn [orb].
    assert (wrap64 (slen d + 2) = slen (d ++ CRLF)) as Hw.
    { rewrite slen_app. change (slen CRLF) with 2. unfold wrap64, SIZE_MAX in *. apply Z.mod_small. lia. }
    rewrite Hw. rewrite (app_assoc d) in Hs1.
    destruct (consume_exact_complete sk1 pre1 [] (d ++ CRLF) _ Hsk1 Hs1)
      as (pre2 & sk2 & -> & Hsk2 & Hs2).
    cbn [app]. rewrite bool_decide_eq_true_2 by done. cbn [negb].
    replace (slen (d ++ CRLF) <? slen (d ++ CRLF)) with false by lia.
    assert (ends_with_crlf (d ++ CRLF) (slen d) = true) as ->.
    { unfold ends_with_crlf, slen. rewrite Nat2Z.id.
      replace (Z.to_nat (Z.of_nat (length d) + 1)) with (length d + 1)%nat by lia.
      rewrite lookup_app_r by lia. rewrite Nat.sub_diag.
      rewrite lookup_app_r by lia. replace (length d + 1 - length d)%nat with 1%nat by lia. done. }
    cbn [negb orb]. unfold slen at 1. rewrite Nat2Z.id, take_app_length.
    rewrite app_assoc. apply IH; [done|done|done| |].
    + rewrite slen_app. lia.
    + rewrite Hs, length_line, length_line in Hf. rewrite Hs2. lia.
Qed.

(** ** Soundness *)

Lemma read_trailers_sound fuel sk pre body r pre' sk' :
  read_trailers fuel sk pre body = Done (r, pre', sk') → body_status r = BodySuccess →
  body_bytes r = body ∧ ∃ trailers, Forall (λ t, crlf_free t ∧ t ≠ []) trailers ∧
  stream sk pre = concat ((λ t, t ++ CRLF) <$> trailers) ++ CRLF ++ stream sk' pre'.
Proof.
  revert sk pre. induction fuel as [|f IH]; intros sk pre; [done|]. cbn [read_trailers].
  destruct (consume_line sk pre _) as [[[[line|st ec] pre1] sk1]| |] eqn:E; try done.
  - apply consume_line_sound in E as [Hc Hs]. destruct line as [|c line].
    + intros [= <- <- <-] _. split; [done|]. exists []. split; [done|]. exact Hs.
    + intros H Hr. destruct (IH _ _ H Hr) as (Hb & ts & Hts & Hs1). split; [done|].
      exists ((c :: line) :: ts). split; [by repeat constructor|].
      rewrite Hs, Hs1. cbn [fmap list_fmap concat]. by rewrite <- !app_assoc.
  - intros [= <- <- <-] Hr. simpl in Hr. subst st. exfalso. revert E. clear.
    revert pre. induction sk as [|ev sk IH]; intros pre; cbn [consume_line];
      destruct (find_str CRLF pre); try done; destruct (_ <? slen pre); try done.
    destruct (io_ok _) eqn:Ho; [apply IH|]. intros [= H]. by apply not_ok_status in Ho.
Qed.

Lemma consume_line_fail_status sk pre m st ec pre' sk' :
  consume_line sk pre m = Done (LineFail st ec, pre', sk') → st ≠ BodySuccess.
Proof.
  revert pre. induction sk as [|ev sk IH]; intros pre; cbn [consume_line];
    destruct (find_str CRLF pre); try done; destruct (m <? slen pre); try naive_solver.
  destruct (io_ok _) eqn:Ho; [apply IH|]. intros [= <- _ _ _]. by apply not_ok_status.
Qed.

(** A chunk that passed the terminator test is its data followed by CRLF. *)
Lemma ends_with_crlf_app tmp n :
  0 ≤ n → slen tmp = n + 2 → ends_with_crlf tmp n = true → tmp = take (Z.to_nat n) tmp ++ CRLF.
Proof.
  unfold ends_with_crlf, slen. intros Hn Hl H. bool_prop.
  replace (Z.to_nat (n + 1)) with (S (Z.to_nat n)) in * by lia.
  rewrite <- (take_drop (Z.to_nat n) tmp) at 1. f_equal.
  assert (length (drop (Z.to_nat n) tmp) = 2%nat) as H2 by (rewrite length_drop; lia).
  destruct (drop (Z.to_nat n) tmp) as [|a [|b [|? ?]]] eqn:E; try done.
  assert (drop (Z.to_nat n) tmp !! 0%nat = Some a) as Ha by (by rewrite E).
  assert (drop (Z.to_nat n) tmp !! 1%nat = Some b) as Hb by (by rewrite E).
  rewrite lookup_drop in Ha, Hb. rewrite Nat.add_0_r in Ha.
  replace (Z.to_nat n + 1)%nat with (S (Z.to_nat n)) in Hb by lia. by simplify_eq.
Qed.

Lemma read_chunks_sound fuel sk pre body0 m r pre' sk' :
  0 ≤ m ≤ SIZE_MAX - 2 → slen body0 ≤ m →
  read_chunks fuel sk pre body0 m = Done (r, pre', sk') → body_status r = BodySuccess →
  ∃ body wire, chunked crlf_free body wire ∧ body_bytes r = body0 ++ body ∧
    stream sk pre = wire ++ stream sk' pre' ∧ slen (body0 ++ body) ≤ m.
Proof.
  intros Hm. revert sk pre body0. induction fuel as [|f IH]; intros sk pre body0 Hb; [done|].
  cbn [read_chunks].
  destruct (consume_line sk pre _) as [[[[line|st ec] pre1] sk1]| |] eqn:E; try done.
  2: { intros [= <- <- <-] Hr. by apply consume_line_fail_status in E. }
  apply consume_line_sound in E as [Hc Hs].
  destruct (parse_hex_size_line line) as [n|] eqn:Hn; [|by intros [= <- <- <-]].
  destruct (n =? 0) eqn:Hz; bool_prop.
  { subst n. intros H Hr. destruct (read_trailers_sound _ _ _ _ _ _ _ H Hr) as (-> & ts & Hts & Hs1).
    eexists [], _. split_and!; [by apply (chunked_last _ line ts)| | |]; rewrite ?app_nil_r; try done.
    rewrite Hs, Hs1. by rewrite <- !app_assoc. }
  destruct ((m <? n) || _) eqn:Hbig; [by intros [= <- <- <-]|]. bool_prop.
  assert (0 ≤ n) as Hn0.
  { apply parse_hex_size_line_correct in Hn as (_ & Hd & -> & _).
    unfold hex_number. apply hex_value_from_ge; [done|lia]. }
  assert (wrap64 (n + 2) = n + 2) as ->.
  { unfold wrap64, SIZE_MAX in *. apply Z.mod_small. lia. }
  destruct (consume_exact sk1 pre1 [] (n + 2)) as [[[[[st ec] pre2] tmp] sk2]| |] eqn:Ex; try done.
  destruct (bool_decide (st = BodySuccess)) eqn:Hst; bool_prop; cbn [negb];
    [subst st|by intros [= <- <- <-]].
  apply consume_exact_sound in Ex as (d & Htmp & Hd & Hs1); [|lia]. cbn [app] in Htmp. subst tmp.
  destruct ((slen d <? n + 2) || _) eqn:Hcr; [by intros [= <- <- <-]|]. bool_prop.
  pose proof (ends_with_crlf_app d n Hn0 Hd H2) as Hsplit.
  set (data := take (Z.to_nat n) d) in *.
  assert (slen data = n) as Hdata by (unfold data, slen in *; rewrite length_take; lia).
  intros Hrec Hr. destruct (IH sk2 pre2 (body0 ++ data)) as (body & wire & Hch & Hbody & Hs2 & Hle);
    [rewrite slen_app; lia|done|done|].
  exists (data ++ body), (line ++ CRLF ++ data ++ CRLF ++ wire). split_and!.
  - apply chunked_cons; [done|by rewrite Hdata| |done]. intros Hnil. rewrite Hnil in Hdata.
    change (slen []) with 0 in Hdata. lia.
  - by rewrite Hbody, app_assoc.
  - rewrite Hs, Hs1, Hs2, Hsplit. by rewrite <- !app_assoc.
  - by rewrite app_assoc.
Qed.

(** ** The loop bound is never reached *)

Lemma read_trailers_fueled fuel sk pre body :
  (length (stream sk pre) < fuel)%nat → read_trailers fuel sk pre body ≠ OutOfFuel.
Proof.
  revert sk pre. induction fuel as [|f IH]; intros sk pre Hf; [lia|]. cbn [read_trailers].
  destruct (consume_line sk pre _) as [[[[line|st ec] pre1] sk1]| |] eqn:E; try done.
  - destruct line as [|c line]; [done|]. apply IH. apply consume_line_sound in E as [_ Hs].
    rewrite Hs, length_line in Hf. lia.
  - by apply consume_line_fueled in E.
Qed.

Lemma read_chunks_fueled fuel sk pre body m :
  (length (stream sk pre) < fuel)%nat → 0 ≤ m ≤ SIZE_MAX - 2 →
  read_chunks fuel sk pre body m ≠ OutOfFuel.
Proof.
  intros Hf Hm. revert sk pre body Hf. induction fuel as [|f IH]; intros sk pre body Hf; [lia|].
  cbn [read_chunks].
  destruct (consume_line sk pre _) as [[[[line|st ec] pre1] sk1]| |] eqn:E; try done;
    [|by apply consume_line_fueled in E].
  apply consume_line_sound in E as [_ Hs]. rewrite Hs, length_line in Hf.
  destruct (parse_hex_size_line line) as [n|] eqn:Hn; [|done].
  destruct (n =? 0); [apply read_trailers_fueled; lia|].
  destruct (_ || _); [done|].
  destruct (consume_exact sk1 pre1 [] _) as [[[[[st ec] pre2] tmp] sk2]| |] eqn:Ex; try done;
    [|by apply consume_exact_fueled in Ex].
  destruct (bool_decide (st = BodySuccess)) eqn:Hst; [|done]. bool_prop. subst st. cbn [negb].
  destruct (_ || _); [done|]. apply IH.
  apply consume_exact_sound in Ex as (d & _ & _ & Hs1); [|apply Z.mod_pos_bound; lia].
  rewrite Hs1, length_app in Hf. lia.
Qed.

(** ** Properties *)

(** C5: the chunked reader decodes every chunked message, however the network
    cuts it into reads: with the message (chunk extensions and trailers
    included, control lines shorter than the limit) at the front of what is
    buffered and still to be read, and a body within the limit, it returns
    exactly the body and leaves exactly the bytes that follow the message. *)
Theorem read_chunked_body_complete sk preread body wire rest max_body_size :
  chunked short_line body wire → Forall delivers sk → 0 ≤ max_body_size ≤ SIZE_MAX - 2 →
  stream sk preread = wire ++ rest → slen body ≤ max_body_size →
  ∃ preread' sk',
    read_chunked_body sk preread max_body_size =
      Done (mkBody BodySuccess body ec_none, preread', sk') ∧
    stream sk' preread' = rest.
Proof.
  intros Hch Hsk Hm Hs Hb.
  destruct (read_chunks_complete body wire Hch (chunk_fuel sk preread) sk preread [] rest max_body_size)
    as (pre' & sk' & H & _ & ?); [done|done|done|done|unfold chunk_fuel; lia|]. eauto.
Qed.

Lemma read_chunked_body_complete_witness :
  let sk := [mkRead ec_none false ("5" ++ CRLF ++ "hel");
             mkRead ec_none false ("lo" ++ CRLF ++ "0" ++ [CR]);
             mkRead ec_none false ([LF] ++ CRLF ++ "GET")] in
  ∃ preread' sk',
    read_chunked_body sk [] 100 = Done (mkBody BodySuccess ("hello" ++ []) ec_none, preread', sk') ∧
    stream sk' preread' = ("GET" : bytes).
Proof.
  eapply read_chunked_body_complete.
  - apply (chunked_cons _ "5" "hello" [] ("0" ++ CRLF ++ concat ((λ t, t ++ CRLF) <$> []) ++ CRLF)).
    + split; [vm_compute; reflexivity|vm_compute; reflexivity].
    + vm_compute. reflexivity.
    + discriminate.
    + apply (chunked_last _ "0" []).
      * split; [vm_compute; reflexivity|vm_compute; reflexivity].
      * vm_compute. reflexivity.
      * constructor.
  - repeat constructor; discriminate.
  - unfold SIZE_MAX. lia.
  - reflexivity.
  - vm_compute. discriminate.
Defined.

(** C6: the chunked reader accepts nothing but chunked messages.  Whatever the
    socket delivers (errors and timeouts included), when the reader reports
    success the bytes it consumed are a chunked coding of the body it returns,
    the unread bytes are untouched and the body is within the limit; and the
    loops always return or wait for the socket. *)
Theorem read_chunked_body_sound sk preread max_body_size :
  0 ≤ max_body_size ≤ SIZE_MAX - 2 →
  read_chunked_body sk preread max_body_size ≠ OutOfFuel ∧
  (∀ r preread' sk',
     read_chunked_body sk preread max_body_size = Done (r, preread', sk') → body_ok r = true →
     ∃ wire, chunked crlf_free (body_bytes r) wire ∧
       stream sk preread = wire ++ stream sk' preread' ∧ slen (body_bytes r) ≤ max_body_size).
Proof.
  intros Hm. split; [apply read_chunks_fueled; [unfold chunk_fuel; lia|done]|].
  unfold body_ok. intros r pre' sk' H Hr. bool_prop.
  apply read_chunks_sound in H as (body & wire & ? & -> & ? & ?);
    [|done|by change (slen []) with 0; lia|done]. eauto.
Qed.

Lemma read_chunked_body_sound_witness :
  0 ≤ kMaxBodySize ≤ SIZE_MAX - 2 ∧
  read_chunked_body [mkRead ec_none false "zz"; mkRead ec_eof false []] [] kMaxBodySize ≠ OutOfFuel.
Proof.
  split; [vm_compute; split; discriminate|].
  apply (read_chunked_body_sound [mkRead ec_none false "zz"; mkRead ec_eof false []] [] kMaxBodySize).
  vm_compute; split; discriminate.
Defined.

Lemma read_content_length_sound sk preread content_length max_body_size r preread' sk' :
  0 ≤ content_length →
  read_content_length_body sk preread content_length max_body_size = Done (r, preread', sk') →
  body_ok r = true →
  slen (body_bytes r) = content_length ∧ content_length ≤ max_body_size ∧
  stream sk preread = body_bytes r ++ stream sk' preread'.
Proof.
  intros Hc. unfold read_content_length_body.
  destruct (max_body_size <? content_length) eqn:E1; bool_prop; [by intros [= <- <- <-]|].
  destruct (content_length <=? slen preread) eqn:E2; bool_prop.
  - intros [= <- <- <-] _. simpl. split_and!; [|done|].
    + unfold slen in *. rewrite length_take. lia.
    + unfold stream. by rewrite app_assoc, take_drop.
  - destruct (consume_exact _ _ _ _) as [[[[[st ec] pre'] out] sk1]| |] eqn:Ex; try done.
    destruct (bool_decide (st = BodySuccess)) eqn:Hst; bool_prop.
    + intros [= <- <- <-] _. subst st. apply consume_exact_sound in Ex as (d & -> & Hd & Hs); [|lia].
      simpl. rewrite slen_app. split_and!; [lia|done|].
      unfold stream in *. simpl in Hs. by rewrite <- app_assoc, <- Hs.
    + intros [= <- <- <-]. unfold body_ok. simpl. by rewrite bool_decide_eq_true.
Qed.

(** a Content-Length body is exactly that many bytes: too large a length is
    refused before anything is read, success returns the next
    [content_length] bytes and leaves the rest, and when the reads deliver
    enough bytes the reader does succeed. *)
Lemma read_content_length_body_exact sk preread content_length max_body_size :
  0 ≤ content_length →
  (max_body_size < content_length →
     read_content_length_body sk preread content_length max_body_size =
       Done (mkBody BodyTooLarge [] ec_none, preread, sk)) ∧
  (∀ r preread' sk',
     read_content_length_body sk preread content_length max_body_size = Done (r, preread', sk') →
     body_ok r = true →
     slen (body_bytes r) = content_length ∧ content_length ≤ max_body_size ∧
     stream sk preread = body_bytes r ++ stream sk' preread') ∧
  (content_length ≤ max_body_size → Forall delivers sk → content_length ≤ slen (stream sk preread) →
     ∃ r preread' sk',
       read_content_length_body sk preread content_length max_body_size = Done (r, preread', sk') ∧
       body_ok r = true).
Proof.
  intros Hc. split_and!.
  - intros H. unfold read_content_length_body. by replace (max_body_size <? content_length) with true by lia.
  - intros r p s. by apply read_content_length_sound.
  - intros Hle Hsk Hs. unfold read_content_length_body. replace (max_body_size <? content_length) with false by lia.
    destruct (content_length <=? slen preread) eqn:E2; bool_prop; [by eexists _, _, _|].
    set (n := Z.to_nat (content_length - slen preread)).
    unfold stream in Hs. rewrite slen_app in Hs.
    assert (content_length - slen preread = slen (take n (concat (ev_data <$> sk)))) as Hn.
    { unfold n, slen in *. rewrite length_take. lia. }
    destruct (consume_exact_complete sk [] preread (take n (concat (ev_data <$> sk)))
                (drop n (concat (ev_data <$> sk))) Hsk) as (pre' & sk' & Hex & _).
    { unfold stream. simpl. by rewrite take_drop. }
    rewrite Hn, Hex. by eexists _, _, _.
Qed.

Lemma read_content_length_body_exact_witness :
  ∃ r preread' sk',
    read_content_length_body [mkRead ec_none false "cdef"] "ab" 5 100 = Done (r, preread', sk') ∧
    body_ok r = true.
Proof.
  apply (read_content_length_body_exact [mkRead ec_none false "cdef"] "ab" 5 100).
  - lia.
  - lia.
  - repeat constructor; discriminate.
  - vm_compute. discriminate.
Defined.
