(* ===== verification/Pico.v ===== *)
(** * The request parser (src/picohttpparser.c)

    The C parser the session runs over the bytes of a request head, in the build
    without SSE4.2 (the build files do not enable it), where [findchar_fast]
    returns its argument.  A pointer [buf] is the list of bytes from it to
    [buf_end]; a read at or past [buf_end] is the separate result [POob].  The
    theorems show that no such read happens, that the parser accepts exactly a
    grammar of request heads and returns the fields of the one derivation, and
    that a verdict is not changed by bytes that arrive later. *)

From S2P Require Import Prelude.

(** ** Results *)

(** A parsing function returns a value and the advanced pointer, or NULL with
    [*ret] set, or has read out of bounds. *)
Inductive parsed (A : Type) := POk (a : A) (buf : bytes) | PFail (ret : Z) | POob.
Arguments POk {A} a buf.
Arguments PFail {A} ret.
Arguments POob {A}.

(** [if ((buf = m) == NULL) return NULL;] *)
Definition pbind {A B} (m : parsed A) (k : A → bytes → parsed B) : parsed B :=
  match m with POk a buf => k a buf | PFail r => PFail r | POob => POob end.

Declare Scope pico_scope.
Notation "'get' x 'at' b 'from' m 'in' k" := (pbind m (λ x b, k))
  (at level 200, x name, b name, m at level 100, k at level 200) : pico_scope.
Local Open Scope pico_scope.

Definition SP : ascii := " ".
Definition DEL : ascii := chr 127.

(** [(unsigned char)(c)-040u < 0137u], in unsigned arithmetic. *)
Definition IS_PRINTABLE_ASCII (c : ascii) : bool := wrap32 (code c - 32) <? 95.

Definition CHECK_EOF {A} (buf : bytes) (k : parsed A) : parsed A :=
  match buf with [] => PFail (-2) | _ => k end.

(** [*buf], with the pointer behind it. *)
Definition deref {A} (buf : bytes) (k : ascii → bytes → parsed A) : parsed A :=
  match buf with [] => POob | c :: buf' => k c buf' end.

Definition EXPECT_CHAR_NO_CHECK (ch : ascii) (buf : bytes) : parsed unit :=
  deref buf (λ c buf', if ceqb c ch then POk tt buf' else PFail (-1)).

Definition EXPECT_CHAR (ch : ascii) (buf : bytes) : parsed unit :=
  CHECK_EOF buf (EXPECT_CHAR_NO_CHECK ch buf).

(** ** Tokens *)

Definition is_ctl (c : ascii) : bool := (code c <? 32) || ceqb c DEL.

Definition pcons (c : ascii) (m : parsed bytes) : parsed bytes :=
  get t at buf from m in POk (c :: t) buf.

(** The loop of [ADVANCE_TOKEN] and the macro. *)
Fixpoint advance_token (buf : bytes) : parsed bytes :=
  match buf with
  | [] => POob
  | c :: buf' =>
      if ceqb c SP then POk [] buf
      else if negb (IS_PRINTABLE_ASCII c) && is_ctl c then PFail (-1)
      else match buf' with [] => PFail (-2) | _ => pcons c (advance_token buf') end
  end.

Definition ADVANCE_TOKEN (buf : bytes) : parsed bytes := CHECK_EOF buf (advance_token buf).

(** The table, one digit per byte value, in the rows of the source. *)
Definition token_char_map : bytes :=
  "00000000000000000000000000000000" ++
  "01011111001101101111111111000000" ++
  "01111111111111111111111111100011" ++
  "11111111111111111111111111101010" ++
  "00000000000000000000000000000000" ++
  "00000000000000000000000000000000" ++
  "00000000000000000000000000000000" ++
  "00000000000000000000000000000000".

Definition token_char (c : ascii) : bool :=
  match token_char_map !! Z.to_nat (code c) with
  | Some d => negb (ceqb d "0")
  | None => false
  end.

Fixpoint token_loop (next_char : ascii) (buf : bytes) : parsed bytes :=
  match buf with
  | [] => POob
  | c :: buf' =>
      if ceqb c next_char then POk [] buf
      else if negb (token_char c) then PFail (-1)
      else match buf' with [] => PFail (-2) | _ => pcons c (token_loop next_char buf') end
  end.

Definition parse_token (buf : bytes) (next_char : ascii) : parsed bytes :=
  CHECK_EOF buf (token_loop next_char buf).

(** [do { ++buf; CHECK_EOF(); } while ( *buf == ' ')] *)
Fixpoint skip_spaces (buf : bytes) : parsed unit :=
  match buf with
  | [] => POob
  | _ :: buf' =>
      match buf' with
      | [] => PFail (-2)
      | c :: _ => if ceqb c SP then skip_spaces buf' else POk tt buf'
      end
  end.

(** ** Lines *)

(** The bytes a line does not contain: control bytes other than HT, and DEL. *)
Definition line_ctl (c : ascii) : bool := (code c <? 32) && negb (ceqb c TAB) || ceqb c DEL.

(** [DOIT()] [n] times: all bytes printable, or the jump to [NonPrintable]. *)
Fixpoint doit (n : nat) (buf : bytes) : option (bool * bytes) :=
  match n with
  | O => Some (true, buf)
  | S n =>
      match buf with
      | [] => None
      | c :: buf' => if negb (IS_PRINTABLE_ASCII c) then Some (false, buf) else doit n buf'
      end
  end.

(** The unrolled loop: stopped at [FOUND_CTL], or fewer than 8 bytes are left. *)
Fixpoint scan_unrolled (fuel : nat) (buf : bytes) : option (bool * bytes) :=
  match fuel with
  | O => None
  | S fuel =>
      if 8 <=? slen buf then
        match doit 8 buf with
        | Some (true, buf) => scan_unrolled fuel buf
        | Some (false, c :: buf') => if line_ctl c then Some (true, c :: buf') else scan_unrolled fuel buf'
        | Some (false, []) | None => None
        end
      else Some (false, buf)
  end.

(** The byte-wise loop, up to [FOUND_CTL]. *)
Fixpoint scan_simple (buf : bytes) : parsed unit :=
  match buf with
  | [] => PFail (-2)
  | c :: buf' =>
      if negb (IS_PRINTABLE_ASCII c) then
        if line_ctl c then POk tt buf else scan_simple buf'
      else scan_simple buf'
  end.

(** [FOUND_CTL]; the token is the [token_len] bytes from [token_start]. *)
Definition found_ctl (token_start buf : bytes) : parsed bytes :=
  deref buf (λ c buf',
    if ceqb c CR then
      get _ at buf'' from EXPECT_CHAR LF buf' in
      POk (take (length token_start - length buf'' - 2) token_start) buf''
    else if ceqb c LF then POk (take (length token_start - length buf) token_start) buf'
    else PFail (-1)).

Definition get_token_to_eol (buf : bytes) : parsed bytes :=
  match scan_unrolled (S (length buf)) buf with
  | None => POob
  | Some (true, buf') => found_ctl buf buf'
  | Some (false, buf') => get _ at buf'' from scan_simple buf' in found_ctl buf buf''
  end.

(** ** Request completeness, for calls that repeat with more bytes *)

Fixpoint complete_loop (ret_cnt : Z) (buf : bytes) : parsed unit :=
  match buf with
  | [] => PFail (-2)
  | c :: buf1 =>
      if ceqb c CR then
        match buf1 with
        | [] => PFail (-2)
        | d :: buf2 =>
            if ceqb d LF then
              if ret_cnt + 1 =? 2 then POk tt buf2 else complete_loop (ret_cnt + 1) buf2
            else PFail (-1)
        end
      else if ceqb c LF then
        if ret_cnt + 1 =? 2 then POk tt buf1 else complete_loop (ret_cnt + 1) buf1
      else complete_loop 0 buf1
  end.

Definition is_complete (buf : bytes) (last_len : Z) : parsed unit :=
  if last_len <? 3 then complete_loop 0 buf
  else if slen buf <? last_len - 3 then POob
  else complete_loop 0 (drop (Z.to_nat (last_len - 3)) buf).

(** ** Version, headers, request *)

(** [PARSE_INT(valp, 1)]; a [char] outside the digits is an error whatever its
    sign. *)
Definition PARSE_INT (buf : bytes) : parsed Z :=
  deref buf (λ c buf', if negb (isdigit c) then PFail (-1) else POk (code c - 48) buf').

Fixpoint expect_all (s buf : bytes) : parsed unit :=
  match s with
  | [] => POk tt buf
  | ch :: s => get _ at buf' from EXPECT_CHAR_NO_CHECK ch buf in expect_all s buf'
  end.

Definition parse_http_version (buf : bytes) : parsed Z :=
  if slen buf <? 9 then PFail (-2)
  else get _ at buf' from expect_all "HTTP/1." buf in PARSE_INT buf'.

(** [name] is NULL for a continuation line. *)
Record phr_header := mkPhrHeader { phr_name : option bytes; phr_value : bytes }.

Definition is_ows (c : ascii) : bool := ceqb c SP || ceqb c TAB.

(** [for (;; ++buf) { CHECK_EOF(); if (!( *buf == ' ' || *buf == '\t')) break; }] *)
Fixpoint skip_ows (buf : bytes) : parsed unit :=
  match buf with
  | [] => PFail (-2)
  | c :: buf' => if is_ows c then skip_ows buf' else POk tt buf
  end.

Fixpoint drop_ows (s : bytes) : bytes :=
  match s with c :: t => if is_ows c then drop_ows t else s | [] => [] end.

(** [remove trailing SPs and HTABs] *)
Definition trim_value (v : bytes) : bytes := reverse (drop_ows (reverse v)).

Definition parse_name (buf : bytes) : parsed (option bytes) :=
  get name at buf from parse_token buf ":" in
  if slen name =? 0 then PFail (-1)
  else deref buf (λ _ buf', get _ at buf'' from skip_ows buf' in POk (Some name) buf'').

(** One turn of the loop after the end-of-headers test. *)
Definition parse_header (first : bool) (buf : bytes) : parsed phr_header :=
  get name at buf from
    deref buf (λ c _, if negb (negb first && is_ows c) then parse_name buf else POk None buf) in
  get value at buf from get_token_to_eol buf in
  POk (mkPhrHeader name (trim_value value)) buf.

(** [room] is [max_headers - *num_headers]. *)
Fixpoint parse_headers (room : nat) (first : bool) (buf : bytes) : parsed (list phr_header) :=
  CHECK_EOF buf (deref buf (λ c buf',
    if ceqb c CR then get _ at buf'' from EXPECT_CHAR LF buf' in POk [] buf''
    else if ceqb c LF then POk [] buf'
    else match room with
         | O => PFail (-1)
         | S room =>
             get h at buf'' from parse_header first buf in
             get hs at buf3 from parse_headers room false buf'' in
             POk (h :: hs) buf3
         end)).

Record phr_request := mkPhrRequest {
  phr_method : bytes;
  phr_path : bytes;
  phr_minor : Z;
  phr_headers : list phr_header
}.

(** The empty line some clients send before a request. *)
Definition skip_empty_line (buf : bytes) : parsed unit :=
  CHECK_EOF buf (deref buf (λ c buf',
    if ceqb c CR then EXPECT_CHAR LF buf' else if ceqb c LF then POk tt buf' else POk tt buf)).

(** The end of the request line. *)
Definition expect_eol (buf : bytes) : parsed unit :=
  deref buf (λ c buf',
    if ceqb c CR then EXPECT_CHAR LF buf' else if ceqb c LF then POk tt buf' else PFail (-1)).

Definition parse_request (max_headers : nat) (buf : bytes) : parsed phr_request :=
  get _ at buf from skip_empty_line buf in
  get method at buf from parse_token buf SP in
  get _ at buf from skip_spaces buf in
  get path at buf from ADVANCE_TOKEN buf in
  get _ at buf from skip_spaces buf in
  if (slen method =? 0) || (slen path =? 0) then PFail (-1)
  else
    get minor at buf from parse_http_version buf in
    get _ at buf from expect_eol buf in
    get hs at buf from parse_headers max_headers true buf in
    POk (mkPhrRequest method path minor hs) buf.

(** The returned [int] with the fields it leaves; [None] is a read out of bounds. *)
Definition phr_parse_request (buf : bytes) (max_headers : nat) (last_len : Z) : option (Z * option phr_request) :=
  match (if negb (last_len =? 0) then is_complete buf last_len else POk tt buf) with
  | POob => None
  | PFail r => Some (r, None)
  | POk _ _ =>
      match parse_request max_headers buf with
      | POob => None
      | PFail r => Some (r, None)
      | POk req rest => Some (slen buf - slen rest, Some req)
      end
  end.

Example pico_example :
  phr_parse_request ("GET  /a?b HTTP/1.1" ++ CRLF ++ "Host:  x y " ++ CRLF ++ "A:" ++ CRLF ++ " folded" ++ [LF] ++ CRLF ++ "body") 128 0 =
  Some (47, Some (mkPhrRequest "GET" "/a?b" 1
    [mkPhrHeader (Some ("Host" : bytes)) "x y"; mkPhrHeader (Some ("A" : bytes)) ""; mkPhrHeader None " folded"])).
Proof. vm_compute. reflexivity. Qed.

(** ** The grammar of request heads *)

Definition token (s : bytes) : Prop := s ≠ [] ∧ Forall (λ c, token_char c = true) s.
Definition spaces (s : bytes) : Prop := s ≠ [] ∧ Forall (λ c, c = SP) s.
Definition target (s : bytes) : Prop := s ≠ [] ∧ Forall (λ c, c ≠ SP ∧ is_ctl c = false) s.
Definition ows (s : bytes) : Prop := Forall (λ c, is_ows c = true) s.
Definition line_text (s : bytes) : Prop := Forall (λ c, line_ctl c = false) s.
Definition ows_free_end (s : bytes) : Prop := ∀ c, last s = Some c → is_ows c = false.
Definition ows_free_start (s : bytes) : Prop := ∀ c, head s = Some c → is_ows c = false.

Inductive eol : bytes → Prop := eol_crlf : eol CRLF | eol_lf : eol [LF].

(** A field, or, not as the first line, a continuation with its leading space. *)
Inductive header_line (first : bool) : phr_header → bytes → Prop :=
| field_line name pre v post e :
    token name → ows pre → ows post → line_text v → ows_free_start v → ows_free_end v → eol e →
    header_line first (mkPhrHeader (Some name) v) (name ++ ":"%char :: pre ++ v ++ post ++ e)
| folded_line c v raw post e :
    first = false → raw ++ post = c :: v → is_ows c = true → line_text raw → ows_free_end raw →
    ows post → eol e → header_line first (mkPhrHeader None raw) (raw ++ post ++ e).

Inductive header_block : bool → list phr_header → bytes → Prop :=
| block_end first e : eol e → header_block first [] e
| block_cons first h w hs ws :
    header_line first h w → header_block false hs ws → header_block first (h :: hs) (w ++ ws).

Inductive request_wire : phr_request → bytes → Prop :=
| request_head pre method s1 path s2 d e hs block :
    (pre = [] ∨ eol pre) → token method → spaces s1 → target path → spaces s2 →
    isdigit d = true → eol e → header_block true hs block →
    request_wire (mkPhrRequest method path (code d - 48) hs)
      (pre ++ method ++ s1 ++ path ++ s2 ++ "HTTP/1." ++ d :: e ++ block).

(** ** Bytes *)

Lemma ctl_not_printable c : is_ctl c = true → IS_PRINTABLE_ASCII c = false.
Proof. all_bytes c. Qed.

Lemma line_ctl_not_printable c : line_ctl c = true → IS_PRINTABLE_ASCII c = false.
Proof. all_bytes c. Qed.

Lemma ows_line_text c : is_ows c = true → line_ctl c = false.
Proof. all_bytes c. Qed.

Lemma token_char_class c :
  token_char c = true → c ≠ SP ∧ c ≠ CR ∧ c ≠ LF ∧ ceqb c ":" = false ∧ is_ows c = false ∧ line_ctl c = false.
Proof. intros H. split_and!; [intros ->; by vm_compute in H..| | |]; revert H; all_bytes c. Qed.

(** ** Out-of-bounds freedom and results, as a weakest precondition *)

Definition post {A} (m : parsed A) (Q : A → bytes → Prop) : Prop :=
  match m with POk a r => Q a r | PFail z => z = -1 ∨ z = -2 | POob => False end.

Lemma post_bind {A B} (m : parsed A) (k : A → bytes → parsed B) Q R :
  post m Q → (∀ a r, Q a r → post (k a r) R) → post (pbind m k) R.
Proof. destruct m; cbn; auto. Qed.

Lemma post_mono {A} (m : parsed A) (Q R : A → bytes → Prop) :
  post m Q → (∀ a r, Q a r → R a r) → post m R.
Proof. destruct m; cbn; auto. Qed.

Lemma post_fail {A} z (Q : A → bytes → Prop) : z = -1 ∨ z = -2 → post (PFail z) Q.
Proof. done. Qed.

#[local] Hint Resolve post_fail : gw.

Lemma expect_char_post ch buf : post (EXPECT_CHAR ch buf) (λ _ r, buf = ch :: r).
Proof.
  destruct buf as [|c r]; cbn; [by right|]. destruct (ceqb c ch) eqn:E; cbn; [|by left].
  by apply ceqb_eq in E as ->.
Qed.

Lemma token_loop_post next buf : buf ≠ [] →
  post (token_loop next buf) (λ t r, buf = t ++ r ∧ Forall (λ c, token_char c = true) t ∧ head r = Some next).
Proof.
  induction buf as [|c buf IH]; [done|]. intros _. cbn [token_loop].
  destruct (ceqb c next) eqn:E; [by apply ceqb_eq in E as ->|].
  destruct (token_char c) eqn:Ec; cbn [negb]; [|by left].
  destruct buf as [|d buf]; [by right|].
  eapply post_bind; [by apply IH|]. intros t r (-> & Ht & Hr). cbn. eauto.
Qed.

Lemma advance_token_post buf : buf ≠ [] →
  post (advance_token buf) (λ t r, buf = t ++ r ∧ Forall (λ c, c ≠ SP ∧ is_ctl c = false) t ∧ head r = Some SP).
Proof.
  induction buf as [|c buf IH]; [done|]. intros _. cbn [advance_token].
  destruct (ceqb c SP) eqn:E; [by apply ceqb_eq in E as ->|]. apply ceqb_ne in E.
  destruct (is_ctl c) eqn:Ec; [rewrite (ctl_not_printable _ Ec); by left|]. rewrite andb_false_r.
  destruct buf as [|d buf]; [by right|].
  eapply post_bind; [by apply IH|]. intros t r (-> & Ht & Hr). cbn. eauto.
Qed.

Lemma skip_spaces_post c buf :
  post (skip_spaces (c :: buf)) (λ _ r, ∃ s, buf = s ++ r ∧ Forall (λ c, c = SP) s ∧ r ≠ []).
Proof.
  revert c. induction buf as [|d buf IH]; intros c; cbn [skip_spaces]; [by right|].
  destruct (ceqb d SP) eqn:E.
  - apply ceqb_eq in E as ->. eapply post_mono; [apply (IH SP)|].
    intros _ r (s & -> & Hs & Hr). exists (SP :: s). auto.
  - exists []. cbn. auto.
Qed.

Lemma skip_ows_post buf : post (skip_ows buf) (λ _ r, ∃ s, buf = s ++ r ∧ ows s ∧ r ≠ [] ∧ ows_free_start r).
Proof.
  induction buf as [|c buf IH]; cbn [skip_ows]; [by right|]. destruct (is_ows c) eqn:E.
  - eapply post_mono; [apply IH|]. intros _ r (s & -> & Hs & Hr). exists (c :: s).
    split_and!; [done|by constructor|apply Hr..].
  - exists []. split_and!; [done|constructor|done|]. intros d [= <-]. done.
Qed.

(** ** Lines: the unrolled scan is the byte-wise scan *)

(** The routine without its unrolled loop. *)
Definition get_token_to_eol_simple (buf : bytes) : parsed bytes :=
  get _ at buf' from scan_simple buf in found_ctl buf buf'.

Lemma doit_simple n buf : (n ≤ length buf)%nat →
  match doit n buf with
  | Some (true, r) => scan_simple buf = scan_simple r ∧ (length r = length buf - n)%nat
  | Some (false, c :: r) => scan_simple buf = scan_simple (c :: r) ∧ IS_PRINTABLE_ASCII c = false ∧
      (length (c :: r) ≤ length buf)%nat
  | _ => False
  end.
Proof.
  revert buf. induction n as [|n IH]; intros [|c buf] Hn; cbn [doit length] in *; [by split|by split|lia|].
  destruct (IS_PRINTABLE_ASCII c) eqn:E; cbn [negb]; [|done].
  specialize (IH buf ltac:(lia)). assert (scan_simple (c :: buf) = scan_simple buf) as ->.
  { cbn [scan_simple]. by rewrite E. }
  destruct (doit n buf) as [[[] r]|]; [intuition lia| |done]. destruct r; [done|]. intuition lia.
Qed.

Lemma scan_unrolled_simple fuel buf : (length buf < fuel)%nat →
  match scan_unrolled fuel buf with
  | Some (true, r) => scan_simple buf = POk tt r
  | Some (false, r) => scan_simple buf = scan_simple r
  | None => False
  end.
Proof.
  revert buf. induction fuel as [|fuel IH]; intros buf Hf; [lia|]. cbn [scan_unrolled].
  destruct (8 <=? slen buf) eqn:E; [|done]. bool_prop. unfold slen in E.
  pose proof (doit_simple 8 buf ltac:(lia)) as Hd.
  destruct (doit 8 buf) as [[[] r]|]; [|destruct r as [|c r]; [done|]|done].
  - destruct Hd as [-> Hr]. apply IH. lia.
  - destruct Hd as (-> & Hp & Hr). cbn [length scan_simple] in *. rewrite Hp. cbn [negb].
    destruct (line_ctl c); [done|]. apply IH. lia.
Qed.

Lemma get_token_to_eol_eq buf : get_token_to_eol buf = get_token_to_eol_simple buf.
Proof.
  unfold get_token_to_eol, get_token_to_eol_simple.
  pose proof (scan_unrolled_simple (S (length buf)) buf ltac:(lia)) as H.
  destruct (scan_unrolled _ _) as [[[] r]|]; [by rewrite H..|done].
Qed.

Lemma scan_simple_post buf :
  post (scan_simple buf) (λ _ r, ∃ t c r', buf = t ++ r ∧ r = c :: r' ∧ line_text t ∧ line_ctl c = true).
Proof.
  induction buf as [|c buf IH]; cbn [scan_simple]; [by right|].
  destruct (line_ctl c) eqn:E.
  - rewrite (line_ctl_not_printable _ E). cbn. exists [], c, buf. split_and!; [done..|constructor|done].
  - assert (post (scan_simple buf) (λ _ r, ∃ t d r', c :: buf = t ++ r ∧ r = d :: r' ∧ line_text t ∧ line_ctl d = true)).
    { eapply post_mono; [apply IH|]. intros _ r (t & d & r' & -> & -> & Ht & Hd).
      exists (c :: t), d, r'. split_and!; [done..|by constructor|done]. }
    by destruct (IS_PRINTABLE_ASCII c).
Qed.

Lemma take_token (t r : bytes) n : n = length t → take n (t ++ r) = t.
Proof. intros ->. by rewrite take_app_length. Qed.

Lemma found_ctl_post t r : r ≠ [] →
  post (found_ctl (t ++ r) r) (λ t' r', ∃ e, t' = t ∧ r = e ++ r' ∧ eol e).
Proof.
  destruct r as [|c r]; [done|]. intros _. unfold found_ctl. cbn [deref].
  destruct (ceqb c CR) eqn:E1; [apply ceqb_eq in E1 as ->|].
  { eapply post_bind; [apply expect_char_post|]. intros _ r' ->. cbn.
    exists CRLF. split_and!; [|done|constructor]. apply take_token. rewrite length_app. cbn. lia. }
  destruct (ceqb c LF) eqn:E2; [apply ceqb_eq in E2 as ->|by left].
  cbn. exists [LF]. split_and!; [|done|constructor]. apply take_token. rewrite length_app. cbn. lia.
Qed.

Lemma get_token_to_eol_post buf :
  post (get_token_to_eol buf) (λ t r, ∃ e, buf = t ++ e ++ r ∧ eol e ∧ line_text t).
Proof.
  rewrite get_token_to_eol_eq. eapply post_bind; [apply scan_simple_post|].
  intros _ r (t & c & r' & -> & -> & Ht & Hc). eapply post_mono; [by apply found_ctl_post|].
  intros t' r'' (e & -> & -> & He). eauto.
Qed.

(** ** Headers *)

Lemma drop_ows_spec s : ∃ p, s = p ++ drop_ows s ∧ ows p ∧ ows_free_start (drop_ows s).
Proof.
  induction s as [|c s (p & Hs & Hp & Hd)]; cbn [drop_ows]; [by exists []; split_and!; [|constructor|]|].
  destruct (is_ows c) eqn:E.
  - exists (c :: p). split_and!; [by rewrite Hs at 1|by constructor|done].
  - exists []. split_and!; [done|constructor|]. by intros d [= <-].
Qed.

Lemma last_reverse_head (s : bytes) : last s = head (reverse s).
Proof. rewrite <- (reverse_involutive s) at 1. apply last_reverse. Qed.

Lemma trim_value_spec v : ∃ s, v = trim_value v ++ s ∧ ows s ∧ ows_free_end (trim_value v).
Proof.
  destruct (drop_ows_spec (reverse v)) as (p & Hv & Hp & Hd). exists (reverse p).
  unfold trim_value. split_and!.
  - rewrite <- reverse_app, <- Hv. by rewrite reverse_involutive.
  - unfold ows. by rewrite Forall_reverse.
  - intros c. rewrite last_reverse_head, reverse_involutive. apply Hd.
Qed.

Lemma drop_ows_app p s : ows p → ows_free_start s → drop_ows (p ++ s) = s.
Proof.
  induction 1 as [|c p Hc Hp IH]; intros Hs; cbn [drop_ows app].
  - destruct s as [|c s]; [done|]. cbn. by rewrite (Hs c).
  - rewrite Hc. auto.
Qed.

Lemma trim_value_app v s : ows s → ows_free_end v → trim_value (v ++ s) = v.
Proof.
  intros Hs Hv. unfold trim_value. rewrite reverse_app, drop_ows_app, reverse_involutive; [done| |].
  - unfold ows. by rewrite Forall_reverse.
  - intros c. rewrite <- last_reverse_head. apply Hv.
Qed.

Lemma parse_name_post buf : buf ≠ [] →
  post (parse_name buf) (λ n r, ∃ name pre, n = Some name ∧ buf = name ++ ":"%char :: pre ++ r ∧
    token name ∧ ows pre ∧ r ≠ [] ∧ ows_free_start r).
Proof.
  intros Hb. unfold parse_name, parse_token. destruct buf as [|b buf]; [done|]. cbn [CHECK_EOF].
  eapply post_bind; [by apply token_loop_post|]. intros name r (Heq & Hn & Hr).
  destruct (slen name =? 0) eqn:E; [by left|]. bool_prop.
  destruct r as [|c r]; [done|]. cbn in Hr. injection Hr as ->. cbn [deref].
  eapply post_bind; [apply skip_ows_post|]. intros _ r' (pre & -> & Hp & Hr' & Hs). cbn.
  exists name, pre. split_and!; try done. split; [|done]. by intros ->.
Qed.

Lemma eol_head_not_ows e r c : eol e → head (e ++ r) = Some c → is_ows c = false.
Proof. by intros [] [= <-]. Qed.

Lemma parse_header_post first buf : buf ≠ [] →
  post (parse_header first buf) (λ h r, ∃ w, buf = w ++ r ∧ header_line first h w).
Proof.
  intros Hb. destruct buf as [|c buf]; [done|]. unfold parse_header. cbn [deref].
  destruct (negb first && is_ows c) eqn:Ef; cbn [negb].
  - bool_prop. destruct first; [done|]. cbn [pbind].
    eapply post_bind; [apply get_token_to_eol_post|]. intros t r (e & Heq & He & Ht). cbn.
    destruct (trim_value_spec t) as (s & Hs & Hows & Hend).
    destruct t as [|d t].
    { cbn in Heq. assert (head (e ++ r) = Some c) as Hh by by rewrite <- Heq.
      by rewrite (eol_head_not_ows _ _ _ He Hh) in *. }
    cbn in Heq. injection Heq as <- ->. exists ((c :: t) ++ e). split; [by rewrite <- app_assoc|].
    rewrite Hs at 2. rewrite <- app_assoc. eapply folded_line; [done|by symmetry|done| |done..].
    rewrite Hs in Ht. by apply Forall_app in Ht as [? _].
  - eapply post_bind; [by apply parse_name_post|].
    intros n r (name & pre & -> & Heq & Hn & Hp & Hr & Hs). rewrite Heq.
    eapply post_bind; [apply get_token_to_eol_post|]. intros t r' (e & -> & He & Ht). cbn.
    destruct (trim_value_spec t) as (s & Hts & Hows & Hend).
    exists (name ++ ":"%char :: pre ++ trim_value t ++ s ++ e). split.
    { rewrite Hts at 1. by rewrite <- !app_assoc; cbn; rewrite <- !app_assoc. }
    constructor; try done.
    + rewrite Hts in Ht. by apply Forall_app in Ht as [? _].
    + intros d Hd. apply Hs. rewrite Hts. by destruct (trim_value t).
Qed.

Lemma parse_headers_post room first buf :
  post (parse_headers room first buf) (λ hs r, ∃ w, buf = w ++ r ∧ header_block first hs w ∧ (length hs ≤ room)%nat).
Proof.
  revert first buf. induction room as [|room IH]; intros first [|c buf]; [by right| |by right|];
    cbn [parse_headers CHECK_EOF deref];
    (destruct (ceqb c CR) eqn:E1; [apply ceqb_eq in E1 as ->|
      destruct (ceqb c LF) eqn:E2; [apply ceqb_eq in E2 as ->|]]);
    lazymatch goal with
    | |- post (pbind (EXPECT_CHAR _ _) _) _ =>
        eapply post_bind; [apply expect_char_post|]; intros _ r ->; exists CRLF;
        split_and!; [done|do 2 constructor|cbn; lia]
    | |- post (POk _ _) _ => exists [LF]; split_and!; [done|do 2 constructor|cbn; lia]
    | |- _ => idtac
    end; [by left|].
  eapply post_bind; [by apply parse_header_post|]. intros h r (w & -> & Hw).
  eapply post_bind; [apply IH|]. intros hs r' (ws & -> & Hws & Hl). cbn.
  exists (w ++ ws). split_and!; [by rewrite app_assoc|by constructor|lia].
Qed.

(** ** The request *)

Lemma skip_empty_line_post buf :
  post (skip_empty_line buf) (λ _ r, ∃ pre, buf = pre ++ r ∧ (pre = [] ∨ eol pre)).
Proof.
  destruct buf as [|c buf]; [by right|]. unfold skip_empty_line. cbn [CHECK_EOF deref].
  destruct (ceqb c CR) eqn:E1; [apply ceqb_eq in E1 as ->|].
  { eapply post_mono; [apply expect_char_post|]. intros _ r ->. exists CRLF. split; [done|]. right. constructor. }
  destruct (ceqb c LF) eqn:E2; [apply ceqb_eq in E2 as ->|].
  - exists [LF]. split; [done|]. right. constructor.
  - exists []. auto.
Qed.

Lemma expect_eol_post buf : buf ≠ [] → post (expect_eol buf) (λ _ r, ∃ e, buf = e ++ r ∧ eol e).
Proof.
  destruct buf as [|c buf]; [done|]. intros _. unfold expect_eol. cbn [deref].
  destruct (ceqb c CR) eqn:E1; [apply ceqb_eq in E1 as ->|].
  { eapply post_mono; [apply expect_char_post|]. intros _ r ->. exists CRLF. split; [done|constructor]. }
  destruct (ceqb c LF) eqn:E2; [apply ceqb_eq in E2 as ->|by left].
  exists [LF]. split; [done|constructor].
Qed.

Lemma expect_all_post s buf : (length s ≤ length buf)%nat → post (expect_all s buf) (λ _ r, buf = s ++ r).
Proof.
  revert buf. induction s as [|ch s IH]; intros buf Hl; [done|]. destruct buf as [|c buf]; [cbn in Hl; lia|].
  cbn [expect_all]. unfold EXPECT_CHAR_NO_CHECK. cbn [deref].
  destruct (ceqb c ch) eqn:E; [apply ceqb_eq in E as ->|by left]. cbn [pbind].
  eapply post_mono; [apply IH; cbn in Hl; lia|]. by intros _ r ->.
Qed.

Lemma parse_http_version_post buf :
  post (parse_http_version buf) (λ minor r, ∃ d, buf = "HTTP/1." ++ d :: r ∧ isdigit d = true ∧ minor = code d - 48 ∧ r ≠ []).
Proof.
  unfold parse_http_version. destruct (slen buf <? 9) eqn:E; [by right|]. bool_prop. unfold slen in E.
  eapply post_bind; [apply expect_all_post; cbn; lia|]. intros _ r ->.
  rewrite length_app in E. cbn in E. destruct r as [|d r]; [cbn in E; lia|]. unfold PARSE_INT. cbn [deref].
  destruct (isdigit d) eqn:Ed; [|by left]. exists d. split_and!; [done..|]. intros ->. cbn in E. lia.
Qed.

Lemma parse_request_post max_headers buf :
  post (parse_request max_headers buf)
    (λ req r, ∃ w, buf = w ++ r ∧ request_wire req w ∧ (length (phr_headers req) ≤ max_headers)%nat).
Proof.
  unfold parse_request. eapply post_bind; [apply skip_empty_line_post|]. intros _ r0 (pre & -> & Hpre).
  destruct r0 as [|b r0]; [by right|]. unfold parse_token. cbn [CHECK_EOF].
  eapply post_bind; [by apply token_loop_post|]. intros method r1 (Heq1 & Hm & Hr1). rewrite Heq1.
  destruct r1 as [|c r1]; [done|]. injection Hr1 as ->.
  eapply post_bind; [apply skip_spaces_post|]. intros _ r2 (s1 & -> & Hs1 & Hr2).
  destruct r2 as [|b2 r2]; [done|]. unfold ADVANCE_TOKEN. cbn [CHECK_EOF].
  eapply post_bind; [by apply advance_token_post|]. intros path r3 (Heq3 & Hp & Hr3). rewrite Heq3.
  destruct r3 as [|c3 r3]; [done|]. injection Hr3 as ->.
  eapply post_bind; [apply skip_spaces_post|]. intros _ r4 (s2 & -> & Hs2 & Hr4).
  destruct (_ || _) eqn:Ez; [by left|]. bool_prop.
  eapply post_bind; [apply parse_http_version_post|]. intros minor r5 (d & -> & Hd & -> & Hr5).
  eapply post_bind; [by apply expect_eol_post|]. intros _ r6 (e & -> & He).
  eapply post_bind; [apply parse_headers_post|]. intros hs r7 (w & -> & Hw & Hl).
  exists (pre ++ method ++ (SP :: s1) ++ path ++ (SP :: s2) ++ "HTTP/1." ++ d :: e ++ w).
  split_and!; [|constructor|done]; try done.
  - by repeat (rewrite <- !app_assoc; cbn [app]).
  - split; [by intros ->|done].
  - split; [done|by constructor].
  - split; [by intros ->|done].
  - split; [done|by constructor].
Qed.

(** ** Every head of the grammar is accepted *)

Lemma expect_char_eq ch r : EXPECT_CHAR ch (ch :: r) = POk tt r.
Proof. unfold EXPECT_CHAR, EXPECT_CHAR_NO_CHECK. cbn. by rewrite ceqb_refl. Qed.

Lemma token_loop_eq next t r : Forall (λ c, token_char c = true) t → token_char next = false →
  token_loop next (t ++ next :: r) = POk t (next :: r).
Proof.
  intros Ht Hn. induction Ht as [|c t Hc Ht IH]; cbn [token_loop app]; [by rewrite ceqb_refl|].
  rewrite (proj2 (ceqb_ne c next)) by (intros ->; congruence). rewrite Hc. cbn [negb].
  rewrite IH. by destruct t.
Qed.

Lemma advance_token_eq t r : Forall (λ c, c ≠ SP ∧ is_ctl c = false) t →
  advance_token (t ++ SP :: r) = POk t (SP :: r).
Proof.
  induction 1 as [|c t [Hc1 Hc2] Ht IH]; cbn [advance_token app]; [done|].
  rewrite (proj2 (ceqb_ne c SP)) by done. rewrite Hc2, andb_false_r, IH. by destruct t.
Qed.

Lemma skip_spaces_eq c s d r : Forall (λ c, c = SP) s → d ≠ SP → skip_spaces (c :: s ++ d :: r) = POk tt (d :: r).
Proof.
  intros Hs Hd. revert c. induction Hs as [|x s -> Hs IH]; intros c.
  - cbn. by rewrite (proj2 (ceqb_ne d SP)).
  - transitivity (skip_spaces (SP :: s ++ d :: r)); [done|apply IH].
Qed.

Lemma skip_ows_eq s d r : ows s → is_ows d = false → skip_ows (s ++ d :: r) = POk tt (d :: r).
Proof. intros Hs Hd. induction Hs as [|c s Hc Hs IH]; cbn [skip_ows app]; [by rewrite Hd|by rewrite Hc]. Qed.

Lemma scan_simple_eq t c r : line_text t → line_ctl c = true → scan_simple (t ++ c :: r) = POk tt (c :: r).
Proof.
  intros Ht Hc. induction Ht as [|d t Hd Ht IH]; cbn [scan_simple app].
  - by rewrite (line_ctl_not_printable _ Hc), Hc.
  - rewrite Hd, IH. by destruct (IS_PRINTABLE_ASCII d).
Qed.

Lemma get_token_to_eol_complete t e r : line_text t → eol e → get_token_to_eol (t ++ e ++ r) = POk t r.
Proof.
  intros Ht He. rewrite get_token_to_eol_eq. unfold get_token_to_eol_simple, found_ctl.
  destruct He; cbn [app].
  - change (CRLF ++ r) with (CR :: LF :: r). rewrite scan_simple_eq by done. cbn [pbind deref].
    change (ceqb CR CR) with true. cbn iota. rewrite expect_char_eq. cbn [pbind]. f_equal.
    apply take_token. rewrite length_app. cbn. lia.
  - rewrite scan_simple_eq by done. cbn [pbind deref].
    change (ceqb LF CR) with false. change (ceqb LF LF) with true. cbn iota. f_equal.
    apply take_token. rewrite length_app. cbn. lia.
Qed.

Lemma eol_cons e : eol e → ∃ c r, e = c :: r ∧ is_ows c = false ∧ (c = CR ∧ r = [LF] ∨ c = LF ∧ r = []).
Proof. intros []; eexists _, _; (split; [done|]); (split; [done|]); auto. Qed.

Lemma parse_name_complete name pre d r : token name → ows pre → is_ows d = false →
  parse_name (name ++ ":"%char :: pre ++ d :: r) = POk (Some name) (d :: r).
Proof.
  intros [Hn Ht] Hp Hd. unfold parse_name, parse_token.
  destruct name as [|c name]; [done|]. cbn [CHECK_EOF app].
  change (c :: name ++ ?x) with ((c :: name) ++ x). rewrite token_loop_eq by done. cbn [pbind].
  replace (slen (c :: name) =? 0) with false by (symmetry; apply Z.eqb_neq; unfold slen; cbn; lia).
  cbn [deref]. by rewrite skip_ows_eq.
Qed.

Lemma ows_text s : ows s → line_text s.
Proof. intros H. eapply Forall_impl; [exact H|]. intros c. apply ows_line_text. Qed.

Lemma line_text_app v s : line_text v → ows s → line_text (v ++ s).
Proof. intros Hv Hs. apply Forall_app. split; [done|by apply ows_text]. Qed.

Lemma parse_header_complete first h w r : header_line first h w → parse_header first (w ++ r) = POk h r.
Proof.
  intros [name pre v post e Hn Hpre Hpost Hv Hs Hend He|c v raw post e -> Hraw Hc Ht Hend Hpost He];
    unfold parse_header.
  - destruct Hn as [Hn Ht]. pose proof Hn as Hn'. destruct name as [|c name]; [done|].
    pose proof (Forall_inv Ht) as Hc. apply token_char_class in Hc as (_ & _ & _ & _ & Hc & _).
    cbn [app deref]. rewrite Hc, andb_false_r. cbn [negb].
    assert (∃ pre' v' d r', ows pre' ∧ is_ows d = false ∧ line_text v' ∧ trim_value v' = v ∧ v' ++ e ++ r = d :: r' ∧
      (pre ++ v ++ post ++ e) ++ r = pre' ++ v' ++ e ++ r) as (pre' & v' & d & r' & Hp' & Hd & Hv' & Htr & Heq & Hsplit).
    { destruct v as [|d v].
      - destruct (eol_cons e He) as (d & r' & Hd & Hnd & _). exists (pre ++ post), [], d, (r' ++ r).
        split_and!; [by apply Forall_app|done|constructor|done|by rewrite Hd|by rewrite <- !app_assoc].
      - exists pre, ((d :: v) ++ post), d, (v ++ post ++ e ++ r).
        split_and!; [done|by apply Hs|by apply line_text_app|by apply trim_value_app|
          by cbn; rewrite <- !app_assoc|by rewrite <- !app_assoc]. }
    rewrite <- app_assoc. cbn [app]. rewrite Hsplit, Heq.
    change (c :: name ++ ?x) with ((c :: name) ++ x). rewrite parse_name_complete by done. cbn [pbind].
    rewrite <- Heq, get_token_to_eol_complete by done. cbn. by rewrite Htr.
  - rewrite app_assoc, Hraw. cbn [app deref]. rewrite Hc. cbn [negb andb pbind].
    change (c :: (v ++ e) ++ r) with (((c :: v) ++ e) ++ r). rewrite <- Hraw, <- app_assoc.
    rewrite get_token_to_eol_complete; [|by apply line_text_app|done].
    cbn. by rewrite trim_value_app.
Qed.

Lemma header_line_head first h w : header_line first h w →
  ∃ c t, w = c :: t ∧ ceqb c CR = false ∧ ceqb c LF = false.
Proof.
  intros [name pre v post e [Hn Ht] _ _ _ _ _ _|c v raw post e -> Hraw Hc _ _ _ _].
  - destruct name as [|c name]; [done|]. exists c. eexists. split; [done|].
    apply Forall_inv, token_char_class in Ht as (_ & ? & ? & _). by rewrite !(proj2 (ceqb_ne _ _)).
  - exists c, (v ++ e). split; [by rewrite app_assoc, Hraw|]. revert Hc. by all_bytes c.
Qed.

Lemma parse_headers_complete first hs w : header_block first hs w → ∀ room r, (length hs ≤ room)%nat →
  parse_headers room first (w ++ r) = POk hs r.
Proof.
  induction 1 as [first e He|first h w hs ws Hw Hb IH]; intros room r Hr.
  - destruct He, room; cbn; done.
  - destruct room as [|room]; [cbn in Hr; lia|]. rewrite <- app_assoc.
    pose proof (header_line_head _ _ _ Hw) as (c & t & Heq & E1 & E2).
    pose proof (parse_header_complete _ _ _ (ws ++ r) Hw) as Hp. rewrite Heq in *.
    cbn [app] in *. cbn [parse_headers CHECK_EOF deref]. rewrite E1, E2, Hp. cbn [pbind].
    rewrite IH by (cbn in Hr; lia). done.
Qed.

Lemma skip_empty_line_complete pre c r : (pre = [] ∨ eol pre) → token_char c = true →
  skip_empty_line (pre ++ c :: r) = POk tt (c :: r).
Proof.
  intros Hp Hc. apply token_char_class in Hc as (_ & H1 & H2 & _). unfold skip_empty_line.
  destruct Hp as [->|[]]; [|done..]. cbn. by rewrite !(proj2 (ceqb_ne _ _)).
Qed.

Lemma expect_all_eq s r : expect_all s (s ++ r) = POk tt r.
Proof.
  induction s as [|c s IH]; [done|]. cbn [expect_all app]. unfold EXPECT_CHAR_NO_CHECK. cbn [deref].
  by rewrite ceqb_refl.
Qed.

Lemma parse_http_version_complete d e r : isdigit d = true → eol e →
  parse_http_version ("HTTP/1." ++ d :: e ++ r) = POk (code d - 48) (e ++ r).
Proof.
  intros Hd He. unfold parse_http_version.
  replace (slen _ <? 9) with false; [rewrite expect_all_eq|symmetry; apply Z.ltb_ge; destruct He; unfold slen; rewrite length_app; cbn; lia].
  cbn [pbind]. unfold PARSE_INT. cbn [deref]. by rewrite Hd.
Qed.

Lemma expect_eol_complete e r : eol e → expect_eol (e ++ r) = POk tt r.
Proof. by intros []. Qed.

Lemma slen_pos_eqb s : s ≠ [] → (slen s =? 0) = false.
Proof. intros H. apply Z.eqb_neq. by rewrite slen_0. Qed.

(** Skipping the spaces between two words of the request line. *)
Lemma skip_spaces_word s d r : spaces s → d ≠ SP → skip_spaces (s ++ d :: r) = POk tt (d :: r).
Proof. intros [Hne Hs] Hd. destruct Hs as [|c s _ Hs]; [done|]. cbn [app]. by apply skip_spaces_eq. Qed.

Lemma spaces_head s r : spaces s → ∃ s', s ++ r = SP :: s' ++ r ∧ s = SP :: s'.
Proof. intros [Hne Hs]. destruct Hs as [|c s -> Hs]; [done|]. eauto. Qed.

Lemma parse_request_complete max_headers req w r :
  request_wire req w → (length (phr_headers req) ≤ max_headers)%nat → parse_request max_headers (w ++ r) = POk req r.
Proof.
  intros [pre method s1 path s2 d e hs block Hpre [Hm Hmt] Hs1 [Hp Hpt] Hs2 Hd He Hb] Hl. cbn in Hl.
  unfold parse_request. repeat (rewrite <- !app_assoc; cbn [app]).
  destruct method as [|m0 method]; [done|]. destruct path as [|p0 path]; [done|].
  rewrite <- !(app_comm_cons _ _ m0), skip_empty_line_complete by (try done; by apply Forall_inv in Hmt).
  cbn [pbind]. unfold parse_token. cbn [CHECK_EOF]. rewrite !(app_comm_cons _ _ m0).
  destruct (spaces_head s1 ((p0 :: path) ++ s2 ++ "HTTP/1." ++ d :: e ++ block ++ r) Hs1) as (s1' & Heq1 & Hs1').
  cbn [app] in *. rewrite Heq1, app_comm_cons, token_loop_eq by done. cbn [pbind].
  rewrite <- Heq1, (skip_spaces_word s1) by (try done; by apply Forall_inv in Hpt as [? _]). cbn [pbind].
  unfold ADVANCE_TOKEN. cbn [CHECK_EOF]. rewrite (app_comm_cons _ _ p0).
  destruct (spaces_head s2 ("HTTP/1." ++ d :: e ++ block ++ r) Hs2) as (s2' & Heq2 & Hs2').
  rewrite Heq2, advance_token_eq by done. cbn [pbind]. rewrite <- Heq2.
  change ("HTTP/1." ++ ?x) with ("H"%char :: ("TTP/1." ++ x)). rewrite skip_spaces_word by done. cbn [pbind].
  rewrite !slen_pos_eqb by done. cbn [orb].
  change ("H"%char :: ("TTP/1." ++ ?x)) with ("HTTP/1." ++ x).
  rewrite parse_http_version_complete by done. cbn [pbind]. rewrite expect_eol_complete by done. cbn [pbind].
  by rewrite (parse_headers_complete _ _ _ Hb).
Qed.

(** ** Bytes that arrive later *)

(** [m'] is the result of the same function on a buffer with [ext] appended. *)
Definition extends {A} (ext : bytes) (m m' : parsed A) : Prop :=
  match m with POk a r => m' = POk a (r ++ ext) | PFail z => z = -2 ∨ m' = PFail z | POob => True end.

Lemma extends_bind {A B} ext (m m' : parsed A) (k k' : A → bytes → parsed B) :
  extends ext m m' → (∀ a r, extends ext (k a r) (k' a (r ++ ext))) → extends ext (pbind m k) (pbind m' k').
Proof.
  destruct m as [a r|z|]; cbn; intros Hm Hk; [by rewrite Hm|destruct Hm as [?|Hm]; [by left|right; by rewrite Hm]|done].
Qed.

Lemma extends_refl_fail {A} ext z : @extends A ext (PFail z) (PFail z).
Proof. by right. Qed.

Lemma extends_ok {A} ext (a : A) r : extends ext (POk a r) (POk a (r ++ ext)).
Proof. done. Qed.

#[local] Hint Resolve extends_refl_fail extends_ok : gw.

Lemma expect_char_extends ext ch buf : extends ext (EXPECT_CHAR ch buf) (EXPECT_CHAR ch (buf ++ ext)).
Proof. destruct buf as [|c buf]; [by left|]. cbn. destruct (ceqb c ch); cbn; auto. Qed.

Lemma expect_char_no_check_extends ext ch buf :
  extends ext (EXPECT_CHAR_NO_CHECK ch buf) (EXPECT_CHAR_NO_CHECK ch (buf ++ ext)).
Proof. destruct buf as [|c buf]; [done|]. cbn. destruct (ceqb c ch); cbn; auto. Qed.

Lemma token_loop_extends ext next buf : extends ext (token_loop next buf) (token_loop next (buf ++ ext)).
Proof.
  induction buf as [|c buf IH]; [done|]. cbn [token_loop app].
  destruct (ceqb c next); [done|]. destruct (token_char c); cbn [negb]; [|by right].
  destruct buf as [|d buf]; [by left|]. cbn [app]. eapply extends_bind; [apply IH|done].
Qed.

Lemma parse_token_extends ext next buf : extends ext (parse_token buf next) (parse_token (buf ++ ext) next).
Proof. unfold parse_token. destruct buf; [by left|]. cbn [CHECK_EOF app]. apply (token_loop_extends ext next (_ :: _)). Qed.

Lemma advance_token_extends ext buf : extends ext (ADVANCE_TOKEN buf) (ADVANCE_TOKEN (buf ++ ext)).
Proof.
  unfold ADVANCE_TOKEN. destruct buf as [|b buf]; [by left|]. cbn [CHECK_EOF app].
  change (b :: buf ++ ext) with ((b :: buf) ++ ext). generalize (b :: buf) as s.
  induction s as [|c s IH]; [done|]. cbn [advance_token app].
  destruct (ceqb c SP); [done|]. destruct (_ && _); [by right|].
  destruct s as [|d s]; [by left|]. cbn [app]. eapply extends_bind; [apply IH|done].
Qed.

Lemma skip_spaces_extends ext buf : extends ext (skip_spaces buf) (skip_spaces (buf ++ ext)).
Proof.
  induction buf as [|c [|d buf] IH]; [done|by left|]. cbn [skip_spaces app] in *.
  destruct (ceqb d SP); [apply IH|done].
Qed.

Lemma skip_ows_extends ext buf : extends ext (skip_ows buf) (skip_ows (buf ++ ext)).
Proof. induction buf as [|c buf IH]; [by left|]. cbn [skip_ows app]. by destruct (is_ows c). Qed.

Lemma scan_simple_extends ext buf : extends ext (scan_simple buf) (scan_simple (buf ++ ext)).
Proof.
  induction buf as [|c buf IH]; [by left|]. cbn [scan_simple app].
  destruct (negb _); [|done]. by destruct (line_ctl c).
Qed.

Lemma found_ctl_extends ext start r :
  extends ext (found_ctl start r) (found_ctl (start ++ ext) (r ++ ext)) ∨ (length start < length r)%nat.
Proof.
  destruct (decide (length start < length r)%nat) as [|Hl]; [by right|left]. unfold found_ctl.
  destruct r as [|c r]; [done|]. cbn [deref app length] in *.
  assert (∀ n b, (length (start ++ ext) - length (b ++ ext) - n)%nat = (length start - length b - n)%nat) as Hsub.
  { intros n b. rewrite !length_app. lia. }
  assert (∀ n, take (length start - n) (start ++ ext) = take (length start - n) start) as Htake.
  { intros n. apply take_app_le. lia. }
  destruct (ceqb c CR).
  - eapply extends_bind; [apply expect_char_extends|]. intros _ b. cbn. rewrite Hsub.
    by rewrite <- Nat.sub_add_distr, Htake.
  - destruct (ceqb c LF); [|by right]. cbn. f_equal.
    pose proof (Hsub 0%nat (c :: r)) as Hs. cbn [app length] in Hs. rewrite !Nat.sub_0_r in Hs. by rewrite Hs, Htake.
Qed.

Lemma get_token_to_eol_extends ext buf : extends ext (get_token_to_eol buf) (get_token_to_eol (buf ++ ext)).
Proof.
  rewrite !get_token_to_eol_eq. unfold get_token_to_eol_simple.
  pose proof (scan_simple_extends ext buf) as He. pose proof (scan_simple_post buf) as Hp.
  destruct (scan_simple buf) as [[] r|z|]; cbn in *.
  - rewrite He. cbn. destruct Hp as (t & c & r' & -> & -> & _).
    destruct (found_ctl_extends ext (t ++ c :: r') (c :: r')) as [|Hl]; [done|]. rewrite length_app in Hl. lia.
  - destruct He as [?|He]; [by left|right; by rewrite He].
  - done.
Qed.

Lemma parse_header_extends ext first buf : extends ext (parse_header first buf) (parse_header first (buf ++ ext)).
Proof.
  unfold parse_header. eapply extends_bind.
  - destruct buf as [|c buf]; [done|]. cbn [deref app]. destruct (negb _); [|done].
    unfold parse_name. change (c :: buf ++ ext) with ((c :: buf) ++ ext).
    eapply extends_bind; [apply parse_token_extends|]. intros name r. destruct (slen name =? 0); [by right|].
    destruct r as [|d r]; [done|]. cbn [deref app]. eapply extends_bind; [apply skip_ows_extends|done].
  - intros name r. eapply extends_bind; [apply get_token_to_eol_extends|done].
Qed.

Lemma parse_headers_extends ext room first buf :
  extends ext (parse_headers room first buf) (parse_headers room first (buf ++ ext)).
Proof.
  revert first buf. induction room as [|room IH]; intros first [|c buf]; [by left| |by left|];
    cbn [parse_headers CHECK_EOF deref app];
    (destruct (ceqb c CR); [eapply extends_bind; [apply expect_char_extends|done]|]);
    (destruct (ceqb c LF); [done|]); [by right|].
  change (c :: buf ++ ext) with ((c :: buf) ++ ext).
  eapply extends_bind; [apply parse_header_extends|]. intros h r.
  eapply extends_bind; [apply IH|done].
Qed.

Lemma expect_all_extends ext s buf : extends ext (expect_all s buf) (expect_all s (buf ++ ext)).
Proof.
  revert buf. induction s as [|c s IH]; intros buf; [done|]. cbn [expect_all].
  eapply extends_bind; [apply expect_char_no_check_extends|]. intros _ r. apply IH.
Qed.

Lemma parse_http_version_extends ext buf : extends ext (parse_http_version buf) (parse_http_version (buf ++ ext)).
Proof.
  unfold parse_http_version. destruct (slen buf <? 9) eqn:E; [by left|]. bool_prop.
  replace (slen (buf ++ ext) <? 9) with false.
  - eapply extends_bind; [apply expect_all_extends|]. intros _ [|c r]; [done|]. unfold PARSE_INT. cbn.
    destruct (isdigit c); cbn; auto.
  - symmetry. apply Z.ltb_ge. rewrite slen_app. pose proof (slen_nonneg ext). lia.
Qed.

Lemma eol_extends ext buf : extends ext (expect_eol buf) (expect_eol (buf ++ ext)).
Proof.
  destruct buf as [|c buf]; [done|]. unfold expect_eol. cbn [deref app].
  destruct (ceqb c CR); [apply expect_char_extends|]. destruct (ceqb c LF); [done|by right].
Qed.

Lemma skip_empty_line_extends ext buf : extends ext (skip_empty_line buf) (skip_empty_line (buf ++ ext)).
Proof.
  destruct buf as [|c buf]; [by left|]. unfold skip_empty_line. cbn [CHECK_EOF deref app].
  destruct (ceqb c CR); [apply expect_char_extends|]. by destruct (ceqb c LF).
Qed.

Lemma parse_request_extends ext max_headers buf :
  extends ext (parse_request max_headers buf) (parse_request max_headers (buf ++ ext)).
Proof.
  unfold parse_request.
  repeat (eapply extends_bind;
    [auto using skip_empty_line_extends, parse_token_extends, skip_spaces_extends, advance_token_extends|];
    intros ? ?).
  destruct (_ || _); [by right|].
  repeat (eapply extends_bind; [auto using parse_http_version_extends, eol_extends, parse_headers_extends|]; intros ? ?).
  done.
Qed.

(** ** What the parser promises *)

Lemma complete_loop_no_oob n buf : complete_loop n buf ≠ POob.
Proof.
  revert n. induction buf as [buf IH] using list_length_ind. intros n.
  destruct buf as [|c buf]; [done|]. cbn [complete_loop]. destruct (ceqb c CR).
  - destruct buf; [done|]. repeat case_if; try done. apply IH. cbn. lia.
  - repeat case_if; try done; apply IH; cbn; lia.
Qed.

(** No call reads outside the buffer, also when it resumes an earlier one. *)
Lemma phr_parse_request_in_bounds buf max_headers last_len :
  0 ≤ last_len ≤ slen buf → phr_parse_request buf max_headers last_len ≠ None.
Proof.
  intros Hl. unfold phr_parse_request, is_complete.
  replace (slen buf <? last_len - 3) with false by (symmetry; apply Z.ltb_ge; lia).
  pose proof (parse_request_post max_headers buf) as Hp.
  repeat case_if;
    try match goal with |- context [complete_loop ?n ?b] =>
      pose proof (complete_loop_no_oob n b); destruct (complete_loop n b) end;
    by destruct (parse_request max_headers buf).
Qed.

(** C7: [phr_parse_request], as the session calls it, never reads outside the
    buffer and accepts exactly the buffers that start with a request head of the
    grammar with at most [max_headers] fields: it returns the fields of that head
    and its length, and otherwise -1 or -2. *)
Theorem phr_parse_request_exact buf max_headers :
  (∃ ret req, phr_parse_request buf max_headers 0 = Some (ret, req) ∧ (req = None → ret = -1 ∨ ret = -2)) ∧
  ∀ req ret, phr_parse_request buf max_headers 0 = Some (ret, Some req) ↔
    ∃ w rest, buf = w ++ rest ∧ ret = slen w ∧ request_wire req w ∧ (length (phr_headers req) ≤ max_headers)%nat.
Proof.
  unfold phr_parse_request. change (negb (0 =? 0)) with false. cbn iota. split.
  - pose proof (parse_request_post max_headers buf) as Hp.
    destruct (parse_request max_headers buf); [eexists _, (Some _); by split|by exists ret, None|done].
  - intros req ret. split.
    + pose proof (parse_request_post max_headers buf) as Hp.
      destruct (parse_request max_headers buf) as [q r|z|]; [|done..]. intros [= <- ->].
      destruct Hp as (w & -> & Hw & Hl). exists w, r. split_and!; [done|rewrite slen_app; lia|done..].
    + intros (w & rest & -> & -> & Hw & Hl). rewrite (parse_request_complete _ _ _ _ Hw Hl).
      rewrite slen_app. do 2 f_equal. lia.
Qed.

(** A verdict other than "incomplete" does not depend on how much of the
    stream behind it has arrived: with more bytes appended the parser returns the
    same result. *)
Lemma phr_parse_request_stable buf ext max_headers ret req :
  phr_parse_request buf max_headers 0 = Some (ret, req) → ret ≠ -2 →
  phr_parse_request (buf ++ ext) max_headers 0 = Some (ret, req).
Proof.
  unfold phr_parse_request. change (negb (0 =? 0)) with false. cbn iota.
  pose proof (parse_request_extends ext max_headers buf) as He.
  destruct (parse_request max_headers buf) as [q r|z|]; [| |done]; intros [= <- <-] Hr; cbn in He.
  - rewrite He, !slen_app. do 2 f_equal. lia.
  - destruct He as [->|He]; [done|by rewrite He].
Qed.

Lemma phr_parse_request_stable_witness :
  phr_parse_request (("GET / HTTP/1.0" ++ [LF; LF]) ++ "tail") 4 0 =
  Some (16, Some (mkPhrRequest "GET" "/" 0 [])).
Proof. apply (phr_parse_request_stable ("GET / HTTP/1.0" ++ [LF; LF]) "tail"); [by vm_compute|done]. Defined.

(** The line scan with its loop unrolled eight times is, on every buffer, the
    byte-by-byte scan: same token, same end, same error, and no read past the end. *)
Lemma line_scan_equivalent buf :
  get_token_to_eol buf = get_token_to_eol_simple buf ∧ get_token_to_eol buf ≠ POob.
Proof.
  split; [apply get_token_to_eol_eq|]. pose proof (get_token_to_eol_post buf). by destruct (get_token_to_eol buf).
Qed.
