(* ===== verification/PathNormalize.v ===== *)
(** * Request path normalization (src/src/security/path_normalize.hpp)

    Percent-decoding, dot-segment resolution, slash collapsing and the optional
    lower-casing that every access rule relies on.  The theorems characterise
    the accepted encodings, the shape of a normalized path (no dot segment, no
    empty segment, no byte an upstream could read as a separator) and show that
    normalizing again changes nothing. *)

From S2P Require Import Prelude.

Record NormalizedPath := mkPath { np_path : bytes; np_valid : bool; np_error : bytes }.

Definition is_hex_char (c : ascii) : bool := isxdigit c.

Definition hex_value (c : ascii) : Z :=
  if in_range 48 57 (code c) then code c - 48 else code (tolower c) - 97 + 10.

Arguments hex_value : simpl never.
Arguments is_hex_char : simpl never.

(** [static_cast<char>((hex_value(a) << 4) | hex_value(b))] *)
Definition decode_pair (a b : ascii) : ascii :=
  chr (Z.lor (Z.shiftl (hex_value a) 4) (hex_value b)).

Arguments decode_pair : simpl never.

(** The decoding loop: the error message, or the decoded bytes. *)
Fixpoint percent_decode_loop (s result : bytes) : bytes + bytes :=
  match s with
  | [] => inr result
  | c :: t =>
      match ceqb c "%", t with
      | true, a :: b :: t' =>
          if negb (is_hex_char a) || negb (is_hex_char b) then inl ("invalid percent encoding" : bytes)
          else
            let decoded := decode_pair a b in
            if ceqb decoded NUL || ceqb decoded "/" || ceqb decoded BACKSLASH
            then inl ("unsafe encoded path separator or nul" : bytes)
            else percent_decode_loop t' (result ++ [decoded])
      | _, _ =>
          if ceqb c NUL || ceqb c BACKSLASH then inl ("unsafe path character" : bytes)
          else percent_decode_loop t (result ++ [c])
      end
  end.

Definition percent_decode (s : bytes) : NormalizedPath :=
  match percent_decode_loop s [] with
  | inl e => mkPath [] false e
  | inr result =>
      if contains_char "%" result then mkPath [] false "residual percent encoding"
      else mkPath result true []
  end.

(** One segment of the decoded path. *)
Definition segment_step (segments : list bytes) (seg : bytes) : list bytes :=
  match seg with
  | [] => segments
  | _ =>
      if beqb seg "." then segments
      else if beqb seg ".." then take (length segments - 1) segments
      else segments ++ [seg]
  end.

Definition path_segments (decoded : bytes) : list bytes :=
  foldl segment_step [] (split_on "/" decoded).

Definition fold_case (case_sensitive : bool) (seg : bytes) : bytes :=
  if case_sensitive then seg else tolower <$> seg.

Definition reassemble (case_sensitive : bool) (segments : list bytes) : bytes :=
  "/" ++ join_with "/" (fold_case case_sensitive <$> segments).

Definition strip_query (path_only : bytes) : bytes :=
  match find_char "?" path_only with
  | Some qpos => take qpos path_only
  | None => path_only
  end.

Definition normalize_path (path_only : bytes) (case_sensitive : bool) : NormalizedPath :=
  let decoded_result := percent_decode (strip_query path_only) in
  if negb (np_valid decoded_result) then decoded_result
  else
    let decoded := np_path decoded_result in
    match decoded with
    | [] => mkPath "/" true []
    | _ => mkPath (reassemble case_sensitive (path_segments decoded)) true []
    end.

(** ** Accepted encodings

    [decodes s r]: [s] is a sequence of plain bytes and of escapes of plain
    bytes, and [r] is what they stand for. *)
Definition plain (c : ascii) : Prop := c ≠ "%"%char ∧ c ≠ NUL ∧ c ≠ BACKSLASH.

Inductive decodes : bytes → bytes → Prop :=
| decodes_nil : decodes [] []
| decodes_plain c s r : plain c → decodes s r → decodes (c :: s) (c :: r)
| decodes_escape a b s r :
    is_hex_char a = true → is_hex_char b = true →
    plain (decode_pair a b) → decode_pair a b ≠ "/"%char →
    decodes s r → decodes ("%"%char :: a :: b :: s) (decode_pair a b :: r).

Lemma percent_decode_loop_sound s acc r :
  percent_decode_loop s acc = inr r → "%"%char ∉ r →
  "%"%char ∉ acc ∧ ∃ t, r = acc ++ t ∧ decodes s t.
Proof.
  revert acc. induction s as [s IH] using list_length_ind. intros acc H Hr.
  destruct s as [|c s]; simpl in H.
  { simplify_eq. split; [done|]. exists []. rewrite app_nil_r. split; [done|constructor]. }
  assert (∀ t', (length t' < length (c :: s))%nat → ∀ d,
    percent_decode_loop t' (acc ++ [d]) = inr r →
    "%"%char ∉ acc ∧ d ≠ "%"%char ∧ ∃ t, r = acc ++ d :: t ∧ decodes t' t) as Hstep.
  { intros t' Hl d Hd. destruct (IH t' Hl _ Hd Hr) as (Hn & t & -> & Ht).
    rewrite not_elem_of_app, not_elem_of_cons in Hn. destruct Hn as (? & ? & _).
    split_and!; [done|done|]. exists t. by rewrite <- app_assoc. }
  destruct (ceqb c "%") eqn:Hc.
  - apply ceqb_eq in Hc as ->. destruct s as [|a [|b s]].
    1,2: exfalso; change (ceqb "%" NUL || ceqb "%" BACKSLASH) with false in H;
      cbv match in H; apply Hstep in H as (_ & ? & _); [done|simpl; lia].
    destruct (is_hex_char a) eqn:Ha, (is_hex_char b) eqn:Hb; simpl in H; try done.
    destruct (ceqb (decode_pair a b) NUL || _ || _) eqn:Hd; [done|]. bool_prop.
    rewrite !ceqb_ne in *. apply Hstep in H as (? & ? & t & -> & Ht); [|simpl; lia].
    split; [done|]. exists (decode_pair a b :: t). split; [done|]. by constructor.
  - destruct (ceqb c NUL || ceqb c BACKSLASH) eqn:Hd; [done|]. bool_prop. rewrite !ceqb_ne in *.
    apply Hstep in H as (? & ? & t & -> & Ht); [|simpl; lia].
    split; [done|]. exists (c :: t). split; [done|]. by constructor.
Qed.

Lemma percent_decode_loop_complete s t acc :
  decodes s t → percent_decode_loop s acc = inr (acc ++ t).
Proof.
  intros H. revert acc. induction H as [|c s r (Hp & Hn & Hb) _ IH|a b s r Ha Hb (Hp & Hn & Hbs) Hs _ IH];
    intros acc; simpl.
  - by rewrite app_nil_r.
  - rewrite (proj2 (ceqb_ne c "%")), (proj2 (ceqb_ne c NUL)), (proj2 (ceqb_ne c BACKSLASH)) by done.
    simpl. rewrite IH, <- app_assoc. done.
  - rewrite Ha, Hb, (proj2 (ceqb_ne _ NUL)), (proj2 (ceqb_ne _ "/")), (proj2 (ceqb_ne _ BACKSLASH)) by done.
    simpl. rewrite IH, <- app_assoc. done.
Qed.

Lemma decodes_plain_bytes s r : decodes s r → Forall plain r.
Proof. induction 1; by constructor. Qed.

Lemma Forall_plain_no_percent r : Forall plain r → "%"%char ∉ r.
Proof. intros H Hin. rewrite Forall_forall in H. by destruct (H _ Hin). Qed.

Lemma percent_decode_valid s :
  np_valid (percent_decode s) = true ↔ decodes s (np_path (percent_decode s)).
Proof.
  unfold percent_decode. split.
  - destruct (percent_decode_loop s []) as [e|r] eqn:E; [done|].
    destruct (contains_char "%" r) eqn:Hc; [done|]. intros _. apply contains_char_false in Hc.
    by apply percent_decode_loop_sound in E as (_ & t & -> & Ht).
  - intros H. destruct (percent_decode_loop s []) as [e|r] eqn:E.
    + by rewrite (percent_decode_loop_complete _ _ [] H) in E.
    + rewrite (proj2 (contains_char_false "%" r)); [done|].
      destruct (contains_char "%" r) eqn:Hc.
      * simpl in H. rewrite (percent_decode_loop_complete _ _ [] H) in E. by simplify_eq/=.
      * by apply contains_char_false in Hc.
Qed.

Lemma percent_decode_complete s r : decodes s r → percent_decode s = mkPath r true [].
Proof.
  intros H. unfold percent_decode. rewrite (percent_decode_loop_complete s r [] H). cbn [app].
  rewrite (proj2 (contains_char_false "%" r)); [done|].
  by eapply Forall_plain_no_percent, decodes_plain_bytes.
Qed.

(** Percent-decoding accepts exactly the strings made of plain bytes and of
    two-digit escapes of plain bytes other than the slash, and returns what
    they stand for; NUL, backslash, encoded separators, malformed and double
    encodings are all rejected. *)
Lemma percent_decode_correct s r :
  percent_decode s = mkPath r true [] ↔ decodes s r.
Proof.
  split.
  - intros H. pose proof (proj1 (percent_decode_valid s)) as Hv. rewrite H in Hv. by apply Hv.
  - apply percent_decode_complete.
Qed.

(** ** Segments *)

(** A segment the rules can be matched against. *)
Definition good_segment (seg : bytes) : Prop :=
  seg ≠ [] ∧ seg ≠ ("." : bytes) ∧ seg ≠ (".." : bytes) ∧ "/"%char ∉ seg ∧ Forall plain seg.

Lemma segment_step_good segs seg :
  Forall good_segment segs → "/"%char ∉ seg → Forall plain seg →
  Forall good_segment (segment_step segs seg).
Proof.
  intros Hs Hn Hp. unfold segment_step. destruct seg as [|c seg]; [done|].
  destruct (beqb (c :: seg) ".") eqn:E1; [done|]. destruct (beqb (c :: seg) "..") eqn:E2.
  - by apply Forall_take.
  - apply beqb_ne in E1, E2. apply Forall_app. split; [done|]. apply Forall_singleton. by split_and!.
Qed.

Lemma split_on_plain sep s : Forall plain s → Forall (Forall plain) (split_on sep s).
Proof.
  induction 1 as [|c s Hc Hs IH]; simpl; [by constructor|].
  case_if; [by constructor|]. destruct (split_on sep s); [constructor; [by constructor|done]|].
  inversion IH; subst. constructor; [by constructor|done].
Qed.

Lemma path_segments_good decoded :
  Forall plain decoded → Forall good_segment (path_segments decoded).
Proof.
  intros Hp. unfold path_segments.
  pose proof (split_on_pieces "/" decoded) as H1. pose proof (split_on_plain "/" decoded Hp) as H2.
  assert (∀ ps acc, Forall (λ p, "/"%char ∉ p) ps → Forall (Forall plain) ps →
    Forall good_segment acc → Forall good_segment (foldl segment_step acc ps)) as Hfold.
  { induction ps as [|p ps IH]; intros acc P1 P2 Ha; [done|].
    inversion P1; inversion P2; subst. simpl. apply IH; [done|done|].
    by apply segment_step_good. }
  by apply Hfold.
Qed.

Lemma tolower_plain c : plain c → plain (tolower c).
Proof.
  intros (H1 & H2 & H3). repeat split; intros H; apply tolower_special in H; done.
Qed.

Lemma fold_case_literal cs seg (w : bytes) :
  Forall (λ c, islower c = false) w → fold_case cs seg = w → seg = w.
Proof.
  unfold fold_case. destruct cs; [done|]. intros Hw. revert w Hw.
  induction seg as [|c seg IH]; intros [|d w] Hw H; simplify_eq/=; [done|].
  inversion Hw; subst. f_equal; [by eapply tolower_special|by apply IH].
Qed.

Lemma fold_case_good cs seg : good_segment seg → good_segment (fold_case cs seg).
Proof.
  intros (H1 & H2 & H3 & H4 & H5). repeat split.
  - intros H. by apply fold_case_literal in H.
  - intros H. apply fold_case_literal in H; [done|by repeat constructor].
  - intros H. apply fold_case_literal in H; [done|by repeat constructor].
  - unfold fold_case. destruct cs; [done|]. intros Hin.
    apply list_elem_of_fmap in Hin as (c & Hc & Hin). symmetry in Hc.
    by apply tolower_special in Hc as ->.
  - unfold fold_case. destruct cs; [done|]. apply Forall_fmap. eapply Forall_impl; [done|].
    intros c. apply tolower_plain.
Qed.

Lemma fold_case_idem cs seg : fold_case cs (fold_case cs seg) = fold_case cs seg.
Proof.
  unfold fold_case. destruct cs; [done|]. rewrite <- list_fmap_compose.
  apply list_fmap_ext. intros i c _. apply tolower_idem.
Qed.

(** The segments of a reassembled path are the ones it was built from. *)
Lemma split_join sep segs :
  Forall (λ s, sep ∉ s) segs → segs ≠ [] → split_on sep (join_with [sep] segs) = segs.
Proof.
  induction segs as [|p segs IH]; intros Hs Hne; [done|]. inversion Hs; subst.
  destruct segs as [|q segs]; [by apply split_on_notin|].
  change (join_with [sep] (p :: q :: segs)) with (p ++ sep :: join_with [sep] (q :: segs)).
  rewrite split_on_app by done. by rewrite IH.
Qed.

Lemma segments_keep segs acc :
  Forall good_segment segs → foldl segment_step acc segs = acc ++ segs.
Proof.
  revert acc. induction segs as [|p segs IH]; intros acc Hs; simpl; [by rewrite app_nil_r|].
  inversion Hs as [|?? (H1 & H2 & H3 & _) Hs']; subst.
  assert (segment_step acc p = acc ++ [p]) as ->.
  { unfold segment_step. destruct p; [done|].
    by rewrite (proj2 (beqb_ne _ ".")), (proj2 (beqb_ne _ "..")) by done. }
  rewrite IH by done. by rewrite <- app_assoc.
Qed.

Lemma path_segments_reassemble segs :
  Forall good_segment segs → path_segments ("/" ++ join_with "/" segs) = segs.
Proof.
  intros Hs. unfold path_segments.
  change ("/" ++ join_with "/" segs) with ("/"%char :: join_with ["/"%char] segs).
  cbn [split_on]. rewrite ceqb_refl. cbn [foldl segment_step].
  destruct segs as [|p segs]; [done|].
  rewrite split_join, segments_keep; [done|done| |done].
  eapply Forall_impl; [done|]. by intros s (_ & _ & _ & ? & _).
Qed.

Lemma decodes_id s : Forall plain s → decodes s s.
Proof. induction 1; by constructor. Qed.

Lemma join_plain segs : Forall (Forall plain) segs → Forall plain (join_with "/" segs).
Proof.
  induction segs as [|p segs IH]; intros Hs; [done|]. inversion Hs; subst.
  destruct segs as [|q segs]; [done|].
  change (join_with "/" (p :: q :: segs)) with (p ++ "/"%char :: join_with "/" (q :: segs)).
  apply Forall_app. split; [done|]. constructor; [done|auto].
Qed.

(** The result of a successful normalization: a slash, then good segments. *)
Lemma normalize_path_shape p cs :
  np_valid (normalize_path p cs) = true →
  ∃ segs, Forall good_segment segs ∧ segs = fold_case cs <$> segs ∧
    normalize_path p cs = mkPath ("/" ++ join_with "/" segs) true [].
Proof.
  unfold normalize_path. destruct (np_valid (percent_decode (strip_query p))) eqn:Hv; cbn [negb]; [|congruence].
  apply percent_decode_valid, decodes_plain_bytes in Hv.
  destruct (np_path _) as [|c d] eqn:Hd; [intros _; by exists []|].
  rewrite <- Hd in *. intros _. exists (fold_case cs <$> path_segments (np_path (percent_decode (strip_query p)))).
  split_and!; [| |done].
  - apply Forall_fmap. eapply Forall_impl; [by apply path_segments_good|]. intros s. apply fold_case_good.
  - rewrite <- list_fmap_compose. apply list_fmap_ext. intros i s _. simpl. by rewrite fold_case_idem.
Qed.

(** Every percent sign of a path that can be decoded begins an escape, of a byte
    that is neither a separator nor NUL nor a percent sign. *)
Lemma decodes_escapes s r : decodes s r → ∀ a x y b, s = a ++ "%"%char :: x :: y :: b →
  decode_pair x y ≠ "/"%char ∧ plain (decode_pair x y).
Proof.
  induction 1 as [|c s r Hc _ IH|d e s r Hd He Hp Hs _ IH]; intros a x y b Heq.
  - by destruct a.
  - destruct a as [|c' a]; injection Heq as -> ->; [by destruct Hc|by eapply IH].
  - destruct a as [|c1 [|c2 [|c3 a]]]; cbn [app] in Heq; simplify_eq; [done|by eapply IH].
Qed.

(** C30: a normalized path cannot carry a traversal or a hidden separator past
    the rules: it is a slash followed by slash-separated segments none of which
    is empty, ["."] or [".."] or contains a percent sign, a backslash, a NUL or
    a slash, and in case-insensitive mode it contains no upper-case letter.  An
    encoded slash, backslash, NUL or percent sign is not kept as a literal but
    makes the whole path invalid (the comment in [normalize_path] and the design
    document say that %2F is kept; the comment of [percent_decode] and the tests
    say that it is refused). *)
Theorem normalize_path_safe p cs :
  np_valid (normalize_path p cs) = true →
  (∃ segs,
    np_path (normalize_path p cs) = "/" ++ join_with "/" segs ∧
    Forall good_segment segs ∧
    (cs = false → Forall (λ seg, Forall (λ c, isupper c = false) seg) segs)) ∧
  (∀ a x y b, strip_query p = a ++ "%"%char :: x :: y :: b → decode_pair x y ≠ "/"%char ∧ plain (decode_pair x y)).
Proof.
  intros Hv. split.
  - destruct (normalize_path_shape p cs Hv) as (segs & Hg & Hf & ->).
    exists segs. split_and!; [done|done|]. intros ->. rewrite Hf. apply Forall_fmap.
    apply Forall_true. intros seg. simpl. apply Forall_fmap. apply Forall_true.
    intros c. simpl. all_bytes c.
  - apply (decodes_escapes _ (np_path (percent_decode (strip_query p)))), percent_decode_valid. revert Hv. unfold normalize_path.
    by destruct (np_valid (percent_decode (strip_query p))) eqn:E; [|cbn [negb]; rewrite E].
Qed.

(** The example of the design document. *)
Lemma encoded_slash_refused cs : normalize_path "/foo%2Fbar" cs = mkPath [] false "unsafe encoded path separator or nul".
Proof. by destruct cs. Qed.

Lemma normalize_path_safe_witness :
  np_valid (normalize_path "/API//a/./b/../%63?x=1" false) = true ∧
  ∃ segs, np_path (normalize_path "/API//a/./b/../%63?x=1" false) = "/" ++ join_with "/" segs ∧
    Forall good_segment segs.
Proof.
  split; [vm_compute; reflexivity|].
  destruct (normalize_path_safe "/API//a/./b/../%63?x=1" false) as [(segs & H1 & H2 & _) _];
    [vm_compute; reflexivity|]. exists segs. split; [exact H1|exact H2].
Defined.

(** normalization is idempotent: a normalized path without a (decoded)
    question mark is its own normal form, so checking rules on it and on what
    it normalizes to is the same thing. *)
Lemma normalize_path_idempotent p cs :
  np_valid (normalize_path p cs) = true →
  "?"%char ∉ np_path (normalize_path p cs) →
  normalize_path (np_path (normalize_path p cs)) cs = normalize_path p cs.
Proof.
  intros Hv Hq. destruct (normalize_path_shape p cs Hv) as (segs & Hg & Hf & Heq).
  rewrite Heq in *. cbn [np_path] in *. set (out := "/" ++ join_with "/" segs) in *.
  assert (percent_decode out = mkPath out true []) as Hd.
  { apply percent_decode_complete, decodes_id. unfold out. constructor; [done|]. apply join_plain.
    eapply Forall_impl; [done|]. by intros s (_ & _ & _ & _ & ?). }
  unfold normalize_path, strip_query. rewrite (proj2 (find_char_None "?" out)), Hd by done.
  cbn [np_valid np_path negb]. destruct out as [|c o] eqn:Ho; [done|]. rewrite <- Ho.
  unfold out in Ho |- *. f_equal. unfold reassemble. rewrite path_segments_reassemble by done.
  by rewrite <- Hf.
Qed.

Lemma normalize_path_idempotent_witness :
  np_valid (normalize_path "/A/../B%2e/c" false) = true ∧
  normalize_path (np_path (normalize_path "/A/../B%2e/c" false)) false =
  normalize_path "/A/../B%2e/c" false.
Proof.
  split; [vm_compute; reflexivity|].
  apply (normalize_path_idempotent "/A/../B%2e/c" false); [vm_compute; reflexivity|].
  apply (bool_decide_eq_true_1 _). vm_compute. reflexivity.
Defined.
