(* ===== verification/IpRules.v ===== *)
(** * Client addresses (src/src/security/real_ip.hpp, cidr.hpp, ip_blacklist.hpp)

    Address normalization, the real client address behind trusted proxies, CIDR
    rules and the IP blacklist.  Text/address conversion belongs to asio and the
    system ([inet_pton], [inet_ntop]); it is the class [AsioAddress], with the
    two facts the code relies on.  The theorems show that a CIDR rule compares
    exactly its leading bits, that the blacklist is the union of its items and
    cannot be dodged through an IPv4-mapped IPv6 spelling, and that a client can
    neither spoof its address from an untrusted peer nor by prepending entries
    to X-Forwarded-For. *)

From S2P Require Import Prelude.

(** ** asio addresses *)

Inductive address :=
| V4 (b : list Z)
| V6 (b : list Z).

#[export] Instance address_eq_dec : EqDecision address.
Proof. solve_decision. Defined.

Definition byte_ok (z : Z) : Prop := 0 ≤ z < 256.
Definition v4_ok (b : list Z) : Prop := length b = 4%nat ∧ Forall byte_ok b.
Definition v6_ok (b : list Z) : Prop := length b = 16%nat ∧ Forall byte_ok b.

(** [address_v6::is_v4_mapped] and [make_address_v6(v4_mapped, v4)]. *)
Definition v4_mapped_prefix : list Z := [0;0;0;0;0;0;0;0;0;0;255;255].
Definition is_v4_mapped (b : list Z) : bool := bool_decide (take 12 b = v4_mapped_prefix).
Definition make_address_v6_mapped (v4 : list Z) : list Z := v4_mapped_prefix ++ v4.

(** [asio::ip::make_address(str, ec)] ([None] when [ec] is set) and
    [address_v4::to_string()]. *)
Class AsioAddress := {
  make_address : bytes → option address;
  v4_to_string : list Z → bytes
}.

(** What asio documents of them: parsing yields addresses of the right width,
    and the dotted text of an IPv4 address parses back to it. *)
Class AsioAddressLaws `{AsioAddress} := {
  make_address_ok s a : make_address s = Some a →
    match a with V4 b => v4_ok b | V6 b => v6_ok b end;
  v4_to_string_parse b : v4_ok b → make_address (v4_to_string b) = Some (V4 b)
}.

(** ** CIDR rules *)

Record ParsedCidr := mkCidr { network : list Z; prefix_len : Z }.

Section model.
Context `{AsioAddress}.

Record NormalizedIp := mkIp { ip_str : bytes; ip_addr : option address; parse_ok : bool }.

Definition normalize_ip (s : bytes) : NormalizedIp :=
  match make_address s with
  | None => mkIp s None false
  | Some (V6 b) =>
      if is_v4_mapped b
      then let v4 := drop 12 b in mkIp (v4_to_string v4) (Some (V4 v4)) true
      else mkIp s (Some (V6 b)) true
  | Some (V4 b) => mkIp s (Some (V4 b)) true
  end.

Definition normalize_ip_str (s : bytes) : bytes := ip_str (normalize_ip s).

Definition parse_cidr_rule (cidr : bytes) : option ParsedCidr :=
  match find_char "/" cidr with
  | None => None
  | Some slash =>
      let ip_part := take slash cidr in
      let prefix_part := drop (slash + 1) cidr in
      match stoi prefix_part with
      | None => None
      | Some (len, _) =>
          match make_address ip_part with
          | None => None
          | Some (V4 b) =>
              if (len <? 0) || (32 <? len) then None
              else Some (mkCidr (make_address_v6_mapped b) (len + 96))
          | Some (V6 b) =>
              if (len <? 0) || (128 <? len) then None else Some (mkCidr b len)
          end
      end
  end.

Definition address_v6_bytes (a : address) : list Z :=
  match a with V6 b => b | V4 b => make_address_v6_mapped b end.

(** [for (int i = 0; i < n; ++i) if (a[i] != b[i]) return false;] *)
Fixpoint same_bytes (n : nat) (a b : list Z) : bool :=
  match n, a, b with
  | O, _, _ => true
  | S n', x :: a', y :: b' => (x =? y) && same_bytes n' a' b'
  | S _, _, _ => true
  end.

(** [static_cast<uint8_t>(0xFF << (8 - remaining))] *)
Definition prefix_mask (remaining : Z) : Z := Z.shiftl 255 (8 - remaining) `mod` 256.

Definition match_cidr_bytes (addr_bytes : list Z) (rule : ParsedCidr) : bool :=
  let cidr_bytes := network rule in
  let full := Z.to_nat (prefix_len rule / 8) in
  let remaining := prefix_len rule `mod` 8 in
  same_bytes full addr_bytes cidr_bytes &&
  (if remaining =? 0 then true
   else let mask := prefix_mask remaining in
        Z.land (nth full addr_bytes 0) mask =? Z.land (nth full cidr_bytes 0) mask).

Definition match_cidr (ip : bytes) (rule : ParsedCidr) : bool :=
  let normalized := normalize_ip ip in
  match parse_ok normalized, ip_addr normalized with
  | true, Some addr => match_cidr_bytes (address_v6_bytes addr) rule
  | _, _ => false
  end.

(** ** IpBlacklist *)

Record IpBlacklist := mkIpBlacklist { exact : gset bytes; cidrs : list ParsedCidr }.

Definition ip_blacklist_item (bl : IpBlacklist) (item : bytes) : IpBlacklist :=
  if contains_char "/" item then
    match parse_cidr_rule item with
    | Some parsed => mkIpBlacklist (exact bl) (cidrs bl ++ [parsed])
    | None => bl
    end
  else mkIpBlacklist ({[normalize_ip_str item]} ∪ exact bl) (cidrs bl).

Definition ip_blacklist_reload (items : list bytes) : IpBlacklist :=
  foldl ip_blacklist_item (mkIpBlacklist ∅ []) items.

Definition is_blocked (bl : IpBlacklist) (ip : bytes) : bool :=
  let normalized := normalize_ip_str ip in
  bool_decide (normalized ∈ exact bl) || existsb (match_cidr normalized) (cidrs bl).

(** ** The client address *)

Definition strip_ip_port (s : bytes) : bytes :=
  let unbracketed :=
    if (2 <? slen s) && bool_decide (front s = Some "["%char) then
      match find_char "]" s with
      | Some e => Some (take (e - 1) (drop 1 s))
      | None => None
      end
    else None in
  match unbracketed with
  | Some inner => inner
  | None =>
      match rfind_char ":" s with
      | Some colon =>
          if bool_decide (find_char ":" s = Some colon) then take colon s else s
      | None => s
      end
  end.

(** The entries of X-Forwarded-For, trimmed, empty ones dropped. *)
Definition xff_entries (xff_header : bytes) : list bytes :=
  strip_ip_port <$> filter (λ p, p ≠ []) (trim <$> split_lt "," xff_header).

Definition is_trusted (trusted_proxies : list bytes) (ip : bytes) : bool :=
  existsb (beqb (normalize_ip_str ip)) trusted_proxies.

(** Scan from right to left for the first entry that is not a trusted proxy. *)
Definition first_untrusted (trusted_proxies ips : list bytes) : option bytes :=
  List.find (λ ip, negb (is_trusted trusted_proxies ip)) (reverse ips).

(** [direct] is [socket.remote_endpoint().address().to_string()], [None] when
    that throws. *)
Definition get_client_ip (direct : option bytes) (xff_header : bytes)
    (trusted_proxies : list bytes) : bytes :=
  match direct with
  | None => []
  | Some direct_ip =>
      if negb (is_trusted trusted_proxies direct_ip) || beqb xff_header [] then direct_ip
      else
        let ips := xff_entries xff_header in
        match first_untrusted trusted_proxies ips with
        | Some ip => ip
        | None => direct_ip
        end
  end.

End model.

(** ** Addresses as numbers *)

Definition number_from (v : Z) (b : list Z) : Z := foldl (λ acc x, acc * 256 + x) v b.
(** The 128-bit number of an address, most significant byte first. *)
Definition v6_number (b : list Z) : Z := number_from 0 b.

Lemma number_from_eq v b : number_from v b = v * 256 ^ Z.of_nat (length b) + v6_number b.
Proof.
  unfold v6_number. revert v. induction b as [|x b IH]; intros v; simpl.
  - change (256 ^ Z.of_nat 0) with 1. unfold number_from. simpl. lia.
  - unfold number_from in *. simpl. rewrite IH, (IH (0 * 256 + x)).
    rewrite Nat2Z.inj_succ, Z.pow_succ_r by lia. lia.
Qed.

Lemma v6_number_app a b : v6_number (a ++ b) = v6_number a * 256 ^ Z.of_nat (length b) + v6_number b.
Proof.
  unfold v6_number at 1. unfold number_from. rewrite foldl_app.
  fold (number_from 0 a). fold (number_from (number_from 0 a) b). by rewrite number_from_eq.
Qed.

Lemma v6_number_range b : Forall byte_ok b → 0 ≤ v6_number b < 256 ^ Z.of_nat (length b).
Proof.
  induction b as [|x b IH] using rev_ind; intros Hb.
  - unfold v6_number, number_from. simpl. change (256 ^ Z.of_nat 0) with 1. lia.
  - apply Forall_app in Hb as [Hb Hx]. rewrite Forall_singleton in Hx. unfold byte_ok in Hx.
    specialize (IH Hb). rewrite v6_number_app, length_app. simpl.
    replace (Z.of_nat (length b + 1)) with (Z.of_nat (length b) + 1) by lia.
    rewrite Z.pow_add_r by lia. change (256 ^ Z.of_nat 1) with 256. change (256 ^ 1) with 256.
    change (v6_number [x]) with (0 * 256 + x). lia.
Qed.

(** Quotient and remainder of a number are unique. *)
Lemma base_split p a b c d :
  0 ≤ b < p → 0 ≤ d < p → a * p + b = c * p + d → a = c ∧ b = d.
Proof.
  intros Hb Hd Heq. assert (∀ x y, 0 ≤ y < p → (x * p + y) / p = x) as Hq.
  { intros x y Hy. rewrite Z.div_add_l, Z.div_small by lia. lia. }
  assert (a = c) as ->; [|lia]. by rewrite <- (Hq a b), Heq, Hq.
Qed.

Lemma v6_number_inj a b :
  Forall byte_ok a → Forall byte_ok b → length a = length b → v6_number a = v6_number b → a = b.
Proof.
  revert b. induction a as [|x a IH]; intros b Ha Hb Hl Heq; [by destruct b|].
  destruct b as [|y b]; [done|]. inversion Ha; inversion Hb; subst.
  change (x :: a) with ([x] ++ a) in Heq. change (y :: b) with ([y] ++ b) in Heq.
  rewrite !v6_number_app in Heq. simplify_eq/=. rewrite Hl in Heq.
  pose proof (v6_number_range a) as Ra. pose proof (v6_number_range b) as Rb. rewrite Hl in Ra.
  apply base_split in Heq as [Hx Hn]; [|auto|auto].
  unfold v6_number, number_from in Hx. simpl in Hx. f_equal; [lia|]. by apply IH.
Qed.

Lemma same_bytes_take n a b :
  (n ≤ length a)%nat → (n ≤ length b)%nat → same_bytes n a b = true ↔ take n a = take n b.
Proof.
  revert a b. induction n as [|n IH]; intros a b Ha Hb; [done|].
  destruct a as [|x a], b as [|y b]; simpl in *; try lia.
  rewrite andb_true_iff, Z.eqb_eq, IH by lia. split; [intros [-> Ht]; by f_equal|intros [= -> Ht]; done].
Qed.

(** Masking with [prefix_mask r] keeps exactly the leading [r] bits of a byte. *)
Lemma prefix_mask_spec r x :
  0 < r < 8 → byte_ok x → Z.land x (prefix_mask r) = (x / 2 ^ (8 - r)) * 2 ^ (8 - r).
Proof.
  intros Hr Hx.
  assert (forallb (λ r, forallb (λ x, Z.land x (prefix_mask r) =? (x / 2 ^ (8 - r)) * 2 ^ (8 - r))
    (seqZ 0 256)) (seqZ 1 7) = true) as H by (vm_compute; reflexivity).
  rewrite forallb_forall in H. specialize (H r). rewrite <- list_elem_of_In, elem_of_seqZ in H.
  specialize (H ltac:(lia)). rewrite forallb_forall in H. specialize (H x).
  rewrite <- list_elem_of_In, elem_of_seqZ in H. unfold byte_ok in Hx.
  specialize (H ltac:(lia)). lia.
Qed.

Lemma shiftr_number a n :
  Forall byte_ok a → (n ≤ length a)%nat →
  Z.shiftr (v6_number a) (8 * Z.of_nat (length a - n)) = v6_number (take n a).
Proof.
  intros Ha Hn. rewrite Z.shiftr_div_pow2 by lia.
  rewrite <- (take_drop n a) at 1. rewrite v6_number_app, length_drop.
  replace (2 ^ (8 * Z.of_nat (length a - n))) with (256 ^ Z.of_nat (length a - n))
    by (rewrite Z.pow_mul_r by lia; done).
  rewrite Z.div_add_l by (apply Z.pow_nonzero; lia).
  rewrite Z.div_small; [lia|]. rewrite <- length_drop. apply v6_number_range. by apply Forall_drop.
Qed.

Lemma shiftr_v6 a n :
  v6_ok a → (n ≤ 16)%nat → Z.shiftr (v6_number a) (8 * Z.of_nat (16 - n)) = v6_number (take n a).
Proof. intros [La Fa] Hn. rewrite <- La in Hn |- *. by apply shiftr_number. Qed.

Lemma take_eq_number n a b :
  v6_ok a → v6_ok b → (n ≤ 16)%nat → take n a = take n b ↔ v6_number (take n a) = v6_number (take n b).
Proof.
  intros [La Fa] [Lb Fb] Hn. split; [congruence|]. apply v6_number_inj.
  - by apply Forall_take.
  - by apply Forall_take.
  - rewrite !length_take. lia.
Qed.

Lemma nth_ok n a : v6_ok a → (n < 16)%nat → byte_ok (nth n a 0) ∧ take (S n) a = take n a ++ [nth n a 0].
Proof.
  intros [La Fa] Hn. destruct (lookup_lt_is_Some_2 a n) as [x Hx]; [lia|].
  rewrite (nth_lookup_Some _ _ _ _ Hx). split; [by eapply Forall_lookup_1|].
  by apply take_S_r.
Qed.

(** A CIDR rule matches exactly the addresses that share its first
    [prefix_len] bits: the byte loop and the masked last byte compare the
    128-bit numbers shifted right by [128 - prefix_len]. *)
Lemma match_cidr_prefix a rule :
  v6_ok a → v6_ok (network rule) → 0 ≤ prefix_len rule ≤ 128 →
  match_cidr_bytes a rule = true ↔
  Z.shiftr (v6_number a) (128 - prefix_len rule) =
  Z.shiftr (v6_number (network rule)) (128 - prefix_len rule).
Proof.
  destruct rule as [net len]. cbn [network prefix_len]. intros Ha Hb Hlen.
  unfold match_cidr_bytes. cbn [network prefix_len].
  pose proof (Z.div_mod len 8 ltac:(lia)) as Hdm. pose proof (Z.mod_pos_bound len 8 ltac:(lia)) as Hr.
  set (q := Z.to_nat (len / 8)). set (r := len `mod` 8) in *.
  assert (len = 8 * Z.of_nat q + r) as Hlq by (unfold q; lia).
  pose proof Ha as [La Fa]. pose proof Hb as [Lb Fb].
  rewrite andb_true_iff, same_bytes_take, take_eq_number by (done || lia).
  destruct (r =? 0) eqn:Er; bool_prop.
  - replace (128 - len) with (8 * Z.of_nat (16 - q)) by lia.
    rewrite !shiftr_v6 by (done || lia). naive_solver.
  - assert (q < 16)%nat as Hq by lia.
    destruct (nth_ok q a Ha Hq) as [Ox Tx]. destruct (nth_ok q net Hb Hq) as [Oy Ty].
    set (x := nth q a 0) in *. set (y := nth q net 0) in *.
    rewrite !prefix_mask_spec, Z.eqb_eq by (done || lia).
    replace (128 - len) with (8 * Z.of_nat (16 - S q) + (8 - r)) by lia.
    rewrite <- !Z.shiftr_shiftr by lia.
    rewrite !shiftr_v6 by (done || lia). rewrite Tx, Ty, !v6_number_app. simpl length.
    change (256 ^ Z.of_nat 1) with 256. change (v6_number [x]) with (0 * 256 + x).
    change (v6_number [y]) with (0 * 256 + y). rewrite !Z.shiftr_div_pow2 by lia.
    replace 256 with (2 ^ r * 2 ^ (8 - r)) by (rewrite <- Z.pow_add_r by lia; by replace (r + (8 - r)) with 8 by lia).
    rewrite !Z.mul_assoc, !Z.mul_0_l, !Z.add_0_l.
    rewrite !(Z.div_add_l _ (2 ^ (8 - r))) by (apply Z.pow_nonzero; lia).
    assert (∀ z, byte_ok z → 0 ≤ z / 2 ^ (8 - r) < 2 ^ r) as Hz.
    { intros z [Hz1 Hz2]. split; [apply Z.div_pos; lia|]. apply Z.div_lt_upper_bound; [lia|].
      rewrite <- Z.pow_add_r by lia. replace (8 - r + r) with 8 by lia. lia. }
    split.
    + intros [-> Heq]. f_equal. apply Z.mul_cancel_r in Heq; [done|]. apply Z.pow_nonzero; lia.
    + intros Heq. apply base_split in Heq as [-> ->]; auto.
Qed.

(** ** The blacklist *)

Section blacklist.
Context `{AsioAddressLaws}.

Lemma foldl_items items bl :
  let bl' := foldl ip_blacklist_item bl items in
  (∀ s, s ∈ exact bl' ↔ s ∈ exact bl ∨
     ∃ item, item ∈ items ∧ "/"%char ∉ item ∧ normalize_ip_str item = s) ∧
  (∀ r, r ∈ cidrs bl' ↔ r ∈ cidrs bl ∨
     ∃ item, item ∈ items ∧ "/"%char ∈ item ∧ parse_cidr_rule item = Some r).
Proof.
  revert bl. induction items as [|item items IH]; intros bl; simpl.
  { split; intros; split; [by left| |by left|]; intros [?|(? & ?%not_elem_of_nil & _)]; done. }
  destruct (IH (ip_blacklist_item bl item)) as [H1 H2].
  assert (∀ (P : bytes → Prop),
    (∃ i, i ∈ item :: items ∧ P i) ↔ P item ∨ ∃ i, i ∈ items ∧ P i) as Hex.
  { intros P. setoid_rewrite elem_of_cons. naive_solver. }
  split; intros z; [rewrite H1|rewrite H2]; rewrite Hex; unfold ip_blacklist_item;
    destruct (contains_char "/" item) eqn:E;
    (apply contains_char_spec in E || apply contains_char_false in E);
    destruct (parse_cidr_rule item) eqn:Ep; simpl; set_solver.
Qed.

Lemma mapped_back b : v6_ok b → is_v4_mapped b = true → make_address_v6_mapped (drop 12 b) = b.
Proof.
  unfold is_v4_mapped, make_address_v6_mapped. intros _ Hm. bool_prop.
  by rewrite <- Hm, take_drop.
Qed.

(** Normalizing the normalized text gives the same 128-bit address. *)
Lemma normalize_ip_address ip a :
  make_address ip = Some a →
  ∃ a', normalize_ip (normalize_ip_str ip) = mkIp (normalize_ip_str ip) (Some a') true ∧
    address_v6_bytes a' = address_v6_bytes a.
Proof.
  intros Ha. unfold normalize_ip_str, normalize_ip at 2. rewrite Ha.
  destruct a as [b|b].
  - simpl. exists (V4 b). unfold normalize_ip. by rewrite Ha.
  - pose proof (make_address_ok _ _ Ha) as Hok. simpl in Hok.
    destruct (is_v4_mapped b) eqn:Hm; simpl.
    + exists (V4 (drop 12 b)). unfold normalize_ip.
      rewrite v4_to_string_parse; [split; [by rewrite Ha, Hm|by apply mapped_back]|].
      destruct Hok as [Hl Hf]. split; [rewrite length_drop; lia|by apply Forall_drop].
    + exists (V6 b). unfold normalize_ip. by rewrite Ha, Hm.
Qed.

Lemma address_v6_ok ip a : make_address ip = Some a → v6_ok (address_v6_bytes a).
Proof.
  intros Ha. pose proof (make_address_ok _ _ Ha) as Hok. destruct a as [b|b]; [|done].
  destruct Hok as [Hl Hf]. simpl. split; [simpl; lia|].
  apply Forall_app. split; [|done]. repeat constructor; discriminate.
Qed.

Lemma parse_cidr_rule_ok item r :
  parse_cidr_rule item = Some r → v6_ok (network r) ∧ 0 ≤ prefix_len r ≤ 128.
Proof.
  unfold parse_cidr_rule. intros Hp.
  destruct (find_char "/" item); [|done]. destruct (stoi _) as [[len k]|]; [|done].
  destruct (make_address _) as [[b|b]|] eqn:Ha; [| |done];
    pose proof (address_v6_ok _ _ Ha) as Hok; simpl in Hok;
    (destruct (_ || _) eqn:E in Hp; [done|]); bool_prop; simplify_eq/=; (split; [done|lia]).
Qed.

(** the IP blacklist blocks an address exactly when one of its items says
    so: an exact item with the same normalized text, or a CIDR item whose
    leading bits the 128-bit address shares.  In particular an IPv4 address and
    its IPv4-mapped IPv6 spelling are treated alike by every CIDR item. *)
Lemma ip_blacklist_correct items ip a :
  make_address ip = Some a →
  is_blocked (ip_blacklist_reload items) ip = true ↔
  (∃ item, item ∈ items ∧ "/"%char ∉ item ∧ normalize_ip_str item = normalize_ip_str ip) ∨
  (∃ item r, item ∈ items ∧ "/"%char ∈ item ∧ parse_cidr_rule item = Some r ∧
     Z.shiftr (v6_number (address_v6_bytes a)) (128 - prefix_len r) =
     Z.shiftr (v6_number (network r)) (128 - prefix_len r)).
Proof.
  intros Ha. unfold is_blocked, ip_blacklist_reload.
  destruct (foldl_items items (mkIpBlacklist ∅ [])) as [H1 H2].
  destruct (normalize_ip_address ip a Ha) as (a' & Hn & Hbytes).
  rewrite orb_true_iff, bool_decide_eq_true, H1, existsb_exists. simpl in *.
  assert (∀ r, match_cidr (normalize_ip_str ip) r = match_cidr_bytes (address_v6_bytes a) r) as Hm.
  { intros r. unfold match_cidr. by rewrite Hn, <- Hbytes. }
  apply Morphisms_Prop.or_iff_morphism; [set_solver|].
  split.
  - intros (r & Hr & Hmatch). rewrite <- list_elem_of_In, H2 in Hr. rewrite Hm in Hmatch.
    destruct Hr as [?%not_elem_of_nil|(item & Hin & Hsl & Hp)]; [done|].
    destruct (parse_cidr_rule_ok _ _ Hp).
    exists item, r. split_and!; [done|done|done|].
    by apply match_cidr_prefix; [by eapply address_v6_ok|..].
  - intros (item & r & Hin & Hsl & Hp & Heq). destruct (parse_cidr_rule_ok _ _ Hp).
    exists r. rewrite <- list_elem_of_In, H2, Hm. split; [right; eauto|].
    by apply match_cidr_prefix; [by eapply address_v6_ok|..].
Qed.

(** ** X-Forwarded-For *)

Lemma xff_entries_app forged chain :
  xff_entries (forged ++ ","%char :: chain) =
  (strip_ip_port <$> filter (λ p, p ≠ []) (trim <$> split_on "," forged)) ++ xff_entries chain.
Proof.
  unfold xff_entries. by rewrite split_lt_app, !fmap_app, filter_app, fmap_app.
Qed.

Lemma find_app {A} (f : A → bool) l1 l2 :
  List.find f (l1 ++ l2) = match List.find f l1 with Some x => Some x | None => List.find f l2 end.
Proof. induction l1 as [|x l1 IH]; simpl; [done|]. by destruct (f x). Qed.

Lemma first_untrusted_app tp l1 l2 ip :
  first_untrusted tp l2 = Some ip → first_untrusted tp (l1 ++ l2) = Some ip.
Proof. unfold first_untrusted. intros Hf. by rewrite reverse_app, find_app, Hf. Qed.

Lemma first_untrusted_spec tp ips ip :
  first_untrusted tp ips = Some ip →
  ∃ l r, ips = l ++ ip :: r ∧ is_trusted tp ip = false ∧ Forall (λ x, is_trusted tp x = true) r.
Proof.
  unfold first_untrusted. intros Hf.
  assert (∀ l, List.find (λ x, negb (is_trusted tp x)) l = Some ip →
    ∃ p q, l = p ++ ip :: q ∧ is_trusted tp ip = false ∧ Forall (λ x, is_trusted tp x = true) p) as Hg.
  { induction l as [|x l IH]; simpl; [done|]. destruct (is_trusted tp x) eqn:E; simpl.
    - intros (p & q & -> & ? & ?)%IH. exists (x :: p), q. by repeat constructor.
    - intros [= ->]. by exists [], l. }
  apply Hg in Hf as (p & q & Hr & Ht & Hp). exists (reverse q), (reverse p).
  split_and!; [|done|by apply Forall_reverse].
  rewrite <- (reverse_involutive ips), Hr, reverse_app, reverse_cons. by rewrite <- app_assoc.
Qed.

(** C34: the client address cannot be forged.  A peer that is not a trusted
    proxy is reported as itself whatever X-Forwarded-For says; behind a trusted
    proxy the address is the rightmost entry that is not a trusted proxy, and
    nothing a client puts in front of the entries the proxies appended can
    change it. *)
Theorem client_ip_unspoofable direct tp :
  (∀ xff, is_trusted tp direct = false → get_client_ip (Some direct) xff tp = direct) ∧
  (∀ xff ip, is_trusted tp direct = true → first_untrusted tp (xff_entries xff) = Some ip →
     get_client_ip (Some direct) xff tp = ip ∧
     ∃ l r, xff_entries xff = l ++ ip :: r ∧ is_trusted tp ip = false ∧
       Forall (λ x, is_trusted tp x = true) r) ∧
  (∀ forged chain, first_untrusted tp (xff_entries chain) ≠ None →
     get_client_ip (Some direct) (forged ++ "," ++ chain) tp = get_client_ip (Some direct) chain tp).
Proof.
  assert (∀ xff ip, is_trusted tp direct = true → first_untrusted tp (xff_entries xff) = Some ip →
    get_client_ip (Some direct) xff tp = ip) as Hget.
  { intros xff ip Ht Hf. unfold get_client_ip. rewrite Ht, Hf.
    destruct xff; [done|]. by rewrite (proj2 (beqb_ne _ [])). }
  split_and!.
  - intros xff Ht. unfold get_client_ip. by rewrite Ht.
  - intros xff ip Ht Hf. split; [by apply Hget|by apply first_untrusted_spec].
  - intros forged chain Hne. destruct (first_untrusted tp (xff_entries chain)) as [ip|] eqn:Hf; [|done].
    destruct (is_trusted tp direct) eqn:Ht.
    + rewrite (Hget chain ip), (Hget _ ip); [done|done| |done|done].
      change (forged ++ "," ++ chain) with (forged ++ ","%char :: chain).
      rewrite xff_entries_app. by apply first_untrusted_app.
    + unfold get_client_ip. by rewrite Ht.
Qed.

End blacklist.

(** ** A concrete text form

    Dotted-quad IPv4 and its [::ffff:] mapping, to exercise the theorems. *)
Module DottedQuad.

Definition octet (s : bytes) : option Z := List.find (λ n, beqb (to_string n) s) (seqZ 0 256).

Definition parse_v4 (s : bytes) : option (list Z) :=
  match split_on "." s with
  | [a; b; c; d] =>
      match octet a, octet b, octet c, octet d with
      | Some a, Some b, Some c, Some d => Some [a; b; c; d]
      | _, _, _, _ => None
      end
  | _ => None
  end.

Definition parse (s : bytes) : option address :=
  if starts_with "::ffff:" s then V6 ∘ make_address_v6_mapped <$> parse_v4 (drop 7 s)
  else V4 <$> parse_v4 s.

Definition print (b : list Z) : bytes := join_with "." (to_string <$> b).

#[export] Instance dotted : AsioAddress := {| make_address := parse; v4_to_string := print |}.

Lemma octet_range s n : octet s = Some n → byte_ok n.
Proof.
  intros [Hin _]%find_some. rewrite <- list_elem_of_In, elem_of_seqZ in Hin. unfold byte_ok. lia.
Qed.

Lemma octet_print n : byte_ok n → octet (to_string n) = Some n ∧ "."%char ∉ to_string n ∧
  starts_with "::ffff:" (to_string n ++ ".") = false ∧ ":"%char ∉ to_string n.
Proof.
  intros Hn.
  assert (forallb (λ n, bool_decide (octet (to_string n) = Some n ∧ "."%char ∉ to_string n ∧
    starts_with "::ffff:" (to_string n ++ ".") = false ∧ ":"%char ∉ to_string n)) (seqZ 0 256) = true) as H
    by (vm_compute; reflexivity).
  rewrite forallb_forall in H. specialize (H n). rewrite <- list_elem_of_In, elem_of_seqZ in H.
  unfold byte_ok in Hn. specialize (H ltac:(lia)). by bool_prop.
Qed.

Lemma parse_v4_ok s b : parse_v4 s = Some b → v4_ok b.
Proof.
  unfold parse_v4. intros Hp. repeat case_match; simplify_eq.
  split; [done|]. repeat constructor; by eapply octet_range.
Qed.

#[export] Instance dotted_laws : AsioAddressLaws.
Proof.
  split; simpl.
  - intros s a. unfold parse. case_if.
    + destruct (parse_v4 _) as [b|] eqn:E; simpl; [|done]. intros [= <-].
      apply parse_v4_ok in E as [Hl Hf]. split; [unfold make_address_v6_mapped; rewrite length_app; simpl; lia|].
      apply Forall_app. split; [|done]. repeat constructor; discriminate.
    + destruct (parse_v4 _) as [b|] eqn:E; simpl; [|done]. intros [= <-]. by eapply parse_v4_ok.
  - intros b [Hl Hf]. destruct b as [|b0 [|b1 [|b2 [|b3 [|]]]]]; try done.
    repeat match goal with H : Forall byte_ok (_ :: _) |- _ => inversion H; subst; clear H end.
    unfold print. simpl fmap. cbn [join_with].
    destruct (octet_print b0) as (O0 & D0 & S0 & C0); [done|].
    destruct (octet_print b1) as (O1 & D1 & _); [done|]. destruct (octet_print b2) as (O2 & D2 & _); [done|].
    destruct (octet_print b3) as (O3 & D3 & _); [done|].
    unfold parse. replace (starts_with _ _) with false.
    + unfold parse_v4. change ("." : bytes) with ["."%char]. cbn [app].
      rewrite !split_on_app by done. rewrite split_on_notin by done. by rewrite O0, O1, O2, O3.
    + symmetry. apply not_true_is_false. intros (t & Ht)%starts_with_spec.
      destruct (to_string b0) as [|c s] eqn:Eb; [done|]. simpl in Ht. simplify_eq.
Qed.

End DottedQuad.

Lemma ip_blacklist_correct_witness :
  @is_blocked DottedQuad.dotted (@ip_blacklist_reload DottedQuad.dotted ["10.1.0.0/16" : bytes]) "::ffff:10.1.2.3" = true.
Proof.
  apply (@ip_blacklist_correct DottedQuad.dotted DottedQuad.dotted_laws ["10.1.0.0/16" : bytes]
           "::ffff:10.1.2.3" (V6 (make_address_v6_mapped [10; 1; 2; 3]))).
  - vm_compute. reflexivity.
  - right. exists "10.1.0.0/16", (mkCidr (make_address_v6_mapped [10; 1; 0; 0]) 112).
    split_and!; [left| | |].
    + apply (bool_decide_eq_true_1 _). vm_compute. reflexivity.
    + vm_compute. reflexivity.
    + vm_compute. reflexivity.
Defined.

Lemma client_ip_unspoofable_witness :
  @get_client_ip DottedQuad.dotted (Some ("10.0.0.1" : bytes)) ("6.6.6.6" ++ "," ++ "1.2.3.4, 10.0.0.1")
    ["10.0.0.1" : bytes] =
  @get_client_ip DottedQuad.dotted (Some ("10.0.0.1" : bytes)) "1.2.3.4, 10.0.0.1" ["10.0.0.1" : bytes].
Proof.
  apply (@client_ip_unspoofable DottedQuad.dotted "10.0.0.1" ["10.0.0.1" : bytes]).
  vm_compute. discriminate.
Defined.
