(* ===== verification/PathRules.v ===== *)
(** * Path rules (src/src/security/path_blacklist.hpp, auth_whitelist.hpp, principal.hpp)

    The path blacklist with its role rules, the JWT whitelist and role
    membership.  The theorems give the exact set of paths each rule list covers:
    prefixes match only at a path-segment boundary, the role of the longest
    matching rule is the one required whatever order [std::sort] leaves equal
    lengths in, and a bare "/" never whitelists the whole site. *)

From S2P Require Import Prelude.

(** ** PathBlacklist *)

Record PathBlacklist := mkPathBlacklist {
  bl_paths : list bytes;
  bl_role_paths : list (bytes * bytes)
}.

Record BlockResult := mkBlock { blocked : bool; required_role : bytes }.

Section model.
Context `{StdSort}.

(** The comparators [a.size() > b.size()] and [a.first.size() > b.first.size()]. *)
Definition longer (a b : bytes) : bool := slen b <? slen a.
Definition longer_key (a b : bytes * bytes) : bool := slen b.1 <? slen a.1.

Definition path_blacklist_reload (items : list (bytes * bytes)) : PathBlacklist :=
  let kept := filter (λ kv, kv.1 ≠ []) items in
  mkPathBlacklist
    (std_sort longer (filter (λ kv, kv.2 = []) kept).*1)
    (std_sort longer_key (filter (λ kv, kv.2 ≠ []) kept)).

(** The condition both loops of [check] test. *)
Definition rule_matches (path p : bytes) : bool :=
  beqb path p ||
  (starts_with p path &&
   (bool_decide (back p = Some "/"%char) ||
    (slen path =? slen p) ||
    bool_decide (path !! length p = Some "/"%char))).

Definition extract_role_from_val (role : bytes) : bytes :=
  match find_char ":" role with
  | Some colon => drop (colon + 1) role
  | None => role
  end.

Definition path_blacklist_check (bl : PathBlacklist) (path : bytes) : BlockResult :=
  if existsb (rule_matches path) (bl_paths bl) then mkBlock true []
  else match List.find (λ pr, rule_matches path pr.1) (bl_role_paths bl) with
       | Some (_, role) => mkBlock false (extract_role_from_val role)
       | None => mkBlock false []
       end.

End model.

(** ** AuthWhitelist *)

Record AuthWhitelist := mkWhitelist {
  exact_paths : gset bytes;
  prefix_paths : list bytes;
  services : gset bytes
}.

Definition whitelist_item (w : AuthWhitelist) (item : bytes) : AuthWhitelist :=
  match item with
  | [] => w
  | c :: _ =>
      if ceqb c "/" then
        if (1 <? slen item) && bool_decide (back item = Some "/"%char)
        then mkWhitelist (exact_paths w) (prefix_paths w ++ [item]) (services w)
        else mkWhitelist ({[item]} ∪ exact_paths w) (prefix_paths w) (services w)
      else mkWhitelist (exact_paths w) (prefix_paths w) ({[item]} ∪ services w)
  end.

Definition whitelist_reload (items : list bytes) : AuthWhitelist :=
  foldl whitelist_item (mkWhitelist ∅ [] ∅) items.

Definition is_path_whitelisted (w : AuthWhitelist) (path : bytes) : bool :=
  bool_decide (path ∈ exact_paths w) || existsb (λ p, starts_with p path) (prefix_paths w).

Definition is_service_whitelisted (w : AuthWhitelist) (service : bytes) : bool :=
  bool_decide (service ∈ services w).

Definition is_whitelisted (w : AuthWhitelist) (path service : bytes) : bool :=
  bool_decide (path ∈ exact_paths w) ||
  existsb (λ p, starts_with p path) (prefix_paths w) ||
  (negb (beqb service []) && bool_decide (service ∈ services w)).

(** ** Principal *)

Record Principal := mkPrincipal { subject : bytes; username : bytes; roles : list bytes }.

Definition has_role (principal : Principal) (role : bytes) : bool :=
  existsb (λ item, beqb item role) (roles principal).

Lemma has_role_spec p role : has_role p role = true ↔ role ∈ roles p.
Proof.
  unfold has_role. rewrite existsb_exists. setoid_rewrite beqb_eq.
  setoid_rewrite <- list_elem_of_In. naive_solver.
Qed.

(** ** What the rules cover *)

(** [path] is [p] or lies below it in the path hierarchy. *)
Definition at_or_below (p path : bytes) : Prop :=
  ∃ rest, path = p ++ rest ∧
    (rest = [] ∨ back p = Some "/"%char ∨ head rest = Some "/"%char).

Lemma rule_matches_spec path p : rule_matches path p = true ↔ at_or_below p path.
Proof.
  unfold rule_matches, at_or_below.
  rewrite orb_true_iff, andb_true_iff, !orb_true_iff, beqb_eq, starts_with_spec, Z.eqb_eq, !bool_decide_eq_true.
  assert (∀ rest, slen (p ++ rest) = slen p ↔ rest = []) as Hlen.
  { intros rest. rewrite slen_app, <- slen_0. lia. }
  assert (∀ rest, (p ++ rest) !! length p = head rest) as Hnext.
  { intros rest. rewrite lookup_app_r, Nat.sub_diag by done. by destruct rest. }
  split.
  - intros [->|[[rest ->] Hb]]; [exists []; rewrite app_nil_r; auto|].
    exists rest. rewrite Hlen, Hnext in Hb. split; [done|]. intuition.
  - intros (rest & -> & Hb). right. split; [by eexists|]. rewrite Hlen, Hnext. intuition.
Qed.

(** Two matching rules of the same length are the same path. *)
Lemma at_or_below_len p q path :
  at_or_below p path → at_or_below q path → slen p = slen q → p = q.
Proof.
  intros (r & -> & _) (r' & Heq & _) Hl. unfold slen in Hl. apply app_inj_1 in Heq; [naive_solver|lia].
Qed.

Lemma longer_sw : strict_weak longer.
Proof. split; unfold longer; intros; bool_prop; rewrite ?Z.ltb_lt, ?Z.ltb_ge; lia. Qed.

Lemma longer_key_sw : strict_weak longer_key.
Proof. split; unfold longer_key; intros; bool_prop; rewrite ?Z.ltb_lt, ?Z.ltb_ge; lia. Qed.

Lemma find_sorted {A} (R : A → A → Prop) (f : A → bool) l x :
  StronglySorted R l → List.find f l = Some x →
  x ∈ l ∧ f x = true ∧ ∀ y, y ∈ l → f y = true → y = x ∨ R x y.
Proof.
  induction 1 as [|y t Ht IH Hy]; simpl; [done|]. destruct (f y) eqn:E.
  - intros [= ->]. split_and!; [left|done|]. intros z [->|Hz]%elem_of_cons _; [by left|].
    right. rewrite Forall_forall in Hy. auto.
  - intros Hf. destruct (IH Hf) as (Hx & Hfx & Hall). split_and!; [by right|done|].
    intros z [->|Hz]%elem_of_cons Hfz; [congruence|auto].
Qed.

Section blacklist.
Context `{StdSortLaws}.

Lemma reload_paths items p :
  p ∈ bl_paths (path_blacklist_reload items) ↔ p ≠ [] ∧ (p, []) ∈ items.
Proof.
  unfold path_blacklist_reload. simpl. rewrite (std_sort_perm _ _ longer_sw).
  rewrite list_elem_of_fmap. setoid_rewrite list_elem_of_filter. setoid_rewrite list_elem_of_filter.
  split.
  - intros ([k v] & -> & Hv & Hk & Hin). simpl in *. by subst.
  - intros [Hp Hin]. by exists (p, []).
Qed.

Lemma reload_role_paths items pr :
  pr ∈ bl_role_paths (path_blacklist_reload items) ↔ pr.1 ≠ [] ∧ pr.2 ≠ [] ∧ pr ∈ items.
Proof.
  unfold path_blacklist_reload. simpl. rewrite (std_sort_perm _ _ longer_key_sw).
  rewrite !list_elem_of_filter. naive_solver.
Qed.

Lemma path_blocked_spec items path :
  blocked (path_blacklist_check (path_blacklist_reload items) path) = true ↔
  ∃ p, (p, []) ∈ items ∧ p ≠ [] ∧ at_or_below p path.
Proof.
  unfold path_blacklist_check.
  assert (existsb (rule_matches path) (bl_paths (path_blacklist_reload items)) = true ↔
    ∃ p, (p, []) ∈ items ∧ p ≠ [] ∧ at_or_below p path) as Hb.
  { rewrite existsb_exists. setoid_rewrite <- list_elem_of_In. setoid_rewrite rule_matches_spec.
    setoid_rewrite reload_paths. naive_solver. }
  destruct (existsb _ _); simpl; [naive_solver|].
  destruct (List.find _ _) as [[p val]|]; simpl; naive_solver.
Qed.

(** a path is blocked exactly when an unconditional blacklist item is the
    path itself or a path above it (so /api/internal never blocks
    /api/internalxxx); when it is not blocked and some role item covers it, the
    role demanded is the one of the longest such item, and no role is demanded
    when none covers it.  This holds for every implementation of [std::sort]. *)
Lemma path_blacklist_check_correct items path :
  let res := path_blacklist_check (path_blacklist_reload items) path in
  let covers p := p ≠ [] ∧ at_or_below p path in
  (blocked res = true ↔ ∃ p, (p, []) ∈ items ∧ covers p) ∧
  (blocked res = true → required_role res = []) ∧
  (blocked res = false →
     (∃ p val, (p, val) ∈ items ∧ val ≠ [] ∧ covers p ∧
        required_role res = extract_role_from_val val ∧
        ∀ q w, (q, w) ∈ items → w ≠ [] → covers q → slen q ≤ slen p) ∨
     ((∀ q w, (q, w) ∈ items → w ≠ [] → ¬ covers q) ∧ required_role res = [])).
Proof.
  intros res covers. split; [apply path_blocked_spec|]. subst res. unfold path_blacklist_check.
  destruct (existsb _ _); simpl; [done|].
  destruct (List.find _ _) as [[p val]|] eqn:Hf; simpl.
  - split; [done|]. intros _. left.
    eapply find_sorted in Hf as (Hin & Hm & Hmax); [|by apply std_sort_sorted, longer_key_sw].
    apply (reload_role_paths items) in Hin as (Hp & Hv & Hin). simpl in *.
    exists p, val. split_and!; [done|done| |done|].
    { split; [done|]. by apply rule_matches_spec. }
    intros q w Hq Hw [Hq0 Hc]. destruct (Hmax (q, w)) as [[= -> ->]|Hl]; [| |lia|].
    + by apply (reload_role_paths items).
    + by apply rule_matches_spec.
    + unfold longer_key in Hl. simpl in Hl. bool_prop. lia.
  - split; [done|]. intros _. right. split; [|done].
    intros q w Hq Hw [Hq0 Hc%rule_matches_spec].
    eapply find_none in Hf; [|apply list_elem_of_In, (reload_role_paths items (q, w)); eauto].
    simpl in Hf. congruence.
Qed.

End blacklist.

(** ** The whitelist *)

Definition prefix_item (item : bytes) : Prop :=
  head item = Some "/"%char ∧ back item = Some "/"%char ∧ 1 < slen item.

Lemma foldl_whitelist items w :
  let w' := foldl whitelist_item w items in
  (∀ p, p ∈ exact_paths w' ↔ p ∈ exact_paths w ∨
     p ∈ items ∧ head p = Some "/"%char ∧ ¬ prefix_item p) ∧
  (∀ p, p ∈ prefix_paths w' ↔ p ∈ prefix_paths w ∨ p ∈ items ∧ prefix_item p) ∧
  (∀ p, p ∈ services w' ↔ p ∈ services w ∨ p ∈ items ∧ p ≠ [] ∧ head p ≠ Some "/"%char).
Proof.
  revert w. induction items as [|item items IH]; intros w; simpl; [set_solver|].
  destruct (IH (whitelist_item w item)) as (H1 & H2 & H3).
  setoid_rewrite H1. setoid_rewrite H2. setoid_rewrite H3. clear H1 H2 H3 IH.
  assert (∀ p, p ∈ exact_paths (whitelist_item w item) ↔
    p ∈ exact_paths w ∨ p = item ∧ head p = Some "/"%char ∧ ¬ prefix_item p) as H1.
  { intros p. destruct item as [|c t]; simpl; [naive_solver|]. unfold prefix_item.
    destruct (ceqb c "/") eqn:E; [apply ceqb_eq in E as ->|apply ceqb_ne in E].
    - case_if; bool_prop; simpl; [naive_solver|]. apply andb_false_iff in Heqb.
      rewrite elem_of_union, elem_of_singleton. destruct Heqb; bool_prop; naive_solver lia.
    - simpl. naive_solver. }
  assert (∀ p, p ∈ prefix_paths (whitelist_item w item) ↔
    p ∈ prefix_paths w ∨ p = item ∧ prefix_item p) as H2.
  { intros p. destruct item as [|c t]; simpl; [unfold prefix_item; naive_solver|]. unfold prefix_item.
    destruct (ceqb c "/") eqn:E; [apply ceqb_eq in E as ->|apply ceqb_ne in E].
    - case_if; bool_prop; simpl.
      + rewrite elem_of_app, list_elem_of_singleton. naive_solver.
      + apply andb_false_iff in Heqb. destruct Heqb; bool_prop; naive_solver lia.
    - simpl. naive_solver. }
  assert (∀ p, p ∈ services (whitelist_item w item) ↔
    p ∈ services w ∨ p = item ∧ p ≠ [] ∧ head p ≠ Some "/"%char) as H3.
  { intros p. destruct item as [|c t]; simpl; [naive_solver|].
    destruct (ceqb c "/") eqn:E; [apply ceqb_eq in E as ->|apply ceqb_ne in E].
    - case_if; simpl; naive_solver.
    - simpl. rewrite elem_of_union, elem_of_singleton. naive_solver. }
  setoid_rewrite H1. setoid_rewrite H2. setoid_rewrite H3. setoid_rewrite elem_of_cons.
  split_and!; intros p; naive_solver.
Qed.

(** a request skips JWT verification exactly when an item names its path,
    an item "/dir/" is a proper directory prefix of its path, or an item without
    a leading slash names its service.  The item "/" covers the root path
    alone. *)
Lemma whitelist_correct items path service :
  (is_whitelisted (whitelist_reload items) path service = true ↔
     (path ∈ items ∧ head path = Some "/"%char) ∨
     (∃ item rest, item ∈ items ∧ prefix_item item ∧ path = item ++ rest) ∨
     (service ∈ items ∧ service ≠ [] ∧ head service ≠ Some "/"%char)) ∧
  (is_whitelisted (whitelist_reload ["/" : bytes]) path service = true ↔ path = "/").
Proof.
  assert (∀ items, is_whitelisted (whitelist_reload items) path service = true ↔
     (path ∈ items ∧ head path = Some "/"%char) ∨
     (∃ item rest, item ∈ items ∧ prefix_item item ∧ path = item ++ rest) ∨
     (service ∈ items ∧ service ≠ [] ∧ head service ≠ Some "/"%char)) as Hw.
  { clear items. intros items.
    destruct (foldl_whitelist items (mkWhitelist ∅ [] ∅)) as (H1 & H2 & H3).
    unfold is_whitelisted, whitelist_reload.
    rewrite !orb_true_iff, andb_true_iff, negb_true_iff, beqb_ne, !bool_decide_eq_true, existsb_exists.
    setoid_rewrite <- list_elem_of_In. setoid_rewrite starts_with_spec.
    setoid_rewrite H1. setoid_rewrite H2. setoid_rewrite H3. clear. simpl. split.
    - intros [[[?%not_elem_of_empty|?]|(x & [?%not_elem_of_nil|?] & t & ->)]|[? [?%not_elem_of_empty|?]]];
        naive_solver.
    - intros [[Hin Hh]|[(item & rest & ? & ? & ->)|?]]; [|left; right|right]; [|naive_solver..].
      left. destruct (decide (1 < slen path ∧ back path = Some "/"%char)) as [[Hl Hb]|Hn].
      + right. exists path. split; [right; by split|]. exists []. by rewrite app_nil_r.
      + left. right. split_and!; [done|done|]. unfold prefix_item. naive_solver. }
  split; [apply Hw|]. rewrite Hw. split.
  - intros [[?%list_elem_of_singleton _]|[(item & rest & ->%list_elem_of_singleton & (_ & _ & Hl) & _)|
      (->%list_elem_of_singleton & _ & Hh)]]; [done| |done]. vm_compute in Hl. done.
  - intros ->. left. by split; [left|].
Qed.

(** ** Examples *)

Definition sample_paths : list (bytes * bytes) :=
  [("/api/internal" : bytes, []); ("/api" : bytes, "role:user" : bytes);
   ("/api/admin" : bytes, "role:admin" : bytes)].

Lemma path_blacklist_check_correct_witness :
  blocked (path_blacklist_check (@path_blacklist_reload insertion_sort sample_paths) "/api/internal/x") = true.
Proof.
  apply (@path_blacklist_check_correct insertion_sort insertion_sort_laws sample_paths "/api/internal/x").
  exists "/api/internal". split; [left|]. split; [done|].
  exists "/x". split; [reflexivity|]. right. right. reflexivity.
Defined.

Example longest_role_wins :
  path_blacklist_check (@path_blacklist_reload insertion_sort sample_paths) "/api/admin/users" =
  mkBlock false "admin".
Proof. vm_compute. reflexivity. Qed.

Example segment_boundary :
  path_blacklist_check (@path_blacklist_reload insertion_sort sample_paths) "/api/internalxxx" =
  mkBlock false "user".
Proof. vm_compute. reflexivity. Qed.
