(* ===== verification/Config.v ===== *)
(** * Configuration files (src/src/common/config.hpp)

    The ini reader: [load_file] line by line, [load] over the files of
    config.d in name order, and the typed getters.  The directory is an input:
    its entries in the order the iterator yields them, with the failures the
    file system may report.  The theorems show that a printed configuration is
    read back, that the two stores of the class agree (the last assignment
    wins), that the result does not depend on the order the file system lists
    the directory in, and that [get_int] accepts exactly the decimal ints. *)

From S2P Require Import Prelude.

Record Config := mkConfig {
  data_ : gmap bytes bytes;
  raw_entries_ : list (bytes * bytes * bytes)
}.

Definition empty_config : Config := mkConfig ∅ [].

Definition qualified (section key : bytes) : bytes := section ++ "." ++ key.

Definition add_entry (c : Config) (e : bytes * bytes * bytes) : Config :=
  let '(section, key, val) := e in
  mkConfig (<[qualified section key := val]> (data_ c)) (raw_entries_ c ++ [(section, key, val)]).

(** The loop of [load_file]: [false] on the first malformed line, with the
    entries read so far kept. *)
Fixpoint load_lines (c : Config) (section : bytes) (lines : list bytes) : bool * Config :=
  match lines with
  | [] => (true, c)
  | raw :: rest =>
      let line := trim raw in
      match line with
      | [] => load_lines c section rest
      | c0 :: _ =>
          if ceqb c0 "#" || ceqb c0 ";" then load_lines c section rest
          else if ceqb c0 "[" then
            if bool_decide (back line = Some "]"%char)
            then load_lines c (take (length line - 2) (drop 1 line)) rest
            else (false, c)
          else match find_char "=" line with
               | None => (false, c)
               | Some eq =>
                   let key := trim (take eq line) in
                   let val := trim (drop (eq + 1) line) in
                   load_lines (add_entry c (section, key, val)) section rest
               end
      end
  end.

(** [content] is [None] when the file cannot be opened. *)
Definition load_file (c : Config) (content : option bytes) : bool * Config :=
  match content with
  | None => (false, c)
  | Some text => load_lines c [] (split_lt LF text)
  end.

(** ** The directory *)

Record dir_entry := mkEntry {
  filename : bytes;
  is_regular : option bool;     (** [None]: [is_regular_file] reports an error *)
  content : option bytes
}.

(** [path::extension()]: the last dot of the file name and what follows it,
    unless the dot starts the name. *)
Definition extension (name : bytes) : bytes :=
  if beqb name "." || beqb name ".." then []
  else match rfind_char "." name with
       | Some (S i) => drop (S i) name
       | _ => []
       end.

(** [operator<] of [std::string]: lexicographic on unsigned bytes. *)
Fixpoint str_ltb (a b : bytes) : bool :=
  match a, b with
  | _, [] => false
  | [], _ :: _ => true
  | x :: a', y :: b' =>
      if code x <? code y then true
      else if code y <? code x then false else str_ltb a' b'
  end.

Definition name_ltb (a b : dir_entry) : bool := str_ltb (filename a) (filename b).

(** The scan collects the .ini files; [None] when an entry cannot be inspected. *)
Fixpoint scan_entries (es : list dir_entry) : option (list dir_entry) :=
  match es with
  | [] => Some []
  | e :: rest =>
      match is_regular e with
      | None => None
      | Some regular =>
          fs ← scan_entries rest;
          Some (if regular && beqb (extension (filename e)) ".ini" then e :: fs else fs)
      end
  end.

Fixpoint load_files (c : Config) (files : list dir_entry) : bool * Config :=
  match files with
  | [] => (true, c)
  | f :: rest =>
      match load_file c (content f) with
      | (true, c') => load_files c' rest
      | (false, c') => (false, c')
      end
  end.

(** [listing] is [None] when config.d is no directory or cannot be opened;
    [scan_ok] is false when advancing the iterator fails. *)
Definition load `{StdSort} (c : Config) (listing : option (list dir_entry)) (scan_ok : bool) : bool * Config :=
  match listing with
  | None => (false, c)
  | Some es =>
      match scan_entries es with
      | None => (false, c)
      | Some files =>
          if negb scan_ok then (false, c)
          else if bool_decide (files = []) then (false, c)
          else load_files c (std_sort name_ltb files)
      end
  end.

(** ** Getters *)

Definition get (c : Config) (section key def : bytes) : bytes :=
  default def (data_ c !! qualified section key).

(** [std::from_chars] for [int]: an optional minus sign and digits; [None] is
    an error code, otherwise the value and the characters consumed. *)
Definition from_chars_int (s : bytes) : option (Z * nat) :=
  let '(neg, t) := match s with
                   | c :: u => if ceqb c "-" then (true, u) else (false, s)
                   | [] => (false, s)
                   end in
  let '(v, n) := scan_digits 0 0 t in
  let v := if (neg : bool) then - v else v in
  if bool_decide (n = 0%nat) then None
  else if (v <? INT_MIN) || (INT_MAX <? v) then None
  else Some (v, (length s - length t + n)%nat).

Definition get_int (c : Config) (section key : bytes) (def : Z) : outcome Z :=
  match data_ c !! qualified section key with
  | None => Ret def
  | Some value =>
      match from_chars_int value with
      | Some (parsed, used) =>
          if beqb value [] || negb (bool_decide (used = length value))
          then Throw ("invalid int config " ++ qualified section key ++ "=" ++ value)
          else Ret parsed
      | None => Throw ("invalid int config " ++ qualified section key ++ "=" ++ value)
      end
  end.

(** [strtod] and [isfinite] are arguments: the value, the characters consumed
    and whether [errno] is ERANGE. *)
Definition get_double {D} (strtod : bytes → D * nat * bool) (isfinite : D → bool)
    (c : Config) (section key : bytes) (def : D) : outcome D :=
  match data_ c !! qualified section key with
  | None => Ret def
  | Some value =>
      let '(parsed, used, erange) := strtod value in
      if beqb value [] || erange || negb (bool_decide (used = length value)) || negb (isfinite parsed)
      then Throw ("invalid double config " ++ qualified section key ++ "=" ++ value)
      else Ret parsed
  end.

Definition get_bool (c : Config) (section key : bytes) (def : bool) : outcome bool :=
  match data_ c !! qualified section key with
  | None => Ret def
  | Some v =>
      let value := tolower <$> v in
      if beqb value "true" || beqb value "1" || beqb value "yes" || beqb value "on" then Ret true
      else if beqb value "false" || beqb value "0" || beqb value "no" || beqb value "off" then Ret false
      else Throw ("invalid bool config " ++ qualified section key ++ "=" ++ v)
  end.

Definition get_section (c : Config) (section : bytes) : list (bytes * bytes) :=
  (λ e : bytes * bytes * bytes, (e.1.2, e.2)) <$> filter (λ e : bytes * bytes * bytes, e.1.1 = section) (raw_entries_ c).

Definition get_list (c : Config) (section : bytes) : list bytes :=
  (λ e : bytes * bytes * bytes, e.2) <$> filter (λ e : bytes * bytes * bytes, e.1.1 = section ∧ e.2 ≠ []) (raw_entries_ c).

(** ** Printing *)

Definition print_entry (kv : bytes * bytes) : bytes := kv.1 ++ "=" ++ kv.2.
Definition print_section (s : bytes * list (bytes * bytes)) : list bytes :=
  ("[" ++ s.1 ++ "]") :: (print_entry <$> s.2).
Definition print_ini (cfg : list (bytes * list (bytes * bytes))) : bytes :=
  concat ((λ l, l ++ [LF]) <$> concat (print_section <$> cfg)).

(** The entries of a configuration, in order. *)
Definition section_entries (s : bytes * list (bytes * bytes)) : list (bytes * bytes * bytes) :=
  (λ kv : bytes * bytes, (s.1, kv.1, kv.2)) <$> s.2.
Definition entries (cfg : list (bytes * list (bytes * bytes))) : list (bytes * bytes * bytes) :=
  concat (section_entries <$> cfg).

(** A key that the line syntax can carry, and a value that trimming keeps. *)
Definition ini_key (k : bytes) : Prop :=
  trim k = k ∧ LF ∉ k ∧ "="%char ∉ k ∧
  ∀ c, head k = Some c → c ≠ "#"%char ∧ c ≠ ";"%char ∧ c ≠ "["%char.
Definition ini_value (v : bytes) : Prop := trim v = v ∧ LF ∉ v.
Definition ini_section (s : bytes * list (bytes * bytes)) : Prop :=
  LF ∉ s.1 ∧ Forall (λ kv, ini_key kv.1 ∧ ini_value kv.2) s.2.

Lemma split_lines ls : Forall (λ l, LF ∉ l) ls → split_lt LF (concat ((λ l, l ++ [LF]) <$> ls)) = ls.
Proof.
  induction 1 as [|l ls Hl Hls IH]; [done|]. rewrite fmap_cons. cbn [concat].
  rewrite <- app_assoc. cbn [app].
  rewrite split_lt_app, IH. by rewrite split_on_notin.
Qed.

Lemma entry_line_trim k v : ini_key k → ini_value v → trim (print_entry (k, v)) = print_entry (k, v).
Proof.
  intros (Hk & _) [Hv _]. unfold print_entry. simpl. apply trim_id; intros c.
  - destruct k as [|x k]; simpl; [by intros [= <-]|]. intros [= <-].
    apply (trim_head (x :: k)). by rewrite Hk.
  - change ("="%char :: v) with (["="%char] ++ v). rewrite !last_app. destruct (last v) as [y|] eqn:E.
    + intros [= ->]. apply (trim_last v). by rewrite Hv.
    + simpl. by intros [= <-].
Qed.

Lemma load_entry_line c section k v rest : ini_key k → ini_value v →
  load_lines c section (print_entry (k, v) :: rest) =
  load_lines (add_entry c (section, k, v)) section rest.
Proof.
  intros Hk Hv. cbn [load_lines]. rewrite entry_line_trim by done.
  assert (find_char "=" (print_entry (k, v)) = Some (length k)) as Hf.
  { unfold print_entry. simpl. apply find_char_app. apply Hk. }
  assert (take (length k) (print_entry (k, v)) = k) as Ht by apply take_app_length.
  assert (drop (length k + 1) (print_entry (k, v)) = v) as Hd.
  { unfold print_entry. simpl. by rewrite <- drop_drop, drop_app_length. }
  rewrite Hf, Ht, Hd. destruct Hk as (-> & _ & _ & Hh), Hv as [-> _].
  unfold print_entry. simpl. destruct k as [|x k]; simpl in *; [done|].
  destruct (Hh x eq_refl) as (H1 & H2 & H3).
  by rewrite (proj2 (ceqb_ne x "#")), (proj2 (ceqb_ne x ";")), (proj2 (ceqb_ne x "[")).
Qed.

Lemma load_header_line c section s rest :
  load_lines c section (("[" ++ s ++ "]") :: rest) = load_lines c s rest.
Proof.
  cbn [load_lines].
  assert (trim ("[" ++ s ++ "]") = "[" ++ s ++ "]") as ->.
  { apply trim_id; intros c'; simpl; [by intros [= <-]|].
    change ("["%char :: ?x) with (["["%char] ++ x). rewrite !last_app. simpl. by intros [= <-]. }
  simpl. unfold back. change ("["%char :: s ++ ["]"%char]) with (("["%char :: s) ++ ["]"%char]).
  rewrite last_snoc. simpl. f_equal. rewrite length_app. simpl.
  replace (length s + 1 - 1)%nat with (length s) by lia. apply take_app_length.
Qed.

Lemma load_section c section s rest : ini_section s →
  load_lines c section (print_section s ++ rest) =
  load_lines (foldl add_entry c (section_entries s)) s.1 rest.
Proof.
  destruct s as [name kvs]. intros [_ Hkvs]. unfold print_section, section_entries. cbn [fst snd] in *.
  cbn [app]. rewrite load_header_line. revert c.
  induction Hkvs as [|[k v] kvs [Hk Hv] _ IH]; intros c; [done|].
  rewrite !fmap_cons. cbn [app foldl]. rewrite load_entry_line by done. apply IH.
Qed.

Lemma load_printed c cfg : Forall ini_section cfg →
  load_lines c [] (concat (print_section <$> cfg)) = (true, foldl add_entry c (entries cfg)).
Proof.
  assert (∀ section, Forall ini_section cfg →
    load_lines c section (concat (print_section <$> cfg)) = (true, foldl add_entry c (entries cfg))) as H; [|apply H].
  revert c. induction cfg as [|s cfg IH]; intros c section; [done|].
  intros [Hs Hcfg]%Forall_cons. rewrite fmap_cons. cbn [concat].
  rewrite load_section, IH by done. unfold entries. rewrite fmap_cons. cbn [concat]. by rewrite foldl_app.
Qed.

Lemma print_no_lf cfg : Forall ini_section cfg → Forall (λ l, LF ∉ l) (concat (print_section <$> cfg)).
Proof.
  intros H. rewrite Forall_concat, Forall_fmap. eapply Forall_impl; [exact H|].
  intros [name kvs] [Hn Hkvs]. simpl. constructor.
  - simpl in *. rewrite not_elem_of_cons, not_elem_of_app. split; [done|]. split; [done|].
    by apply (bool_decide_eq_true_1 _).
  - rewrite Forall_fmap. eapply Forall_impl; [exact Hkvs|]. intros [k v] [(_ & Hk & _) [_ Hv]].
    unfold print_entry. simpl in *. rewrite not_elem_of_app, not_elem_of_cons. by split_and!.
Qed.

(** ** The two stores *)

(** What the file's entries say about a key: the last assignment. *)
Definition last_value (es : list (bytes * bytes * bytes)) (q : bytes) : option bytes :=
  snd <$> last (filter (λ e : bytes * bytes * bytes, qualified e.1.1 e.1.2 = q) es).

Definition config_inv (c : Config) : Prop := ∀ q, data_ c !! q = last_value (raw_entries_ c) q.

Lemma add_entry_inv c e : config_inv c → config_inv (add_entry c e).
Proof.
  destruct e as [[s k] v]. intros Hc q. unfold add_entry, last_value. simpl.
  rewrite filter_app. destruct (decide (qualified s k = q)) as [<-|Hne].
  - rewrite filter_cons_True, last_app by done. by rewrite lookup_insert_eq.
  - rewrite filter_cons_False, app_nil_r, lookup_insert_ne by done. apply Hc.
Qed.

Lemma load_lines_inv c section ls : config_inv c → config_inv (load_lines c section ls).2.
Proof.
  revert c section. induction ls as [|l ls IH]; intros c section Hc; [done|].
  cbn [load_lines]. destruct (trim l) as [|x t]; [auto|].
  case_if; [auto|]. case_if; [case_if; auto|]. destruct (find_char _ _); [|done]. by apply IH, add_entry_inv.
Qed.

Lemma load_files_inv c fs : config_inv c → config_inv (load_files c fs).2.
Proof.
  revert c. induction fs as [|f fs IH]; intros c Hc; [done|]. cbn [load_files].
  assert (config_inv (load_file c (content f)).2) as Hf.
  { unfold load_file. destruct (content f); [by apply load_lines_inv|done]. }
  destruct (load_file c (content f)) as [[|] c']; [by apply IH|done].
Qed.

(** reading back a printed configuration succeeds and yields its entries in
    order, duplicates included, and [get] answers with the last value assigned
    to the key, or the default when there is none. *)
Lemma ini_roundtrip cfg :
  Forall ini_section cfg →
  ∃ c, load_file empty_config (Some (print_ini cfg)) = (true, c) ∧
    raw_entries_ c = entries cfg ∧
    ∀ section key def, get c section key def = default def (last_value (entries cfg) (qualified section key)).
Proof.
  intros H. exists (foldl add_entry empty_config (entries cfg)).
  assert (∀ es c, raw_entries_ (foldl add_entry c es) = raw_entries_ c ++ es) as Hraw.
  { induction es as [|[[s k] v] es IH]; intros c; simpl; [by rewrite app_nil_r|].
    rewrite IH. simpl. by rewrite <- app_assoc. }
  assert (∀ es c, config_inv c → config_inv (foldl add_entry c es)) as Hinv.
  { induction es as [|e es IH]; intros c Hc; simpl; [done|]. by apply IH, add_entry_inv. }
  split_and!.
  - unfold load_file, print_ini. rewrite split_lines by by apply print_no_lf. by apply load_printed.
  - by rewrite Hraw.
  - intros section key def. unfold get. rewrite Hinv by done. by rewrite Hraw.
Qed.

(** ** Directory order *)

Lemma str_ltb_total a b : str_ltb a b = false → str_ltb b a = false → a = b.
Proof.
  revert b. induction a as [|x a IH]; intros [|y b]; simpl; try done.
  destruct (code x <? code y) eqn:E1, (code y <? code x) eqn:E2; try done.
  bool_prop. intros. f_equal; [apply code_inj; lia|auto].
Qed.

Lemma str_ltb_sw : strict_weak str_ltb.
Proof.
  split.
  - induction a as [|x a IH]; simpl; [done|]. by rewrite Z.ltb_irrefl.
  - induction a as [|x a IH]; intros [|y b] [|z c]; simpl; try done.
    repeat case_if; bool_prop; try done; try lia. apply IH.
  - induction a as [|x a IH]; intros [|y b] [|z c]; simpl; try done.
    repeat case_if; bool_prop; try done; try lia. apply IH.
Qed.

Lemma name_ltb_sw : strict_weak name_ltb.
Proof.
  destruct str_ltb_sw as [H1 H2 H3]. unfold name_ltb.
  split; intros; [apply H1|eapply H2; eauto|eapply H3; eauto].
Qed.

Lemma scan_entries_spec es fs :
  scan_entries es = Some fs →
  fs = filter (λ e, is_regular e = Some true ∧ extension (filename e) = ".ini") es ∧
  Forall (λ e, is_regular e ≠ None) es.
Proof.
  revert fs. induction es as [|e es IH]; intros fs; simpl; [intros [= <-]; by split|].
  destruct (is_regular e) as [r|] eqn:Er; [|done].
  destruct (scan_entries es) as [gs|]; simpl; [|done]. intros [= <-].
  destruct (IH gs eq_refl) as [-> Hall]. split; [|constructor; congruence].
  destruct r; simpl; [|by rewrite filter_cons_False by naive_solver].
  destruct (beqb _ _) eqn:Eb; [apply beqb_eq in Eb|apply beqb_ne in Eb].
  - by rewrite filter_cons_True.
  - by rewrite filter_cons_False by naive_solver.
Qed.

Lemma scan_entries_None es : scan_entries es = None ↔ ∃ e, e ∈ es ∧ is_regular e = None.
Proof.
  induction es as [|e es IH]; simpl.
  { split; [done|]. by intros (? & ?%not_elem_of_nil & _). }
  setoid_rewrite elem_of_cons. destruct (is_regular e) eqn:E; [|naive_solver].
  destruct (scan_entries es); simpl; naive_solver.
Qed.

Lemma scan_entries_perm es1 es2 : es1 ≡ₚ es2 →
  match scan_entries es1, scan_entries es2 with
  | Some f1, Some f2 => f1 ≡ₚ f2
  | None, None => True
  | _, _ => False
  end.
Proof.
  intros Hp. destruct (scan_entries es1) as [f1|] eqn:E1, (scan_entries es2) as [f2|] eqn:E2; try done.
  - apply scan_entries_spec in E1 as [-> _], E2 as [-> _]. by rewrite Hp.
  - apply scan_entries_spec in E1 as [_ Hall]. apply scan_entries_None in E2 as (e & He & Hn).
    rewrite Forall_forall in Hall. apply (Hall e); [by rewrite Hp|done].
  - apply scan_entries_spec in E2 as [_ Hall]. apply scan_entries_None in E1 as (e & He & Hn).
    rewrite Forall_forall in Hall. apply (Hall e); [by rewrite <- Hp|done].
Qed.

Section directory.
Context `{StdSortLaws}.

(** Records with distinct names sorted by name do not depend on their order. *)
Lemma sort_keyed {A} (key : A → bytes) f1 f2 :
  NoDup (key <$> f1) → f1 ≡ₚ f2 →
  std_sort (λ a b, str_ltb (key a) (key b)) f1 = std_sort (λ a b, str_ltb (key a) (key b)) f2.
Proof.
  intros Hnd Hp. set (less := λ a b, str_ltb (key a) (key b)).
  assert (strict_weak less) as Hsw.
  { destruct str_ltb_sw as [H1 H2 H3]. split; intros; [apply H1|eapply H2; eauto|eapply H3; eauto]. }
  apply (sorted_perm_unique less).
  - intros a b. rewrite !(std_sort_perm _ _ Hsw). intros Ha Hb H1 H2.
    pose proof (str_ltb_total _ _ H1 H2) as Heq.
    apply list_elem_of_lookup in Ha as [i Hi], Hb as [j Hj].
    assert (i = j) as ->; [|congruence].
    eapply (NoDup_lookup (key <$> f1)); [done|..]; rewrite list_lookup_fmap; [by rewrite Hi|].
    rewrite Hj. simpl. by rewrite Heq.
  - by apply std_sort_sorted.
  - by apply std_sort_sorted.
  - by rewrite !(std_sort_perm _ _ Hsw).
Qed.

Lemma sort_names f1 f2 :
  NoDup (filename <$> f1) → f1 ≡ₚ f2 → std_sort name_ltb f1 = std_sort name_ltb f2.
Proof. apply (sort_keyed filename). Qed.

(** loading config.d does not depend on the order in which the file system
    lists its entries, and after loading, successful or not, every key maps to
    the last value assigned to it in the order of the file names. *)
Lemma config_load_deterministic c es1 es2 scan_ok :
  NoDup (filename <$> es1) → es1 ≡ₚ es2 → config_inv c →
  load c (Some es1) scan_ok = load c (Some es2) scan_ok ∧
  (∀ section key def, get (load c (Some es1) scan_ok).2 section key def =
     default def (last_value (raw_entries_ (load c (Some es1) scan_ok).2) (qualified section key))) ∧
  (∀ fs, scan_entries es1 = Some fs → scan_ok = true → fs ≠ [] →
     load c (Some es1) scan_ok = load_files c (std_sort name_ltb fs)).
Proof.
  intros Hnd Hp Hc. split_and!.
  - unfold load. pose proof (scan_entries_perm _ _ Hp) as Hs.
    destruct (scan_entries es1) as [f1|] eqn:E1, (scan_entries es2) as [f2|]; try done.
    destruct scan_ok; [|done]. simpl.
    assert (f1 = [] ↔ f2 = []) as Hnil.
    { split; intros ->; [by apply Permutation_nil|]. symmetry in Hs. by apply Permutation_nil. }
    rewrite (bool_decide_ext _ _ Hnil). case_if; [done|]. f_equal. apply sort_names; [|done].
    apply scan_entries_spec in E1 as [-> _]. clear -Hnd.
    induction es1 as [|e es IH]; [constructor|]. apply NoDup_cons in Hnd as [Hn Hnd].
    destruct (decide (is_regular e = Some true ∧ extension (filename e) = ".ini")) as [Hd|Hd].
    + rewrite filter_cons_True by done. simpl. constructor; [|by apply IH].
      contradict Hn. apply list_elem_of_fmap in Hn as (x & -> & Hx%list_elem_of_filter).
      apply list_elem_of_fmap. naive_solver.
    + rewrite filter_cons_False by done. by apply IH.
  - intros section key def. unfold get. f_equal. generalize (qualified section key) as q.
    change (config_inv (load c (Some es1) scan_ok).2). unfold load.
    destruct (scan_entries es1); [|done]. destruct scan_ok; [|done]. simpl.
    case_if; [done|]. by apply load_files_inv.
  - intros fs Hs -> Hne. unfold load. rewrite Hs. simpl. by rewrite bool_decide_eq_false_2.
Qed.

End directory.

(** ** Integers *)

Lemma scan_digits_spec s : ∃ d rest, s = d ++ rest ∧ Forall (λ c, isdigit c = true) d ∧
  (∀ v n, scan_digits v n s = (dec_number_from v d, (n + length d)%nat)).
Proof.
  induction s as [|c s IH]; simpl; [exists [], []; split_and!; auto with lia|].
  destruct (isdigit c) eqn:E.
  - destruct IH as (d & rest & -> & Hd & Hs). exists (c :: d), rest. split_and!; [done|by constructor|].
    intros v n. rewrite Hs. simpl. f_equal. lia.
  - exists [], (c :: s). split_and!; [done|constructor|]. intros v n. simpl. f_equal. lia.
Qed.

Lemma scan_digits_all d v n : Forall (λ c, isdigit c = true) d →
  scan_digits v n d = (dec_number_from v d, (n + length d)%nat).
Proof.
  intros Hd. revert v n. induction Hd as [|c d Hc Hd IH]; intros v n; simpl; [f_equal; lia|].
  rewrite Hc, IH. simpl. f_equal. lia.
Qed.

(** The decimal texts of an [int]. *)
Definition int_text (t : bytes) (v : Z) : Prop :=
  ∃ d, d ≠ [] ∧ Forall (λ c, isdigit c = true) d ∧ INT_MIN ≤ v ≤ INT_MAX ∧
    ((t = d ∧ v = dec_number d) ∨ (t = "-" ++ d ∧ v = - dec_number d)).

Lemma from_chars_int_spec t v : from_chars_int t = Some (v, length t) ↔ int_text t v.
Proof.
  unfold int_text. split.
  - unfold from_chars_int. destruct t as [|c u]; [done|].
    destruct (ceqb c "-") eqn:E.
    + apply ceqb_eq in E as ->. destruct (scan_digits_spec u) as (d & rest & -> & Hd & Hs).
      rewrite Hs. case_if; [done|]. case_if; [done|]. intros [= <- Hl]. bool_prop.
      simpl in Hl. rewrite length_app in Hl.
      assert (rest = []) as -> by (apply length_zero_iff_nil; lia).
      exists d. rewrite app_nil_r. split_and!; [by intros ->|done|lia|lia|by right].
    + destruct (scan_digits_spec (c :: u)) as (d & rest & Heq & Hd & Hs).
      rewrite Hs. case_if; [done|]. case_if; [done|]. intros [= <- Hl]. bool_prop.
      assert (length (c :: u) = length (d ++ rest)) as Hlen by congruence.
      rewrite length_app in Hlen. simpl in Hlen.
      assert (rest = []) as -> by (apply length_zero_iff_nil; lia).
      exists d. rewrite app_nil_r in Heq. split_and!; [by intros ->|done|lia|lia|by left].
  - intros (d & Hne & Hd & Hv & [[-> ->]|[-> ->]]); unfold from_chars_int.
    + destruct d as [|c d]; [done|]. replace (ceqb c "-") with false.
      * rewrite scan_digits_all by done. cbv zeta beta iota.
        unfold dec_number in *. rewrite bool_decide_eq_false_2 by (cbn [length]; lia).
        replace (_ <? _) with false by lia. replace (_ <? _) with false by lia.
        cbn [orb]. do 2 f_equal. lia.
      * symmetry. apply ceqb_ne. intros ->. by inversion Hd.
    + simpl. rewrite scan_digits_all by done. unfold dec_number in *.
      rewrite bool_decide_eq_false_2 by (destruct d; simpl; [done|lia]).
      replace (_ <? _) with false by lia. replace (_ <? _) with false by lia.
      cbn [orb]. do 2 f_equal. lia.
Qed.

(** An integer setting is read exactly: [get_int] answers the default when
    the key is unset, the value when the text is an optional minus sign and
    digits denoting an [int], and throws on every other text (blank, trailing
    characters, out of range). *)
Lemma get_int_correct c section key def v :
  get_int c section key def = Ret v ↔
  match data_ c !! qualified section key with
  | None => v = def
  | Some t => int_text t v
  end.
Proof.
  unfold get_int. destruct (data_ c !! _) as [t|]; [|naive_solver].
  rewrite <- from_chars_int_spec. destruct (from_chars_int t) as [[p used]|] eqn:E; [|done].
  destruct (beqb t []) eqn:Et; simpl.
  { apply beqb_eq in Et as ->. by vm_compute in E. }
  case_bool_decide; simpl; naive_solver.
Qed.

(** ** Examples *)

Definition sample_ini : list (bytes * list (bytes * bytes)) :=
  [("server" : bytes, [("port" : bytes, "8080" : bytes); ("port" : bytes, "-9" : bytes)])].

Lemma ini_roundtrip_witness :
  ∃ c, load_file empty_config (Some (print_ini sample_ini)) = (true, c) ∧
    raw_entries_ c = entries sample_ini ∧
    ∀ section key def, get c section key def = default def (last_value (entries sample_ini) (qualified section key)).
Proof.
  apply (ini_roundtrip sample_ini).
  repeat constructor; try reflexivity;
    try (apply (bool_decide_eq_true_1 _); vm_compute; reflexivity);
    simpl in *; intros; simplify_eq/=; discriminate.
Defined.

Definition sample_dir : list dir_entry :=
  [mkEntry "99-local.ini" (Some true) (Some ("[server]" ++ [LF] ++ "port = 81" ++ [CR; LF]));
   mkEntry "README" (Some true) None;
   mkEntry "00-base.ini" (Some true) (Some ("# base" ++ [LF] ++ "[server]" ++ [LF] ++ "port=80"))].

Lemma config_load_deterministic_witness :
  @load insertion_sort empty_config (Some sample_dir) true =
    @load insertion_sort empty_config (Some (reverse sample_dir)) true ∧
  get_int (@load insertion_sort empty_config (Some sample_dir) true).2 "server" "port" 1 = Ret 81.
Proof.
  split; [|vm_compute; reflexivity].
  refine (proj1 (@config_load_deterministic insertion_sort insertion_sort_laws empty_config
           sample_dir (reverse sample_dir) true _ _ _)).
  - apply (bool_decide_eq_true_1 _). vm_compute. reflexivity.
  - by rewrite reverse_Permutation.
  - intros q. reflexivity.
Defined.
