(* ===== verification/Doubles.v ===== *)
(** * The type [double]

    The rate limiter and its configuration compute with [double].  The
    operations they use are the class [Double]; its instance [binary64] is the
    IEEE format, executable through the integer specification of the standard
    library, and [exact] is arithmetic without rounding, in which the
    quantitative bounds of the sequential buckets are stated.  [DoubleLaws] collects the order facts the
    invariants need; they hold with and without rounding, and are proved for
    [exact]. *)

From Stdlib Require Import QArith Qround Lqa.
From Stdlib Require Import Floats.SpecFloat.
From S2P Require Import Prelude.

Class Double := {
  double : Type;
  d_of_Z : Z → double;              (** [static_cast<double>(int64_t)] and literals *)
  d_leb : double → double → bool;
  d_ltb : double → double → bool;
  d_add : double → double → double;
  d_sub : double → double → double;
  d_mul : double → double → double;
  d_div : double → double → double;
  d_ceil : double → Z;              (** [static_cast<int>(std::ceil(x))] *)
  d_trunc : double → Z              (** [static_cast<int64_t>(x)] *)
}.

(** [std::min(a, b)] returns [b] only when it is smaller. *)
Definition d_min `{Double} (a b : double) : double := if d_ltb b a then b else a.

(** What the bucket invariants rely on: the order of non-NaN values, and that
    rounding is monotone. *)
Class DoubleLaws `{Double} := {
  d_finite : double → Prop;
  d_le_refl a : d_finite a → d_leb a a = true;
  d_le_trans a b c : d_leb a b = true → d_leb b c = true → d_leb a c = true;
  d_lt_le a b : d_ltb a b = true → d_leb a b = true;
  d_zero_one : d_leb (d_of_Z 0) (d_of_Z 1) = true;
  d_sub_one a : d_leb (d_of_Z 1) a = true →
    d_leb (d_of_Z 0) (d_sub a (d_of_Z 1)) = true ∧ d_leb (d_sub a (d_of_Z 1)) a = true;
  d_refill_nonneg t e rate :
    d_leb (d_of_Z 0) t = true → 0 ≤ e < 2 ^ 53 → d_finite rate → d_leb (d_of_Z 0) rate = true →
    d_leb (d_of_Z 0) (d_add t (d_div (d_mul (d_of_Z e) rate) (d_of_Z 1000))) = true
}.

(** ** Without rounding *)

Definition exact : Double := {|
  double := Q;
  d_of_Z := inject_Z;
  d_leb := Qle_bool;
  d_ltb a b := negb (Qle_bool b a);
  d_add := Qplus;
  d_sub := Qminus;
  d_mul := Qmult;
  d_div := Qdiv;
  d_ceil := Qceiling;
  d_trunc q := if Qle_bool 0 q then Qfloor q else Qceiling q
|}.

Lemma exact_ltb (a b : Q) : @d_ltb exact a b = true ↔ (a < b)%Q.
Proof.
  simpl. rewrite negb_true_iff, <- not_true_iff_false, Qle_bool_iff. split; [apply Qnot_le_lt|].
  intros H. by apply Qlt_not_le.
Qed.

Lemma exact_leb (a b : Q) : @d_leb exact a b = true ↔ (a <= b)%Q.
Proof. simpl. apply Qle_bool_iff. Qed.

Lemma exact_leb_false (a b : Q) : @d_leb exact a b = false ↔ (b < a)%Q.
Proof.
  rewrite <- not_true_iff_false, exact_leb. split; [apply Qnot_le_lt|]. intros H. by apply Qlt_not_le.
Qed.

Lemma exact_min (a b : Q) :
  (@d_min exact a b <= a)%Q ∧ (@d_min exact a b <= b)%Q ∧
  (@d_min exact a b == a ∨ @d_min exact a b == b)%Q.
Proof.
  unfold d_min. destruct (@d_ltb exact b a) eqn:E.
  - apply exact_ltb in E. split_and!; [lra|lra|right; reflexivity].
  - apply not_true_iff_false in E. rewrite exact_ltb in E. split_and!; [lra|lra|left; reflexivity].
Qed.

(** Truncating a non-negative number. *)
Lemma exact_trunc (q : Q) : (0 <= q)%Q →
  0 ≤ @d_trunc exact q ∧ (inject_Z (@d_trunc exact q) <= q)%Q.
Proof.
  intros Hq. change (@d_trunc exact q) with (if Qle_bool 0 q then Qfloor q else Qceiling q).
  rewrite (proj2 (Qle_bool_iff _ _) Hq). split; [|apply Qfloor_le].
  rewrite <- (Qfloor_Z 0). by apply Qfloor_resp_le.
Qed.

#[export] Instance exact_laws : @DoubleLaws exact.
Proof.
  refine {| d_finite := λ _ : @double exact, True |}.
  - intros a _. apply exact_leb. lra.
  - intros a b c. rewrite !exact_leb. intros. lra.
  - intros a b. rewrite exact_leb, exact_ltb. intros. lra.
  - reflexivity.
  - intros a. rewrite !exact_leb. simpl. unfold inject_Z. intros. lra.
  - intros t e rate. rewrite !exact_leb. simpl. intros Ht He _ Hr.
    assert (0 <= inject_Z e)%Q as He' by (change 0%Q with (inject_Z 0); rewrite <- Zle_Qle; lia).
    pose proof (Qmult_le_0_compat _ _ He' Hr) as Hm.
    pose proof (Qmult_le_0_compat _ (/ inject_Z 1000) Hm ltac:(by compute)) as Hd.
    unfold Qdiv. change (inject_Z 0) with 0%Q in *. lra.
Defined.

(** ** IEEE binary64 *)

Module Binary64.

Definition prec : Z := 53.
Definition emax : Z := 1024.

Definition of_Z (z : Z) : spec_float := binary_normalize prec emax z 0 false.

(** [floor] and [ceil] of a finite number as an integer; 0 for the others,
    where the C++ cast is undefined. *)
Definition to_floor (x : spec_float) : Z :=
  match x with
  | S754_finite s m e =>
      let v := if s then Z.neg m else Z.pos m in
      if 0 <=? e then v * 2 ^ e else v / 2 ^ (- e)
  | _ => 0
  end.
Definition to_ceil (x : spec_float) : Z :=
  match x with
  | S754_finite s m e => - to_floor (S754_finite (negb s) m e)
  | _ => 0
  end.

Definition leb (a b : spec_float) : bool := SFleb a b.
Definition ltb (a b : spec_float) : bool := SFltb a b.

End Binary64.

Definition binary64 : Double := {|
  double := spec_float;
  d_of_Z := Binary64.of_Z;
  d_leb := Binary64.leb;
  d_ltb := Binary64.ltb;
  d_add := SFadd Binary64.prec Binary64.emax;
  d_sub := SFsub Binary64.prec Binary64.emax;
  d_mul := SFmul Binary64.prec Binary64.emax;
  d_div := SFdiv Binary64.prec Binary64.emax;
  d_ceil := Binary64.to_ceil;
  d_trunc x := if Binary64.leb (Binary64.of_Z 0) x then Binary64.to_floor x else Binary64.to_ceil x
|}.

Example binary64_runs :
  @d_ceil binary64 (@d_div binary64 (@d_of_Z binary64 1000) (@d_of_Z binary64 30)) = 34.
Proof. vm_compute. reflexivity. Qed.
