(* ===== verification/Rounding.v ===== *)
(** * How far a product in binary64 can exceed the exact one

    The limiter multiplies a time by a rate and truncates.  The class [Double] of
    the previous file is instantiated by the integer specification of IEEE
    binary64; here a positive number of that format is given its rational value,
    and rounding to nearest, the conversion of an integer, the product and the
    truncation are shown to exceed the exact result by a factor of at most
    1 + 2^-52 each, and not to overflow. *)

From Stdlib Require Import QArith Qpower Qround Lqa.
From Stdlib Require Import Floats.SpecFloat.
From S2P Require Import Prelude Doubles.

(** ** Values *)

Definition pow2 (e : Z) : Q := Qpower (inject_Z 2) e.
Definition val (m e : Z) : Q := (inject_Z m * pow2 e)%Q.

(** A non-negative finite number and its value. *)
Definition represents (x : spec_float) (q : Q) : Prop :=
  match x with
  | S754_zero false => (q == 0)%Q
  | S754_finite false m e => (q == val (Z.pos m) e)%Q
  | _ => False
  end.

(** One rounding: the unit is 2^-52. *)
Definition grow : Q := (1 + pow2 (-52))%Q.

Lemma pow2_add a b : (pow2 (a + b) == pow2 a * pow2 b)%Q.
Proof. by apply Qpower_plus. Qed.

Lemma pow2_pos e : (0 < pow2 e)%Q.
Proof. by apply Qpower_0_lt. Qed.

Lemma pow2_Z n : 0 ≤ n → (pow2 n == inject_Z (2 ^ n))%Q.
Proof. intros Hn. unfold pow2. by rewrite Zpower_Qpower. Qed.

Lemma pow2_le a b : a ≤ b → (pow2 a <= pow2 b)%Q.
Proof. intros Hab. by apply Qpower_le_compat_l. Qed.

Lemma val_le m m' e : m ≤ m' → (val m e <= val m' e)%Q.
Proof. intros Hm. unfold val. apply Qmult_le_compat_r; [by rewrite <- Zle_Qle|apply Qlt_le_weak, pow2_pos]. Qed.

Lemma val_pow2 k e : 0 ≤ k → (val (2 ^ k) e == pow2 (k + e))%Q.
Proof. intros Hk. unfold val. by rewrite <- pow2_Z, pow2_add. Qed.

Lemma val_mul m m' e e' : (val (m * m') (e + e') == val m e * val m' e')%Q.
Proof. unfold val. rewrite inject_Z_mult, pow2_add. ring. Qed.

(** The same number with a longer mantissa. *)
Lemma val_shift m e k : 0 ≤ k → (val m (e + k) == val (m * 2 ^ k) e)%Q.
Proof. intros Hk. unfold val. rewrite inject_Z_mult, <- pow2_Z, pow2_add by done. ring. Qed.

Lemma val_floor m e k : 0 ≤ k → (val (m / 2 ^ k) (e + k) <= val m e)%Q.
Proof.
  intros Hk. rewrite val_shift by done. apply val_le. rewrite Z.mul_comm. apply Z.mul_div_le. by apply Z.pow_pos_nonneg.
Qed.

Lemma val_succ m e : (val (m + 1) e == val m e + pow2 e)%Q.
Proof. unfold val. rewrite inject_Z_plus. change (inject_Z 1) with 1%Q. ring. Qed.

Lemma val_nonneg m e : 0 ≤ m → (0 <= val m e)%Q.
Proof.
  intros Hm. unfold val. apply Qmult_le_0_compat; [|apply Qlt_le_weak, pow2_pos]. change 0%Q with (inject_Z 0). by rewrite <- Zle_Qle.
Qed.

Lemma grow_range : (1 <= grow)%Q ∧ (grow <= 2)%Q.
Proof. split; by compute. Qed.

Lemma grow_twice q : (0 <= q)%Q → (q * grow <= 2 * q)%Q.
Proof. intros Hq. rewrite (Qmult_comm 2). rewrite !(Qmult_comm q). apply Qmult_le_compat_r; [apply grow_range|done]. Qed.

Lemma grow_more q : (0 <= q)%Q → (q <= q * grow)%Q.
Proof. intros Hq. rewrite <- (Qmult_1_l q) at 1. rewrite !(Qmult_comm _ q), (Qmult_comm q 1), (Qmult_comm q grow). apply Qmult_le_compat_r; [apply grow_range|done]. Qed.

(** ** Shifting and rounding *)

Lemma digits_range m : 0 < m → 1 ≤ Zdigits2 m ∧ 2 ^ (Zdigits2 m - 1) ≤ m < 2 ^ Zdigits2 m.
Proof.
  destruct m as [|m|m]; try lia. intros _. cbn [Zdigits2]. induction m as [m IH|m IH|]; cbn [digits2_pos]; [..|cbn; lia];
    rewrite Pos2Z.inj_succ; replace (Z.succ _ - 1) with (Z.succ (Z.pos (digits2_pos m) - 1)) by lia;
    rewrite !Z.pow_succ_r by lia; lia.
Qed.

Lemma shr_1_m r : 0 ≤ shr_m r → shr_m (shr_1 r) = shr_m r / 2.
Proof. destruct r as [m rb sb]. cbn [shr_m]. intros Hm. destruct m as [|[p|p|]|]; cbn -[Z.div]; try lia; Z.to_euclidean_division_equations; lia. Qed.

Lemma iter_shr_m p r : 0 ≤ shr_m r → shr_m (SpecFloat.iter_pos shr_1 p r) = shr_m r / 2 ^ Z.pos p.
Proof.
  revert r. assert (∀ m k : Z, 0 ≤ m → 0 < k → 0 ≤ m / k) as Hn by (intros; by apply Z.div_pos).
  assert (∀ k : positive, 0 < 2 ^ Z.pos k) as Hk by (intros k; by apply Z.pow_pos_nonneg).
  induction p as [p IH|p IH|]; intros r Hr; cbn [SpecFloat.iter_pos]; [..|by rewrite shr_1_m].
  - assert (0 ≤ shr_m (shr_1 r)) as H1 by (rewrite shr_1_m by done; by apply Hn).
    rewrite (IH (SpecFloat.iter_pos shr_1 p (shr_1 r))), (IH (shr_1 r)), shr_1_m; [|done|done|rewrite IH by done; auto].
    rewrite !Z.div_div by auto with lia. f_equal. replace (Z.pos p~1) with (Z.pos p + Z.pos p + 1) by lia. rewrite !Z.pow_add_r by lia. ring.
  - rewrite (IH (SpecFloat.iter_pos shr_1 p r)), (IH r); [|done|rewrite IH by done; auto].
    rewrite Z.div_div by auto with lia. f_equal. replace (Z.pos p~0) with (Z.pos p + Z.pos p) by lia. by rewrite Z.pow_add_r by lia.
Qed.

Abbreviation exponent m e := (fexp Binary64.prec Binary64.emax (Zdigits2 m + e)).

(** Bringing a mantissa to the format drops the bits below. *)
Lemma shr_fexp_spec m e : 0 ≤ m →
  let '(r, e') := shr_fexp Binary64.prec Binary64.emax m e loc_Exact in
  e' = Z.max e (exponent m e) ∧ shr_m r = m / 2 ^ (e' - e).
Proof.
  intros Hm. unfold shr_fexp, shr. cbn [shr_record_of_loc]. destruct (exponent m e - e) as [|p|p] eqn:E.
  - split; [lia|]. by rewrite Z.sub_diag, Z.div_1_r.
  - split; [lia|]. rewrite iter_shr_m by done. cbn [shr_m]. f_equal. f_equal. lia.
  - split; [lia|]. by rewrite Z.sub_diag, Z.div_1_r.
Qed.

Lemma nearest_le m l : m ≤ round_nearest_even m l ≤ m + 1.
Proof. destruct l as [|[]]; cbn; try lia. destruct (Z.even m); lia. Qed.

(** The first shift and the rounding: what is added is at most a unit of the last
    place, which is small beside the number unless the number is tiny. *)
Lemma nearest_value m e r e' : 0 < m → shr_fexp Binary64.prec Binary64.emax m e loc_Exact = (r, e') →
  let m' := round_nearest_even (shr_m r) (loc_of_shr_record r) in
  0 ≤ m' ∧ ((val m' e' <= val m e * grow)%Q ∨ (val m' e' <= 1 # 2)%Q).
Proof.
  intros Hm Hs m'. pose proof (shr_fexp_spec m e ltac:(lia)) as Hr. rewrite Hs in Hr. destruct Hr as [He Hr].
  destruct (digits_range m Hm) as [Hd Hm2].
  pose proof (nearest_le (shr_m r) (loc_of_shr_record r)) as Hn. fold m' in Hn.
  assert (0 ≤ shr_m r) as H0 by (rewrite Hr; apply Z.div_pos; [lia|apply Z.pow_pos_nonneg; lia]).
  split; [lia|]. assert (val (shr_m r) e' <= val m e)%Q as Hfl.
  { rewrite Hr. replace e' with (e + (e' - e)) at 2 by lia. apply val_floor. lia. }
  assert (val m' e' <= val m e + pow2 e')%Q as Hup.
  { eapply Qle_trans; [apply (val_le _ (shr_m r + 1)); lia|]. rewrite val_succ. lra. }
  destruct (decide (e' = e)) as [Hee|Hee].
  { left. assert (shr_m r = m) as Hmm by (rewrite Hr, Hee, Z.sub_diag, Z.div_1_r; done).
    assert (m' = m) as ->; [|rewrite Hee; apply grow_more, val_nonneg; lia].
    unfold m'. rewrite Hmm. unfold shr_fexp, shr in Hs. destruct (exponent m e - e) eqn:E; [|lia|]; injection Hs as <- _; done. }
  unfold fexp, emin, Binary64.prec, Binary64.emax in He.
  assert (pow2 (Zdigits2 m - 1 + e) <= val m e)%Q as Hlow by (rewrite <- val_pow2 by lia; apply val_le; lia).
  destruct (decide (e' = Zdigits2 m + e - 53)) as [Hnorm|Hsub].
  - left. assert (val m e * grow == val m e + val m e * pow2 (-52))%Q as -> by (unfold grow; ring). assert (pow2 e' == pow2 (Zdigits2 m - 1 + e) * pow2 (-52))%Q as Hp.
    { rewrite <- pow2_add. replace (Zdigits2 m - 1 + e + -52) with e' by lia. reflexivity. }
    assert (pow2 (Zdigits2 m - 1 + e) * pow2 (-52) <= val m e * pow2 (-52))%Q by (apply Qmult_le_compat_r; [done|apply Qlt_le_weak, pow2_pos]).
    lra.
  - right. assert (val m e <= pow2 (-3))%Q as Ht.
    { eapply Qle_trans; [apply (val_le _ (2 ^ Zdigits2 m)); lia|]. rewrite val_pow2 by lia. apply pow2_le. lia. }
    assert (pow2 e' <= pow2 (-3))%Q as Ht' by (apply pow2_le; lia). assert (pow2 (-3) == 1 # 8)%Q by (vm_compute; reflexivity). lra.
Qed.

(** Rounding a positive number below 2^900. *)
Lemma round_represents m e : 0 < m → (val m e <= pow2 900)%Q →
  ∃ q, represents (binary_round_aux Binary64.prec Binary64.emax false m e loc_Exact) q ∧ (0 <= q)%Q ∧
    ((q <= val m e * grow)%Q ∨ (q <= 1 # 2)%Q).
Proof.
  intros Hm Hb. unfold binary_round_aux. destruct (shr_fexp _ _ m e loc_Exact) as [r e'] eqn:Hs.
  destruct (nearest_value m e r e' Hm Hs) as [Hm' Hv]. cbv zeta in Hm', Hv.
  set (m' := round_nearest_even _ _) in *. pose proof (shr_fexp_spec m' e' Hm') as Hr.
  destruct (shr_fexp _ _ m' e' loc_Exact) as [r2 e2]. destruct Hr as [He Hr2].
  assert (0 ≤ shr_m r2) as H0 by (rewrite Hr2; apply Z.div_pos; [lia|apply Z.pow_pos_nonneg; lia]).
  assert (val (shr_m r2) e2 <= val m' e')%Q as Hfl.
  { rewrite Hr2. replace e2 with (e' + (e2 - e')) at 2 by lia. apply val_floor. lia. }
  assert (0 <= val (shr_m r2) e2)%Q as Hnn.
  { by apply val_nonneg. }
  assert (val m' e' <= pow2 901)%Q as Hbig.
  { assert (pow2 901 == 2 * pow2 900)%Q as -> by (vm_compute; reflexivity). assert (1 <= pow2 900)%Q by by apply (pow2_le 0).
    destruct Hv as [Hv|Hv]; [|lra]. eapply Qle_trans; [exact Hv|]. eapply Qle_trans; [apply grow_twice, val_nonneg; lia|]. lra. }
  exists (val (shr_m r2) e2). split; [|split; [done|destruct Hv as [Hv|Hv]; [left|right]; lra]].
  destruct (shr_m r2) as [|p|p] eqn:Hp; [|destruct (Z.leb_spec e2 (Binary64.emax - Binary64.prec)); [reflexivity|]|lia].
  { cbn. unfold val. change (inject_Z 0) with 0%Q. lra. }
  exfalso. cut (pow2 902 <= val m' e')%Q.
  { intros H9. assert (pow2 902 == 2 * pow2 901)%Q as E9 by (vm_compute; reflexivity). rewrite E9 in H9. pose proof (pow2_pos 901). lra. }
  assert (pow2 902 <= pow2 e2)%Q as H9 by (apply pow2_le; unfold Binary64.emax, Binary64.prec in *; lia).
  eapply Qle_trans; [exact H9|]. eapply Qle_trans; [|exact Hfl]. unfold val.
  assert (1 <= inject_Z (Z.pos p))%Q as H1 by (change 1%Q with (inject_Z 1); rewrite <- Zle_Qle; lia).
  pose proof (pow2_pos e2) as H2. apply (Qmult_le_compat_r _ _ (pow2 e2)) in H1; [|by apply Qlt_le_weak]. lra.
Qed.

(** ** Conversion, product, truncation *)

Lemma iter_double d m : Z.pos (Pos.iter xO m d) = Z.pos m * 2 ^ Z.pos d.
Proof.
  revert m. induction d as [|d IH] using Pos.peano_ind; intros m; [cbn; lia|].
  rewrite Pos.iter_succ, Pos2Z.inj_xO, IH, Pos2Z.inj_succ, Z.pow_succ_r by lia. ring.
Qed.

(** [static_cast<double>] of a positive integer. *)
Lemma of_Z_represents n : 0 < n → (inject_Z n <= pow2 900)%Q →
  ∃ q, represents (Binary64.of_Z n) q ∧ (0 <= q)%Q ∧ (q <= inject_Z n * grow)%Q.
Proof.
  intros Hn Hb. destruct n as [|n|n]; try lia. unfold Binary64.of_Z, binary_normalize, binary_round.
  assert (∃ m e, shl_align n 0 (fexp Binary64.prec Binary64.emax (Z.pos (digits2_pos n) + 0)) = (m, e) ∧ (val (Z.pos m) e == inject_Z (Z.pos n))%Q)
    as (m & e & -> & Hv).
  { unfold shl_align. assert (val (Z.pos n) 0 == inject_Z (Z.pos n))%Q as Hv by (unfold val; change (pow2 0) with 1%Q; ring).
    destruct (_ - 0) as [|d|d] eqn:E; [by exists n, 0..|]. exists (Pos.iter xO n d). eexists. split; [reflexivity|].
    rewrite <- Hv, iter_double. rewrite <- val_shift by done. replace (fexp _ _ _ + Z.pos d) with 0 by lia. reflexivity. }
  destruct (round_represents (Z.pos m) e) as (q & Hq & H0 & Hle); [done|by rewrite Hv|]. exists q. split; [done|]. split; [done|].
  rewrite Hv in Hle. destruct Hle as [Hle|Hle]; [done|]. assert (1 <= inject_Z (Z.pos n))%Q as H1.
  { change 1%Q with (inject_Z 1). rewrite <- Zle_Qle. lia. }
  pose proof (grow_more (inject_Z (Z.pos n)) ltac:(lra)). lra.
Qed.

Lemma mul_represents x y qx qy : represents x qx → represents y qy → (qx * qy <= pow2 900)%Q →
  ∃ q, represents (@d_mul binary64 x y) q ∧ (0 <= q)%Q ∧ ((q <= qx * qy * grow)%Q ∨ (q <= 1 # 2)%Q).
Proof.
  intros Hx Hy Hb.
  destruct x as [[]|[]| |[] mx ex], y as [[]|[]| |[] my ey]; try done; cbn [represents] in Hx, Hy;
    try (exists 0%Q; split; [reflexivity|]; split; [lra|by right]).
  assert (qx * qy == val (Z.pos mx * Z.pos my) (ex + ey))%Q as E by by rewrite Hx, Hy, val_mul.
  destruct (round_represents (Z.pos mx * Z.pos my) (ex + ey)) as (q & Hq & H0 & Hle); [lia|by rewrite <- E|].
  exists q. split; [exact Hq|]. split; [done|]. by rewrite <- E in Hle.
Qed.

(** [static_cast<int64_t>] rounds down. *)
Lemma trunc_represents x q : represents x q →
  0 ≤ @d_trunc binary64 x ∧ (inject_Z (@d_trunc binary64 x) <= q)%Q.
Proof.
  destruct x as [[]|[]| |[] m e]; try done; cbn [represents]; intros Hq; cbn [d_trunc binary64].
  - cbn. split; [lia|]. change (inject_Z 0) with 0%Q. lra.
  - change (Binary64.leb (Binary64.of_Z 0) (S754_finite false m e)) with true. cbn [Binary64.to_floor]. destruct (Z.leb_spec 0 e) as [He|He].
    + split; [apply Z.mul_nonneg_nonneg; [lia|by apply Z.pow_nonneg]|]. rewrite Hq. unfold val. rewrite inject_Z_mult, pow2_Z by done. lra.
    + split; [apply Z.div_pos; [lia|apply Z.pow_pos_nonneg; lia]|]. rewrite Hq.
      assert (inject_Z (Z.pos m / 2 ^ - e) == val (Z.pos m / 2 ^ - e) (e + - e))%Q as ->; [|apply val_floor; lia].
      replace (e + - e) with 0 by lia. unfold val. change (pow2 0) with 1%Q. ring.
Qed.

Lemma represents_nonneg x q : represents x q → (0 <= q)%Q.
Proof. destruct x as [[]|[]| |[] m e]; try done; cbn; intros ->; [lra|by apply val_nonneg]. Qed.

(** The truncated product of a time and a rate. *)
Lemma truncated_product n rate r : 0 < n → represents rate r → (inject_Z n * r <= pow2 100)%Q → (inject_Z n <= pow2 100)%Q →
  let p := @d_mul binary64 (@d_of_Z binary64 n) rate in
  (∃ q, represents p q) ∧ 0 ≤ @d_trunc binary64 p ∧ (inject_Z (@d_trunc binary64 p) <= inject_Z n * r * (grow * grow))%Q.
Proof.
  intros Hn Hr Hb Hnb. assert (0 <= r)%Q as Hr0 by by apply (represents_nonneg rate).
  assert (0 <= inject_Z n)%Q as Hn0 by (change 0%Q with (inject_Z 0); rewrite <- Zle_Qle; lia).
  assert (pow2 101 == 2 * pow2 100)%Q as H101 by (vm_compute; reflexivity).
  assert (pow2 101 <= pow2 900)%Q as H900 by by apply pow2_le. pose proof (pow2_pos 100) as Hp.
  destruct (of_Z_represents n Hn) as (qn & Hqn & Hqn0 & Hqle); [lra|].
  assert (qn * r <= inject_Z n * r * grow)%Q as Hprod.
  { eapply Qle_trans; [apply Qmult_le_compat_r; [exact Hqle|done]|]. rewrite <- !Qmult_assoc, (Qmult_comm grow). apply Qle_refl. }
  pose proof (grow_twice (inject_Z n * r) ltac:(by apply Qmult_le_0_compat)) as Htw.
  destruct (mul_represents _ _ _ _ Hqn Hr) as (q & Hq & Hq0 & Hle); [lra|]. cbv zeta. split; [by exists q|].
  change (@d_mul binary64) with (SFmul Binary64.prec Binary64.emax) in *. change (@d_of_Z binary64 n) with (Binary64.of_Z n).
  destruct (trunc_represents _ _ Hq) as [Ht0 Ht]. split; [done|]. destruct Hle as [Hle|Hle].
  - eapply Qle_trans; [exact Ht|]. eapply Qle_trans; [exact Hle|]. rewrite (Qmult_assoc _ grow grow). apply Qmult_le_compat_r; [done|].
    apply Qle_trans with 1%Q; [by compute|apply grow_range].
  - assert (@d_trunc binary64 (SFmul Binary64.prec Binary64.emax (Binary64.of_Z n) rate) = 0) as ->.
    { apply Z.le_antisymm; [|done]. apply Z.lt_succ_r. rewrite Zlt_Qlt. change (inject_Z (Z.succ 0)) with 1%Q. lra. }
    apply Qmult_le_0_compat; [by apply Qmult_le_0_compat|by compute].
Qed.
