(* ===== verification/RateLimiter.v ===== *)
(** * Rate limiting (src/src/security/rate_limiter.hpp)

    Token buckets, the 32 mutex-protected LRU shards and the multi-dimension
    check.  Each locked operation is one function on the state; the clock
    reading of a call is its argument [now].  [None] stands for undefined
    behaviour ([back] of an empty list, a dangling bucket reference): the
    theorems show that it never happens, that a shard is an LRU cache of bounded
    size whose newest entry is the one in use, and that a bucket admits at most
    its burst plus the configured rate over every window.  The lock-free global
    bucket is in GlobalBucket.v, persistence in RateSnapshot.v. *)

From Stdlib Require Import QArith Qminmax Lqa.
From S2P Require Import Prelude Doubles PathRules.

Record Decision := mkDecision { allowed : bool; retry_after_ms : Z }.

(** [std::hash<std::string>]. *)
Class StdHash := std_hash : bytes → Z.

Definition kShards : nat := 32.

Section model.
Context `{Double}.

(** ** Token bucket *)

Record TokenBucket := mkBucket { last_refill_ms : Z; tokens : double }.

Definition bucket0 : TokenBucket := mkBucket 0 (d_of_Z 0).

Definition allow (now : Z) (b : TokenBucket) (rate burst : double) : Decision * TokenBucket :=
  if d_leb rate (d_of_Z 0) then (mkDecision true 0, b)
  else
    let elapsed := now - last_refill_ms b in
    let t := d_min burst (d_add (tokens b) (d_div (d_mul (d_of_Z elapsed) rate) (d_of_Z 1000))) in
    if d_leb (d_of_Z 1) t then (mkDecision true 0, mkBucket now (d_sub t (d_of_Z 1)))
    else
      (mkDecision false (d_ceil (d_mul (d_div (d_sub (d_of_Z 1) t) rate) (d_of_Z 1000))),
       mkBucket now t).

(** ** Global bucket, one call at a time *)

Record GlobalBucket := mkGlobal { tokens_milli : Z; g_last_refill_ms : Z }.

Definition global0 : GlobalBucket := mkGlobal 0 0.

Definition check_global (now : Z) (g : GlobalBucket) (rate burst : double) : Decision * GlobalBucket :=
  if d_leb rate (d_of_Z 0) then (mkDecision true 0, g)
  else
    let elapsed := now - g_last_refill_ms g in
    let g1 :=
      if 0 <? elapsed then
        let add_milli := d_trunc (d_mul (d_of_Z elapsed) rate) in
        let burst_milli := d_trunc (d_mul burst (d_of_Z 1000)) in
        mkGlobal (Z.min burst_milli (tokens_milli g + add_milli)) now
      else g in
    let before := tokens_milli g1 in
    if 1000 <=? before then (mkDecision true 0, mkGlobal (before - 1000) (g_last_refill_ms g1))
    else (mkDecision false (d_ceil (d_div (d_of_Z 1000) rate)),
          mkGlobal (before - 1000 + 1000) (g_last_refill_ms g1)).

(** ** Shards

    [lru_list] is a linked list; its nodes have identities, which [lru_index]
    stores as iterators. *)
Record Shard := mkShard {
  buckets : gmap bytes TokenBucket;
  lru_list : list (nat * bytes);
  lru_index : gmap bytes nat;
  next_node : nat
}.

Definition shard0 : Shard := mkShard ∅ [] ∅ 0.

Definition lru_touch (s : Shard) (key : bytes) : Shard :=
  let l := match lru_index s !! key with
           | Some it => filter (λ n : nat * bytes, n.1 ≠ it) (lru_list s)
           | None => lru_list s
           end in
  mkShard (buckets s) ((next_node s, key) :: l) (<[key := next_node s]> (lru_index s)) (S (next_node s)).

(** The loop runs at most once per list node; [back] of an empty list is
    undefined. *)
Fixpoint evict_loop (nodes : nat) (max_buckets : Z) (s : Shard) : option Shard :=
  if max_buckets <? Z.of_nat (size (buckets s)) then
    match nodes, last (lru_list s) with
    | S n, Some (_, lru_key) =>
        evict_loop n max_buckets
          (mkShard (delete lru_key (buckets s)) (take (length (lru_list s) - 1) (lru_list s))
                   (delete lru_key (lru_index s)) (next_node s))
    | _, _ => None
    end
  else Some s.

Definition evict_if_needed (max_buckets : Z) (s : Shard) : option Shard :=
  evict_loop (length (lru_list s)) max_buckets s.

(** [s.buckets[key]] creates the bucket when it is missing. *)
Definition ensure_bucket (s : Shard) (key : bytes) : Shard :=
  match buckets s !! key with
  | Some _ => s
  | None => mkShard (<[key := bucket0]> (buckets s)) (lru_list s) (lru_index s) (next_node s)
  end.

(** [check] under the shard's lock. *)
Definition check_shard (max_buckets now : Z) (s : Shard) (key : bytes) (rate burst : double) :
    option (Decision * Shard) :=
  let s1 := lru_touch (ensure_bucket s key) key in
  s2 ← evict_if_needed max_buckets s1;
  bucket ← buckets s2 !! key;
  let '(d, b) := allow now bucket rate (if d_ltb (d_of_Z 0) burst then burst else rate) in
  Some (d, mkShard (<[key := b]> (buckets s2)) (lru_list s2) (lru_index s2) (next_node s2)).

(** ** RateLimiter *)

Record RateLimitRule := mkRule { rule_rate : double; rule_burst : double }.

Record RateConfig := mkRateConfig {
  ip_rps : double;
  ip_burst : double;
  global_rps : double;
  max_buckets : Z;
  snapshot_interval_sec : Z;
  snapshot_path : bytes;
  path_limits : gmap bytes RateLimitRule;
  path_prefix_limits : list (bytes * RateLimitRule);
  service_limits : gmap bytes RateLimitRule
}.

Record RateLimiter := mkLimiter {
  cfg_ : RateConfig;
  max_buckets_per_shard_ : Z;
  shards_ : list Shard;
  global_ : GlobalBucket
}.

Definition longer_prefix (a b : bytes * RateLimitRule) : bool := slen b.1 <? slen a.1.

Definition normalize_config `{StdSort} (cfg : RateConfig) : RateConfig :=
  let n := if max_buckets cfg <? Z.of_nat kShards then Z.of_nat kShards else max_buckets cfg in
  mkRateConfig (ip_rps cfg) (ip_burst cfg) (global_rps cfg) n (snapshot_interval_sec cfg)
    (snapshot_path cfg) (path_limits cfg) (std_sort longer_prefix (path_prefix_limits cfg))
    (service_limits cfg).

Definition publish_config (rl : RateLimiter) (normalized : RateConfig) : RateLimiter :=
  mkLimiter normalized (max_buckets normalized / Z.of_nat kShards) (shards_ rl) (global_ rl).

Definition update_config `{StdSort} (rl : RateLimiter) (cfg : RateConfig) : RateLimiter :=
  publish_config rl (normalize_config cfg).

(** The constructor, before a snapshot is loaded. *)
Definition new_limiter `{StdSort} (cfg : RateConfig) : RateLimiter :=
  let cfg := normalize_config cfg in
  mkLimiter cfg (max_buckets cfg / Z.of_nat kShards) (replicate kShards shard0) global0.

Definition shard_of `{StdHash} (key : bytes) : nat := Z.to_nat (std_hash key `mod` Z.of_nat kShards).

Definition check `{StdHash} (now : Z) (rl : RateLimiter) (key : bytes) (rate burst : double) :
    option (Decision * RateLimiter) :=
  if d_leb rate (d_of_Z 0) then Some (mkDecision true 0, rl)
  else
    s ← shards_ rl !! shard_of key;
    '(d, s') ← check_shard (max_buckets_per_shard_ rl) now s key rate burst;
    Some (d, mkLimiter (cfg_ rl) (max_buckets_per_shard_ rl)
               (<[shard_of key := s']> (shards_ rl)) (global_ rl)).

(** The bucket and rule that limit a path: an exact limit first, then the first
    configured prefix. *)
Definition path_rule (cfg : RateConfig) (path : bytes) : option (bytes * RateLimitRule) :=
  match path_limits cfg !! path with
  | Some rule => Some (path, rule)
  | None => List.find (λ pr : bytes * RateLimitRule, starts_with pr.1 path) (path_prefix_limits cfg)
  end.

Definition check_path `{StdHash} (now : Z) (rl : RateLimiter) (path : bytes) (cfg : RateConfig) :
    option (Decision * RateLimiter) :=
  match path_rule cfg path with
  | Some (prefix, rule) => check now rl ("path:" ++ prefix) (rule_rate rule) (rule_burst rule)
  | None => Some (mkDecision true 0, rl)
  end.

Definition check_service `{StdHash} (now : Z) (rl : RateLimiter) (service : bytes) (cfg : RateConfig) :
    option (Decision * RateLimiter) :=
  match service_limits cfg !! service with
  | Some rule => check now rl ("svc:" ++ service) (rule_rate rule) (rule_burst rule)
  | None => Some (mkDecision true 0, rl)
  end.

Definition check_limiter_global (now : Z) (rl : RateLimiter) (cfg : RateConfig) : Decision * RateLimiter :=
  let '(d, g) := check_global now (global_ rl) (global_rps cfg) (global_rps cfg) in
  (d, mkLimiter (cfg_ rl) (max_buckets_per_shard_ rl) (shards_ rl) g).

Definition combine_decisions (ip_d path_d svc_d global_d : Decision) : Decision :=
  if allowed ip_d && allowed path_d && allowed svc_d && allowed global_d
  then mkDecision true 0
  else mkDecision false
         (Z.max (retry_after_ms ip_d) (Z.max (retry_after_ms path_d)
            (Z.max (retry_after_ms svc_d) (retry_after_ms global_d)))).

(** The four clock readings of one multi-dimension check. *)
Record readings := mkReadings { at_ip : Z; at_path : Z; at_svc : Z; at_global : Z }.

Definition check_all `{StdHash} (now : readings) (rl : RateLimiter) (ip path service : bytes)
    (cfg : RateConfig) : option (Decision * RateLimiter) :=
  '(ip_d, rl1) ← check (at_ip now) rl ip (ip_rps cfg) (ip_burst cfg);
  '(path_d, rl2) ← check_path (at_path now) rl1 path cfg;
  '(svc_d, rl3) ← check_service (at_svc now) rl2 service cfg;
  let '(global_d, rl4) := check_limiter_global (at_global now) rl3 cfg in
  Some (combine_decisions ip_d path_d svc_d global_d, rl4).

(** The overload without a configuration argument reads the published one. *)
Definition check_all_current `{StdHash} (now : readings) (rl : RateLimiter) (ip path service : bytes) :
    option (Decision * RateLimiter) :=
  check_all now rl ip path service (cfg_ rl).

(** ** The shard invariant *)

Definition lru_keys (s : Shard) : list bytes := (lru_list s).*2.

(** The list, the index and the bucket map describe the same set of keys, and
    the index holds the node of each key. *)
Record shard_inv (s : Shard) : Prop := {
  inv_keys : NoDup (lru_keys s);
  inv_nodes : NoDup (lru_list s).*1;
  inv_index k id : lru_index s !! k = Some id ↔ (id, k) ∈ lru_list s;
  inv_buckets k : is_Some (buckets s !! k) ↔ k ∈ lru_keys s;
  inv_fresh id : id ∈ (lru_list s).*1 → (id < next_node s)%nat
}.

(** The abstract cache: the keys, most recently used first. *)
Definition touch_keys (key : bytes) (l : list bytes) : list bytes := key :: filter (λ k, k ≠ key) l.

Lemma shard0_inv : shard_inv shard0.
Proof.
  split; simpl; try by constructor.
  - intros k id. rewrite lookup_empty. split; [done|]. by intros ?%not_elem_of_nil.
  - intros k. rewrite lookup_empty. split; [by intros []|]. by intros ?%not_elem_of_nil.
  - intros id ?%not_elem_of_nil. done.
Qed.

Lemma size_buckets (m : gmap bytes TokenBucket) (l : list bytes) :
  NoDup l → (∀ k, is_Some (m !! k) ↔ k ∈ l) → size m = length l.
Proof.
  intros Hnd Hm. rewrite <- size_dom.
  replace (dom m) with (list_to_set l : gset bytes); [by apply size_list_to_set|].
  apply set_eq. intros k. by rewrite elem_of_list_to_set, elem_of_dom, Hm.
Qed.

Lemma inv_size s : shard_inv s → size (buckets s) = length (lru_list s).
Proof.
  intros Hs. erewrite size_buckets; [|by apply (inv_keys s)|by apply (inv_buckets s)].
  unfold lru_keys. by rewrite length_fmap.
Qed.

(** Erasing the node an iterator points to removes its key, and only that. *)
Lemma filter_node (l : list (nat * bytes)) it key :
  NoDup l.*1 → NoDup l.*2 → (it, key) ∈ l →
  filter (λ n : nat * bytes, n.1 ≠ it) l = filter (λ n : nat * bytes, n.2 ≠ key) l.
Proof.
  intros H1 H2 Hin. apply filter_ext_in. intros [id k] Hn. simpl.
  assert (id = it ↔ k = key); [|naive_solver].
  apply list_elem_of_lookup in Hin as [i Hi], Hn as [j Hj].
  split; intros ->.
  - assert (i = j) as ->; [|congruence].
    eapply (NoDup_lookup l.*1); [done|..]; rewrite list_lookup_fmap; [rewrite Hi|rewrite Hj]; done.
  - assert (i = j) as ->; [|congruence].
    eapply (NoDup_lookup l.*2); [done|..]; rewrite list_lookup_fmap; [rewrite Hi|rewrite Hj]; done.
Qed.

Lemma touched_list s key : shard_inv s →
  lru_list (lru_touch (ensure_bucket s key) key) =
  (next_node s, key) :: filter (λ n : nat * bytes, n.2 ≠ key) (lru_list s).
Proof.
  intros Hs. unfold lru_touch, ensure_bucket.
  assert (match lru_index s !! key with
          | Some it => filter (λ n : nat * bytes, n.1 ≠ it) (lru_list s)
          | None => lru_list s
          end = filter (λ n : nat * bytes, n.2 ≠ key) (lru_list s)) as Hf.
  { destruct (lru_index s !! key) as [it|] eqn:Ei.
    - apply filter_node; [apply Hs|apply Hs|by apply (inv_index s Hs)].
    - symmetry. apply filter_all, Forall_forall. intros [id k] Hin. simpl. intros ->.
      apply (inv_index s Hs) in Hin. congruence. }
  destruct (buckets s !! key); simpl; by rewrite Hf.
Qed.

Lemma touched_keys s key : shard_inv s →
  lru_keys (lru_touch (ensure_bucket s key) key) = touch_keys key (lru_keys s).
Proof.
  intros Hs. unfold lru_keys. rewrite touched_list, fmap_cons by done.
  unfold touch_keys. f_equal. apply (fmap_filter snd (λ k, k ≠ key)).
Qed.

Lemma touched_buckets s key k : shard_inv s →
  buckets (lru_touch (ensure_bucket s key) key) !! k =
  if decide (k = key) then Some (default bucket0 (buckets s !! key)) else buckets s !! k.
Proof.
  intros Hs. unfold lru_touch, ensure_bucket. destruct (buckets s !! key) eqn:E; simpl.
  - destruct (decide (k = key)) as [->|]; [by rewrite E|done].
  - destruct (decide (k = key)) as [->|]; [by rewrite lookup_insert_eq|by rewrite lookup_insert_ne].
Qed.

Lemma touch_inv s key : shard_inv s → shard_inv (lru_touch (ensure_bucket s key) key).
Proof.
  intros Hs. pose proof (touched_list s key Hs) as Hl. pose proof (touched_keys s key Hs) as Hk.
  assert (∀ id, id ∈ (filter (λ n : nat * bytes, n.2 ≠ key) (lru_list s)).*1 → (id < next_node s)%nat) as Hfresh.
  { intros id ([id' k] & -> & [_ Hin]%list_elem_of_filter)%list_elem_of_fmap.
    apply (inv_fresh s Hs). apply list_elem_of_fmap. by exists (id', k). }
  assert (next_node (lru_touch (ensure_bucket s key) key) = S (next_node s)) as Hn.
  { unfold lru_touch, ensure_bucket. by destruct (buckets s !! key). }
  assert (lru_index (lru_touch (ensure_bucket s key) key) = <[key:=next_node s]> (lru_index s)) as Hi.
  { unfold lru_touch, ensure_bucket. by destruct (buckets s !! key). }
  split.
  - rewrite Hk. unfold touch_keys. constructor; [rewrite list_elem_of_filter; naive_solver|].
    apply NoDup_filter, Hs.
  - rewrite Hl. simpl. constructor; [intros ?%Hfresh; lia|].
    eapply sublist_NoDup; [apply Hs|]. apply fmap_sublist, sublist_filter.
  - intros k id. rewrite Hl, Hi, elem_of_cons, list_elem_of_filter.
    destruct (decide (k = key)) as [->|Hne].
    + rewrite lookup_insert_eq. simpl. naive_solver.
    + rewrite lookup_insert_ne, (inv_index s Hs) by done. simpl. naive_solver.
  - intros k. rewrite touched_buckets, Hk by done. unfold touch_keys.
    rewrite elem_of_cons, list_elem_of_filter. destruct (decide (k = key)) as [->|Hne]; [naive_solver|].
    rewrite (inv_buckets s Hs). naive_solver.
  - intros id. rewrite Hl, Hn. simpl. intros [->|?%Hfresh]%elem_of_cons; lia.
Qed.

Lemma pop_inv s l id key : shard_inv s → lru_list s = l ++ [(id, key)] →
  shard_inv (mkShard (delete key (buckets s)) l (delete key (lru_index s)) (next_node s)).
Proof.
  intros [H1 H2 H3 H4 H5] Hl. unfold lru_keys in *. rewrite Hl in *.
  setoid_rewrite fmap_app in H4. setoid_rewrite fmap_app in H5. rewrite fmap_app in H1. rewrite fmap_app in H2. simpl in *.
  apply NoDup_app in H1 as (N1 & D1 & _). apply NoDup_app in H2 as (N2 & D2 & _).
  assert (key ∉ l.*2) as Hk by (intros Hin; apply (D1 key Hin); left).
  split; simpl; try done.
  - intros k id'. rewrite lookup_delete_Some, H3, elem_of_app, list_elem_of_singleton.
    split; [naive_solver|]. intros Hin. split; [|by left]. intros ->. apply Hk.
    apply list_elem_of_fmap. by exists (id', k).
  - intros k. rewrite lookup_delete_is_Some, H4, elem_of_app, list_elem_of_singleton. naive_solver.
  - intros id' Hin. apply H5. rewrite elem_of_app. by left.
Qed.

Lemma evict_spec s maxb : shard_inv s → 0 ≤ maxb →
  ∃ s', evict_if_needed maxb s = Some s' ∧ shard_inv s' ∧
    lru_list s' = take (Z.to_nat maxb) (lru_list s) ∧
    ∀ k, k ∈ lru_keys s' → buckets s' !! k = buckets s !! k.
Proof.
  intros Hs Hmax. unfold evict_if_needed.
  remember (length (lru_list s)) as n eqn:Hn. revert s Hs Hn.
  induction n as [|n IH]; intros s Hs Hn; cbn [evict_loop]; rewrite (inv_size s Hs), <- Hn.
  { destruct (maxb <? Z.of_nat 0) eqn:E; bool_prop; [lia|]. exists s. rewrite take_ge by lia. done. }
  destruct (maxb <? Z.of_nat (S n)) eqn:E; bool_prop; [|exists s; rewrite take_ge by lia; done].
  destruct (lru_list s) as [|[id key] l _] eqn:Hl using rev_ind; [done|].
  rewrite last_snoc. rewrite length_app in Hn. cbn [length] in Hn.
  replace (S n - 1)%nat with (length l) by lia. rewrite take_app_length.
  destruct (IH _ (pop_inv s l id key Hs Hl)) as (s' & -> & Hs' & Htake & Hb); [simpl; lia|].
  exists s'. simpl in *. split_and!; [done|done| |].
  - by rewrite Htake, take_app_le by lia.
  - intros k Hk. rewrite Hb by done. apply lookup_delete_ne. intros ->.
    pose proof (inv_keys s Hs) as Hnd. unfold lru_keys in *. rewrite Hl, fmap_app in Hnd.
    apply NoDup_app in Hnd as (_ & Hd & _). apply (Hd k); [|left].
    rewrite Htake in Hk. rewrite <- (take_drop (Z.to_nat maxb) l), fmap_app, elem_of_app. by left.
Qed.

(** One locked check on a shard: what it returns and leaves behind. *)
Lemma check_shard_spec maxb now s key rate burst : shard_inv s → 1 ≤ maxb →
  let burst' := if d_ltb (d_of_Z 0) burst then burst else rate in
  ∃ s', check_shard maxb now s key rate burst =
      Some ((allow now (default bucket0 (buckets s !! key)) rate burst').1, s') ∧
    shard_inv s' ∧
    lru_keys s' = take (Z.to_nat maxb) (touch_keys key (lru_keys s)) ∧
    buckets s' !! key = Some (allow now (default bucket0 (buckets s !! key)) rate burst').2 ∧
    ∀ k, k ≠ key → k ∈ lru_keys s' → buckets s' !! k = buckets s !! k.
Proof.
  intros Hs Hmax burst'. unfold check_shard. fold burst'.
  destruct (evict_spec _ maxb (touch_inv s key Hs)) as (s2 & -> & Hs2 & Hl2 & Hb2); [lia|]. simpl.
  assert (lru_keys s2 = take (Z.to_nat maxb) (touch_keys key (lru_keys s))) as Hk2.
  { unfold lru_keys at 1. rewrite Hl2, fmap_take. fold (lru_keys (lru_touch (ensure_bucket s key) key)).
    by rewrite touched_keys. }
  assert (key ∈ lru_keys s2) as Hin.
  { rewrite Hk2. replace (Z.to_nat maxb) with (S (Z.to_nat maxb - 1)) by lia. left. }
  rewrite Hb2, touched_buckets, decide_True by done. simpl.
  destruct (allow _ _ _ _) as [d b]. simpl. eexists. split; [done|].
  destruct Hs2 as [I1 I2 I3 I4 I5]. simpl. split_and!; [|done|by rewrite lookup_insert_eq|].
  - split; simpl; try done. intros k. rewrite lookup_insert_is_Some, I4.
    split; [intros [->|[_ ?]]; done|]. intros Hk. destruct (decide (key = k)); [by left|by right].
  - intros k Hne Hk. rewrite lookup_insert_ne by done. unfold lru_keys in Hk. simpl in Hk.
    rewrite Hb2, touched_buckets by done. by rewrite decide_False.
Qed.

(** ** The limiter *)

Record limiter_inv `{StdHash} (rl : RateLimiter) : Prop := {
  lim_shards : length (shards_ rl) = kShards;
  lim_shard i s : shards_ rl !! i = Some s → shard_inv s;
  lim_home i s k : shards_ rl !! i = Some s → k ∈ lru_keys s → shard_of k = i;
  lim_max : 1 ≤ max_buckets_per_shard_ rl
}.

(** The bucket a key is charged to. *)
Definition bucket_of `{StdHash} (rl : RateLimiter) (key : bytes) : option TokenBucket :=
  s ← shards_ rl !! shard_of key; buckets s !! key.

Lemma shard_of_lt `{StdHash} key : (shard_of key < kShards)%nat.
Proof.
  unfold shard_of. pose proof (Z.mod_pos_bound (std_hash key) (Z.of_nat kShards)).
  unfold kShards in *. lia.
Qed.

Lemma normalized_max `{StdSort} cfg : 1 ≤ max_buckets (normalize_config cfg) / Z.of_nat kShards.
Proof.
  unfold normalize_config. cbn [max_buckets]. change (Z.of_nat kShards) with 32.
  destruct (max_buckets cfg <? 32) eqn:E; bool_prop; [by vm_compute|].
  apply Z.div_le_lower_bound; lia.
Qed.

Lemma new_limiter_inv `{StdHash, StdSort} cfg : limiter_inv (new_limiter cfg).
Proof.
  split; cbn [new_limiter shards_ max_buckets_per_shard_].
  - apply length_replicate.
  - intros i s [-> _]%lookup_replicate. apply shard0_inv.
  - intros i s k [-> _]%lookup_replicate ?%not_elem_of_nil. done.
  - apply normalized_max.
Qed.

Lemma update_config_inv `{StdHash, StdSort} rl cfg : limiter_inv rl → limiter_inv (update_config rl cfg).
Proof. intros [? ? ? ?]. split; simpl; [done|done|done|apply normalized_max]. Qed.

Section limiter.
Context `{StdHash}.

Lemma check_spec now rl key rate burst : limiter_inv rl →
  let burst' := if d_ltb (d_of_Z 0) burst then burst else rate in
  let b := default bucket0 (bucket_of rl key) in
  if d_leb rate (d_of_Z 0)
  then check now rl key rate burst = Some (mkDecision true 0, rl)
  else ∃ rl', check now rl key rate burst = Some ((allow now b rate burst').1, rl') ∧
    limiter_inv rl' ∧ bucket_of rl' key = Some (allow now b rate burst').2 ∧
    (∀ k, k ≠ key → bucket_of rl' k = bucket_of rl k ∨ bucket_of rl' k = None) ∧
    (∃ s', shards_ rl' !! shard_of key = Some s' ∧
       Z.of_nat (size (buckets s')) ≤ max_buckets_per_shard_ rl').
Proof.
  intros Hrl. cbv zeta. unfold check. destruct (d_leb rate (d_of_Z 0)); [done|].
  pose proof (shard_of_lt key) as Hlt. rewrite <- (lim_shards rl Hrl) in Hlt.
  apply lookup_lt_is_Some in Hlt as [s Hsh]. 
  assert (bucket_of rl key = buckets s !! key) as -> by (unfold bucket_of; by rewrite Hsh).
  rewrite Hsh. cbn [mbind option_bind].
  pose proof (lim_shard rl Hrl _ _ Hsh) as Hinv.
  destruct (check_shard_spec (max_buckets_per_shard_ rl) now s key rate burst Hinv (lim_max rl Hrl))
    as (s' & Hcheck & Hinv' & Hkeys & Hb & Hother).
  rewrite Hcheck. simpl. eexists. split; [done|].
  pose proof (lookup_lt_Some _ _ _ Hsh) as Hlt.
  assert (∀ k, k ∈ lru_keys s' → shard_of k = shard_of key) as Hhome.
  { intros k. rewrite Hkeys. intros Hk%elem_of_take. destruct Hk as (i & Hk & _).
    apply list_elem_of_lookup_2 in Hk. unfold touch_keys in Hk.
    apply elem_of_cons in Hk as [->|[_ Hk]%list_elem_of_filter]; [done|].
    by apply (lim_home rl Hrl _ s). }
  split_and!.
  - split; simpl.
    + by rewrite length_insert, (lim_shards rl Hrl).
    + intros i x [(<- & <- & _)|[_ Hx]]%list_lookup_insert_Some; [done|by eapply (lim_shard rl Hrl)].
    + intros i x k [(<- & <- & _)|[_ Hx]]%list_lookup_insert_Some Hk; [auto|by eapply (lim_home rl Hrl)].
    + apply Hrl.
  - unfold bucket_of. cbn [shards_]. rewrite list_lookup_insert_eq by done. exact Hb.
  - intros k Hne. unfold bucket_of. simpl. destruct (decide (shard_of k = shard_of key)) as [Heq|Hneq].
    + rewrite Heq, list_lookup_insert_eq, Hsh by done. simpl.
      destruct (decide (k ∈ lru_keys s')) as [Hin|Hnin]; [left; auto|].
      right. apply eq_None_not_Some. by rewrite (inv_buckets s' Hinv').
    + left. by rewrite list_lookup_insert_ne.
  - exists s'. simpl. split; [by apply list_lookup_insert_eq|].
    rewrite (inv_size s' Hinv'), <- (length_fmap snd). fold (lru_keys s').
    rewrite Hkeys, length_take. pose proof (lim_max rl Hrl). lia.
Qed.


Lemma check_total now rl key rate burst : limiter_inv rl →
  ∃ d rl', check now rl key rate burst = Some (d, rl') ∧ limiter_inv rl' ∧ (allowed d = true → retry_after_ms d = 0).
Proof.
  intros Hrl. pose proof (check_spec now rl key rate burst Hrl) as Hc. cbv zeta in Hc.
  destruct (d_leb rate (d_of_Z 0)) eqn:E; [by eexists _, rl|].
  destruct Hc as (rl' & -> & ? & _). eexists _, rl'. split_and!; [done|done|].
  unfold allow. rewrite E. by case_if.
Qed.

Lemma check_path_total now rl path cfg : limiter_inv rl →
  ∃ d rl', check_path now rl path cfg = Some (d, rl') ∧ limiter_inv rl'.
Proof.
  intros Hrl. unfold check_path. destruct (path_rule cfg path) as [[p r]|]; [|eauto].
  destruct (check_total now rl ("path:" ++ p) (rule_rate r) (rule_burst r) Hrl) as (? & ? & ? & ? & _). eauto.
Qed.

Lemma check_service_total now rl service cfg : limiter_inv rl →
  ∃ d rl', check_service now rl service cfg = Some (d, rl') ∧ limiter_inv rl'.
Proof.
  intros Hrl. unfold check_service. destruct (service_limits cfg !! service) as [r|]; [|eauto].
  destruct (check_total now rl ("svc:" ++ service) (rule_rate r) (rule_burst r) Hrl) as (? & ? & ? & ? & _). eauto.
Qed.

Lemma check_limiter_global_inv now rl cfg d rl' : limiter_inv rl →
  check_limiter_global now rl cfg = (d, rl') → limiter_inv rl'.
Proof.
  intros Hrl E. unfold check_limiter_global in E. destruct (check_global _ _ _ _) as [d' g]. simplify_eq.
  destruct Hrl. by split.
Qed.

Lemma check_all_total now rl ip path service cfg : limiter_inv rl →
  ∃ d rl', check_all now rl ip path service cfg = Some (d, rl') ∧ limiter_inv rl'.
Proof.
  intros Hrl. unfold check_all.
  destruct (check_total (at_ip now) rl ip (ip_rps cfg) (ip_burst cfg) Hrl) as (d1 & rl1 & -> & I1 & _). simpl.
  destruct (check_path_total (at_path now) rl1 path cfg I1) as (d2 & rl2 & -> & I2). simpl.
  destruct (check_service_total (at_svc now) rl2 service cfg I2) as (d3 & rl3 & -> & I3). simpl.
  destruct (check_limiter_global (at_global now) rl3 cfg) as [d4 rl4] eqn:E4.
  eauto using check_limiter_global_inv.
Qed.

(** the multi-dimension check returns on every reachable state, keeps the
    invariant, lets a request pass exactly when the address, path, service and
    global limits all do, and otherwise asks for the longest of their delays;
    the path limit applied is the exact one when there is one. *)
Lemma check_all_correct now rl ip path service cfg :
  limiter_inv rl →
  ∃ d rl' d1 d2 d3 d4 rl1 rl2 rl3,
    check_all now rl ip path service cfg = Some (d, rl') ∧ limiter_inv rl' ∧
    check (at_ip now) rl ip (ip_rps cfg) (ip_burst cfg) = Some (d1, rl1) ∧
    check_path (at_path now) rl1 path cfg = Some (d2, rl2) ∧
    check_service (at_svc now) rl2 service cfg = Some (d3, rl3) ∧
    check_limiter_global (at_global now) rl3 cfg = (d4, rl') ∧
    (allowed d = true ↔ Forall (λ x, allowed x = true) [d1; d2; d3; d4]) ∧
    (allowed d = false → Forall (λ x, retry_after_ms x ≤ retry_after_ms d) [d1; d2; d3; d4]).
Proof.
  intros Hrl. unfold check_all.
  destruct (check_total (at_ip now) rl ip (ip_rps cfg) (ip_burst cfg) Hrl) as (d1 & rl1 & E1 & I1 & _).
  destruct (check_path_total (at_path now) rl1 path cfg I1) as (d2 & rl2 & E2 & I2).
  destruct (check_service_total (at_svc now) rl2 service cfg I2) as (d3 & rl3 & E3 & I3).
  destruct (check_limiter_global (at_global now) rl3 cfg) as [d4 rl4] eqn:E4.
  pose proof (check_limiter_global_inv _ _ _ _ _ I3 E4) as I4.
  exists (combine_decisions d1 d2 d3 d4), rl4, d1, d2, d3, d4, rl1, rl2, rl3.
  rewrite E1. simpl. rewrite E2. simpl. rewrite E3. simpl. rewrite E4. split_and!; try done.
  - unfold combine_decisions. rewrite !Forall_cons.
    destruct (allowed d1), (allowed d2), (allowed d3), (allowed d4); simpl; naive_solver.
  - unfold combine_decisions. case_if; simpl; [done|]. intros _. repeat constructor; lia.
Qed.

End limiter.

(** ** Token bounds *)

(** A bucket's tokens stay between zero and the burst: no burst above the
    configured one can build up however long a client stays idle, and a
    rejected request costs nothing. *)
Lemma allow_tokens_bounded `{!DoubleLaws} now b rate burst :
  d_leb (d_of_Z 0) (tokens b) = true → d_leb rate (d_of_Z 0) = false →
  d_finite rate → d_leb (d_of_Z 0) rate = true → d_finite burst → d_leb (d_of_Z 0) burst = true →
  0 ≤ now - last_refill_ms b < 2 ^ 53 →
  let b' := (allow now b rate burst).2 in
  d_leb (d_of_Z 0) (tokens b') = true ∧ d_leb (tokens b') burst = true ∧ last_refill_ms b' = now.
Proof.
  intros Ht Hr Hf Hr0 Hb Hb0 He b'. subst b'. unfold allow. rewrite Hr.
  set (x := d_add _ _).
  assert (d_leb (d_of_Z 0) x = true) as Hx by by apply d_refill_nonneg.
  assert (d_leb (d_of_Z 0) (d_min burst x) = true ∧ d_leb (d_min burst x) burst = true) as [H1 H2].
  { unfold d_min. destruct (d_ltb x burst) eqn:E; [split; [done|by apply d_lt_le]|].
    split; [done|by apply d_le_refl]. }
  destruct (d_leb (d_of_Z 1) (d_min burst x)) eqn:E; simpl; [|done].
  destruct (d_sub_one _ E). split_and!; [done| |done]. by eapply d_le_trans.
Qed.

End model.

(** ** The rate over a window *)

(** The number of requests a bucket admits at the given clock readings. *)
Fixpoint admitted `{Double} (b : TokenBucket) (rate burst : double) (nows : list Z) : Z :=
  match nows with
  | [] => 0
  | now :: rest =>
      let '(d, b') := allow now b rate burst in
      (if allowed d then 1 else 0) + admitted b' rate burst rest
  end.

(** Readings of a monotone clock, none before [t]. *)
Fixpoint clock_from (t : Z) (nows : list Z) : Prop :=
  match nows with
  | [] => True
  | now :: rest => t ≤ now ∧ clock_from now rest
  end.

Definition last_reading (t : Z) (nows : list Z) : Z := default t (last nows).

Section exact_window.
Local Open Scope Q_scope.

(** The tokens that accrue over [ms] milliseconds. *)
Definition accrued (rate : Q) (ms : Z) : Q := inject_Z ms * rate / inject_Z 1000.

Lemma accrued_nonneg rate ms : 0 < rate → (0 <= ms)%Z → 0 <= accrued rate ms.
Proof.
  intros Hr Hm. unfold accrued, Qdiv.
  assert (0 <= inject_Z ms) by (change 0 with (inject_Z 0); by rewrite <- Zle_Qle).
  apply Qmult_le_0_compat; [|by compute]. apply Qmult_le_0_compat; [done|lra].
Qed.

Lemma accrued_add rate a b c : accrued rate (b - a) + accrued rate (c - b) == accrued rate (c - a).
Proof. unfold accrued. unfold Z.sub. rewrite !inject_Z_plus, !inject_Z_opp. unfold Qdiv. ring. Qed.

Lemma last_reading_cons t now rest : last_reading t (now :: rest) = last_reading now rest.
Proof. unfold last_reading. rewrite last_cons. by destruct (last rest). Qed.

Lemma last_reading_ge t nows : clock_from t nows → (t <= last_reading t nows)%Z.
Proof.
  revert t. induction nows as [|now rest IH]; intros t; [unfold last_reading; simpl; lia|].
  intros [H1 H2]. rewrite last_reading_cons. specialize (IH _ H2). lia.
Qed.

(** One call, with the rounding-free operations spelled out. *)
Lemma allow_exact now (b : @TokenBucket exact) (rate burst : Q) : 0 < rate →
  let t := @d_min exact burst (tokens b + accrued rate (now - last_refill_ms b)) in
  let '(d, b') := @allow exact now b rate burst in
  last_refill_ms b' = now ∧
  ((allowed d = true ∧ 1 <= t ∧ tokens b' = t - 1) ∨ (allowed d = false ∧ t < 1 ∧ tokens b' = t)).
Proof.
  intros Hr. unfold allow.
  replace (@d_leb exact rate (@d_of_Z exact 0)) with false; [|symmetry; by apply exact_leb_false].
  set (t := d_min _ _). destruct (@d_leb exact (@d_of_Z exact 1) t) eqn:E.
  - apply exact_leb in E. simpl. split; [done|]. by left.
  - apply exact_leb_false in E. simpl. split; [done|]. by right.
Qed.

Lemma admitted_le (b : @TokenBucket exact) (rate burst : Q) nows : 0 < rate → clock_from (last_refill_ms b) nows →
  inject_Z (@admitted exact b rate burst nows) <=
  Qmax 0 (tokens b + accrued rate (last_reading (last_refill_ms b) nows - last_refill_ms b)).
Proof.
  intros Hr. revert b. induction nows as [|now rest IH]; intros b Hc.
  { simpl. apply (Q.le_max_l 0). }
  destruct Hc as [Hle Hc]. cbn [admitted].
  pose proof (allow_exact now b rate burst Hr) as Ha. cbv zeta in Ha.
  destruct (@allow exact now b rate burst) as [d b']. destruct Ha as [Hl Ha].
  rewrite last_reading_cons. specialize (IH b'). rewrite Hl in IH. specialize (IH Hc).
  pose proof (last_reading_ge _ _ Hc) as Hge.
  pose proof (accrued_nonneg rate _ Hr (proj2 (Z.le_0_sub _ _) Hge)) as Hacc.
  pose proof (accrued_add rate (last_refill_ms b) now (last_reading now rest)) as Hadd.
  destruct (exact_min burst (tokens b + accrued rate (now - last_refill_ms b))) as (_ & Hmin & _).
  rewrite inject_Z_plus. revert IH.
  destruct Ha as [(-> & H1 & ->)|(-> & H1 & ->)]; intros IH.
  - rewrite Q.max_r in IH by (simpl in *; lra).
    rewrite Q.max_r; simpl in *; change (inject_Z 1) with 1; lra.
  - change (inject_Z 0) with 0. eapply Qle_trans; [|apply Q.max_le_compat_l with (p := 0)].
    { rewrite Qplus_0_l. exact IH. }
    simpl in *. lra.
Qed.

(** the rate limit holds over every window.  From any bucket state, the
    requests admitted at the readings of a monotone clock are at most the burst
    plus the tokens the configured rate yields between the first and the last of
    them (in arithmetic without rounding). *)
Lemma token_bucket_window (b : @TokenBucket exact) (rate burst : Q) now nows :
  0 < rate → 1 <= burst → clock_from now nows →
  inject_Z (@admitted exact b rate burst (now :: nows)) <=
  burst + accrued rate (last_reading now nows - now).
Proof.
  intros Hr Hb Hc. cbn [admitted].
  pose proof (allow_exact now b rate burst Hr) as Ha. cbv zeta in Ha.
  destruct (@allow exact now b rate burst) as [d b']. destruct Ha as [Hl Ha].
  pose proof (last_reading_ge _ _ Hc) as Hge.
  pose proof (accrued_nonneg rate _ Hr (proj2 (Z.le_0_sub _ _) Hge)) as Hacc.
  destruct (exact_min burst (tokens b + accrued rate (now - last_refill_ms b))) as (Hmin & _ & _).
  pose proof (admitted_le b' rate burst nows Hr) as Hm. rewrite Hl in Hm. specialize (Hm Hc).
  rewrite inject_Z_plus. revert Hm.
  destruct Ha as [(-> & H1 & ->)|(-> & H1 & ->)]; intros Hm.
  - rewrite Q.max_r in Hm by (simpl in *; lra). change (inject_Z 1) with 1. simpl in *. lra.
  - change (inject_Z 0) with 0. rewrite Qplus_0_l. eapply Qle_trans; [exact Hm|].
    apply Q.max_lub; simpl in *; lra.
Qed.

Lemma token_bucket_window_witness :
  let b := @mkBucket exact 0 (inject_Z 0) in
  inject_Z (@admitted exact b (inject_Z 2) (inject_Z 3) [5000; 5000; 5100; 5200; 5300; 6000]%Z) <=
  inject_Z 3 + accrued (inject_Z 2) (6000 - 5000).
Proof.
  apply (token_bucket_window (@mkBucket exact 0 (inject_Z 0)) (inject_Z 2) (inject_Z 3) 5000
           [5000; 5100; 5200; 5300; 6000]%Z).
  - vm_compute. reflexivity.
  - vm_compute. discriminate.
  - simpl. split_and!; lia.
Defined.

End exact_window.

(** The IEEE instance on the same readings admits three requests and a
    fourth one after a refill. *)
Example binary64_window :
  @admitted binary64 (@mkBucket binary64 0 (@d_of_Z binary64 0)) (@d_of_Z binary64 2) (@d_of_Z binary64 3)
    [5000; 5000; 5100; 5200; 5300; 6000] = 4.
Proof. vm_compute. reflexivity. Qed.

(** ** Examples *)

Definition sample_hash : StdHash := slen.

Definition sample_cfg : @RateConfig binary64 :=
  let n z := @d_of_Z binary64 z in
  @mkRateConfig binary64 (n 100) (n 2) (n 50000) 64 30 "./rate_limit.bin" ∅
    [("/api/" : bytes, @mkRule binary64 (n 10) (n 1)); ("/api/slow/" : bytes, @mkRule binary64 (n 1) (n 1))] ∅.

Definition sample_limiter : @RateLimiter binary64 := @new_limiter binary64 insertion_sort sample_cfg.


Lemma check_all_correct_witness :
  ∃ d rl', @check_all binary64 sample_hash (mkReadings 1000 1000 1000 1001) sample_limiter
    "10.0.0.1" "/api/slow/x" "api" (cfg_ sample_limiter) = Some (d, rl') ∧ limiter_inv (H0 := sample_hash) rl'.
Proof.
  destruct (@check_all_correct binary64 sample_hash (mkReadings 1000 1000 1000 1001) sample_limiter
    "10.0.0.1" "/api/slow/x" "api" (cfg_ sample_limiter)) as (d & rl' & ? & ? & ? & ? & ? & ? & ? & Hc & Hi & _).
  - apply new_limiter_inv.
  - exists d, rl'. split; [exact Hc|exact Hi].
Defined.

(** Normalization orders the prefixes so that the longest one that covers a path
    is found first. *)
Lemma path_rule_longest `{Double, StdSortLaws} cfg path p r :
  path_limits cfg !! path = None → path_rule (normalize_config cfg) path = Some (p, r) →
  (p, r) ∈ path_prefix_limits cfg ∧ starts_with p path = true ∧
  ∀ q s, (q, s) ∈ path_prefix_limits cfg → starts_with q path = true → slen q ≤ slen p.
Proof.
  unfold path_rule, normalize_config. simpl. intros -> Hf.
  assert (strict_weak longer_prefix) as Hsw.
  { split; unfold longer_prefix; intros; bool_prop; rewrite ?Z.ltb_lt, ?Z.ltb_ge; lia. }
  eapply find_sorted in Hf as (Hin & Hm & Hmax); [|by apply std_sort_sorted].
  rewrite (std_sort_perm _ _ Hsw) in Hin. split_and!; [done|done|].
  intros q s Hq Hqm. destruct (Hmax (q, s)) as [[= -> ->]|Hl]; [|done|lia|].
  - by rewrite (std_sort_perm _ _ Hsw).
  - unfold longer_prefix in Hl. simpl in Hl. bool_prop. lia.
Qed.
