(* ===== verification/GlobalBucket.v ===== *)
(** * The lock-free global bucket (src/src/security/rate_limiter.hpp, check_global)

    Any number of threads run [check_global] on two atomics.  Each atomic access
    is one step of a thread, so every interleaving (including spurious failures
    of [compare_exchange_weak]) is a sequence of steps.  The theorems show that
    no interleaving admits more requests over a window than the burst, one
    request per thread, the refills in flight and the configured rate allow, in
    the arithmetic of the code (binary64 products, truncated to 64 bits), and
    that no 64-bit integer overflows for the clocks and rates considered; and the
    sequential function of RateLimiter.v is shown to be one of the runs. *)

From Stdlib Require Import QArith Qround Lqa.
From Stdlib Require Import Floats.SpecFloat.
From S2P Require Import Prelude Doubles Rounding RateLimiter.

(** Where a thread is in [check_global]. *)
Inductive pc :=
| PIdle                              (** not in a call *)
| PCall                              (** about to read the clock and [last_refill_ms] *)
| PLoaded (now last : Z)             (** about to compare-exchange [last_refill_ms] *)
| PWon (add_milli : Z)               (** about to load [tokens_milli] *)
| PRefill (add_milli old_t : Z)      (** in the compare-exchange loop *)
| PTake                              (** about to [fetch_sub] *)
| PRefund                            (** rejected, about to [fetch_add] *)
| PDone (ok : bool).                 (** returned *)

(** [g_admitted] counts the calls whose [fetch_sub] succeeded. *)
Record gstate := mkG {
  g_bucket : GlobalBucket;
  g_threads : list pc;
  g_admitted : Z
}.

Section machine.
Context `{Double}.
Context (rate burst : double).

(** The steady clock reads between 0 and [horizon] milliseconds. *)
Context (horizon : Z).

Definition burst_milli : Z := d_trunc (d_mul burst (d_of_Z 1000)).
Definition add_milli_of (elapsed : Z) : Z := d_trunc (d_mul (d_of_Z elapsed) rate).

Inductive thread_step : GlobalBucket → pc → GlobalBucket → pc → bool → Prop :=
| st_call g p : p = PIdle ∨ (∃ ok, p = PDone ok) → thread_step g p g PCall false
| st_load g now : 0 ≤ now ≤ horizon → thread_step g PCall g (PLoaded now (g_last_refill_ms g)) false
| st_no_refill g now last : now - last ≤ 0 → thread_step g (PLoaded now last) g PTake false
| st_lost g now last : 0 < now - last → g_last_refill_ms g ≠ last →
    thread_step g (PLoaded now last) g PTake false
| st_won g now last : 0 < now - last → g_last_refill_ms g = last →
    thread_step g (PLoaded now last) (mkGlobal (tokens_milli g) now) (PWon (add_milli_of (now - last))) false
| st_load_tokens g a : thread_step g (PWon a) g (PRefill a (tokens_milli g)) false
| st_refill g a old : tokens_milli g = old →
    thread_step g (PRefill a old)
      (mkGlobal (Z.min burst_milli (old + a)) (g_last_refill_ms g)) PTake false
| st_retry g a old : thread_step g (PRefill a old) g (PRefill a (tokens_milli g)) false
| st_take g : 1000 ≤ tokens_milli g →
    thread_step g PTake (mkGlobal (tokens_milli g - 1000) (g_last_refill_ms g)) (PDone true) true
| st_reject g : tokens_milli g < 1000 →
    thread_step g PTake (mkGlobal (tokens_milli g - 1000) (g_last_refill_ms g)) PRefund false
| st_refund g :
    thread_step g PRefund (mkGlobal (tokens_milli g + 1000) (g_last_refill_ms g)) (PDone false) false.

(** One thread of the pool takes a step. *)
Inductive gstep : gstate → gstate → Prop :=
| gstep_intro g ts n i p g' p' (won : bool) :
    ts !! i = Some p → thread_step g p g' p' won →
    gstep (mkG g ts n) (mkG g' (<[i := p']> ts) (n + if won then 1 else 0)).

Definition initial (threads : nat) : gstate := mkG global0 (replicate threads PIdle) 0.

End machine.

#[global] Arguments burst_milli : simpl never.
#[global] Arguments add_milli_of : simpl never.

(** ** Accounting *)

(** What a thread has taken without being admitted, and what it has won but not
    yet added. *)
Definition borrowed (p : pc) : Z := match p with PRefund => 1000 | _ => 0 end.
Definition in_flight_of (p : pc) : Z :=
  match p with PWon a | PRefill a _ => a | _ => 0 end.

Definition balance (s : gstate) : Z := tokens_milli (g_bucket s) + total borrowed (g_threads s).
Definition in_flight (s : gstate) : Z := total in_flight_of (g_threads s).

Section bounded_machine.
Context `{Double} (rate burst : double) (horizon : Z).

(** A bound on the refill per millisecond, and on a single refill. *)
Context (r : Q) (A : Z).
Hypothesis add_ok : ∀ e, 0 < e ≤ horizon → 0 ≤ add_milli_of rate e ≤ A ∧ (inject_Z (add_milli_of rate e) <= r * inject_Z e)%Q.
Hypothesis burst_ok : 0 ≤ burst_milli burst.

Abbreviation step := (gstep rate burst horizon).
Abbreviation B := (burst_milli burst).

(** What a thread of [n] holds in its locals. *)
Definition pc_ok (n : nat) (p : pc) : Prop :=
  match p with
  | PLoaded now last => 0 ≤ now ≤ horizon ∧ 0 ≤ last ≤ horizon
  | PWon a => 0 ≤ a ≤ A
  | PRefill a old => 0 ≤ a ≤ A ∧ - (1000 * Z.of_nat n) ≤ old ≤ B + 1000 * Z.of_nat n
  | _ => True
  end.

(** Every state the threads can reach. *)
Record ginv (s : gstate) : Prop := {
  ginv_balance : 0 ≤ balance s ≤ B + 1000 * Z.of_nat (length (g_threads s));
  ginv_clock : 0 ≤ g_last_refill_ms (g_bucket s) ≤ horizon;
  ginv_pc p : p ∈ g_threads s → pc_ok (length (g_threads s)) p
}.

Lemma in_flight_nonneg s : ginv s → 0 ≤ in_flight s.
Proof using Type.
  intros [_ _ Hf]. unfold in_flight. generalize dependent (length (g_threads s)). intros n Hf.
  induction (g_threads s) as [|p ts IH]; simpl; [lia|].
  assert (0 ≤ in_flight_of p) by (specialize (Hf p (list_elem_of_here _ _)); destruct p; cbn in *; lia).
  cut (0 ≤ total in_flight_of ts); [lia|]. apply IH. intros q Hq. apply Hf. by right.
Qed.

Lemma borrowed_le ts : 0 ≤ total borrowed ts ≤ 1000 * Z.of_nat (length ts).
Proof using Type.
  assert (∀ p, 0 ≤ borrowed p ≤ 1000) as Hp by (intros []; simpl; lia).
  pose proof (total_bounds borrowed ts 0 1000 Hp). lia.
Qed.

Lemma tokens_range s : ginv s →
  - (1000 * Z.of_nat (length (g_threads s))) ≤ tokens_milli (g_bucket s) ≤ B + 1000 * Z.of_nat (length (g_threads s)).
Proof using Type. intros [Hb _ _]. pose proof (borrowed_le (g_threads s)). unfold balance in Hb. lia. Qed.

Lemma initial_inv n : 0 ≤ horizon → ginv (initial n).
Proof using burst_ok.
  intros Hh. assert (total borrowed (replicate n PIdle) = 0) as Ht by (induction n; simpl; lia).
  split.
  - unfold balance. simpl. rewrite Ht. lia.
  - cbn. lia.
  - intros p [-> _]%elem_of_replicate. done.
Qed.

Lemma gstep_inv s s' : step s s' → ginv s → ginv s'.
Proof using add_ok burst_ok.
  intros Hs Hinv. pose proof (tokens_range s Hinv) as Htok. destruct Hinv as [Hb Hc Hf].
  destruct Hs as [g ts n i p g' p' won Hi Hstep]. unfold balance in *. simpl in *.
  pose proof (borrowed_le ts) as Hle.
  pose proof (borrowed_le (<[i:=p']> ts)) as Hle'. rewrite length_insert in Hle'.
  pose proof (Hf p (list_elem_of_lookup_2 _ _ _ Hi)) as Hp.
  split; cbn [g_bucket g_threads g_admitted].
  - unfold balance. simpl. rewrite (total_insert _ _ _ p) in Hle' by done.
    rewrite length_insert, (total_insert _ _ _ p) by done.
    destruct Hstep as [? ? [->|[? ->]]| | | | | | | | | |]; simpl in *; lia.
  - destruct Hstep; cbn in *; lia.
  - rewrite length_insert. intros q [j Hj]%list_elem_of_lookup.
    apply list_lookup_insert_Some in Hj as [(_ & <- & _)|[_ Hj]]; [|apply Hf; by apply list_elem_of_lookup_2 in Hj].
    destruct Hstep as [? ? [->|[? ->]]| | | |? now last| | | | | |]; cbn in *; try done; try lia.
    destruct (add_ok (now - last)) as [? _]; lia.
Qed.

Lemma length_step s s' : step s s' → length (g_threads s') = length (g_threads s).
Proof using Type. intros []. simpl. apply length_insert. Qed.

(** What has been admitted, plus what is still available, never grows faster
    than the refills. *)
Definition ledger (s : gstate) : Q :=
  (inject_Z (1000 * g_admitted s + balance s + in_flight s) -
   r * inject_Z (g_last_refill_ms (g_bucket s)))%Q.

Lemma gstep_ledger s s' : step s s' → ginv s → (ledger s' <= ledger s)%Q.
Proof using add_ok.
  intros Hs [_ _ Hf]. destruct Hs as [g ts n i p g' p' won Hi Hstep]. cbn [g_threads] in Hf.
  pose proof (Hf p (list_elem_of_lookup_2 _ _ _ Hi)) as Hp. clear Hf.
  unfold ledger, balance, in_flight. simpl. rewrite !(total_insert _ _ _ p) by done.
  assert (∀ a b c d : Z, (inject_Z b - inject_Z a <= r * inject_Z (d - c))%Q →
    (inject_Z b - r * inject_Z d <= inject_Z a - r * inject_Z c)%Q) as Hred.
  { intros a b c d Hle. unfold Z.sub in Hle. rewrite inject_Z_plus, inject_Z_opp in Hle. lra. }
  assert (∀ a b, b ≤ a → (inject_Z b - inject_Z a <= 0)%Q) as Hz.
  { intros a b Hle. rewrite Zle_Qle in Hle. lra. }
  apply Hred.
  assert (∀ c, (r * inject_Z (c - c) == 0)%Q) as Hcc by (intros c; rewrite Z.sub_diag; ring).
  destruct Hstep as [? ? [->|[? ->]]| | | | ? now last He -> | | | | | |]; simpl; rewrite ?Hcc; try (apply Hz; lia).
  cbn in Hp. destruct (add_ok (now - last)) as [_ Hadd]; [lia|].
  eapply Qle_trans; [|exact Hadd].
  match goal with |- (inject_Z ?b - inject_Z ?a <= inject_Z ?c)%Q =>
    assert (b = a + c) as -> by lia end.
  rewrite inject_Z_plus. lra.
Qed.

Lemma gsteps_inv s s' : rtc step s s' → ginv s →
  ginv s' ∧ length (g_threads s') = length (g_threads s) ∧ (ledger s' <= ledger s)%Q.
Proof using add_ok burst_ok.
  induction 1 as [s|s s1 s' H1 _ IH]; intros Hs; [split_and!; [done|done|lra]|].
  destruct (IH (gstep_inv _ _ H1 Hs)) as (Hi & Hl & Hle).
  pose proof (gstep_ledger _ _ H1 Hs). split_and!; [done| |lra]. rewrite Hl. by apply length_step.
Qed.

Lemma window_bound threads s s' : 0 ≤ horizon → rtc step (initial threads) s → rtc step s s' →
  (inject_Z (1000 * (g_admitted s' - g_admitted s)) <=
   inject_Z (B + 1000 * Z.of_nat threads + in_flight s) +
   r * inject_Z (g_last_refill_ms (g_bucket s') - g_last_refill_ms (g_bucket s)))%Q ∧
  ginv s' ∧ length (g_threads s') = threads.
Proof using add_ok burst_ok.
  intros Hh H1 H2. destruct (gsteps_inv _ _ H1 (initial_inv threads Hh)) as (I1 & L1 & _).
  destruct (gsteps_inv _ _ H2 I1) as (I2 & L2 & Hle).
  assert (length (g_threads s) = threads) as Ht by (rewrite L1; apply length_replicate).
  pose proof (ginv_balance _ I1) as B1. pose proof (ginv_balance _ I2) as B2.
  pose proof (in_flight_nonneg _ I2) as F2. rewrite Ht in B1.
  split; [|split; [done|congruence]]. unfold ledger in Hle.
  assert (1000 * (g_admitted s' - g_admitted s) ≤
    (1000 * g_admitted s' + balance s' + in_flight s') - (1000 * g_admitted s + balance s + in_flight s) +
    (B + 1000 * Z.of_nat threads + in_flight s)) as Hz by lia.
  rewrite Zle_Qle in Hz. unfold Z.sub in Hz |- *.
  rewrite !(inject_Z_plus (_ + - _)), !(inject_Z_plus _ (- _)), !inject_Z_opp in Hz.
  rewrite (inject_Z_plus _ (- _)), inject_Z_opp. lra.
Qed.

End bounded_machine.

(** ** In binary64 and 64 bits *)

(** The integers a thread computes, and the tokens after the next addition or
    subtraction, fit. *)
Definition fits (x : Z) : Prop := - 2 ^ 63 ≤ x < 2 ^ 63.

Definition pc_fits (p : pc) : Prop :=
  match p with
  | PLoaded now last => fits (now - last)
  | PWon a => fits a
  | PRefill a old => fits (old + a)
  | _ => True
  end.

Definition widths_fit (s : gstate) : Prop :=
  fits (tokens_milli (g_bucket s) - 1000) ∧ fits (tokens_milli (g_bucket s) + 1000) ∧ Forall pc_fits (g_threads s).

(** What is assumed of the configuration and the clock: finite non-negative
    numbers whose products are clear of the limit of [int64_t]. *)
Record moderate (rate burst : spec_float) (r b : Q) (horizon : Z) : Prop := {
  mo_rate : represents rate r;
  mo_burst : represents burst b;
  mo_horizon : 0 ≤ horizon ≤ 2 ^ 62;
  mo_refill : (inject_Z horizon * r <= inject_Z (2 ^ 61))%Q;
  mo_capacity : (b * 1000 <= inject_Z (2 ^ 60))%Q
}.

Lemma grow_squared : (1 <= grow * grow)%Q ∧ (grow * grow <= 2)%Q.
Proof. split; by compute. Qed.

Section binary.
Context (rate burst : spec_float) (r b : Q) (horizon : Z).
Hypothesis Hm : moderate rate burst r b horizon.

Lemma refill_binary e : 0 < e ≤ horizon →
  (∃ q, represents (@d_mul binary64 (@d_of_Z binary64 e) rate) q) ∧
  0 ≤ @add_milli_of binary64 rate e ≤ 2 ^ 62 ∧
  (inject_Z (@add_milli_of binary64 rate e) <= r * (grow * grow) * inject_Z e)%Q.
Proof using Hm.
  intros He. destruct Hm as [Hr _ Hh Hrf _]. assert (0 <= r)%Q as Hr0 by by apply (represents_nonneg rate).
  assert (∀ k n, 0 ≤ k → n ≤ 2 ^ k → (inject_Z n <= pow2 k)%Q) as Hpow by (intros k n Hk Hn; rewrite pow2_Z by done; by rewrite <- Zle_Qle).
  assert (inject_Z e * r <= inject_Z (2 ^ 61))%Q as Hprod.
  { eapply Qle_trans; [|exact Hrf]. apply Qmult_le_compat_r; [rewrite <- Zle_Qle; lia|done]. }
  destruct (truncated_product e rate r) as (Hq & H0 & Hle); [lia|done| | |].
  { eapply Qle_trans; [exact Hprod|]. by apply Hpow. }
  { apply Hpow; [done|]. transitivity (2 ^ 62); [lia|by apply Z.pow_le_mono_r]. }
  split; [exact Hq|]. unfold add_milli_of. split.
  - split; [done|]. rewrite Zle_Qle. eapply Qle_trans; [exact Hle|].
    assert (0 <= inject_Z e * r)%Q as Hnn by (apply Qmult_le_0_compat; [change 0%Q with (inject_Z 0); rewrite <- Zle_Qle; lia|done]).
    eapply Qle_trans; [rewrite Qmult_comm; apply (Qmult_le_compat_r _ 2); [apply grow_squared|done]|].
    assert (inject_Z (2 ^ 62) == 2 * inject_Z (2 ^ 61))%Q as -> by (vm_compute; reflexivity). lra.
  - eapply Qle_trans; [exact Hle|]. apply Qle_lteq. right. ring.
Qed.

Lemma capacity_binary : (∃ q, represents (@d_mul binary64 burst (@d_of_Z binary64 1000)) q) ∧ 0 ≤ @burst_milli binary64 burst ≤ 2 ^ 61.
Proof using Hm.
  destruct Hm as [_ Hb _ _ Hc]. assert (represents (@d_of_Z binary64 1000) 1000) as Ht by (vm_compute; reflexivity).
  destruct (mul_represents _ _ _ _ Hb Ht) as (q & Hq & H0 & Hle).
  { eapply Qle_trans; [exact Hc|]. rewrite <- pow2_Z by done. by apply pow2_le. }
  destruct (trunc_represents _ _ Hq) as [Ht0 Ht1]. unfold burst_milli. split; [by exists q|]. split; [done|].
  rewrite Zle_Qle. eapply Qle_trans; [exact Ht1|]. assert (inject_Z (2 ^ 61) == 2 * inject_Z (2 ^ 60))%Q as -> by (vm_compute; reflexivity).
  assert (1 <= inject_Z (2 ^ 60))%Q by by compute. destruct Hle as [Hle|Hle]; [|lra].
  assert (0 <= b)%Q as Hb0 by by apply (represents_nonneg burst). pose proof (grow_twice (b * 1000)%Q ltac:(lra)). lra.
Qed.


End binary.

(** ** The sequential function *)

Section sequential.
Context `{Double}.
Context (rate burst : double) (horizon : Z).

(** One thread alone. *)
Definition solo (x y : GlobalBucket * pc * Z) : Prop :=
  ∃ won : bool, thread_step rate burst horizon x.1.1 x.1.2 y.1.1 y.1.2 won ∧ y.2 = x.2 + if won then 1 else 0.

Lemma solo_run x y ts i : rtc solo x y → ts !! i = Some x.1.2 →
  rtc (gstep rate burst horizon) (mkG x.1.1 ts x.2) (mkG y.1.1 (<[i := y.1.2]> ts) y.2).
Proof.
  intros Hr. revert ts. induction Hr as [x|x z y (won & Hst & Hn) _ IH]; intros ts Hi.
  { rewrite list_insert_id by done. reflexivity. }
  destruct x as [[g p] n], z as [[g1 p1] n1]. simpl in *. subst n1.
  eapply rtc_l; [by eapply gstep_intro|].
  rewrite <- (list_insert_insert_eq ts i y.1.2 p1).
  apply IH. apply list_lookup_insert_eq. by apply lookup_lt_Some in Hi.
Qed.

Lemma solo_step g p g' p' won n : thread_step rate burst horizon g p g' p' won →
  solo (g, p, n) (g', p', n + if won then 1 else 0).
Proof. intros. by exists won. Qed.

Lemma sequential_run now g ts n i :
  0 ≤ now ≤ horizon → d_leb rate (d_of_Z 0) = false → ts !! i = Some PCall →
  let '(d, g') := check_global now g rate burst in
  rtc (gstep rate burst horizon) (mkG g ts n)
    (mkG g' (<[i := PDone (allowed d)]> ts) (n + if allowed d then 1 else 0)).
Proof.
  intros Hnow Hr Hi. unfold check_global. rewrite Hr.
  set (g1 := if 0 <? _ then _ else _).
  assert (rtc solo (g, PCall, n) (g1, PTake, n)) as Hpre.
  { assert (∀ g p g' p', thread_step rate burst horizon g p g' p' false → solo (g, p, n) (g', p', n)) as Hs.
    { intros ???? Hst. exists false. split; [done|]. simpl. lia. }
    eapply rtc_l; [by apply Hs, (st_load _ _ _ _ now)|].
    unfold g1. destruct (0 <? _) eqn:E; bool_prop.
    - eapply rtc_l; [apply Hs; by apply st_won|].
      eapply rtc_l; [apply Hs, st_load_tokens|].
      apply rtc_once. by apply Hs, (st_refill rate burst horizon (mkGlobal (tokens_milli g) now)).
    - apply rtc_once. by apply Hs, st_no_refill. }
  destruct (1000 <=? tokens_milli g1) eqn:E; bool_prop; simpl.
  - apply (solo_run (g, PCall, n) (_, PDone true, n + 1) ts i); [|done].
    eapply rtc_r; [exact Hpre|]. apply (solo_step _ _ _ _ true). by apply st_take.
  - set (g2 := mkGlobal (tokens_milli g1 - 1000) (g_last_refill_ms g1)).
    apply (solo_run (g, PCall, n) (mkGlobal (tokens_milli g2 + 1000) (g_last_refill_ms g2), PDone false, n + 0) ts i); [|done].
    apply rtc_r with (g2, PRefund, n + 0); [apply rtc_r with (g1, PTake, n); [exact Hpre|]|].
    + apply (solo_step g1 PTake g2 PRefund false). by apply st_reject.
    + exists false. split; [apply (st_refund rate burst horizon (mkGlobal _ _))|simpl; lia].
Qed.

End sequential.

(** ** Examples *)

Definition rate5 : spec_float := Binary64.of_Z 5.
Definition burst2 : spec_float := Binary64.of_Z 2.

(** A thread calls, refills a bucket of burst 2 and is admitted. *)
Lemma sample_run :
  rtc (@gstep binary64 rate5 burst2 (2 ^ 50)) (initial 2)
    (mkG (mkGlobal 1000 3000) [PDone true; PIdle] 1).
Proof.
  eapply rtc_l; [apply (@gstep_intro binary64 rate5 burst2 (2 ^ 50) global0 [PIdle; PIdle] 0 0 PIdle global0 PCall false);
    [done|constructor; by left]|]. simpl.
  pose proof (@sequential_run binary64 rate5 burst2 (2 ^ 50) 3000 global0 [PCall; PIdle] 0 0 ltac:(lia) eq_refl eq_refl) as Hr.
  exact Hr.
Qed.

(** The factor is needed: the binary64 number nearest to a third is below it, and
    its product with 3 is rounded up to 1. *)
Lemma third_rounds_up :
  @add_milli_of binary64 (@d_div binary64 (@d_of_Z binary64 1) (@d_of_Z binary64 3)) 3 = 1.
Proof. vm_compute. reflexivity. Qed.

