(* ===== verification/RateSnapshot.v ===== *)
(** * Rate-limit snapshots (src/src/security/rate_limiter.hpp, write_snapshot, load_snapshot)

    The snapshot file: header, FNV-1a checksum and the little-endian body.  The
    iteration order of [std::unordered_map] is the class [MapOrder]; the bit
    pattern of a [double] is a pair of functions.  The theorems show that a
    snapshot read back within two minutes restores the tokens of every bucket and
    the limiter invariant, that a body with one damaged byte is never loaded, and
    that reading never fails to terminate or reads past the end of the body. *)

From Stdlib Require Import Floats.SpecFloat.
From S2P Require Import Prelude Doubles RateLimiter.

(** ** Bytes in memory *)

(** The [n] bytes of an integer, least significant first. *)
Fixpoint le_bytes (n : nat) (z : Z) : bytes :=
  match n with
  | O => []
  | S n' => chr (z `mod` 256) :: le_bytes n' (z / 256)
  end.

Fixpoint of_le (s : bytes) : Z :=
  match s with
  | [] => 0
  | c :: t => code c + 256 * of_le t
  end.

Lemma length_le_bytes n z : length (le_bytes n z) = n.
Proof. revert z. induction n as [|n IH]; intros z; simpl; [done|]. by rewrite IH. Qed.

Lemma of_le_bytes n z : 0 ≤ z < 256 ^ Z.of_nat n → of_le (le_bytes n z) = z.
Proof.
  revert z. induction n as [|n IH]; intros z Hz; cbn [le_bytes of_le].
  - change (256 ^ Z.of_nat 0) with 1 in Hz. lia.
  - rewrite Nat2Z.inj_succ, Z.pow_succ_r in Hz by lia.
    rewrite code_chr by (apply Z.mod_pos_bound; lia).
    rewrite IH; [pose proof (Z.div_mod z 256); lia|].
    split; [apply Z.div_pos; lia|apply Z.div_lt_upper_bound; lia].
Qed.

Lemma of_le_mod n z : of_le (le_bytes n z) = z `mod` 256 ^ Z.of_nat n.
Proof.
  revert z. induction n as [|n IH]; intros z; cbn [le_bytes of_le].
  - change (256 ^ Z.of_nat 0) with 1. by rewrite Z.mod_1_r.
  - rewrite code_chr by (apply Z.mod_pos_bound; lia).
    rewrite IH, Nat2Z.inj_succ, Z.pow_succ_r by lia.
    rewrite Z.rem_mul_r by lia. lia.
Qed.

Lemma take_le n z rest : take n (le_bytes n z ++ rest) = le_bytes n z.
Proof. rewrite <- (length_le_bytes n z) at 1. apply take_app_length. Qed.

Lemma drop_le n z rest : drop n (le_bytes n z ++ rest) = rest.
Proof. rewrite <- (length_le_bytes n z) at 1. apply drop_app_length. Qed.

Lemma slen_le n z rest : slen (le_bytes n z ++ rest) = Z.of_nat n + slen rest.
Proof. rewrite slen_app. unfold slen at 1. by rewrite length_le_bytes. Qed.

#[global] Arguments le_bytes : simpl never.

Definition fnv_step (hash : Z) (c : ascii) : Z := wrap32 (Z.lxor hash (code c) * 16777619).

Definition calculate_checksum (data : bytes) : Z := foldl fnv_step 2166136261 data.

Section model.
Context `{Double}.
Context (to_bits : double → Z) (of_bits : Z → double).

(** The order in which a range-for visits an [unordered_map]. *)
Class MapOrder := enumerate : gmap bytes TokenBucket → list (bytes * TokenBucket).
Class MapOrderLaws `{MapOrder} := enumerate_perm m : enumerate m ≡ₚ map_to_list m.

(** ** Writing *)

Definition write_entry (e : bytes * TokenBucket) : bytes :=
  let key_len := wrap32 (slen e.1) in
  le_bytes 4 key_len ++ take (Z.to_nat key_len) e.1 ++
  le_bytes 8 (last_refill_ms e.2) ++ le_bytes 8 (to_bits (tokens e.2)).

Definition write_shard (es : list (bytes * TokenBucket)) : bytes :=
  le_bytes 4 (wrap32 (Z.of_nat (length es))) ++ concat (write_entry <$> es).

Definition write_body (shards : list (list (bytes * TokenBucket))) : bytes :=
  concat (write_shard <$> shards).

Definition magic : bytes := "RATE_LIMIT".
Definition kHeaderSize : nat := 40.

(** The header structure; [pad] are its padding bytes, which are not
    initialized. *)
Definition write_header (pad : bytes) (written_at_ms total : Z) (body : bytes) : bytes :=
  magic ++ take 2 pad ++ le_bytes 4 1 ++ le_bytes 4 (calculate_checksum body) ++
  take 4 (drop 2 pad) ++ le_bytes 8 written_at_ms ++ le_bytes 8 total.

(** [persist_snapshot]: the file written at [now]. *)
Definition persist_snapshot `{MapOrder} (pad : bytes) (now : Z) (rl : RateLimiter) : bytes :=
  let shards := (λ s, enumerate (buckets s)) <$> shards_ rl in
  let body := write_body shards in
  write_header pad now (Z.of_nat (sum_list (length <$> shards))) body ++ body.

(** ** Reading *)

(** The inner loop: up to [count] entries, stopping where the body ends; what is
    left of the body. *)
Fixpoint read_entries (fuel : nat) (count : Z) (p : bytes) (m : gmap bytes TokenBucket) :
    gmap bytes TokenBucket * bytes :=
  match fuel with
  | O => (m, p)
  | S f =>
      if (count <=? 0) || beqb p [] then (m, p)
      else if slen p <? 4 then (m, p)
      else
        let key_len := of_le (take 4 p) in
        let p1 := drop 4 p in
        if slen p1 <? key_len then (m, p1)
        else
          let key := take (Z.to_nat key_len) p1 in
          let p2 := drop (Z.to_nat key_len) p1 in
          if slen p2 <? 16 then (m, p2)
          else
            let last := swrap64 (of_le (take 8 p2)) in
            let tok := of_bits (of_le (take 8 (drop 8 p2))) in
            let m' := match m !! key with
                      | Some _ => m
                      | None => <[key := mkBucket last tok]> m
                      end in
            read_entries f (count - 1) (drop 16 p2) m'
  end.

(** The outer loop over the shards. *)
Fixpoint read_shards (n : nat) (p : bytes) : list (gmap bytes TokenBucket) :=
  match n with
  | O => []
  | S n' =>
      if beqb p [] || (slen p <? 4) then replicate n ∅
      else
        let '(m, rest) := read_entries (length p) (of_le (take 4 p)) (drop 4 p) ∅ in
        m :: read_shards n' rest
  end.

(** A shard rebuilt from loaded buckets. *)
Definition rebuild_step (s : Shard) (e : bytes * TokenBucket) : Shard :=
  mkShard (buckets s) ((next_node s, e.1) :: lru_list s) (<[e.1 := next_node s]> (lru_index s)) (S (next_node s)).

Definition rebuild_shard `{MapOrder} (load_now : Z) (loaded : gmap bytes TokenBucket) : Shard :=
  let reset := (λ b, mkBucket load_now (tokens b)) <$> loaded in
  foldl rebuild_step (mkShard reset [] ∅ 0) (enumerate loaded).

(** [file] is [None] when there is none; [now] is the clock at the expiry check
    and [load_now] at the rebuild. *)
Definition load_snapshot `{MapOrder} (now load_now : Z) (file : option bytes) (rl : RateLimiter) : RateLimiter :=
  match file with
  | None => rl
  | Some f =>
      if slen f <? Z.of_nat kHeaderSize then rl
      else
        let version := of_le (take 4 (drop 12 f)) in
        let checksum := of_le (take 4 (drop 16 f)) in
        let written_at_ms := swrap64 (of_le (take 8 (drop 24 f))) in
        let body := drop kHeaderSize f in
        if negb (beqb (take 10 f) magic) then rl
        else if negb (version =? 1) then rl
        else if written_at_ms + 120 * 1000 <? now then rl
        else if negb (calculate_checksum body =? checksum) then rl
        else
          mkLimiter (cfg_ rl) (max_buckets_per_shard_ rl)
            (rebuild_shard load_now <$> read_shards kShards body) (global_ rl)
  end.

(** ** Reading back what was written *)

(** Sizes fit their 32-bit fields, and the bits of the tokens denote them. *)
Definition entry_ok (e : bytes * TokenBucket) : Prop :=
  slen e.1 < 2 ^ 32 ∧ 0 ≤ to_bits (tokens e.2) < 2 ^ 64 ∧ of_bits (to_bits (tokens e.2)) = tokens e.2.

(** The bucket as the file holds it. *)
Definition stored (b : TokenBucket) : TokenBucket := mkBucket (swrap64 (wrap64 (last_refill_ms b))) (tokens b).

Lemma read_entry f count e rest m : entry_ok e → 0 < count → m !! e.1 = None →
  read_entries (S f) count (write_entry e ++ rest) m =
  read_entries f (count - 1) rest (<[e.1 := stored e.2]> m).
Proof.
  destruct e as [key b]. intros (Hk & Hb & Hbits) Hc Hm. unfold write_entry. cbn [fst snd] in *.
  pose proof (slen_nonneg key) as Hk0.
  assert (wrap32 (slen key) = slen key) as -> by (unfold wrap32; apply Z.mod_small; lia).
  assert (Z.to_nat (slen key) = length key) as Hlen by (unfold slen; lia).
  rewrite Hlen, take_ge by done. rewrite <- !app_assoc. cbn [read_entries].
  set (p2 := le_bytes 8 (last_refill_ms b) ++ le_bytes 8 (to_bits (tokens b)) ++ rest).
  replace (count <=? 0) with false by lia.
  replace (beqb _ []) with false by (symmetry; by apply beqb_ne).
  rewrite slen_le. change (Z.of_nat 4) with 4 at 1.
  replace (4 + slen (key ++ p2) <? 4) with false by (pose proof (slen_nonneg (key ++ p2)); lia).
  cbn [orb]. rewrite take_le, drop_le, of_le_bytes by (change (256 ^ Z.of_nat 4) with (2 ^ 32); lia).
  rewrite slen_app, Hlen, take_app_length, drop_app_length.
  replace (slen key + slen p2 <? slen key) with false by (pose proof (slen_nonneg p2); lia).
  unfold p2. rewrite !slen_le. change (Z.of_nat 8) with 8. replace (_ <? 16) with false by (pose proof (slen_nonneg rest); lia).
  rewrite take_le, drop_le, take_le, Hm.
  replace (drop 16 _) with rest.
  - rewrite of_le_mod. rewrite of_le_bytes by (change (256 ^ Z.of_nat 8) with (2 ^ 64); lia).
    by rewrite Hbits.
  - change 16%nat with (8 + 8)%nat. by rewrite <- drop_drop, !drop_le.
Qed.

Lemma read_entries_written es fuel rest m :
  Forall entry_ok es → NoDup es.*1 → (∀ k, k ∈ es.*1 → m !! k = None) → (length es < fuel)%nat →
  read_entries fuel (Z.of_nat (length es)) (concat (write_entry <$> es) ++ rest) m =
  (list_to_map (prod_map id stored <$> es) ∪ m, rest).
Proof.
  intros Hok. revert fuel m. induction Hok as [|[k b] es He Hes IH]; intros fuel m Hnd Hm Hf.
  - destruct fuel; [lia|]. simpl. by rewrite (left_id_L ∅ (∪)).
  - destruct fuel as [|fuel]; [simpl in Hf; lia|]. rewrite fmap_cons. cbn [concat]. rewrite <- app_assoc.
    rewrite fmap_cons in Hnd. apply NoDup_cons in Hnd as [Hk Hnd]. simpl in Hk, Hf.
    rewrite read_entry; [|done|simpl; lia|apply Hm; rewrite fmap_cons; left].
    replace (Z.of_nat (length ((k, b) :: es)) - 1) with (Z.of_nat (length es)) by (simpl; lia).
    rewrite IH; [|done| |lia].
    + f_equal. simpl. rewrite <- insert_union_l, insert_union_r; [done|].
      apply not_elem_of_list_to_map_1. rewrite <- list_fmap_compose. exact Hk.
    + intros x Hx. simpl. rewrite lookup_insert_ne by (intros ->; done).
      apply Hm. rewrite fmap_cons. by right.
Qed.

Lemma length_write_entry e : (20 ≤ length (write_entry e))%nat.
Proof. unfold write_entry. rewrite !length_app, !length_le_bytes. lia. Qed.

Lemma length_entries es : (20 * length es ≤ length (concat (write_entry <$> es)))%nat.
Proof.
  induction es as [|e es IH]; [simpl; lia|]. rewrite fmap_cons. cbn [concat length].
  rewrite length_app. pose proof (length_write_entry e). lia.
Qed.

Lemma read_shards_written shs :
  Forall (λ es, Forall entry_ok es ∧ NoDup es.*1 ∧ Z.of_nat (length es) < 2 ^ 32) shs →
  read_shards (length shs) (write_body shs) = (λ es, list_to_map (prod_map id stored <$> es)) <$> shs.
Proof.
  induction 1 as [|es shs (Hok & Hnd & Hlen) _ IH]; [done|].
  cbn [length read_shards]. unfold write_body in *. rewrite fmap_cons. cbn [concat].
  set (tail := concat (write_shard <$> shs)) in *.
  change (write_shard es) with (le_bytes 4 (wrap32 (Z.of_nat (length es))) ++ concat (write_entry <$> es)).
  rewrite <- app_assoc. replace (beqb _ []) with false by (symmetry; by apply beqb_ne).
  pose proof (slen_nonneg (concat (write_entry <$> es) ++ tail)) as Hnn.
  rewrite slen_le. change (Z.of_nat 4) with 4 at 1. replace (4 + _ <? 4) with false by lia.
  cbn [orb]. rewrite take_le, drop_le.
  assert (wrap32 (Z.of_nat (length es)) = Z.of_nat (length es)) as -> by (unfold wrap32; apply Z.mod_small; lia).
  rewrite of_le_bytes by (change (256 ^ Z.of_nat 4) with (2 ^ 32); lia).
  rewrite read_entries_written; [|done|done|by intros; apply lookup_empty|].
  - rewrite (right_id_L ∅ (∪)), IH. done.
  - rewrite !length_app, length_le_bytes. pose proof (length_entries es). lia.
Qed.

(** The loop stops at the end of the body: more fuel changes nothing. *)
Lemma read_entries_fuel f1 f2 count p m :
  (length p < f1)%nat → (length p < f2)%nat → read_entries f1 count p m = read_entries f2 count p m.
Proof.
  revert f2 count p m. induction f1 as [|f1 IH]; intros [|f2] count p m H1 H2; try lia.
  cbn [read_entries]. case_if; [done|]. case_if; [done|]. case_if; [done|]. case_if; [done|].
  unfold slen in *. bool_prop. rewrite !length_drop in *. apply IH; rewrite !length_drop; lia.
Qed.

(** ** Rebuilding *)

Lemma rebuild_list s es :
  let s' := foldl rebuild_step s es in
  buckets s' = buckets s ∧ lru_keys s' = reverse es.*1 ++ lru_keys s.
Proof.
  revert s. induction es as [|e es IH]; intros s; simpl; [done|].
  destruct (IH (rebuild_step s e)) as [-> Hk]. simpl in *. split; [done|].
  rewrite Hk, reverse_cons, <- app_assoc. done.
Qed.

Lemma rebuild_step_links s e : NoDup (lru_list s).*1 →
  (∀ k id, lru_index s !! k = Some id ↔ (id, k) ∈ lru_list s) →
  (∀ id, id ∈ (lru_list s).*1 → (id < next_node s)%nat) → e.1 ∉ lru_keys s →
  let s' := rebuild_step s e in
  NoDup (lru_list s').*1 ∧ (∀ k id, lru_index s' !! k = Some id ↔ (id, k) ∈ lru_list s') ∧
  (∀ id, id ∈ (lru_list s').*1 → (id < next_node s')%nat).
Proof.
  intros H1 H2 H3 Hn. simpl. split_and!.
  - constructor; [|done]. intros Hin. specialize (H3 _ Hin). lia.
  - intros k id. rewrite elem_of_cons. destruct (decide (k = e.1)) as [->|Hne].
    + rewrite lookup_insert_eq. split; [intros [= <-]; by left|]. intros [[= ->]|Hin]; [done|].
      destruct Hn. apply list_elem_of_fmap. by exists (id, e.1).
    + rewrite lookup_insert_ne, H2 by done. naive_solver.
  - intros id [->|Hin]%elem_of_cons; [lia|]. specialize (H3 _ Hin). lia.
Qed.

Lemma rebuild_inv `{MapOrder} `{!MapOrderLaws} load_now loaded :
  let s := rebuild_shard load_now loaded in
  shard_inv s ∧ buckets s = (λ b, mkBucket load_now (tokens b)) <$> loaded ∧
  ∀ k, k ∈ lru_keys s ↔ is_Some (loaded !! k).
Proof.
  unfold rebuild_shard. set (B := _ <$> loaded). set (es := enumerate loaded).
  assert (NoDup es.*1) as Hnd by (unfold es; rewrite enumerate_perm; apply NoDup_fst_map_to_list).
  destruct (rebuild_list (mkShard B [] ∅ 0) es) as [Hb Hk]. unfold lru_keys in Hk at 2. simpl in Hk.
  rewrite app_nil_r in Hk.
  assert (∀ k, k ∈ reverse es.*1 ↔ is_Some (loaded !! k)) as Hdom.
  { intros k. rewrite elem_of_reverse. unfold es. rewrite enumerate_perm, list_elem_of_fmap.
    setoid_rewrite elem_of_map_to_list'. split; [intros ([? ?] & -> & ?); eauto|].
    intros [b Hb']. by exists (k, b). }
  split_and!; [|done|intros k; by rewrite Hk].
  assert (∀ s, NoDup (lru_list s).*1 → (∀ k id, lru_index s !! k = Some id ↔ (id, k) ∈ lru_list s) →
    (∀ id, id ∈ (lru_list s).*1 → (id < next_node s)%nat) → (∀ k, k ∈ es.*1 → k ∉ lru_keys s) →
    let s' := foldl rebuild_step s es in
    NoDup (lru_list s').*1 ∧ (∀ k id, lru_index s' !! k = Some id ↔ (id, k) ∈ lru_list s') ∧
    (∀ id, id ∈ (lru_list s').*1 → (id < next_node s')%nat)) as Hlinks.
  { clear Hdom Hb Hk. induction es as [|e es IH]; intros s L1 L2 L3 Hn; [done|].
    rewrite fmap_cons in Hnd. apply NoDup_cons in Hnd as [Hne Hnd]. cbn [foldl].
    destruct (rebuild_step_links s e L1 L2 L3) as (I1 & I2 & I3); [apply Hn; rewrite fmap_cons; left|].
    apply IH; try done. intros k Hin. unfold lru_keys. simpl. intros [->|Hin']%elem_of_cons; [done|].
    apply (Hn k); [rewrite fmap_cons; by right|done]. }
  destruct (Hlinks (mkShard B [] ∅ 0)) as (I1 & I2 & I3).
  { constructor. }
  { intros k id. simpl. rewrite lookup_empty. split; [done|]. by intros ?%not_elem_of_nil. }
  { by intros id ?%not_elem_of_nil. }
  { by intros k _ ?%not_elem_of_nil. }
  split; [by rewrite Hk, reverse_Permutation|done|done| |done].
  intros k. rewrite Hb, Hk, Hdom. simpl. unfold B. by rewrite lookup_fmap, fmap_is_Some.
Qed.

(** ** The whole file *)

Lemma header_fields pad w t body : length pad = 6%nat →
  let f := write_header pad w t body ++ body in
  take 10 f = magic ∧ of_le (take 4 (drop 12 f)) = 1 ∧
  take 4 (drop 16 f) = le_bytes 4 (calculate_checksum body) ∧
  take 8 (drop 24 f) = le_bytes 8 w ∧ drop kHeaderSize f = body ∧ length f = (40 + length body)%nat.
Proof.
  intros Hpad. destruct pad as [|p0 [|p1 [|p2 [|p3 [|p4 [|p5 [|]]]]]]]; try done.
Qed.

Lemma checksum_range body : 0 ≤ calculate_checksum body < 2 ^ 32.
Proof.
  unfold calculate_checksum. destruct body as [|c body] using rev_ind; [simpl; lia|].
  rewrite foldl_app. simpl. unfold fnv_step, wrap32. apply Z.mod_pos_bound. lia.
Qed.

Section roundtrip.
Context `{!MapOrder, !MapOrderLaws, StdHash}.

(** Every bucket of the limiter fits the file format. *)
Definition storable (rl : RateLimiter) : Prop :=
  ∀ i s, shards_ rl !! i = Some s → Z.of_nat (size (buckets s)) < 2 ^ 32 ∧
    ∀ k b, buckets s !! k = Some b → entry_ok (k, b).

Lemma loaded_shards rl : limiter_inv rl → storable rl →
  read_shards kShards (write_body ((λ s, enumerate (buckets s)) <$> shards_ rl)) =
  (λ s, stored <$> buckets s) <$> shards_ rl.
Proof.
  intros Hrl Hst. rewrite <- (lim_shards rl Hrl), <- (length_fmap (λ s, enumerate (buckets s))).
  rewrite read_shards_written.
  - rewrite <- list_fmap_compose. apply list_fmap_ext. intros i s Hs. simpl.
    rewrite list_to_map_fmap. f_equal.
    rewrite (list_to_map_proper (enumerate (buckets s)) (map_to_list (buckets s))).
    + apply list_to_map_to_list.
    + rewrite enumerate_perm. apply NoDup_fst_map_to_list.
    + apply enumerate_perm.
  - rewrite Forall_fmap. apply Forall_lookup. intros i s Hs. simpl.
    destruct (Hst i s Hs) as [Hsize Hent]. split_and!.
    + rewrite enumerate_perm. apply Forall_forall. intros [k b] Hin%elem_of_map_to_list. auto.
    + rewrite enumerate_perm. apply NoDup_fst_map_to_list.
    + rewrite enumerate_perm, length_map_to_list. done.
Qed.

(** a restart within two minutes loses no rate-limit state.  Loading the
    file that [persist_snapshot] wrote restores every bucket with its tokens,
    its refill clock reset to the new process's clock, into the shard its key
    hashes to, and the limiter invariant holds again. *)
Lemma snapshot_roundtrip pad now now' load_now rl rl0 :
  limiter_inv rl → limiter_inv rl0 → storable rl → length pad = 6%nat →
  - 2 ^ 63 ≤ now < 2 ^ 63 → now' ≤ now + 120000 →
  let rl' := load_snapshot now' load_now (Some (persist_snapshot pad now rl)) rl0 in
  limiter_inv rl' ∧
  ∀ key, bucket_of rl' key = (λ b, mkBucket load_now (tokens b)) <$> bucket_of rl key.
Proof.
  intros Hrl Hrl0 Hst Hpad Hnow Hfresh rl'.
  set (body := write_body ((λ s, enumerate (buckets s)) <$> shards_ rl)).
  assert (shards_ rl' = (λ s, rebuild_shard load_now (stored <$> buckets s)) <$> shards_ rl ∧
    max_buckets_per_shard_ rl' = max_buckets_per_shard_ rl0) as [Hsh Hmax].
  { subst rl'. unfold load_snapshot, persist_snapshot. fold body.
    set (t := Z.of_nat _).
    destruct (header_fields pad now t body Hpad) as (F1 & F2 & F3 & F4 & F5 & F6).
    unfold slen. rewrite F1, F2, F3, F4, F5, F6. change (Z.of_nat kHeaderSize) with 40.
    replace (_ <? 40) with false by (symmetry; apply Z.ltb_ge; lia). rewrite beqb_refl. cbn [negb]. change (1 =? 1) with true. cbn [negb].
    rewrite of_le_mod. change (256 ^ Z.of_nat 8) with (2 ^ 64).
    replace (swrap64 (now `mod` 2 ^ 64)) with now.
    2:{ unfold swrap64. rewrite Z.add_mod_idemp_l by lia. rewrite Z.mod_small by lia. lia. }
    replace (now + 120 * 1000 <? now') with false by lia.
    rewrite of_le_bytes by (change (256 ^ Z.of_nat 4) with (2 ^ 32); apply checksum_range).
    rewrite Z.eqb_refl. cbn [negb shards_ max_buckets_per_shard_].
    unfold body. rewrite loaded_shards by done. by rewrite <- list_fmap_compose. }
  assert (∀ i s', shards_ rl' !! i = Some s' → ∃ s, shards_ rl !! i = Some s ∧
    s' = rebuild_shard load_now (stored <$> buckets s)) as Hlook.
  { intros i s'. rewrite Hsh, list_lookup_fmap. destruct (shards_ rl !! i); simpl; naive_solver. }
  split.
  - split.
    + rewrite Hsh, length_fmap. apply Hrl.
    + intros i s' (s & Hs & ->)%Hlook. apply rebuild_inv.
    + intros i s' k (s & Hs & ->)%Hlook Hk. apply rebuild_inv in Hk.
      rewrite lookup_fmap, fmap_is_Some in Hk. eapply (lim_home rl Hrl); [done|].
      by apply (inv_buckets s (lim_shard rl Hrl _ _ Hs)).
    + rewrite Hmax. apply Hrl0.
  - intros key. unfold bucket_of. rewrite Hsh, list_lookup_fmap.
    destruct (shards_ rl !! shard_of key) as [s|]; simpl; [|done].
    destruct (rebuild_inv load_now (stored <$> buckets s)) as (_ & -> & _).
    rewrite !lookup_fmap. by destruct (buckets s !! key).
Qed.

End roundtrip.

(** ** Damage *)

(** 899433627 inverts the FNV prime modulo 2^32, so each step is a bijection. *)
Lemma fnv_step_inj h1 h2 a b :
  0 ≤ h1 < 2 ^ 32 → 0 ≤ h2 < 2 ^ 32 → fnv_step h1 a = fnv_step h2 b → Z.lxor h1 (code a) = Z.lxor h2 (code b).
Proof.
  intros R1 R2 Heq. unfold fnv_step, wrap32 in Heq.
  assert (∀ h c, 0 ≤ h < 2 ^ 32 → 0 ≤ Z.lxor h (code c) < 2 ^ 32) as Hx.
  { intros h c Hh. pose proof (code_range c) as Hc.
    assert (0 ≤ Z.lxor h (code c)) as H0' by (apply Z.lxor_nonneg; lia). split; [done|].
    destruct (decide (Z.lxor h (code c) = 0)) as [->|Hne]; [lia|].
    apply Z.log2_lt_pow2; [lia|]. eapply Z.le_lt_trans; [apply Z.log2_lxor; lia|].
    apply Z.max_lub_lt.
    - destruct (decide (h = 0)) as [->|]; [simpl; lia|]. apply Z.log2_lt_pow2; lia.
    - destruct (decide (code c = 0)) as [->|]; [simpl; lia|]. apply Z.log2_lt_pow2; lia. }
  assert (∀ x, 0 ≤ x < 2 ^ 32 → ((x * 16777619) `mod` 2 ^ 32 * 899433627) `mod` 2 ^ 32 = x) as Hinv.
  { intros x Hr. rewrite Z.mul_mod_idemp_l by lia. rewrite <- Z.mul_assoc.
    replace (16777619 * 899433627) with (1 + 3513497 * 2 ^ 32) by reflexivity.
    rewrite Z.mul_add_distr_l, Z.mul_1_r, Z.mul_assoc, Z.mod_add by lia. apply Z.mod_small. lia. }
  rewrite <- (Hinv (Z.lxor h1 (code a))), <- (Hinv (Z.lxor h2 (code b))) by auto. by rewrite Heq.
Qed.

Lemma fnv_range h c : 0 ≤ fnv_step h c < 2 ^ 32.
Proof. unfold fnv_step, wrap32. apply Z.mod_pos_bound. lia. Qed.

Lemma fnv_fold_inj body h1 h2 :
  0 ≤ h1 < 2 ^ 32 → 0 ≤ h2 < 2 ^ 32 → foldl fnv_step h1 body = foldl fnv_step h2 body → h1 = h2.
Proof.
  revert h1 h2. induction body as [|c body IH]; intros h1 h2 R1 R2; simpl; [done|].
  intros Heq%IH; [|apply fnv_range|apply fnv_range]. apply fnv_step_inj in Heq; [|done|done].
  rewrite <- (Z.lxor_0_r h1), <- (Z.lxor_0_r h2), <- (Z.lxor_nilpotent (code c)), <- !Z.lxor_assoc.
  by rewrite Heq.
Qed.

Lemma checksum_one_byte pre suf a b : a ≠ b →
  calculate_checksum (pre ++ a :: suf) ≠ calculate_checksum (pre ++ b :: suf).
Proof.
  intros Hab Heq. unfold calculate_checksum in Heq. rewrite !foldl_app in Heq. simpl in Heq.
  apply fnv_fold_inj in Heq; [|apply fnv_range|apply fnv_range].
  apply fnv_step_inj in Heq; [|apply checksum_range|apply checksum_range].
  apply Hab, code_inj. fold (calculate_checksum pre) in Heq.
  set (h := calculate_checksum pre) in *.
  rewrite <- (Z.lxor_0_l (code a)), <- (Z.lxor_0_l (code b)), <- (Z.lxor_nilpotent h), !Z.lxor_assoc.
  by rewrite Heq.
Qed.

(** a damaged snapshot is never loaded.  When one byte of the body differs
    from what was written, the checksum (FNV-1a, every step of which is a
    bijection of the 32-bit state) differs, and [load_snapshot] leaves the
    limiter as it was. *)
Lemma snapshot_damage_detected `{MapOrder} pad now now' load_now total pre suf a b rl :
  length pad = 6%nat → a ≠ b →
  load_snapshot now' load_now
    (Some (write_header pad now total (pre ++ a :: suf) ++ (pre ++ b :: suf))) rl = rl.
Proof.
  intros Hpad Hab. unfold load_snapshot. case_if; [done|]. case_if; [done|]. case_if; [done|].
  case_if; [done|].
  set (body := pre ++ a :: suf). set (body' := pre ++ b :: suf).
  assert (length (write_header pad now total body) = 40%nat) as Hl.
  { destruct (header_fields pad now total body Hpad) as (_ & _ & _ & _ & _ & Hlen).
    rewrite length_app in Hlen. lia. }
  assert (drop kHeaderSize (write_header pad now total body ++ body') = body') as ->.
  { unfold kHeaderSize. rewrite <- Hl. apply drop_app_length. }
  assert (take 4 (drop 16 (write_header pad now total body ++ body')) = le_bytes 4 (calculate_checksum body)) as ->.
  { destruct (header_fields pad now total body Hpad) as (_ & _ & <- & _).
    rewrite !drop_app_le, !take_app_le by (rewrite ?length_drop, Hl; lia). done. }
  rewrite of_le_bytes by (change (256 ^ Z.of_nat 4) with (2 ^ 32); apply checksum_range).
  rewrite (proj2 (Z.eqb_neq _ _)); [done|]. by apply checksum_one_byte.
Qed.
End model.

(** ** The IEEE bit pattern *)

Module Binary64Bits.

Definition sign_bit (s : bool) : Z := if s then 2 ^ 63 else 0.

Definition to_bits (x : spec_float) : Z :=
  match x with
  | S754_zero s => sign_bit s
  | S754_infinity s => sign_bit s + 2047 * 2 ^ 52
  | S754_nan => 2047 * 2 ^ 52 + 2 ^ 51
  | S754_finite s m e =>
      sign_bit s + if Z.pos m <? 2 ^ 52 then Z.pos m else (e + 1075) * 2 ^ 52 + (Z.pos m - 2 ^ 52)
  end.

Definition of_bits (z : Z) : spec_float :=
  let s := 2 ^ 63 <=? z in
  let ex := (z / 2 ^ 52) `mod` 2048 in
  let fr := z `mod` 2 ^ 52 in
  if ex =? 0 then match fr with Z.pos m => S754_finite s m (-1074) | _ => S754_zero s end
  else if ex =? 2047 then (if fr =? 0 then S754_infinity s else S754_nan)
  else match fr + 2 ^ 52 with Z.pos m => S754_finite s m (ex - 1075) | _ => S754_nan end.

End Binary64Bits.

(** ** Examples *)

Definition sample_order : @MapOrder binary64 := map_to_list.

#[export] Instance sample_order_laws : @MapOrderLaws binary64 sample_order.
Proof. intros m. done. Qed.

(** A limiter that has charged one client. *)
Definition client : bytes := "10.0.0.1".
Definition client_shard : @Shard binary64 :=
  mkShard {[client := @mkBucket binary64 1000 (Binary64.of_Z 1)]} [(0%nat, client)] {[client := 0%nat]} 1.
Definition charged : @RateLimiter binary64 :=
  mkLimiter (cfg_ sample_limiter) 2 (<[8%nat := client_shard]> (replicate kShards shard0)) global0.

Lemma charged_shards i s : shards_ charged !! i = Some s → s = shard0 ∨ (i = 8%nat ∧ s = client_shard).
Proof.
  intros Hj. apply list_lookup_insert_Some in Hj as [(<- & <- & _)|[_ [-> _]%lookup_replicate]]; auto.
Qed.

Lemma charged_inv : @limiter_inv binary64 sample_hash charged.
Proof.
  split.
  - unfold charged. cbn [shards_]. by rewrite length_insert, length_replicate.
  - intros i s [->|[_ ->]]%charged_shards; [apply shard0_inv|]. split; unfold lru_keys; simpl.
    + apply NoDup_singleton.
    + apply NoDup_singleton.
    + intros k id. rewrite lookup_singleton_Some, list_elem_of_singleton. naive_solver.
    + intros k. rewrite lookup_singleton_is_Some, list_elem_of_singleton. naive_solver.
    + intros id ->%list_elem_of_singleton. lia.
  - intros i s k [->|[-> ->]]%charged_shards.
    + by intros ?%not_elem_of_nil.
    + unfold lru_keys. simpl. intros ->%list_elem_of_singleton. reflexivity.
  - simpl. lia.
Qed.

Lemma charged_storable :
  @storable binary64 Binary64Bits.to_bits Binary64Bits.of_bits charged.
Proof.
  intros i s [->|[_ ->]]%charged_shards.
  - split; [cbn [buckets shard0]; rewrite map_size_empty; lia|]. intros k b Hk. cbn [buckets shard0] in Hk. by rewrite lookup_empty in Hk.
  - split; [cbn [buckets client_shard]; rewrite map_size_singleton; lia|].
    cbn [buckets client_shard]. intros k b [<- <-]%lookup_singleton_Some. unfold entry_ok. cbn [fst snd tokens].
    split; [vm_compute; reflexivity|]. split; [split; vm_compute; [discriminate|reflexivity]|vm_compute; reflexivity].
Qed.

Lemma snapshot_roundtrip_witness :
  @bucket_of binary64 sample_hash
    (@load_snapshot binary64 Binary64Bits.of_bits sample_order 61000 61001
      (Some (@persist_snapshot binary64 Binary64Bits.to_bits sample_order "abcdef" 2000 charged)) sample_limiter)
    "10.0.0.1" = Some (@mkBucket binary64 61001 (Binary64.of_Z 1)).
Proof.
  pose proof (proj2 (@snapshot_roundtrip binary64 Binary64Bits.to_bits Binary64Bits.of_bits sample_order sample_order_laws
    sample_hash "abcdef" 2000 61000 61001 charged sample_limiter charged_inv ltac:(apply new_limiter_inv)
    charged_storable
    eq_refl ltac:(lia) ltac:(lia)) "10.0.0.1") as Hb.
  rewrite Hb. reflexivity.
Defined.

Lemma snapshot_damage_detected_witness :
  @load_snapshot binary64 Binary64Bits.of_bits sample_order 10 10
    (Some (write_header "abcdef" 5 1 ("ab" ++ "c" ++ "d") ++ ("ab" ++ "x" ++ "d"))) sample_limiter = sample_limiter.
Proof.
  apply (@snapshot_damage_detected binary64 Binary64Bits.of_bits sample_order "abcdef" 5 10 10 1 "ab" "d" "c"%char "x"%char).
  - reflexivity.
  - discriminate.
Defined.
