(* ===== verification/SnapshotFile.v ===== *)
(** * The file of the rate-limit snapshot (src/src/security/rate_limiter.hpp,
      persist_snapshot, write_snapshot)

    The timer and the destructor may call [persist_snapshot] from several threads;
    a flag lets one of them in.  It copies the shards one lock at a time, writes
    the copy to a temporary file and renames that.  The threads interleave at the
    grain of the flag, the writes and the file operations, each of which may fail.
    The theorem shows that the snapshot's own file is at every moment (and so
    after the process has died at any moment) the one from before or a complete
    snapshot, which the checks of the next start accept. *)

From stdpp Require Import relations.
From S2P Require Import Prelude Doubles RateLimiter RateSnapshot.

Section model.
Context `{Double} (to_bits : double → Z).

(** What is written for a copy of the shards. *)
Definition snapshot_data (pad : bytes) (now : Z) (shards : list (list (bytes * TokenBucket))) : bytes :=
  let body := write_body to_bits shards in
  write_header pad now (Z.of_nat (sum_list (length <$> shards))) body ++ body.

Definition complete (data : bytes) : Prop := ∃ pad now shards, length pad = 6%nat ∧ data = snapshot_data pad now shards.

(** The two files and [snapshot_busy_]. *)
Record disk := mkDisk { dk_file : option bytes; dk_tmp : option bytes; dk_busy : bool }.

(** Where a thread is in [persist_snapshot]. *)
Inductive persist_pc :=
| POut
| PCopy                                    (* in, the shards are being copied *)
| POpen (data : bytes)
| PWrite (data rest : bytes)               (* [rest] is still to be written *)
| PRename (data : bytes)                   (* written, flushed and closed *)
| PLeave.                                  (* the guard resets the flag *)

Inductive persist_event :=
| EvEnter                                  (* persist_snapshot is called *)
| EvCopied (pad : bytes) (now : Z) (shards : list (list (bytes * TokenBucket)))
| EvOk
| EvChunk (n : nat)                        (* the stream hands [n] bytes to the file *)
| EvFail.                                  (* an allocation, a write, a flush, a close or the rename fails *)

Definition persist_step (ev : persist_event) (d : disk) (p : persist_pc) : option (disk * persist_pc) :=
  match p, ev with
  | POut, EvEnter => Some (mkDisk (dk_file d) (dk_tmp d) true, if dk_busy d then POut else PCopy)
  | PCopy, EvCopied pad now shards =>
      if bool_decide (length pad = 6%nat) then Some (d, POpen (snapshot_data pad now shards)) else None
  | POpen data, EvOk => Some (mkDisk (dk_file d) (Some []) (dk_busy d), PWrite data data)
  | PWrite data rest, EvChunk n =>
      Some (mkDisk (dk_file d) (Some (default [] (dk_tmp d) ++ take n rest)) (dk_busy d), PWrite data (drop n rest))
  | PWrite data [], EvOk => Some (d, PRename data)
  | PRename _, EvOk => Some (mkDisk (dk_tmp d) None (dk_busy d), PLeave)
  | (PCopy | POpen _ | PWrite _ _ | PRename _), EvFail => Some (d, PLeave)
  | PLeave, EvOk => Some (mkDisk (dk_file d) (dk_tmp d) false, POut)
  | _, _ => None
  end.

Inductive disk_step : disk * list persist_pc → disk * list persist_pc → Prop :=
| disk_thread d ts i p ev d' p' :
    ts !! i = Some p → persist_step ev d p = Some (d', p') → disk_step (d, ts) (d', <[i := p']> ts).

(** ** The invariant *)

Definition inside (p : persist_pc) : Z := match p with POut => 0 | _ => 1 end.

(** What a thread knows about the temporary file. *)
Definition tmp_ok (tmp : option bytes) (p : persist_pc) : Prop :=
  match p with
  | POpen data => complete data
  | PWrite data rest => complete data ∧ ∃ written, tmp = Some written ∧ written ++ rest = data
  | PRename data => complete data ∧ tmp = Some data
  | _ => True
  end.

Definition disk_inv (file0 : option bytes) (s : disk * list persist_pc) : Prop :=
  total inside s.2 = Z.b2z (dk_busy s.1) ∧
  (dk_file s.1 = file0 ∨ ∃ data, dk_file s.1 = Some data ∧ complete data) ∧
  ∀ i p, s.2 !! i = Some p → tmp_ok (dk_tmp s.1) p.

Lemma inside_nonneg p : 0 ≤ inside p.
Proof. by destruct p. Qed.

(** Only the thread that holds the flag touches the temporary file. *)
Lemma others_out d ts i p j q : total inside ts = Z.b2z (dk_busy d) → ts !! i = Some p → p ≠ POut →
  ts !! j = Some q → i ≠ j → q = POut.
Proof.
  intros Ht Hi Hp Hj Hij. pose proof (total_two inside ts i j p q inside_nonneg Hi Hj Hij) as Htwo.
  assert (inside p = 1) by (by destruct p). destruct q; [done|..]; cbn in Htwo; destruct (dk_busy d); cbn in Ht; lia.
Qed.

(** The step of the thread that holds the flag. *)
Lemma persist_step_ok file0 ev d p d' p' :
  p ≠ POut → persist_step ev d p = Some (d', p') → tmp_ok (dk_tmp d) p →
  (dk_file d = file0 ∨ ∃ data, dk_file d = Some data ∧ complete data) →
  tmp_ok (dk_tmp d') p' ∧ (dk_file d' = file0 ∨ ∃ data, dk_file d' = Some data ∧ complete data) ∧
  (dk_busy d = true → Z.b2z (dk_busy d') = inside p').
Proof.
  intros Hp Hs Ht Hf.
  destruct p as [| |data|data rest|data|]; [done|destruct ev as [|pad now shards| |n|]; try done; cbn [persist_step] in Hs; try (by destruct rest)..].
  - case_bool_decide; [|done]. simplify_eq/=. split_and!; [by exists pad, now, shards|done|by intros ->].
  - simplify_eq/=. split_and!; [done|done|by intros ->].
  - simplify_eq/=. split_and!; [done|by exists []|done|by intros ->].
  - simplify_eq/=. split_and!; [done|done|by intros ->].
  - destruct rest; [|done]. simplify_eq/=. destruct Ht as [Hc (written & Hw & Heq)]. rewrite app_nil_r in Heq.
    subst. split_and!; [done|done|done|by intros ->].
  - assert (d' = mkDisk (dk_file d) (Some (default [] (dk_tmp d) ++ take n rest)) (dk_busy d) ∧ p' = PWrite data (drop n rest)) as [-> ->]
      by (destruct rest; by simplify_eq).
    destruct Ht as [Hc (written & Hw & Heq)]. cbn. split_and!; [done| |done|by intros ->].
    exists (written ++ take n rest). rewrite Hw. split; [done|]. by rewrite <- app_assoc, take_drop.
  - destruct rest; simplify_eq/=; split_and!; done || by intros ->.
  - simplify_eq/=. destruct Ht as [Hc Hw]. split_and!; [done|right; by exists data|by intros ->].
  - simplify_eq/=. split_and!; [done|done|by intros ->].
  - simplify_eq/=. split_and!; [done|done|done].
Qed.

Lemma disk_step_inv file0 s s' : disk_step s s' → disk_inv file0 s → disk_inv file0 s'.
Proof.
  intros [d ts i p ev d' p' Hi Hs] (Ht & Hf & Hp). cbn [fst snd] in *.
  pose proof (total_insert inside ts i p p' Hi) as Htot. assert (p = POut ∨ p ≠ POut) as [->|Hne] by (destruct p; auto).
  - destruct ev; try done. cbn [persist_step] in Hs. simplify_eq/=.
    split_and!; cbn [fst snd dk_file dk_tmp dk_busy]; [destruct (dk_busy d); cbn in *; lia|done|].
    intros j q [(<- & <- & _)|[_ Hj]]%list_lookup_insert_Some; [by destruct (dk_busy d)|by eapply Hp].
  - destruct (persist_step_ok file0 _ _ _ _ _ Hne Hs (Hp _ _ Hi) Hf) as (Hp' & Hf' & Hb). split_and!; cbn [fst snd]; [|done|].
    + assert (inside p = 1) as H1 by (by destruct p).
      assert (dk_busy d = true) as Hbusy.
      { pose proof (total_one inside ts i p inside_nonneg Hi). destruct (dk_busy d); [done|cbn in Ht; lia]. }
      rewrite (Hb Hbusy), Htot, Ht, Hbusy, H1. cbn. lia.
    + intros j q [(<- & <- & _)|[Hij Hj]]%list_lookup_insert_Some; [done|].
      by rewrite (others_out d ts i p j q Ht Hi Hne Hj Hij).
Qed.

(** *** A complete file is accepted *)

(** The tests of [load_snapshot] that do not depend on the clock. *)
Definition passes_checks (f : bytes) : bool :=
  (Z.of_nat kHeaderSize <=? slen f) && beqb (take 10 f) magic && (of_le (take 4 (drop 12 f)) =? 1) &&
  (calculate_checksum (drop kHeaderSize f) =? of_le (take 4 (drop 16 f))).

Lemma complete_passes data : complete data → passes_checks data = true.
Proof.
  intros (pad & now & shards & Hpad & ->). unfold snapshot_data. set (body := write_body _ _). set (n := Z.of_nat _).
  destruct (header_fields pad now n body Hpad) as (H1 & H2 & H3 & _ & H5 & H6). unfold passes_checks.
  rewrite H1, H2, H3, H5, of_le_bytes by (pose proof (checksum_range body); cbn; lia).
  rewrite !andb_true_iff, beqb_eq, !Z.eqb_eq, Z.leb_le. split_and!; try done. unfold slen. rewrite H6. unfold kHeaderSize. lia.
Qed.

(** The snapshot file survives: start with no thread inside and whatever file
    there is, and let any threads persist snapshots in any interleaving, with any
    of their operations failing.  At every moment the file is the one from before
    or a complete snapshot; a complete one passes every test of the next start but
    the one of its age; and when no thread is inside, the flag is clear, so the
    next call is let in. *)
Lemma snapshot_file_atomic file0 tmp0 n d ts :
  rtc disk_step (mkDisk file0 tmp0 false, replicate n POut) (d, ts) →
  (dk_file d = file0 ∨ ∃ data, dk_file d = Some data ∧ complete data ∧ passes_checks data = true) ∧
  (Forall (λ p, p = POut) ts → dk_busy d = false).
Proof.
  intros Hr. assert (disk_inv file0 (d, ts)) as (Ht & Hf & _).
  { revert Hr. generalize (d, ts). apply rtc_ind_r; [|intros x y _ Hxy; by apply disk_step_inv]. split_and!.
    - cbn. apply total_zero. intros p Hp. apply elem_of_replicate in Hp as [-> _]. done.
    - by left.
    - cbn. intros i p Hp. apply lookup_replicate in Hp as [-> _]. done. }
  cbn [fst snd] in *. split.
  - destruct Hf as [?|(data & ? & ?)]; [by left|right]. exists data. split_and!; [done..|]. by apply complete_passes.
  - intros Ho. rewrite total_zero in Ht; [by destruct (dk_busy d)|]. rewrite Forall_forall in Ho. intros p Hp. by rewrite (Ho p Hp).
Qed.

End model.
