(* ===== verification/Response.v ===== *)
(** * Responses (src/src/http/http_context.hpp, response.hpp, response_builder.hpp)

    The request context, the JSON envelope and the serialization of responses.
    The theorems show that an escaped string is read back by a JSON reader
    whatever bytes it holds, so that error text cannot break out of its literal,
    and that every response the gateway writes is one well-formed message: no
    header or reason phrase can inject a line, and the recipient derives exactly
    the body that was sent from the header block. *)

From S2P Require Import Prelude HttpProtocol PathRules.

Record HttpContext := mkContext {
  ctx_method : bytes;
  ctx_path : bytes;
  ctx_body : bytes;
  ctx_headers : headers;
  status_code : Z;
  response_status_text : bytes;
  response_body : bytes;
  response_headers : headers;
  ctx_principal : option Principal;
  ctx_admin_principal : option Principal;
  ctx_client_ip : bytes;
  ctx_jwt_disabled : bool
}.

(** [HttpContext::get_header]. *)
Definition get_header (ctx : HttpContext) (key : bytes) : bytes := get_header_value (ctx_headers ctx) key.

(** ** JSON *)

Definition hex_char (d : Z) : ascii := if d <? 10 then chr (48 + d) else chr (87 + d).

(** [snprintf(buf, 8, "\\u%04x", c)] for a byte below 0x20. *)
Definition u_escape (c : ascii) : bytes :=
  [BACKSLASH; "u"%char; "0"%char; "0"%char; hex_char (code c / 16); hex_char (code c `mod` 16)].

Definition escape_char (c : ascii) : bytes :=
  if ceqb c DQUOTE then [BACKSLASH; DQUOTE]
  else if ceqb c BACKSLASH then [BACKSLASH; BACKSLASH]
  else if code c =? 8 then [BACKSLASH; "b"%char]
  else if code c =? 12 then [BACKSLASH; "f"%char]
  else if code c =? 10 then [BACKSLASH; "n"%char]
  else if code c =? 13 then [BACKSLASH; "r"%char]
  else if code c =? 9 then [BACKSLASH; "t"%char]
  else if code c <? 32 then u_escape c
  else [c].

Definition json_escape (s : bytes) : bytes := concat (escape_char <$> s).

Definition quoted (s : bytes) : bytes := [DQUOTE] ++ s ++ [DQUOTE].

Definition json_resp (c : Z) (msg data : bytes) : bytes :=
  "{" ++ quoted "code" ++ ":" ++ to_string c ++
  "," ++ quoted "msg" ++ ":" ++ quoted (json_escape msg) ++
  "," ++ quoted "data" ++ ":" ++ data ++ "}".

Definition resp_ok (data : bytes) : bytes := json_resp 0 "ok" data.
Definition resp_ok_str (data : bytes) : bytes := json_resp 0 "ok" (quoted (json_escape data)).
Definition resp_err (c : Z) (msg : bytes) : bytes := json_resp c msg "null".

(** ** Serialization *)

Definition reason_phrase (status : Z) : bytes :=
  if status =? 200 then "OK"
  else if status =? 400 then "Bad Request"
  else if status =? 404 then "Not Found"
  else if status =? 408 then "Request Timeout"
  else if status =? 413 then "Payload Too Large"
  else if status =? 431 then "Request Header Fields Too Large"
  else if status =? 500 then "Internal Server Error"
  else if status =? 502 then "Bad Gateway"
  else if status =? 503 then "Service Unavailable"
  else if status =? 504 then "Gateway Timeout"
  else [].

Definition http_response_has_no_body (method : bytes) (status : Z) : bool :=
  beqb method "HEAD" || (status =? 204) || (status =? 304) || ((100 <=? status) && (status <? 200)).

Definition line_safe (c : ascii) : bool := negb (ceqb c CR || ceqb c LF || ceqb c NUL).

Definition is_safe_header (name value : bytes) : bool :=
  forallb (λ c, line_safe c && negb (ceqb c ":")) name && forallb line_safe value.

Definition is_safe_reason_phrase (phrase : bytes) : bool := forallb line_safe phrase.

Definition build_error_response (status : Z) (reason body : bytes) : bytes :=
  "HTTP/1.1 " ++ to_string status ++ " " ++ reason ++
  CRLF ++ "Connection: close" ++ CRLF ++ "Content-Type: application/json" ++ CRLF ++
  "Content-Length: " ++ to_string (slen body) ++ CRLF ++ CRLF ++ body.

(** The phrase of the status line. *)
Definition class_phrase (status : Z) : bytes :=
  if (100 <=? status) && (status <? 200) then "Informational"
  else if (200 <=? status) && (status <? 300) then "OK"
  else if (300 <=? status) && (status <? 400) then "Redirection"
  else if (400 <=? status) && (status <? 500) then "Client Error"
  else if (500 <=? status) && (status <? 600) then "Server Error"
  else "Unknown".

Definition status_phrase (ctx : HttpContext) : bytes :=
  if negb (beqb (response_status_text ctx) []) && is_safe_reason_phrase (response_status_text ctx)
  then response_status_text ctx
  else match reason_phrase (status_code ctx) with
       | [] => class_phrase (status_code ctx)
       | rp => rp
       end.

(** The names a proxied response does not pass on. *)
Definition response_filtered (ctx : HttpContext) (method : bytes) : list bytes :=
  let filtered : list bytes :=
    ["connection" : bytes; "keep-alive" : bytes; "proxy-authenticate" : bytes;
     "proxy-authorization" : bytes; "te" : bytes; "trailer" : bytes;
     "transfer-encoding" : bytes; "upgrade" : bytes] in
  let filtered := add_connection_tokens (response_headers ctx) filtered in
  if negb (http_response_has_no_body method (status_code ctx))
  then filtered ++ ["content-length" : bytes] else filtered.

(** Whether a field of the context is written. *)
Definition keeps_header (ctx : HttpContext) (method : bytes) (proxy_response : bool) (kv : bytes * bytes) : bool :=
  (if proxy_response then negb (contains_header_name (response_filtered ctx method) kv.1)
   else negb (header_iequals kv.1 "content-length" || is_hop_by_hop_header kv.1)) &&
  is_safe_header kv.1 kv.2.

Definition kept_headers (ctx : HttpContext) (method : bytes) (proxy_response : bool) : headers :=
  filter (λ kv, keeps_header ctx method proxy_response kv = true) (response_headers ctx).

Definition build_downstream_response (ctx : HttpContext) (method : bytes) (proxy_response : bool) : bytes :=
  let kept := kept_headers ctx method proxy_response in
  let has_content_type := existsb (λ kv, header_iequals kv.1 "content-type") kept in
  let no_body := http_response_has_no_body method (status_code ctx) in
  let has_upstream_cl :=
    proxy_response && no_body &&
    existsb (λ kv, header_iequals kv.1 "content-length") (response_headers ctx) in
  "HTTP/1.1 " ++ to_string (status_code ctx) ++ " " ++ status_phrase ctx ++ CRLF ++
  concat ((λ kv, kv.1 ++ ": " ++ kv.2 ++ CRLF) <$> kept) ++
  (if negb has_content_type && negb no_body then "Content-Type: application/json" ++ CRLF else []) ++
  (if 400 <=? status_code ctx then
     "Connection: close" ++ CRLF ++ "X-Asio-Owen-Status-Source: " ++
     (if proxy_response then "proxy" ++ CRLF else "local" ++ CRLF)
   else []) ++
  (if negb has_upstream_cl then
     "Content-Length: " ++ (if no_body then "0" else to_string (slen (response_body ctx))) ++ CRLF
   else []) ++
  CRLF ++ (if no_body then [] else response_body ctx).

(** ** A JSON string reader *)

(** The value of a lower-case hexadecimal digit. *)
Definition unhex (c : ascii) : Z := if code c <=? 57 then code c - 48 else code c - 87.

(** What follows a backslash: the character and the rest. *)
Definition read_escape (s : bytes) : option (ascii * bytes) :=
  match s with
  | "u"%char :: "0"%char :: "0"%char :: a :: b :: rest => Some (chr (unhex a * 16 + unhex b), rest)
  | c :: rest =>
      if ceqb c DQUOTE || ceqb c BACKSLASH then Some (c, rest)
      else if ceqb c "b" then Some (chr 8, rest)
      else if ceqb c "f" then Some (chr 12, rest)
      else if ceqb c "n" then Some (chr 10, rest)
      else if ceqb c "r" then Some (chr 13, rest)
      else if ceqb c "t" then Some (chr 9, rest)
      else None
  | [] => None
  end.

(** The content of a string literal, read up to its closing quote; control
    characters are not allowed in it. *)
Fixpoint read_literal (fuel : nat) (s : bytes) : option (bytes * bytes) :=
  match fuel, s with
  | S f, c :: t =>
      if ceqb c DQUOTE then Some ([], t)
      else if code c <? 32 then None
      else if ceqb c BACKSLASH then
        match read_escape t with
        | Some (d, rest) => match read_literal f rest with Some (v, r) => Some (d :: v, r) | None => None end
        | None => None
        end
      else match read_literal f t with Some (v, r) => Some (c :: v, r) | None => None end
  | _, _ => None
  end.

(** A quoted string read from the start of the input. *)
Definition read_json_string (s : bytes) : option (bytes * bytes) :=
  match s with
  | c :: t => if ceqb c DQUOTE then read_literal (length s) t else None
  | [] => None
  end.

Lemma read_escaped_char f c rest v r :
  read_literal f rest = Some (v, r) → read_literal (S f) (escape_char c ++ rest) = Some (c :: v, r).
Proof.
  intros Hr. destruct (decide (32 ≤ code c ∧ c ≠ DQUOTE ∧ c ≠ BACKSLASH)) as [(H1 & H2 & H3)|Hn].
  - assert (escape_char c = [c]) as ->.
    { unfold escape_char. rewrite (proj2 (ceqb_ne c DQUOTE)), (proj2 (ceqb_ne c BACKSLASH)) by done.
      replace (code c =? 8) with false by lia. replace (code c =? 12) with false by lia.
      replace (code c =? 10) with false by lia. replace (code c =? 13) with false by lia.
      replace (code c =? 9) with false by lia. by replace (code c <? 32) with false by lia. }
    cbn [app read_literal]. rewrite (proj2 (ceqb_ne c DQUOTE)), (proj2 (ceqb_ne c BACKSLASH)) by done.
    replace (code c <? 32) with false by lia. by rewrite Hr.
  - assert (∃ e, escape_char c = BACKSLASH :: e ∧ read_escape (e ++ rest) = Some (c, rest)) as (e & -> & He).
    { clear Hr. destruct c as [[] [] [] [] [] [] [] []];
        try (exfalso; apply Hn; split; [vm_compute; discriminate|split; discriminate]);
        eexists; (split; [vm_compute; reflexivity|vm_compute; reflexivity]). }
    cbn [app read_literal]. change (ceqb BACKSLASH DQUOTE) with false. change (code BACKSLASH <? 32) with false.
    rewrite ceqb_refl, He. by rewrite Hr.
Qed.

Lemma read_literal_escape s f rest :
  (length s < f)%nat → read_literal f (json_escape s ++ DQUOTE :: rest) = Some (s, rest).
Proof.
  revert f. induction s as [|c s IH]; intros f Hf; unfold json_escape.
  - destruct f; [lia|]. done.
  - destruct f as [|f]; [simpl in Hf; lia|]. rewrite fmap_cons. cbn [concat]. rewrite <- app_assoc.
    apply read_escaped_char. apply IH. simpl in Hf. lia.
Qed.

Lemma length_json_escape s : (length s ≤ length (json_escape s))%nat.
Proof.
  unfold json_escape. induction s as [|c s IH]; [simpl; lia|]. rewrite fmap_cons. cbn [concat length].
  rewrite length_app. assert (1 ≤ length (escape_char c))%nat; [|lia].
  unfold escape_char, u_escape. repeat case_if; simpl; lia.
Qed.

(** escaped text stays inside its JSON string.  For any bytes (database or
    exception text, quotes, control characters), a JSON reader applied to the
    quoted escape returns the text and stops exactly at the closing quote, so
    the message of an envelope can neither end its literal early nor add
    members. *)
Lemma json_escape_roundtrip c msg data rest :
  read_json_string (quoted (json_escape msg) ++ rest) = Some (msg, rest) ∧
  ∃ pre post, json_resp c msg data = pre ++ quoted (json_escape msg) ++ post ∧
    pre = "{" ++ quoted "code" ++ ":" ++ to_string c ++ "," ++ quoted "msg" ++ ":" ∧
    read_json_string (quoted (json_escape msg) ++ post) = Some (msg, post).
Proof.
  assert (∀ rest, read_json_string (quoted (json_escape msg) ++ rest) = Some (msg, rest)) as Hr.
  { clear rest. intros rest. unfold quoted. rewrite <- !app_assoc. cbn [app read_json_string].
    rewrite ceqb_refl. apply read_literal_escape. cbn [length]. rewrite length_app.
    pose proof (length_json_escape msg). lia. }
  split; [apply Hr|]. eexists _, _. split; [|split; [reflexivity|apply Hr]].
  unfold json_resp. by rewrite <- !app_assoc.
Qed.

(** ** One message *)

Definition quiet (c : ascii) : Prop := c ≠ CR ∧ c ≠ LF ∧ c ≠ NUL.

Lemma line_safe_spec c : line_safe c = true ↔ quiet c.
Proof. unfold line_safe, quiet. rewrite negb_true_iff, !orb_false_iff, !ceqb_ne. naive_solver. Qed.

Lemma forallb_line_safe s : forallb line_safe s = true ↔ Forall quiet s.
Proof.
  rewrite forallb_forall, Forall_forall. setoid_rewrite line_safe_spec.
  by setoid_rewrite list_elem_of_In.
Qed.

(** A part of a request line: neither empty nor breaking the line or its parts. *)
Definition line_part (s : bytes) : Prop := s ≠ [] ∧ Forall (λ c, quiet c ∧ c ≠ " "%char) s.

(** A header field that cannot break its line. *)
Definition field_safe (kv : bytes * bytes) : Prop :=
  Forall quiet kv.1 ∧ ":"%char ∉ kv.1 ∧ Forall quiet kv.2.

Lemma is_safe_header_spec k v : is_safe_header k v = true ↔ field_safe (k, v).
Proof.
  unfold is_safe_header, field_safe. rewrite andb_true_iff, forallb_line_safe, forallb_forall. simpl.
  setoid_rewrite andb_true_iff. setoid_rewrite line_safe_spec. setoid_rewrite negb_true_iff.
  setoid_rewrite ceqb_ne. setoid_rewrite <- list_elem_of_In. rewrite !Forall_forall.
  split.
  - intros [H Hv]. split; [|split; [|done]].
    + intros x Hx. by apply H.
    + intros Hx. by apply (H _ Hx).
  - intros (H1 & H2 & Hv). split; [|done]. intros x Hx. split; [auto|]. by intros ->.
Qed.

Lemma field_safe_wire kv : field_safe kv → wire_safe kv.
Proof.
  intros (H1 & H2 & H3). rewrite Forall_forall in H1, H3. split_and!; [done| |].
  - intros Hc. by destruct (H1 _ Hc) as [? _].
  - intros Hc. by destruct (H3 _ Hc) as [? _].
Qed.

(** The literal headers the builder adds. *)
Lemma quiet_literal (s : bytes) : forallb line_safe s = true → Forall quiet s.
Proof. apply forallb_line_safe. Qed.

Lemma quiet_to_string n : 0 ≤ n ≤ SIZE_MAX → Forall quiet (to_string n).
Proof.
  intros Hn. destruct (to_string_digits n Hn) as (Hd & _ & _).
  eapply Forall_impl; [exact Hd|]. intros c Hc. simpl in Hc.
  split_and!; intros ->; vm_compute in Hc; discriminate.
Qed.

(** The fields of the response, in order. *)
Definition response_fields (ctx : HttpContext) (method : bytes) (proxy_response : bool) : headers :=
  let kept := kept_headers ctx method proxy_response in
  let no_body := http_response_has_no_body method (status_code ctx) in
  let has_upstream_cl :=
    proxy_response && no_body &&
    existsb (λ kv, header_iequals kv.1 "content-length") (response_headers ctx) in
  kept ++
  (if negb (existsb (λ kv, header_iequals kv.1 "content-type") kept) && negb no_body
   then [("Content-Type" : bytes, "application/json" : bytes)] else []) ++
  (if 400 <=? status_code ctx
   then [("Connection" : bytes, "close" : bytes);
         ("X-Asio-Owen-Status-Source" : bytes, (if proxy_response then "proxy" else "local") : bytes)] else []) ++
  (if negb has_upstream_cl
   then [("Content-Length" : bytes, if no_body then ("0" : bytes) else to_string (slen (response_body ctx)))] else []).

Lemma build_downstream_fields ctx method proxy :
  build_downstream_response ctx method proxy =
  ("HTTP/1.1 " ++ to_string (status_code ctx) ++ " " ++ status_phrase ctx) ++ CRLF ++
  render_headers (response_fields ctx method proxy) ++ CRLF ++
  (if http_response_has_no_body method (status_code ctx) then [] else response_body ctx).
Proof.
  unfold build_downstream_response, response_fields, render_headers. cbv zeta.
  set (kept := kept_headers ctx method proxy). set (nb := http_response_has_no_body method (status_code ctx)).
  rewrite !fmap_app, !concat_app, <- !app_assoc.
  assert (∀ a b c d x y z u : bytes, a = x → b = y → c = z → d = u → a ++ b ++ c ++ d = x ++ y ++ z ++ u) as Hcong
    by (intros; congruence).
  do 6 f_equal. apply Hcong.
  - by destruct (negb _ && negb nb).
  - destruct (400 <=? _); [|done]. by destruct proxy.
  - destruct (negb (proxy && nb && _)); [|done]. rewrite fmap_cons. cbn [concat fmap list_fmap].
    unfold render_header. cbn [fst snd]. by rewrite !app_nil_r.
  - done.
Qed.

Lemma kept_safe ctx method proxy : Forall field_safe (kept_headers ctx method proxy).
Proof.
  apply Forall_forall. intros [k v] [Hk _]%list_elem_of_filter. unfold keeps_header in Hk.
  bool_prop. by apply is_safe_header_spec.
Qed.

Lemma literal_field (k v : bytes) : is_safe_header k v = true → field_safe (k, v).
Proof. apply is_safe_header_spec. Qed.

Lemma response_fields_safe ctx method proxy : slen (response_body ctx) ≤ SIZE_MAX →
  Forall field_safe (response_fields ctx method proxy).
Proof.
  intros Hb. unfold response_fields. cbv zeta. rewrite !Forall_app. split_and!.
  - apply kept_safe.
  - case_if; [|constructor]. constructor; [by apply literal_field|constructor].
  - case_if; [|constructor]. constructor; [by apply literal_field|].
    constructor; [|constructor]. destruct proxy; by apply literal_field.
  - case_if; [|constructor]. constructor; [|constructor]. case_if; [by apply literal_field|].
    split_and!; [by apply quiet_literal|by apply (bool_decide_eq_true_1 _)|].
    apply quiet_to_string. pose proof (slen_nonneg (response_body ctx)). lia.
Qed.

Lemma status_phrase_safe ctx : Forall quiet (status_phrase ctx).
Proof.
  unfold status_phrase. case_if.
  - bool_prop. by apply forallb_line_safe.
  - apply quiet_literal. unfold reason_phrase, class_phrase. repeat case_if; reflexivity.
Qed.

(** A field that says nothing about the body. *)
Definition unframed (kv : bytes * bytes) : Prop :=
  trim kv.1 = kv.1 ∧ header_iequals kv.1 "content-length" = false ∧
  header_iequals kv.1 "transfer-encoding" = false.

Lemma header_state_unframed st hs : Forall unframed hs →
  let st' := foldl (λ st kv, update_header_state kv.1 kv.2 st) st hs in
  content_length st' = content_length st ∧ framing_rejected st' = framing_rejected st ∧
  is_chunked st' = is_chunked st ∧ has_transfer_encoding st' = has_transfer_encoding st.
Proof.
  intros Hs. revert st. induction Hs as [|[k v] hs (Ht & Hcl & Hte) _ IH]; intros st; [done|].
  cbn [foldl fst snd] in *. destruct (IH (update_header_state k v st)) as (-> & -> & -> & ->).
  unfold update_header_state, trim_view. rewrite Ht, Z.eqb_refl, Hcl, Hte.
  case_if; [|done]. unfold update_connection. destruct st, (split_connection_tokens _). done.
Qed.

Lemma not_filtered_content_length ctx method k :
  http_response_has_no_body method (status_code ctx) = false →
  contains_header_name (response_filtered ctx method) k = false →
  header_iequals k "content-length" = false ∧ header_iequals k "transfer-encoding" = false.
Proof.
  intros Hnb Hc. unfold contains_header_name in Hc.
  assert (∀ n, n ∈ response_filtered ctx method → header_iequals n k = false) as Hn.
  { intros n Hin. apply not_true_is_false. intros Ht. apply not_true_iff_false in Hc. apply Hc.
    apply existsb_exists. exists n. by rewrite <- list_elem_of_In. }
  unfold response_filtered in Hn. rewrite Hnb in Hn. cbn [negb] in Hn.
  assert (∀ n fs hs, n ∈ fs → n ∈ add_connection_tokens hs fs) as Hadd.
  { intros n fs hs. unfold add_connection_tokens. revert fs.
    induction hs as [|[k' v'] hs IH]; intros fs Hin; [done|]. cbn [foldl]. apply IH.
    case_if; [|done]. apply elem_of_app. by left. }
  split; rewrite header_iequals_sym; apply Hn; apply elem_of_app; [right; left|left; apply Hadd].
  by apply (bool_decide_eq_true_1 _).
Qed.

Lemma response_fields_framing ctx method proxy :
  http_response_has_no_body method (status_code ctx) = false →
  Forall (λ kv, trim kv.1 = kv.1) (response_headers ctx) →
  ∃ hs, response_fields ctx method proxy =
      hs ++ [("Content-Length" : bytes, to_string (slen (response_body ctx)))] ∧ Forall unframed hs.
Proof.
  intros Hnb Htrim. unfold response_fields. cbv zeta. rewrite Hnb, andb_false_r. cbn [negb andb].
  eexists. split; [rewrite !app_assoc; reflexivity|]. rewrite !Forall_app. split_and!.
  - apply Forall_forall. intros [k v] [Hk Hin]%list_elem_of_filter. rewrite Forall_forall in Htrim.
    split; [by apply (Htrim (k, v))|]. unfold keeps_header in Hk. cbn [fst snd] in *.
    apply andb_true_iff in Hk as [Hk _]. destruct proxy; bool_prop.
    + by eapply not_filtered_content_length.
    + unfold is_hop_by_hop_header in *. bool_prop. done.
  - case_if; repeat constructor.
  - case_if; repeat constructor.
Qed.

Lemma content_length_last hs n : 0 ≤ n ≤ SIZE_MAX → Forall unframed hs →
  let st := header_state_of (hs ++ [("Content-Length" : bytes, to_string n)]) in
  framing_rejected st = false ∧ content_length st = Some n ∧
  is_chunked st = false ∧ has_transfer_encoding st = false.
Proof.
  intros Hn Hu. unfold header_state_of. rewrite foldl_app. cbn [foldl fst snd].
  destruct (header_state_unframed header_state0 hs Hu) as (H1 & H2 & H3 & H4).
  set (st := foldl _ _ hs) in *.
  assert (update_header_state "Content-Length" (to_string n) st = update_content_length (to_string n) st) as ->.
  { unfold update_header_state, trim_view. by rewrite to_string_trim. }
  unfold update_content_length. rewrite parse_decimal_to_string by done.
  destruct st as [cl ihn dup inv ch te ite cc cka]. simpl in H1. subst cl. done.
Qed.

(** C20: every response with a body is one message.  Whatever headers, reason
    phrase and body the handler or the upstream supplied, what is written is a
    status line, header lines and a blank line followed by the body; no line of
    the head holds CR, LF or NUL; a recipient that parses the head sees the
    status, accepts the framing, finds no transfer coding and derives exactly
    the length of the body that follows. *)
Theorem downstream_response_framing ctx method proxy :
  http_response_has_no_body method (status_code ctx) = false →
  100 ≤ status_code ctx ≤ 599 → slen (response_body ctx) ≤ SIZE_MAX →
  Forall (λ kv, trim kv.1 = kv.1) (response_headers ctx) →
  ∃ line hs,
    build_downstream_response ctx method proxy =
      line ++ CRLF ++ render_headers hs ++ CRLF ++ response_body ctx ∧
    Forall quiet line ∧ Forall field_safe hs ∧
    (∃ phrase, parse_http_status_line line = Some (status_code ctx, phrase)) ∧
    parse_header_fields (render_headers hs) ([], header_state0) =
      ((λ kv, (trim kv.1, trim kv.2)) <$> hs, header_state_of hs) ∧
    framing_rejected (header_state_of hs) = false ∧
    content_length (header_state_of hs) = Some (slen (response_body ctx)) ∧
    is_chunked (header_state_of hs) = false ∧ has_transfer_encoding (header_state_of hs) = false.
Proof.
  intros Hnb Hst Hb Htrim. set (phrase := status_phrase ctx).
  exists ("HTTP/1.1 " ++ to_string (status_code ctx) ++ " " ++ phrase), (response_fields ctx method proxy).
  pose proof (response_fields_safe ctx method proxy Hb) as Hsafe.
  destruct (response_fields_framing ctx method proxy Hnb Htrim) as (hs & Hfields & Hhs).
  pose proof (content_length_last hs (slen (response_body ctx)) ltac:(pose proof (slen_nonneg (response_body ctx)); lia) Hhs) as Hcl.
  cbv zeta in Hcl. rewrite <- Hfields in Hcl. destruct Hcl as (C1 & C2 & C3 & C4).
  split_and!; [..|done|done|done|done].
  - rewrite build_downstream_fields, Hnb. done.
  - rewrite !Forall_app. split_and!; [by apply quiet_literal| |by apply quiet_literal|apply status_phrase_safe].
    apply quiet_to_string. unfold SIZE_MAX. lia.
  - done.
  - exists phrase. unfold parse_http_status_line.
    replace (starts_with "HTTP/1.1 " _) with true by (symmetry; apply starts_with_app).
    rewrite andb_false_r. change ("HTTP/1.1 " : bytes) with (("HTTP/1.1" : bytes) ++ " ") at 1.
    rewrite <- app_assoc. apply (status_line_fields_ok "HTTP/1.1" (status_code ctx) phrase); [done|].
    by apply (bool_decide_eq_true_1 _).
  - apply parse_rendered_headers. eapply Forall_impl; [exact Hsafe|]. apply field_safe_wire.
Qed.

Definition sample_context : HttpContext :=
  mkContext "GET" "/api/x" [] [] 502 ("Bad" ++ CRLF ++ "Set-Cookie: a=b") "{}"
    [("Content-Length" : bytes, "99" : bytes); ("X-A" : bytes, "1" ++ CRLF ++ "X-B: 2"); ("Server" : bytes, "u" : bytes)]
    None None [] false.

Lemma downstream_response_framing_witness :
  ∃ line hs,
    build_downstream_response sample_context "GET" true =
      line ++ CRLF ++ render_headers hs ++ CRLF ++ "{}" ∧
    content_length (header_state_of hs) = Some 2.
Proof.
  destruct (downstream_response_framing sample_context "GET" true) as (line & hs & H1 & _ & _ & _ & _ & _ & H2 & _).
  - vm_compute. reflexivity.
  - simpl. lia.
  - vm_compute. discriminate.
  - repeat constructor.
  - exists line, hs. split; [exact H1|exact H2].
Defined.
