(* ===== verification/Cors.v ===== *)
(** * Cross-origin policy (src/src/http/cors.hpp)

    The CORS policy, its loading and its effect on responses and preflights.
    The theorem shows that the gateway is the only source of CORS headers: what
    a browser sees allows exactly the configured origins, never an upstream's,
    and never credentials together with an arbitrary origin. *)

From S2P Require Import Prelude HttpProtocol Config PathRules Response.

Record CorsPolicy := mkCors {
  cors_enabled : bool;
  allow_all_origins : bool;
  allowed_origins : gset bytes;
  allowed_methods : bytes;
  allowed_headers : bytes;
  expose_headers : bytes;
  allow_credentials : bool;
  max_age : Z
}.

Definition default_cors : CorsPolicy :=
  mkCors false false ∅ "GET, POST, PUT, DELETE, OPTIONS" "Content-Type, Authorization" [] false 600.

Definition resolve_origin (p : CorsPolicy) (origin : bytes) : option bytes :=
  if negb (cors_enabled p) || beqb origin [] then None
  else if allow_all_origins p then Some (if allow_credentials p then origin else "*")
  else if bool_decide (origin ∈ allowed_origins p) then Some origin
  else None.

(** One token of allowed_origins. *)
Definition origin_step (acc : bool * gset bytes) (piece : bytes) : bool * gset bytes :=
  let token := trim_copy piece in
  if beqb token [] then acc
  else if beqb token "*" then (true, acc.2)
  else (acc.1, {[token]} ∪ acc.2).

Definition load_cors_policy (cfg : Config) : outcome CorsPolicy :=
  enabled ← get_bool cfg "cors" "enabled" false;
  if negb enabled then Ret default_cors
  else
    let origins := get cfg "cors" "allowed_origins" [] in
    let '(all, exact) := foldl origin_step (false, ∅) (split_on "," origins) in
    let methods := get cfg "cors" "allowed_methods" (allowed_methods default_cors) in
    let hdrs := get cfg "cors" "allowed_headers" (allowed_headers default_cors) in
    let expose := get cfg "cors" "expose_headers" [] in
    credentials ← get_bool cfg "cors" "allow_credentials" false;
    age ← get_int cfg "cors" "max_age" 600;
    Ret (mkCors true all exact methods hdrs expose
           (if all && credentials then false else credentials) age).

Definition is_cors_header (n : bytes) : bool :=
  header_iequals n "access-control-allow-origin" ||
  header_iequals n "access-control-allow-credentials" ||
  header_iequals n "access-control-allow-methods" ||
  header_iequals n "access-control-allow-headers" ||
  header_iequals n "access-control-expose-headers" ||
  header_iequals n "access-control-max-age".

Definition strip_cors_headers (hs : headers) : headers :=
  filter (λ kv, is_cors_header kv.1 = false) hs.

Definition set_response_headers (ctx : HttpContext) (hs : headers) : HttpContext :=
  mkContext (ctx_method ctx) (ctx_path ctx) (ctx_body ctx) (ctx_headers ctx) (status_code ctx)
    (response_status_text ctx) (response_body ctx) hs (ctx_principal ctx) (ctx_admin_principal ctx)
    (ctx_client_ip ctx) (ctx_jwt_disabled ctx).

Definition apply_cors_headers (ctx : HttpContext) (policy : CorsPolicy) : HttpContext :=
  if negb (cors_enabled policy) then ctx
  else
    let hs := strip_cors_headers (response_headers ctx) in
    match resolve_origin policy (get_header ctx "Origin") with
    | None => set_response_headers ctx hs
    | Some allow =>
        set_response_headers ctx
          (hs ++ [("Access-Control-Allow-Origin" : bytes, allow)] ++
           (if negb (beqb allow "*") then [("Vary" : bytes, "Origin" : bytes)] else []) ++
           (if allow_credentials policy then [("Access-Control-Allow-Credentials" : bytes, "true" : bytes)] else []) ++
           (if negb (beqb (expose_headers policy) [])
            then [("Access-Control-Expose-Headers" : bytes, expose_headers policy)] else []))
    end.

(** [None] when the caller falls through to the normal request path. *)
Definition build_preflight_response (ctx : HttpContext) (policy : CorsPolicy) : option HttpContext :=
  if negb (cors_enabled policy) then None
  else
    match resolve_origin policy (get_header ctx "Origin") with
    | None => None
    | Some allow =>
        let req_h := get_header ctx "Access-Control-Request-Headers" in
        let hs : headers :=
          [("Access-Control-Allow-Origin" : bytes, allow)] ++
          (if negb (beqb allow "*") then [("Vary" : bytes, "Origin" : bytes)] else []) ++
          [("Access-Control-Allow-Methods" : bytes, allowed_methods policy)] ++
          [("Access-Control-Allow-Headers" : bytes, if beqb req_h [] then allowed_headers policy else req_h)] ++
          (if allow_credentials policy then [("Access-Control-Allow-Credentials" : bytes, "true" : bytes)] else []) ++
          [("Access-Control-Max-Age" : bytes, to_string (max_age policy))] in
        Some (mkContext (ctx_method ctx) (ctx_path ctx) (ctx_body ctx) (ctx_headers ctx) 204
                "No Content" [] hs (ctx_principal ctx) (ctx_admin_principal ctx)
                (ctx_client_ip ctx) (ctx_jwt_disabled ctx))
    end.

(** ** The guarantee *)

(** An origin the policy names, or the wildcard it names. *)
Definition origin_allowed (p : CorsPolicy) (origin v : bytes) : Prop :=
  origin ≠ [] ∧ ((v = origin ∧ origin ∈ allowed_origins p) ∨ (v = "*" ∧ allow_all_origins p = true)).

Definition safe_policy (p : CorsPolicy) : Prop :=
  allow_all_origins p = true → allow_credentials p = false.

Lemma load_safe cfg p : load_cors_policy cfg = Ret p → safe_policy p.
Proof.
  unfold load_cors_policy. intros H. apply bind_Ret_inv in H as (enabled & _ & H).
  destruct enabled; [|simplify_eq/=; unfold safe_policy; done]. cbn [negb] in H.
  destruct (foldl _ _ _) as [all ex]. apply bind_Ret_inv in H as (cred & _ & H).
  apply bind_Ret_inv in H as (age & _ & H). simplify_eq. unfold safe_policy. simpl. by intros ->; destruct cred.
Qed.

Lemma resolve_allowed p origin v : safe_policy p → resolve_origin p origin = Some v →
  origin_allowed p origin v ∧ (allow_credentials p = true → v = origin ∧ origin ∈ allowed_origins p).
Proof.
  unfold resolve_origin, origin_allowed. intros Hsafe Hr.
  destruct (negb (cors_enabled p) || beqb origin []) eqn:E; [done|]. apply orb_false_iff in E as [_ E].
  apply beqb_ne in E. destruct (allow_all_origins p) eqn:Eall.
  - rewrite (Hsafe Eall) in *. simplify_eq. split; [auto|done].
  - case_bool_decide; simplify_eq. auto.
Qed.

(** An optional field of the response that has another name. *)
Ltac other_field Hin :=
  case_if; [apply list_elem_of_singleton in Hin; by simplify_eq|by apply not_elem_of_nil in Hin].

Lemma in_strip kv hs : kv ∈ strip_cors_headers hs → is_cors_header kv.1 = false.
Proof. intros [? _]%list_elem_of_filter. done. Qed.

(** with CORS enabled, the gateway alone decides.  Every
    Access-Control-Allow-Origin header of the response, whatever the upstream
    sent, names the request's origin when it is on the configured list, or the
    wildcard when that is configured; a credentials header appears only for a
    listed origin; an origin that is not allowed gets no CORS header at all; and
    with CORS disabled the response is untouched. *)
Lemma cors_gateway_decides cfg p ctx :
  load_cors_policy cfg = Ret p →
  let origin := get_header ctx "Origin" in
  let hs := response_headers (apply_cors_headers ctx p) in
  (cors_enabled p = false → apply_cors_headers ctx p = ctx) ∧
  (cors_enabled p = true →
     (∀ k v, (k, v) ∈ hs → header_iequals k "access-control-allow-origin" = true → origin_allowed p origin v) ∧
     (∀ k v, (k, v) ∈ hs → header_iequals k "access-control-allow-credentials" = true →
        allow_credentials p = true ∧ origin ∈ allowed_origins p) ∧
     (resolve_origin p origin = None → Forall (λ kv, is_cors_header kv.1 = false) hs)).
Proof.
  intros Hload origin hs. pose proof (load_safe _ _ Hload) as Hsafe. subst hs. unfold apply_cors_headers.
  fold origin. destruct (cors_enabled p) eqn:En; [|done]. split; [done|]. intros _. cbn [negb].
  assert (∀ k v n, (k, v) ∈ strip_cors_headers (response_headers ctx) →
    is_cors_header k = true ∨ header_iequals k n = true → is_cors_header n = true → False) as Hstrip.
  { intros k v n Hin Hor Hn. apply in_strip in Hin. simpl in Hin. destruct Hor as [?|He]; [congruence|].
    unfold is_cors_header in *. rewrite !(header_iequals_cong k n) in Hin by done. congruence. }
  destruct (resolve_origin p origin) as [allow|] eqn:Hr; cbn [set_response_headers response_headers].
  - destruct (resolve_allowed _ _ _ Hsafe Hr) as [Hal Hcred]. split_and!; [| |done].
    + intros k v Hin Hk. rewrite !elem_of_app in Hin.
      destruct Hin as [Hin|[Hin|[Hin|[Hin|Hin]]]].
      * exfalso. eapply (Hstrip k v); [done|by right|reflexivity].
      * apply list_elem_of_singleton in Hin. by simplify_eq.
      * other_field Hin.
      * other_field Hin.
      * other_field Hin.
    + intros k v Hin Hk. rewrite !elem_of_app in Hin.
      destruct Hin as [Hin|[Hin|[Hin|[Hin|Hin]]]].
      * exfalso. eapply (Hstrip k v); [done|by right|reflexivity].
      * apply list_elem_of_singleton in Hin. by simplify_eq.
      * other_field Hin.
      * destruct (allow_credentials p) eqn:Ec; [|by apply not_elem_of_nil in Hin]. naive_solver.
      * other_field Hin.
  - split_and!.
    + intros k v Hin Hk. exfalso. eapply (Hstrip k v); [done|by right|reflexivity].
    + intros k v Hin Hk. exfalso. eapply (Hstrip k v); [done|by right|reflexivity].
    + intros _. apply Forall_forall. intros kv. apply in_strip.
Qed.

Definition sample_cors_config : Config :=
  foldl add_entry empty_config
    [("cors" : bytes, "enabled" : bytes, "true" : bytes);
     ("cors" : bytes, "allowed_origins" : bytes, "https://a.example, *" : bytes);
     ("cors" : bytes, "allow_credentials" : bytes, "yes" : bytes)].

Definition sample_cors_policy : CorsPolicy :=
  mkCors true true {["https://a.example" : bytes]} "GET, POST, PUT, DELETE, OPTIONS" "Content-Type, Authorization" [] false 600.

Definition evil_request : HttpContext :=
  mkContext "GET" "/x" [] [("Origin" : bytes, "https://evil.example" : bytes)] 200 [] []
    [("access-control-allow-credentials" : bytes, "true" : bytes)] None None [] false.

Lemma cors_gateway_decides_witness : origin_allowed sample_cors_policy "https://evil.example" "*".
Proof.
  destruct (cors_gateway_decides sample_cors_config sample_cors_policy evil_request) as [_ H].
  - vm_compute. reflexivity.
  - apply (proj1 (H eq_refl) "Access-Control-Allow-Origin" "*"); [|reflexivity].
    change (response_headers _) with [("Access-Control-Allow-Origin" : bytes, "*" : bytes)]. left.
Defined.
