(* ===== verification/Jwt.v ===== *)
(** * JWT verification (src/src/security/jwt_auth.hpp)

    Bearer token extraction, the registered-claims checks and claim extraction.
    Token decoding and the two signature checks belong to jwt-cpp and OpenSSL and
    are the class [JwtCpp]; nothing is assumed of them.  The theorem shows that
    claims are returned only for a token that decodes, carries a valid signature
    under the configured algorithm and key, names the issuer and has not expired:
    every other header, an unsigned or differently signed token included, is
    rejected. *)

From S2P Require Import Prelude.

Record JWTClaims := mkClaims {
  cl_subject : bytes;
  cl_username : bytes;
  cl_roles : list bytes;
  cl_exp : Z;
  cl_iat : Z;
  raw_token : bytes
}.

(** ** Decoded tokens *)

(** A claim value, as far as the code distinguishes them. *)
Inductive jvalue :=
| JString (s : bytes)
| JInt (z : Z)
| JArray (l : list jvalue)
| JOther.

(** What [jwt::decode] yields.  Times are in nanoseconds; the accessors of a
    missing standard claim throw. *)
Record decoded_jwt := mkDecoded {
  d_header_base64 : bytes;
  d_payload_base64 : bytes;
  d_signature : bytes;
  d_algorithm : outcome bytes;
  d_issuer : outcome bytes;
  d_subject : outcome bytes;
  d_expires_at : option (outcome Z);     (** [has_expires_at] and [get_expires_at] *)
  d_not_before : option (outcome Z);
  d_payload_claims : bytes → option jvalue
}.

Class JwtCpp := {
  jwt_decode : bytes → outcome decoded_jwt;
  (** [jwt::verify().allow_algorithm(hs256{secret}).with_issuer(issuer).leeway(60).verify(decoded)] *)
  hs256_verify : bytes → bytes → decoded_jwt → outcome unit;
  (** [EVP_VerifyInit/Update/Final] with the loaded key *)
  rs256_verify : bytes → bytes → bytes → bool;
  (** [PEM_read_bio_PUBKEY] accepts the text *)
  pem_parses : bytes → bool
}.

(** ** JWTAuth *)

Record JWTAuth := mkJwt { secret : bytes; issuer : bytes; algorithm : bytes; public_key : bytes }.

Section model.
Context `{JwtCpp}.

(** The constructor. *)
Definition make_jwt_auth (secret issuer algorithm public_key : bytes) : outcome JWTAuth :=
  if beqb algorithm "HS256" then Ret (mkJwt secret issuer algorithm public_key)
  else if beqb algorithm "RS256" then
    if beqb public_key [] then Throw "JWT: RS256 requires jwt_public_key"
    else if pem_parses public_key then Ret (mkJwt secret issuer algorithm public_key)
    else Throw "JWT: failed to parse RSA public key PEM"
  else Throw ("JWT: unsupported algorithm " ++ algorithm ++ ", supported: HS256, RS256").

Definition bearer : bytes := "Bearer ".

(** The prefix comparison, up to case. *)
Definition bearer_prefix (s : bytes) : bool :=
  bool_decide (tolower <$> take 7 s = tolower <$> bearer).

Definition extract_token (auth_header : bytes) : option bytes :=
  if slen auth_header <? 7 then None
  else
    let header_trimmed := drop_space auth_header in
    if slen header_trimmed <? 7 then None
    else if negb (bearer_prefix header_trimmed) then None
    else
      let token := trim (drop 7 header_trimmed) in
      if beqb token [] then None else Some token.

Definition leeway : Z := 60 * 1000000000.

Definition verify_registered_claims (j : JWTAuth) (now : Z) (decoded : decoded_jwt) : outcome unit :=
  iss ← d_issuer decoded;
  if negb (beqb iss (issuer j)) then Throw ("wrong issuer: expected " ++ issuer j ++ ", got " ++ iss)
  else
    match d_expires_at decoded with
    | None => Throw "missing exp"
    | Some get_exp =>
        exp ← get_exp;
        if exp + leeway <? now then Throw "token expired"
        else
          match d_not_before decoded with
          | None => Ret ()
          | Some get_nbf =>
              nbf ← get_nbf;
              if now + leeway <? nbf then Throw "token not active yet" else Ret ()
          end
    end.

(** [as_string], [as_integer] and [as_array] throw on another type. *)
Definition as_string (v : jvalue) : outcome bytes :=
  match v with JString s => Ret s | _ => Throw "bad cast" end.
Definition as_integer (v : jvalue) : outcome Z :=
  match v with JInt z => Ret z | _ => Throw "bad cast" end.
Definition as_array (v : jvalue) : outcome (list jvalue) :=
  match v with JArray l => Ret l | _ => Throw "bad cast" end.

Definition string_elements (l : list jvalue) : list bytes :=
  omap (λ v, match v with JString s => Some s | _ => None end) l.

Definition optional_claim {A} (decoded : decoded_jwt) (name : bytes) (get : jvalue → outcome A) (def : A) : outcome A :=
  match d_payload_claims decoded name with
  | Some v => get v
  | None => Ret def
  end.

Definition extract_claims (token : bytes) (decoded : decoded_jwt) : outcome JWTClaims :=
  sub ← d_subject decoded;
  user ← match d_payload_claims decoded "username" with
         | Some v => as_string v
         | None => optional_claim decoded "name" as_string []
         end;
  roles_array ← optional_claim decoded "roles" as_array [];
  role ← optional_claim decoded "role" (λ v, (λ r, [r]) <$> as_string v) [];
  exp ← optional_claim decoded "exp" as_integer 0;
  iat ← optional_claim decoded "iat" as_integer 0;
  Ret (mkClaims sub user (string_elements roles_array ++ role) exp iat token).

(** The signature and registered-claims part of [do_verify]. *)
Definition verify_token (j : JWTAuth) (now : Z) (decoded : decoded_jwt) : outcome unit :=
  if beqb (algorithm j) "HS256" then
    _ ← hs256_verify (secret j) (issuer j) decoded;
    verify_registered_claims j now decoded
  else if beqb (algorithm j) "RS256" then
    let msg := d_header_base64 decoded ++ "." ++ d_payload_base64 decoded in
    if negb (rs256_verify msg (d_signature decoded) (public_key j)) then Throw "failed to verify signature"
    else
      algo ← d_algorithm decoded;
      if negb (beqb algo "RS256") then Throw ("wrong algorithm: expected RS256, got " ++ algo)
      else verify_registered_claims j now decoded
  else Ret ().

Definition do_verify (j : JWTAuth) (now : Z) (token : bytes) : outcome JWTClaims :=
  decoded ← jwt_decode token;
  _ ← verify_token j now decoded;
  extract_claims token decoded.

Definition jwt_verify (j : JWTAuth) (now : Z) (auth_header : bytes) : option JWTClaims :=
  match extract_token auth_header with
  | None => None
  | Some token =>
      match do_verify j now token with
      | Ret claims => Some claims
      | Throw _ => None
      end
  end.

(** ** Soundness *)

(** The checks a token must have passed. *)
Definition token_accepted (j : JWTAuth) (now : Z) (d : decoded_jwt) : Prop :=
  d_issuer d = Ret (issuer j) ∧
  (∃ exp, d_expires_at d = Some (Ret exp) ∧ now ≤ exp + leeway) ∧
  (∀ get_nbf, d_not_before d = Some get_nbf → ∃ nbf, get_nbf = Ret nbf ∧ nbf ≤ now + leeway) ∧
  ((algorithm j = "HS256" ∧ hs256_verify (secret j) (issuer j) d = Ret ()) ∨
   (algorithm j = "RS256" ∧ d_algorithm d = Ret ("RS256" : bytes) ∧
    rs256_verify (d_header_base64 d ++ "." ++ d_payload_base64 d) (d_signature d) (public_key j) = true)).

Lemma registered_claims_spec j now d :
  verify_registered_claims j now d = Ret () ↔
  d_issuer d = Ret (issuer j) ∧ (∃ exp, d_expires_at d = Some (Ret exp) ∧ now ≤ exp + leeway) ∧
  (∀ get_nbf, d_not_before d = Some get_nbf → ∃ nbf, get_nbf = Ret nbf ∧ nbf ≤ now + leeway).
Proof.
  unfold verify_registered_claims. rewrite bind_Ret_inv. split.
  - intros (iss & Hi & Hrest). case_if; [done|]. bool_prop. apply beqb_eq in Heqb as ->.
    destruct (d_expires_at d) as [ge|]; [|done]. apply bind_Ret_inv in Hrest as (exp & -> & Hrest).
    case_if; [done|]. bool_prop. split_and!; [done|by exists exp; split; [done|lia]|].
    intros gn Hn. rewrite Hn in Hrest. apply bind_Ret_inv in Hrest as (nbf & -> & Hrest).
    case_if; [done|]. bool_prop. exists nbf. split; [done|lia].
  - intros (Hi & (exp & He & Hle) & Hn). exists (issuer j). split; [done|]. rewrite beqb_refl. cbn [negb].
    rewrite He. cbn [mbind outcome_bind]. replace (exp + leeway <? now) with false by lia.
    destruct (d_not_before d) as [gn|]; [|done]. destruct (Hn gn eq_refl) as (nbf & -> & Hle').
    cbn [mbind outcome_bind]. by replace (now + leeway <? nbf) with false by lia.
Qed.

Lemma verify_token_spec j now d : algorithm j = "HS256" ∨ algorithm j = "RS256" →
  verify_token j now d = Ret () ↔ token_accepted j now d.
Proof.
  intros Halg. unfold verify_token, token_accepted. destruct Halg as [Ha|Ha]; rewrite Ha.
  - rewrite beqb_refl, bind_Ret_inv. split.
    + intros ([] & Hv & Hc). apply registered_claims_spec in Hc. naive_solver.
    + intros (? & ? & ? & [[_ Hv]|[? _]]); [|done]. exists (). split; [done|]. by apply registered_claims_spec.
  - replace (beqb "RS256" "HS256") with false by reflexivity. rewrite beqb_refl. split.
    + case_if; [done|]. bool_prop. rewrite bind_Ret_inv. intros (algo & Hal & Hc). case_if; [done|]. bool_prop.
      apply beqb_eq in Heqb0 as ->. apply registered_claims_spec in Hc. naive_solver.
    + intros (? & ? & ? & [[? _]|(_ & Hal & Hv)]); [done|]. rewrite Hv. cbn [negb]. rewrite Hal.
      cbn [mbind outcome_bind]. rewrite beqb_refl. by apply registered_claims_spec.
Qed.

(** An accepted header is a case-insensitive "Bearer" scheme and a token
    without surrounding blanks. *)
Lemma extract_token_spec h t : extract_token h = Some t →
  t ≠ [] ∧ trim t = t ∧
  ∃ sp scheme rest, h = sp ++ scheme ++ rest ∧ Forall (λ c, isspace c = true) sp ∧
    tolower <$> scheme = tolower <$> bearer ∧ trim rest = t.
Proof.
  unfold extract_token. intros He. case_if; [done|]. case_if; [done|]. case_if; [done|]. case_if; [done|].
  simplify_eq. apply beqb_ne in Heqb2. bool_prop. unfold bearer_prefix in Heqb1. bool_prop.
  split; [done|]. split; [apply trim_idem|].
  destruct (drop_space_suffix h) as (sp & Hsp & Fsp).
  exists sp, (take 7 (drop_space h)), (drop 7 (drop_space h)). rewrite take_drop. done.
Qed.

Lemma jwt_verify_iff j now auth_header claims : algorithm j = "HS256" ∨ algorithm j = "RS256" →
  jwt_verify j now auth_header = Some claims ↔
  ∃ token d, extract_token auth_header = Some token ∧ jwt_decode token = Ret d ∧
    token_accepted j now d ∧ extract_claims token d = Ret claims.
Proof.
  intros Halg. unfold jwt_verify, do_verify.
  destruct (extract_token auth_header) as [token|]; [|split; [done|by intros (? & ? & ? & _)]].
  destruct (jwt_decode token) as [d|] eqn:Hd; cbn [mbind outcome_bind].
  2:{ split; [done|]. intros (t & d & [= <-] & Hd' & _). congruence. }
  destruct (verify_token j now d) as [[]|] eqn:Hv; cbn [mbind outcome_bind].
  - apply (verify_token_spec _ _ _ Halg) in Hv. split.
    + intros Hc. exists token, d. split_and!; [done|done|done|]. by destruct (extract_claims token d); simplify_eq.
    + intros (t & d' & [= <-] & Hd' & _ & Hc). rewrite Hd in Hd'. simplify_eq. by rewrite Hc.
  - split; [done|]. intros (t & d' & [= <-] & Hd' & Hacc & _). rewrite Hd in Hd'. simplify_eq.
    apply (verify_token_spec _ _ _ Halg) in Hacc. congruence.
Qed.

(** C24: authentication cannot be bypassed.  [verify] returns claims only when
    the header is a Bearer token that decodes, whose signature the configured
    algorithm and key verify (so neither an unsigned token nor one signed under
    the other algorithm passes), whose issuer is the configured one, which has
    an expiry that has not passed by more than the leeway, and whose start time
    has come; and it does return them for such a token. *)
Theorem jwt_verify_sound secret0 issuer0 algorithm0 public_key0 j now auth_header :
  make_jwt_auth secret0 issuer0 algorithm0 public_key0 = Ret j →
  (∀ claims, jwt_verify j now auth_header = Some claims ↔
     ∃ token d, extract_token auth_header = Some token ∧ jwt_decode token = Ret d ∧
       token_accepted j now d ∧ extract_claims token d = Ret claims) ∧
  (algorithm j = "RS256" → public_key j ≠ [] ∧ pem_parses (public_key j) = true).
Proof.
  intros Hj.
  assert ((algorithm j = "HS256" ∨ algorithm j = "RS256") ∧
    (algorithm j = "RS256" → public_key j ≠ [] ∧ pem_parses (public_key j) = true)) as [Halg Hkey].
  { unfold make_jwt_auth in Hj. destruct (beqb algorithm0 "HS256") eqn:E1.
    - apply beqb_eq in E1 as ->. simplify_eq/=. split; [by left|done].
    - destruct (beqb algorithm0 "RS256") eqn:E2; [|done]. apply beqb_eq in E2 as ->.
      destruct (beqb public_key0 []) eqn:E3; [done|]. apply beqb_ne in E3.
      destruct (pem_parses public_key0) eqn:E4; [|done]. simplify_eq/=. split; [by right|done]. }
  split; [|done]. intros claims. by apply jwt_verify_iff.
Qed.

End model.

(** ** Example *)

(** A decoder with one known token, whose HS256 signature verifies. *)
Definition sample_token : decoded_jwt :=
  mkDecoded "h" "p" "s" (Ret ("HS256" : bytes)) (Ret ("asio_owen" : bytes)) (Ret ("u1" : bytes))
    (Some (Ret 5000000000)) None
    (λ n, if beqb n "role" then Some (JString "admin") else None).

Definition sample_jwt : JwtCpp := {|
  jwt_decode := λ t, if beqb t "tok" then Ret sample_token else Throw "invalid token";
  hs256_verify := λ s _ _, if beqb s "k" then Ret () else Throw "failed to verify signature";
  rs256_verify := λ _ _ _, false;
  pem_parses := λ _, false
|}.

Lemma jwt_verify_sound_witness :
  @jwt_verify sample_jwt (mkJwt "k" "asio_owen" "HS256" []) 1000 "bearer  tok " =
  Some (mkClaims "u1" [] ["admin" : bytes] 0 0 "tok").
Proof.
  apply (@jwt_verify_sound sample_jwt "k" "asio_owen" "HS256" [] (mkJwt "k" "asio_owen" "HS256" []) 1000 "bearer  tok ").
  - vm_compute. reflexivity.
  - exists "tok", sample_token. split_and!; [reflexivity|reflexivity| |reflexivity].
    split; [reflexivity|]. split; [exists 5000000000; split; [reflexivity|vm_compute; discriminate]|].
    split; [discriminate|]. left. split; reflexivity.
Defined.
