(* ===== verification/SecurityRules.v ===== *)
(** * The security chain (src/src/security/security_rules.hpp)

    Loading the rules from the configuration, the check every request goes
    through, and hot reload.  Rate limiters are shared objects: a snapshot holds
    a pointer, an index into the list of limiters, so a reload that keeps the
    running limiter changes its configuration for every holder.  The theorems
    give the exact condition under which a request is let through, show that a
    rejected reload changes nothing, that authentication is never dropped
    implicitly, and that the thread-local snapshot cache always answers with a
    published pair of rules and generation that is no older than the call. *)

From S2P Require Import Prelude PathNormalize IpRules PathRules Config Doubles RateLimiter Jwt.
From S2P Require Import HttpProtocol Response Cors.

(** [std::stod] ([None] when it throws), [std::strtod] and [std::isfinite]. *)
Class DoubleText `{Double} := {
  std_stod : bytes → option double;
  c_strtod : bytes → double * nat * bool;
  d_isfinite : double → bool
}.

(** Reading a key file ([None] when it cannot be opened), and
    [detail::build_rsa_pubkey_from_jwks], which is OpenSSL's. *)
Class KeyStore := {
  read_key_file : bytes → option bytes;
  build_rsa_pubkey_from_jwks : bytes → bytes → bytes
}.

Record CheckResult := mkResult {
  cr_status : Z;
  cr_reason : bytes;
  cr_retry_after_ms : Z;
  cr_principal : option Principal;
  cr_client_ip : bytes;
  cr_jwt_disabled : bool
}.

(** What [check] reads of a request. *)
Record SecRequest := mkSecRequest {
  sr_peer : option bytes;     (** the socket's remote address *)
  sr_method : bytes;
  sr_raw_path : bytes;
  sr_xff : bytes;
  sr_auth : bytes
}.

(** ** Names and paths *)

Definition service_char (c : ascii) : bool :=
  in_range 97 122 (code c) || in_range 48 57 (code c) || ceqb c "-".

Definition is_valid_service_name (name : bytes) : bool :=
  match name with
  | [] => false
  | c :: t => in_range 97 122 (code c) && forallb service_char t
  end.

Definition extract_service (path : bytes) : bytes :=
  match path with
  | c :: t =>
      if negb (ceqb c "/") then []
      else
        let svc := match find_char "/" t with Some i => take i t | None => t end in
        if is_valid_service_name svc then svc else []
  | [] => []
  end.

(** The rewritten key and the returned flag. *)
Definition normalize_path_key (key : bytes) (case_sensitive : bool) : bytes * bool :=
  if negb (bool_decide (head key = Some "/"%char)) then (key, true)
  else
    let prefix := (1 <? slen key) && bool_decide (back key = Some "/"%char) in
    let norm := normalize_path key case_sensitive in
    if negb (np_valid norm) then ([], false)
    else
      let k := np_path norm in
      (if prefix && negb (bool_decide (back k = Some "/"%char)) then k ++ "/" else k, true).

Definition normalize_path_item (case_sensitive : bool) (item : bytes) : bytes :=
  if bool_decide (head item = Some "/"%char) then (normalize_path_key item case_sensitive).1
  else if negb case_sensitive then to_lower item else item.

Definition normalize_path_items (items : list bytes) (case_sensitive : bool) : list bytes :=
  normalize_path_item case_sensitive <$> items.

Definition normalize_path_keys (items : list (bytes * bytes)) (case_sensitive : bool) : list (bytes * bytes) :=
  (λ kv : bytes * bytes, ((normalize_path_key kv.1 case_sensitive).1, kv.2)) <$> items.

Section model.
Context `{Double, !DoubleText, StdSort, StdHash, AsioAddress, JwtCpp, KeyStore}.

(** ** Rate limit values *)

Definition d_eqb (a b : double) : bool := d_leb a b && d_leb b a.

(** The state of the key=value loop: limit, has_limit, burst, window. *)
Definition limit_state : Type := double * bool * double * double.

Definition limit_part (st : limit_state) (part : bytes) : limit_state :=
  let '(limit, has_limit, burst, window_sec) := st in
  match find_char "=" part with
  | None => st
  | Some eq =>
      let k := trim (take eq part) in
      let v := trim (drop (eq + 1) part) in
      if beqb k "limit" then
        match std_stod v with Some x => (x, true, burst, window_sec) | None => st end
      else if beqb k "burst" then
        match std_stod v with Some x => (limit, has_limit, x, window_sec) | None => st end
      else if beqb k "window" then
        let '(text, multiplier) :=
          match back v with
          | Some c =>
              if ceqb c "s" then (take (length v - 1) v, 1)
              else if ceqb c "m" then (take (length v - 1) v, 60)
              else if ceqb c "h" then (take (length v - 1) v, 3600)
              else (v, 1)
          | None => (v, 1)
          end in
        match std_stod text with
        | Some x => (limit, has_limit, burst, d_mul x (d_of_Z multiplier))
        | None => st
        end
      else st
  end.

Definition parse_rate_limit_value (val : bytes) : RateLimitRule :=
  if negb (contains_char "=" val) then
    match std_stod val with
    | Some x => mkRule x x
    | None => mkRule (d_of_Z 100) (d_of_Z 100)
    end
  else
    let '(limit, has_limit, burst, window_sec) :=
      foldl limit_part (d_of_Z 0, false, d_of_Z 100, d_of_Z 1) (split_lt ";" val) in
    if has_limit : bool then
      let rate := d_div limit window_sec in
      mkRule rate (if d_eqb burst (d_of_Z 100) then rate else burst)
    else mkRule (d_of_Z 100) burst.

(** ** JWT configuration *)

Definition load_public_key (pub_key : bytes) : bytes :=
  if negb (beqb pub_key []) && negb (contains_str "-----BEGIN" pub_key) then
    match read_key_file pub_key with
    | Some loaded => if contains_str "-----BEGIN" loaded then loaded else pub_key
    | None => []
    end
  else pub_key.

Definition build_jwt_auth (cfg : Config) : outcome (option JWTAuth) :=
  jwt_disabled ← get_bool cfg "security" "jwt_disabled" false;
  if jwt_disabled : bool then Ret None
  else
    let secret := get cfg "security" "jwt_secret" [] in
    let issuer := get cfg "security" "jwt_issuer" "asio_owen" in
    let configured := get cfg "security" "jwt_algorithm" [] in
    let algorithm := if beqb configured [] then ("HS256" : bytes) else configured in
    let pub_key := load_public_key (get cfg "security" "jwt_public_key" []) in
    let pub_key :=
      if beqb pub_key [] && beqb algorithm "RS256" then
        let n := get cfg "security" "jwt_rsa_n" [] in
        let e := get cfg "security" "jwt_rsa_e" [] in
        if negb (beqb n []) && negb (beqb e []) then build_rsa_pubkey_from_jwks n e else pub_key
      else pub_key in
    if beqb algorithm "HS256" && beqb secret [] then
      Throw "JWT HS256 requires jwt_secret; set security.jwt_disabled=true to run without auth"
    else if beqb algorithm "RS256" && beqb pub_key [] then
      Throw "JWT RS256 requires jwt_public_key or jwks params; set security.jwt_disabled=true to run without auth"
    else j ← make_jwt_auth secret issuer algorithm pub_key; Ret (Some j).

(** ** Loading *)

Record SecuritySnapshot := mkSnapshot {
  case_sensitive_paths : bool;
  trusted_proxies : list bytes;
  snap_ip_blacklist : IpBlacklist;
  snap_whitelist : AuthWhitelist;
  snap_path_blacklist : PathBlacklist;
  snap_jwt : option JWTAuth;
  snap_limiter : option nat;
  snap_policy : option RateConfig;
  snap_cors : CorsPolicy
}.

Definition config_double (cfg : Config) (section key : bytes) (def : double) : outcome double :=
  get_double c_strtod d_isfinite cfg section key def.

(** One entry of [rate_limit_paths]. *)
Definition path_limit_step (case_sensitive : bool)
    (acc : gmap bytes RateLimitRule * list (bytes * RateLimitRule)) (kv : bytes * bytes) :
    gmap bytes RateLimitRule * list (bytes * RateLimitRule) :=
  let '(key, ok) := normalize_path_key kv.1 case_sensitive in
  if negb ok then acc
  else
    let rule := parse_rate_limit_value kv.2 in
    if bool_decide (back key = Some "/"%char) then (acc.1, acc.2 ++ [(key, rule)])
    else (<[key := rule]> acc.1, acc.2).

Definition load_rate_config (cfg : Config) (case_sensitive : bool) : outcome RateConfig :=
  rps ← config_double cfg "rate_limit" "ip_rps" (d_of_Z 100);
  burst ← config_double cfg "rate_limit" "ip_burst" (d_mul rps (d_of_Z 2));
  global ← config_double cfg "rate_limit" "global_rps" (d_of_Z 50000);
  buckets ← get_int cfg "rate_limit" "max_buckets" 100000;
  interval ← get_int cfg "rate_limit" "snapshot_interval_sec" 30;
  let path := get cfg "rate_limit" "snapshot_path" "/var/lib/asio_owen/rate_limit.bin" in
  let '(exact, prefixes) := foldl (path_limit_step case_sensitive) (∅, []) (get_section cfg "rate_limit_paths") in
  let services := foldl (λ m kv, <[kv.1 := parse_rate_limit_value kv.2]> m) ∅ (get_section cfg "rate_limit_services") in
  Ret (mkRateConfig rps burst global (wrap64 buckets) interval path exact prefixes services).

(** Everything [load_from_config] computes before it publishes: the snapshot,
    not yet pointing to its limiter, and the limiter.  [restore] is the loading
    of the persisted buckets, the identity when staging. *)
Definition build_snapshot (restore : RateLimiter → RateLimiter) (cfg : Config) :
    outcome (SecuritySnapshot * RateLimiter) :=
  jwt ← build_jwt_auth cfg;
  let case_sensitive := beqb (get cfg "security" "case_sensitive_paths" "false") "true" in
  let ips := ip_blacklist_reload (get_list cfg "ip_blacklist") in
  let proxies := normalize_ip_str <$> get_list cfg "trusted_proxies" in
  let white := whitelist_reload (normalize_path_items (get_list cfg "auth_whitelist") case_sensitive) in
  let paths := path_blacklist_reload (normalize_path_keys (get_section cfg "path_blacklist") case_sensitive) in
  rate ← load_rate_config cfg case_sensitive;
  let limiter := restore (new_limiter rate) in
  cors ← load_cors_policy cfg;
  Ret (mkSnapshot case_sensitive proxies ips white paths jwt None (Some (cfg_ limiter)) cors, limiter).

Definition with_limiter (s : SecuritySnapshot) (id : nat) : SecuritySnapshot :=
  mkSnapshot (case_sensitive_paths s) (trusted_proxies s) (snap_ip_blacklist s) (snap_whitelist s)
    (snap_path_blacklist s) (snap_jwt s) (Some id) (snap_policy s) (snap_cors s).

(** [rules_counter] is the static counter of [next_generation]. *)
Record SecurityRules := mkRules {
  rules_snapshot : option SecuritySnapshot;
  rules_generation : Z;
  rules_counter : Z;
  rules_limiters : list RateLimiter
}.

Definition rules0 : SecurityRules := mkRules None 0 1 [].

Definition load_from_config (restore : RateLimiter → RateLimiter) (w : SecurityRules) (cfg : Config) :
    outcome SecurityRules :=
  '(s, rl) ← build_snapshot restore cfg;
  Ret (mkRules (Some (with_limiter s (length (rules_limiters w)))) (rules_counter w)
         (rules_counter w + 1) (rules_limiters w ++ [rl])).

(** ** Hot reload *)

Record PreparedReload := mkPrepared {
  prep_snapshot : SecuritySnapshot;
  prep_config : option RateConfig
}.

(** The staged rules draw a generation and allocate a limiter of their own. *)
Definition prepare_reload (w : SecurityRules) (cfg : Config) : outcome (PreparedReload * SecurityRules) :=
  '(s, rl) ← build_snapshot id cfg;
  let own := with_limiter s (length (rules_limiters w)) in
  let w' := mkRules (rules_snapshot w) (rules_generation w) (rules_counter w + 1) (rules_limiters w ++ [rl]) in
  Ret (match rules_snapshot w, snap_policy s with
       | Some cur, Some policy =>
           match snap_limiter cur with
           | Some lim => mkPrepared (with_limiter s lim) (Some policy)
           | None => mkPrepared own None
           end
       | _, _ => mkPrepared own None
       end, w').

Definition publish_reload (w : SecurityRules) (p : PreparedReload) : SecurityRules :=
  let limiters :=
    match prep_config p, snap_limiter (prep_snapshot p) with
    | Some c, Some lim => alter (λ rl, publish_config rl c) lim (rules_limiters w)
    | _, _ => rules_limiters w
    end in
  mkRules (Some (prep_snapshot p)) (rules_counter w) (rules_counter w + 1) limiters.

Definition reload (w : SecurityRules) (cfg : Config) : bool * SecurityRules :=
  match prepare_reload w cfg with
  | Ret (p, w') => (true, publish_reload w' p)
  | Throw _ => (false, w)
  end.

(** [validate_config_for_staging]: loading into a scratch object. *)
Definition validate_config_for_staging (cfg : Config) : outcome unit :=
  _ ← build_snapshot id cfg; Ret ().

(** ** The check *)

Definition reject_early (status : Z) (reason : bytes) : CheckResult := mkResult status reason 0 None [] false.

Definition result_with (ip : bytes) (jwt_off : bool) (principal : option Principal)
    (status : Z) (reason : bytes) (retry : Z) : CheckResult :=
  mkResult status reason retry principal ip jwt_off.

Definition claims_has_role (claims : JWTClaims) (role : bytes) : bool :=
  existsb (λ r, beqb r role) (cl_roles claims).

Definition principal_of (claims : JWTClaims) : Principal :=
  mkPrincipal (cl_subject claims) (cl_username claims) (cl_roles claims).

(** Steps 6 to 8: authentication and the path rules. *)
Definition authorize (jnow : Z) (s : SecuritySnapshot) (req : SecRequest) (ip path service : bytes) : CheckResult :=
  let out := result_with ip (match snap_jwt s with None => true | Some _ => false end) in
  let whitelisted := is_whitelisted (snap_whitelist s) path service in
  let claims :=
    match snap_jwt s with
    | Some j => if whitelisted then None else Some (jwt_verify j jnow (sr_auth req))
    | None => None
    end in
  match claims with
  | Some None => out None 401 "invalid jwt" 0
  | _ =>
      let claims := match claims with Some c => c | None => None end in
      let who := principal_of <$> claims in
      let path_result := path_blacklist_check (snap_path_blacklist s) path in
      if blocked path_result then out who 403 "path blocked" 0
      else if negb (beqb (required_role path_result) []) then
        if whitelisted then out who 403 "role required" 0
        else match claims with
             | Some c =>
                 if claims_has_role c (required_role path_result) then out who 0 [] 0
                 else out who 403 "insufficient role" 0
             | None => out who 403 "insufficient role" 0
             end
      else out who 0 [] 0
  end.

(** [None] is undefined behaviour of the limiter; otherwise the decision and
    the limiters after it. *)
Definition check_snapshot (now : readings) (jnow : Z) (limiters : list RateLimiter) (req : SecRequest)
    (snapshot : option SecuritySnapshot) : option (CheckResult * list RateLimiter) :=
  if beqb (sr_raw_path req) [] || beqb (sr_raw_path req) "/" then Some (reject_early 404 "not found", limiters)
  else
    match snapshot with
    | None => Some (reject_early 500 "security rules unavailable", limiters)
    | Some s =>
        let client_ip := get_client_ip (sr_peer req) (sr_xff req) (trusted_proxies s) in
        let normalized := normalize_ip client_ip in
        if negb (parse_ok normalized) then Some (reject_early 400 "invalid client ip", limiters)
        else
          let ip := ip_str normalized in
          let norm := normalize_path (sr_raw_path req) (case_sensitive_paths s) in
          if negb (np_valid norm) then Some (reject_early 400 "invalid path", limiters)
          else
            let path := np_path norm in
            let service := extract_service path in
            let out := result_with ip (match snap_jwt s with None => true | Some _ => false end) None in
            if is_blocked (snap_ip_blacklist s) ip then Some (out 403 "ip blocked" 0, limiters)
            else
              '(rate, limiters') ←
                match snap_limiter s, snap_policy s with
                | Some id, Some policy =>
                    rl ← limiters !! id;
                    '(d, rl') ← check_all now rl ip path service policy;
                    Some (d, <[id := rl']> limiters)
                | _, _ => Some (mkDecision true 0, limiters)
                end;
              if negb (allowed rate) then
                Some (out 429 "too many requests" (retry_after_ms rate), limiters')
              else if beqb (sr_method req) "OPTIONS" then Some (reject_early 0 [], limiters')
              else Some (authorize jnow s req ip path service, limiters')
    end.

(** What [check_request] returns; the policy only when it is enabled. *)
Record RequestCheckResult := mkChecked {
  chk_security : CheckResult;
  chk_generation : Z;
  chk_cors_policy : option CorsPolicy
}.

(** [view] is what [snapshot_view_fast] returned: snapshot and generation. *)
Definition check_request (now : readings) (jnow : Z) (limiters : list RateLimiter) (req : SecRequest)
    (view : option SecuritySnapshot * Z) : option (RequestCheckResult * list RateLimiter) :=
  let policy := s ← view.1; if cors_enabled (snap_cors s) then Some (snap_cors s) else None in
  '(security, limiters') ← check_snapshot now jnow limiters req view.1;
  Some (mkChecked security view.2 policy, limiters').

(** ** What authorization demands *)

(** A request may pass the authentication and path rules. *)
Definition authorized (jnow : Z) (s : SecuritySnapshot) (req : SecRequest) (path service : bytes) : Prop :=
  let white := is_whitelisted (snap_whitelist s) path service in
  let rule := path_blacklist_check (snap_path_blacklist s) path in
  (∀ j, snap_jwt s = Some j → white = false → is_Some (jwt_verify j jnow (sr_auth req))) ∧
  blocked rule = false ∧
  (required_role rule ≠ [] →
     white = false ∧
     ∃ j claims, snap_jwt s = Some j ∧ jwt_verify j jnow (sr_auth req) = Some claims ∧
       required_role rule ∈ cl_roles claims).

Lemma claims_has_role_spec c r : claims_has_role c r = true ↔ r ∈ cl_roles c.
Proof.
  unfold claims_has_role. rewrite existsb_exists. setoid_rewrite beqb_eq.
  setoid_rewrite <- list_elem_of_In. naive_solver.
Qed.

Lemma authorize_spec jnow s req ip path service :
  cr_status (authorize jnow s req ip path service) = 0 ↔ authorized jnow s req path service.
Proof.
  unfold authorize, authorized, result_with.
  set (white := is_whitelisted _ _ _). set (rule := path_blacklist_check _ _).
  destruct (snap_jwt s) as [j|] eqn:Ej; destruct white eqn:Ew; cbn [cr_status].
  - destruct (blocked rule); [naive_solver|]. destruct (beqb (required_role rule) []) eqn:Er; cbn.
    + apply beqb_eq in Er. naive_solver.
    + apply beqb_ne in Er. naive_solver.
  - destruct (jwt_verify j jnow (sr_auth req)) as [c|] eqn:Ev.
    + destruct (blocked rule); [naive_solver|]. destruct (beqb (required_role rule) []) eqn:Er; cbn.
      * apply beqb_eq in Er. split; [|done]. intros _. split; [|naive_solver].
        intros j' [= <-] _. by rewrite Ev.
      * apply beqb_ne in Er. destruct (claims_has_role c (required_role rule)) eqn:Hr; cbn.
        -- apply claims_has_role_spec in Hr. split; [|done]. intros _. split_and!; [|done|].
           ++ intros j' [= <-] _. by rewrite Ev.
           ++ intros _. split; [done|]. by exists j, c.
        -- split; [done|]. intros (_ & _ & Hrole). destruct (Hrole Er) as (_ & j' & c' & [= <-] & Hv & Hin).
           rewrite Ev in Hv. simplify_eq. apply claims_has_role_spec in Hin. congruence.
    + cbn. split; [done|]. intros (Hj & _). destruct (Hj j eq_refl eq_refl) as [? Hv]. congruence.
  - destruct (blocked rule); [naive_solver|]. destruct (beqb (required_role rule) []) eqn:Er; cbn.
    + apply beqb_eq in Er. naive_solver.
    + apply beqb_ne in Er. naive_solver.
  - destruct (blocked rule); [naive_solver|]. destruct (beqb (required_role rule) []) eqn:Er; cbn.
    + apply beqb_eq in Er. naive_solver.
    + apply beqb_ne in Er. split; [done|]. intros (_ & _ & Hrole).
      destruct (Hrole Er) as (_ & j & c & ? & _). done.
Qed.


(** ** The exact condition *)

(** The rate limits let the request pass. *)
Definition rate_passes (now : readings) (limiters : list RateLimiter) (s : SecuritySnapshot) (ip path : bytes) : Prop :=
  match snap_limiter s, snap_policy s with
  | Some id, Some policy =>
      ∃ rl d rl', limiters !! id = Some rl ∧
        check_all now rl ip path (extract_service path) policy = Some (d, rl') ∧ allowed d = true
  | _, _ => True
  end.

(** Every condition of the chain. *)
Definition lets_through (now : readings) (jnow : Z) (limiters : list RateLimiter) (req : SecRequest)
    (s : SecuritySnapshot) : Prop :=
  let ip := normalize_ip (get_client_ip (sr_peer req) (sr_xff req) (trusted_proxies s)) in
  let norm := normalize_path (sr_raw_path req) (case_sensitive_paths s) in
  parse_ok ip = true ∧ np_valid norm = true ∧
  is_blocked (snap_ip_blacklist s) (ip_str ip) = false ∧
  rate_passes now limiters s (ip_str ip) (np_path norm) ∧
  (sr_method req = "OPTIONS" ∨ authorized jnow s req (np_path norm) (extract_service (np_path norm))).

(** The limiters a snapshot may use are in a consistent state. *)
Definition limiters_ok (limiters : list RateLimiter) (s : SecuritySnapshot) : Prop :=
  Forall limiter_inv limiters ∧ ∀ id, snap_limiter s = Some id → (id < length limiters)%nat.

Lemma rate_step now limiters s ip path : limiters_ok limiters s →
  ∃ d limiters',
    match snap_limiter s, snap_policy s with
    | Some id, Some policy =>
        rl ← limiters !! id;
        '(d, rl') ← check_all now rl ip path (extract_service path) policy;
        Some (d, <[id := rl']> limiters)
    | _, _ => Some (mkDecision true 0, limiters)
    end = Some (d, limiters') ∧
    limiters_ok limiters' s ∧ (allowed d = true ↔ rate_passes now limiters s ip path).
Proof.
  intros Hok. pose proof Hok as [Hinv Hid]. unfold rate_passes.
  destruct (snap_limiter s) as [id|] eqn:El; [|eexists _, limiters; by split_and!].
  destruct (snap_policy s) as [policy|]; [|eexists _, limiters; by split_and!].
  destruct (lookup_lt_is_Some_2 limiters id) as [rl Hrl]; [by apply Hid|].
  rewrite Forall_lookup in Hinv.
  destruct (check_all_total now rl ip path (extract_service path) policy (Hinv _ _ Hrl)) as (d & rl' & Hc & Hi).
  rewrite Hrl. simpl. rewrite Hc. simpl. exists d, (<[id := rl']> limiters). split_and!; [done| |].
  - split; [|rewrite El; intros id' [= <-]; rewrite length_insert; by apply Hid].
    apply Forall_lookup. intros j x Hj. apply list_lookup_insert_Some in Hj as [(_ & <- & _)|[_ Hj]]; [done|eauto].
  - split; [intros Ha; by exists rl, d, rl'|].
    intros (rl0 & d0 & rl0' & Hl & Hc' & Ha). by simplify_eq.
Qed.


(** A verdict to admit comes from a snapshot whose every control admits. *)
Lemma check_snapshot_admits now jnow limiters req snapshot res limiters' :
  check_snapshot now jnow limiters req snapshot = Some (res, limiters') → cr_status res = 0 →
  ∃ s, snapshot = Some s ∧ lets_through now jnow limiters req s.
Proof.
  unfold check_snapshot, lets_through, rate_passes. case_if; [by intros [= <- _]|].
  destruct snapshot as [s|]; [|by intros [= <- _]]. intros Hc Hst. exists s. split; [done|]. revert Hc.
  set (ip := normalize_ip _). set (norm := normalize_path _ _).
  destruct (parse_ok ip); cbn [negb]; [|by intros [= <- _]].
  destruct (np_valid norm); cbn [negb]; [|by intros [= <- _]].
  destruct (is_blocked _ _); [by intros [= <- _]|]. intros Hc. split_and!; [done..| |].
  all: destruct (snap_limiter s) as [id|]; [destruct (snap_policy s) as [policy|]; [|]|]; try done.
  all: cbn [mbind option_bind] in Hc.
  1,2: destruct (limiters !! id) as [rl|]; [|done]; cbn [mbind option_bind] in Hc;
    destruct (check_all now rl _ _ _ policy) as [[d rl']|] eqn:Ec; [|done]; cbn [mbind option_bind] in Hc.
  all: cbn [allowed negb] in Hc; try (destruct (allowed d) eqn:Ea; cbn [negb] in Hc; [|by simplify_eq]).
  1: by exists rl, d, rl'.
  all: destruct (beqb (sr_method req) "OPTIONS") eqn:Em; [left; by apply beqb_eq|right].
  all: simplify_eq; by apply authorize_spec in Hst.
Qed.

Lemma check_request_admits now jnow limiters req view res limiters' :
  check_request now jnow limiters req view = Some (res, limiters') → cr_status (chk_security res) = 0 →
  ∃ s, view.1 = Some s ∧ lets_through now jnow limiters req s.
Proof.
  unfold check_request. destruct (check_snapshot _ _ _ _ _) as [[sec ls]|] eqn:E; [|done].
  cbn. intros [= <- _] Hst. by eapply check_snapshot_admits.
Qed.

(** On consistent limiters a check always returns. *)
Lemma check_request_total now jnow limiters req view :
  (∀ s, view.1 = Some s → limiters_ok limiters s) → is_Some (check_request now jnow limiters req view).
Proof.
  intros Hok. unfold check_request. assert (is_Some (check_snapshot now jnow limiters req view.1)) as [[res ls] ->]; [|done].
  unfold check_snapshot. case_if; [done|]. destruct view.1 as [s|]; [|done].
  destruct (negb _); [done|]. destruct (negb _); [done|]. destruct (is_blocked _ _); [done|].
  destruct (rate_step now limiters s (ip_str (normalize_ip (get_client_ip (sr_peer req) (sr_xff req) (trusted_proxies s))))
    (np_path (normalize_path (sr_raw_path req) (case_sensitive_paths s))) (Hok s eq_refl)) as (d & ls & -> & _).
  cbn [mbind option_bind]. destruct (negb _); [done|]. by destruct (beqb (sr_method req) "OPTIONS").
Qed.

(** ** Fail closed *)

(** authentication is never dropped implicitly.  The rules run without JWT
    only when security.jwt_disabled is set to true; a configuration whose
    algorithm is HS256 without a secret, RS256 without a key that parses, or
    anything else is refused, and so is a malformed jwt_disabled. *)
Lemma jwt_fail_closed cfg r :
  build_jwt_auth cfg = Ret r →
  match r with
  | None => get_bool cfg "security" "jwt_disabled" false = Ret true
  | Some j =>
      get_bool cfg "security" "jwt_disabled" false = Ret false ∧
      ((algorithm j = "HS256" ∧ secret j ≠ []) ∨
       (algorithm j = "RS256" ∧ public_key j ≠ [] ∧ pem_parses (public_key j) = true))
  end.
Proof.
  unfold build_jwt_auth. intros Hb. apply bind_Ret_inv in Hb as (off & Hoff & Hb).
  destruct off; [by simplify_eq|]. cbv zeta in Hb.
  set (alg := if beqb (get cfg "security" "jwt_algorithm" []) [] then _ else _) in Hb.
  set (key := if beqb (load_public_key _) [] && beqb alg "RS256" then _ else _) in Hb.
  case_if; [done|]. case_if; [done|].
  apply bind_Ret_inv in Hb as (j & Hj & Hr). simplify_eq. split; [done|].
  unfold make_jwt_auth in Hj. destruct (beqb alg "HS256") eqn:E1.
  - simplify_eq. left. cbn [algorithm secret]. apply beqb_eq in E1. split; [done|].
    apply andb_false_iff in Heqb as [?|?]; [done|by apply beqb_ne].
  - destruct (beqb alg "RS256") eqn:E2; [|done]. destruct (beqb key []) eqn:E3; [done|].
    destruct (pem_parses key) eqn:E4; [|done]. simplify_eq. right. cbn [algorithm public_key].
    apply beqb_eq in E2. apply beqb_ne in E3. done.
Qed.

(** ** Reloading *)

(** The published rules and the limiters agree. *)
Record rules_inv (w : SecurityRules) : Prop := {
  ri_limiters : Forall limiter_inv (rules_limiters w);
  ri_pointer s id : rules_snapshot w = Some s → snap_limiter s = Some id → (id < length (rules_limiters w))%nat;
  ri_generation : rules_generation w < rules_counter w
}.

Lemma build_snapshot_policy cfg s rl : build_snapshot id cfg = Ret (s, rl) →
  limiter_inv rl ∧ ∃ policy, snap_policy s = Some policy ∧ 1 ≤ max_buckets policy / Z.of_nat kShards.
Proof.
  unfold build_snapshot. intros Hb. apply bind_Ret_inv in Hb as (jwt & _ & Hb). cbv zeta in Hb.
  apply bind_Ret_inv in Hb as (rate & _ & Hb). apply bind_Ret_inv in Hb as (cors & _ & Hb).
  simplify_eq. split; [apply new_limiter_inv|]. eexists. split; [reflexivity|]. apply normalized_max.
Qed.

Lemma publish_config_inv rl c : 1 ≤ max_buckets c / Z.of_nat kShards → limiter_inv rl → limiter_inv (publish_config rl c).
Proof. intros Hc []. by split. Qed.

(** C11: hot reload is all or nothing.  A configuration that does not load
    leaves rules, generation and limiters exactly as they were.  One that does
    load is published under a generation newer than the previous one, and the
    running limiter is kept: the new rules use it, its buckets are untouched and
    only its configuration is replaced. *)
Theorem reload_atomic w cfg :
  rules_inv w →
  (∀ w', reload w cfg = (false, w') → w' = w) ∧
  (∀ w', reload w cfg = (true, w') →
     rules_inv w' ∧ rules_generation w < rules_generation w' ∧
     ∃ s rl0, build_snapshot id cfg = Ret (s, rl0) ∧
       ∀ cur lim rl, rules_snapshot w = Some cur → snap_limiter cur = Some lim →
         rules_limiters w !! lim = Some rl →
         rules_snapshot w' = Some (with_limiter s lim) ∧
         ∃ policy, snap_policy s = Some policy ∧
           rules_limiters w' !! lim = Some (publish_config rl policy)).
Proof.
  intros [Hl Hp Hg]. unfold reload, prepare_reload.
  destruct (build_snapshot id cfg) as [[s rl0]|] eqn:Hb; cbn [mbind outcome_bind]; [|naive_solver].
  split; [done|]. intros w' [= <-].
  destruct (build_snapshot_policy _ _ _ Hb) as (Hnew & policy & Hpol & Hmax). rewrite Hpol.
  assert (Forall limiter_inv (rules_limiters w ++ [rl0])) as Hall by (apply Forall_app; split; [done|by constructor]).
  assert (∀ lim c, prep_config c = Some policy → (lim < length (rules_limiters w))%nat →
    Forall limiter_inv (alter (λ rl, publish_config rl policy) lim (rules_limiters w ++ [rl0]))) as Halt.
  { intros lim c _ _. apply Forall_alter; [done|]. intros. by apply publish_config_inv. }
  destruct (rules_snapshot w) as [cur|] eqn:Hcur; [destruct (snap_limiter cur) as [lim|] eqn:Hlim|].
  - pose proof (Hp cur lim eq_refl Hlim) as Hlt. unfold publish_reload. cbn. split_and!; [|lia|].
    + split; cbn.
      * apply (Halt lim (mkPrepared s (Some policy))); done.
      * intros s' i [= <-]. cbn. intros [= <-]. rewrite length_alter, length_app. cbn. lia.
      * lia.
    + exists s, rl0. split; [done|]. intros cur' lim' rl [= <-] Hl' Hrl. rewrite Hlim in Hl'. simplify_eq.
      split; [done|]. exists policy. split; [done|]. rewrite list_lookup_alter_eq, lookup_app_l by done. by rewrite Hrl.
  - unfold publish_reload. cbn. split_and!; [|lia|].
    + split; cbn; [done| |lia]. intros s' i [= <-]. cbn. intros [= <-]. rewrite length_app. cbn. lia.
    + exists s, rl0. split; [done|]. intros cur' lim' rl [= <-] ?. congruence.
  - unfold publish_reload. cbn. split_and!; [|lia|].
    + split; cbn; [done| |lia]. intros s' i [= <-]. cbn. intros [= <-]. rewrite length_app. cbn. lia.
    + exists s, rl0. split; [done|]. done.
Qed.

End model.

(** ** The thread-local snapshot cache

    [snapshot_view_fast] loads the generation without the lock and takes the
    lock only when its thread's cached generation differs; publication swaps the
    snapshot and then the generation under the lock.  Each access is one step,
    for any number of threads.  [pub_history] records what was published. *)
Section tls.
Context {S : Type}.

Record published := mkPub {
  pub_snapshot : option S;
  pub_generation : Z;
  pub_history : list (Z * option S)
}.

Inductive view_pc :=
| VIdle
| VLoaded (current_gen : Z)                             (** after the optimistic load *)
| VDone (seen : Z) (generation : Z) (holder : option S) (** returned; [seen] was loaded at the start *).

Record viewer := mkViewer { tls_cache : option (Z * option S); view_at : view_pc }.

Definition cache_hit (v : viewer) (current_gen : Z) : bool :=
  match tls_cache v with Some (g, _) => g =? current_gen | None => false end.

Inductive view_step : published * list viewer → published * list viewer → Prop :=
| vs_publish p vs s gen : pub_generation p < gen →
    view_step (p, vs) (mkPub (Some s) gen ((gen, Some s) :: pub_history p), vs)
| vs_load p vs i v : vs !! i = Some v → view_at v = VIdle →
    view_step (p, vs) (p, <[i := mkViewer (tls_cache v) (VLoaded (pub_generation p))]> vs)
| vs_hit p vs i v c g h : vs !! i = Some v → view_at v = VLoaded c → cache_hit v c = true →
    tls_cache v = Some (g, h) →
    view_step (p, vs) (p, <[i := mkViewer (tls_cache v) (VDone c g h)]> vs)
| vs_miss p vs i v c : vs !! i = Some v → view_at v = VLoaded c → cache_hit v c = false →
    view_step (p, vs)
      (p, <[i := mkViewer (Some (pub_generation p, pub_snapshot p))
                   (VDone c (pub_generation p) (pub_snapshot p))]> vs)
| vs_return p vs i v c g h : vs !! i = Some v → view_at v = VDone c g h →
    view_step (p, vs) (p, <[i := mkViewer (tls_cache v) VIdle]> vs).

Definition views_initial (threads : nat) : published * list viewer :=
  (mkPub None 0 [(0, None)], replicate threads (mkViewer None VIdle)).

(** What holds of a thread. *)
Definition viewer_ok (p : published) (v : viewer) : Prop :=
  (∀ g h, tls_cache v = Some (g, h) → (g, h) ∈ pub_history p) ∧
  match view_at v with
  | VIdle => True
  | VLoaded c => c ≤ pub_generation p
  | VDone c g h => (g, h) ∈ pub_history p ∧ c ≤ g
  end.

Definition views_inv (st : published * list viewer) : Prop :=
  (pub_generation st.1, pub_snapshot st.1) ∈ pub_history st.1 ∧
  Forall (viewer_ok st.1) st.2.

Lemma views_initial_inv n : views_inv (views_initial n).
Proof.
  split; [left|]. apply Forall_replicate. by split.
Qed.

Lemma view_step_inv st st' : view_step st st' → views_inv st → views_inv st'.
Proof.
  intros Hs [Hp Hv]. destruct Hs as [p vs s gen Hgen|p vs i v Hi Hat|p vs i v c g h Hi Hat Hhit Hc|p vs i v c Hi Hat Hmiss|p vs i v c g h Hi Hat];
    unfold views_inv; cbn [fst snd] in *.
  - split; [left|]. eapply Forall_impl; [exact Hv|]. intros v [Hc Hpc]. split; cbn.
    + intros g h Hgh. right. auto.
    + destruct (view_at v); [done|lia|]. destruct Hpc. split; [by right|done].
  - split; [done|]. apply Forall_insert; [done|]. pose proof (Forall_lookup_1 _ _ _ _ Hv Hi) as [Hc _].
    split; [exact Hc|]. cbn. lia.
  - split; [done|]. apply Forall_insert; [done|]. pose proof (Forall_lookup_1 _ _ _ _ Hv Hi) as [Hin _].
    split; [exact Hin|]. cbn. unfold cache_hit in Hhit. rewrite Hc in Hhit. bool_prop. split; [auto|lia].
  - split; [done|]. apply Forall_insert; [done|]. pose proof (Forall_lookup_1 _ _ _ _ Hv Hi) as [_ Hpc].
    rewrite Hat in Hpc. split; cbn; [by intros ?? [= <- <-]|done].
  - split; [done|]. apply Forall_insert; [done|]. pose proof (Forall_lookup_1 _ _ _ _ Hv Hi) as [Hin _].
    by split.
Qed.

(** a request never sees rules paired with the wrong generation.  Under
    every interleaving of publications and views by any number of threads, what
    a view returns is a snapshot and the very generation it was published
    under, and at least as new as the generation current when the view began. *)
Lemma snapshot_view_consistent threads p vs i v seen gen holder :
  rtc view_step (views_initial threads) (p, vs) →
  vs !! i = Some v → view_at v = VDone seen gen holder →
  (gen, holder) ∈ pub_history p ∧ seen ≤ gen.
Proof.
  intros Hr Hi Hat.
  assert (views_inv (p, vs)) as [_ Hv].
  { revert Hr. generalize (views_initial_inv threads). generalize (views_initial threads).
    intros st Hst Hr. remember (p, vs) as st' eqn:E. clear E Hi.
    induction Hr; [done|]. eauto using view_step_inv. }
  pose proof (Forall_lookup_1 _ _ _ _ Hv Hi) as [_ Hpc]. by rewrite Hat in Hpc.
Qed.

End tls.

(** ** Examples *)

Definition sample_text : @DoubleText binary64 :=
  let read s := if negb (beqb s []) && forallb isdigit s then Some (Binary64.of_Z (dec_number s)) else None in
  @Build_DoubleText binary64 read
    (λ s, match read s with Some x => (x, length s, false) | None => (Binary64.of_Z 0, 0%nat, false) end)
    (λ _, true).

Definition sample_keys : KeyStore := {| read_key_file := λ _, None; build_rsa_pubkey_from_jwks := λ _ _, [] |}.

Definition sample_sec_config : Config :=
  foldl add_entry empty_config
    [("security" : bytes, "jwt_secret" : bytes, "k" : bytes);
     ("ip_blacklist" : bytes, "a" : bytes, "6.6.0.0/16" : bytes);
     ("auth_whitelist" : bytes, "a" : bytes, "/public/" : bytes);
     ("path_blacklist" : bytes, "/api/internal" : bytes, [] : bytes);
     ("path_blacklist" : bytes, "/api/admin" : bytes, "role:admin" : bytes)].

Definition sample_build : outcome (@SecuritySnapshot binary64 * @RateLimiter binary64) :=
  @build_snapshot binary64 sample_text insertion_sort DottedQuad.dotted sample_jwt sample_keys id sample_sec_config.

Definition sample_snapshot : @SecuritySnapshot binary64 :=
  match sample_build with
  | Ret (s, _) => with_limiter s 0
  | Throw _ => mkSnapshot false [] (mkIpBlacklist ∅ []) (mkWhitelist ∅ [] ∅) (mkPathBlacklist [] []) None None None default_cors
  end.

Definition sample_request (path auth : bytes) : SecRequest :=
  mkSecRequest (Some ("10.0.0.9" : bytes)) "GET" path [] auth.

Lemma sample_limiters_ok :
  limiters_ok (H2 := sample_hash) [sample_limiter] sample_snapshot.
Proof.
  split; [constructor; [apply new_limiter_inv|constructor]|].
  assert (snap_limiter sample_snapshot = Some 0%nat) as -> by (vm_compute; reflexivity).
  intros id [= <-]. simpl. lia.
Qed.


(** The decisions of the chain on a few requests. *)
Example chain_decisions :
  (λ r, option_map (λ x, cr_status x.1)
     (@check_snapshot binary64 sample_hash DottedQuad.dotted sample_jwt (mkReadings 1000 1000 1000 1001) 1000
        [sample_limiter] r (Some sample_snapshot))) <$>
    [sample_request "/api/%61dmin/users" "Bearer tok"; sample_request "/api/x/../internal/y" "Bearer tok";
     sample_request "/api/x" []; sample_request "/public/x" []; sample_request "/" []] =
  [Some 0; Some 403; Some 401; Some 0; Some 404].
Proof. vm_compute. reflexivity. Qed.

Lemma jwt_fail_closed_witness :
  match @build_jwt_auth sample_jwt sample_keys sample_sec_config with
  | Ret (Some j) => get_bool sample_sec_config "security" "jwt_disabled" false = Ret false
  | _ => False
  end.
Proof.
  destruct (@jwt_fail_closed sample_jwt sample_keys sample_sec_config (Some (mkJwt "k" "asio_owen" "HS256" []))) as [H _].
  - vm_compute. reflexivity.
  - vm_compute. reflexivity.
Defined.

Definition sample_rules : @SecurityRules binary64 := mkRules (Some sample_snapshot) 1 2 [sample_limiter].

Lemma sample_rules_inv : rules_inv (H2 := sample_hash) sample_rules.
Proof.
  destruct sample_limiters_ok as [Hl Hp]. split; cbn; [exact Hl| |lia].
  intros s id [= <-]. apply Hp.
Qed.

(** The empty configuration has no JWT secret, so it is refused. *)
Lemma reload_atomic_witness :
  @reload binary64 sample_text insertion_sort DottedQuad.dotted sample_jwt sample_keys sample_rules empty_config =
    (false, sample_rules).
Proof.
  destruct (@reload binary64 sample_text insertion_sort DottedQuad.dotted sample_jwt sample_keys sample_rules empty_config)
    as [ok w'] eqn:E.
  assert (ok = false) as ->.
  { change ok with (ok, w').1. rewrite <- E. vm_compute. reflexivity. }
  rewrite (proj1 (@reload_atomic binary64 sample_text insertion_sort sample_hash DottedQuad.dotted sample_jwt sample_keys
    sample_rules empty_config sample_rules_inv) w' E). reflexivity.
Defined.

Lemma snapshot_view_consistent_witness :
  (7, Some 1%nat) ∈ pub_history (mkPub (Some 1%nat) 7 [(7, Some 1%nat); (0, None)]) ∧ 7 ≤ 7.
Proof.
  apply (snapshot_view_consistent 1 (mkPub (Some 1%nat) 7 [(7, Some 1%nat); (0, None)])
    [mkViewer (Some (7, Some 1%nat)) (VDone 7 7 (Some 1%nat))] 0
    (mkViewer (Some (7, Some 1%nat)) (VDone 7 7 (Some 1%nat))) 7 7 (Some 1%nat)); [|reflexivity|reflexivity].
  eapply rtc_l; [apply (vs_publish _ _ 1%nat 7); cbn; lia|].
  eapply rtc_l; [apply (vs_load _ _ 0 (mkViewer None VIdle)); reflexivity|].
  eapply rtc_l; [apply (vs_miss _ _ 0 (mkViewer None (VLoaded 7)) 7); reflexivity|].
  apply rtc_refl.
Defined.

(** ** A rule that misses its directory

    Request paths lose their trailing slash, rule keys keep it. *)

(** a rule written with a trailing slash does not cover the directory
    itself: for the item "/admin/ = role:admin" the request path "/admin/" is
    normalized to "/admin", which the rule key "/admin/" does not match, so no
    role is demanded; the item without the slash does demand it. *)
Lemma trailing_slash_rule_gap :
  let check items path :=
    path_blacklist_check (@path_blacklist_reload insertion_sort (normalize_path_keys items false))
      (np_path (normalize_path path false)) in
  check [("/admin/" : bytes, "role:admin" : bytes)] "/admin/" = mkBlock false [] ∧
  check [("/admin/" : bytes, "role:admin" : bytes)] "/admin/x" = mkBlock false "admin" ∧
  check [("/admin" : bytes, "role:admin" : bytes)] "/admin/" = mkBlock false "admin".
Proof. vm_compute. auto. Qed.
