(* ===== verification/HttpPool.v ===== *)
(** * Upstream connection pools (src/src/http/http_pool.hpp)

    [HttpPool] keeps idle connections in sixteen locked shards and counts its
    connections and requests in atomics; all pools share one
    [HttpConnectionBudget].  The operations are modelled as a machine whose
    threads interleave at the code's own grain: one step per atomic operation and
    per critical section, except that a critical section which touches an atomic
    counter is several steps that hold the shard's lock.  The theorem shows that
    no interleaving exceeds a limit, loses a reservation, lets a counter
    underflow or hands one connection to two requests. *)

From stdpp Require Import gmap.
From S2P Require Import Prelude.

(** [HttpPool::Config] *)
Record PoolConfig := mkPoolConfig {
  max_size : Z;
  max_concurrent : Z;
  max_total_connections : Z;
  max_body_size : Z;
  connect_timeout_ms : Z;
  read_timeout_ms : Z;
  request_timeout_ms : Z;
  idle_timeout_sec : Z;
  send_keep_alive_header : bool
}.

#[export] Instance PoolConfig_eq_dec : EqDecision PoolConfig.
Proof. solve_decision. Defined.

Definition default_pool_config : PoolConfig :=
  mkPoolConfig 256 0 4096 (10 * 1024 * 1024) 1000 30000 60000 60 false.

Definition without_total (c : PoolConfig) : PoolConfig :=
  mkPoolConfig (max_size c) (max_concurrent c) 0 (max_body_size c) (connect_timeout_ms c)
    (read_timeout_ms c) (request_timeout_ms c) (idle_timeout_sec c) (send_keep_alive_header c).

Definition same_pool_settings (lhs rhs : PoolConfig) : bool :=
  bool_decide (without_total lhs = without_total rhs).

(** A connection; [hc_id] is its socket. *)
Record HttpConn := mkHttpConn {
  hc_id : nat;
  hc_open : bool;
  hc_close : bool;
  hc_read_buffer : bytes;
  hc_last_used_at : Z;
  hc_shard : nat
}.

Definition kShards : nat := 16.

(** [active] holds the sockets of the tracked connections. *)
Record Shard := mkShard {
  sh_locked : bool;
  idle : list HttpConn;
  active : gset nat;
  sh_total : Z;
  sh_in_flight : Z
}.

Definition shard0 : Shard := mkShard false [] ∅ 0 0.

#[export] Instance Shard_inhabited : Inhabited Shard := populate shard0.

Record HttpConnectionBudget := mkBudget { budget_current : Z; budget_limit : Z }.

(** What the code does not store: the share of the budget the other pools hold,
    the limits that were in effect before, the number of sockets ever opened. *)
Record history := mkHistory { h_others : Z; h_past_limits : list Z; h_next_id : nat }.

(** [HttpPool::State] with the budget it shares. *)
Record Pool := mkPool {
  running : bool;
  shards : list Shard;
  total_count : Z;
  in_flight_count : Z;
  last_global_evict_ms : Z;
  budget : HttpConnectionBudget;
  hist : history
}.

Definition new_pool (limit : Z) : Pool :=
  mkPool true (replicate kShards shard0) 0 0 0 (mkBudget 0 limit) (mkHistory 0 [] 0).

(** ** Counters *)

Inductive counter := CTotal | CBudget | CInFlight.

#[export] Instance counter_eq_dec : EqDecision counter.
Proof. solve_decision. Defined.

Definition set_total (st : Pool) (n : Z) : Pool :=
  mkPool (running st) (shards st) n (in_flight_count st) (last_global_evict_ms st) (budget st) (hist st).
Definition set_in_flight (st : Pool) (n : Z) : Pool :=
  mkPool (running st) (shards st) (total_count st) n (last_global_evict_ms st) (budget st) (hist st).
Definition set_budget (st : Pool) (b : HttpConnectionBudget) (h : history) : Pool :=
  mkPool (running st) (shards st) (total_count st) (in_flight_count st) (last_global_evict_ms st) b h.
Definition set_shard (st : Pool) (s : nat) (sh : Shard) : Pool :=
  mkPool (running st) (<[s := sh]> (shards st)) (total_count st) (in_flight_count st)
    (last_global_evict_ms st) (budget st) (hist st).

Definition with_current (b : HttpConnectionBudget) (n : Z) : HttpConnectionBudget := mkBudget n (budget_limit b).

Abbreviation shard_of st s := (shards st !!! s).

(** The CAS loop [while (cur < limit)]: the new value, or refusal. *)
Definition try_increment_counter (cur limit : Z) : option Z := if cur <? limit then Some (cur + 1) else None.

(** The CAS loop [while (cur > 0)]: it takes effect at the successful exchange. *)
Definition decrement_counter (cur : Z) : Z := if 0 <? cur then cur - 1 else cur.

(** [HttpConnectionBudget::release]: [while (current != 0 && !CAS)]. *)
Definition budget_release (b : HttpConnectionBudget) : HttpConnectionBudget :=
  if budget_current b =? 0 then b else with_current b (budget_current b - 1).

(** Giving back one unit of a counter. *)
Definition decrement (c : counter) (st : Pool) : Pool :=
  match c with
  | CTotal => set_total st (decrement_counter (total_count st))
  | CInFlight => set_in_flight st (decrement_counter (in_flight_count st))
  | CBudget => set_budget st (budget_release (budget st)) (hist st)
  end.

(** [--n] on a [size_t]. *)
Definition dec64 (n : Z) : Z := wrap64 (n - 1).

(** ** The threads

    What a thread does after the eviction loop it is in. *)
Inductive after := ASweep (i : nat) (acquiring : bool) | ATry (start n : nat).

Inductive pool_pc :=
| Outside                                         (* not inside the pool *)
| Throttle                                        (* acquire: is a sweep due? *)
| CasEvict (last now_ms : Z)
| Sweep (i : nat) (acquiring : bool)              (* next shard of a sweep: acquire, or evict_stale *)
| Evict (s : nat) (now : Z) (r : after)           (* holds the lock of s *)
| EvictUndo (s : nat) (now : Z) (r : after) (l : list counter)
| Reserve
| TryShard (start n : nat)
| PopIdle (start n : nat)                         (* holds the lock of the shard *)
| PopUndo (start n : nat) (l : list counter)
| Insert (c : HttpConn)
| ReserveTotal (start : nat)
| LoadCurrent (start : nat)
| LoadLimit (start : nat) (cur : Z)
| CasBudget (start : nat) (cur lim : Z)
| NewConn (start : nat)
| Connecting (c : HttpConn)
| Held (c : HttpConn)                             (* acquire has returned c *)
| Untrack (c : HttpConn) (good : bool)            (* ~ConnGuard *)
| Release (c : HttpConn)
| DropShard (c : HttpConn) (l : list counter)
| Undo (l : list counter)
| Shut (i : nat)
| ShutLoop (i : nat)                              (* holds the lock of i *)
| ShutUndo (i : nat) (l : list counter).

(** What the environment contributes to a step. *)
Inductive event :=
| EvCall                                          (* acquire is called *)
| EvEvict                                         (* evict_stale is called *)
| EvShutdown                                      (* shutdown is called *)
| EvClock (now : Z)                               (* the steady clock, in nanoseconds *)
| EvPick (start : nat)                            (* pick_shard *)
| EvRun                                           (* go on *)
| EvFail                                          (* an allocation, resolve or connect fails *)
| EvUse (open closing : bool) (buffer : bytes)    (* the proxy uses the connection *)
| EvDone (good : bool).                           (* ~ConnGuard *)

Definition try_idx (start n : nat) : nat := ((start + n) mod kShards)%nat.
#[global] Arguments try_idx : simpl never.

Definition lock (sh : Shard) : Shard := mkShard true (idle sh) (active sh) (sh_total sh) (sh_in_flight sh).
Definition unlock (sh : Shard) : Shard := mkShard false (idle sh) (active sh) (sh_total sh) (sh_in_flight sh).

(** [pop_front] with [--shard.total] *)
Definition pop_close (sh : Shard) (rest : list HttpConn) : Shard :=
  mkShard (sh_locked sh) rest (active sh) (dec64 (sh_total sh)) (sh_in_flight sh).

(** The end of a call: [active.erase], [--total], [--in_flight]. *)
Definition drop_conn (c : HttpConn) (sh : Shard) : Shard :=
  mkShard (sh_locked sh) (idle sh) (active sh ∖ {[hc_id c]}) (dec64 (sh_total sh)) (dec64 (sh_in_flight sh)).

(** [++shard.in_flight] and the pop of a usable connection. *)
Definition pop_use (sh : Shard) (rest : list HttpConn) : Shard :=
  mkShard (sh_locked sh) rest (active sh) (sh_total sh) (sh_in_flight sh + 1).

Definition track (c : HttpConn) (sh : Shard) : Shard :=
  mkShard (sh_locked sh) (idle sh) (active sh ∪ {[hc_id c]}) (sh_total sh) (sh_in_flight sh).

Definition track_new (c : HttpConn) (sh : Shard) : Shard :=
  mkShard (sh_locked sh) (idle sh) (active sh ∪ {[hc_id c]}) (sh_total sh + 1) (sh_in_flight sh + 1).

Definition untrack_active (c : HttpConn) (sh : Shard) : Shard :=
  mkShard (sh_locked sh) (idle sh) (active sh ∖ {[hc_id c]}) (sh_total sh) (sh_in_flight sh).

(** The pooling branch of [release]; [fits] says whether [push_back] succeeded. *)
Definition push_idle (c : HttpConn) (fits : bool) (sh : Shard) : Shard :=
  mkShard (sh_locked sh) (if fits then idle sh ++ [c] else idle sh) (active sh ∖ {[hc_id c]})
    (if fits then sh_total sh else dec64 (sh_total sh)) (dec64 (sh_in_flight sh)).

Definition used_at (c : HttpConn) (now : Z) : HttpConn :=
  mkHttpConn (hc_id c) (hc_open c) (hc_close c) (hc_read_buffer c) now (hc_shard c).

Definition all_counters : list counter := [CTotal; CBudget; CInFlight].

Fixpoint first_some {A} (l : list (option A)) : option A :=
  match l with [] => None | Some a :: _ => Some a | None :: t => first_some t end.

Section machine.
Context (cfg : PoolConfig).

(** Whether [evict_stale_idle] stops at this connection. *)
Definition fresh (now : Z) (c : HttpConn) : bool := (now - hc_last_used_at c) ÷ 10 ^ 9 <? idle_timeout_sec cfg.

(** After the eviction loop: the sweep unlocks, the search keeps the lock. *)
Definition evict_end (st : Pool) (s : nat) (r : after) : Pool * pool_pc :=
  match r with
  | ASweep i acquiring => (set_shard st s (unlock (shard_of st s)), Sweep i acquiring)
  | ATry start n => (st, PopIdle start n)
  end.

(** [with_lock st s k] runs [k] if no other thread holds the lock of [s]. *)
Definition with_lock (st : Pool) (s : nat) (k : Pool * pool_pc) : option (Pool * pool_pc) :=
  if sh_locked (shard_of st s) then None else Some k.

(** The steps of [acquire] up to the search of the shards. *)
Definition step_enter (ev : event) (st : Pool) (p : pool_pc) : option (Pool * pool_pc) :=
  match p, ev with
  | Outside, EvCall => Some (st, if running st then Throttle else Outside)
  | Throttle, EvClock now =>
      let now_ms := now ÷ 10 ^ 6 in
      Some (st, if 1000 <=? now_ms - last_global_evict_ms st
                then CasEvict (last_global_evict_ms st) now_ms else Reserve)
  | CasEvict last now_ms, EvRun =>
      Some (if last_global_evict_ms st =? last
            then (mkPool (running st) (shards st) (total_count st) (in_flight_count st) now_ms
                    (budget st) (hist st), Sweep 0 true)
            else (st, Reserve))
  | Reserve, EvPick start =>
      if 0 <? max_concurrent cfg then
        match try_increment_counter (in_flight_count st) (max_concurrent cfg) with
        | Some n => Some (set_in_flight st n, TryShard (start mod kShards) 0)
        | None => Some (st, Outside)
        end
      else Some (set_in_flight st (in_flight_count st + 1), TryShard (start mod kShards) 0)
  | _, _ => None
  end.

(** Eviction: the sweep over the shards, and the loop inside one. *)
Definition step_evict (ev : event) (st : Pool) (p : pool_pc) : option (Pool * pool_pc) :=
  match p, ev with
  | Outside, EvEvict => Some (st, Sweep 0 false)
  | Sweep i acquiring, EvClock now =>
      if (i <? kShards)%nat
      then with_lock st i (set_shard st i (lock (shard_of st i)), Evict i now (ASweep (S i) acquiring))
      else Some (st, if acquiring then Reserve else Outside)
  | Evict s now r, EvRun =>
      match idle (shard_of st s) with
      | [] => Some (evict_end st s r)
      | c :: rest =>
          if fresh now c then Some (evict_end st s r)
          else Some (set_shard st s (pop_close (shard_of st s) rest), EvictUndo s now r [CTotal; CBudget])
      end
  | EvictUndo s now r [], EvRun => Some (st, Evict s now r)
  | EvictUndo s now r (c :: l), EvRun => Some (decrement c st, EvictUndo s now r l)
  | _, _ => None
  end.

(** The search for an idle connection. *)
Definition step_search (ev : event) (st : Pool) (p : pool_pc) : option (Pool * pool_pc) :=
  match p, ev with
  | TryShard start n, EvClock now =>
      let s := try_idx start n in
      if (n <? kShards)%nat
      then with_lock st s (set_shard st s (lock (shard_of st s)), Evict s now (ATry start n))
      else Some (st, ReserveTotal start)
  | PopIdle start n, EvRun =>
      let s := try_idx start n in
      match idle (shard_of st s) with
      | [] => Some (set_shard st s (unlock (shard_of st s)), TryShard start (S n))
      | c :: rest =>
          if hc_close c || negb (beqb (hc_read_buffer c) [])
          then Some (set_shard st s (pop_close (shard_of st s) rest), PopUndo start n [CTotal; CBudget])
          else Some (set_shard st s (unlock (pop_use (shard_of st s) rest)), Insert c)
      end
  | PopIdle start n, EvFail =>
      let s := try_idx start n in
      match idle (shard_of st s) with
      | [] => None
      | _ :: _ => Some (set_shard st s (unlock (shard_of st s)), Undo [CInFlight])
      end
  | PopUndo start n [], EvRun => Some (st, PopIdle start n)
  | PopUndo start n (c :: l), EvRun => Some (decrement c st, PopUndo start n l)
  | Insert c, EvRun =>
      with_lock st (hc_shard c) (set_shard st (hc_shard c) (track c (shard_of st (hc_shard c))), Held c)
  | Insert c, EvFail => Some (st, DropShard c all_counters)
  | _, _ => None
  end.

(** [HttpConnectionBudget::try_acquire] *)
Definition step_budget (ev : event) (st : Pool) (p : pool_pc) : option (Pool * pool_pc) :=
  match p, ev with
  | LoadCurrent start, EvRun => Some (st, LoadLimit start (budget_current (budget st)))
  | LoadLimit start cur, EvRun =>
      let lim := budget_limit (budget st) in
      if negb (lim =? 0) && (lim <=? cur) then Some (st, Undo [CTotal; CInFlight])
      else Some (st, CasBudget start cur lim)
  | CasBudget start cur lim, EvRun =>
      if budget_current (budget st) =? cur
      then Some (set_budget st (with_current (budget st) (cur + 1)) (hist st), NewConn start)
      else Some (st, LoadLimit start (budget_current (budget st)))
  | CasBudget start cur lim, EvFail => Some (st, LoadLimit start (budget_current (budget st)))
  | _, _ => None
  end.

(** The creation of a connection. *)
Definition step_create (ev : event) (st : Pool) (p : pool_pc) : option (Pool * pool_pc) :=
  match p, ev with
  | ReserveTotal start, EvRun =>
      match try_increment_counter (total_count st) (max_size cfg) with
      | Some n => Some (set_total st n, LoadCurrent start)
      | None => Some (st, Undo [CInFlight])
      end
  | NewConn start, EvRun =>
      let h := hist st in
      let c := mkHttpConn (h_next_id h) true false [] 0 start in
      with_lock st start
        (set_budget (set_shard st start (track_new c (shard_of st start))) (budget st)
           (mkHistory (h_others h) (h_past_limits h) (S (h_next_id h))), Connecting c)
  | NewConn start, EvFail => Some (st, Undo all_counters)
  | Connecting c, EvClock now => Some (st, Held (used_at c now))
  | Connecting c, EvFail => Some (st, DropShard c all_counters)
  | _, _ => None
  end.

(** Use and return of a connection. *)
Definition step_return (ev : event) (st : Pool) (p : pool_pc) : option (Pool * pool_pc) :=
  match p, ev with
  | Held c, EvUse open closing buffer =>
      Some (st, Held (mkHttpConn (hc_id c) open closing buffer (hc_last_used_at c) (hc_shard c)))
  | Held c, EvDone good => Some (st, Untrack c good)
  | Untrack c good, EvRun =>
      with_lock st (hc_shard c)
        (set_shard st (hc_shard c) (untrack_active c (shard_of st (hc_shard c))),
         if good then Release c else DropShard c all_counters)
  | Release c, EvClock now =>
      if negb (hc_open c) || hc_close c then Some (st, DropShard c all_counters)
      else if negb (beqb (hc_read_buffer c) []) then Some (st, DropShard c all_counters)
      else with_lock st (hc_shard c)
             (set_shard st (hc_shard c) (push_idle (used_at c now) true (shard_of st (hc_shard c))), Undo [CInFlight])
  | Release c, EvFail =>
      if negb (hc_open c) || hc_close c || negb (beqb (hc_read_buffer c) []) then None
      else with_lock st (hc_shard c)
             (set_shard st (hc_shard c) (push_idle c false (shard_of st (hc_shard c))),
              Undo [CInFlight; CTotal; CBudget])
  | DropShard c l, EvRun =>
      with_lock st (hc_shard c) (set_shard st (hc_shard c) (drop_conn c (shard_of st (hc_shard c))), Undo l)
  | Undo [], EvRun => Some (st, Outside)
  | Undo (c :: l), EvRun => Some (decrement c st, Undo l)
  | _, _ => None
  end.

(** [shutdown] *)
Definition step_shutdown (ev : event) (st : Pool) (p : pool_pc) : option (Pool * pool_pc) :=
  match p, ev with
  | Outside, EvShutdown =>
      Some (mkPool false (shards st) (total_count st) (in_flight_count st) (last_global_evict_ms st)
              (budget st) (hist st),
            if running st then Shut 0 else Outside)
  | Shut i, EvRun =>
      if (i <? kShards)%nat then with_lock st i (set_shard st i (lock (shard_of st i)), ShutLoop i)
      else Some (st, Outside)
  | ShutLoop i, EvRun =>
      match idle (shard_of st i) with
      | [] => Some (set_shard st i (unlock (shard_of st i)), Shut (S i))
      | c :: rest => Some (set_shard st i (pop_close (shard_of st i) rest), ShutUndo i [CTotal; CBudget])
      end
  | ShutUndo i [], EvRun => Some (st, ShutLoop i)
  | ShutUndo i (c :: l), EvRun => Some (decrement c st, ShutUndo i l)
  | _, _ => None
  end.

(** The step of a thread, if [ev] is what it waits for. *)
Definition pool_thread_step (ev : event) (st : Pool) (p : pool_pc) : option (Pool * pool_pc) :=
  first_some [step_enter ev st p; step_evict ev st p; step_search ev st p; step_create ev st p;
              step_budget ev st p; step_return ev st p; step_shutdown ev st p].

(** Any thread moves, another pool takes or returns a share of the budget, or a
    reload sets its limit. *)
Inductive pool_step : Pool * list pool_pc → Pool * list pool_pc → Prop :=
| pstep_thread st ts i p ev st' p' :
    ts !! i = Some p → pool_thread_step ev st p = Some (st', p') →
    pool_step (st, ts) (st', <[i := p']> ts)
| pstep_other_acquire st ts lim :
    let b := budget st in let h := hist st in
    lim ∈ budget_limit b :: h_past_limits h → lim = 0 ∨ budget_current b < lim →
    pool_step (st, ts)
      (set_budget st (with_current b (budget_current b + 1))
         (mkHistory (h_others h + 1) (h_past_limits h) (h_next_id h)), ts)
| pstep_other_release st ts :
    let b := budget st in let h := hist st in
    0 < h_others h →
    pool_step (st, ts)
      (set_budget st (budget_release b) (mkHistory (h_others h - 1) (h_past_limits h) (h_next_id h)), ts)
| pstep_set_limit st ts limit :
    let b := budget st in let h := hist st in
    0 ≤ limit →
    pool_step (st, ts)
      (set_budget st (mkBudget (budget_current b) limit)
         (mkHistory (h_others h) (budget_limit b :: h_past_limits h) (h_next_id h)), ts).

End machine.

(** ** What a thread owns *)

Fixpoint count (c : counter) (l : list counter) : Z :=
  match l with [] => 0 | d :: t => (if decide (d = c) then 1 else 0) + count c t end.

(** The units of the global counters. *)
Definition reserved (p : pool_pc) : list counter :=
  match p with
  | EvictUndo _ _ (ASweep _ _) l | ShutUndo _ l | Undo l | DropShard _ l => l
  | EvictUndo _ _ (ATry _ _) l | PopUndo _ _ l => CInFlight :: l
  | TryShard _ _ | Evict _ _ (ATry _ _) | PopIdle _ _ | ReserveTotal _ => [CInFlight]
  | LoadCurrent _ | LoadLimit _ _ | CasBudget _ _ _ => [CTotal; CInFlight]
  | NewConn _ | Insert _ | Connecting _ | Held _ | Untrack _ _ | Release _ => all_counters
  | _ => []
  end.

Definition tok (c : counter) (p : pool_pc) : Z := count c (reserved p).

(** The connection, counted by its shard. *)
Definition conn_of (p : pool_pc) : option HttpConn :=
  match p with
  | Insert c | Connecting c | Held c | Untrack c _ | Release c | DropShard c _ => Some c
  | _ => None
  end.

(** Its socket and its shard. *)
Definition conn_key (p : pool_pc) : option (nat * nat) := (λ c, (hc_id c, hc_shard c)) <$> conn_of p.

Definition on_shard (s : nat) (p : pool_pc) : Z :=
  match conn_key p with Some (_, s') => if decide (s' = s) then 1 else 0 | None => 0 end.

Definition own (k : nat) (p : pool_pc) : Z :=
  match conn_key p with Some (k', _) => if decide (k' = k) then 1 else 0 | None => 0 end.

(** The lock. *)
Definition lock_of (p : pool_pc) : option nat :=
  match p with
  | Evict s _ _ | EvictUndo s _ _ _ | ShutLoop s | ShutUndo s _ => Some s
  | PopIdle start n | PopUndo start n _ => Some (try_idx start n)
  | _ => None
  end.

Definition holds (s : nat) (p : pool_pc) : Z := if decide (lock_of p = Some s) then 1 else 0.

(** What the local variables satisfy. *)
Definition pc_wf (st : Pool) (p : pool_pc) : Prop :=
  (∀ c, conn_of p = Some c → (hc_shard c < kShards)%nat) ∧
  match p with
  | Evict s _ (ATry start n) | EvictUndo s _ (ATry start n) _ => s = try_idx start n ∧ (start < kShards)%nat
  | Evict s _ _ | EvictUndo s _ _ _ | ShutLoop s | ShutUndo s _ => (s < kShards)%nat
  | TryShard start _ | PopIdle start _ | PopUndo start _ _ | ReserveTotal start | LoadCurrent start
  | LoadLimit start _ | NewConn start => (start < kShards)%nat
  | CasBudget start cur lim =>
      (start < kShards)%nat ∧ lim ∈ budget_limit (budget st) :: h_past_limits (hist st) ∧ (lim = 0 ∨ cur < lim)
  | DropShard _ l => l = all_counters
  | Held c | Untrack c _ => True
  | Insert c => hc_close c = false ∧ hc_read_buffer c = []
  | _ => True
  end.

(** The idle connections: their number, and how many have the socket [k]. *)
Definition idle_len (sh : Shard) : Z := Z.of_nat (length (idle sh)).
Definition idle_total (st : Pool) : Z := total idle_len (shards st).
Definition copies (k : nat) (l : list HttpConn) : Z := total (λ c, if decide (hc_id c = k) then 1 else 0) l.
Definition idle_copies (k : nat) (st : Pool) : Z := total (λ sh, copies k (idle sh)) (shards st).
Definition locked_z (sh : Shard) : Z := if sh_locked sh then 1 else 0.

(** ** The invariant *)

Record pool_inv (cfg : PoolConfig) (st : Pool) (ts : list pool_pc) : Prop := {
  inv_shards : length (shards st) = kShards;
  inv_wf p : p ∈ ts → pc_wf st p;
  inv_total : total_count st = idle_total st + total (tok CTotal) ts;
  inv_budget : budget_current (budget st) = h_others (hist st) + idle_total st + total (tok CBudget) ts;
  inv_others : 0 ≤ h_others (hist st);
  inv_flight : in_flight_count st = total (tok CInFlight) ts;
  inv_shard s : (s < kShards)%nat →
    sh_total (shard_of st s) = idle_len (shard_of st s) + total (on_shard s) ts ∧
    sh_in_flight (shard_of st s) = total (on_shard s) ts ∧
    locked_z (shard_of st s) = total (holds s) ts ∧
    Forall (λ c, hc_shard c = s) (idle (shard_of st s));
  inv_copies k : idle_copies k st + total (own k) ts ≤ (if decide (k < h_next_id (hist st))%nat then 1 else 0);
  inv_max_size : total_count st ≤ max_size cfg;
  inv_max_concurrent : 0 < max_concurrent cfg → in_flight_count st ≤ max_concurrent cfg;
  inv_limits L : Forall (λ l, 0 < l ≤ L) (budget_limit (budget st) :: h_past_limits (hist st)) →
    budget_current (budget st) ≤ L
}.

Lemma count_nonneg c l : 0 ≤ count c l.
Proof. induction l; simpl; [done|]. case_decide; lia. Qed.

Lemma tok_nonneg c p : 0 ≤ tok c p.
Proof. apply count_nonneg. Qed.

Lemma on_shard_01 s p : 0 ≤ on_shard s p ≤ 1.
Proof. unfold on_shard. destruct (conn_key p) as [[]|]; [case_decide|]; lia. Qed.

Lemma own_01 k p : 0 ≤ own k p ≤ 1.
Proof. unfold own. destruct (conn_key p) as [[]|]; [case_decide|]; lia. Qed.

Lemma holds_01 s p : 0 ≤ holds s p ≤ 1.
Proof. unfold holds. case_decide; lia. Qed.

Lemma on_shard_tok st s p c : pc_wf st p → on_shard s p ≤ tok c p.
Proof.
  intros [_ Hw]. unfold on_shard, conn_key, tok. destruct p; cbn [conn_of reserved fmap option_fmap option_map]; try apply count_nonneg;
    try (destruct c; simpl; case_decide; lia).
  subst l. destruct c; simpl; case_decide; lia.
Qed.

Lemma dec64_ok n : 1 ≤ n ≤ SIZE_MAX → dec64 n = n - 1.
Proof. intros Hn. unfold dec64, wrap64, SIZE_MAX in *. apply Z.mod_small. lia. Qed.

Lemma try_idx_lt start n : (try_idx start n < kShards)%nat.
Proof. apply Nat.mod_upper_bound. done. Qed.

Lemma idle_len_le st s : (s < length (shards st))%nat → 0 ≤ idle_len (shard_of st s) ≤ idle_total st.
Proof.
  intros Hs. unfold idle_total. split; [unfold idle_len; lia|].
  apply (total_one idle_len _ s); [unfold idle_len; lia|]. by apply list_lookup_lookup_total_lt.
Qed.

(** ** One step of one thread *)

(** What a step changes, in terms of what the thread owned and owns. *)
Record deltas (st : Pool) (p : pool_pc) (st' : Pool) (p' : pool_pc) : Prop := {
  d_len : length (shards st') = length (shards st);
  d_total : total_count st' - total_count st = idle_total st' - idle_total st + tok CTotal p' - tok CTotal p;
  d_budget : budget_current (budget st') - budget_current (budget st) =
             idle_total st' - idle_total st + tok CBudget p' - tok CBudget p;
  d_flight : in_flight_count st' - in_flight_count st = tok CInFlight p' - tok CInFlight p;
  d_shard s : (s < kShards)%nat →
    sh_total (shard_of st' s) - sh_total (shard_of st s) =
      idle_len (shard_of st' s) - idle_len (shard_of st s) + on_shard s p' - on_shard s p ∧
    sh_in_flight (shard_of st' s) - sh_in_flight (shard_of st s) = on_shard s p' - on_shard s p ∧
    locked_z (shard_of st' s) - locked_z (shard_of st s) = holds s p' - holds s p;
  d_copies k : idle_copies k st' + own k p' - idle_copies k st - own k p ≤
    (if decide (h_next_id (hist st) ≤ k < h_next_id (hist st'))%nat then 1 else 0)
}.

(** What the invariant guarantees to the thread that moves. *)
Record avail (st : Pool) (p : pool_pc) : Prop := {
  a_len : length (shards st) = kShards;
  a_wf : pc_wf st p;
  a_total : idle_total st + tok CTotal p ≤ total_count st;
  a_budget : idle_total st + tok CBudget p ≤ budget_current (budget st);
  a_flight : tok CInFlight p ≤ in_flight_count st;
  a_shard s : (s < kShards)%nat →
    idle_len (shard_of st s) + on_shard s p ≤ sh_total (shard_of st s) ≤ SIZE_MAX ∧
    on_shard s p ≤ sh_in_flight (shard_of st s) ≤ SIZE_MAX ∧
    (holds s p = 1 → sh_locked (shard_of st s) = true);
  a_idle s : (s < kShards)%nat → Forall (λ c, hc_shard c = s) (idle (shard_of st s))
}.

Lemma idle_total_nonneg st : 0 ≤ idle_total st.
Proof.
  unfold idle_total. pose proof (total_mono (λ _, 0) idle_len (shards st)) as H.
  rewrite (total_zero (λ _ : Shard, 0)) in H by done. apply H. unfold idle_len. lia.
Qed.

(** Steps that leave the shards alone. *)
Lemma deltas_counters st p st' p' : shards st' = shards st → h_next_id (hist st') = h_next_id (hist st) →
  total_count st' - total_count st = tok CTotal p' - tok CTotal p →
  budget_current (budget st') - budget_current (budget st) = tok CBudget p' - tok CBudget p →
  in_flight_count st' - in_flight_count st = tok CInFlight p' - tok CInFlight p →
  conn_key p' = conn_key p → lock_of p' = lock_of p → deltas st p st' p'.
Proof.
  intros Hsh Hh H1 H2 H3 Hc Hl.
  split; unfold idle_total, idle_copies; rewrite ?Hsh, ?Hh; try lia.
  - intros s _. unfold on_shard, holds. rewrite Hc, Hl. lia.
  - intros k. unfold own. rewrite Hc. rewrite decide_False by lia. lia.
Qed.

(** Steps that give back one unit of a counter. *)
Lemma deltas_decrement st p p' c : avail st p → (∀ d, count d (reserved p) = count d (c :: reserved p')) →
  conn_key p' = conn_key p → lock_of p' = lock_of p → deltas st p (decrement c st) p'.
Proof.
  intros Ha Hr Hc Hl. pose proof (idle_total_nonneg st) as Hi.
  destruct Ha as [_ _ At Ab Af _ _]. unfold tok in *. rewrite Hr in At, Ab, Af.
  pose proof (count_nonneg CTotal (reserved p')). pose proof (count_nonneg CBudget (reserved p')).
  pose proof (count_nonneg CInFlight (reserved p')).
  assert (shards (decrement c st) = shards st) as Hsh by (by destruct c).
  assert (hist (decrement c st) = hist st) as Hhist by (by destruct c).
  apply deltas_counters; try done; [by rewrite Hhist|..]; unfold tok; rewrite Hr;
    destruct c; simpl in *; unfold decrement_counter, budget_release in *; repeat case_decide; repeat case_if; simpl; lia.
Qed.

(** Steps that replace the shard [s]. *)
Lemma deltas_shard st p p' s sh' n : (s < kShards)%nat → length (shards st) = kShards →
  (∀ c, tok c p' - tok c p = match c with CInFlight => 0 | _ => idle_len (shard_of st s) - idle_len sh' end) →
  sh_total sh' - sh_total (shard_of st s) = idle_len sh' - idle_len (shard_of st s) + on_shard s p' - on_shard s p →
  sh_in_flight sh' - sh_in_flight (shard_of st s) = on_shard s p' - on_shard s p →
  locked_z sh' - locked_z (shard_of st s) = holds s p' - holds s p →
  (∀ s', s' ≠ s → on_shard s' p' = on_shard s' p ∧ holds s' p' = holds s' p) →
  (∀ k, copies k (idle sh') + own k p' - copies k (idle (shard_of st s)) - own k p ≤
     (if decide (h_next_id (hist st) ≤ k < n + h_next_id (hist st))%nat then 1 else 0)) →
  let h := hist st in
  deltas st p (set_budget (set_shard st s sh') (budget st)
                 (mkHistory (h_others h) (h_past_limits h) (n + h_next_id h))) p'.
Proof.
  intros Hs Hlen Ht H1 H2 H3 Ho Hk h.
  assert (shards st !! s = Some (shard_of st s)) as Hl by (apply list_lookup_lookup_total_lt; lia).
  pose proof (Ht CTotal) as Ht1. pose proof (Ht CBudget) as Ht2. pose proof (Ht CInFlight) as Ht3. cbn in Ht1, Ht2, Ht3.
  split; unfold idle_total, idle_copies; cbn [shards set_budget set_shard total_count in_flight_count budget hist];
    rewrite ?(total_insert _ _ _ _ _ Hl); try lia.
  - by rewrite length_insert.
  - intros s' Hs'. destruct (decide (s' = s)) as [->|Hne].
    + rewrite list_lookup_total_insert, decide_True by lia. split_and!; lia.
    + rewrite list_lookup_total_insert_ne by done. destruct (Ho s' Hne) as [-> ->]. lia.
  - intros k. rewrite (total_insert _ _ _ _ _ Hl). specialize (Hk k). cbn [h_next_id]. unfold h. lia.
Qed.

Lemma deltas_set_shard st p p' s sh' : (s < kShards)%nat → length (shards st) = kShards →
  (∀ c, tok c p' - tok c p = match c with CInFlight => 0 | _ => idle_len (shard_of st s) - idle_len sh' end) →
  sh_total sh' - sh_total (shard_of st s) = idle_len sh' - idle_len (shard_of st s) + on_shard s p' - on_shard s p →
  sh_in_flight sh' - sh_in_flight (shard_of st s) = on_shard s p' - on_shard s p →
  locked_z sh' - locked_z (shard_of st s) = holds s p' - holds s p →
  (∀ s', s' ≠ s → on_shard s' p' = on_shard s' p ∧ holds s' p' = holds s' p) →
  (∀ k, copies k (idle sh') + own k p' - copies k (idle (shard_of st s)) - own k p ≤ 0) →
  deltas st p (set_shard st s sh') p'.
Proof.
  intros Hs Hlen Ht H1 H2 H3 Ho Hk.
  assert (∀ k, ¬ (h_next_id (hist st) ≤ k < 0 + h_next_id (hist st))%nat) as Hn by lia.
  pose proof (deltas_shard st p p' s sh' 0 Hs Hlen Ht H1 H2 H3 Ho) as H. setoid_rewrite decide_False in H; [|apply Hn]. specialize (H Hk). cbv zeta in H. cbn [Nat.add] in H.
  assert (mkHistory (h_others (hist st)) (h_past_limits (hist st)) (h_next_id (hist st)) = hist st) as Heq
    by (by destruct (hist st)).
  rewrite Heq in H. done.
Qed.

Lemma copies_cons k c l : copies k (c :: l) = (if decide (hc_id c = k) then 1 else 0) + copies k l.
Proof. done. Qed.

Lemma copies_snoc k c l : copies k (l ++ [c]) = copies k l + (if decide (hc_id c = k) then 1 else 0).
Proof. induction l as [|d l IH]; [unfold copies; simpl; case_decide; lia|]. cbn [app]. rewrite !copies_cons, IH. lia. Qed.

Ltac pool_unfold :=
  unfold tok, on_shard, own, holds, idle_len, locked_z, conn_key in *;
  cbn [reserved conn_of fmap option_fmap option_map lock_of count idle sh_total sh_in_flight sh_locked lock unlock
       pop_close pop_use track track_new untrack_active drop_conn push_idle all_counters length hc_id hc_shard
       used_at] in *.

Ltac pool_shard s :=
  let Hs := fresh "Hs" in
  assert (s < kShards)%nat as Hs by first [done | apply try_idx_lt | lia];
  lazymatch goal with
  | Ha : avail ?st ?p |- _ => destruct (a_shard _ _ Ha s Hs) as (? & ? & ?); apply deltas_set_shard;
      [exact Hs | exact (a_len _ _ Ha) | ..]
  end; pool_unfold.

(** Closes the arithmetic side conditions. *)
Ltac pool_arith :=
  intros; repeat match goal with c : counter |- _ => destruct c end; cbn [count] in *;
  rewrite ?copies_cons, ?copies_snoc in *;
  repeat case_decide; simplify_eq; rewrite ?dec64_ok by (cbn [length] in *; lia);
  repeat match goal with H : 1 = 1 → ?b = true |- _ => specialize (H eq_refl) end;
  repeat match goal with H : sh_locked _ = _ |- context [sh_locked _] => rewrite H end;
  cbn [length] in *; try lia; try (split; repeat case_decide; simplify_eq; lia); try done.

Ltac pool_counters := apply deltas_counters; cbn; try done; repeat case_decide; done || lia.

Lemma evict_end_deltas st s now r st' p' : avail st (Evict s now r) → evict_end st s r = (st', p') →
  deltas st (Evict s now r) st' p'.
Proof.
  intros Ha He. destruct (a_wf _ _ Ha) as [_ Hw]. destruct r as [i acq|start n]; cbn in He; simplify_eq.
  - cbn in Hw. pool_shard s; pool_arith.
  - destruct Hw as [-> _]. by apply deltas_counters; cbn; try lia.
Qed.

Ltac pool_lock H := unfold with_lock in H; destruct (sh_locked _) eqn:?Hlock in H; [done|]; simplify_eq.

Lemma step_enter_deltas cfg ev st p st' p' : step_enter cfg ev st p = Some (st', p') → avail st p →
  deltas st p st' p'.
Proof.
  intros Hstep Ha. destruct p; destruct ev; cbn [step_enter] in Hstep; try done.
  - simplify_eq. case_if; pool_counters.
  - simplify_eq. case_if; pool_counters.
  - destruct (_ =? _); simplify_eq; pool_counters.
  - unfold try_increment_counter in Hstep. destruct (0 <? _); [destruct (_ <? _)|]; simplify_eq; pool_counters.
Qed.

Lemma step_evict_deltas cfg ev st p st' p' : step_evict cfg ev st p = Some (st', p') → avail st p →
  deltas st p st' p'.
Proof.
  intros Hstep Ha. destruct (a_wf _ _ Ha) as [_ Hw].
  destruct p as [| |last now_ms|i acq|s now r|s now r l| | | | | | | | | | | | | | | | | | |]; try (destruct l as [|c l]);
    destruct ev; cbn [step_evict] in Hstep; try done.
  - simplify_eq. pool_counters.
  - destruct (i <? kShards)%nat eqn:Hi; [|simplify_eq; destruct acq; pool_counters].
    apply Nat.ltb_lt in Hi. pool_lock Hstep. pool_shard i; pool_arith.
  - destruct (idle (shard_of st s)) as [|c rest] eqn:Hidle.
    { injection Hstep as Hend. by apply evict_end_deltas. }
    destruct (fresh _ _ _); [injection Hstep as Hend; by apply evict_end_deltas|]. simplify_eq.
    assert (s < kShards)%nat as Hs' by (destruct r as [|start n]; [done|destruct Hw as [-> _]; apply try_idx_lt]).
    destruct r; pool_shard s; rewrite ?Hidle in *; pool_arith.
  - simplify_eq. destruct r; pool_counters.
  - simplify_eq. apply deltas_decrement; try done. intros d. destruct r; cbn [reserved count]; lia.
Qed.

Lemma step_search_deltas ev st p st' p' : step_search ev st p = Some (st', p') → avail st p →
  deltas st p st' p'.
Proof.
  intros Hstep Ha. destruct (a_wf _ _ Ha) as [Hc Hw].
  destruct p as [| |last now_ms|i acq|s now r|s now r l| |start n|start n|start n l|c| | | | | | | | | | | | | |];
    try (destruct l as [|c l]); destruct ev; cbn [step_search] in Hstep; try done.
  - destruct (n <? kShards)%nat; [|simplify_eq; pool_counters]. pool_lock Hstep.
    pool_shard (try_idx start n); pool_arith.
  - destruct (idle (shard_of st (try_idx start n))) as [|c rest] eqn:Hidle; [|destruct (_ || _)]; simplify_eq.
    1,2: pool_shard (try_idx start n); rewrite ?Hidle in *; pool_arith.
    pose proof (a_idle _ _ Ha _ (try_idx_lt start n)) as Hall. rewrite Hidle in Hall. inversion Hall as [|? ? Heq _].
    pool_shard (try_idx start n); rewrite ?Hidle, ?Heq in *; pool_arith.
  - destruct (idle (shard_of st (try_idx start n))) as [|c rest] eqn:Hidle; [done|]. simplify_eq.
    pool_shard (try_idx start n); rewrite ?Hidle in *; pool_arith.
  - simplify_eq. pool_counters.
  - simplify_eq. apply deltas_decrement; try done. intros d. cbn [reserved count]; lia.
  - pool_lock Hstep. pose proof (Hc _ eq_refl). pool_shard (hc_shard c); pool_arith.
  - simplify_eq. pool_counters.
Qed.

Lemma step_budget_deltas ev st p st' p' : step_budget ev st p = Some (st', p') → avail st p →
  deltas st p st' p'.
Proof.
  intros Hstep _. destruct p; destruct ev; cbn [step_budget] in Hstep; try done.
  - simplify_eq. pool_counters.
  - destruct (_ && _); simplify_eq; pool_counters.
  - destruct (_ =? _) eqn:E; [apply Z.eqb_eq in E|]; simplify_eq; pool_counters.
  - simplify_eq. pool_counters.
Qed.

Lemma step_create_deltas cfg ev st p st' p' : step_create cfg ev st p = Some (st', p') → avail st p →
  deltas st p st' p'.
Proof.
  intros Hstep Ha. destruct (a_wf _ _ Ha) as [Hc Hw].
  destruct p as [| |last now_ms|i acq|s now r|s now r l| |start n|start n|start n l|c|start|start|start cur
                |start cur lim|start|c| | | | | | | |];
    destruct ev; cbn [step_create] in Hstep; try done.
  - unfold try_increment_counter in Hstep. destruct (_ <? _); simplify_eq; pool_counters.
  - pool_lock Hstep. destruct (a_shard _ _ Ha start Hw) as (? & ? & ?).
    apply (deltas_shard st (NewConn start) _ start _ 1); [done|apply (a_len _ _ Ha)|..]; pool_unfold; pool_arith.
  - simplify_eq. pool_counters.
  - simplify_eq. pool_counters.
  - simplify_eq. pool_counters.
Qed.

Lemma step_return_deltas ev st p st' p' : step_return ev st p = Some (st', p') → avail st p →
  deltas st p st' p'.
Proof.
  intros Hstep Ha. destruct (a_wf _ _ Ha) as [Hc Hw].
  destruct p as [| |last now_ms|i acq|s now r|s now r l| |start n|start n|start n l|c|start|start|start cur
                |start cur lim|start|c|c|c good|c|c l|l|i|i|i l];
    try (destruct l as [|d l]); destruct ev; cbn [step_return] in Hstep; try done.
  - simplify_eq. pool_counters.
  - simplify_eq. pool_counters.
  - pool_lock Hstep. pose proof (Hc _ eq_refl). destruct good; pool_shard (hc_shard c); pool_arith.
  - destruct (_ || _); [simplify_eq; pool_counters|]. destruct (negb _); [simplify_eq; pool_counters|].
    pool_lock Hstep. pose proof (Hc _ eq_refl). pool_shard (hc_shard c); rewrite ?length_app; pool_arith.
  - destruct (_ || _ || _); [done|]. pool_lock Hstep. pose proof (Hc _ eq_refl).
    pool_shard (hc_shard c); pool_arith.
  - pool_lock Hstep. pose proof (Hc _ eq_refl). cbn in Hw. rewrite Hw in *. pool_shard (hc_shard c); pool_arith.
  - simplify_eq. pool_counters.
  - simplify_eq. apply deltas_decrement; done.
Qed.

Lemma step_shutdown_deltas ev st p st' p' : step_shutdown ev st p = Some (st', p') → avail st p →
  deltas st p st' p'.
Proof.
  intros Hstep Ha. destruct (a_wf _ _ Ha) as [_ Hw].
  destruct p as [| | | | | | | | | | | | | | | | | | | | | |i|i|i l];
    try (destruct l as [|d l]); destruct ev; cbn [step_shutdown] in Hstep; try done.
  - simplify_eq. destruct (running st); pool_counters.
  - destruct (i <? kShards)%nat eqn:Hi; [|simplify_eq; pool_counters].
    apply Nat.ltb_lt in Hi. pool_lock Hstep. pool_shard i; pool_arith.
  - cbn in Hw. destruct (idle (shard_of st i)) as [|c rest] eqn:Hidle; simplify_eq;
      pool_shard i; rewrite ?Hidle in *; pool_arith.
  - simplify_eq. pool_counters.
  - simplify_eq. apply deltas_decrement; done.
Qed.

Lemma thread_step_deltas cfg ev st p st' p' : pool_thread_step cfg ev st p = Some (st', p') → avail st p →
  deltas st p st' p'.
Proof.
  unfold pool_thread_step. intros Hstep Ha. cbn [first_some] in Hstep. repeat case_match; simplify_eq;
    eauto using step_enter_deltas, step_evict_deltas, step_search_deltas, step_create_deltas, step_budget_deltas,
      step_return_deltas, step_shutdown_deltas.
Qed.

(** Splits a step into its cases. *)
Ltac step_cases Hstep :=
  unfold pool_thread_step in Hstep;
  match type of Hstep with context [step_enter _ ?ev _ ?p] =>
    destruct p; try match goal with l : list counter |- _ => destruct l as [|? ?] end; destruct ev
  end;
  cbn [first_some step_enter step_evict step_search step_create step_budget step_return step_shutdown] in Hstep;
  unfold with_lock, evict_end, try_increment_counter in Hstep;
  repeat (case_match; simplify_eq); simplify_eq.

Lemma step_frame cfg ev st p st' p' : pool_thread_step cfg ev st p = Some (st', p') →
  h_others (hist st') = h_others (hist st) ∧ h_past_limits (hist st') = h_past_limits (hist st) ∧
  budget_limit (budget st') = budget_limit (budget st) ∧
  (h_next_id (hist st) ≤ h_next_id (hist st'))%nat.
Proof.
  intros Hstep. step_cases Hstep; try done.
  all: try (destruct c; cbn; unfold budget_release; repeat case_match; by split_and!).
  all: cbn; split_and!; lia || done.
Qed.

Lemma step_limits cfg ev st p st' p' : pool_thread_step cfg ev st p = Some (st', p') → pc_wf st p →
  0 ≤ total_count st ≤ max_size cfg → 0 ≤ in_flight_count st → 0 ≤ budget_current (budget st) →
  total_count st' ≤ max_size cfg ∧
  (0 < max_concurrent cfg → in_flight_count st ≤ max_concurrent cfg → in_flight_count st' ≤ max_concurrent cfg) ∧
  (∀ L, Forall (λ l, 0 < l ≤ L) (budget_limit (budget st) :: h_past_limits (hist st)) →
     budget_current (budget st) ≤ L → budget_current (budget st') ≤ L).
Proof.
  intros Hstep [_ Hw] Ht Hf Hb. step_cases Hstep; bool_prop.
  all: try match goal with c : counter |- _ => destruct c end.
  all: cbn; unfold decrement_counter, budget_release; repeat case_match; cbn; split_and!; intros; try done; try lia.
  destruct Hw as (_ & Hin & Hl). rewrite Forall_forall in *.
  match goal with Hall : ∀ x, _ → 0 < x ≤ _ |- _ => specialize (Hall _ Hin) end. lia.
Qed.

Lemma step_idle cfg ev st p st' p' : pool_thread_step cfg ev st p = Some (st', p') → avail st p →
  ∀ s, (s < kShards)%nat → Forall (λ c, hc_shard c = s) (idle (shard_of st' s)).
Proof.
  intros Hstep Ha s Hs. pose proof (a_idle _ _ Ha s Hs) as Hall. pose proof (a_len _ _ Ha) as Hlen.
  step_cases Hstep; try done.
  all: try match goal with c : counter |- _ => by destruct c end.
  all: cbn; match goal with |- context [<[?i := _]> _] =>
         rewrite list_lookup_total_insert; destruct (decide (i = s ∧ _)) as [[<- _]|_]; [|done] end;
       cbn [idle unlock lock pop_close pop_use track untrack_active drop_conn push_idle track_new]; try done.
  all: try match goal with Hi : idle _ = _ :: _ |- _ => rewrite Hi in Hall; by inversion Hall end.
  all: apply Forall_app; split; [done|]; by constructor.
Qed.

Lemma step_wf cfg ev st p st' p' : pool_thread_step cfg ev st p = Some (st', p') → avail st p → pc_wf st' p'.
Proof.
  intros Hstep Ha. pose proof (a_wf _ _ Ha) as [Hc Hw].
  step_cases Hstep; split; cbn [conn_of]; try done.
  all: first
    [ by apply Nat.ltb_lt
    | by destruct Hw
    | by apply Nat.mod_upper_bound
    | intros ? [= <-]; by apply Hw || by apply (Hc _ eq_refl)
    | idtac ].
  - intros ? [= <-]. pose proof (a_idle _ _ Ha _ (try_idx_lt start n)) as Hall.
    rewrite H0 in Hall. inversion Hall as [|? ? Heq _]. rewrite Heq. apply try_idx_lt.
  - apply orb_false_iff in H1 as [? Hb]. split; [done|]. by apply negb_false_iff, beqb_eq in Hb.
  - split_and!; [done|left|]. destruct (budget_limit (budget st') =? 0) eqn:Hz; bool_prop; [by left|right; lia].
Qed.

(** ** Preservation *)

Lemma inv_shard_bounds cfg st ts s : pool_inv cfg st ts → (s < kShards)%nat →
  0 ≤ sh_in_flight (shard_of st s) ≤ sh_total (shard_of st s) ∧ sh_total (shard_of st s) ≤ total_count st.
Proof.
  intros Hi Hs. destruct (inv_shard _ _ _ Hi s Hs) as (-> & -> & _).
  pose proof (idle_len_le st s ltac:(rewrite (inv_shards _ _ _ Hi); done)).
  pose proof (total_nonneg (on_shard s) ts (λ p, proj1 (on_shard_01 s p))).
  pose proof (total_mono (on_shard s) (tok CTotal) ts
    (λ p Hp, on_shard_tok _ s p CTotal (inv_wf _ _ _ Hi p Hp))).
  rewrite (inv_total _ _ _ Hi). lia.
Qed.

Lemma inv_avail cfg st ts i p : pool_inv cfg st ts → max_size cfg ≤ SIZE_MAX → ts !! i = Some p → avail st p.
Proof.
  intros Hi Hm Hp. split.
  - apply (inv_shards _ _ _ Hi).
  - apply (inv_wf _ _ _ Hi). by eapply list_elem_of_lookup_2.
  - rewrite (inv_total _ _ _ Hi). pose proof (total_one _ _ _ _ (tok_nonneg CTotal) Hp). lia.
  - rewrite (inv_budget _ _ _ Hi). pose proof (total_one _ _ _ _ (tok_nonneg CBudget) Hp).
    pose proof (inv_others _ _ _ Hi). lia.
  - rewrite (inv_flight _ _ _ Hi). by apply (total_one _ _ i); [apply tok_nonneg|].
  - intros s Hs. destruct (inv_shard_bounds _ _ _ s Hi Hs) as [Hb1 Hb2].
    destruct (inv_shard _ _ _ Hi s Hs) as (H1 & H2 & H3 & _). pose proof (inv_max_size _ _ _ Hi).
    pose proof (total_one _ _ _ _ (λ q, proj1 (on_shard_01 s q)) Hp).
    pose proof (total_one _ _ _ _ (λ q, proj1 (holds_01 s q)) Hp).
    split_and!; try lia. intros Hh. unfold locked_z in H3. destruct (sh_locked _); [done|]. lia.
  - intros s Hs. by destruct (inv_shard _ _ _ Hi s Hs) as (_ & _ & _ & ?).
Qed.

Lemma pc_wf_limits st st' p : pc_wf st p →
  (∀ l, l ∈ budget_limit (budget st) :: h_past_limits (hist st) →
        l ∈ budget_limit (budget st') :: h_past_limits (hist st')) → pc_wf st' p.
Proof. intros [Hc Hw] Hl. split; [done|]. destruct p; try done. destruct Hw as (? & ? & ?). auto. Qed.

Lemma thread_step_inv cfg st ts i p ev st' p' : pool_inv cfg st ts → max_size cfg ≤ SIZE_MAX →
  ts !! i = Some p → pool_thread_step cfg ev st p = Some (st', p') → pool_inv cfg st' (<[i := p']> ts).
Proof.
  intros Hi Hm Hp Hstep. pose proof (inv_avail _ _ _ _ _ Hi Hm Hp) as Ha.
  pose proof (thread_step_deltas _ _ _ _ _ _ Hstep Ha) as D.
  destruct (step_frame _ _ _ _ _ _ Hstep) as (Ho & Hpast & Hlim & Hnext).
  pose proof (idle_total_nonneg st) as H0. pose proof (inv_others _ _ _ Hi) as Hoth.
  assert (0 ≤ total_count st ∧ 0 ≤ in_flight_count st ∧ 0 ≤ budget_current (budget st)) as (P1 & P2 & P3).
  { rewrite (inv_total _ _ _ Hi), (inv_flight _ _ _ Hi), (inv_budget _ _ _ Hi).
    pose proof (λ c, total_nonneg _ ts (tok_nonneg c)) as Ht.
    pose proof (Ht CTotal). pose proof (Ht CBudget). pose proof (Ht CInFlight). lia. }
  destruct (step_limits _ _ _ _ _ _ Hstep (a_wf _ _ Ha)) as (L1 & L2 & L3); try done.
  { split; [done|apply (inv_max_size _ _ _ Hi)]. }
  split; rewrite ?Ho, ?Hpast, ?Hlim, ?(total_insert _ _ _ _ _ Hp).
  - rewrite (d_len _ _ _ _ D). apply (inv_shards _ _ _ Hi).
  - intros q [j Hj]%list_elem_of_lookup. apply list_lookup_insert_Some in Hj as [(_ & <- & _)|[_ Hj]].
    + by eapply step_wf.
    + eapply pc_wf_limits; [apply (inv_wf _ _ _ Hi); by eapply list_elem_of_lookup_2|]. by rewrite Hlim, Hpast.
  - pose proof (d_total _ _ _ _ D). rewrite (inv_total _ _ _ Hi) in *. lia.
  - pose proof (d_budget _ _ _ _ D). rewrite (inv_budget _ _ _ Hi) in *. lia.
  - done.
  - pose proof (d_flight _ _ _ _ D). rewrite (inv_flight _ _ _ Hi) in *. lia.
  - intros s Hs. rewrite !(total_insert _ _ _ _ _ Hp). destruct (d_shard _ _ _ _ D s Hs) as (D1 & D2 & D3).
    destruct (inv_shard _ _ _ Hi s Hs) as (I1 & I2 & I3 & _).
    split_and!; [lia|lia|lia|]. by eapply step_idle.
  - intros k. rewrite (total_insert _ _ _ _ _ Hp). pose proof (d_copies _ _ _ _ D k).
    pose proof (inv_copies _ _ _ Hi k). repeat case_decide; lia.
  - done.
  - intros Hc. apply L2; [done|]. by apply (inv_max_concurrent _ _ _ Hi).
  - intros L HL. apply (L3 L); [done|]. by apply (inv_limits _ _ _ Hi).
Qed.

Lemma set_budget_inv cfg st ts b h : pool_inv cfg st ts →
  0 ≤ h_others h → h_next_id h = h_next_id (hist st) →
  budget_current b - budget_current (budget st) = h_others h - h_others (hist st) →
  (∀ l, l ∈ budget_limit (budget st) :: h_past_limits (hist st) → l ∈ budget_limit b :: h_past_limits h) →
  (∀ L, Forall (λ l, 0 < l ≤ L) (budget_limit b :: h_past_limits h) → budget_current b ≤ L) →
  pool_inv cfg (set_budget st b h) ts.
Proof.
  intros Hi Ho Hn Hb Hl HL. pose proof Hi as []. split; cbn [set_budget shards total_count in_flight_count budget hist]; try done.
  - intros p Hp. eapply pc_wf_limits; [by apply (inv_wf _ _ _ Hi)|done].
  - change (idle_total (set_budget st b h)) with (idle_total st). pose proof (inv_budget _ _ _ Hi). lia.
  - rewrite Hn. done.
Qed.

Lemma pool_step_inv cfg s s' : max_size cfg ≤ SIZE_MAX → pool_step cfg s s' →
  pool_inv cfg s.1 s.2 → pool_inv cfg s'.1 s'.2.
Proof.
  intros Hm [st ts i p ev st' p' Hp Hs|st ts lim b h Hin Hl|st ts b h Ho|st ts limit b h Hl] Hi; cbn [fst snd] in *.
  - by eapply thread_step_inv.
  - pose proof (inv_others _ _ _ Hi) as Hoth. apply set_budget_inv; subst b h; cbn; try done; try lia.
    intros L HL. rewrite Forall_forall in HL. specialize (HL _ Hin). lia.
  - assert (budget_current b ≠ 0) as Hne.
    { pose proof (inv_budget _ _ _ Hi). pose proof (idle_total_nonneg st).
      pose proof (total_nonneg _ ts (tok_nonneg CBudget)). subst b h. lia. }
    assert (budget_release b = with_current b (budget_current b - 1)) as ->.
    { unfold budget_release. by rewrite (proj2 (Z.eqb_neq _ _) Hne). }
    apply set_budget_inv; subst b h; cbn; try done; try lia.
    intros L HL. pose proof (inv_limits _ _ _ Hi L HL). lia.
  - apply set_budget_inv; subst b h; cbn; try done; try lia.
    + apply (inv_others _ _ _ Hi).
    + intros l Hl'. by right.
    + intros L HL. apply (inv_limits _ _ _ Hi). by inversion HL.
Qed.

Lemma new_pool_inv cfg limit n : 0 ≤ max_size cfg → 0 ≤ limit → pool_inv cfg (new_pool limit) (replicate n Outside).
Proof.
  intros Hm Hl.
  assert (∀ f : pool_pc → Z, f Outside = 0 → total f (replicate n Outside) = 0) as Hz.
  { intros f Hf. apply total_zero. by intros p [-> _]%elem_of_replicate. }
  assert (∀ s, (s < kShards)%nat → shard_of (new_pool limit) s = shard0) as Hsh.
  { intros s Hs. apply lookup_total_replicate_2. done. }
  split; rewrite ?Hz by done; cbn; try done; try lia.
  - by intros p [-> _]%elem_of_replicate.
  - intros s Hs. change (replicate kShards shard0 !!! s) with (shard_of (new_pool limit) s).
    rewrite Hsh, !Hz by done. done.
  - intros k. rewrite Hz by done. done.
  - intros L HL. inversion HL. lia.
Qed.

Lemma pool_reachable_inv cfg limit n st ts : 0 ≤ max_size cfg ≤ SIZE_MAX → 0 ≤ limit →
  rtc (pool_step cfg) (new_pool limit, replicate n Outside) (st, ts) → pool_inv cfg st ts.
Proof.
  intros Hm Hl Hr. change (pool_inv cfg (st, ts).1 (st, ts).2).
  pose proof (new_pool_inv cfg limit n (proj1 Hm) Hl) as Hi.
  change (pool_inv cfg (new_pool limit, replicate n Outside).1 (new_pool limit, replicate n Outside).2) in Hi.
  remember (new_pool limit, replicate n Outside) as s0 eqn:E. clear E. revert Hi.
  induction Hr as [s|s1 s2 s3 H1 _ IH]; intros Hi; [done|]. apply IH. eapply pool_step_inv; [apply Hm|done|done].
Qed.

(** A thread between calls, with or without a connection. *)
Definition at_rest (p : pool_pc) : Prop := match p with Outside | Held _ => True | _ => False end.
Definition held (p : pool_pc) : Z := match p with Held _ => 1 | _ => 0 end.

Lemma at_rest_tok c p : at_rest p → tok c p = held p.
Proof. destruct p; try done. by destruct c. Qed.

Lemma at_rest_total c ts : Forall at_rest ts → total (tok c) ts = total held ts.
Proof. induction 1 as [|p ts Hp _ IH]; [done|]. cbn [total foldr]. fold (total (tok c)). fold (total held). rewrite (at_rest_tok c p Hp). unfold total in *. lia. Qed.

(** A socket is in one place. *)
Lemma own_key k p c : conn_of p = Some c → hc_id c = k → own k p = 1.
Proof. intros Hc <-. unfold own, conn_key. rewrite Hc. cbn. by rewrite decide_True. Qed.

Lemma copies_nonneg k l : 0 ≤ copies k l.
Proof. apply total_nonneg. intros c. case_decide; lia. Qed.

Lemma copies_zero k l : copies k l ≤ 0 → Forall (λ d, hc_id d ≠ k) l.
Proof.
  induction l as [|d l IH]; intros Hk; [constructor|]. rewrite copies_cons in Hk.
  pose proof (copies_nonneg k l). case_decide; constructor; (lia || done || (apply IH; lia)).
Qed.

Lemma inv_one_place cfg st ts k : pool_inv cfg st ts → idle_copies k st + total (own k) ts ≤ 1.
Proof. intros Hi. pose proof (inv_copies _ _ _ Hi k). case_decide; lia. Qed.

Lemma idle_copies_one st s k : (s < length (shards st))%nat → copies k (idle (shard_of st s)) ≤ idle_copies k st.
Proof.
  intros Hs. apply (total_one (λ sh, copies k (idle sh)) _ s); [intros; apply copies_nonneg|].
  by apply list_lookup_lookup_total_lt.
Qed.

(** C9: no interleaving of acquire, release, eviction, shutdown and reload breaks
    the pool.  For any number of threads, in every reachable state: the
    connections never exceed max_size, the requests never exceed max_concurrent
    and the budget never exceeds the largest limit ever set; no shard counter
    underflows; two threads never hold the same connection, a held connection is
    not idle, and a connection taken from the idle list is clean; and whenever no
    call is in progress the counters are exactly the idle and the held
    connections, so no error path loses or forges a reservation. *)
Theorem pool_conserves cfg limit n st ts :
  0 ≤ max_size cfg ≤ SIZE_MAX → 0 ≤ limit →
  rtc (pool_step cfg) (new_pool limit, replicate n Outside) (st, ts) →
  total_count st ≤ max_size cfg ∧
  (0 < max_concurrent cfg → in_flight_count st ≤ max_concurrent cfg) ∧
  (∀ L, Forall (λ l, 0 < l ≤ L) (budget_limit (budget st) :: h_past_limits (hist st)) →
     budget_current (budget st) ≤ L) ∧
  (∀ s, (s < kShards)%nat → 0 ≤ sh_in_flight (shard_of st s) ≤ sh_total (shard_of st s)) ∧
  (∀ i j p q c d, ts !! i = Some p → ts !! j = Some q → conn_of p = Some c → conn_of q = Some d →
     hc_id c = hc_id d → i = j) ∧
  (∀ i p c s, ts !! i = Some p → conn_of p = Some c → (s < kShards)%nat →
     Forall (λ d, hc_id d ≠ hc_id c) (idle (shard_of st s))) ∧
  (∀ c, Insert c ∈ ts → hc_close c = false ∧ hc_read_buffer c = []) ∧
  (Forall at_rest ts →
     total_count st = idle_total st + total held ts ∧ in_flight_count st = total held ts ∧
     budget_current (budget st) = h_others (hist st) + idle_total st + total held ts).
Proof.
  intros Hm Hl Hr. pose proof (pool_reachable_inv _ _ _ _ _ Hm Hl Hr) as Hi. split_and!.
  - apply (inv_max_size _ _ _ Hi).
  - apply (inv_max_concurrent _ _ _ Hi).
  - apply (inv_limits _ _ _ Hi).
  - intros s Hs. by apply (inv_shard_bounds _ _ _ s Hi Hs).
  - intros i j p q c d Hp Hq Hc Hd Heq. destruct (decide (i = j)) as [|Hne]; [done|]. exfalso.
    pose proof (inv_one_place _ _ _ (hc_id c) Hi).
    pose proof (total_two _ _ _ _ _ _ (λ q, proj1 (own_01 (hc_id c) q)) Hp Hq Hne) as H2.
    rewrite (own_key _ _ _ Hc), (own_key _ _ _ Hd) in H2 by done.
    pose proof (total_nonneg (λ sh, copies (hc_id c) (idle sh)) (shards st) (λ sh, copies_nonneg _ _)).
    unfold idle_copies in *. lia.
  - intros i p c s Hp Hc Hs. apply copies_zero. pose proof (inv_one_place _ _ _ (hc_id c) Hi).
    pose proof (total_one _ _ _ _ (λ q, proj1 (own_01 (hc_id c) q)) Hp) as H1. rewrite (own_key _ _ _ Hc) in H1 by done.
    pose proof (idle_copies_one st s (hc_id c)). rewrite (inv_shards _ _ _ Hi) in *. lia.
  - intros c Hc. by apply (inv_wf _ _ _ Hi) in Hc as [_ ?].
  - intros Hrest. rewrite (inv_total _ _ _ Hi), (inv_flight _ _ _ Hi), (inv_budget _ _ _ Hi).
    by rewrite !at_rest_total.
Qed.

(** A schedule: which thread moves, and on what. *)
Fixpoint run_schedule (cfg : PoolConfig) (evs : list (nat * event)) (s : Pool * list pool_pc) : option (Pool * list pool_pc) :=
  match evs with
  | [] => Some s
  | (i, ev) :: evs =>
      match s.2 !! i with
      | None => None
      | Some p => match pool_thread_step cfg ev s.1 p with
                  | None => None
                  | Some (st', p') => run_schedule cfg evs (st', <[i := p']> s.2)
                  end
      end
  end.

Lemma run_schedule_reach cfg evs s s' : run_schedule cfg evs s = Some s' → rtc (pool_step cfg) s s'.
Proof.
  revert s. induction evs as [|[i ev] evs IH]; intros [st ts]; cbn [run_schedule fst snd]; [by intros [= <-]|].
  destruct (ts !! i) as [p|] eqn:Hp; [|done]. destruct (pool_thread_step cfg ev st p) as [[st' p']|] eqn:Hs; [|done].
  intros Hr. eapply rtc_l; [by eapply pstep_thread|]. by apply IH.
Qed.

(** Thread [i] looks through the empty shards and then creates a connection. *)
Definition search_empty (i : nat) : list (nat * event) :=
  [(i, EvCall); (i, EvClock 0); (i, EvPick 3)] ++
  concat (replicate kShards [(i, EvClock 0); (i, EvRun); (i, EvRun)]) ++ [(i, EvClock 0); (i, EvRun)].

(** Two requests race for a pool of one connection; the winner returns it. *)
Definition sample_schedule : list (nat * event) :=
  search_empty 0 ++ search_empty 1 ++
  [(1%nat, EvRun); (1%nat, EvRun); (0%nat, EvRun); (0%nat, EvRun); (0%nat, EvRun); (0%nat, EvRun);
   (0%nat, EvClock 5); (0%nat, EvDone true); (0%nat, EvRun); (0%nat, EvClock 9); (0%nat, EvRun); (0%nat, EvRun)].

Definition sample_pool_config : PoolConfig := mkPoolConfig 1 0 1 1024 1000 1000 1000 60 false.

Lemma pool_conserves_witness :
  ∃ st ts, run_schedule sample_pool_config sample_schedule (new_pool 1, [Outside; Outside]) = Some (st, ts) ∧
    total_count st = 1 ∧ idle_total st = 1 ∧ total_count st = idle_total st + total held ts.
Proof.
  set (r := run_schedule _ _ _).
  assert (∃ st ts, r = Some (st, ts) ∧ ts = [Outside; Outside] ∧ total_count st = 1 ∧ idle_total st = 1)
    as (st & ts & Hr & Hts & H1 & H2).
  { eexists _, _. by vm_compute. }
  exists st, ts. split; [exact Hr|]. split; [exact H1|]. split; [exact H2|].
  pose proof (run_schedule_reach _ _ _ _ Hr) as Hreach.
  destruct (pool_conserves sample_pool_config 1 2 st ts) as (_ & _ & _ & _ & _ & _ & _ & Hrest);
    [cbn; unfold SIZE_MAX; lia|lia|exact Hreach|].
  apply Hrest. rewrite Hts. by repeat constructor.
Defined.
