(* ===== verification/Upstream.v ===== *)
(** * Upstream routing (src/src/http/upstream_manager.hpp)

    [UpstreamManager] maps the first path segment to an upstream address and its
    connection pool.  A reload is prepared aside from the [upstream] section and
    swapped in under the lock; shared pointers to pools are indices into the list
    of the pools ever made.  The theorems show what [route] returns for every
    path, and that a reload either changes nothing or installs exactly the
    configured table, keeping the pools whose settings did not change. *)

From stdpp Require Import gmap.
From S2P Require Import Prelude PathNormalize Config SecurityRules HttpPool.

Record UpstreamConfig := mkUpstream { up_host : bytes; up_port : Z }.

#[export] Instance UpstreamConfig_eq_dec : EqDecision UpstreamConfig.
Proof. solve_decision. Defined.

(** [shared_ptr<HttpPool>] *)
Abbreviation pool_ptr := nat.

#[export] Instance PoolConfig_inhabited : Inhabited PoolConfig := populate default_pool_config.

Record RouteResult := mkRoute {
  route_config : UpstreamConfig;
  route_pool : pool_ptr;
  upstream_path : bytes;
  route_json_keys : bool
}.

Record UpstreamManager := mkManager {
  upstreams_ : gmap bytes UpstreamConfig;
  pools_ : gmap bytes pool_ptr;
  json_keys_snake_to_camel_ : bool;
  generation_ : Z;
  budget_limit_ : Z;
  all_pools : list PoolConfig
}.

Definition manager0 : UpstreamManager := mkManager ∅ ∅ true 0 0 [].

Definition dquote : bytes := [DQUOTE].

(** [unordered_map::at] *)
Definition map_at (m : gmap bytes pool_ptr) (k : bytes) : outcome pool_ptr :=
  match m !! k with Some p => Ret p | None => Throw "unordered_map::at" end.

(** ** Routing *)

Definition route (w : UpstreamManager) (path : bytes) : outcome (option RouteResult) :=
  match path with
  | [] => Ret None
  | c :: tail =>
      if negb (ceqb c "/") then Ret None
      else
        let query := find_char "?" path in
        let path_end := default (length path) query in
        let slash := match find_char "/" tail with
                     | Some k => if (path_end <? S k)%nat then path_end else S k
                     | None => path_end
                     end in
        let svc := take (slash - 1) tail in
        match upstreams_ w !! svc with
        | None => Ret None
        | Some cfg =>
            let upstream_path :=
              if (slash <? path_end)%nat then drop slash path
              else match query with
                   | Some q => "/" ++ drop q path
                   | None => "/"
                   end in
            pool ← map_at (pools_ w) svc;
            Ret (Some (mkRoute cfg pool upstream_path (json_keys_snake_to_camel_ w)))
        end
  end.

(** ** Reloading *)

Record PreparedReload := mkPrepared {
  prep_upstreams : gmap bytes UpstreamConfig;
  prep_pools : gmap bytes pool_ptr;
  prep_json : bool;
  prep_total : Z
}.

(** The address of an entry, or the reason to reject the reload. *)
Definition parse_upstream (name val : bytes) : outcome UpstreamConfig :=
  let prefix := "upstream " ++ dquote ++ name ++ dquote in
  if beqb name [] then Throw "upstream entry with an empty service name"
  else match find_char ":" val with
  | None => Throw (prefix ++ ": missing ':' in value " ++ dquote ++ val ++ dquote)
  | Some colon =>
      let host := take colon val in
      let port_str := drop (colon + 1) val in
      if beqb host [] then Throw (prefix ++ ": empty host")
      else if contains_char ":" host then Throw (prefix ++ ": IPv6 literals are not supported, use an IPv4 address or a hostname")
      else if beqb port_str [] then Throw (prefix ++ ": empty port")
      else match stoi port_str with
           | None => Throw (prefix ++ ": invalid port " ++ dquote ++ port_str ++ dquote)
           | Some (port, parsed) =>
               if negb (bool_decide (parsed = length port_str))
               then Throw (prefix ++ ": invalid port " ++ dquote ++ port_str ++ dquote ++ " (trailing characters)")
               else if (port <? 1) || (65535 <? port)
               then Throw (prefix ++ ": port out of range [1,65535]: " ++ port_str)
               else Ret (mkUpstream host port)
           end
  end.

(** The pool of an entry: the current one when address and settings are
    unchanged, a new one otherwise.  The heap of pools grows accordingly. *)
Definition entry_pool (w : UpstreamManager) (pool_cfg : PoolConfig) (name : bytes) (u : UpstreamConfig)
    (heap : list PoolConfig) : outcome (pool_ptr * list PoolConfig) :=
  match upstreams_ w !! name with
  | Some cur =>
      if bool_decide (cur = u) then
        p ← map_at (pools_ w) name;
        if same_pool_settings (heap !!! p) pool_cfg then Ret (p, heap)
        else Ret (length heap, heap ++ [pool_cfg])
      else Ret (length heap, heap ++ [pool_cfg])
  | None => Ret (length heap, heap ++ [pool_cfg])
  end.

Fixpoint prepare_entries (w : UpstreamManager) (pool_cfg : PoolConfig) (entries : list (bytes * bytes))
    (ups : gmap bytes UpstreamConfig) (pools : gmap bytes pool_ptr) (heap : list PoolConfig) :
    outcome (gmap bytes UpstreamConfig * gmap bytes pool_ptr * list PoolConfig) :=
  match entries with
  | [] => Ret (ups, pools, heap)
  | (name, val) :: rest =>
      u ← parse_upstream name val;
      '(p, heap') ← entry_pool w pool_cfg name u heap;
      prepare_entries w pool_cfg rest (<[name := u]> ups) (<[name := p]> pools) heap'
  end.

Definition prepare_reload (w : UpstreamManager) (cfg : Config) (pool_cfg : PoolConfig) :
    outcome (PreparedReload * list PoolConfig) :=
  json ← get_bool cfg "gateway" "json_keys_snake_to_camel" true;
  '(ups, pools, heap) ← prepare_entries w pool_cfg (get_section cfg "upstream") ∅ ∅ (all_pools w);
  Ret (mkPrepared ups pools json (max_total_connections pool_cfg), heap).

Definition publish_reload (w : UpstreamManager) (prepared : PreparedReload) (heap : list PoolConfig) : UpstreamManager :=
  mkManager (prep_upstreams prepared) (prep_pools prepared) (prep_json prepared)
    (wrap64 (generation_ w + 1)) (prep_total prepared) heap.

Definition reload (w : UpstreamManager) (cfg : Config) (pool_cfg : PoolConfig) : outcome UpstreamManager :=
  '(prepared, heap) ← prepare_reload w cfg pool_cfg;
  Ret (publish_reload w prepared heap).

(** ** Routing is by the first segment *)

(** The two tables have the same services, the pools exist and are not shared. *)
Record manager_wf (w : UpstreamManager) : Prop := {
  wf_dom name : is_Some (upstreams_ w !! name) ↔ is_Some (pools_ w !! name);
  wf_heap name p : pools_ w !! name = Some p → (p < length (all_pools w))%nat;
  wf_inj n1 n2 p : pools_ w !! n1 = Some p → pools_ w !! n2 = Some p → n1 = n2
}.

Lemma manager0_wf : manager_wf manager0.
Proof. split; intros *; cbn; rewrite ?lookup_empty; naive_solver. Qed.

Definition segment_end (rest : bytes) : Prop := ∀ c, head rest = Some c → c = "/"%char ∨ c = "?"%char.

(** The path the upstream sees. *)
Definition stripped (rest : bytes) : bytes :=
  match rest with
  | [] => "/"
  | c :: _ => if ceqb c "/" then rest else "/" ++ rest
  end.

Lemma route_slash svc rest : "/"%char ∉ svc → "?"%char ∉ svc → segment_end rest →
  let path := "/"%char :: svc ++ rest in
  let path_end := default (length path) (find_char "?" path) in
  let slash := match find_char "/" (svc ++ rest) with
               | Some k => if (path_end <? S k)%nat then path_end else S k
               | None => path_end
               end in
  slash = S (length svc) ∧
  (if (slash <? path_end)%nat then drop slash path
   else match find_char "?" path with Some q => "/" ++ drop q path | None => "/" end) = stripped rest.
Proof.
  intros Hs Hq Hr path path_end slash.
  assert (find_char "?" path = (λ k, S (length svc + k)) <$> find_char "?" rest) as Hquery.
  { unfold path. cbn [find_char]. rewrite find_char_skip by done. by destruct (find_char "?" rest). }
  assert (length path = S (length svc + length rest)) as Hlen by (unfold path; cbn; by rewrite length_app).
  assert (drop (S (length svc)) path = rest) as Hdrop by (unfold path; cbn; apply drop_app_length).
  unfold slash, path_end. rewrite !Hquery, find_char_skip by done. clear slash path_end.
  clearbody path. destruct rest as [|c r].
  - cbn [find_char fmap option_fmap option_map default]. rewrite Hlen, Nat.add_0_r, Nat.ltb_irrefl. done.
  - destruct (Hr c eq_refl) as [-> | ->]; cbn [find_char].
    + change (ceqb "/" "/") with true. change (ceqb "/" "?") with false.
      destruct (find_char "?" r) as [q|]; cbn [fmap option_fmap option_map default id from_option]; rewrite ?Hlen, ?Nat.add_0_r;
        cbn [length]; rewrite (proj2 (Nat.ltb_ge _ (S (length svc)))) by lia; (split; [done|]);
        rewrite (proj2 (Nat.ltb_lt _ _)) by lia; by rewrite Hdrop.
    + change (ceqb "?" "/") with false. change (ceqb "?" "?") with true.
      destruct (find_char "/" r) as [k|]; cbn [fmap option_fmap option_map default id from_option]; rewrite ?Nat.add_0_r;
        rewrite ?(proj2 (Nat.ltb_lt (S (length svc)) (S (length svc + S k)))) by lia; (split; [done|]);
        rewrite Nat.ltb_irrefl; by rewrite Hdrop.
Qed.

Lemma route_service w svc rest : "/"%char ∉ svc → "?"%char ∉ svc → segment_end rest →
  route w ("/"%char :: svc ++ rest) =
  match upstreams_ w !! svc with
  | None => Ret None
  | Some cfg => pool ← map_at (pools_ w) svc;
                Ret (Some (mkRoute cfg pool (stripped rest) (json_keys_snake_to_camel_ w)))
  end.
Proof.
  intros Hs Hq Hr. destruct (route_slash svc rest Hs Hq Hr) as [Hslash Hpath].
  unfold route. change (ceqb "/" "/") with true. cbn [negb].
  rewrite Hpath, Hslash. cbn [Nat.sub]. by rewrite Nat.sub_0_r, take_app_length.
Qed.

(** [route] sends a request to the upstream named by its first path segment,
    with that segment removed.  On a consistent table it never throws; a path
    that does not start with a slash has no route; and every other path is a
    service name without slash or question mark and a rest that is empty or
    starts with one of the two, and is routed to that service's address and pool
    with the rest as its path. *)
Lemma route_correct w : manager_wf w →
  (∀ path, head path ≠ Some "/"%char → route w path = Ret None) ∧
  (∀ tail, ∃ svc rest, tail = svc ++ rest ∧ "/"%char ∉ svc ∧ "?"%char ∉ svc ∧ segment_end rest) ∧
  (∀ svc rest, "/"%char ∉ svc → "?"%char ∉ svc → segment_end rest →
     ∃ r, route w ("/"%char :: svc ++ rest) = Ret r ∧
       match upstreams_ w !! svc with
       | None => r = None
       | Some cfg => ∃ p, pools_ w !! svc = Some p ∧
                      r = Some (mkRoute cfg p (stripped rest) (json_keys_snake_to_camel_ w))
       end).
Proof.
  intros Hw. split_and!.
  - intros [|c path] Hc; [done|]. unfold route. destruct (ceqb c "/") eqn:E; [|done].
    by apply ceqb_eq in E as ->.
  - intros tail. induction tail as [|c tail (svc & rest & -> & H1 & H2 & H3)].
    { exists [], []. split_and!; [done|apply not_elem_of_nil..|done]. }
    destruct (decide (c = "/"%char ∨ c = "?"%char)) as [Hc|Hc].
    + exists [], (c :: svc ++ rest). split_and!; [done|apply not_elem_of_nil..|]. by intros ? [= <-].
    + exists (c :: svc), rest. rewrite !not_elem_of_cons. split_and!; naive_solver.
  - intros svc rest Hs Hq Hr. rewrite route_service by done.
    destruct (upstreams_ w !! svc) as [cfg|] eqn:Hu; [|by eexists].
    destruct (proj1 (wf_dom w Hw svc)) as [p Hp]; [by rewrite Hu|].
    unfold map_at. rewrite Hp. eexists. split; [done|]. by exists p.
Qed.

Definition sample_manager : UpstreamManager :=
  mkManager {[ "orders" : bytes := mkUpstream "10.0.0.7" 8080 ]} {[ "orders" : bytes := 0%nat ]} true 1 4096
    [default_pool_config].

Lemma sample_manager_wf : manager_wf sample_manager.
Proof.
  split; unfold sample_manager; cbn [upstreams_ pools_ all_pools].
  - intros name. rewrite !lookup_singleton_is_Some. done.
  - intros name p [_ <-]%lookup_singleton_Some. cbn. lia.
  - intros n1 n2 p [<- _]%lookup_singleton_Some [<- _]%lookup_singleton_Some. done.
Qed.

Lemma route_correct_witness :
  ∃ r, route sample_manager "/orders?id=7" = Ret (Some r) ∧ upstream_path r = "/?id=7".
Proof.
  destruct (route_correct sample_manager sample_manager_wf) as (_ & _ & Hroute).
  destruct (Hroute "orders" "?id=7") as (r & Hr & Hres);
    [apply (bool_decide_eq_true_1 _); by vm_compute..|intros c [= <-]; by right|].
  unfold sample_manager in Hres. cbn [upstreams_ pools_] in Hres. rewrite lookup_singleton_eq in Hres.
  destruct Hres as (p & _ & ->). eexists. split; [exact Hr|]. by vm_compute.
Defined.

(** ** What a reload installs *)

(** The entries the format allows. *)
Definition entry_ok (name val : bytes) (u : UpstreamConfig) : Prop :=
  name ≠ [] ∧ up_host u ≠ [] ∧ ":"%char ∉ up_host u ∧ 1 ≤ up_port u ≤ 65535 ∧
  ∃ port_str, val = up_host u ++ ":"%char :: port_str ∧ stoi port_str = Some (up_port u, length port_str).

Lemma parse_upstream_spec name val u : parse_upstream name val = Ret u ↔ entry_ok name val u.
Proof.
  unfold parse_upstream, entry_ok. destruct (beqb name []) eqn:En.
  { apply beqb_eq in En as ->. naive_solver. }
  apply beqb_ne in En. destruct (find_char ":" val) as [colon|] eqn:Ec.
  2:{ apply find_char_None in Ec. split; [done|]. intros (_ & _ & _ & _ & ps & -> & _). set_solver. }
  split.
  - destruct (find_char_Some _ _ _ Ec) as (Hval & Hc & _).
    destruct (beqb (take colon val) []) eqn:Eh; [done|]. apply beqb_ne in Eh.
    destruct (contains_char ":" (take colon val)) eqn:Ei; [done|].
    destruct (beqb (drop (colon + 1) val) []) eqn:Ep; [done|].
    destruct (stoi (drop (colon + 1) val)) as [[port parsed]|] eqn:Es; [|done].
    destruct (bool_decide (parsed = _)) eqn:Eb; [|done]. apply bool_decide_eq_true in Eb as ->. cbn [negb].
    destruct ((port <? 1) || (65535 <? port)) eqn:Er; [done|]. intros [= <-]. cbn. bool_prop.
    rewrite Nat.add_1_r in *. split_and!; try done; try lia. by exists (drop (S colon) val).
  - intros (_ & Hh & Hn & Hp & ps & -> & Hs). destruct u as [host port]. cbn in *.
    rewrite find_char_app in Ec by done. simplify_eq.
    rewrite take_app_length, (proj2 (beqb_ne _ _)) by done.
    rewrite (proj2 (contains_char_false _ _)) by done.
    assert (drop (length host + 1) (host ++ ":"%char :: ps) = ps) as Hd by (by rewrite <- drop_drop, drop_app_length).
    rewrite Hd. destruct (beqb ps []) eqn:Ep.
    { apply beqb_eq in Ep as ->. by vm_compute in Hs. }
    rewrite Hs, bool_decide_true by done. cbn [negb].
    rewrite (proj2 (Z.ltb_ge _ _)), (proj2 (Z.ltb_ge _ _)) by lia. done.
Qed.

(** Whether a service keeps the pool it has. *)
Definition keeps_pool (w : UpstreamManager) (pool_cfg : PoolConfig) (name : bytes) (u : UpstreamConfig) : Prop :=
  upstreams_ w !! name = Some u ∧
  ∃ p, pools_ w !! name = Some p ∧ same_pool_settings (all_pools w !!! p) pool_cfg = true.

(** The table after the entries [seen]. *)
Record prepared_inv (w : UpstreamManager) (pool_cfg : PoolConfig) (seen : list (bytes * bytes))
    (ups : gmap bytes UpstreamConfig) (pools : gmap bytes pool_ptr) (heap : list PoolConfig) : Prop := {
  pi_ok : Forall (λ e : bytes * bytes, ∃ u, entry_ok e.1 e.2 u) seen;
  pi_last name u : ups !! name = Some u ↔
    ∃ val, last (filter (λ e : bytes * bytes, e.1 = name) seen) = Some (name, val) ∧ entry_ok name val u;
  pi_dom name : is_Some (ups !! name) ↔ is_Some (pools !! name);
  pi_heap : ∃ n, heap = all_pools w ++ replicate n pool_cfg;
  pi_pool name u p : ups !! name = Some u → pools !! name = Some p →
    (keeps_pool w pool_cfg name u ∧ pools_ w !! name = Some p) ∨
    (¬ keeps_pool w pool_cfg name u ∧ (length (all_pools w) ≤ p < length heap)%nat);
  pi_inj n1 n2 p : pools !! n1 = Some p → pools !! n2 = Some p → n1 = n2
}.

Lemma entry_ok_fun name val u u' : entry_ok name val u → entry_ok name val u' → u = u'.
Proof. rewrite <- !parse_upstream_spec. congruence. Qed.

(** The pool chosen for an entry. *)
Lemma entry_pool_spec w pool_cfg name u n : manager_wf w →
  let heap := all_pools w ++ replicate n pool_cfg in
  ∃ p k, entry_pool w pool_cfg name u heap = Ret (p, heap ++ replicate k pool_cfg) ∧
    ((keeps_pool w pool_cfg name u ∧ pools_ w !! name = Some p ∧ k = 0%nat) ∨
     (¬ keeps_pool w pool_cfg name u ∧ p = length heap ∧ k = 1%nat)).
Proof.
  intros Hw heap. unfold entry_pool, keeps_pool.
  destruct (upstreams_ w !! name) as [cur|] eqn:Hu.
  2:{ exists (length heap), 1%nat. split; [done|]. right. split_and!; [by intros [? _]|done|done]. }
  case_bool_decide as Hcur.
  2:{ exists (length heap), 1%nat. split; [done|]. right. split_and!; [by intros [[= ?] _]|done|done]. }
  subst cur. destruct (proj1 (wf_dom w Hw name)) as [p Hp]; [by rewrite Hu|].
  unfold map_at. rewrite Hp. cbn [mbind outcome_bind].
  assert (heap !!! p = all_pools w !!! p) as Hsame.
  { unfold heap. apply lookup_total_app_l. by apply (wf_heap w Hw) in Hp. }
  rewrite Hsame. destruct (same_pool_settings _ _) eqn:Hset.
  - exists p, 0%nat. rewrite app_nil_r. split; [done|]. left. split_and!; [done|by exists p|done|done].
  - exists (length heap), 1%nat. split; [done|]. right. split_and!; [|done|done].
    intros (_ & p1 & [= <-] & Hs). congruence.
Qed.

Lemma last_filter_snoc (seen : list (bytes * bytes)) name' val' name :
  last (filter (λ e : bytes * bytes, e.1 = name) (seen ++ [(name', val')])) =
  if decide (name' = name) then Some (name', val') else last (filter (λ e : bytes * bytes, e.1 = name) seen).
Proof.
  rewrite filter_app. case_decide as E.
  - rewrite filter_cons_True, filter_nil by done. apply last_snoc.
  - rewrite filter_cons_False, filter_nil by done. by rewrite app_nil_r.
Qed.

Lemma prepared_step w pool_cfg seen ups pools heap name val u p k :
  manager_wf w → prepared_inv w pool_cfg seen ups pools heap → entry_ok name val u →
  ((keeps_pool w pool_cfg name u ∧ pools_ w !! name = Some p ∧ k = 0%nat) ∨
   (¬ keeps_pool w pool_cfg name u ∧ p = length heap ∧ k = 1%nat)) →
  prepared_inv w pool_cfg (seen ++ [(name, val)]) (<[name := u]> ups) (<[name := p]> pools)
    (heap ++ replicate k pool_cfg).
Proof.
  intros Hw Hi Hok Hp. pose proof (pi_heap _ _ _ _ _ _ Hi) as [n Hheap].
  assert (length (all_pools w) ≤ length heap)%nat as Hle by (rewrite Hheap, length_app; lia).
  split.
  - apply Forall_app. split; [apply (pi_ok _ _ _ _ _ _ Hi)|]. constructor; [by exists u|constructor].
  - intros nm u'. rewrite last_filter_snoc. rewrite lookup_insert. case_decide as E.
    + subst nm. split; [intros [= <-]; eauto|]. intros (v & [= <-] & Hok'). f_equal. by eapply entry_ok_fun.
    + apply (pi_last _ _ _ _ _ _ Hi).
  - intros nm. rewrite !lookup_insert. case_decide; [by rewrite !is_Some_alt|]. apply (pi_dom _ _ _ _ _ _ Hi).
  - exists (n + k)%nat. by rewrite Hheap, <- app_assoc, replicate_add.
  - intros nm u' p'. rewrite !lookup_insert, length_app, length_replicate. case_decide as E.
    + subst nm. intros [= <-] [= <-]. destruct Hp as [(? & ? & ->)|(? & -> & ->)]; [by left|right; split; [done|lia]].
    + intros Hu' Hp'. destruct (pi_pool _ _ _ _ _ _ Hi _ _ _ Hu' Hp') as [?|[? ?]]; [by left|right; split; [done|lia]].
  - assert (∀ nm, nm ≠ name → pools !! nm ≠ Some p) as Hfresh.
    { intros nm Hne Hnm. destruct (proj2 (pi_dom _ _ _ _ _ _ Hi nm)) as [u' Hu']; [by rewrite Hnm|].
      pose proof (pi_pool _ _ _ _ _ _ Hi _ _ _ Hu' Hnm) as Hcase.
      destruct Hp as [(_ & Hpn & _)|(_ & -> & _)], Hcase as [[_ Hpm]|[_ Hb]].
      - apply Hne. by eapply (wf_inj w Hw).
      - apply (wf_heap w Hw) in Hpn. lia.
      - apply (wf_heap w Hw) in Hpm. lia.
      - lia. }
    intros n1 n2 p'. rewrite !lookup_insert. repeat case_decide; subst; try done.
    + intros [= <-] H2. by apply Hfresh in H2.
    + intros H1 [= <-]. by apply Hfresh in H1.
    + apply (pi_inj _ _ _ _ _ _ Hi).
Qed.

Lemma prepare_entries_ok w pool_cfg es seen ups pools heap res :
  manager_wf w → prepared_inv w pool_cfg seen ups pools heap →
  prepare_entries w pool_cfg es ups pools heap = Ret res →
  prepared_inv w pool_cfg (seen ++ es) res.1.1 res.1.2 res.2.
Proof.
  intros Hw. revert seen ups pools heap. induction es as [|[name val] es IH]; intros seen ups pools heap Hi.
  - intros [= <-]. by rewrite app_nil_r.
  - cbn [prepare_entries]. destruct (parse_upstream name val) as [u|] eqn:Hparse; [|done]. cbn [mbind outcome_bind].
    apply parse_upstream_spec in Hparse. pose proof (pi_heap _ _ _ _ _ _ Hi) as [n ->].
    destruct (entry_pool_spec w pool_cfg name u n Hw) as (p & k & Hep & Hcase). rewrite Hep. cbn [mbind outcome_bind].
    intros Hres. rewrite (cons_middle _ seen es), app_assoc. eapply IH; [|exact Hres].
    by apply (prepared_step w pool_cfg seen ups pools _ name val u).
Qed.

Lemma prepare_entries_throw w pool_cfg es seen ups pools heap what :
  manager_wf w → prepared_inv w pool_cfg seen ups pools heap →
  prepare_entries w pool_cfg es ups pools heap = Throw what →
  ∃ name val, (name, val) ∈ es ∧ ∀ u, ¬ entry_ok name val u.
Proof.
  intros Hw. revert seen ups pools heap. induction es as [|[name val] es IH]; intros seen ups pools heap Hi; [done|].
  cbn [prepare_entries]. destruct (parse_upstream name val) as [u|] eqn:Hparse.
  2:{ intros _. exists name, val. split; [left|]. intros u Hu. apply parse_upstream_spec in Hu. congruence. }
  cbn [mbind outcome_bind]. apply parse_upstream_spec in Hparse. pose proof (pi_heap _ _ _ _ _ _ Hi) as [n ->].
  destruct (entry_pool_spec w pool_cfg name u n Hw) as (p & k & Hep & Hcase). rewrite Hep. cbn [mbind outcome_bind].
  intros Hres. destruct (IH _ _ _ _ (prepared_step w pool_cfg seen ups pools _ name val u p k Hw Hi Hparse Hcase) Hres)
    as (nm & v & Hin & Hbad). exists nm, v. split; [by right|done].
Qed.

Lemma prepared_inv0 w pool_cfg : prepared_inv w pool_cfg [] ∅ ∅ (all_pools w).
Proof.
  split.
  - constructor.
  - intros name u. rewrite lookup_empty. split; [done|]. by intros (? & [=] & _).
  - intros name. by rewrite !lookup_empty.
  - exists 0%nat. by rewrite app_nil_r.
  - intros name u p. by rewrite lookup_empty.
  - intros n1 n2 p. by rewrite lookup_empty.
Qed.

Lemma prepared_inv_wf w pool_cfg es ups pools heap json gen limit : manager_wf w →
  prepared_inv w pool_cfg es ups pools heap → manager_wf (mkManager ups pools json gen limit heap).
Proof.
  intros Hw Hi. split; cbn [upstreams_ pools_ all_pools].
  - apply (pi_dom _ _ _ _ _ _ Hi).
  - intros name p Hp. destruct (proj2 (pi_dom _ _ _ _ _ _ Hi name)) as [u Hu]; [by rewrite Hp|].
    pose proof (pi_heap _ _ _ _ _ _ Hi) as [n Hn].
    destruct (pi_pool _ _ _ _ _ _ Hi _ _ _ Hu Hp) as [[_ Hold]|[_ Hb]]; [|lia].
    apply (wf_heap w Hw) in Hold. rewrite Hn, length_app. lia.
  - apply (pi_inj _ _ _ _ _ _ Hi).
Qed.

(** a reload of the upstreams is all or nothing.  On a consistent table it
    throws (and so publishes nothing) exactly when the transform switch is not a
    boolean or some entry of the section has no service name, no host, or a port
    that is not a number from 1 to 65535; otherwise every service has the address
    of its last entry and no other service is routed, a service whose address and
    pool settings did not change keeps its pool, every other one gets a pool made
    for it with the new settings, no two services share a pool, the process-wide
    limit is the configured one, the generation is the next one, and the table is
    consistent again. *)
Lemma upstream_reload_exact w cfg pool_cfg : manager_wf w →
  let es := get_section cfg "upstream" in
  match reload w cfg pool_cfg with
  | Throw _ =>
      is_ret (get_bool cfg "gateway" "json_keys_snake_to_camel" true) = false ∨
      ∃ name val, (name, val) ∈ es ∧ ∀ u, ¬ entry_ok name val u
  | Ret w' =>
      get_bool cfg "gateway" "json_keys_snake_to_camel" true = Ret (json_keys_snake_to_camel_ w') ∧
      Forall (λ e : bytes * bytes, ∃ u, entry_ok e.1 e.2 u) es ∧ manager_wf w' ∧
      generation_ w' = wrap64 (generation_ w + 1) ∧ budget_limit_ w' = max_total_connections pool_cfg ∧
      (∀ name u, upstreams_ w' !! name = Some u ↔
         ∃ val, last (filter (λ e : bytes * bytes, e.1 = name) es) = Some (name, val) ∧ entry_ok name val u) ∧
      (∀ name u p, upstreams_ w' !! name = Some u → pools_ w' !! name = Some p →
         (keeps_pool w pool_cfg name u ∧ pools_ w !! name = Some p) ∨
         (¬ keeps_pool w pool_cfg name u ∧ all_pools w !! p = None ∧ all_pools w' !! p = Some pool_cfg))
  end.
Proof.
  intros Hw es. unfold reload, prepare_reload. destruct (get_bool cfg _ _ _) as [json|] eqn:Hb; [|by left].
  cbn [mbind outcome_bind]. fold es.
  destruct (prepare_entries _ _ _ _ _ _) as [[[ups pools] heap]|what] eqn:He; cbn [mbind outcome_bind].
  2:{ right. by apply (prepare_entries_throw _ _ _ [] _ _ _ _ Hw (prepared_inv0 w pool_cfg)) in He. }
  apply (prepare_entries_ok _ _ _ [] _ _ _ _ Hw (prepared_inv0 w pool_cfg)) in He. cbn [app fst snd] in He.
  unfold publish_reload. cbn [json_keys_snake_to_camel_ upstreams_ pools_ generation_ budget_limit_ all_pools
    prep_upstreams prep_pools prep_json prep_total].
  split_and!; try done.
  - apply (pi_ok _ _ _ _ _ _ He).
  - by eapply prepared_inv_wf.
  - apply (pi_last _ _ _ _ _ _ He).
  - intros name u p Hu Hp. pose proof (pi_heap _ _ _ _ _ _ He) as [n Hn].
    destruct (pi_pool _ _ _ _ _ _ He _ _ _ Hu Hp) as [?|[? [Hlo Hhi]]]; [by left|right]. split_and!; [done| |].
    + by apply lookup_ge_None.
    + rewrite Hn, length_app, length_replicate in *. rewrite lookup_app_r by done.
      apply lookup_replicate_2. lia.
Qed.

Definition sample_upstreams : Config :=
  (load_lines empty_config [] ["[upstream]" : bytes; "orders = 10.0.0.7:8080" : bytes; "users = 10.0.0.8:80" : bytes]).2.

Lemma upstream_reload_exact_witness :
  ∃ w', reload sample_manager sample_upstreams default_pool_config = Ret w' ∧ manager_wf w' ∧
    generation_ w' = 2 ∧ budget_limit_ w' = 4096.
Proof.
  pose proof (upstream_reload_exact sample_manager sample_upstreams default_pool_config sample_manager_wf) as H.
  assert (is_ret (reload sample_manager sample_upstreams default_pool_config) = true) as Hret by (by vm_compute).
  destruct (reload sample_manager sample_upstreams default_pool_config) as [w'|]; [|done].
  cbv zeta in H. destruct H as (_ & _ & Hwf & Hgen & Hlim & _). exists w'. split; [done|]. split; [exact Hwf|].
  rewrite Hgen, Hlim. by vm_compute.
Defined.

(** ** Rules see another path than routes *)

(** the security rules and the router can disagree on the service.  For the
    request path /secret/../public/x the rules judge /public/x, a path of the
    service public, while any table that has the service secret routes the
    request there, with the dot segments in the forwarded path. *)
Lemma route_ignores_normalization w cfg pool :
  upstreams_ w !! ("secret" : bytes) = Some cfg → pools_ w !! ("secret" : bytes) = Some pool →
  let path : bytes := "/secret/../public/x" in
  normalize_path path true = mkPath "/public/x" true [] ∧
  extract_service (np_path (normalize_path path true)) = "public" ∧
  route w path = Ret (Some (mkRoute cfg pool "/../public/x" (json_keys_snake_to_camel_ w))).
Proof.
  intros Hu Hp path. split; [by vm_compute|]. split; [by vm_compute|].
  change path with ("/"%char :: ("secret" : bytes) ++ ("/../public/x" : bytes)).
  rewrite route_service; [|apply (bool_decide_eq_true_1 _); by vm_compute..|intros c [= <-]; by left].
  unfold map_at. by rewrite Hu, Hp.
Qed.

Lemma route_ignores_normalization_witness :
  let w := mkManager {[ "secret" : bytes := mkUpstream "10.0.0.7" 8080 ]} {[ "secret" : bytes := 0%nat ]} true 1 0
             [default_pool_config] in
  ∃ r, route w "/secret/../public/x" = Ret (Some r) ∧ upstream_path r = "/../public/x".
Proof.
  intros w.
  destruct (route_ignores_normalization w (mkUpstream "10.0.0.7" 8080) 0) as (_ & _ & Hr);
    [apply lookup_singleton_eq..|]. eexists. split; [exact Hr|done].
Defined.
