(* ===== verification/Proxy.v ===== *)
(** * Forwarding (src/src/http/proxy_forwarder.hpp)

    The request the gateway writes to an upstream, the response it reads from
    one, and what becomes of the connection.  The theorems show that a forwarded
    request carries exactly one body, delimited as the upstream will parse it;
    that a connection is returned for reuse only when the response was read to
    its last byte under unambiguous framing; and that a request which lists
    Content-Length in its Connection header breaks the first property. *)

From S2P Require Import Prelude HttpProtocol HttpIo BodyReader PathRules Response HttpPool Upstream.

(** ** The forwarded request *)

Definition request_filtered (ctx : HttpContext) : list bytes :=
  add_connection_tokens (ctx_headers ctx)
    ["connection" : bytes; "proxy-connection" : bytes; "proxy-authenticate" : bytes;
     "proxy-authorization" : bytes; "te" : bytes; "trailer" : bytes;
     "transfer-encoding" : bytes; "upgrade" : bytes;
     "host" : bytes; "accept-encoding" : bytes; "expect" : bytes].

(** One header of the forwarding loop: the line it adds. *)
Definition forward_header (filtered : list bytes) (chunked_request forwarding_te : bool) (kv : bytes * bytes) : bytes :=
  let name := trim_view kv.1 in
  if header_iequals name "transfer-encoding" && chunked_request then []
  else if header_iequals name "transfer-encoding" then name ++ ": " ++ kv.2 ++ CRLF
  else if forwarding_te && header_iequals name "content-length" then []
  else if contains_header_name filtered name then []
  else name ++ ": " ++ kv.2 ++ CRLF.

(** The empty result rejects the request. *)
Definition build_proxy_request (method upstream_path : bytes) (cfg : UpstreamConfig) (ctx : HttpContext)
    (st : HeaderParseState) (send_keep_alive_header : bool) : bytes :=
  let head := method ++ " " ++ upstream_path ++ " HTTP/1.1" ++ CRLF ++
              "Host: " ++ up_host cfg ++ ":" ++ to_string (up_port cfg) ++ CRLF in
  let filtered := request_filtered ctx in
  if negb (forallb (λ kv, is_safe_header kv.1 kv.2) (ctx_headers ctx)) then []
  else
    let forwarding_te := existsb (λ kv, header_iequals (trim_view kv.1) "transfer-encoding") (ctx_headers ctx) in
    head ++
    (if is_chunked st then "Content-Length: " ++ to_string (slen (ctx_body ctx)) ++ CRLF else []) ++
    concat (forward_header filtered (is_chunked st) forwarding_te <$> ctx_headers ctx) ++
    (if send_keep_alive_header then "Connection: keep-alive" ++ CRLF else []) ++
    CRLF ++ ctx_body ctx.

(** ** The upstream's response *)

Record ProxyResponse := mkProxyResponse {
  pr_status : Z;
  pr_status_text : bytes;
  pr_headers : headers;
  pr_body : bytes;
  pr_error : bytes
}.

Definition proxy_response0 : ProxyResponse := mkProxyResponse 502 [] [] [] [].

(** The part of [HttpConn] the forwarder uses. *)
Record conn_state := mkConn { connection_close_flag : bool; read_buffer : bytes }.

Definition failed (r : ProxyResponse) (error : bytes) : ProxyResponse :=
  mkProxyResponse (pr_status r) (pr_status_text r) (pr_headers r) (pr_body r) error.

Definition CRLF2 : bytes := CRLF ++ CRLF.

(** The loop that reads a header block: the buffer, or the error. *)
Fixpoint read_head (sk : sock) (buf : bytes) {struct sk} : co ((bytes + bytes) * sock) :=
  match find_str CRLF2 buf with
  | Some _ => Done (inr buf, sk)
  | None =>
      if kMaxHeaderSize <? slen buf then Done (inl ("upstream_response_header_too_large" : bytes), sk)
      else match sk with
           | [] => Suspended
           | ev :: sk' =>
               let read := read_body_some ev in
               if io_ok read then read_head sk' (buf ++ ev_data ev)
               else Done (inl ("upstream_response_header_read_failed" : bytes), sk')
           end
  end.

(** The parsed head of one response. *)
Record response_head := mkHead {
  rh_response : ProxyResponse;
  rh_state : HeaderParseState;
  rh_http10 : bool;
  rh_rest : bytes
}.

(** Parsing the header block [header_part]: the response so far, its framing and
    whether it is HTTP/1.0, or the response to return. *)
Definition parse_block (header_part : bytes) : (ProxyResponse * HeaderParseState * bool) + ProxyResponse :=
  let first_line_end := find_str CRLF header_part in
  let status_line := match first_line_end with Some e => take e header_part | None => header_part end in
  match parse_http_status_line status_line with
  | None => inr (failed proxy_response0 "upstream_response_invalid_status_line")
  | Some (status, text) =>
      let hdr := match first_line_end with Some e => drop (e + 2) header_part | None => [] end in
      let '(hs, st) := parse_header_fields hdr ([], header_state0) in
      let resp := mkProxyResponse status text hs [] [] in
      if invalid_content_length st || duplicate_content_length st || invalid_transfer_encoding st ||
         (has_transfer_encoding st && negb (is_chunked st))
      then inr (failed resp "upstream_response_invalid_framing")
      else inl (resp, st, starts_with "HTTP/1.0 " status_line)
  end.

(** The head at the front of the buffer, or the response to return. *)
Definition parse_head (buf : bytes) : response_head + ProxyResponse :=
  match find_str CRLF2 buf with
  | None => inr (failed proxy_response0 "upstream_response_header_too_large")
  | Some header_end =>
      if kMaxHeaderSize <? Z.of_nat header_end
      then inr (failed proxy_response0 "upstream_response_header_too_large")
      else match parse_block (take header_end buf) with
           | inr resp => inr resp
           | inl (resp, st, http10) => inl (mkHead resp st http10 (drop (header_end + 4) buf))
           end
  end.

Definition is_informational (status : Z) : bool := (100 <=? status) && (status <? 200).

(** The loop over informational responses; [count] of them have been skipped. *)
Fixpoint read_final_head (fuel : nat) (count : Z) (sk : sock) (buf : bytes) :
    co ((response_head + ProxyResponse) * sock) :=
  match fuel with
  | O => OutOfFuel
  | S f =>
      match read_head sk buf with
      | Suspended => Suspended
      | OutOfFuel => OutOfFuel
      | Done (inl error, sk') => Done (inr (failed proxy_response0 error), sk')
      | Done (inr buf', sk') =>
          match parse_head buf' with
          | inr resp => Done (inr resp, sk')
          | inl head =>
              let resp := rh_response head in
              if is_informational (pr_status resp) then
                if (pr_status resp =? 101) || has_transfer_encoding (rh_state head) ||
                   match content_length (rh_state head) with Some _ => true | None => false end
                then Done (inr (failed resp
                       (if pr_status resp =? 101 then "upstream_protocol_upgrade_unsupported"
                        else "upstream_informational_response_invalid_framing")), sk')
                else if 8 <? count + 1
                then Done (inr (failed resp "too_many_upstream_informational_responses"), sk')
                else read_final_head f (count + 1) sk' (rh_rest head)
              else Done (inl head, sk')
          end
      end
  end.

(** At most eight informational responses precede the final one. *)
Definition head_fuel : nat := 10.

Definition with_body (r : ProxyResponse) (body : bytes) : ProxyResponse :=
  mkProxyResponse (pr_status r) (pr_status_text r) (pr_headers r) body (pr_error r).

(** The body of a response that ends with the connection. *)
Fixpoint read_until_eof (sk : sock) (body : bytes) (max_body_size : Z) : co ((bytes + bytes) * sock) :=
  match sk with
  | [] => Suspended
  | ev :: sk' =>
      let read := read_body_some ev in
      if io_ok read then
        let body := body ++ ev_data ev in
        if max_body_size <? slen body then Done (inl ("upstream_response_body_too_large" : bytes), sk')
        else read_until_eof sk' body max_body_size
      else if bool_decide (io_status read = IoPeerClosed) then Done (inr body, sk')
      else Done (inl ("upstream_response_body_read_failed" : bytes), sk')
  end.

Definition read_proxy_response (sk : sock) (conn : conn_state) (max_body_size : Z) (request_is_head : bool) :
    co (ProxyResponse * conn_state * sock) :=
  match read_final_head head_fuel 0 sk (read_buffer conn) with
  | Suspended => Suspended
  | OutOfFuel => OutOfFuel
  | Done (inr resp, sk') => Done (resp, mkConn true [], sk')
  | Done (inl head, sk') =>
      let resp := rh_response head in
      let st := rh_state head in
      let close := connection_close st || (rh_http10 head && negb (connection_keep_alive st)) in
      let body_rest := rh_rest head in
      if request_is_head || (pr_status resp =? 204) || (pr_status resp =? 304) then
        Done (resp, mkConn (close || negb (beqb body_rest [])) [], sk')
      else if is_chunked st then
        match read_chunked_body sk' body_rest max_body_size with
        | Suspended => Suspended
        | OutOfFuel => OutOfFuel
        | Done (r, rest, sk'') =>
            if body_ok r then Done (with_body resp (body_bytes r), mkConn close rest, sk'')
            else Done (failed resp (if bool_decide (body_status r = BodyTooLarge)
                                    then "upstream_response_body_too_large"
                                    else "upstream_response_chunked_read_failed"), mkConn true [], sk'')
        end
      else match content_length st with
      | Some n =>
          match read_content_length_body sk' body_rest n max_body_size with
          | Suspended => Suspended
          | OutOfFuel => OutOfFuel
          | Done (r, rest, sk'') =>
              if body_ok r then Done (with_body resp (body_bytes r), mkConn close rest, sk'')
              else Done (failed resp (if bool_decide (body_status r = BodyTooLarge)
                                      then "upstream_response_body_too_large"
                                      else "upstream_response_body_read_failed"), mkConn true [], sk'')
          end
      | None =>
          if max_body_size <? slen body_rest
          then Done (failed resp "upstream_response_body_too_large", mkConn true [], sk')
          else match read_until_eof sk' body_rest max_body_size with
               | Suspended => Suspended
               | OutOfFuel => OutOfFuel
               | Done (inl error, sk'') => Done (failed resp error, mkConn true [], sk'')
               | Done (inr body, sk'') => Done (with_body resp body, mkConn true [], sk'')
               end
      end
  end.

(** ** Forwarding keeps the body *)

(** The fields the forwarded request carries after the request line. *)
Definition kept_request (filtered : list bytes) (chunked_request forwarding_te : bool) (kv : bytes * bytes) : bool :=
  if header_iequals kv.1 "transfer-encoding" then negb chunked_request
  else negb (forwarding_te && header_iequals kv.1 "content-length") && negb (contains_header_name filtered kv.1).

Definition request_fields (cfg : UpstreamConfig) (ctx : HttpContext) (st : HeaderParseState) (keep_alive : bool) : headers :=
  let te := existsb (λ kv, header_iequals (trim_view kv.1) "transfer-encoding") (ctx_headers ctx) in
  [("Host" : bytes, up_host cfg ++ ":" ++ to_string (up_port cfg))] ++
  (if is_chunked st then [("Content-Length" : bytes, to_string (slen (ctx_body ctx)))] else []) ++
  filter (λ kv, kept_request (request_filtered ctx) (is_chunked st) te kv = true) (ctx_headers ctx) ++
  (if keep_alive then [("Connection" : bytes, "keep-alive" : bytes)] else []).

Definition names_trimmed (hs : headers) : Prop := Forall (λ kv, trim kv.1 = kv.1) hs.

Lemma forward_header_kept filtered ch te kv : trim kv.1 = kv.1 →
  forward_header filtered ch te kv = if kept_request filtered ch te kv then render_header kv else [].
Proof.
  intros Ht. unfold forward_header, kept_request, render_header, trim_view. rewrite Ht.
  destruct (header_iequals kv.1 "transfer-encoding"), ch, te, (header_iequals kv.1 "content-length"),
    (contains_header_name filtered kv.1); done.
Qed.

Lemma forwarded_concat filtered ch te hs : names_trimmed hs →
  concat (forward_header filtered ch te <$> hs) =
  render_headers (filter (λ kv, kept_request filtered ch te kv = true) hs).
Proof.
  unfold render_headers. induction 1 as [|kv hs Ht _ IH]; [done|]. rewrite fmap_cons. cbn [concat].
  rewrite forward_header_kept by done. destruct (kept_request filtered ch te kv) eqn:E.
  - rewrite filter_cons_True by done. rewrite fmap_cons. cbn [concat]. by rewrite IH.
  - rewrite filter_cons_False by congruence. by rewrite IH.
Qed.

Lemma build_proxy_fields method path cfg ctx st ka :
  names_trimmed (ctx_headers ctx) → Forall field_safe (ctx_headers ctx) →
  build_proxy_request method path cfg ctx st ka =
  (method ++ " " ++ path ++ " HTTP/1.1") ++ CRLF ++
  render_headers (request_fields cfg ctx st ka) ++ CRLF ++ ctx_body ctx.
Proof.
  intros Ht Hs. unfold build_proxy_request.
  assert (forallb (λ kv, is_safe_header kv.1 kv.2) (ctx_headers ctx) = true) as ->.
  { apply forallb_forall. intros [k v] Hin. apply is_safe_header_spec. rewrite Forall_forall in Hs.
    apply Hs. by apply list_elem_of_In. }
  cbn [negb]. rewrite forwarded_concat by done. unfold request_fields, render_headers. cbv zeta.
  rewrite !fmap_app, !concat_app, <- !app_assoc. do 5 f_equal.
  destruct (is_chunked st), ka; cbn [fmap list_fmap concat]; unfold render_header; cbn [fst snd];
    rewrite ?app_nil_r, <- !app_assoc; done.
Qed.

(** The framing part of the parse state: everything but the connection flags. *)
Definition frame (st : HeaderParseState) :=
  (content_length st, invalid_header_name st, duplicate_content_length st, invalid_content_length st,
   is_chunked st, has_transfer_encoding st, invalid_transfer_encoding st).

Lemma frame_update k v st st' : frame st = frame st' →
  frame (update_header_state k v st) = frame (update_header_state k v st').
Proof.
  destruct st, st'. unfold frame. cbn. intros [= -> -> -> -> -> -> ->]. unfold update_header_state.
  destruct (slen (trim_view k) =? slen k), (header_iequals (trim_view k) "content-length"),
    (header_iequals (trim_view k) "transfer-encoding"), (header_iequals (trim_view k) "connection"); cbn;
    unfold set_invalid_header_name, update_content_length, update_transfer_encoding, update_connection; cbn;
    try done;
    repeat first
      [ destruct (parse_decimal_size _); cbn
      | destruct (foldl transfer_coding_step _ _) as [[? ?] ?]; cbn
      | destruct (split_connection_tokens _); cbn
      | case_match; cbn ]; done.
Qed.

Lemma frame_unframed kv st : unframed kv → frame (update_header_state kv.1 kv.2 st) = frame st.
Proof.
  intros (Ht & Hcl & Hte). unfold update_header_state, trim_view. rewrite Ht, Z.eqb_refl, Hcl, Hte.
  case_if; [|done]. unfold update_connection. destruct st, (split_connection_tokens _). done.
Qed.

Lemma frame_filter P `{∀ kv, Decision (P kv)} hs st st' : frame st = frame st' →
  (∀ kv, kv ∈ hs → ¬ P kv → unframed kv) →
  frame (foldl (λ st kv, update_header_state kv.1 kv.2 st) st (filter P hs)) =
  frame (foldl (λ st kv, update_header_state kv.1 kv.2 st) st' hs).
Proof.
  revert st st'. induction hs as [|kv hs IH]; intros st st' Hst Hu; [done|]. cbn [foldl].
  destruct (decide (P kv)) as [Hp|Hp].
  - rewrite filter_cons_True by done. cbn [foldl]. apply IH; [by apply frame_update|].
    intros x Hx. apply Hu. by right.
  - rewrite filter_cons_False by done. apply IH; [|intros x Hx; apply Hu; by right].
    rewrite frame_unframed; [done|]. apply Hu; [left|done].
Qed.

Lemma frame_rejected st st' : frame st = frame st' → framing_rejected st = framing_rejected st'.
Proof. destruct st, st'. unfold frame, framing_rejected. cbn. by intros [= -> -> -> -> -> -> ->]. Qed.

Lemma accepted_names hs : flags_clear (header_state_of hs) → names_trimmed hs.
Proof.
  induction hs as [|[k v] hs IH] using rev_ind; intros Hf; [constructor|].
  unfold header_state_of in Hf. rewrite foldl_snoc in Hf.
  destruct (update_header_state_clean _ _ _ Hf) as (Hst & Hk & _).
  apply Forall_app. split; [by apply IH|]. by constructor.
Qed.

Lemma not_named name hs kv : named name hs = [] → kv ∈ hs → header_iequals kv.1 name = false.
Proof.
  intros Hn Hin. apply not_true_is_false. intros Ht.
  assert (kv ∈ named name hs) as H by (by apply list_elem_of_filter). rewrite Hn in H. by apply not_elem_of_nil in H.
Qed.

Lemma named_te_exists hs : names_trimmed hs →
  existsb (λ kv, header_iequals (trim_view kv.1) "transfer-encoding") hs = true ↔ named "transfer-encoding" hs ≠ [].
Proof.
  intros Ht. rewrite existsb_exists. setoid_rewrite <- list_elem_of_In. split.
  - intros (kv & Hin & Hk) Hn. unfold names_trimmed in Ht. rewrite Forall_forall in Ht. unfold trim_view in Hk.
    rewrite (Ht kv Hin) in Hk. rewrite (not_named _ _ kv Hn Hin) in Hk. done.
  - intros Hne. destruct (named "transfer-encoding" hs) as [|kv l] eqn:E; [done|].
    assert (kv ∈ named "transfer-encoding" hs) as [Hk Hin]%list_elem_of_filter by (rewrite E; left).
    exists kv. split; [done|]. unfold names_trimmed in Ht. rewrite Forall_forall in Ht. unfold trim_view.
    by rewrite (Ht kv Hin).
Qed.

(** The request was read with the body its headers announce. *)
Definition body_as_framed (ctx : HttpContext) : Prop :=
  let st := header_state_of (ctx_headers ctx) in
  framing_rejected st = false ∧ slen (ctx_body ctx) ≤ SIZE_MAX ∧
  (is_chunked st = false → default 0 (content_length st) = slen (ctx_body ctx)).

(** No Connection token names the header that delimits the body. *)
Definition keeps_content_length (ctx : HttpContext) : Prop :=
  contains_header_name (request_filtered ctx) "content-length" = false.

Abbreviation run := (foldl (λ st (kv : bytes * bytes), update_header_state kv.1 kv.2 st)).

Lemma frame_all_unframed hs st : Forall unframed hs → frame (run st hs) = frame st.
Proof.
  intros Hu. revert st. induction Hu as [|kv hs Hkv _ IH]; intros st; [done|]. cbn [foldl].
  rewrite IH. by apply frame_unframed.
Qed.

(** What survives of a chunked request says nothing about the body. *)
Lemma kept_chunked_unframed filtered hs : names_trimmed hs →
  Forall unframed (filter (λ kv, kept_request filtered true true kv = true) hs).
Proof.
  intros Ht. apply Forall_forall. intros kv [Hk Hin]%list_elem_of_filter.
  unfold names_trimmed in Ht. rewrite Forall_forall in Ht. unfold kept_request in Hk.
  split; [by apply Ht|]. destruct (header_iequals kv.1 "transfer-encoding"); [done|].
  destruct (header_iequals kv.1 "content-length"); done.
Qed.

(** Without a transfer coding, only fields that do not frame are dropped. *)
Lemma dropped_plain_unframed ctx te kv : keeps_content_length ctx →
  names_trimmed (ctx_headers ctx) → te = false → header_iequals kv.1 "transfer-encoding" = false →
  kv ∈ ctx_headers ctx → kept_request (request_filtered ctx) false te kv ≠ true → unframed kv.
Proof.
  intros Hkeep Ht -> Hte Hin Hk. unfold names_trimmed in Ht. rewrite Forall_forall in Ht.
  split; [by apply Ht|]. split; [|done]. unfold kept_request in Hk. rewrite Hte in Hk. cbn in Hk.
  apply not_true_is_false. intros Hcl. destruct Hk. apply negb_true_iff, not_true_is_false. intros Hc.
  unfold keeps_content_length, contains_header_name in *. apply not_true_iff_false in Hkeep. apply Hkeep.
  apply existsb_exists in Hc as (n & Hn & He). apply existsb_exists. exists n. split; [done|].
  by eapply header_iequals_trans.
Qed.

Lemma host_frame cfg : frame (header_state_of [("Host" : bytes, up_host cfg ++ ":" ++ to_string (up_port cfg))]) = frame header_state0.
Proof. unfold header_state_of. cbn [foldl]. by apply frame_unframed. Qed.

Lemma keep_alive_frame (ka : bool) st :
  frame (run st (if ka then [("Connection" : bytes, "keep-alive" : bytes)] else [])) = frame st.
Proof. destruct ka; [|done]. cbn [foldl]. by apply frame_unframed. Qed.

Lemma kept_frame cfg ctx ka : body_as_framed ctx → keeps_content_length ctx →
  ∃ cl, frame (header_state_of (request_fields cfg ctx (header_state_of (ctx_headers ctx)) ka)) =
      (cl, false, false, false, false, false, false) ∧ default 0 cl = slen (ctx_body ctx).
Proof.
  intros (Hrej & Hmax & Hbody) Hkeep. set (st := header_state_of (ctx_headers ctx)) in *.
  pose proof (framing_rejected_flags _ Hrej) as Hflags. pose proof (accepted_names _ Hflags) as Hnames.
  pose proof (framing_inv_holds _ Hflags) as (_ & _ & Hte & Hch). fold st in Hte, Hch.
  pose proof (named_te_exists _ Hnames) as Hex.
  unfold request_fields. cbv zeta. set (te := existsb _ _) in *.
  unfold header_state_of at 1. rewrite !foldl_app, keep_alive_frame.
  change (foldl _ header_state0 [_]) with (header_state_of [("Host" : bytes, up_host cfg ++ ":" ++ to_string (up_port cfg))]).
  destruct (is_chunked st) eqn:Ech.
  - destruct Hch as (k & v & Hnamed & _). assert (te = true) as -> by (apply Hex; by rewrite Hnamed).
    rewrite frame_all_unframed by (by apply kept_chunked_unframed).
    exists (Some (slen (ctx_body ctx))). split; [|done].
    destruct (content_length_last [("Host" : bytes, up_host cfg ++ ":" ++ to_string (up_port cfg))] (slen (ctx_body ctx)))
      as (C1 & C2 & C3 & C4); [pose proof (slen_nonneg (ctx_body ctx)); lia|by repeat constructor|].
    unfold header_state_of in C1, C2, C3, C4. rewrite foldl_app in C1, C2, C3, C4.
    fold (header_state_of [("Host" : bytes, up_host cfg ++ ":" ++ to_string (up_port cfg))]) in C1, C2, C3, C4.
    unfold frame, framing_rejected in *. rewrite C2, C3, C4. bool_prop. congruence.
  - assert (te = false) as Hf.
    { apply not_true_is_false. intros Ht. apply Hex in Ht. done. }
    exists (content_length st). split; [|auto]. cbn [foldl].
    rewrite (frame_filter (λ kv, kept_request (request_filtered ctx) false te kv = true) _ _ header_state0).
    + fold st. unfold frame, framing_rejected in *. bool_prop.
      fold (header_state_of (ctx_headers ctx)). fold st. rewrite Hte, Ech. congruence.
    + apply host_frame.
    + intros kv Hin Hk. apply (dropped_plain_unframed ctx te); try done. by eapply not_named.
Qed.

(** ** The line of the request and its head *)

(** The path that is forwarded is made of bytes of the request's. *)
Lemma route_line_part w path r : line_part path → route w path = Ret (Some r) → line_part (upstream_path r).
Proof.
  intros [_ Hp]. assert (∀ n, Forall (λ c, quiet c ∧ c ≠ " "%char) (drop n path)) as Hd by (intros n; by apply Forall_drop).
  assert (Forall (λ c, quiet c ∧ c ≠ " "%char) ("/" : bytes)) as Hs by (repeat constructor; done).
  assert (default (length path) (find_char "?" path) ≤ length path)%nat as Hend.
  { destruct (find_char "?" path) as [q|] eqn:Eq; [|done]. apply find_char_Some in Eq as (_ & _ & Hq). cbn. lia. }
  unfold route. destruct path as [|c tail]; [done|]. case_if; [done|]. revert Hend.
  generalize (default (length (c :: tail)) (find_char "?" (c :: tail))) as path_end. intros path_end Hend.
  set (slash := match find_char "/" tail with Some _ => _ | None => _ end).
  destruct (upstreams_ w !! _); [|done]. destruct (map_at _ _) as [pool|]; [|done]. cbn [mbind outcome_bind]. intros [= <-]. cbn [upstream_path].
  destruct (slash <? path_end)%nat eqn:Hlt.
  - split; [|done]. intros E%(f_equal length). rewrite length_drop in E. apply Nat.ltb_lt in Hlt. cbn [length] in *. lia.
  - case_match; (split; [done|]); [constructor; [done|apply Hd]|exact Hs].
Qed.

Lemma quiet_no_cr s : Forall quiet s → CR ∉ s.
Proof. intros Hs Hin. rewrite Forall_forall in Hs. by destruct (Hs _ Hin). Qed.

(** The first blank line: bytes without CR are passed over, and so is the end of a
    line that is followed by a line. *)
Lemma blank_after l r : CR ∉ l → find_str CRLF2 (l ++ r) = Nat.add (length l) <$> find_str CRLF2 r.
Proof.
  induction l as [|c l IH]; intros Hl; [cbn [app length]; by destruct (find_str CRLF2 r)|]. apply not_elem_of_cons in Hl as [Hc Hl]. cbn [app find_str].
  change CRLF2 with (CR :: LF :: CRLF) at 1. cbn [starts_with]. rewrite (proj2 (ceqb_ne CR c)) by done. cbn [andb]. rewrite IH by done.
  by destruct (find_str CRLF2 r).
Qed.

Lemma blank_line_end c r : c ≠ CR → find_str CRLF2 (CRLF ++ c :: r) = Nat.add 2 <$> find_str CRLF2 (c :: r).
Proof.
  intros Hc. change (CRLF ++ c :: r) with (CR :: LF :: c :: r).
  assert (∀ s, find_str CRLF2 s = if starts_with CRLF2 s then Some 0%nat else match s with [] => None | _ :: t => S <$> find_str CRLF2 t end) as Heq
    by (by intros []).
  rewrite (Heq (CR :: LF :: c :: r)). change (starts_with CRLF2 (CR :: LF :: c :: r)) with (ceqb CR c && starts_with [LF] r).
  rewrite (proj2 (ceqb_ne CR c)) by done. cbn [andb]. rewrite (Heq (LF :: c :: r)). change (starts_with CRLF2 (LF :: c :: r)) with false. cbv iota.
  by destruct (find_str CRLF2 (c :: r)).
Qed.

(** Behind lines without CR that are not empty, the blank line is the one that
    ends the head. *)
Lemma blank_ends_head lines line r : Forall (λ l, l ≠ [] ∧ CR ∉ l) lines → CR ∉ line →
  find_str CRLF2 (line ++ CRLF ++ concat ((λ l, l ++ CRLF) <$> lines) ++ CRLF ++ r) =
  Some (length (line ++ CRLF ++ concat ((λ l, l ++ CRLF) <$> lines)) - 2)%nat.
Proof.
  intros Hl. revert line. induction Hl as [|l lines [Hne Hcr] _ IH]; intros line Hline; rewrite blank_after by done.
  - cbn [fmap list_fmap concat]. change (CRLF ++ [] ++ CRLF ++ r) with (CRLF2 ++ r). rewrite (find_str_app_l CRLF2 CRLF2 r 0) by done.
    cbn [fmap option_fmap option_map]. f_equal. rewrite !length_app. cbn. lia.
  - cbn [fmap list_fmap concat]. rewrite <- !app_assoc. destruct l as [|c l]; [done|]. cbn [app].
    rewrite blank_line_end by (intros ->; apply Hcr; left). specialize (IH (c :: l) Hcr). cbn [app] in IH. rewrite IH. cbn [fmap option_fmap option_map].
    f_equal. rewrite !length_app. cbn. rewrite !length_app. cbn. lia.
Qed.

Lemma rendered_lines hs : render_headers hs = concat ((λ l, l ++ CRLF) <$> ((λ kv : bytes * bytes, kv.1 ++ ": " ++ kv.2) <$> hs)).
Proof.
  unfold render_headers. rewrite <- list_fmap_compose. f_equal. apply list_fmap_ext. intros i kv _. unfold render_header. cbn [compose].
  by rewrite <- !app_assoc.
Qed.

Lemma rendered_line kv : field_safe kv → kv.1 ++ ": " ++ kv.2 ≠ [] ∧ CR ∉ kv.1 ++ ": " ++ kv.2.
Proof.
  intros (Hk & _ & Hv). split; [by destruct kv.1|]. apply quiet_no_cr. rewrite !Forall_app. split_and!; [done|by apply quiet_literal|done].
Qed.

(** A request line of two parts is read back, and the head ends where the body
    begins. *)
Lemma request_delimited method path hs body : line_part method → line_part path → Forall field_safe hs →
  let line := method ++ " " ++ path ++ " HTTP/1.1" in
  let head := line ++ CRLF ++ render_headers hs in
  split_on " " line = [method; path; "HTTP/1.1" : bytes] ∧
  find_str CRLF (head ++ CRLF ++ body) = Some (length line) ∧
  find_str CRLF2 (head ++ CRLF ++ body) = Some (length head - 2)%nat.
Proof.
  intros [_ Hm] [_ Hp] Hhs line head. assert (∀ s, Forall (λ c, quiet c ∧ c ≠ " "%char) s → " "%char ∉ s ∧ Forall quiet s) as Hpart.
  { intros s Hs. split; [intros Hin; rewrite Forall_forall in Hs; by destruct (Hs _ Hin)|]. eapply Forall_impl; [exact Hs|]. by intros c []. }
  destruct (Hpart _ Hm) as [Hm1 Hm2]. destruct (Hpart _ Hp) as [Hp1 Hp2].
  assert (CR ∉ line) as Hcr.
  { apply quiet_no_cr. unfold line. rewrite !Forall_app. split_and!; [done|by apply quiet_literal|done|by apply quiet_literal]. }
  split_and!.
  - unfold line. change (" " ++ path ++ " HTTP/1.1") with (" "%char :: path ++ " "%char :: ("HTTP/1.1" : bytes)).
    by rewrite !split_on_app by done.
  - unfold head. rewrite <- !app_assoc. apply find_crlf_line. by apply crlf_free_no_cr.
  - unfold head. rewrite rendered_lines, <- !app_assoc. apply blank_ends_head; [|done]. apply Forall_fmap. eapply Forall_impl; [exact Hhs|].
    intros kv. apply rendered_line.
Qed.

(** C16: a forwarded request is one message that carries exactly one body.  Suppose
    that the request was accepted by the framing test and its body read accordingly
    ([body_as_framed]), that no Connection token names Content-Length
    ([keeps_content_length]; otherwise see [connection_drops_content_length]), that
    method and path are not empty and hold no space, CR, LF or NUL (as those of a
    request the session has read do, see [session_line_parts], and the paths that
    routing makes of them, see [route_line_part]), that the configured host holds no
    CR, LF or NUL, and that the port is one.  Then what is written to the upstream,
    unless the request is rejected for a control character in a field, is a request
    line that splits into exactly the method, the path and the version, header lines
    without CR, LF or NUL, a blank line which is the first one, and the body.  The
    upstream parses back exactly the fields that were written and derives from them
    an unambiguous framing without transfer coding whose length is that of the body
    that follows. *)
Theorem proxy_request_framing method path cfg ctx ka :
  body_as_framed ctx → keeps_content_length ctx → line_part method → line_part path →
  Forall quiet (up_host cfg) → 0 ≤ up_port cfg ≤ 65535 →
  let st := header_state_of (ctx_headers ctx) in
  let out := build_proxy_request method path cfg ctx st ka in
  out = [] ∨
  ∃ hs,
    let line := method ++ " " ++ path ++ " HTTP/1.1" in
    let head := line ++ CRLF ++ render_headers hs in
    out = head ++ CRLF ++ ctx_body ctx ∧
    split_on " " line = [method; path; "HTTP/1.1" : bytes] ∧
    find_str CRLF out = Some (length line) ∧
    find_str CRLF2 out = Some (length head - 2)%nat ∧
    Forall field_safe hs ∧
    parse_header_fields (render_headers hs) ([], header_state0) =
      ((λ kv, (trim kv.1, trim kv.2)) <$> hs, header_state_of hs) ∧
    framing_rejected (header_state_of hs) = false ∧ has_transfer_encoding (header_state_of hs) = false ∧
    default 0 (content_length (header_state_of hs)) = slen (ctx_body ctx).
Proof.
  intros Hb Hkeep Hmeth Hpath Hhost Hport st out.
  destruct (forallb (λ kv, is_safe_header kv.1 kv.2) (ctx_headers ctx)) eqn:Hsafe.
  2:{ left. unfold out, build_proxy_request. by rewrite Hsafe. }
  right. exists (request_fields cfg ctx st ka).
  assert (Forall field_safe (ctx_headers ctx)) as Hs.
  { apply Forall_forall. intros [k v] Hin. apply is_safe_header_spec. rewrite forallb_forall in Hsafe.
    apply (Hsafe (k, v)). by apply list_elem_of_In. }
  assert (Forall field_safe (request_fields cfg ctx st ka)) as Hfs.
  { pose proof Hb as (_ & Hmax & _). unfold request_fields. cbv zeta. rewrite !Forall_app. split_and!.
    - constructor; [|constructor]. split_and!; [by apply quiet_literal|by apply (bool_decide_eq_true_1 _)|].
      cbn [snd]. rewrite !Forall_app. split_and!; [done|by apply quiet_literal|]. apply quiet_to_string. unfold SIZE_MAX. lia.
    - case_if; [|constructor]. constructor; [|constructor].
      split_and!; [by apply quiet_literal|by apply (bool_decide_eq_true_1 _)|].
      apply quiet_to_string. pose proof (slen_nonneg (ctx_body ctx)). lia.
    - apply Forall_forall. intros kv [_ Hin]%list_elem_of_filter. rewrite Forall_forall in Hs. by apply Hs.
    - case_if; [|constructor]. constructor; [by apply literal_field|constructor]. }
  destruct (kept_frame cfg ctx ka Hb Hkeep) as (cl & Hframe & Hcl). fold st in Hframe. cbv zeta.
  assert (out = ((method ++ " " ++ path ++ " HTTP/1.1") ++ CRLF ++ render_headers (request_fields cfg ctx st ka)) ++ CRLF ++ ctx_body ctx) as Hout.
  { unfold out. rewrite build_proxy_fields; [by rewrite <- !app_assoc| |done]. by apply accepted_names, framing_rejected_flags, Hb. }
  destruct (request_delimited method path (request_fields cfg ctx st ka) (ctx_body ctx) Hmeth Hpath Hfs) as (Hline & Hend & Hblank).
  rewrite Hout. split_and!; [done|exact Hline|exact Hend|exact Hblank|done|..].
  - apply parse_rendered_headers. eapply Forall_impl; [exact Hfs|]. apply field_safe_wire.
  - unfold frame in Hframe. injection Hframe as _ F1 F2 F3 F4 F5 F6. unfold framing_rejected.
    by rewrite F1, F2, F3, F4, F5, F6.
  - unfold frame in Hframe. congruence.
  - unfold frame in Hframe. congruence.
Qed.

Definition sample_upstream : UpstreamConfig := mkUpstream "10.0.0.7" 8080.

Definition sample_ctx (hs : headers) (body : bytes) : HttpContext :=
  mkContext "POST" "/orders" body hs 200 [] [] [] None None "10.0.0.9" false.

Lemma part_literal s : forallb (λ c, line_safe c && negb (ceqb c " ")) s = true → s ≠ [] → line_part s.
Proof.
  intros Hs Hne. split; [done|]. rewrite forallb_forall in Hs. apply Forall_forall. intros c Hc%list_elem_of_In.
  specialize (Hs _ Hc). apply andb_true_iff in Hs as [H1 H2]. split; [by apply line_safe_spec|]. by apply negb_true_iff, ceqb_ne in H2.
Qed.

Lemma proxy_request_framing_witness :
  let ctx := sample_ctx [("Transfer-Encoding" : bytes, "chunked" : bytes); ("Connection" : bytes, "x-a" : bytes);
                         ("X-A" : bytes, "1" : bytes); ("X-B" : bytes, "2" : bytes)] "hello" in
  let out := build_proxy_request "POST" "/orders" sample_upstream ctx (header_state_of (ctx_headers ctx)) true in
  out = [] ∨ ∃ hs, out = (("POST" ++ " " ++ "/orders" ++ " HTTP/1.1") ++ CRLF ++ render_headers hs) ++ CRLF ++ "hello" ∧
    default 0 (content_length (header_state_of hs)) = 5.
Proof.
  intros ctx out.
  destruct (proxy_request_framing "POST" "/orders" sample_upstream ctx true) as [Hout|(hs & Hout & _ & _ & _ & _ & _ & _ & _ & Hcl)].
  - split_and!; [by vm_compute| |done]. apply (bool_decide_eq_true_1 _). by vm_compute.
  - by vm_compute.
  - by apply part_literal.
  - by apply part_literal.
  - by apply quiet_literal.
  - cbn. lia.
  - left. exact Hout.
  - right. exists hs. split; [exact Hout|exact Hcl].
Defined.

(** ** Connection: content-length *)

(** Then nothing that is forwarded frames the body. *)
Lemma kept_dropped_unframed ctx : contains_header_name (request_filtered ctx) "content-length" = true →
  names_trimmed (ctx_headers ctx) → named "transfer-encoding" (ctx_headers ctx) = [] →
  Forall unframed (filter (λ kv, kept_request (request_filtered ctx) false false kv = true) (ctx_headers ctx)).
Proof.
  intros Hc Ht Hte. apply Forall_forall. intros kv [Hk Hin]%list_elem_of_filter.
  unfold names_trimmed in Ht. rewrite Forall_forall in Ht.
  assert (header_iequals kv.1 "transfer-encoding" = false) as Hn by (by eapply not_named).
  split_and!; [by apply Ht| |done]. apply not_true_is_false. intros Hcl.
  unfold kept_request in Hk. rewrite Hn in Hk. apply negb_true_iff, not_true_iff_false in Hk. apply Hk.
  unfold contains_header_name in *. apply existsb_exists in Hc as (n & Hin' & He). apply existsb_exists.
  exists n. split; [done|]. eapply header_iequals_trans; [exact He|]. by rewrite header_iequals_sym.
Qed.

(** a request whose Connection header lists Content-Length is forwarded with
    its body but without the header that delimits it: for every such request that
    the gateway accepts with a Content-Length body, the upstream derives neither a
    length nor a transfer coding from what it is sent, and would take the body for
    the next request on the connection. *)
Lemma connection_drops_content_length method path cfg ctx ka :
  let st := header_state_of (ctx_headers ctx) in
  framing_rejected st = false → is_chunked st = false → Forall field_safe (ctx_headers ctx) →
  contains_header_name (request_filtered ctx) "content-length" = true →
  ∃ hs, build_proxy_request method path cfg ctx st ka =
      (method ++ " " ++ path ++ " HTTP/1.1") ++ CRLF ++ render_headers hs ++ CRLF ++ ctx_body ctx ∧
    framing_rejected (header_state_of hs) = false ∧ has_transfer_encoding (header_state_of hs) = false ∧
    content_length (header_state_of hs) = None.
Proof.
  intros st Hrej Hch Hs Hc. pose proof (framing_rejected_flags _ Hrej) as Hflags.
  pose proof (accepted_names _ Hflags) as Hnames.
  pose proof (framing_inv_holds _ Hflags) as (_ & _ & _ & Hnamed). fold st in Hnamed. rewrite Hch in Hnamed.
  exists (request_fields cfg ctx st ka). split; [by apply build_proxy_fields|].
  assert (frame (header_state_of (request_fields cfg ctx st ka)) = frame header_state0) as Hframe.
  { unfold request_fields. cbv zeta. rewrite Hch.
    assert (existsb (λ kv, header_iequals (trim_view kv.1) "transfer-encoding") (ctx_headers ctx) = false) as ->.
    { apply not_true_is_false. intros Hx. by apply named_te_exists in Hx. }
    unfold header_state_of. rewrite !foldl_app, keep_alive_frame, frame_all_unframed by (by apply kept_dropped_unframed).
    apply host_frame. }
  split; [by rewrite (frame_rejected _ header_state0)|].
  unfold frame in Hframe. injection Hframe as F0 F1 F2 F3 F4 F5 F6. by rewrite F0, F5.
Qed.

Lemma connection_drops_content_length_witness :
  let smuggled := ("GET /admin HTTP/1.1" : bytes) ++ CRLF ++ "Host: a" ++ CRLF ++ CRLF in
  let ctx := sample_ctx [("Content-Length" : bytes, to_string (slen smuggled));
                         ("Connection" : bytes, "content-length" : bytes)] smuggled in
  body_as_framed ctx ∧
  ∃ hs, build_proxy_request "POST" "/orders" sample_upstream ctx (header_state_of (ctx_headers ctx)) true =
      ("POST" ++ " " ++ "/orders" ++ " HTTP/1.1") ++ CRLF ++ render_headers hs ++ CRLF ++ smuggled ∧
    content_length (header_state_of hs) = None.
Proof.
  intros smuggled ctx. split.
  { split_and!; [by vm_compute|apply (bool_decide_eq_true_1 _); by vm_compute|by vm_compute]. }
  destruct (connection_drops_content_length "POST" "/orders" sample_upstream ctx true) as (hs & Hout & _ & _ & Hcl).
  - by vm_compute.
  - by vm_compute.
  - apply (bool_decide_eq_true_1 _). by vm_compute.
  - by vm_compute.
  - exists hs. split; [exact Hout|exact Hcl].
Defined.

(** ** Reading a response *)

Lemma read_head_sound sk buf buf' sk' : read_head sk buf = Done (inr buf', sk') →
  stream sk buf = stream sk' buf' ∧ is_Some (find_str CRLF2 buf').
Proof.
  revert buf. induction sk as [|ev sk IH]; intros buf; cbn [read_head];
    destruct (find_str CRLF2 buf) eqn:F.
  1,3: intros [= <- <-]; rewrite F; by eauto.
  - by destruct (kMaxHeaderSize <? slen buf).
  - destruct (kMaxHeaderSize <? slen buf); [done|]. destruct (io_ok _); [|done]. rewrite stream_cons. apply IH.
Qed.

Lemma read_head_fueled sk buf : read_head sk buf ≠ OutOfFuel.
Proof.
  revert buf. induction sk as [|ev sk IH]; intros buf; cbn [read_head];
    destruct (find_str CRLF2 buf); try done; destruct (kMaxHeaderSize <? slen buf); try done.
  destruct (io_ok _); [apply IH|done].
Qed.

(** [hb] is the header block of the head [h]. *)
Definition block_of (hb : bytes) (h : response_head) : Prop :=
  parse_block hb = inl (rh_response h, rh_state h, rh_http10 h).

Lemma parse_head_sound buf h : parse_head buf = inl h →
  ∃ hb, buf = hb ++ CRLF2 ++ rh_rest h ∧ block_of hb h ∧ slen hb ≤ kMaxHeaderSize.
Proof.
  unfold parse_head. destruct (find_str CRLF2 buf) as [e|] eqn:F; [|done].
  destruct (kMaxHeaderSize <? Z.of_nat e) eqn:Hz; [done|]. apply Z.ltb_ge in Hz.
  destruct (parse_block (take e buf)) as [[[resp st] h10]|] eqn:P; [|done]. intros [= <-].
  destruct (find_str_Some _ _ _ F) as [Hb Hl]. exists (take e buf). split_and!; [exact Hb|exact P|].
  unfold slen. rewrite length_take. lia.
Qed.

(** A header block the reader skips. *)
Definition informational_block (hb : bytes) : Prop :=
  ∃ h, block_of hb h ∧ is_informational (pr_status (rh_response h)) = true ∧
    has_transfer_encoding (rh_state h) = false ∧ content_length (rh_state h) = None.

Lemma read_final_head_sound fuel count sk buf h sk' :
  read_final_head fuel count sk buf = Done (inl h, sk') → 0 ≤ count ≤ 8 →
  ∃ infos hb, stream sk buf = concat ((λ i, i ++ CRLF2) <$> infos) ++ hb ++ CRLF2 ++ stream sk' (rh_rest h) ∧
    Forall informational_block infos ∧ count + Z.of_nat (length infos) ≤ 8 ∧
    block_of hb h ∧ is_informational (pr_status (rh_response h)) = false.
Proof.
  revert count sk buf. induction fuel as [|f IH]; intros count sk buf; [done|]. cbn [read_final_head].
  destruct (read_head sk buf) as [[[e|buf1] sk1]| |] eqn:R; try done.
  destruct (read_head_sound _ _ _ _ R) as [-> _].
  destruct (parse_head buf1) as [h1|] eqn:P; [|done].
  destruct (parse_head_sound _ _ P) as (hb & Hb & Hblock & _).
  assert (stream sk1 buf1 = hb ++ CRLF2 ++ stream sk1 (rh_rest h1)) as Hs.
  { unfold stream. rewrite Hb at 1. by rewrite <- !app_assoc. }
  destruct (is_informational (pr_status (rh_response h1))) eqn:Hi.
  - destruct (_ || match _ with _ => _ end) eqn:Hbad; [done|]. destruct (8 <? count + 1) eqn:Hc; [done|]. apply Z.ltb_ge in Hc.
    intros Hrec Hn. destruct (IH _ _ _ Hrec ltac:(lia)) as (infos & hb' & Hs' & Hinf & Hcnt & Hrest).
    exists (hb :: infos), hb'. rewrite fmap_cons. cbn [concat length]. split_and!; [|constructor; [|done]|lia|apply Hrest..].
    + by rewrite Hs, Hs', <- !app_assoc.
    + apply orb_false_iff in Hbad as [[_ Hte]%orb_false_iff Hcl]. exists h1. split_and!; [done..|].
      by destruct (content_length (rh_state h1)).
  - intros [= <- <-] Hn. exists [], hb. cbn [length]. split_and!; [done|constructor|lia|done|done].
Qed.

Lemma read_final_head_fueled fuel count sk buf : 0 ≤ count → 9 ≤ count + Z.of_nat fuel →
  (0 < fuel)%nat → read_final_head fuel count sk buf ≠ OutOfFuel.
Proof.
  revert count sk buf. induction fuel as [|f IH]; intros count sk buf Hc Hf Hp; [lia|]. cbn [read_final_head].
  destruct (read_head sk buf) as [[[e|buf1] sk1]| |] eqn:R; try done; [|by apply read_head_fueled in R].
  destruct (parse_head buf1) as [h1|]; [|done]. destruct (is_informational _); [|done].
  case_match; [done|]. destruct (8 <? count + 1) eqn:Hc'; [done|]. apply Z.ltb_ge in Hc'.
  apply IH; lia.
Qed.

(** A parsed length is not negative. *)
Definition length_ok (st : HeaderParseState) : Prop := ∀ n, content_length st = Some n → 0 ≤ n.

Lemma update_length_ok k v st : length_ok st → length_ok (update_header_state k v st).
Proof.
  intros Hst. unfold update_header_state.
  assert (∀ st', content_length st' = content_length st → length_ok st') as Hsame.
  { intros st' Heq n Hn. apply Hst. congruence. }
  set (st1 := if slen (trim_view k) =? slen k then st else set_invalid_header_name st).
  assert (length_ok st1) as H1 by (unfold st1; case_if; [done|by apply Hsame]). clearbody st1. clear Hsame Hst.
  case_if; [|case_if; [|case_if; [|done]]].
  - destruct st1 as [cl ? ? ? ? ? ? ? ?]. unfold update_content_length.
    destruct (parse_decimal_size (trim_view v)) as [p|] eqn:Hp; [|done].
    assert (0 ≤ p) as Hpos.
    { apply parse_decimal_size_correct in Hp as (_ & Hd & -> & _). by apply dec_value_from_ge. }
    destruct cl as [q|]; [case_if; [done|]|]; intros n [= <-]; done.
  - destruct st1. unfold update_transfer_encoding. by destruct (foldl transfer_coding_step _ _) as [[? ?] ?].
  - destruct st1. unfold update_connection. by destruct (split_connection_tokens _).
Qed.

Lemma parse_fields_length_ok hdr acc : length_ok acc.2 → length_ok (parse_header_fields hdr acc).2.
Proof.
  unfold parse_header_fields. generalize (split_crlf hdr). intros ls. revert acc.
  induction ls as [|l ls IH]; intros [hs st] Hst; [done|]. cbn [foldl]. apply IH.
  destruct l as [|c l]; [done|]. unfold parse_header_line_into.
  destruct (find_char _ _); [|done]. by apply update_length_ok.
Qed.

Lemma block_of_facts hb h : block_of hb h →
  length_ok (rh_state h) ∧ pr_error (rh_response h) = [] ∧ pr_body (rh_response h) = [].
Proof.
  unfold block_of, parse_block. destruct (parse_http_status_line _) as [[c t]|]; [|done].
  set (hdr := match find_str CRLF hb with Some e => _ | None => _ end).
  pose proof (parse_fields_length_ok hdr ([], header_state0) ltac:(done)) as Hl.
  destruct (parse_header_fields hdr _) as [hs st]. destruct (_ || (_ && _)); [done|].
  intros [= <- <- _]. done.
Qed.

(** The bytes [wire] that carry [body] under a final head. *)
Definition body_on_wire (no_body : bool) (st : HeaderParseState) (body wire : bytes) : Prop :=
  if no_body then body = [] ∧ wire = []
  else if is_chunked st then chunked crlf_free body wire
  else content_length st = Some (slen body) ∧ wire = body.

(** What must hold of an exchange for its connection to be reused. *)
Definition exchange_complete (sk : sock) (buf : bytes) (max_body_size : Z) (request_is_head : bool)
    (resp : ProxyResponse) (rest : bytes) (sk' : sock) : Prop :=
  ∃ infos hb h wire,
    stream sk buf = concat ((λ i, i ++ CRLF2) <$> infos) ++ hb ++ CRLF2 ++ wire ++ stream sk' rest ∧
    Forall informational_block infos ∧ (length infos ≤ 8)%nat ∧
    block_of hb h ∧ resp = with_body (rh_response h) (pr_body resp) ∧
    is_informational (pr_status resp) = false ∧
    connection_close (rh_state h) = false ∧ (rh_http10 h = true → connection_keep_alive (rh_state h) = true) ∧
    body_on_wire (request_is_head || (pr_status resp =? 204) || (pr_status resp =? 304))
      (rh_state h) (pr_body resp) wire ∧
    slen (pr_body resp) ≤ max_body_size.

Lemma read_content_length_fueled sk pre n m : read_content_length_body sk pre n m ≠ OutOfFuel.
Proof.
  unfold read_content_length_body. repeat case_match; simplify_eq; try done.
  exfalso. by eapply consume_exact_fueled.
Qed.

Lemma read_until_eof_fueled sk body m : read_until_eof sk body m ≠ OutOfFuel.
Proof.
  revert body. induction sk as [|ev sk IH]; intros body; cbn [read_until_eof]; [done|].
  destruct (io_ok _); [destruct (_ <? _); [done|apply IH]|by destruct (bool_decide _)].
Qed.

Lemma read_proxy_response_fueled sk conn m head : 0 ≤ m ≤ SIZE_MAX - 2 →
  read_proxy_response sk conn m head ≠ OutOfFuel.
Proof.
  intros Hm. unfold read_proxy_response.
  destruct (read_final_head _ _ _ _) as [[[h|r] sk1]| |] eqn:E; try done.
  2:{ exfalso. by apply read_final_head_fueled in E; unfold head_fuel; try lia. }
  destruct (_ || (_ =? 304)); [done|]. destruct (is_chunked _).
  { destruct (read_chunked_body _ _ _) as [[[r rest] sk2]| |] eqn:C; [by destruct (body_ok r)|done|].
    exfalso. apply read_chunks_fueled in C; [done|unfold chunk_fuel; lia|done]. }
  destruct (content_length _) as [n|].
  { destruct (read_content_length_body _ _ _ _) as [[[r rest] sk2]| |] eqn:C; [by destruct (body_ok r)|done|].
    by apply read_content_length_fueled in C. }
  destruct (_ <? _); [done|]. destruct (read_until_eof _ _ _) as [[[e|b] sk2]| |] eqn:C; try done.
  by apply read_until_eof_fueled in C.
Qed.

(** The three ways to keep a connection. *)
Lemma body_kept sk sk1 buf m head h infos hb body wire rest sk' :
  stream sk buf = concat ((λ i, i ++ CRLF2) <$> infos) ++ hb ++ CRLF2 ++ stream sk1 (rh_rest h) →
  Forall informational_block infos → 0 + Z.of_nat (length infos) ≤ 8 → block_of hb h →
  is_informational (pr_status (rh_response h)) = false →
  connection_close (rh_state h) || (rh_http10 h && negb (connection_keep_alive (rh_state h))) = false →
  stream sk1 (rh_rest h) = wire ++ stream sk' rest →
  body_on_wire (head || (pr_status (rh_response h) =? 204) || (pr_status (rh_response h) =? 304))
    (rh_state h) body wire →
  slen body ≤ m →
  exchange_complete sk buf m head (with_body (rh_response h) body) rest sk'.
Proof.
  intros Hs Hinf Hn Hb Hi Hc Hw Hbody Hm. apply orb_false_iff in Hc as [Hc1 Hc2].
  exists infos, hb, h, wire. rewrite Hw in Hs. split_and!; [done|done|lia|done|done|done|done| |done|done].
  intros H10. rewrite H10 in Hc2. by destruct (connection_keep_alive _).
Qed.

(** a connection is reused only after a complete exchange.  Reading a
    response always ends (or waits for the socket); a reported error always closes
    the connection; and when the connection is not marked for closing, there is no
    error and the bytes taken from the socket are, exactly, at most eight skipped
    informational heads without framing headers, a final head with unambiguous
    framing that allows keep-alive, and the body that framing announces, so that
    the bytes kept in the read buffer and those still to come belong to the next
    exchange. *)
Lemma proxy_response_reuse sk conn max_body_size request_is_head :
  0 ≤ max_body_size ≤ SIZE_MAX - 2 →
  read_proxy_response sk conn max_body_size request_is_head ≠ OutOfFuel ∧
  (∀ resp conn' sk',
     read_proxy_response sk conn max_body_size request_is_head = Done (resp, conn', sk') →
     (pr_error resp ≠ [] → connection_close_flag conn' = true) ∧
     (connection_close_flag conn' = false →
        pr_error resp = [] ∧
        exchange_complete sk (read_buffer conn) max_body_size request_is_head resp (read_buffer conn') sk')).
Proof.
  intros Hm. split; [by apply read_proxy_response_fueled|]. intros resp conn' sk'. unfold read_proxy_response.
  destruct (read_final_head _ _ _ _) as [[[h|r] sk1]| |] eqn:E; try done; [|by intros [= <- <- <-]].
  apply read_final_head_sound in E as (infos & hb & Hs & Hinf & Hn & Hb & Hi); [|lia].
  destruct (block_of_facts _ _ Hb) as (Hlen & Herr & Hbody0).
  pose proof (λ body wire rest sk', body_kept sk sk1 (read_buffer conn) max_body_size request_is_head h infos hb
                body wire rest sk' Hs Hinf Hn Hb Hi) as Hkeep.
  set (no_body := request_is_head || _ || _) in *. destruct no_body eqn:Hno; cbn [body_on_wire] in Hkeep.
  { intros [= <- <- <-]. rewrite Herr. split; [done|]. cbn [connection_close_flag read_buffer].
    intros [Hc Hrest%negb_false_iff%beqb_eq]%orb_false_iff. split; [done|].
    replace (rh_response h) with (with_body (rh_response h) []) by (unfold with_body; rewrite <- Hbody0; by destruct (rh_response h)).
    apply (Hkeep [] []); [done|by rewrite Hrest|done|change (slen []) with 0; lia]. }
  unfold body_on_wire in Hkeep. destruct (is_chunked (rh_state h)) eqn:Hch.
  { destruct (read_chunked_body _ _ _) as [[[r rest] sk2]| |] eqn:C; try done.
    destruct (body_ok r) eqn:Hok; intros [= <- <- <-]; [|by split].
    split; [done|]. intros Hc. split; [done|].
    apply read_chunks_sound in C as (body & wire & Hwire & Hbytes & Hst & Hmax);
      [|done|change (slen []) with 0; lia|by apply (bool_decide_eq_true_1 _)].
    cbn [app] in Hbytes, Hmax. rewrite Hbytes. by apply (Hkeep body wire). }
  destruct (content_length (rh_state h)) as [n|] eqn:Hcl.
  { destruct (read_content_length_body _ _ _ _) as [[[r rest] sk2]| |] eqn:C; try done.
    destruct (body_ok r) eqn:Hok; intros [= <- <- <-]; [|by split].
    split; [done|]. intros Hc. split; [done|].
    apply read_content_length_sound in C as (Hn' & Hmax & Hst); [|by apply Hlen|done].
    apply (Hkeep (body_bytes r) (body_bytes r)); [done|done| |lia]. by rewrite Hn'. }
  destruct (_ <? _); [by intros [= <- <- <-]|].
  destruct (read_until_eof _ _ _) as [[[e|b] sk2]| |]; try done; by intros [= <- <- <-].
Qed.

Lemma proxy_response_reuse_witness :
  let head := ("HTTP/1.1 103 Early Hints" : bytes) ++ CRLF ++ "Link: a" ++ CRLF ++ CRLF ++
              ("HTTP/1.1 200 OK" : bytes) ++ CRLF ++ "Content-Length: 5" ++ CRLF ++ CRLF in
  let sk := [mkRead ec_none false head; mkRead ec_none false "hel"; mkRead ec_none false "loNEXT"] in
  ∃ resp, read_proxy_response sk (mkConn false []) 1024 false = Done (resp, mkConn false "NEXT", []) ∧
    pr_body resp = "hello" ∧ exchange_complete sk [] 1024 false resp "NEXT" [].
Proof.
  intros head sk. set (out := read_proxy_response sk (mkConn false []) 1024 false).
  assert (∃ resp, out = Done (resp, mkConn false "NEXT", []) ∧ pr_body resp = "hello") as (resp & Hout & Hbody).
  { vm_compute. eexists. by split. }
  exists resp. split; [done|]. split; [done|].
  by apply (proj2 (proxy_response_reuse sk (mkConn false []) 1024 false ltac:(vm_compute; split; discriminate)) _ _ _ Hout).
Defined.
