(* ===== verification/JsonTransform.v ===== *)
(** * Response key transform (src/src/http/json_transform.hpp)

    The gateway rewrites the object keys of upstream JSON bodies from snake_case
    to camelCase in one pass over the bytes.  The theorem relates the pass to JSON
    values: on the text of any JSON value, with any layout, it renames the keys
    and nothing else. *)

From S2P Require Import Prelude.

(** ** The pass *)

Inductive ScopeKind := Object | Array.

Record Scope := mkScope { kind : ScopeKind; expect_key : bool }.

(** The stack of scopes (innermost first) and the three flags. *)
Record jstate := mkJState {
  scopes : list Scope;
  in_string : bool;
  in_key : bool;
  next_upper : bool
}.

Definition current_object_expects_key (scs : list Scope) : bool :=
  match scs with mkScope Object b :: _ => b | _ => false end.

Definition set_expect (scs : list Scope) (b : bool) : list Scope :=
  match scs with mkScope Object _ :: t => mkScope Object b :: t | _ => scs end.

(** A byte inside a string, other than the start of an escape: what is written
    and the new state. *)
Definition string_byte (c : ascii) (st : jstate) : bytes * jstate :=
  if ceqb c DQUOTE then
    ([c], mkJState (if in_key st then set_expect (scopes st) false else scopes st) false false false)
  else if in_key st then
    if ceqb c "_" then ([], mkJState (scopes st) true true true)
    else if next_upper st then ([toupper c], mkJState (scopes st) true true false)
    else ([c], st)
  else ([c], st).

(** A byte outside of strings. *)
Definition plain_byte (c : ascii) (st : jstate) : jstate :=
  let scs := scopes st in
  if ceqb c DQUOTE then mkJState scs true (current_object_expects_key scs) false
  else if ceqb c "{" then mkJState (mkScope Object true :: scs) false (in_key st) (next_upper st)
  else if ceqb c "[" then mkJState (mkScope Array false :: scs) false (in_key st) (next_upper st)
  else if ceqb c "}" || ceqb c "]" then mkJState (tail scs) false (in_key st) (next_upper st)
  else if ceqb c "," then mkJState (set_expect scs true) false (in_key st) (next_upper st)
  else st.

Definition json_step (c : ascii) (st : jstate) : bytes * jstate :=
  if in_string st then string_byte c st else ([c], plain_byte c st).

Fixpoint transform_loop (json : bytes) (st : jstate) : bytes :=
  match json with
  | [] => []
  | c :: t =>
      match t with
      | d :: t' =>
          if in_string st && ceqb c BACKSLASH then c :: d :: transform_loop t' st
          else let '(out, st') := json_step c st in out ++ transform_loop t st'
      | [] => (json_step c st).1
      end
  end.

Definition json_keys_snake_to_camel (json : bytes) : bytes :=
  transform_loop json (mkJState [] false false false).

(** ** JSON values and their text *)

(** A character of a string: itself, or the byte after a backslash. *)
Inductive jchar := Plain (c : ascii) | Esc (d : ascii).

(** [JPad] is a value with white space around it; the white space before the
    first element and around keys is given with the container. *)
Inductive json :=
| JStr (s : list jchar)
| JAtom (text : bytes)
| JArr (w : bytes) (elems : list json)
| JObj (w : bytes) (members : list (list jchar * bytes * bytes * json))
| JPad (before : bytes) (v : json) (behind : bytes).

Definition jchar_text (x : jchar) : bytes := match x with Plain c => [c] | Esc d => [BACKSLASH; d] end.
Definition string_text (s : list jchar) : bytes := DQUOTE :: concat (jchar_text <$> s) ++ [DQUOTE].

Definition commas (l : list bytes) : bytes :=
  match l with [] => [] | x :: t => x ++ concat ((λ y, "," ++ y) <$> t) end.

(** A member is a key, the white space around the key and the value. *)
Fixpoint json_text (v : json) : bytes :=
  match v with
  | JStr s => string_text s
  | JAtom a => a
  | JArr w es => "[" ++ w ++ commas (json_text <$> es) ++ "]"
  | JObj w ms =>
      "{" ++ w ++ commas ((λ m : list jchar * bytes * bytes * json,
                            m.1.1.2 ++ string_text m.1.1.1 ++ m.1.2 ++ ":" ++ json_text m.2) <$> ms) ++ "}"
  | JPad b v a => b ++ json_text v ++ a
  end.

(** Bytes that cannot be confused with structure. *)
Definition neutral (c : ascii) : bool :=
  negb (ceqb c DQUOTE || ceqb c "{" || ceqb c "[" || ceqb c "}" || ceqb c "]" || ceqb c ",").

Definition jchar_ok (x : jchar) : Prop :=
  match x with Plain c => c ≠ DQUOTE ∧ c ≠ BACKSLASH | Esc _ => True end.

#[export] Instance jchar_ok_dec x : Decision (jchar_ok x).
Proof. destruct x; unfold jchar_ok; apply _. Defined.

Fixpoint json_ok (v : json) : Prop :=
  match v with
  | JStr s => Forall jchar_ok s
  | JAtom a => Forall (λ c, neutral c = true) a
  | JArr w es => Forall (λ c, neutral c = true) w ∧ foldr (λ e P, json_ok e ∧ P) True es
  | JObj w ms =>
      Forall (λ c, neutral c = true) w ∧
      foldr (λ (m : list jchar * bytes * bytes * json) P,
               (Forall jchar_ok m.1.1.1 ∧ Forall (λ c, neutral c = true) m.1.1.2 ∧
                Forall (λ c, neutral c = true) m.1.2 ∧ json_ok m.2) ∧ P) True ms
  | JPad b v a => Forall (λ c, neutral c = true) b ∧ json_ok v ∧ Forall (λ c, neutral c = true) a
  end.

(** snake_case to camelCase: underscores go, and the next unescaped character
    is put in upper case. *)
Fixpoint camel (up : bool) (s : list jchar) : list jchar :=
  match s with
  | [] => []
  | Plain c :: t =>
      if ceqb c "_" then camel true t
      else Plain (if up then toupper c else c) :: camel false t
  | Esc d :: t => Esc d :: camel up t
  end.

Fixpoint camel_keys (v : json) : json :=
  match v with
  | JStr s => JStr s
  | JAtom a => JAtom a
  | JArr w es => JArr w (camel_keys <$> es)
  | JObj w ms => JObj w ((λ m : list jchar * bytes * bytes * json,
                            (camel false m.1.1.1, m.1.1.2, m.1.2, camel_keys m.2)) <$> ms)
  | JPad b v a => JPad b (camel_keys v) a
  end.

(** ** The pass follows the structure *)

Lemma loop_plain c t st : in_string st = false →
  transform_loop (c :: t) st = c :: transform_loop t (plain_byte c st).
Proof. intros Hs. destruct t; cbn [transform_loop]; unfold json_step; rewrite Hs; done. Qed.

Lemma loop_string c t st : in_string st = true → c ≠ BACKSLASH →
  transform_loop (c :: t) st = (string_byte c st).1 ++ transform_loop t (string_byte c st).2.
Proof.
  intros Hs Hc. destruct t; cbn [transform_loop]; unfold json_step; rewrite Hs.
  - by rewrite app_nil_r.
  - rewrite (proj2 (ceqb_ne _ _) Hc). cbn [andb]. by destruct (string_byte c st).
Qed.

Lemma loop_escape d t st : in_string st = true →
  transform_loop (BACKSLASH :: d :: t) st = BACKSLASH :: d :: transform_loop t st.
Proof. intros Hs. cbn [transform_loop]. by rewrite Hs, ceqb_refl. Qed.

Lemma neutral_step c st : neutral c = true → plain_byte c st = st.
Proof.
  unfold neutral, plain_byte. intros Hc. apply negb_true_iff in Hc. rewrite !orb_false_iff in Hc.
  destruct Hc as (((((-> & ->) & ->) & ->) & ->) & ->). done.
Qed.

Lemma loop_neutral w rest st : in_string st = false → Forall (λ c, neutral c = true) w →
  transform_loop (w ++ rest) st = w ++ transform_loop rest st.
Proof.
  intros Hs. induction 1 as [|c w Hc _ IH]; [done|]. cbn [app]. rewrite loop_plain by done.
  rewrite neutral_step by done. by rewrite IH.
Qed.

(** The state between tokens. *)
Abbreviation outside scs := (mkJState scs false false false).

Lemma loop_value_string s scs rest : Forall jchar_ok s →
  transform_loop (concat (jchar_text <$> s) ++ DQUOTE :: rest) (mkJState scs true false false) =
  concat (jchar_text <$> s) ++ DQUOTE :: transform_loop rest (outside scs).
Proof.
  induction 1 as [|x s Hx _ IH].
  - cbn [fmap list_fmap concat app]. rewrite loop_string by done. unfold string_byte. by rewrite ceqb_refl.
  - rewrite fmap_cons. cbn [concat]. rewrite <- !app_assoc. destruct x as [c|d]; cbn [jchar_text app].
    + destruct Hx as [Hq Hb]. rewrite loop_string by done. unfold string_byte.
      rewrite (proj2 (ceqb_ne _ _) Hq). cbn [in_key fst snd app]. by rewrite IH.
    + rewrite loop_escape by done. by rewrite IH.
Qed.

Lemma loop_key_string s scs up rest : Forall jchar_ok s →
  transform_loop (concat (jchar_text <$> s) ++ DQUOTE :: rest) (mkJState scs true true up) =
  concat (jchar_text <$> camel up s) ++ DQUOTE :: transform_loop rest (outside (set_expect scs false)).
Proof.
  intros Hs. revert up. induction Hs as [|x s Hx _ IH]; intros up.
  - cbn [fmap list_fmap concat app camel]. rewrite loop_string by done. unfold string_byte. by rewrite ceqb_refl.
  - rewrite fmap_cons. cbn [concat]. rewrite <- !app_assoc. destruct x as [c|d]; cbn [jchar_text app camel].
    + destruct Hx as [Hq Hb]. rewrite loop_string by done. unfold string_byte.
      rewrite (proj2 (ceqb_ne _ _) Hq). cbn [in_key scopes next_upper].
      destruct (ceqb c "_"); [cbn [fst snd app]; by rewrite IH|]. rewrite fmap_cons.
      destruct up; cbn [fst snd app concat jchar_text]; by rewrite IH.
    + rewrite loop_escape by done. rewrite IH, fmap_cons. done.
Qed.

Lemma loop_str s scs rest : Forall jchar_ok s → current_object_expects_key scs = false →
  transform_loop (string_text s ++ rest) (outside scs) = string_text s ++ transform_loop rest (outside scs).
Proof.
  intros Hs He. unfold string_text. cbn [app]. rewrite <- !app_assoc. cbn [app]. rewrite loop_plain by done.
  unfold plain_byte. rewrite ceqb_refl. cbn [scopes]. rewrite He. by rewrite loop_value_string.
Qed.

Lemma loop_key s scs rest : Forall jchar_ok s →
  transform_loop (string_text s ++ rest) (outside (mkScope Object true :: scs)) =
  string_text (camel false s) ++ transform_loop rest (outside (mkScope Object false :: scs)).
Proof.
  intros Hs. unfold string_text. cbn [app]. rewrite <- !app_assoc. cbn [app]. rewrite loop_plain by done.
  unfold plain_byte. rewrite ceqb_refl. cbn [scopes current_object_expects_key]. by rewrite loop_key_string.
Qed.

(** A value leaves the state as it was. *)
Definition transparent (v : json) : Prop :=
  ∀ scs rest, current_object_expects_key scs = false →
    transform_loop (json_text v ++ rest) (outside scs) =
    json_text (camel_keys v) ++ transform_loop rest (outside scs).

Lemma loop_elements es scs rest : Forall transparent es →
  transform_loop (commas (json_text <$> es) ++ "]" ++ rest) (outside (mkScope Array false :: scs)) =
  commas (json_text <$> (camel_keys <$> es)) ++ "]" ++ transform_loop rest (outside scs).
Proof.
  intros Hes.
  assert (∀ r, transform_loop ("]" ++ r) (outside (mkScope Array false :: scs)) =
               "]" ++ transform_loop r (outside scs)) as Hend by (intros r; by apply loop_plain).
  destruct Hes as [|e es He Hes]; [apply Hend|]. rewrite !fmap_cons. cbn [commas]. rewrite <- !app_assoc, He by done.
  f_equal. clear He. induction Hes as [|x es Hx _ IH]; [apply Hend|].
  rewrite !fmap_cons. cbn [concat]. rewrite <- !app_assoc.
  change (("," : bytes) ++ json_text x ++ ?r) with (","%char :: json_text x ++ r).
  rewrite loop_plain by done. change (plain_byte "," (outside ?s)) with (outside s).
  rewrite Hx by done. by rewrite IH.
Qed.

(** The text of a member. *)
Definition member_text (m : list jchar * bytes * bytes * json) : bytes :=
  m.1.1.2 ++ string_text m.1.1.1 ++ m.1.2 ++ ":" ++ json_text m.2.

Definition camel_member (m : list jchar * bytes * bytes * json) : list jchar * bytes * bytes * json :=
  (camel false m.1.1.1, m.1.1.2, m.1.2, camel_keys m.2).

Definition member_ok (m : list jchar * bytes * bytes * json) : Prop :=
  Forall jchar_ok m.1.1.1 ∧ Forall (λ c, neutral c = true) m.1.1.2 ∧
  Forall (λ c, neutral c = true) m.1.2 ∧ transparent m.2.

Lemma loop_member m scs rest : member_ok m →
  transform_loop (member_text m ++ rest) (outside (mkScope Object true :: scs)) =
  member_text (camel_member m) ++ transform_loop rest (outside (mkScope Object false :: scs)).
Proof.
  destruct m as [[[k w1] w2] v]. intros (Hk & H1 & H2 & Hv). cbn [fst snd] in *.
  unfold member_text, camel_member. cbn [fst snd]. rewrite <- !app_assoc.
  rewrite loop_neutral by done. rewrite loop_key by done. rewrite loop_neutral by done.
  change ((":" : bytes) ++ json_text v ++ rest) with (":"%char :: json_text v ++ rest).
  rewrite loop_plain by done. rewrite neutral_step by done. rewrite Hv by done. done.
Qed.

Lemma loop_members ms scs rest : Forall member_ok ms →
  transform_loop (commas (member_text <$> ms) ++ "}" ++ rest) (outside (mkScope Object true :: scs)) =
  commas (member_text <$> (camel_member <$> ms)) ++ "}" ++ transform_loop rest (outside scs).
Proof.
  intros Hms.
  assert (∀ b r, transform_loop ("}" ++ r) (outside (mkScope Object b :: scs)) =
                 "}" ++ transform_loop r (outside scs)) as Hend by (intros b r; by apply loop_plain).
  destruct Hms as [|m ms Hm Hms]; [apply Hend|]. rewrite !fmap_cons. cbn [commas].
  rewrite <- !app_assoc, loop_member by done.
  f_equal. clear Hm. induction Hms as [|x ms Hx _ IH]; [apply Hend|].
  rewrite !fmap_cons. cbn [concat]. rewrite <- !app_assoc.
  change (("," : bytes) ++ member_text x ++ ?r) with (","%char :: member_text x ++ r).
  rewrite loop_plain by done.
  change (plain_byte "," (outside (mkScope Object false :: scs))) with (outside (mkScope Object true :: scs)).
  rewrite loop_member by done. by rewrite IH.
Qed.

Lemma loop_value : ∀ v, json_ok v → transparent v.
Proof.
  fix IH 1. intros v Hv scs rest He. destruct v as [s|a|w es|w ms|b v a]; cbn [json_text camel_keys].
  - by apply loop_str.
  - by apply loop_neutral.
  - destruct Hv as [Hw Hes]. rewrite <- !app_assoc.
    assert (Forall transparent es) as Hall.
    { induction es as [|e es IHes]; [constructor|]. destruct Hes as [He' Hes]. constructor; [by apply IH|by apply IHes]. }
    change (("[" : bytes) ++ ?r) with ("["%char :: r). rewrite loop_plain by done.
    change (plain_byte "[" (outside scs)) with (outside (mkScope Array false :: scs)).
    rewrite loop_neutral by done. by rewrite loop_elements.
  - destruct Hv as [Hw Hms]. rewrite <- !app_assoc.
    assert (Forall member_ok ms) as Hall.
    { induction ms as [|m ms IHms]; [constructor|]. destruct Hms as [(? & ? & ? & ?) Hms].
      constructor; [|by apply IHms]. split_and!; [done..|]. by apply IH. }
    change (("{" : bytes) ++ ?r) with ("{"%char :: r). rewrite loop_plain by done.
    change (plain_byte "{" (outside scs)) with (outside (mkScope Object true :: scs)).
    rewrite loop_neutral by done.
    pose proof (loop_members ms scs rest Hall) as Hm. unfold member_text at 1 in Hm. rewrite Hm. done.
  - destruct Hv as (Hb & Hv & Ha). rewrite <- !app_assoc.
    rewrite loop_neutral by done. rewrite (IH v Hv) by done. by rewrite loop_neutral.
Qed.

(** the transform renames object keys and nothing else.  On the text of any
    JSON value, with any white space between its tokens and any escapes in its
    strings, the result is the text of the same value in which every object key,
    at every depth, is in camelCase; string values, numbers, literals, array
    elements and the layout are unchanged. *)
Lemma json_keys_transform v : json_ok v →
  json_keys_snake_to_camel (json_text v) = json_text (camel_keys v).
Proof.
  intros Hv. unfold json_keys_snake_to_camel.
  rewrite <- (app_nil_r (json_text v)), loop_value by done. by rewrite app_nil_r.
Qed.

Lemma json_keys_transform_witness :
  let key s : list jchar := Plain <$> (s : bytes) in
  let v := JObj " " [(key "user_id", [], [], JAtom " 7"); (key "a_list", " " : bytes, [], JArr []
             [JStr (key "snake_case"); JObj [] [(key "x_y" ++ [Esc "n"], [], " " : bytes, JStr [Esc "_"])]])] in
  json_keys_snake_to_camel (json_text v) = json_text (camel_keys v) ∧ json_text (camel_keys v) ≠ json_text v.
Proof.
  intros key v. split; [|by vm_compute]. apply (json_keys_transform v).
  repeat split; apply (bool_decide_eq_true_1 _); by vm_compute.
Defined.
