(* ===== verification/ClientSession.v ===== *)
(** * Client sessions (src/src/http/client_session.hpp)

    The parts of [ClientSession::run] that compose the other components once a
    request has been read: the choice of a local handler, the loop that pairs
    security rules with a route table while reloads are published, and the loop
    that forwards the request.  Reading the request and building the response are
    the subject of [BodyReader] and [Response].  The theorems show that a request
    is never matched against a route table newer than the rules that admitted it,
    and that a request is written to an upstream a second time only when that is
    safe. *)

From stdpp Require Import relations.
From S2P Require Import Prelude HttpProtocol HttpIo BodyReader PathRules Response HttpPool Upstream Proxy JsonTransform.

Definition is_idempotent_method (m : bytes) : bool :=
  beqb m "GET" || beqb m "HEAD" || beqb m "OPTIONS" || beqb m "TRACE".

(** ** The body of a request *)

Definition error_body (c : Z) (msg : bytes) : bytes :=
  "{" ++ quoted "code" ++ ":" ++ to_string c ++ "," ++ quoted "msg" ++ ":" ++ quoted msg ++ "}".

(** The answer to a body that could not be read. *)
Definition body_failure (status : BodyReadStatus) (msg : bytes) : Z * bytes :=
  if bool_decide (status = BodyTooLarge) then (413, error_body 413 "body too large")
  else if bool_decide (status = BodyTimeout) then (408, error_body 408 "request timeout")
  else (400, error_body 400 msg).

(** The body, or the answer; with what is left for the next request. *)
Definition read_request_body (sk : sock) (preread : bytes) (st : HeaderParseState) :
    co (((Z * bytes) + bytes) * bytes * sock) :=
  if framing_rejected st then Done (inl (400, error_body 400 "invalid request framing"), [], sk)
  else if is_chunked st then
    match read_chunked_body sk preread kMaxBodySize with
    | Suspended => Suspended
    | OutOfFuel => OutOfFuel
    | Done (r, preread', sk') =>
        Done (if body_ok r then inr (body_bytes r) else inl (body_failure (body_status r) "invalid chunked body"),
              preread', sk')
    end
  else match content_length st with
  | Some n =>
      match read_content_length_body sk preread n kMaxBodySize with
      | Suspended => Suspended
      | OutOfFuel => OutOfFuel
      | Done (r, preread', sk') =>
          Done (if body_ok r then inr (body_bytes r) else inl (body_failure (body_status r) "invalid request body"),
                preread', sk')
      end
  | None => Done (inr [], preread, sk)
  end.

(** ** Local routes *)

Section local_routes.
Context {H : Type}.

(** The longest registered prefix wins; among equals the first one. *)
Definition prefix_step (path : bytes) (acc : option H * Z) (route : bytes * H) : option H * Z :=
  let '(handler, matched_length) := acc in
  if (matched_length <? slen route.1) && starts_with route.1 path
  then (Some route.2, slen route.1) else acc.

Definition find_prefix_route (prefix_routes : list (bytes * H)) (path : bytes) : option H :=
  (foldl (prefix_step path) (None, 0) prefix_routes).1.

Definition local_route_path (path_str : bytes) : bytes :=
  match find_char "?" path_str with Some q => take q path_str | None => path_str end.

(** [routes.find], then the prefixes. *)
Definition local_handler (routes : bytes → option H) (prefix_routes : list (bytes * H)) (path_str : bytes) : option H :=
  let path := local_route_path path_str in
  match routes path with
  | Some h => Some h
  | None => find_prefix_route prefix_routes path
  end.
End local_routes.

(** ** Forwarding *)

Definition answer (ctx : HttpContext) (c : Z) (text body : bytes) (hs : headers) : HttpContext :=
  mkContext (ctx_method ctx) (ctx_path ctx) (ctx_body ctx) (ctx_headers ctx) c text body hs
    (ctx_principal ctx) (ctx_admin_principal ctx) (ctx_client_ip ctx) (ctx_jwt_disabled ctx).

(** [ctx.status_code = c; ctx.response_body = ...] *)
Definition fail_with (ctx : HttpContext) (c : Z) (msg : bytes) : HttpContext :=
  answer ctx c (response_status_text ctx) (error_body c msg) (response_headers ctx).

(** What one attempt meets: the result of [acquire], of the write, and of reading
    the response together with the close flag it leaves. *)
Inductive acquired := AcqThrow | AcqNull | AcqConn (reused_from_idle : bool).

Record attempt_io := mkAttempt {
  at_acquire : acquired;
  at_write : IoResult;
  at_response : outcome (ProxyResponse * bool)
}.

(** A connection the guard has returned: what was done with it, and whether it
    went back as good. *)
Record conn_use := mkUse {
  use_written : bool;
  use_response : option (outcome (ProxyResponse * bool));
  use_good : bool
}.

Record exchange := mkExchange {
  ex_ctx : HttpContext;
  ex_handled : bool;
  ex_proxy_response : bool;
  ex_writes : list bytes;
  ex_uses : list conn_use
}.

(** The body of an accepted response. *)
Definition transformed_body (enabled : bool) (hs : headers) (body : bytes) : bytes :=
  if enabled && negb (beqb body []) then
    let ct := get_header_value hs "content-type" in
    if negb (beqb ct []) && contains_str "application/json" ct then json_keys_snake_to_camel body else body
  else body.

Section forwarding.
Context (method_str : bytes) (upstream : RouteResult) (request_header_state : HeaderParseState) (pool_cfg : PoolConfig).

(** One round of the loop; the flag says that an exception left the loop. *)
Definition forward_attempt (attempt : Z) (io : attempt_io) (ex : exchange) : exchange * bool :=
  let '(mkExchange ctx _ proxied writes uses) := ex in
  match at_acquire io with
  | AcqThrow => (mkExchange (fail_with ctx 502 "Bad Gateway") true proxied writes uses, true)
  | AcqNull => (mkExchange (fail_with ctx 503 "no available connection") true proxied writes uses, false)
  | AcqConn reused =>
      let can_retry_stale_idle := reused && (attempt =? 0) && is_idempotent_method method_str in
      let forward_req := build_proxy_request method_str (upstream_path upstream) (route_config upstream) ctx
                           request_header_state (send_keep_alive_header pool_cfg) in
      if beqb forward_req [] then
        (mkExchange (fail_with ctx 400 "invalid header") true proxied writes (uses ++ [mkUse false None true]), false)
      else
        let writes := writes ++ [forward_req] in
        if negb (io_ok (at_write io)) then
          let uses := uses ++ [mkUse true None false] in
          if can_retry_stale_idle then (mkExchange ctx false proxied writes uses, false)
          else (mkExchange (fail_with ctx 504 "upstream write failed") true proxied writes uses, false)
        else match at_response io with
        | Throw _ =>
            (mkExchange (fail_with ctx 502 "Bad Gateway") true proxied writes
               (uses ++ [mkUse true (Some (at_response io)) true]), true)
        | Ret (proxy_resp, connection_close) =>
            let response_failed := negb (beqb (pr_error proxy_resp) []) in
            if response_failed then
              let uses := uses ++ [mkUse true (Some (at_response io)) false] in
              if can_retry_stale_idle then (mkExchange ctx false proxied writes uses, false)
              else (mkExchange (answer ctx 502 "Bad Gateway" (error_body 502 "Bad Gateway") []) true true writes uses, false)
            else
              let body := transformed_body (route_json_keys upstream) (pr_headers proxy_resp) (pr_body proxy_resp) in
              (mkExchange (answer ctx (pr_status proxy_resp) (pr_status_text proxy_resp) body (pr_headers proxy_resp))
                 true true writes (uses ++ [mkUse true (Some (at_response io)) (negb connection_close)]), false)
        end
  end.

(** [for (int attempt = 0; attempt < 2 && !handled; ++attempt)] *)
Fixpoint forward_loop (attempts : list Z) (ios : list attempt_io) (ex : exchange) : exchange :=
  match attempts, ios with
  | attempt :: rest, io :: ios' =>
      if ex_handled ex then ex
      else let '(ex', thrown) := forward_attempt attempt io ex in
           if (thrown : bool) then ex' else forward_loop rest ios' ex'
  | _, _ => ex
  end.

Definition forward (first second : attempt_io) (ctx : HttpContext) : exchange :=
  forward_loop [0; 1] [first; second] (mkExchange ctx false false [] []).

End forwarding.

(** ** Reading is what forwarding relies on *)

(** The body of an accepted request is the one its headers announce.  Reading
    it always ends (or waits for the client); when it succeeds, the framing was
    not ambiguous, the body is within the limit, exactly the bytes of that body
    (in its chunked coding, or as many as Content-Length says, or none) were taken
    from the connection, and the context satisfies what the forwarding of the
    request relies on. *)
Lemma request_body_framed sk preread ctx :
  let st := header_state_of (ctx_headers ctx) in
  read_request_body sk preread st ≠ OutOfFuel ∧
  (∀ preread' sk', read_request_body sk preread st = Done (inr (ctx_body ctx), preread', sk') →
     body_as_framed ctx ∧ slen (ctx_body ctx) ≤ kMaxBodySize ∧
     ∃ wire, stream sk preread = wire ++ stream sk' preread' ∧
       (if is_chunked st then chunked crlf_free (ctx_body ctx) wire else wire = ctx_body ctx)).
Proof.
  intros st. unfold read_request_body, body_as_framed. fold st.
  assert (0 ≤ kMaxBodySize ≤ SIZE_MAX - 2) as Hmax by (unfold kMaxBodySize, SIZE_MAX; lia).
  assert (length_ok st) as Hlen.
  { unfold st, header_state_of. induction (ctx_headers ctx) as [|kv hs IH] using rev_ind; [done|].
    rewrite foldl_snoc. by apply update_length_ok. }
  destruct (framing_rejected st) eqn:Hrej; [done|].
  destruct (is_chunked st) eqn:Hch.
  - destruct (read_chunked_body sk preread kMaxBodySize) as [[[r pre] sk1]| |] eqn:C.
    + split; [done|]. intros pre' sk'. destruct (body_ok r) eqn:Hok; [|done]. intros [= Hb <- <-].
      apply read_chunks_sound in C as (body & wire & Hwire & Hbytes & Hst & Hle);
        [|done|change (slen []) with 0; lia|by apply (bool_decide_eq_true_1 _)].
      cbn [app] in Hbytes, Hle. rewrite <- Hb, Hbytes. split_and!; [done|lia|done|done|]. by exists wire.
    + done.
    + exfalso. apply read_chunks_fueled in C; [done|unfold chunk_fuel; lia|done].
  - destruct (content_length st) as [n|] eqn:Hcl.
    + destruct (read_content_length_body sk preread n kMaxBodySize) as [[[r pre] sk1]| |] eqn:C.
      * split; [done|]. intros pre' sk'. destruct (body_ok r) eqn:Hok; [|done]. intros [= Hb <- <-].
        apply read_content_length_sound in C as (Hn & Hle & Hst); [|by apply Hlen|done].
        rewrite <- Hb. split_and!; [done|lia|done|lia|]. by exists (body_bytes r).
      * done.
      * exfalso. by apply read_content_length_fueled in C.
    + split; [done|]. intros pre' sk' [= Hb <- <-]. rewrite <- Hb.
      split_and!; [done|change (slen []) with 0; unfold SIZE_MAX; lia|done|change (slen []) with 0; lia|]. by exists [].
Qed.

(** ** Replays *)

(** The first attempt met a connection that had gone stale. *)
Definition stale_failure (io : attempt_io) : Prop :=
  at_acquire io = AcqConn true ∧
  (io_ok (at_write io) = false ∨ ∃ resp close, at_response io = Ret (resp, close) ∧ pr_error resp ≠ []).

(** Why a connection may go back as good. *)
Definition good_reason (u : conn_use) : Prop :=
  use_written u = false ∨
  (∃ resp, use_response u = Some (Ret (resp, false)) ∧ pr_error resp = []) ∨
  (∃ what, use_response u = Some (Throw what)).

Definition uses_ok (uses : list conn_use) : Prop := Forall (λ u, use_good u = true → good_reason u) uses.

Section replay.
Context (method_str : bytes) (upstream : RouteResult) (st : HeaderParseState) (pool_cfg : PoolConfig).

Abbreviation request ctx :=
  (build_proxy_request method_str (upstream_path upstream) (route_config upstream) ctx st (send_keep_alive_header pool_cfg)).

(** One attempt writes the request at most once; it leaves the request unhandled
    only after a stale failure of an idempotent request in the first round. *)
Lemma forward_attempt_spec attempt io ex ex' thrown :
  ex_handled ex = false → forward_attempt method_str upstream st pool_cfg attempt io ex = (ex', thrown) →
  (∃ w, ex_writes ex' = ex_writes ex ++ w ∧ (w = [] ∨ w = [request (ex_ctx ex)])) ∧
  (∃ u, ex_uses ex' = ex_uses ex ++ u ∧ uses_ok u) ∧
  (ex_handled ex' = true ∨
   ex_handled ex' = false ∧ thrown = false ∧ ex_ctx ex' = ex_ctx ex ∧ attempt = 0 ∧
   is_idempotent_method method_str = true ∧ stale_failure io).
Proof.
  destruct ex as [ctx handled proxied writes uses]. cbn [ex_handled ex_writes ex_uses ex_ctx]. intros _.
  unfold forward_attempt, stale_failure, uses_ok, good_reason.
  assert (∀ l : list bytes, ∃ w, l = l ++ w ∧ (w = [] ∨ w = [request ctx])) as Hnil.
  { intros l. exists []. rewrite app_nil_r. auto. }
  assert (∀ l : list bytes, ∃ w, l ++ [request ctx] = l ++ w ∧ (w = [] ∨ w = [request ctx])) as Hone by eauto.
  assert (∀ l : list conn_use, ∃ u, l = l ++ u ∧ uses_ok u) as Hu0.
  { intros l. exists []. rewrite app_nil_r. split; [done|constructor]. }
  assert (∀ (l : list conn_use) x, (use_good x = true → good_reason x) → ∃ u, l ++ [x] = l ++ u ∧ uses_ok u) as Hu1.
  { intros l x Hx. exists [x]. split; [done|]. by constructor. }
  destruct (at_acquire io) as [| |reused] eqn:Ha.
  1,2: intros [= <- <-]; cbn; by auto.
  destruct (beqb (request ctx) []); [intros [= <- <-]; cbn; split_and!; auto; apply Hu1; by left|].
  destruct (io_ok (at_write io)) eqn:Hw; cbn [negb].
  2:{ destruct (reused && (attempt =? 0) && is_idempotent_method method_str) eqn:Hr; intros [= <- <-]; cbn;
        (split; [done|]); (split; [by apply Hu1|]); [right|by left].
      bool_prop. subst. split_and!; auto. }
  destruct (at_response io) as [[resp close]|what] eqn:Hresp.
  2:{ intros [= <- <-]. cbn. split; [done|]. split; [|by left]. apply Hu1. intros _. right. right. by exists what. }
  destruct (beqb (pr_error resp) []) eqn:He; cbn [negb].
  - intros [= <- <-]. cbn. split; [done|]. split; [|by left]. apply Hu1. cbn. intros Hc.
    apply negb_true_iff in Hc as ->. right. left. exists resp. split; [done|]. by apply beqb_eq.
  - apply beqb_ne in He.
    destruct (reused && (attempt =? 0) && is_idempotent_method method_str) eqn:Hr; intros [= <- <-]; cbn;
      (split; [done|]); (split; [by apply Hu1|]); [right|by left].
    bool_prop. subst. split_and!; eauto 10.
Qed.

(** What holds of an exchange when the loop has ended. *)
Definition replay_safe (first : attempt_io) (ctx : HttpContext) (ex : exchange) : Prop :=
  ex_handled ex = true ∧ uses_ok (ex_uses ex) ∧
  (ex_writes ex = [] ∨ ex_writes ex = [request ctx] ∨
   (ex_writes ex = [request ctx; request ctx] ∧ is_idempotent_method method_str = true ∧ stale_failure first)).

Lemma forward_exchange first second ctx :
  replay_safe first ctx (forward method_str upstream st pool_cfg first second ctx).
Proof.
  unfold replay_safe, forward. cbn [forward_loop ex_handled].
  destruct (forward_attempt _ _ _ _ 0 first _) as [ex1 t1] eqn:E1.
  apply forward_attempt_spec in E1 as ((w1 & Hw1 & Hc1) & (u1 & Hu1 & Hok1) & Hh1); [|done].
  cbn [ex_writes ex_uses ex_ctx app] in *.
  destruct Hh1 as [Hh1|(Hh1 & -> & Hctx & _ & Hidem & Hstale)].
  { assert ((if t1 then ex1 else if ex_handled ex1 then ex1 else
      let '(ex', thrown) := forward_attempt method_str upstream st pool_cfg 1 second ex1 in
      if thrown then ex' else ex') = ex1) as -> by (rewrite Hh1; by destruct t1).
    rewrite Hw1, Hu1. split_and!; [done|done|]. destruct Hc1 as [-> | ->]; auto. }
  rewrite Hh1. destruct (forward_attempt _ _ _ _ 1 second ex1) as [ex2 t2] eqn:E2.
  apply forward_attempt_spec in E2 as ((w2 & Hw2 & Hc2) & (u2 & Hu2 & Hok2) & Hh2); [|done].
  destruct Hh2 as [Hh2|(_ & _ & _ & [=] & _)].
  assert ((if t2 then ex2 else ex2) = ex2) as -> by (by destruct t2).
  rewrite Hw2, Hu2, Hw1, Hu1. rewrite Hctx in Hc2. split_and!; [done|by apply Forall_app|].
  destruct Hc1 as [-> | ->], Hc2 as [-> | ->]; auto.
Qed.

(** Forwarding leaves the fields of the request as they are. *)
Lemma forward_attempt_headers attempt io ex :
  ctx_headers (ex_ctx (forward_attempt method_str upstream st pool_cfg attempt io ex).1) = ctx_headers (ex_ctx ex).
Proof. destruct ex. unfold forward_attempt. repeat case_match; done. Qed.

Lemma forward_headers first second ctx :
  ctx_headers (ex_ctx (forward method_str upstream st pool_cfg first second ctx)) = ctx_headers ctx.
Proof.
  unfold forward. cbn [forward_loop ex_handled].
  pose proof (forward_attempt_headers 0 first (mkExchange ctx false false [] [])) as H1.
  destruct (forward_attempt _ _ _ _ 0 first _) as [ex1 t1]. cbn [fst ex_ctx] in H1.
  destruct t1; [done|]. destruct (ex_handled ex1); [done|].
  pose proof (forward_attempt_headers 1 second ex1) as H2.
  destruct (forward_attempt _ _ _ _ 1 second ex1) as [ex2 t2]. cbn [fst] in H2. rewrite H1 in H2. by destruct t2.
Qed.

(** C32: forwarding answers every request and replays only what is safe.  Whatever
    the pool and the upstream do, the loop ends with an answer; the request is
    written at most twice, always the same bytes, and twice only if its method is
    idempotent and the first connection came from the idle list and failed before
    a response was read; and a connection goes back to the pool as good only if
    nothing was written on it, or its response was read without error and does
    not ask to close, or reading it threw an exception. *)
Theorem forward_replay_safe first second ctx :
  let ex := forward method_str upstream st pool_cfg first second ctx in
  ex_handled ex = true ∧ uses_ok (ex_uses ex) ∧
  (ex_writes ex = [] ∨ ex_writes ex = [request ctx] ∨
   (ex_writes ex = [request ctx; request ctx] ∧ is_idempotent_method method_str = true ∧ stale_failure first)).
Proof. intros ex. apply forward_exchange. Qed.
End replay.

(** ** Rules and routes of one generation

    A reload publishes the security rules and then the route table.  [cv_rules]
    and [cv_routes] are the versions of the configuration they come from, which
    the code does not store; the generations are what it compares. *)
Record config_state := mkPublished {
  sec_generation : Z;
  cv_rules : Z;
  up_generation : Z;
  cv_routes : Z
}.

(** The two publications of the reload callback. *)
Inductive reload_step : config_state → config_state → Prop :=
| publish_security s g :
    cv_routes s = cv_rules s → sec_generation s < g →
    reload_step s (mkPublished g (cv_rules s + 1) (up_generation s) (cv_routes s))
| publish_upstreams s :
    cv_routes s < cv_rules s →
    reload_step s (mkPublished (sec_generation s) (cv_rules s) (up_generation s + 1) (cv_rules s)).

(** Where the session is.  [g] is [security_generation], [v] the version of the
    rules that admitted the request, [rt] the version of the table it was matched
    against, if it has a route. *)
Inductive session_pc :=
| SCheck
| SLoop (attempt g v : Z)
| SRecheck (attempt : Z)
| SBefore (attempt g v : Z)
| SRoute (attempt g v before : Z)
| SAfterUp (attempt g v before rt : Z) (found : bool)
| SAfterSec (attempt g v rt : Z) (found : bool)
| SRejected
| SExhausted
| SRouted (v rt : Z)
| SNoRoute.

Definition kMaxConfigConsistencyAttempts : Z := 3.

(** The verdict of a check, and whether the table has the service. *)
Inductive session_event := EvVerdict (admitted : bool) | EvLookup (found : bool) | EvGo.

Definition next_attempt (attempt g v : Z) : session_pc := SLoop (attempt + 1) g v.

Definition session_step (ev : session_event) (s : config_state) (p : session_pc) : option session_pc :=
  match p, ev with
  | SCheck, EvVerdict admitted =>
      Some (if admitted then SLoop 0 (sec_generation s) (cv_rules s) else SRejected)
  | SLoop attempt g v, EvGo =>
      Some (if attempt <? kMaxConfigConsistencyAttempts then
              if negb (g =? sec_generation s) then SRecheck attempt else SBefore attempt g v
            else SExhausted)
  | SRecheck attempt, EvVerdict admitted =>
      Some (if admitted then SBefore attempt (sec_generation s) (cv_rules s) else SRejected)
  | SBefore attempt g v, EvGo => Some (SRoute attempt g v (up_generation s))
  | SRoute attempt g v before, EvLookup found => Some (SAfterUp attempt g v before (cv_routes s) found)
  | SAfterUp attempt g v before rt found, EvGo =>
      Some (if up_generation s =? before then SAfterSec attempt g v rt found else next_attempt attempt g v)
  | SAfterSec attempt g v rt found, EvGo =>
      Some (if g =? sec_generation s then (if found then SRouted v rt else SNoRoute)
            else next_attempt attempt g v)
  | _, _ => None
  end.

Inductive system_step : config_state * session_pc → config_state * session_pc → Prop :=
| sys_reload s s' p : reload_step s s' → system_step (s, p) (s', p)
| sys_session s p ev p' : session_step ev s p = Some p' → system_step (s, p) (s, p').

(** What the session has read is not from the future, and a generation
    determines the version of the rules. *)
Definition judged (s : config_state) (g v : Z) : Prop :=
  g ≤ sec_generation s ∧ v ≤ cv_rules s ∧ (g = sec_generation s → v = cv_rules s).

Definition session_inv (s : config_state) (p : session_pc) : Prop :=
  cv_routes s ≤ cv_rules s ≤ cv_routes s + 1 ∧
  match p with
  | SLoop _ g v | SBefore _ g v | SRoute _ g v _ => judged s g v
  | SAfterUp _ g v _ rt _ | SAfterSec _ g v rt _ => judged s g v ∧ rt ≤ cv_routes s
  | SRouted v rt => rt ≤ v ∧ v ≤ cv_rules s
  | _ => True
  end.

Lemma reload_judged s s' g v : reload_step s s' → judged s g v → judged s' g v.
Proof. intros [] (? & ? & ?); unfold judged; cbn; lia. Qed.

Lemma reload_versions s s' : reload_step s s' → cv_routes s ≤ cv_rules s ≤ cv_routes s + 1 →
  cv_routes s' ≤ cv_rules s' ≤ cv_routes s' + 1 ∧ cv_routes s ≤ cv_routes s' ∧ cv_rules s ≤ cv_rules s'.
Proof. intros []; cbn; lia. Qed.

Lemma reload_session_inv s s' p : reload_step s s' → session_inv s p → session_inv s' p.
Proof.
  intros Hr [Hv Hp]. destruct (reload_versions _ _ Hr Hv) as (Hv' & Hrt & Hru). split; [done|].
  destruct p; try done; try by eapply reload_judged.
  1,2: destruct Hp as [Hj ?]; split; [by eapply reload_judged|lia].
  lia.
Qed.

Lemma session_step_inv s p ev p' : session_step ev s p = Some p' → session_inv s p → session_inv s p'.
Proof.
  intros Hs [Hv Hp]. split; [done|]. destruct p, ev; cbn in Hs; simplify_eq.
  all: repeat case_match; bool_prop; try done.
  all: unfold next_attempt, judged in *; simplify_eq; lia.
Qed.

(** C31: no request is matched against routes that are newer than the rules that
    admitted it.  Interleave the session with any number of reloads, each of which
    publishes the rules before the table: when the session leaves the consistency
    loop with a route, the last verdict was to admit, and the version of the
    rules that gave it is one that was published and at least the version of the
    table the route comes from. *)
Theorem routed_under_current_rules s0 s v rt :
  cv_routes s0 = cv_rules s0 → rtc system_step (s0, SCheck) (s, SRouted v rt) → rt ≤ v ≤ cv_rules s.
Proof.
  intros H0 Hr.
  assert (session_inv s0 SCheck) as Hi by (split; [lia|done]).
  assert (∀ x y, rtc system_step x y → session_inv x.1 x.2 → session_inv y.1 y.2) as Hinv.
  { induction 1 as [x|x y z Hxy _ IH]; intros Hx; [done|]. apply IH.
    destruct Hxy as [a b p Hab|a p ev p' Hp]; [by eapply reload_session_inv|by eapply session_step_inv]. }
  destruct (Hinv _ _ Hr Hi) as [_ Hp]. cbn in Hp. lia.
Qed.

Lemma routed_under_current_rules_witness :
  let s0 := mkPublished 1 1 1 1 in
  ∃ s, rtc system_step (s0, SCheck) (s, SRouted 2 2) ∧ 2 ≤ 2 ≤ cv_rules s.
Proof.
  set (s1 := mkPublished 4 2 1 1). set (s2 := mkPublished 4 2 2 2). exists s2.
  assert (rtc system_step (mkPublished 1 1 1 1, SCheck) (s2, SRouted 2 2)) as Hr.
  { eapply rtc_l; [by apply (sys_session _ _ (EvVerdict true))|].
    eapply rtc_l; [apply sys_reload, (publish_security _ 4); cbn; lia|].
    eapply rtc_l; [by apply (sys_session _ _ EvGo)|].
    eapply rtc_l; [by apply (sys_session _ _ (EvVerdict true))|].
    eapply rtc_l; [by apply (sys_session _ _ EvGo)|].
    eapply rtc_l; [apply sys_reload, publish_upstreams; cbn; lia|].
    eapply rtc_l; [by apply (sys_session _ _ (EvLookup true))|].
    eapply rtc_l; [by apply (sys_session _ _ EvGo)|].
    eapply rtc_l; [by apply (sys_session _ _ EvGo)|].
    eapply rtc_l; [by apply (sys_session _ _ EvGo)|].
    eapply rtc_l; [by apply (sys_session _ _ (EvLookup true))|].
    eapply rtc_l; [by apply (sys_session _ _ EvGo)|].
    eapply rtc_l; [by apply (sys_session _ _ EvGo)|]. apply rtc_refl. }
  split; [exact Hr|]. by apply (routed_under_current_rules (mkPublished 1 1 1 1)).
Defined.
