(* ===== verification/RequestReader.v ===== *)
(** * Reading requests from a connection (src/src/http/client_session.hpp)

    The first half of the session's loop: bytes are collected until the blank
    line, the head is parsed and stored in a context, and the body is read as the
    framing says.  It composes the socket model of [BodyReader], the parser of
    [Pico], the framing state of [HttpProtocol] and [read_request_body].  The
    theorems show that what is taken from the connection is exactly one request,
    however the bytes are cut into reads, and that a well-formed request is
    always taken. *)

From S2P Require Import Prelude HttpProtocol HttpIo BodyReader Pico Response Upstream Proxy ClientSession.

(** How the head of a request ends: no answer, an error answer, or a request. *)
Inductive head_event :=
| HeadStopped (read : IoResult)
| HeadRejected (answer : bytes)
| HeadRequest (ctx : HttpContext) (request_header_state : HeaderParseState) (minor_version : Z) (body_buffer : bytes).

Definition context_of (method path : bytes) (hs : headers) : HttpContext :=
  mkContext method path [] hs 0 [] [] [] None None [] false.

(** The loop that waits for the blank line. *)
Fixpoint read_client_head (sk : sock) (client_preread : bytes) {struct sk} : co ((head_event + bytes) * sock) :=
  match find_str CRLF2 client_preread with
  | Some _ => Done (inr client_preread, sk)
  | None =>
      match sk with
      | [] => Suspended
      | ev :: sk' =>
          let read := read_body_some ev in
          if negb (io_ok read) then Done (inl (HeadStopped read), sk')
          else
            let client_preread := client_preread ++ ev_data ev in
            if kMaxHeaderSize <? slen client_preread then
              Done (inl (HeadRejected (build_error_response 431 "Request Header Fields Too Large"
                          (error_body 431 "request header too large"))), sk')
            else read_client_head sk' client_preread
      end
  end.

(** [std::string_view name(headers[i].name, headers[i].name_len)]: a NULL name of
    length 0 is the empty view. *)
Definition header_pair (h : phr_header) : bytes * bytes := (default [] (phr_name h), phr_value h).

(** From the complete head to the context; [None] would be undefined behaviour. *)
Definition parse_client_head (client_preread : bytes) : option head_event :=
  match phr_parse_request client_preread 128 0 with
  | None => None
  | Some (pret, req) =>
      if pret <? 0 then Some (HeadRejected (build_error_response 400 "Bad Request" (error_body 400 "bad request")))
      else match req with
      | None => None
      | Some (mkPhrRequest method path minor_version hs) =>
          let '(fields, state) :=
            foldl (λ acc kv, parse_header_pair_into kv.1 kv.2 acc) ([], header_state0) (header_pair <$> hs) in
          Some (HeadRequest (context_of method path fields) state minor_version (drop (Z.to_nat pret) client_preread))
      end
  end.

(** One request: the event of its head, or the context with its body (or the
    answer to a body that could not be read) and what is left for the next one. *)
Inductive request_event :=
| NoRequest (e : head_event)
| BadBody (ctx : HttpContext) (request_header_state : HeaderParseState) (minor_version : Z) (answer : Z * bytes)
    (client_preread : bytes)
| Request (ctx : HttpContext) (request_header_state : HeaderParseState) (minor_version : Z) (client_preread : bytes).

Definition ctx_with_body (ctx : HttpContext) (body : bytes) : HttpContext :=
  mkContext (ctx_method ctx) (ctx_path ctx) body (ctx_headers ctx) (status_code ctx) (response_status_text ctx)
    (response_body ctx) (response_headers ctx) (ctx_principal ctx) (ctx_admin_principal ctx) (ctx_client_ip ctx)
    (ctx_jwt_disabled ctx).

Definition read_request (sk : sock) (client_preread : bytes) : co (option request_event * sock) :=
  match read_client_head sk client_preread with
  | Suspended => Suspended
  | OutOfFuel => OutOfFuel
  | Done (inl e, sk) => Done (Some (NoRequest e), sk)
  | Done (inr client_preread, sk) =>
      match parse_client_head client_preread with
      | None => Done (None, sk)
      | Some (HeadRequest ctx state minor_version body_buffer) =>
          match read_request_body sk body_buffer state with
          | Suspended => Suspended
          | OutOfFuel => OutOfFuel
          | Done (inl answer, rest, sk) => Done (Some (BadBody ctx state minor_version answer rest), sk)
          | Done (inr body, rest, sk) => Done (Some (Request (ctx_with_body ctx body) state minor_version rest), sk)
          end
      | Some e => Done (Some (NoRequest e), sk)
      end
  end.

(** ** The blank line is the end of the head *)

Lemma blank_skip l r i : CR ∉ l → find_str CRLF2 (l ++ r) = Some i →
  ∃ j, i = (length l + j)%nat ∧ find_str CRLF2 r = Some j.
Proof.
  revert i. induction l as [|c l IH]; intros i Hl H; [by exists i|].
  apply not_elem_of_cons in Hl as [Hc Hl]. cbn [app find_str] in H.
  change CRLF2 with (CR :: LF :: CRLF) in H at 1. cbn [starts_with] in H.
  rewrite (proj2 (ceqb_ne CR c)) in H by done. cbn [andb] in H.
  destruct (find_str CRLF2 (l ++ r)) as [k|] eqn:E; [|done]. injection H as <-.
  destruct (IH k Hl eq_refl) as (j & -> & Hj). exists j. by split.
Qed.

(** Behind a CRLF, a line that does not start with CR. *)
Lemma blank_skip_crlf c r i : c ≠ CR → find_str CRLF2 (CRLF ++ c :: r) = Some i →
  ∃ j, i = (2 + j)%nat ∧ find_str CRLF2 (c :: r) = Some j.
Proof.
  intros Hc H. change (CRLF ++ c :: r) with (CR :: LF :: c :: r) in H. cbn [find_str] in H.
  change (starts_with CRLF2 (CR :: LF :: c :: r)) with (ceqb CR c && starts_with [LF] r) in H.
  rewrite (proj2 (ceqb_ne CR c)) in H by done.
  change (starts_with CRLF2 (LF :: c :: r)) with false in H. cbn [andb] in H.
  destruct (find_str CRLF2 (c :: r)) as [j|] eqn:E; cbn [find_str] in E; rewrite E in H; [|done].
  injection H as <-. by exists j.
Qed.

Lemma no_cr (P : ascii → Prop) s : Forall P s → ¬ P CR → CR ∉ s.
Proof. intros Hs HP Hin. rewrite Forall_forall in Hs. auto. Qed.

Lemma token_no_cr s : Forall (λ c, token_char c = true) s → CR ∉ s.
Proof. intros H. by eapply no_cr; [exact H|]. Qed.

Lemma line_text_no_cr s : line_text s → CR ∉ s.
Proof. intros H. by eapply no_cr; [exact H|]. Qed.

Lemma ows_no_cr s : ows s → CR ∉ s.
Proof. intros H. by eapply no_cr; [exact H|]. Qed.

#[local] Hint Resolve token_no_cr line_text_no_cr ows_no_cr : gw.

Lemma header_line_split first h w : header_line first h w → ∃ l e, w = l ++ e ∧ CR ∉ l ∧ eol e.
Proof.
  intros [name pre v post e [_ Hn] Hpre Hpost Hv _ _ He|c v raw post e _ _ _ Ht _ Hpost He].
  - exists (name ++ ":"%char :: pre ++ v ++ post), e. repeat (rewrite <- !app_assoc; cbn [app]).
    split_and!; [done| |done]. rewrite not_elem_of_app, not_elem_of_cons, !not_elem_of_app.
    split_and!; auto with gw.
  - exists (raw ++ post), e. rewrite <- app_assoc, not_elem_of_app. auto with gw.
Qed.

Lemma header_block_blank first hs w : header_block first hs w → ∀ r i,
  (find_str CRLF2 (w ++ r) = Some i → (length w ≤ i + 4)%nat) ∧
  (find_str CRLF2 (CRLF ++ w ++ r) = Some i → (length w ≤ i + 2)%nat).
Proof.
  induction 1 as [first e He|first h w hs ws Hw Hb IH]; intros r i; [by destruct He; cbn; lia|].
  assert (∀ i, find_str CRLF2 ((w ++ ws) ++ r) = Some i → (length (w ++ ws) ≤ i + 4)%nat) as Hplain.
  { clear i. intros i. destruct (header_line_split _ _ _ Hw) as (l & e & -> & Hl & He). rewrite <- !app_assoc.
    intros (j & -> & Hj)%blank_skip; [|done]. rewrite !length_app. destruct He.
    - apply IH in Hj. cbn. lia.
    - apply (blank_skip [LF]) in Hj as (k & -> & Hk); [|by apply (bool_decide_eq_true_1 _); vm_compute].
      apply IH in Hk. cbn. lia. }
  split; [apply Hplain|]. destruct (header_line_head _ _ _ Hw) as (c & t & Ht & Hc & _).
  intros Hf. rewrite Ht in Hf. cbn [app] in Hf. apply blank_skip_crlf in Hf as (j & -> & Hj); [|by apply ceqb_ne].
  specialize (Hplain j). rewrite Ht in *. cbn [app length] in *. specialize (Hplain Hj). lia.
Qed.

(** The first blank line of a stream is not before the end of its head. *)
Lemma request_blank req w r i : request_wire req w → find_str CRLF2 (w ++ r) = Some i → (length w ≤ i + 4)%nat.
Proof.
  intros [pre method s1 path s2 d e hs block Hpre [Hm Hmt] [_ Hs1] [Hp Hpt] [_ Hs2] Hd He Hb] Hf.
  set (l := method ++ s1 ++ path ++ s2 ++ ("HTTP/1." : bytes) ++ [d]).
  assert (∀ x, method ++ s1 ++ path ++ s2 ++ ("HTTP/1." : bytes) ++ d :: x = l ++ x) as Hl.
  { intros x. unfold l. by rewrite <- !app_assoc. }
  assert (CR ∉ l) as Hcr.
  { unfold l. rewrite !not_elem_of_app. split_and!; [by apply token_no_cr|by eapply no_cr|
      eapply no_cr; [exact Hpt|by intros [_ ?]]|by eapply no_cr|by apply (bool_decide_eq_true_1 _); vm_compute|].
    intros <-%list_elem_of_singleton. done. }
  assert (∀ i, find_str CRLF2 (l ++ e ++ block ++ r) = Some i → (length (l ++ e ++ block) ≤ i + 4)%nat) as Hline.
  { intros k (j & -> & Hj)%blank_skip; [|done]. rewrite !length_app. destruct He.
    - apply (header_block_blank _ _ _ Hb) in Hj. cbn. lia.
    - apply (blank_skip [LF]) in Hj as (k & -> & Hk); [|by apply (bool_decide_eq_true_1 _); vm_compute].
      apply (header_block_blank _ _ _ Hb) in Hk. cbn. lia. }
  rewrite Hl in *. rewrite <- !app_assoc in Hf. revert Hf. destruct Hpre as [->|[]]; intros Hf; [by apply Hline| |].
  - assert (∃ c t, l = c :: t ∧ c ≠ CR) as (c & t & Hct & Hc).
    { unfold l. destruct method as [|c method]; [done|]. exists c. eexists. split; [done|].
      by apply Forall_inv, token_char_class in Hmt as (_ & ? & _). }
    pose proof Hf as Hf'. rewrite Hct in Hf'. cbn [app] in Hf'. apply blank_skip_crlf in Hf' as (j & -> & Hj); [|done].
    specialize (Hline j). rewrite Hct in *. specialize (Hline Hj). rewrite !length_app in *. cbn in *. lia.
  - apply (blank_skip [LF]) in Hf as (k & -> & Hk); [|by apply (bool_decide_eq_true_1 _); vm_compute].
    apply Hline in Hk. rewrite !length_app in *. cbn in *. lia.
Qed.

(** ** The stored fields *)

(** The fields of the context: names and values without surrounding space. *)
Definition received_fields (req : phr_request) : headers :=
  (λ kv, (trim kv.1, trim kv.2)) <$> (header_pair <$> phr_headers req).

Definition received_context (req : phr_request) : HttpContext :=
  context_of (phr_method req) (phr_path req) (received_fields req).

Lemma header_line_name first h w : header_line first h w → trim (header_pair h).1 = (header_pair h).1.
Proof.
  intros [name ? ? ? ? [_ Hn] _ _ _ _ _ _|]; cbn; [|done]. apply trim_no_space.
  eapply Forall_impl; [exact Hn|]. intros c. all_bytes c.
Qed.

Lemma header_block_names first hs w :
  header_block first hs w → Forall (λ kv, trim kv.1 = kv.1) (header_pair <$> hs).
Proof.
  induction 1 as [|first h w hs ws Hw _ IH]; [constructor|]. cbn [fmap list_fmap].
  constructor; [by eapply header_line_name|done].
Qed.

Lemma update_header_state_trim k v st : trim k = k → update_header_state (trim k) (trim v) st = update_header_state k v st.
Proof. intros Hk. unfold update_header_state, trim_view. by rewrite !trim_idem, !Hk. Qed.

Lemma header_state_trim l : Forall (λ kv, trim kv.1 = kv.1) l →
  header_state_of ((λ kv, (trim kv.1, trim kv.2)) <$> l) = header_state_of l.
Proof.
  unfold header_state_of. generalize header_state0. induction l as [|kv l IH]; intros st Hl; [done|].
  apply Forall_cons in Hl as [Hk Hl]. cbn [fmap list_fmap foldl fst snd]. rewrite update_header_state_trim by done. auto.
Qed.

Lemma request_state req w : request_wire req w →
  foldl (λ acc kv, parse_header_pair_into kv.1 kv.2 acc) ([], header_state0) (header_pair <$> phr_headers req) =
  (received_fields req, header_state_of (received_fields req)).
Proof.
  intros [? ? ? ? ? ? ? hs block _ _ _ _ _ _ _ Hb]. rewrite parse_pairs_fold. unfold received_fields. cbn [phr_headers].
  by rewrite header_state_trim by (by eapply header_block_names).
Qed.

Lemma parse_client_head_ok req head bb :
  request_wire req head → (length (phr_headers req) ≤ 128)%nat →
  parse_client_head (head ++ bb) = Some (HeadRequest (received_context req) (header_state_of (received_fields req)) (phr_minor req) bb).
Proof.
  intros Hw Hl. unfold parse_client_head, phr_parse_request. change (negb (0 =? 0)) with false. cbn iota.
  rewrite (parse_request_complete _ _ _ _ Hw Hl), slen_app.
  replace (slen head + slen bb - slen bb) with (slen head) by lia.
  replace (slen head <? 0) with false by (symmetry; apply Z.ltb_ge; apply slen_nonneg).
  pose proof (request_state _ _ Hw) as Hs. destruct req as [m p v hs]. cbn [phr_headers] in *. rewrite Hs.
  unfold slen. by rewrite Nat2Z.id, drop_app_length.
Qed.

Lemma parse_client_head_cases buf :
  (∃ answer, parse_client_head buf = Some (HeadRejected answer)) ∨
  ∃ req head bb, buf = head ++ bb ∧ request_wire req head ∧ (length (phr_headers req) ≤ 128)%nat ∧
    parse_client_head buf = Some (HeadRequest (received_context req) (header_state_of (received_fields req)) (phr_minor req) bb).
Proof.
  pose proof (parse_request_post 128 buf) as Hp. destruct (parse_request 128 buf) as [req r|z|] eqn:E; [| |done].
  - right. destruct Hp as (w & -> & Hw & Hl). exists req, w, r. split_and!; [done..|]. by apply parse_client_head_ok.
  - left. unfold parse_client_head, phr_parse_request. change (negb (0 =? 0)) with false. cbn iota. rewrite E.
    replace (z <? 0) with true by (symmetry; apply Z.ltb_lt; destruct Hp; lia). eauto.
Qed.

(** ** Reads *)

Lemma read_client_head_stream sk pre buf sk' :
  read_client_head sk pre = Done (inr buf, sk') → stream sk pre = stream sk' buf.
Proof.
  revert pre. induction sk as [|ev sk IH]; intros pre; cbn [read_client_head].
  - by destruct (find_str CRLF2 pre); [intros [= <- <-]|].
  - destruct (find_str CRLF2 pre); [by intros [= <- <-]|]. rewrite stream_cons.
    destruct (negb _); [done|]. destruct (_ <? _); [done|]. apply IH.
Qed.

Lemma read_client_head_fueled sk pre : read_client_head sk pre ≠ OutOfFuel.
Proof.
  revert pre. induction sk as [|ev sk IH]; intros pre; cbn [read_client_head]; destruct (find_str CRLF2 pre); try done.
  destruct (negb _); [done|]. destruct (_ <? _); [done|]. apply IH.
Qed.

(** [ctx], with its framing state and minor version, is the message at the start
    of [whole], and [rest] is what follows it. *)
Definition message_of (whole : bytes) (ctx : HttpContext) (st : HeaderParseState) (minor_version : Z) (rest : bytes) : Prop :=
  ∃ req head wire, whole = head ++ wire ++ rest ∧ request_wire req head ∧
    ctx = ctx_with_body (received_context req) (ctx_body ctx) ∧ st = header_state_of (ctx_headers ctx) ∧
    minor_version = phr_minor req ∧ body_as_framed ctx ∧ slen (ctx_body ctx) ≤ kMaxBodySize ∧
    (if is_chunked st then chunked crlf_free (ctx_body ctx) wire else wire = ctx_body ctx).

Lemma read_request_fueled sk preread : read_request sk preread ≠ OutOfFuel.
Proof.
  unfold read_request. pose proof (read_client_head_fueled sk preread) as Hf.
  destruct (read_client_head sk preread) as [[[e|buf] sk1]| |]; [done| |done..]. clear Hf.
  destruct (parse_client_head_cases buf) as [[a ->]|(req & head & bb & -> & Hw & Hl & ->)]; [done|].
  pose proof (request_body_framed sk1 bb (received_context req)) as [Hb _]. cbn in Hb.
  by destruct (read_request_body _ _ _) as [[[[a|body] rest] sk2]| |].
Qed.

Lemma read_request_defined sk preread o sk' : read_request sk preread = Done (o, sk') → o ≠ None.
Proof.
  unfold read_request. destruct (read_client_head sk preread) as [[[e|buf] sk1]| |]; [by intros [= <- _]| |done..].
  destruct (parse_client_head_cases buf) as [[a ->]|(req & head & bb & -> & Hw & Hl & ->)]; [by intros [= <- _]|].
  by destruct (read_request_body _ _ _) as [[[[a|body] rest] sk2]| |]; [intros [= <- _]..| |].
Qed.

Lemma read_request_message sk preread ctx st minor rest sk' :
  read_request sk preread = Done (Some (Request ctx st minor rest), sk') →
  message_of (stream sk preread) ctx st minor (stream sk' rest).
Proof.
  unfold read_request. destruct (read_client_head sk preread) as [[[e|buf] sk1]| |] eqn:Eh; [done| |done..].
  apply read_client_head_stream in Eh. rewrite Eh.
  destruct (parse_client_head_cases buf) as [[a ->]|(req & head & bb & -> & Hw & Hl & ->)]; [done|].
  pose proof (λ body, request_body_framed sk1 bb (ctx_with_body (received_context req) body)) as Hb. cbn in Hb.
  destruct (read_request_body _ _ _) as [[[[a|body] rest'] sk2]| |]; [done| |done..].
  intros [= <- <- <- <- <-].
  destruct (Hb body) as [_ Hb']. destruct (Hb' rest' sk2 eq_refl) as (Hbody & Hmax & wire & Hst & Hwire).
  exists req, head, wire. split_and!; [|done..]. unfold stream in *. by rewrite <- app_assoc, Hst.
Qed.

Lemma request_wire_nonempty req w : request_wire req w → w ≠ [].
Proof.
  intros [pre method s1 path s2 d e hs block _ [Hm _] _ _ _ _ _ _] E.
  apply app_eq_nil in E as [_ E]. by apply app_eq_nil in E as [-> _].
Qed.

(** A message takes at least one byte. *)
Lemma message_of_shorter whole ctx st minor rest :
  message_of whole ctx st minor rest → (length rest < length whole)%nat.
Proof.
  intros (req & head & wire & -> & Hw & _). apply request_wire_nonempty in Hw.
  rewrite !length_app. destruct head; [done|]. cbn. lia.
Qed.

(** The method and the path of a request that was read are parts of a line. *)
Lemma session_line_parts whole ctx st minor rest :
  message_of whole ctx st minor rest → line_part (ctx_method ctx) ∧ line_part (ctx_path ctx).
Proof.
  intros (req & head & wire & _ & Hw & -> & _). destruct Hw as [pre method s1 path s2 d e hs block _ [Hm Hmt] _ [Hp Hpt] _ _ _ _].
  split; (split; [done|]).
  - eapply Forall_impl; [exact Hmt|]. intros c Hc. unfold quiet. split_and!; intros ->; by vm_compute in Hc.
  - eapply Forall_impl; [exact Hpt|]. intros c [Hs Hc]. unfold quiet. split_and!; try done; intros ->; by vm_compute in Hc.
Qed.

Lemma read_request_body_failure sk preread st status body rest sk' :
  read_request_body sk preread st = Done (inl (status, body), rest, sk') → status = 400 ∨ status = 408 ∨ status = 413.
Proof.
  unfold read_request_body, body_failure. destruct (framing_rejected st); [intros [= <- _ _]; auto|].
  destruct (is_chunked st); [|destruct (content_length st) as [n|]; [|done]].
  - destruct (read_chunked_body _ _ _) as [[[r p] s]| |]; [|done..]. destruct (body_ok r); [done|].
    repeat case_if; intros [= <- _ _]; auto.
  - destruct (read_content_length_body _ _ _ _) as [[[r p] s]| |]; [|done..]. destruct (body_ok r); [done|].
    repeat case_if; intros [= <- _ _]; auto.
Qed.

(** The head of a request whose body is refused is a head all the same. *)
Lemma read_request_refused sk preread ctx st minor status body rest sk' :
  read_request sk preread = Done (Some (BadBody ctx st minor (status, body) rest), sk') →
  (status = 400 ∨ status = 408 ∨ status = 413) ∧
  ∃ req head tail, stream sk preread = head ++ tail ∧ request_wire req head ∧ ctx = received_context req.
Proof.
  unfold read_request. destruct (read_client_head sk preread) as [[[e|buf] sk1]| |] eqn:Eh; [done| |done..].
  apply read_client_head_stream in Eh. rewrite Eh.
  destruct (parse_client_head_cases buf) as [[a ->]|(req & head & bb & -> & Hw & Hl & ->)]; [done|].
  destruct (read_request_body _ _ _) as [[[[[status' body']|b] rest'] sk2]| |] eqn:Eb; [|done..].
  intros [= <- <- <- <- <- <- <-]. split; [by eapply read_request_body_failure|].
  exists req, head, (bb ++ concat (ev_data <$> sk1)). split_and!; [|done..]. unfold stream. by rewrite app_assoc.
Qed.

(** C4: What the session takes for a request is a request: reading ends (or waits
    for the client) without undefined behaviour, and when it delivers a context,
    the bytes taken from the connection are exactly one head of the grammar
    followed by the body its framing announces, in however many reads they came;
    method, path, minor version, fields and body are those of that message, its
    framing state is that of the stored fields, and the rest of the connection is
    left for the next request. *)
Theorem session_request_sound sk preread :
  read_request sk preread ≠ OutOfFuel ∧
  (∀ o sk', read_request sk preread = Done (o, sk') → o ≠ None) ∧
  (∀ ctx st minor rest sk', read_request sk preread = Done (Some (Request ctx st minor rest), sk') →
     message_of (stream sk preread) ctx st minor (stream sk' rest)).
Proof.
  split; [apply read_request_fueled|]. split; [apply read_request_defined|]. apply read_request_message.
Qed.

Lemma find_str_contains p a b : ∃ i, find_str p (a ++ p ++ b) = Some i ∧ (i ≤ length a)%nat.
Proof.
  induction a as [|c a (i & Hi & Hle)]; cbn [app].
  - exists 0%nat. split; [|lia]. pose proof (starts_with_app p b) as Hs.
    destruct (p ++ b) as [|x t] eqn:E; [by apply app_eq_nil in E as [-> _]|]. cbn [find_str]. by rewrite Hs.
  - cbn [find_str length]. destruct (starts_with _ _); [exists 0%nat; split; [done|lia]|].
    rewrite Hi. exists (S i). split; [done|lia].
Qed.

(** A buffer that holds a blank line holds the whole head. *)
Lemma blank_holds_head req head rest buf ext i :
  request_wire req head → buf ++ ext = head ++ rest → find_str CRLF2 buf = Some i → ∃ bb, buf = head ++ bb ∧ bb ++ ext = rest.
Proof.
  intros Hw Heq Hf. pose proof (find_str_app_l _ _ ext _ Hf) as Hf'. rewrite Heq in Hf'.
  apply (request_blank _ _ _ _ Hw) in Hf'. apply find_str_Some in Hf as [_ Hl]. cbn in Hl.
  assert (buf = head ++ drop (length head) buf) as Hb.
  { rewrite <- (take_drop (length head) buf) at 1. f_equal.
    apply (f_equal (take (length head))) in Heq. rewrite take_app_length, take_app_le in Heq by lia. done. }
  exists (drop (length head) buf). split; [done|]. rewrite Hb, <- app_assoc in Heq. by apply app_inv_head in Heq.
Qed.

(** A request is read whatever the cut: if the connection delivers a head of
    the grammar that ends in a blank line, with at most 128 fields and leaving
    room for one read below the header limit, then the session stops reading at
    it, stores exactly its method, path and fields, and leaves the bytes behind
    it for the body. *)
Lemma request_head_complete sk preread req h0 rest :
  request_wire req (h0 ++ CRLF2) → (length (phr_headers req) ≤ 128)%nat →
  slen (h0 ++ CRLF2) + kClientReadBufferSize ≤ kMaxHeaderSize →
  Forall (λ ev, delivers ev ∧ slen (ev_data ev) ≤ kClientReadBufferSize) sk →
  stream sk preread = (h0 ++ CRLF2) ++ rest →
  ∃ buf sk' bb, read_client_head sk preread = Done (inr buf, sk') ∧
    parse_client_head buf = Some (HeadRequest (received_context req) (header_state_of (received_fields req)) (phr_minor req) bb) ∧
    stream sk' bb = rest.
Proof.
  intros Hw Hl Hmax. revert preread. induction sk as [|ev sk IH]; intros pre Hsk Hst; cbn [read_client_head].
  - rewrite slen_stream_nil in Hst. subst pre.
    destruct (find_str_contains CRLF2 h0 rest) as (i & Hi & _). rewrite app_assoc in Hi. rewrite Hi.
    eexists _, [], rest. split_and!; [done|by apply parse_client_head_ok|apply slen_stream_nil].
  - apply Forall_cons in Hsk as [[Hd Hsz] Hsk]. destruct (find_str CRLF2 pre) as [i|] eqn:Ef.
    + unfold stream in Hst. destruct (blank_holds_head _ _ _ _ _ _ Hw Hst Ef) as (bb & -> & Hbb).
      eexists _, (ev :: sk), bb. split_and!; [done|by apply parse_client_head_ok|done].
    + rewrite (delivers_ok _ Hd). cbn [negb]. rewrite stream_cons in Hst.
      replace (kMaxHeaderSize <? slen (pre ++ ev_data ev)) with false; [by apply IH|].
      symmetry. apply Z.ltb_ge. rewrite slen_app.
      destruct (decide (length pre < length (h0 ++ CRLF2))%nat) as [Hlt|Hge]; [unfold slen in *; lia|].
      exfalso. assert (pre = (h0 ++ CRLF2) ++ drop (length (h0 ++ CRLF2)) pre) as Hp.
      { rewrite <- (take_drop (length (h0 ++ CRLF2)) pre) at 1. f_equal. unfold stream in Hst.
        apply (f_equal (take (length (h0 ++ CRLF2)))) in Hst. rewrite take_app_length, <- app_assoc, take_app_le in Hst by lia.
        done. }
      destruct (find_str_contains CRLF2 h0 (drop (length (h0 ++ CRLF2)) pre)) as (i & Hi & _).
      rewrite app_assoc, <- Hp in Hi. congruence.
Qed.

(** A POST whose head arrives in three reads, the last with part of the body. *)
Definition cut_head : bytes := "POST /svc/x HTTP/1.1" ++ CRLF ++ "Content-Length:  4 " ++ CRLF2.
Definition cut_request : phr_request :=
  mkPhrRequest "POST" "/svc/x" 1 [mkPhrHeader (Some ("Content-Length" : bytes)) "4"].

Lemma cut_request_wire : request_wire cut_request cut_head.
Proof.
  assert (∀ (s : bytes) f, forallb f s = true → Forall (λ c, f c = true) s) as Hall.
  { intros s f. rewrite forallb_forall, Forall_forall. intros H c Hc. apply H. by apply list_elem_of_In. }
  apply (request_head [] "POST" " " "/svc/x" " " "1" CRLF _ ("Content-Length:  4 " ++ CRLF ++ CRLF)).
  all: try (by left); try (by constructor); try done.
  - split; [done|by apply Hall].
  - split; [done|by repeat constructor].
  - split; [done|]. by repeat constructor.
  - split; [done|by repeat constructor].
  - apply (block_cons true _ ("Content-Length:  4 " ++ CRLF) [] CRLF); [|do 2 constructor].
    apply (field_line true "Content-Length" "  " "4" " " CRLF); try by repeat constructor.
    all: by intros c [= <-].
Qed.

Lemma request_head_complete_witness :
  ∃ buf sk' bb,
    read_client_head [mkRead ec_none false (take 7 cut_head); mkRead ec_none false (drop 7 cut_head ++ "da"); mkRead ec_none false "ta"]
      [] = Done (inr buf, sk') ∧
    parse_client_head buf = Some (HeadRequest (received_context cut_request) (header_state_of (received_fields cut_request)) 1 bb) ∧
    stream sk' bb = "data".
Proof.
  apply (request_head_complete _ _ cut_request (take 41 cut_head) "data"); [exact cut_request_wire|cbn; lia|by vm_compute| |by vm_compute].
  by repeat constructor.
Defined.

(** ** Continuation lines *)

Definition folded_head (v : bytes) : bytes :=
  "GET /s HTTP/1.1" ++ CRLF ++ "A: 1" ++ CRLF ++ v ++ CRLF ++ CRLF.

Lemma folded_request_wire c v : line_text (c :: v) → is_ows c = true → ows_free_end (c :: v) →
  request_wire (mkPhrRequest "GET" "/s" 1 [mkPhrHeader (Some ("A" : bytes)) "1"; mkPhrHeader None (c :: v)]) (folded_head (c :: v)).
Proof.
  intros Ht Hc He.
  apply (request_head [] "GET" " " "/s" " " "1" CRLF _ ("A: 1" ++ CRLF ++ (c :: v) ++ CRLF ++ CRLF)).
  all: try (by left); try (by constructor); try (by split; [done|by repeat constructor]); try done.
  apply (block_cons true _ ("A: 1" ++ CRLF) _ ((c :: v) ++ CRLF ++ CRLF)).
  - apply (field_line true "A" " " "1" "" CRLF); try by repeat constructor.
    all: by intros d [= <-].
  - rewrite app_assoc. apply block_cons; [|do 2 constructor].
    apply (folded_line false c v (c :: v) [] CRLF); try done; [by rewrite app_nil_r|constructor|constructor].
Qed.

Lemma line_text_safe v : line_text v → forallb line_safe (trim v) = true.
Proof.
  intros Hv. apply forallb_forall. intros d Hd%list_elem_of_In%trim_elem.
  unfold line_text in Hv. rewrite Forall_forall in Hv. specialize (Hv d Hd). revert Hv. all_bytes d.
Qed.

Lemma folded_forward cfg x : forallb line_safe x = true →
  let hs := [("A" : bytes, "1" : bytes); ([], x)] in
  build_proxy_request "GET" "/s" cfg (context_of "GET" "/s" hs) (header_state_of hs) false =
    ("GET /s HTTP/1.1" : bytes) ++ CRLF ++ "Host: " ++ up_host cfg ++ ":" ++ to_string (up_port cfg) ++ CRLF ++
    "A: 1" ++ CRLF ++ ": " ++ x ++ CRLF ++ CRLF.
Proof.
  intros Hx hs. unfold build_proxy_request. cbn [ctx_headers context_of ctx_body].
  replace (forallb _ hs) with true by (cbn; unfold is_safe_header; by rewrite Hx).
  replace (existsb _ hs) with false by done. replace (is_chunked (header_state_of hs)) with false by done.
  replace (concat _) with (("A: 1" ++ CRLF) ++ (": " ++ x ++ CRLF) ++ []) by done.
  cbn [negb]. cbn iota. repeat (rewrite <- !app_assoc; cbn [app]). rewrite ?app_nil_r. done.
Qed.

(** A continuation line is taken for a field with an empty name: a request
    with one passes the framing test, the field it continues loses the text, and
    the forwarded request carries the text as a line that starts with a colon. *)
Lemma folded_line_forwarded cfg c v :
  line_text (c :: v) → is_ows c = true → ows_free_end (c :: v) →
  ∃ ctx st, parse_client_head (folded_head (c :: v)) = Some (HeadRequest ctx st 1 []) ∧ framing_rejected st = false ∧
    build_proxy_request "GET" "/s" cfg ctx st false =
      ("GET /s HTTP/1.1" : bytes) ++ CRLF ++ "Host: " ++ up_host cfg ++ ":" ++ to_string (up_port cfg) ++ CRLF ++
      "A: 1" ++ CRLF ++ ": " ++ trim (c :: v) ++ CRLF ++ CRLF.
Proof.
  intros Ht Hc He. pose proof (folded_request_wire c v Ht Hc He) as Hw.
  pose proof (parse_client_head_ok _ _ [] Hw ltac:(cbn; lia)) as Hp. rewrite app_nil_r in Hp.
  eexists _, _. split; [exact Hp|]. split; [done|]. apply (folded_forward cfg). by apply line_text_safe.
Qed.

Lemma folded_line_forwarded_witness :
  ∃ ctx st, parse_client_head (folded_head " Content-Length: 9") = Some (HeadRequest ctx st 1 []) ∧
    framing_rejected st = false ∧
    build_proxy_request "GET" "/s" (mkUpstream "up" 80) ctx st false =
      ("GET /s HTTP/1.1" : bytes) ++ CRLF ++ "Host: " ++ "up" ++ ":" ++ to_string 80 ++ CRLF ++
      "A: 1" ++ CRLF ++ ": " ++ trim " Content-Length: 9" ++ CRLF ++ CRLF.
Proof.
  apply (folded_line_forwarded (mkUpstream "up" 80) " " "Content-Length: 9"); [by repeat constructor|done|by intros c [= <-]].
Defined.
