(* ===== verification/SessionLoop.v ===== *)
(** * The session's loop (src/src/http/client_session.hpp, [ClientSession::run])

    The loop that serves one connection, composed of the reader of
    [RequestReader], the check of [SecurityRules], the preflight and the headers
    of [Cors], the local routes, the consistency loop and the forwarding of
    [ClientSession], the route table of [Upstream] and the builder of [Response].
    Everything another thread may change between two accesses (rules, route
    table, generations, clocks, limiters) and everything that is awaited
    (handlers, pools, upstreams, the write) is an answer of the environment, one
    record per request.  A small writer and error monad keeps the order of what
    the session does and lets exceptions cut it short.  The theorem shows what a
    client can make the gateway do with the bytes of one connection. *)

From S2P Require Import Prelude HttpProtocol HttpIo BodyReader Pico IpRules PathRules Doubles RateLimiter Response Cors Jwt.
From S2P Require Import SecurityRules HttpPool Upstream Proxy ClientSession RequestReader.

(** How an awaited handler ends. *)
Inductive handler_end := HandlerDone (ctx : HttpContext) | HandlerSystemError | HandlerException.

(** What leaves the body of the loop early: the two [catch] clauses, or undefined
    behaviour of the limiter. *)
Inductive fault := FSystemError | FException | FUndefined.

Section session.
Context `{Double, StdHash, AsioAddress, JwtCpp} {Handler : Type}.

(** ** The environment *)

(** What one call of [check_request] meets. *)
Record check_env := mkCheckEnv {
  ce_now : readings;
  ce_jnow : Z;
  ce_limiters : list RateLimiter;
  ce_view : option SecuritySnapshot * Z
}.

(** What one round of the consistency loop reads, in the order of the reads. *)
Record attempt_env := mkAttemptEnv {
  ae_sec_before : Z;
  ae_check : check_env;
  ae_up_before : Z;
  ae_manager : UpstreamManager;
  ae_up_after : Z;
  ae_sec_after : Z
}.

Record round_env := mkRoundEnv {
  re_running : bool;
  re_check : check_env;
  re_handler : Handler → HttpContext → handler_end;
  re_attempt : nat → attempt_env;
  re_pool_cfg : pool_ptr → PoolConfig;
  re_first : attempt_io;
  re_second : attempt_io;
  re_write : IoResult;
  re_draining : bool
}.

(** What is fixed for a session. *)
Record session_cfg := mkSessionCfg {
  sc_peer : option bytes;
  sc_routes : bytes → option Handler;
  sc_prefix_routes : list (bytes * Handler);
  sc_security_rules : bool           (** [state_->security_rules] is set *)
}.

(** ** What a session does *)

Inductive session_io :=
| IoCheck (ce : check_env) (req : SecRequest) (checked : RequestCheckResult)
| IoHandler (h : Handler) (ctx : HttpContext)
| IoForward (ae : attempt_env) (upstream : RouteResult) (ctx : HttpContext) (writes : list bytes)
| IoRespond (ctx : HttpContext) (resp : bytes)
| IoAbort (resp : bytes).

(** The events so far, and a value or what cut the computation short. *)
Definition session (A : Type) : Type := list session_io * (fault + A).

#[local] Instance session_ret : MRet session := λ A a, ([], inr a).
#[local] Instance session_bind : MBind session := λ A B k m,
  match m with
  | (ios, inl f) => (ios, inl f)
  | (ios, inr a) => let '(ios', r) := k a in (ios ++ ios', r)
  end.

Definition tell (e : session_io) : session unit := ([e], inr tt).
Definition raise {A} (f : fault) : session A := ([], inl f).

(** The locals of one round of the loop. *)
Record round_state := mkRound {
  rs_ctx : HttpContext;
  rs_handled : bool;
  rs_proxy_response : bool;
  rs_security_generation : Z;
  rs_cors_policy : option CorsPolicy
}.

Section round.
Context (cfg : session_cfg) (env : round_env).
Context (method_str path_str : bytes) (request_header_state : HeaderParseState) (minor_version : Z).

Definition set_handled (r : round_state) (ctx : HttpContext) : round_state :=
  mkRound ctx true (rs_proxy_response r) (rs_security_generation r) (rs_cors_policy r).

(** [ctx.principal], [ctx.client_ip] and [ctx.jwt_disabled]. *)
Definition with_verdict (ctx : HttpContext) (res : CheckResult) : HttpContext :=
  mkContext (ctx_method ctx) (ctx_path ctx) (ctx_body ctx) (ctx_headers ctx) (status_code ctx)
    (response_status_text ctx) (response_body ctx) (response_headers ctx) (cr_principal res)
    (ctx_admin_principal ctx) (cr_client_ip res) (cr_jwt_disabled res).

(** [std::ceil(result.retry_after_ms / 1000.0)] *)
Definition retry_sec (res : CheckResult) : Z := d_ceil (d_div (d_of_Z (cr_retry_after_ms res)) (d_of_Z 1000)).

(** The answer to a rejected request. *)
Definition rejection (ctx : HttpContext) (res : CheckResult) : HttpContext :=
  answer ctx (cr_status res) (response_status_text ctx) (json_resp (cr_status res) (cr_reason res) "null")
    (if (cr_status res =? 429) && (0 <? cr_retry_after_ms res)
     then response_headers ctx ++ [("Retry-After" : bytes, to_string (retry_sec res))] else response_headers ctx).

Definition sec_request (ctx : HttpContext) : SecRequest :=
  mkSecRequest (sc_peer cfg) method_str path_str (get_header ctx "X-Forwarded-For") (get_header ctx "Authorization").

Definition run_security_check (ce : check_env) (r : round_state) : session round_state :=
  let req := sec_request (rs_ctx r) in
  match check_request (ce_now ce) (ce_jnow ce) (ce_limiters ce) req (ce_view ce) with
  | None => raise FUndefined
  | Some (checked, _) =>
      _ ← tell (IoCheck ce req checked);
      let result := chk_security checked in
      let ctx := with_verdict (rs_ctx r) result in
      let rejected := negb (cr_status result =? 0) in
      mret (mkRound (if rejected then rejection ctx result else ctx) (rejected || rs_handled r) (rs_proxy_response r)
              (chk_generation checked) (chk_cors_policy checked))
  end.

(** The initial check. *)
Definition initial_check (r : round_state) : session round_state :=
  if negb (rs_handled r) && sc_security_rules cfg then run_security_check (re_check env) r else mret r.

(** The local answer to a preflight; with [was_preflight]. *)
Definition preflight (r : round_state) : round_state * bool :=
  match rs_cors_policy r with
  | Some policy =>
      if negb (rs_handled r) && cors_enabled policy && beqb method_str "OPTIONS" &&
         negb (beqb (get_header (rs_ctx r) "Access-Control-Request-Method") []) then
        match build_preflight_response (rs_ctx r) policy with
        | Some ctx => (set_handled r ctx, true)
        | None => (r, false)
        end
      else (r, false)
  | None => (r, false)
  end.

(** The exact route, else the longest prefix. *)
Definition local_routes (r : round_state) : session round_state :=
  if rs_handled r then mret r
  else match local_handler (sc_routes cfg) (sc_prefix_routes cfg) path_str with
  | None => mret r
  | Some h =>
      _ ← tell (IoHandler h (rs_ctx r));
      match re_handler env h (rs_ctx r) with
      | HandlerDone ctx => mret (set_handled r ctx)
      | HandlerSystemError => raise FSystemError
      | HandlerException => raise FException
      end
  end.

(** The rounds of the consistency loop; the route with the round it comes from. *)
Fixpoint consistency_loop (attempts : list attempt_env) (r : round_state) :
    session (round_state * option (attempt_env * RouteResult)) :=
  match attempts with
  | [] => mret (r, None)
  | ae :: rest =>
      r ← (if sc_security_rules cfg && negb (rs_security_generation r =? ae_sec_before ae)
           then run_security_check (ae_check ae) r else mret r);
      if rs_handled r then mret (r, None)
      else match route (ae_manager ae) path_str with
      | Throw _ => raise FException
      | Ret upstream =>
          let generations_consistent :=
            (ae_up_after ae =? ae_up_before ae) &&
            (negb (sc_security_rules cfg) || (rs_security_generation r =? ae_sec_after ae)) in
          if generations_consistent then mret (r, (λ u, (ae, u)) <$> upstream) else consistency_loop rest r
      end
  end.

Definition dynamic_route (r : round_state) : session round_state :=
  if rs_handled r then mret r
  else
    '(r, upstream) ← consistency_loop (re_attempt env <$> seq 0 (Z.to_nat kMaxConfigConsistencyAttempts)) r;
    match upstream with
    | None => mret r
    | Some (ae, upstream) =>
        let ex := forward method_str upstream request_header_state (re_pool_cfg env (route_pool upstream))
                    (re_first env) (re_second env) (rs_ctx r) in
        _ ← tell (IoForward ae upstream (rs_ctx r) (ex_writes ex));
        mret (mkRound (ex_ctx ex) (ex_handled ex) (ex_proxy_response ex) (rs_security_generation r) (rs_cors_policy r))
    end.

(** The 404 of an unhandled request, and the CORS headers of the response. *)
Definition not_found (r : round_state) : HttpContext :=
  if rs_handled r then rs_ctx r else fail_with (rs_ctx r) 404 "not found".

Definition cors_headers (r : round_state) (was_preflight : bool) (ctx : HttpContext) : HttpContext :=
  match rs_cors_policy r with
  | Some policy => if cors_enabled policy && negb was_preflight then apply_cors_headers ctx policy else ctx
  | None => ctx
  end.

(** Whether the connection is kept after the response. *)
Definition keeps_connection (ctx : HttpContext) : bool :=
  let tokens := (split_connection_tokens (get_header ctx "Connection")).1 in
  io_ok (re_write env) &&
  negb ((status_code ctx =? 400) || (status_code ctx =? 408) || (status_code ctx =? 413)) &&
  negb ((minor_version =? 0) && negb (tok_keep_alive tokens)) && negb (tok_close tokens) && negb (re_draining env).

(** From the request that was read to the decision to go on. *)
Definition serve_request (r : round_state) : session bool :=
  r ← initial_check r;
  let '(r, was_preflight) := preflight r in
  r ← local_routes r;
  r ← dynamic_route r;
  let ctx := cors_headers r was_preflight (not_found r) in
  _ ← tell (IoRespond ctx (build_downstream_response ctx method_str (rs_proxy_response r)));
  mret (keeps_connection ctx).

End round.

(** ** The loop *)

(** A request with what was done for it.  [sv_failure] is the answer to a body
    that could not be read. *)
Record served_request := mkServed {
  sv_ctx : HttpContext;
  sv_state : HeaderParseState;
  sv_minor : Z;
  sv_failure : option (Z * bytes);
  sv_ios : list session_io
}.

(** How a session ends: the client stopped or sent a head that was answered with
    an error, the loop was left, it waits for the client, or the limiter's
    undefined behaviour; [EndFuel] is shown not to happen. *)
Inductive session_end := EndNoRequest (e : head_event) | EndClosed | EndWaiting | EndUndefined | EndFuel.

(** The [catch] clauses: the last response of a session that met an exception. *)
Definition final_error (f : fault) : list session_io :=
  match f with
  | FSystemError => [IoAbort (build_error_response 500 "Internal Server Error" (error_body 500 "connection error"))]
  | FException => [IoAbort (build_error_response 500 "Internal Server Error" (error_body 500 "internal server error"))]
  | FUndefined => []
  end.

(** The round of a request whose body was read, or of one that was refused. *)
Definition request_round (cfg : session_cfg) (env : round_env) (ctx : HttpContext) (st : HeaderParseState)
    (minor_version : Z) (failure : option (Z * bytes)) : session bool :=
  let r := match failure with
           | None => mkRound ctx false false 0 None
           | Some (status, body) =>
               mkRound (answer ctx status (response_status_text ctx) body (response_headers ctx)) true false 0 None
           end in
  serve_request cfg env (ctx_method ctx) (ctx_path ctx) st minor_version r.

(** What was done, and how the session goes on: [inr true] with another round. *)
Definition round_end (result : fault + bool) : list session_io * (session_end + unit) :=
  match result with
  | inl f => (final_error f, inl match f with FUndefined => EndUndefined | _ => EndClosed end)
  | inr false => ([], inl EndClosed)
  | inr true => ([], inr tt)
  end.

Fixpoint session_loop (fuel : nat) (cfg : session_cfg) (envs : nat → round_env) (n : nat) (sk : sock)
    (client_preread : bytes) : list served_request * session_end :=
  match fuel with
  | O => ([], EndFuel)
  | S fuel =>
      let serve ctx st minor failure rest sk :=
        let '(ios, result) := request_round cfg (envs n) ctx st minor failure in
        let '(last, next) := round_end result in
        let '(more, e) := match next with
                          | inl e => ([], e)
                          | inr _ => session_loop fuel cfg envs (S n) sk rest
                          end in
        (mkServed ctx st minor failure (ios ++ last) :: more, e) in
      if negb (re_running (envs n)) then ([], EndClosed)
      else match read_request sk client_preread with
      | Suspended => ([], EndWaiting)
      | OutOfFuel => ([], EndFuel)
      | Done (None, _) => ([], EndUndefined)
      | Done (Some (NoRequest e), _) => ([], EndNoRequest e)
      | Done (Some (BadBody ctx st minor failure rest), sk) => serve ctx st minor (Some failure) rest sk
      | Done (Some (Request ctx st minor rest), sk) => serve ctx st minor None rest sk
      end
  end.

(** Every request takes at least one byte of the connection. *)
Definition session_run (cfg : session_cfg) (envs : nat → round_env) (sk : sock) : list served_request * session_end :=
  session_loop (S (length (stream sk []))) cfg envs 0 sk [].

(** ** What a session promises *)

(** The limiters every check of a round meets are in a consistent state. *)
Definition check_consistent (ce : check_env) : Prop := ∀ s, (ce_view ce).1 = Some s → limiters_ok (ce_limiters ce) s.

Definition env_consistent (env : round_env) : Prop :=
  check_consistent (re_check env) ∧ ∀ n, check_consistent (ae_check (re_attempt env n)).

Section promise.
Context (cfg : session_cfg) (ctx0 : HttpContext) (st : HeaderParseState).

Abbreviation method_str := (ctx_method ctx0).
Abbreviation path_str := (ctx_path ctx0).
Abbreviation req0 := (sec_request cfg method_str path_str ctx0).

(** A check of this request by a snapshot whose every control admits it. *)
Definition admits (e : session_io) : Prop :=
  match e with
  | IoCheck ce req checked =>
      req = req0 ∧ cr_status (chk_security checked) = 0 ∧
      ∃ s, (ce_view ce).1 = Some s ∧ lets_through (ce_now ce) (ce_jnow ce) (ce_limiters ce) req0 s
  | _ => False
  end.

Definition rejects (e : session_io) (status : Z) : Prop :=
  match e with
  | IoCheck _ req checked => req = req0 ∧ cr_status (chk_security checked) = status ∧ status ≠ 0
  | _ => False
  end.

(** The request with what the last check found out about the client. *)
Definition judged_by (checks : list session_io) : HttpContext :=
  match last checks with
  | Some (IoCheck _ _ checked) => with_verdict ctx0 (chk_security checked)
  | _ => ctx0
  end.

(** The last check was made under this generation of the rules. *)
Definition judged_under (checks : list session_io) (generation : Z) : Prop :=
  match last checks with
  | Some (IoCheck _ _ checked) => chk_generation checked = generation
  | _ => False
  end.

(** Handing the request to a local handler or to an upstream. *)
Definition hands_on (e : session_io) : bool :=
  match e with IoHandler _ _ | IoForward _ _ _ _ => true | _ => false end.

Definition is_handler (e : session_io) : bool :=
  match e with IoHandler _ _ => true | _ => false end.

Definition is_response (e : session_io) : bool :=
  match e with IoRespond _ _ | IoAbort _ => true | _ => false end.

(** The bytes of an answer: a response built for the request, or the error of an
    exception. *)
Definition response_ok (e : session_io) : Prop :=
  match e with
  | IoRespond ctx resp => ∃ proxied, resp = build_downstream_response ctx method_str proxied
  | IoAbort resp => ∃ msg, resp = build_error_response 500 "Internal Server Error" (error_body 500 msg)
  | _ => False
  end.

Definition action_ok (checks : list session_io) (e : session_io) : Prop :=
  match e with
  | IoHandler h ctx =>
      local_handler (sc_routes cfg) (sc_prefix_routes cfg) path_str = Some h ∧ ctx = judged_by checks
  | IoForward ae upstream ctx writes =>
      local_handler (sc_routes cfg) (sc_prefix_routes cfg) path_str = None ∧ ctx = judged_by checks ∧
      route (ae_manager ae) path_str = Ret (Some upstream) ∧ ae_up_after ae = ae_up_before ae ∧
      (sc_security_rules cfg = true → judged_under checks (ae_sec_after ae)) ∧
      ∃ k keep_alive, (k ≤ 2)%nat ∧
        writes = replicate k (build_proxy_request method_str (upstream_path upstream) (route_config upstream) ctx st keep_alive)
  | _ => False
  end.

(** *** Rounds, step by step *)

Definition post (A : Type) : Type := list session_io → fault + A → Prop.

Definition swp {A} (m : session A) (Q : post A) : Prop := Q m.1 m.2.

Lemma swp_ret {A} (a : A) (Q : post A) : Q [] (inr a) → swp (mret a) Q.
Proof. done. Qed.

Lemma swp_bind {A B} (m : session A) (k : A → session B) (Q : post B) :
  swp m (λ ios r, match r with inl f => Q ios (inl f) | inr a => swp (k a) (λ ios', Q (ios ++ ios')) end) → swp (m ≫= k) Q.
Proof. unfold swp. destruct m as [ios [f|a]]; cbn; [done|]. by destruct (k a). Qed.

Lemma swp_mono {A} (m : session A) (P Q : post A) : (∀ ios r, P ios r → Q ios r) → swp m P → swp m Q.
Proof. unfold swp. auto. Qed.

Lemma swp_tell {B} e (k : unit → session B) (Q : post B) :
  swp (k tt) (λ ios, Q (e :: ios)) → swp (tell e ≫= k) Q.
Proof. intros Hk. by apply swp_bind. Qed.

(** The request is still to be handled: the checks so far admit it. *)
Definition pending (checks : list session_io) (r : round_state) : Prop :=
  Forall admits checks ∧ rs_handled r = false ∧ rs_proxy_response r = false ∧ rs_ctx r = judged_by checks ∧
  match last checks with
  | Some (IoCheck _ _ checked) => rs_security_generation r = chk_generation checked
  | _ => True
  end.

(** The check that was made last rejected the request. *)
Definition rejected (checks : list session_io) (r : round_state) : Prop :=
  ∃ before c status, checks = before ++ [c] ∧ Forall admits before ∧ rejects c status ∧
    rs_handled r = true ∧ rs_proxy_response r = false ∧ status_code (rs_ctx r) = status ∧
    ctx_headers (rs_ctx r) = ctx_headers ctx0.

Lemma judged_by_headers checks : ctx_headers (judged_by checks) = ctx_headers ctx0.
Proof. unfold judged_by. destruct (last checks) as [[]|]; done. Qed.

Lemma judged_by_with_verdict checks res : with_verdict (judged_by checks) res = with_verdict ctx0 res.
Proof. unfold judged_by. destruct (last checks) as [[]|]; done. Qed.

Lemma sec_request_headers ctx : ctx_headers ctx = ctx_headers ctx0 → sec_request cfg method_str path_str ctx = req0.
Proof. unfold sec_request, get_header. by intros ->. Qed.

Lemma run_security_check_spec ce checks r : pending checks r →
  swp (run_security_check cfg method_str path_str ce r) (λ ios res,
    match res with
    | inl f => ios = [] ∧ f = FUndefined ∧ ¬ check_consistent ce
    | inr r' => (∃ c, ios = [c]) ∧ (pending (checks ++ ios) r' ∨ rejected (checks ++ ios) r')
    end).
Proof.
  intros (Hadm & Hh & Hp & Hctx & _). unfold run_security_check.
  rewrite sec_request_headers by (rewrite Hctx; apply judged_by_headers).
  destruct (check_request _ _ _ _ _) as [[checked ls]|] eqn:Ec.
  2:{ split_and!; [done|done|]. intros Hok.
      destruct (check_request_total (ce_now ce) (ce_jnow ce) _ req0 _ Hok) as [? Hs]. congruence. }
  apply swp_tell, swp_ret. rewrite Hctx, judged_by_with_verdict. split; [eauto|].
  destruct (cr_status (chk_security checked) =? 0) eqn:Es; bool_prop; cbn [negb orb].
  - left. split_and!; cbn; rewrite ?last_snoc; try done.
    + apply Forall_app. split; [done|]. apply Forall_singleton. split_and!; [done|done|].
      by eapply check_request_admits.
    + unfold judged_by. by rewrite last_snoc.
  - right. exists checks, (IoCheck ce req0 checked), (cr_status (chk_security checked)). by split_and!.
Qed.

(** What the consistency loop has established about a route. *)
Definition routed (checks : list session_io) (ae : attempt_env) (upstream : RouteResult) : Prop :=
  route (ae_manager ae) path_str = Ret (Some upstream) ∧ ae_up_after ae = ae_up_before ae ∧
  (sc_security_rules cfg = true → judged_under checks (ae_sec_after ae)).

(** The checks of a loop that an exception has left. *)
Definition left_by (checks : list session_io) (consistent : Prop) (f : fault) : Prop :=
  Forall admits checks ∧ (f = FException ∨ f = FUndefined ∧ ¬ consistent).

Lemma consistency_loop_spec attempts checks r :
  pending checks r → (sc_security_rules cfg = true → checks ≠ []) →
  swp (consistency_loop cfg method_str path_str attempts r) (λ ios res,
    match res with
    | inl f => left_by (checks ++ ios) (Forall (λ ae, check_consistent (ae_check ae)) attempts) f
    | inr (r', None) => pending (checks ++ ios) r' ∨ rejected (checks ++ ios) r'
    | inr (r', Some (ae, upstream)) => pending (checks ++ ios) r' ∧ routed (checks ++ ios) ae upstream
    end).
Proof.
  revert checks r. induction attempts as [|ae attempts IH]; intros checks r Hp Hne; cbn [consistency_loop].
  { apply swp_ret. rewrite app_nil_r. by left. }
  apply swp_bind. apply (swp_mono _ (λ ios res, match res with
    | inl f => ios = [] ∧ f = FUndefined ∧ ¬ check_consistent (ae_check ae)
    | inr r' => pending (checks ++ ios) r' ∨ rejected (checks ++ ios) r' end)).
  2:{ case_if; [|apply swp_ret; rewrite app_nil_r; by left].
      eapply swp_mono; [|by apply run_security_check_spec]. intros ios [f|r']; [done|]. by intros [_ ?]. }
  intros ios [f|r'].
  { intros (-> & -> & Hc). rewrite app_nil_r. split; [apply Hp|]. right. split; [done|].
    rewrite Forall_cons. naive_solver. }
  intros [Hp'|Hr'].
  2:{ destruct Hr' as (b & c & s & Heq & ? & ? & Hh & ?). rewrite Hh. apply swp_ret. rewrite app_nil_r. right. by exists b, c, s. }
  pose proof Hp' as (_ & Hh & _ & _ & Hg). rewrite Hh.
  assert (sc_security_rules cfg = true → checks ++ ios ≠ []) as Hne'.
  { intros Hs [E _]%app_eq_nil. by apply Hne. }
  destruct (route (ae_manager ae) path_str) as [upstream|what] eqn:Er.
  2:{ split; [|by left]. rewrite app_nil_r. apply Hp'. }
  destruct ((ae_up_after ae =? ae_up_before ae) && _) eqn:Eg.
  - apply swp_ret. rewrite app_nil_r. destruct upstream as [up|]; cbn; [|by left]. split; [done|]. bool_prop.
    split_and!; [done..|]. intros Hs. unfold judged_under. specialize (Hne' Hs).
    destruct (last (checks ++ ios)) as [e|] eqn:El; [|by apply last_None in El].
    assert (admits e) as He. { destruct Hp' as [Ha _]. rewrite Forall_forall in Ha. apply Ha. by apply last_Some_elem_of. }
    destruct e; try done. destruct H4 as [H4|H4]; [by rewrite Hs in H4|]. bool_prop. congruence.
  - eapply swp_mono; [|by apply (IH (checks ++ ios))]. intros ios' [f|[r'' [[ae' up]|]]]; rewrite <- app_assoc; try done.
    intros [Ha Hf]. split; [done|]. destruct Hf as [->|[-> Hc]]; [by left|right]. split; [done|].
    rewrite Forall_cons. naive_solver.
Qed.

(** *** The trace of a round *)

(** The checks that admit, then a rejection and its answer, an answer, an action
    and its answer, or the answer to an exception. *)
Inductive round_trace : list session_io → Prop :=
| trace_rejected checks c status ctx resp :
    Forall admits checks → rejects c status → status_code ctx = status → ctx_headers ctx = ctx_headers ctx0 →
    response_ok (IoRespond ctx resp) → round_trace (checks ++ [c; IoRespond ctx resp])
| trace_answered checks ctx resp :
    Forall admits checks → ctx_headers ctx = ctx_headers ctx0 → response_ok (IoRespond ctx resp) →
    round_trace (checks ++ [IoRespond ctx resp])
| trace_aborted checks resp : Forall admits checks → response_ok (IoAbort resp) → round_trace (checks ++ [IoAbort resp])
| trace_acted checks a final :
    Forall admits checks → (sc_security_rules cfg = true → checks ≠ []) → action_ok checks a → response_ok final →
    (is_handler a = false → ∀ ctx resp, final = IoRespond ctx resp → ctx_headers ctx = ctx_headers ctx0) →
    round_trace (checks ++ [a; final]).

(** What is left when the round has handed the request on. *)
Definition acted (checks : list session_io) (r : round_state) : Prop :=
  ∃ before a, checks = before ++ [a] ∧ Forall admits before ∧ (sc_security_rules cfg = true → before ≠ []) ∧
    action_ok before a ∧ rs_handled r = true ∧ (is_handler a = false → ctx_headers (rs_ctx r) = ctx_headers ctx0).

(** Before the local routes: pending, rejected, or a preflight with its answer. *)
Definition preflighted (checks : list session_io) (r : round_state) : Prop :=
  Forall admits checks ∧ rs_handled r = true ∧ ctx_headers (rs_ctx r) = ctx_headers ctx0.

Definition settled (checks : list session_io) (r : round_state) : Prop :=
  rejected checks r ∨ preflighted checks r ∨ acted checks r.

(** A fault of a round: its trace is complete once the [catch] has answered. *)
Definition faulted (env : round_env) (ios : list session_io) (f : fault) : Prop :=
  match f with
  | FUndefined => Forall admits ios ∧ ¬ env_consistent env
  | _ => round_trace (ios ++ final_error f)
  end.

Definition checked_enough (checks : list session_io) : Prop := sc_security_rules cfg = true → checks ≠ [].

Lemma settled_handled checks r : settled checks r → rs_handled r = true.
Proof. intros [(? & ? & ? & ? & ? & ? & ? & _)|[(? & ? & _)|(? & ? & ? & ? & ? & ? & ? & _)]]; done. Qed.

Lemma initial_check_spec env r : pending [] r →
  swp (initial_check cfg env method_str path_str r) (λ ios res,
    match res with
    | inl f => faulted env ios f
    | inr r' => checked_enough ios ∧ (pending ios r' ∨ rejected ios r')
    end).
Proof.
  intros Hp. pose proof Hp as (_ & Hh & _). unfold initial_check, checked_enough. rewrite Hh. cbn [negb andb].
  destruct (sc_security_rules cfg) eqn:Hs; [|apply swp_ret; by auto].
  eapply swp_mono; [|by apply (run_security_check_spec _ [])]. intros ios [f|r'].
  - intros (-> & -> & Hc). split; [constructor|]. intros [Hok _]. done.
  - intros [[c ->] ?]. by split.
Qed.

Lemma preflight_spec checks r : pending checks r →
  let '(r', was) := preflight method_str r in
  (r' = r ∧ was = false) ∨ (was = true ∧ preflighted checks r').
Proof.
  intros (Ha & Hh & _ & Hc & _). unfold preflight. destruct (rs_cors_policy r) as [policy|]; [|by left].
  destruct (negb _ && _ && _ && _); [|by left]. destruct (build_preflight_response _ _) as [ctx|] eqn:E; [|by left].
  right. split; [done|]. split_and!; [done|done|]. revert E. unfold build_preflight_response.
  destruct (negb _); [done|]. destruct (resolve_origin _ _); [|done]. intros [= <-]. cbn. rewrite Hc. apply judged_by_headers.
Qed.

Lemma preflight_handled r : rs_handled r = true → preflight method_str r = (r, false).
Proof. intros Hh. unfold preflight. rewrite Hh. by destruct (rs_cors_policy r). Qed.

Lemma local_routes_spec env checks r : pending checks r → checked_enough checks →
  swp (local_routes cfg env path_str r) (λ ios res,
    match res with
    | inl f => faulted env (checks ++ ios) f
    | inr r' => (ios = [] ∧ r' = r ∧ local_handler (sc_routes cfg) (sc_prefix_routes cfg) path_str = None) ∨
                acted (checks ++ ios) r'
    end).
Proof.
  intros (Ha & Hh & _ & Hc & _) Hne. unfold local_routes. rewrite Hh.
  destruct (local_handler _ _ _) as [h|] eqn:El; [|apply swp_ret; by left].
  assert (∀ e, response_ok e → round_trace ((checks ++ [IoHandler h (rs_ctx r)]) ++ [e])) as Hend.
  { intros e He. rewrite <- app_assoc. by apply trace_acted. }
  apply swp_tell. destruct (re_handler env h (rs_ctx r)) as [ctx| |].
  - apply swp_ret. right. exists checks, (IoHandler h (rs_ctx r)). by split_and!.
  - apply Hend. by eexists.
  - apply Hend. by eexists.
Qed.

Lemma env_attempts env n : env_consistent env →
  Forall (λ ae, check_consistent (ae_check ae)) (re_attempt env <$> seq 0 n).
Proof. intros [_ Hok]. apply Forall_fmap, Forall_forall. intros i _. apply Hok. Qed.

Lemma dynamic_route_spec env checks r :
  pending checks r → checked_enough checks → local_handler (sc_routes cfg) (sc_prefix_routes cfg) path_str = None →
  swp (dynamic_route cfg env method_str path_str st r) (λ ios res,
    match res with
    | inl f => faulted env (checks ++ ios) f
    | inr r' => pending (checks ++ ios) r' ∨ rejected (checks ++ ios) r' ∨ acted (checks ++ ios) r'
    end).
Proof.
  intros Hp Hne Hl. pose proof Hp as (_ & Hh & _). unfold dynamic_route. rewrite Hh.
  apply swp_bind. eapply swp_mono; [|by apply (consistency_loop_spec _ checks)]. intros ios [f|[r' [[ae up]|]]].
  - intros [Ha Hf]. destruct Hf as [->|[-> Hn]]; cbn [faulted final_error].
    + apply trace_aborted; [done|]. by eexists.
    + split; [done|]. intros Hok. by apply Hn, env_attempts.
  - intros [Hp' (Hr & Hg & Hj)]. pose proof Hp' as (Ha & _ & _ & Hc & _). apply swp_tell, swp_ret. right. right.
    destruct (forward_exchange method_str up st (re_pool_cfg env (route_pool up)) (re_first env) (re_second env) (rs_ctx r'))
      as (Hhd & _ & Hw).
    rewrite app_assoc. eexists _, _. split; [done|]. split; [done|]. split.
    { intros Hs E. apply app_eq_nil in E as [E _]. by apply Hne. }
    split; [|split; [done|intros _; cbn [rs_ctx]; rewrite forward_headers, Hc; apply judged_by_headers]].
    split; [done|]. split; [done|]. split; [done|]. split; [done|]. split; [done|].
    set (k := send_keep_alive_header _) in *. destruct Hw as [->|[->|[-> _]]].
    + exists 0%nat, k. split; [lia|done].
    + exists 1%nat, k. split; [lia|done].
    + exists 2%nat, k. split; [lia|done].
  - intros [?|?]; apply swp_ret; rewrite app_nil_r; auto.
Qed.

(** The connection may carry another request after this one. *)
Definition persistent (minor : Z) (ctx : HttpContext) : Prop :=
  let tokens := (split_connection_tokens (get_header ctx "Connection")).1 in
  status_code ctx ≠ 400 ∧ status_code ctx ≠ 408 ∧ status_code ctx ≠ 413 ∧
  tok_close tokens = false ∧ (minor = 0 → tok_keep_alive tokens = true).

Definition round_post (env : round_env) (minor : Z) : post bool := λ ios res,
  match res with
  | inl f => faulted env ios f
  | inr keep => round_trace ios ∧ (keep = true → ∃ ctx resp, last ios = Some (IoRespond ctx resp) ∧ persistent minor ctx)
  end.

Lemma keeps_connection_persistent env minor ctx : keeps_connection env minor ctx = true → persistent minor ctx.
Proof.
  unfold keeps_connection, persistent. cbv zeta. rewrite !andb_true_iff, !negb_true_iff, !orb_false_iff, !Z.eqb_neq.
  intros ((((_ & [[H400 H408] H413]) & Hm) & Hc) & _). split_and!; [done..|]. intros ->. cbn in Hm. by apply negb_false_iff.
Qed.

Lemma cors_headers_keep r was ctx :
  ctx_headers (cors_headers r was ctx) = ctx_headers ctx ∧ status_code (cors_headers r was ctx) = status_code ctx.
Proof. unfold cors_headers, apply_cors_headers. repeat case_match; done. Qed.

Lemma not_found_handled r : rs_handled r = true → not_found r = rs_ctx r.
Proof. unfold not_found. by intros ->. Qed.

(** The answer of a round that is not pending, or that nobody handles. *)
Lemma respond_spec env minor checks r was :
  pending checks r ∨ settled checks r →
  let ctx := cors_headers r was (not_found r) in
  round_post env minor (checks ++ [IoRespond ctx (build_downstream_response ctx method_str (rs_proxy_response r))])
    (inr (keeps_connection env minor ctx)).
Proof.
  intros Hr ctx. destruct (cors_headers_keep r was (not_found r)) as [Hhd Hst]. fold ctx in Hhd, Hst. split.
  2:{ intros Hk. eexists _, _. rewrite last_snoc. split; [done|]. by apply keeps_connection_persistent in Hk. }
  destruct Hr as [(Ha & Hh & _ & Hc & _)|Hs].
  { apply trace_answered; [done| |by eexists]. rewrite Hhd. unfold not_found. rewrite Hh. cbn. rewrite Hc. apply judged_by_headers. }
  rewrite (not_found_handled _ (settled_handled _ _ Hs)) in Hhd, Hst. destruct Hs as [Hj|[Hp|Ha]].
  - destruct Hj as (before & c & status & -> & Ha & Hrej & _ & _ & Hs & Hx). rewrite <- app_assoc.
    eapply trace_rejected; [done|done|congruence|congruence|by eexists].
  - destruct Hp as (Ha & _ & Hx). apply trace_answered; [done|congruence|by eexists].
  - destruct Ha as (before & a & -> & Ha & Hne & Hok & _ & Hx). rewrite <- app_assoc.
    apply trace_acted; [done..|by eexists|]. intros Hn ctx' resp [= <- _]. rewrite Hhd. by apply Hx.
Qed.

(** From the local routes on. *)
Lemma serve_rest_spec env minor checks r was :
  checked_enough checks → pending checks r ∨ rejected checks r ∨ preflighted checks r →
  swp (r ← local_routes cfg env path_str r;
      r ← dynamic_route cfg env method_str path_str st r;
      let ctx := cors_headers r was (not_found r) in
      _ ← tell (IoRespond ctx (build_downstream_response ctx method_str (rs_proxy_response r)));
      mret (keeps_connection env minor ctx)) (λ ios, round_post env minor (checks ++ ios)).
Proof.
  intros Hne Hr. destruct Hr as [Hp|Hs].
  2:{ assert (settled checks r) as Hs' by (unfold settled; tauto). pose proof (settled_handled _ _ Hs') as Hh.
      unfold local_routes, dynamic_route. apply swp_bind. rewrite Hh. apply swp_ret, swp_bind. rewrite Hh.
      apply swp_ret, swp_tell, swp_ret. cbn [app]. apply respond_spec. by right. }
  apply swp_bind. eapply swp_mono; [|by apply local_routes_spec]. intros ios [f|r']; [done|].
  intros [(-> & -> & Hl)|Ha].
  - apply swp_bind. eapply swp_mono; [|by apply dynamic_route_spec]. intros ios' [f|r'']; [done|].
    intros Hr. apply swp_tell, swp_ret. cbn [app]. rewrite app_assoc. apply respond_spec. unfold settled. tauto.
  - assert (settled (checks ++ ios) r') as Hs by (unfold settled; auto).
    apply swp_bind. unfold dynamic_route. rewrite (settled_handled _ _ Hs). apply swp_ret, swp_tell, swp_ret.
    cbn [app]. rewrite app_assoc. apply respond_spec. by right.
Qed.

Lemma serve_request_spec env minor :
  swp (serve_request cfg env method_str path_str st minor (mkRound ctx0 false false 0 None)) (round_post env minor).
Proof.
  unfold serve_request. apply swp_bind. eapply swp_mono; [|apply initial_check_spec; by split_and!].
  intros ios [f|r]; [done|]. intros [Hne [Hp|Hj]].
  - pose proof (preflight_spec _ _ Hp) as Hf. destruct (preflight method_str r) as [r' was].
    apply (serve_rest_spec env minor ios r' was Hne). destruct Hf as [[-> _]|[_ ?]]; auto.
  - rewrite preflight_handled by (by apply (settled_handled ios); left).
    apply (serve_rest_spec env minor ios r false Hne). auto.
Qed.

(** *** Reading a trace *)

Lemma admits_plain e : admits e → hands_on e = false ∧ is_response e = false ∧ is_handler e = false ∧ ∀ status, ¬ rejects e status.
Proof. destruct e; try done. cbn. intros (_ & ? & _). split_and!; [done..|]. intros status (_ & ? & ?). congruence. Qed.

(** An event that is not an admitting check is behind the checks. *)
Lemma behind_checks checks t pre e post' :
  checks ++ t = pre ++ e :: post' → Forall admits checks → ¬ admits e → ∃ pre', pre = checks ++ pre' ∧ t = pre' ++ e :: post'.
Proof.
  intros Heq Ha Hn. apply app_eq_inv in Heq as [(k & -> & Hk)|(k & -> & ->)]; [|by exists k].
  destruct k as [|x k]; cbn in Hk.
  - exists []. by rewrite !app_nil_r.
  - injection Hk as -> ->. by apply Forall_app in Ha as [_ [? _]%Forall_cons].
Qed.

Lemma two_events {A} (pre post' : list A) x y e :
  [x; y] = pre ++ e :: post' → (pre = [] ∧ e = x ∧ post' = [y]) ∨ (pre = [x] ∧ e = y ∧ post' = []).
Proof.
  destruct pre as [|a [|b pre]]; cbn; intros [= -> Heq]; [left; by subst|right; by simplify_eq|].
  by destruct pre.
Qed.

Lemma one_event {A} (pre post' : list A) x e : [x] = pre ++ e :: post' → pre = [] ∧ e = x ∧ post' = [].
Proof. destruct pre as [|a pre]; cbn; [by intros [= <- <-]|]. by destruct pre. Qed.

Lemma trace_action ios pre a post' : round_trace ios → ios = pre ++ a :: post' → hands_on a = true →
  Forall admits pre ∧ (sc_security_rules cfg = true → pre ≠ []) ∧ action_ok pre a.
Proof.
  intros Ht Heq Ha. assert (¬ admits a) as Hn by (intros [Hx _]%admits_plain; congruence). revert Heq.
  destruct Ht as [checks c status ctx resp Hc Hr _ _ Hb|checks ctx resp Hc _ Hb|checks resp Hc Hb|checks x final Hc Hne Hok Hf _];
    intros Heq; (apply behind_checks in Heq as (pre' & -> & Ht); [|done|done]).
  - apply two_events in Ht as [(-> & -> & _)|(-> & -> & _)]; [by destruct c|done].
  - by apply one_event in Ht as (-> & -> & _).
  - by apply one_event in Ht as (-> & -> & _).
  - apply two_events in Ht as [(-> & -> & _)|(-> & -> & _)]; [by rewrite app_nil_r|by destruct final].
Qed.

Lemma trace_rejection ios pre c post' status : round_trace ios → ios = pre ++ c :: post' → rejects c status →
  ∃ ctx resp, post' = [IoRespond ctx resp] ∧ status_code ctx = status.
Proof.
  intros Ht Heq Hr. assert (¬ admits c) as Hn by (intros (_ & _ & _ & Hx)%admits_plain; by apply (Hx status)). revert Heq.
  destruct Ht as [checks c' status' ctx resp Hc Hr' Hs _ _|checks ctx resp Hc _ _|checks resp Hc _|checks x final Hc Hne Hok Hf _];
    intros Heq; (apply behind_checks in Heq as (pre' & -> & Ht); [|done|done]).
  - apply two_events in Ht as [(-> & -> & ->)|(-> & -> & _)]; [|done]. exists ctx, resp. split; [done|].
    destruct c'; try done. destruct Hr as (_ & <- & _), Hr' as (_ & <- & _). done.
  - by apply one_event in Ht as (-> & -> & _).
  - by apply one_event in Ht as (-> & -> & _).
  - apply two_events in Ht as [(-> & -> & _)|(-> & -> & _)]; [by destruct x|by destruct final].
Qed.

Lemma trace_response ios : round_trace ios →
  ∃ before final, ios = before ++ [final] ∧ response_ok final ∧ Forall (λ e, is_response e = false) before.
Proof.
  assert (∀ l, Forall admits l → Forall (λ e, is_response e = false) l) as Himp.
  { intros l Hl. eapply Forall_impl; [exact Hl|]. intros e. by intros (_ & ? & _)%admits_plain. }
  intros [checks c status ctx resp Hc Hr _ _ Hb|checks ctx resp Hc _ Hb|checks resp Hc Hb|checks x final Hc Hne Hok Hf _].
  - exists (checks ++ [c]), (IoRespond ctx resp). rewrite <- app_assoc. split; [done|]. split; [done|].
    apply Forall_app. split; [auto|]. apply Forall_singleton. by destruct c.
  - eexists _, _. by split; [done|]; split; [exact Hb|apply Himp].
  - eexists _, _. by split; [done|]; split; [exact Hb|apply Himp].
  - exists (checks ++ [x]), final. rewrite <- app_assoc. split; [done|]. split; [done|].
    apply Forall_app. split; [auto|]. apply Forall_singleton. by destruct x.
Qed.

Lemma trace_headers ios ctx resp : round_trace ios → last ios = Some (IoRespond ctx resp) →
  Forall (λ e, is_handler e = false) ios → ctx_headers ctx = ctx_headers ctx0.
Proof.
  intros [checks c status ctx' resp' Hc Hr _ Hh _|checks ctx' resp' Hc Hh _|checks resp' Hc _|checks x final Hc Hne Hok Hf Hh] Hl Hn.
  - replace [c; IoRespond ctx' resp'] with ([c] ++ [IoRespond ctx' resp']) in Hl by done.
    rewrite app_assoc, last_snoc in Hl. by simplify_eq.
  - rewrite last_snoc in Hl. by simplify_eq.
  - by rewrite last_snoc in Hl.
  - replace [x; final] with ([x] ++ [final]) in Hl by done. rewrite app_assoc, last_snoc in Hl. simplify_eq.
    apply Forall_app in Hn as [_ [Hx _]%Forall_cons]. by eapply Hh.
Qed.

End promise.

(** *** The whole connection *)

(** A request is answered once, at the end of its round. *)
Definition answered_once (sv : served_request) : Prop :=
  ∃ before final, sv_ios sv = before ++ [final] ∧ response_ok (sv_ctx sv) final ∧ Forall (λ e, is_response e = false) before.

(** Nothing is done with a request but for the checks that admit it. *)
Definition acts_when_admitted (cfg : session_cfg) (sv : served_request) : Prop :=
  ∀ pre a post', sv_ios sv = pre ++ a :: post' → hands_on a = true →
    sv_failure sv = None ∧ Forall (admits cfg (sv_ctx sv)) pre ∧ (sc_security_rules cfg = true → pre ≠ []) ∧
    action_ok cfg (sv_ctx sv) (sv_state sv) pre a.

(** A rejection ends the round with its status. *)
Definition rejection_answered (cfg : session_cfg) (sv : served_request) : Prop :=
  ∀ pre c post' status, sv_ios sv = pre ++ c :: post' → rejects cfg (sv_ctx sv) c status →
    ∃ ctx resp, post' = [IoRespond ctx resp] ∧ status_code ctx = status.

Definition round_ok (cfg : session_cfg) (sv : served_request) : Prop :=
  answered_once sv ∧ acts_when_admitted cfg sv ∧ rejection_answered cfg sv.

(** Another request may follow: the connection is persistent by the response,
    and, unless a handler has rewritten the fields, by the request's own. *)
Definition carries_on (sv : served_request) : Prop :=
  ∃ ctx resp, last (sv_ios sv) = Some (IoRespond ctx resp) ∧ persistent (sv_minor sv) ctx ∧
    (Forall (λ e, is_handler e = false) (sv_ios sv) → ctx_headers ctx = ctx_headers (sv_ctx sv)).

(** The requests are consecutive messages of the bytes the client sent; one whose
    body cannot be delimited is the last. *)
Inductive conversation : bytes → list served_request → Prop :=
| conv_end whole : conversation whole []
| conv_refused whole sv req head tail :
    sv_failure sv ≠ None → whole = head ++ tail → request_wire req head → sv_ctx sv = received_context req →
    conversation whole [sv]
| conv_next whole sv rest rounds :
    sv_failure sv = None → message_of whole (sv_ctx sv) (sv_state sv) (sv_minor sv) rest →
    (rounds ≠ [] → carries_on sv) → conversation rest rounds → conversation whole (sv :: rounds).

Lemma trace_round_ok cfg ctx st minor ios :
  round_trace cfg ctx st ios → round_ok cfg (mkServed ctx st minor None ios).
Proof.
  intros Ht. split_and!.
  - by eapply trace_response.
  - intros pre a post' Heq Ha. split; [done|]. by eapply trace_action.
  - intros pre c post' status Heq Hr. by eapply trace_rejection.
Qed.

(** The round of a request whose body was read. *)
Lemma request_round_spec cfg env ctx st minor : env_consistent env →
  let '(ios, result) := request_round cfg env ctx st minor None in
  let '(last, next) := round_end result in
  let sv := mkServed ctx st minor None (ios ++ last) in
  round_ok cfg sv ∧ match next with inl e => e = EndClosed | inr _ => carries_on sv end.
Proof.
  intros Hok. pose proof (serve_request_spec cfg ctx st env minor) as Hs. unfold swp in Hs.
  change (serve_request _ _ _ _ _ _ _) with (request_round cfg env ctx st minor None) in Hs.
  destruct (request_round _ _ _ _ _ _) as [ios [f|keep]]; cbn [fst snd round_post] in Hs.
  - destruct f; cbn [round_end faulted] in *; [by split; [apply trace_round_ok|]..|]. by destruct Hs.
  - destruct Hs as [Ht Hk].
    assert (round_ok cfg (mkServed ctx st minor None (ios ++ []))) as Hr by (rewrite app_nil_r; by apply trace_round_ok).
    destruct keep; cbn [round_end]; (split; [done|]); [|done]. rewrite app_nil_r.
    destruct (Hk eq_refl) as (c & resp & Hl & Hp). exists c, resp. split_and!; [done..|]. by eapply trace_headers.
Qed.

(** The round of a request whose body was refused: it is answered and nothing
    else, and the connection is closed. *)
Lemma refused_round_spec cfg env ctx st minor status body :
  status = 400 ∨ status = 408 ∨ status = 413 →
  ∃ ctx', request_round cfg env ctx st minor (Some (status, body)) =
    ([IoRespond ctx' (build_downstream_response ctx' (ctx_method ctx) false)], inr false).
Proof.
  intros Hs. unfold request_round, serve_request, initial_check, local_routes, dynamic_route. cbn. eexists.
  unfold mret, session_ret. do 3 f_equal. unfold keeps_connection. cbv zeta.
  destruct Hs as [->|[->| ->]]; cbn; by rewrite ?andb_false_r.
Qed.

Lemma round_ok_refused cfg ctx st minor failure ctx' :
  round_ok cfg (mkServed ctx st minor (Some failure) [IoRespond ctx' (build_downstream_response ctx' (ctx_method ctx) false)]).
Proof.
  split_and!.
  - eexists [], _. split; [done|]. split; [by eexists|constructor].
  - intros pre a post' Heq Ha. by apply one_event in Heq as (_ & -> & _).
  - intros pre c post' status Heq Hr. by apply one_event in Heq as (_ & -> & _).
Qed.

Lemma session_loop_spec fuel cfg envs n sk preread :
  (∀ n, env_consistent (envs n)) → (length (stream sk preread) < fuel)%nat →
  let '(rounds, e) := session_loop fuel cfg envs n sk preread in
  e ≠ EndFuel ∧ e ≠ EndUndefined ∧ conversation (stream sk preread) rounds ∧ Forall (round_ok cfg) rounds.
Proof.
  intros Hok. revert n sk preread. induction fuel as [|fuel IH]; intros n sk preread Hlen; [lia|]. cbn [session_loop].
  destruct (negb _); [split_and!; [done..|constructor|constructor]|].
  destruct (read_request sk preread) as [[[ev|] sk']| |] eqn:Er; [|by apply read_request_defined in Er| |
    by apply read_request_fueled in Er].
  2:{ split_and!; [done..|constructor|constructor]. }
  destruct ev as [e|ctx st minor [status body] rest|ctx st minor rest].
  - split_and!; [done..|constructor|constructor].
  - apply read_request_refused in Er as [Hs (req & head & tail & Hst & Hw & Hctx)].
    destruct (refused_round_spec cfg (envs n) ctx st minor status body Hs) as (ctx' & ->). cbn [round_end app].
    split_and!; [done..| |apply Forall_singleton, round_ok_refused]. by eapply conv_refused.
  - apply read_request_message in Er. pose proof (message_of_shorter _ _ _ _ _ Er) as Hlt.
    pose proof (request_round_spec cfg (envs n) ctx st minor (Hok n)) as Hr.
    destruct (request_round _ _ _ _ _ _) as [ios result]. destruct (round_end result) as [fin [e|u]], Hr as [Hr Hn].
    + subst e. split_and!; [done..| |by apply Forall_singleton]. by eapply conv_next; [| |done|constructor].
    + specialize (IH (S n) sk' rest ltac:(lia)). destruct (session_loop _ _ _ _ _ _) as [more e].
      destruct IH as (H3 & H4 & Hc & Hf). split_and!; [done..| |by constructor]. by eapply conv_next.
Qed.

(** C2: what a client can make the gateway do with the bytes of one connection.
    However they are cut into reads, and whatever reloads, handlers, pools,
    upstreams and other sessions do meanwhile, the session's loop ends or waits
    for the client without undefined behaviour; the requests it serves are
    consecutive messages of those bytes, a request whose body cannot be delimited
    is the last, and so is one whose response or fields end the connection.  Each
    request is answered exactly once, at the end of its round.  It is handed to a
    local handler or to an upstream only after every check made of it has
    admitted it, by a snapshot whose every control lets it through; the handler
    sees the principal of the last check; an upstream is written the request built
    from it at most twice, on a route of a table whose generation did not move,
    judged under the generation of the rules that was current after the lookup.  A
    rejection ends the round with the status of the verdict. *)
Theorem session_serves cfg envs sk :
  (∀ n, env_consistent (envs n)) →
  let '(rounds, e) := session_run cfg envs sk in
  e ≠ EndFuel ∧ e ≠ EndUndefined ∧ conversation (stream sk []) rounds ∧ Forall (round_ok cfg) rounds.
Proof. intros Hok. apply session_loop_spec; [done|]. lia. Qed.

End session.

(** ** A run *)

Module SessionRun.

Definition line (s : bytes) : bytes := s ++ CRLF.

(** Three requests for an upstream, the first with a token; the reads cut the
    first head and the second request. *)
Definition sent : bytes :=
  line "GET /orders/1 HTTP/1.1" ++ line "Authorization: Bearer tok" ++ CRLF ++
  line "OPTIONS /orders/2 HTTP/1.1" ++ CRLF ++ line "GET /orders/3 HTTP/1.1" ++ CRLF.

Definition reads : sock :=
  [mkRead ec_none false (take 30 sent); mkRead ec_none false (take 40 (drop 30 sent)); mkRead ec_none false (drop 70 sent);
   mkRead ec_eof false []].

Definition check_env_ : @check_env binary64 :=
  mkCheckEnv (mkReadings 1000 1000 1000 1001) 1000 [sample_limiter] (Some sample_snapshot, 7).

Definition attempt_env_ : @attempt_env binary64 := mkAttemptEnv 7 check_env_ 1 sample_manager 1 7.

(** An upstream that answers every request on a fresh connection. *)
Definition io_ : attempt_io :=
  mkAttempt (AcqConn false) (mkIoResult IoSuccess 1 ec_none)
    (Ret (mkProxyResponse 200 "OK" [("Content-Type" : bytes, "text/plain" : bytes)] "hi" [], false)).

Definition env_ : @round_env binary64 unit :=
  mkRoundEnv true check_env_ (λ _ ctx, HandlerDone ctx) (λ _, attempt_env_) (λ _, default_pool_config) io_ io_
    (mkIoResult IoSuccess 1 ec_none) false.

Definition cfg_ : @session_cfg unit := mkSessionCfg (Some ("10.0.0.9" : bytes)) (λ _, None) [] true.

Definition run : list served_request * session_end :=
  @session_run binary64 sample_hash DottedQuad.dotted sample_jwt unit cfg_ (λ _, env_) reads.

(** The status of a check or a response, and the number of writes. *)
Definition summary (e : @session_io binary64 unit) : Z :=
  match e with
  | IoCheck _ _ checked => cr_status (chk_security checked)
  | IoHandler _ _ => -1
  | IoForward _ _ _ writes => 1000 + Z.of_nat (length writes)
  | IoRespond ctx _ => status_code ctx
  | IoAbort _ => -2
  end.

(** Any OPTIONS request is handed to the upstream without a token, also when CORS
    is off and it is no preflight, where the same service refuses a GET. *)
Example options_forwarded_without_token :
  (λ sv, summary <$> sv_ios sv) <$> run.1 = [[0; 1001; 200]; [0; 1001; 200]; [401; 401]] ∧
  cors_enabled (snap_cors sample_snapshot) = false.
Proof. by vm_compute. Qed.

Lemma env_ok : env_consistent (H0 := sample_hash) env_.
Proof. split; [|intros n]; intros s Hs; cbn in Hs; injection Hs as <-; exact sample_limiters_ok. Qed.

End SessionRun.

Lemma session_serves_witness :
  length SessionRun.run.1 = 3%nat ∧
  conversation (stream SessionRun.reads []) SessionRun.run.1 ∧
  Forall (@round_ok binary64 sample_hash DottedQuad.dotted sample_jwt unit SessionRun.cfg_) SessionRun.run.1.
Proof.
  split; [by vm_compute|].
  pose proof (@session_serves binary64 sample_hash DottedQuad.dotted sample_jwt unit SessionRun.cfg_ (λ _, SessionRun.env_)
    SessionRun.reads (λ _, SessionRun.env_ok)) as Hs.
  unfold SessionRun.run. destruct (session_run _ _ _) as [rounds e]. destruct Hs as (_ & _ & Hc & Hr).
  split; [exact Hc|exact Hr].
Defined.
