(* ===== verification/AdminJson.v ===== *)
(** * The reader of admin requests (src/src/app/admin/config_admin_parse.cpp)

    [JsonReader] reads the bodies of the admin API: login, save, rollback, repair
    and orphan resolution.  The reader's position is the list of the bytes from
    it to the end of the input.  [skip_value] calls itself for nested values, so
    every entry point takes the number of its frames that the thread's stack can
    hold.  The theorems show that the readers end, that an accepted request
    satisfies the limits of its fields, that printed requests are read back, how
    deep the recursion goes, and what becomes of unicode escapes. *)

From S2P Require Import Prelude HttpProtocol Config Response.

(** ** Requests *)

Record ManagedFile := mkManagedFile { mf_name : bytes; mf_content : bytes }.

Record SaveRequest := mkSave { sv_base_version : Z; sv_reason : bytes; sv_files : list ManagedFile }.
Record LoginRequest := mkLogin { lg_username : bytes; lg_password : bytes }.
Record RollbackRequest := mkRollback { rb_base_version : Z; rb_target_version : Z; rb_reason : bytes }.
Record RepairRequest := mkRepair { rp_version : Z; rp_reason : bytes }.
Record OrphanResolutionRequest := mkOrphan {
  or_current_version : Z;
  or_target_version : Z;
  or_action : bytes;
  or_reason : bytes;
  or_confirmation : bytes
}.

Definition kMaxLoginFieldBytes : Z := 256.
Definition INT64_MAX : Z := 2 ^ 63 - 1.
Definition INT64_MIN : Z := - 2 ^ 63.

(** ** Results

    A value with the rest of the input, an error message (empty where the source
    returns [std::nullopt]), a stack overflow, or the loop bound of the model
    (shown not to be reached). *)
Inductive reader (A : Type) := Got (a : A) (s : bytes) | Bad (error : bytes) | StackOverflow | Exhausted.
Arguments Got {A} a s.
Arguments Bad {A} error.
Arguments StackOverflow {A}.
Arguments Exhausted {A}.

Definition rbind {A B} (m : reader A) (k : A → bytes → reader B) : reader B :=
  match m with Got a s => k a s | Bad e => Bad e | StackOverflow => StackOverflow | Exhausted => Exhausted end.

Declare Scope reader_scope.
Notation "'read' x 'at' s 'from' m 'in' k" := (rbind m (λ x s, k))
  (at level 200, x name, s name, m at level 100, k at level 200) : reader_scope.
Local Open Scope reader_scope.

(** [if (!value) return fail(error);] *)
Definition or_fail {A} (error : bytes) (m : reader A) : reader A :=
  match m with Bad _ => Bad error | _ => m end.

(** ** Tokens *)

Definition skip_ws (s : bytes) : bytes := drop_space s.

Definition consume (expected : ascii) (s : bytes) : bool * bytes :=
  match skip_ws s with
  | c :: r => if ceqb c expected then (true, r) else (false, c :: r)
  | [] => (false, [])
  end.

Definition hex_value (c : ascii) : Z :=
  if in_range 48 57 (code c) then code c - 48
  else if in_range 97 102 (code c) then code c - 97 + 10
  else if in_range 65 70 (code c) then code c - 65 + 10
  else -1.

Definition append_utf8 (cp : Z) : bytes :=
  if cp <=? 0x7f then [chr cp]
  else if cp <=? 0x7ff then [chr (Z.lor 0xc0 (Z.shiftr cp 6)); chr (Z.lor 0x80 (Z.land cp 0x3f))]
  else if cp <=? 0xffff then
    [chr (Z.lor 0xe0 (Z.shiftr cp 12)); chr (Z.lor 0x80 (Z.land (Z.shiftr cp 6) 0x3f)); chr (Z.lor 0x80 (Z.land cp 0x3f))]
  else
    [chr (Z.lor 0xf0 (Z.shiftr cp 18)); chr (Z.lor 0x80 (Z.land (Z.shiftr cp 12) 0x3f));
     chr (Z.lor 0x80 (Z.land (Z.shiftr cp 6) 0x3f)); chr (Z.lor 0x80 (Z.land cp 0x3f))].

(** The four digits of a unicode escape. *)
Definition hex4 (a b c d : ascii) : option Z :=
  foldl (λ acc h, match acc with
                  | Some cp => if hex_value h <? 0 then None else Some (Z.lor (wrap32 (Z.shiftl cp 4)) (hex_value h))
                  | None => None
                  end) (Some 0) [a; b; c; d].

(** The character of a one-letter escape. *)
Definition simple_escape (esc : ascii) : option ascii :=
  if ceqb esc DQUOTE then Some DQUOTE
  else if ceqb esc BACKSLASH then Some BACKSLASH
  else if ceqb esc "/" then Some "/"%char
  else if ceqb esc "b" then Some (chr 8)
  else if ceqb esc "f" then Some (chr 12)
  else if ceqb esc "n" then Some LF
  else if ceqb esc "r" then Some CR
  else if ceqb esc "t" then Some TAB
  else None.

Definition out_push (out : bytes) (m : reader bytes) : reader bytes :=
  read t at s from m in Got (out ++ t) s.

Fixpoint string_loop (s : bytes) : reader bytes :=
  match s with
  | [] => Bad []
  | c :: s1 =>
      if ceqb c DQUOTE then Got [] s1
      else if code c <? 32 then Bad []
      else if negb (ceqb c BACKSLASH) then out_push [c] (string_loop s1)
      else match s1 with
      | [] => Bad []
      | esc :: s2 =>
          match simple_escape esc with
          | Some x => out_push [x] (string_loop s2)
          | None =>
              if ceqb esc "u" then
                match s2 with
                | a :: b :: d :: e :: s3 =>
                    match hex4 a b d e with
                    | Some cp => out_push (append_utf8 cp) (string_loop s3)
                    | None => Bad []
                    end
                | _ => Bad []
                end
              else Bad []
          end
      end
  end.

Definition parse_string (s : bytes) : reader bytes :=
  match skip_ws s with
  | c :: s1 => if ceqb c DQUOTE then string_loop s1 else Bad []
  | [] => Bad []
  end.

Fixpoint drop_digits (s : bytes) : bytes :=
  match s with c :: t => if isdigit c then drop_digits t else s | [] => [] end.

(** [std::from_chars] for [int64_t]. *)
Definition from_chars_int64 (s : bytes) : option (Z * nat) :=
  let '(neg, t) := match s with
                   | c :: u => if ceqb c "-" then (true, u) else (false, s)
                   | [] => (false, s)
                   end in
  let '(v, n) := scan_digits 0 0 t in
  let v := if (neg : bool) then - v else v in
  if bool_decide (n = 0%nat) then None
  else if (v <? INT64_MIN) || (INT64_MAX <? v) then None
  else Some (v, (length s - length t + n)%nat).

(** [JsonReader::parse_int64] *)
Definition read_int64 (s : bytes) : reader Z :=
  let begin := skip_ws s in
  let digits := match begin with c :: t => if ceqb c "-" then t else begin | [] => begin end in
  let pos := drop_digits digits in
  if bool_decide (length digits = length pos) then Bad []
  else
    let text := take (length begin - length pos) begin in
    match from_chars_int64 text with
    | Some (value, used) => if bool_decide (used = length text) then Got value pos else Bad []
    | None => Bad []
    end.

(** The free function [parse_int64]. *)
Definition parse_int64 (value : bytes) : option Z :=
  match value with
  | [] => None
  | _ => match from_chars_int64 value with
         | Some (parsed, used) => if bool_decide (used = length value) then Some parsed else None
         | None => None
         end
  end.

(** ** Skipped values *)

Definition skip_number (begin : bytes) : reader unit :=
  let negative := match begin with c :: _ => ceqb c "-" | [] => false end in
  let after_sign := if negative then drop 1 begin else begin in
  let pos := drop_digits after_sign in
  if bool_decide (length begin = length pos) || (negative && bool_decide (length begin = S (length pos))) then Bad []
  else match pos with
  | c :: frac => if ceqb c "."
                 then if bool_decide (length frac = length (drop_digits frac)) then Bad [] else Got tt (drop_digits frac)
                 else Got tt pos
  | [] => Got tt pos
  end.

Section nested.
Context (skip : bytes → reader unit).

(** The loops over the members of an object and the elements of an array. *)
Fixpoint skip_members (n : nat) (s : bytes) : reader unit :=
  match n with
  | O => Exhausted
  | S n =>
      read _ at s from parse_string s in
      let '(colon, s) := consume ":" s in
      if negb colon then Bad []
      else
        read _ at s from skip s in
        let '(more, s) := consume "," (skip_ws s) in
        if more then skip_members n s
        else let '(closed, s) := consume "}" s in if closed then Got tt s else Bad []
  end.

Fixpoint skip_elements (n : nat) (s : bytes) : reader unit :=
  match n with
  | O => Exhausted
  | S n =>
      read _ at s from skip s in
      let '(more, s) := consume "," (skip_ws s) in
      if more then skip_elements n s
      else let '(closed, s) := consume "]" s in if closed then Got tt s else Bad []
  end.
End nested.

Fixpoint skip_value (stack : nat) (s : bytes) {struct stack} : reader unit :=
  match stack with
  | O => StackOverflow
  | S stack =>
      match skip_ws s with
      | [] => Bad []
      | c :: s1 =>
          let here := c :: s1 in
          if ceqb c DQUOTE then read _ at s from parse_string here in Got tt s
          else if ceqb c "{" then
            let '(closed, s2) := consume "}" (skip_ws s1) in
            if closed then Got tt s2 else skip_members (skip_value stack) (S (length s2)) s2
          else if ceqb c "[" then
            let '(closed, s2) := consume "]" (skip_ws s1) in
            if closed then Got tt s2 else skip_elements (skip_value stack) (S (length s2)) s2
          else if isdigit c || ceqb c "-" then skip_number here
          else if beqb (take 4 here) "true" then Got tt (drop 4 here)
          else if beqb (take 5 here) "false" then Got tt (drop 5 here)
          else if beqb (take 4 here) "null" then Got tt (drop 4 here)
          else Bad []
      end
  end.

(** ** Objects

    The loop that all object readers share; [field key request s] is the branch
    of one key, with the request as read so far. *)
Section object.
Context {R : Type} (field : bytes → R → bytes → reader R).

Fixpoint object_loop (n : nat) (request : R) (s : bytes) : reader R :=
  match n with
  | O => Exhausted
  | S n =>
      let '(closed, s) := consume "}" (skip_ws s) in
      if closed then Got request s
      else
        read key at s from or_fail "expected object key" (parse_string s) in
        let '(colon, s) := consume ":" s in
        if negb colon then Bad "expected ':'"
        else
          read request at s from field key request s in
          let '(more, s) := consume "," (skip_ws s) in
          if more then object_loop n request s
          else let '(closed, s) := consume "}" s in
               if closed then Got request s else Bad "expected ',' or '}'"
  end.

Definition read_object (request : R) (s : bytes) : reader R :=
  let '(opened, s) := consume "{" s in
  if negb opened then Bad "expected object" else object_loop (S (length s)) request s.

(** The body of a request: one object and nothing behind it. *)
Definition read_body (request : R) (body : bytes) : reader R :=
  read request at s from read_object request body in
  if bool_decide (skip_ws s = []) then Got request [] else Bad "trailing data".
End object.

(** [auto value = parse_string(); if (!value || !check(value)) return fail(error);] *)
Definition string_field {R} (check : bytes → bool) (error : bytes) (store : bytes → R) (s : bytes) : reader R :=
  read value at s from or_fail error (parse_string s) in
  if check value then Got (store value) s else Bad error.

Definition int_field {R} (check : Z → bool) (error : bytes) (store : Z → R) (s : bytes) : reader R :=
  read value at s from or_fail error (read_int64 s) in
  if check value then Got (store value) s else Bad error.

Definition other_field {R} (stack : nat) (request : R) (s : bytes) : reader R :=
  read _ at s from or_fail "invalid JSON value" (skip_value stack s) in Got request s.

(** [if (!saw_x) return fail(error); ...; result.ok = true;] *)
Fixpoint accept {A} (missing : list (bool * bytes)) (a : A) : reader A :=
  match missing with
  | [] => Got a []
  | (saw, error) :: missing => if negb saw then Bad error else accept missing a
  end.

Definition non_empty (v : bytes) : bool := negb (beqb v []).
Definition any_string (v : bytes) : bool := true.

(** ** Login *)

Definition login_value (v : bytes) : bool := negb (beqb v [] || (kMaxLoginFieldBytes <? slen v)).

Definition login_field (stack : nat) (key : bytes) (r : LoginRequest * bool * bool) (s : bytes) :
    reader (LoginRequest * bool * bool) :=
  let '(req, saw_username, saw_password) := r in
  if beqb key "username" then
    string_field login_value "invalid username" (λ v, (mkLogin v (lg_password req), true, saw_password)) s
  else if beqb key "password" then
    string_field login_value "invalid password" (λ v, (mkLogin (lg_username req) v, saw_username, true)) s
  else other_field stack r s.

Definition parse_login_request (stack : nat) (body : bytes) : reader LoginRequest :=
  read r at _ from read_body (login_field stack) (mkLogin [] [], false, false) body in
  let '(req, saw_username, saw_password) := r in
  accept [(saw_username, "missing username" : bytes); (saw_password, "missing password" : bytes)] req.

(** ** Save *)

Definition file_field (stack : nat) (key : bytes) (r : ManagedFile * bool * bool) (s : bytes) :
    reader (ManagedFile * bool * bool) :=
  let '(file, saw_name, saw_content) := r in
  if beqb key "name" then
    string_field any_string [] (λ v, (mkManagedFile v (mf_content file), true, saw_content)) s
  else if beqb key "content" then
    string_field any_string [] (λ v, (mkManagedFile (mf_name file) v, saw_name, true)) s
  else other_field stack r s.

Definition parse_file_object (stack : nat) (s : bytes) : reader ManagedFile :=
  or_fail [] (
    read r at s from read_object (file_field stack) (mkManagedFile [] [], false, false) s in
    let '(file, saw_name, saw_content) := r in
    if negb saw_name || negb saw_content then Bad [] else Got file s).

Fixpoint files_loop (stack : nat) (n : nat) (files : list ManagedFile) (s : bytes) : reader (list ManagedFile) :=
  match n with
  | O => Exhausted
  | S n =>
      let '(closed, s) := consume "]" (skip_ws s) in
      if closed then Got files s
      else
        read file at s from parse_file_object stack s in
        let files := files ++ [file] in
        let '(more, s) := consume "," (skip_ws s) in
        if more then files_loop stack n files s
        else let '(closed, s) := consume "]" s in if closed then Got files s else Bad []
  end.

Definition parse_files_array (stack : nat) (s : bytes) : reader (list ManagedFile) :=
  let '(opened, s) := consume "[" s in
  if negb opened then Bad [] else files_loop stack (S (length s)) [] s.

Definition save_field (stack : nat) (key : bytes) (r : SaveRequest * bool * bool) (s : bytes) :
    reader (SaveRequest * bool * bool) :=
  let '(mkSave base reason files as req, saw_base_version, saw_files) := r in
  if beqb key "base_version" then
    int_field (λ v, negb (v <? 0)) "invalid base_version" (λ v, (mkSave v reason files, true, saw_files)) s
  else if beqb key "reason" then
    string_field any_string "invalid reason" (λ v, (mkSave base v files, saw_base_version, saw_files)) s
  else if beqb key "files" then
    read files at s from or_fail "invalid files array" (parse_files_array stack s) in
    Got (mkSave base reason files, saw_base_version, true) s
  else other_field stack r s.

Definition parse_save_request (stack : nat) (body : bytes) : reader SaveRequest :=
  read r at _ from read_body (save_field stack) (mkSave 0 [] [], false, false) body in
  let '(req, saw_base_version, saw_files) := r in
  accept [(saw_base_version, "missing base_version" : bytes); (saw_files, "missing files" : bytes)] req.

(** ** Rollback and repair *)

Definition rollback_field (stack : nat) (key : bytes) (r : RollbackRequest * bool * bool * bool) (s : bytes) :
    reader (RollbackRequest * bool * bool * bool) :=
  let '(mkRollback base target reason, saw_base, saw_target, saw_reason) := r in
  if beqb key "base_version" then
    int_field (λ v, negb (v <? 0)) "invalid base_version"
      (λ v, (mkRollback v target reason, true, saw_target, saw_reason)) s
  else if beqb key "target_version" then
    int_field (λ v, negb (v <=? 0)) "invalid target_version"
      (λ v, (mkRollback base v reason, saw_base, true, saw_reason)) s
  else if beqb key "reason" then
    string_field non_empty "reason is required" (λ v, (mkRollback base target v, saw_base, saw_target, true)) s
  else other_field stack r s.

Definition parse_rollback_request (stack : nat) (body : bytes) : reader RollbackRequest :=
  read r at _ from read_body (rollback_field stack) (mkRollback 0 0 [], false, false, false) body in
  let '(req, saw_base, saw_target, saw_reason) := r in
  accept [(saw_base, "missing base_version" : bytes); (saw_target, "missing target_version" : bytes);
          (saw_reason, "missing reason" : bytes)] req.

Definition repair_field (stack : nat) (key : bytes) (r : RepairRequest * bool * bool) (s : bytes) :
    reader (RepairRequest * bool * bool) :=
  let '(mkRepair version reason, saw_version, saw_reason) := r in
  if beqb key "version" then
    int_field (λ v, negb (v <=? 0)) "invalid version" (λ v, (mkRepair v reason, true, saw_reason)) s
  else if beqb key "reason" then
    string_field non_empty "reason is required" (λ v, (mkRepair version v, saw_version, true)) s
  else other_field stack r s.

Definition parse_repair_request (stack : nat) (body : bytes) : reader RepairRequest :=
  read r at _ from read_body (repair_field stack) (mkRepair 0 [], false, false) body in
  let '(req, saw_version, saw_reason) := r in
  accept [(saw_version, "missing version" : bytes); (saw_reason, "missing reason" : bytes)] req.

(** ** Orphan resolution *)

Record orphan_saw := mkSaw { saw_current : bool; saw_target : bool; saw_action : bool; saw_reason : bool; saw_confirmation : bool }.

Definition is_action (v : bytes) : bool := beqb v "restore-version" || beqb v "delete-orphan".

Definition orphan_field (stack : nat) (key : bytes) (r : OrphanResolutionRequest * orphan_saw) (s : bytes) :
    reader (OrphanResolutionRequest * orphan_saw) :=
  let '(mkOrphan cur tgt act why conf, mkSaw c t a w f) := r in
  if beqb key "current_version" then
    int_field (λ v, negb (v <? 0)) "invalid current_version" (λ v, (mkOrphan v tgt act why conf, mkSaw true t a w f)) s
  else if beqb key "target_version" then
    int_field (λ v, negb (v <=? 0)) "invalid target_version" (λ v, (mkOrphan cur v act why conf, mkSaw c true a w f)) s
  else if beqb key "action" then
    string_field is_action "invalid action" (λ v, (mkOrphan cur tgt v why conf, mkSaw c t true w f)) s
  else if beqb key "reason" then
    string_field non_empty "reason is required" (λ v, (mkOrphan cur tgt act v conf, mkSaw c t a true f)) s
  else if beqb key "confirmation" then
    string_field non_empty "confirmation is required" (λ v, (mkOrphan cur tgt act why v, mkSaw c t a w true)) s
  else other_field stack r s.

(** The phrase that confirms an action. *)
Definition expected_confirmation (action : bytes) : bytes :=
  if beqb action "restore-version" then "RESTORE_VERSION_POINTER" else "DELETE_UNPUBLISHED_ORPHAN".

Definition parse_orphan_resolution_request (stack : nat) (body : bytes) : reader OrphanResolutionRequest :=
  read r at _ from read_body (orphan_field stack) (mkOrphan 0 0 [] [] [], mkSaw false false false false false) body in
  let '(req, mkSaw c t a w f) := r in
  if negb c || negb t || negb a || negb w || negb f then Bad "missing orphan resolution field"
  else if negb (beqb (or_confirmation req) (expected_confirmation (or_action req)))
  then Bad "confirmation text does not match action"
  else Got req [].

Example login_example :
  parse_login_request 2 ("{ " ++ quoted "x" ++ ":[1.5,{}]," ++ quoted "username" ++ ":" ++ quoted "bob" ++ "," ++
                         quoted "password" ++ " : " ++ quoted ("p" ++ [BACKSLASH] ++ "u0041") ++ ", } ") =
  Got (mkLogin "bob" "pA") [].
Proof. vm_compute. reflexivity. Qed.

(** ** The readers end

    [ends P n m]: the reader has returned; with a value, fewer than [n] bytes are
    left; a stack overflow implies [P]. *)
Definition ends {A} (P : Prop) (n : nat) (m : reader A) : Prop :=
  match m with Got _ r => (length r < n)%nat | Bad _ => True | StackOverflow => P | Exhausted => False end.

Lemma ends_bind {A B} (P Q : Prop) n n' (m : reader A) (k : A → bytes → reader B) :
  ends P n m → (P → Q) → (∀ a r, (length r < n)%nat → ends Q n' (k a r)) → ends Q n' (rbind m k).
Proof. destruct m; cbn; auto. Qed.

Lemma ends_mono {A} (P Q : Prop) n n' (m : reader A) : ends P n m → (P → Q) → (n ≤ n')%nat → ends Q n' m.
Proof. destruct m; cbn; intuition lia. Qed.

Lemma ends_or_fail {A} P n e (m : reader A) : ends P n m → ends P n (or_fail e m).
Proof. by destruct m. Qed.

Lemma skip_ws_length s : (length (skip_ws s) ≤ length s)%nat.
Proof. unfold skip_ws. induction s as [|c s IH]; cbn; [lia|]. case_if; cbn; lia. Qed.

Lemma consume_length c s b r : consume c s = (b, r) →
  (length r ≤ length s)%nat ∧ (b = true → (length r < length s)%nat).
Proof.
  unfold consume. pose proof (skip_ws_length s). destruct (skip_ws s) as [|d t]; cbn in *; [intros [= <- <-]; cbn; split; [lia|done]|].
  destruct (ceqb d c); intros [= <- <-]; cbn; split; (lia || done).
Qed.

Lemma drop_digits_length s : (length (drop_digits s) ≤ length s)%nat.
Proof. induction s as [|c s IH]; cbn; [lia|]. case_if; cbn; lia. Qed.

Lemma out_push_ends out (m : reader bytes) n n' : ends False n m → (n ≤ n')%nat → ends False n' (out_push out m).
Proof. intros H Hn. eapply ends_bind; [exact H|done|]. cbn. lia. Qed.

Lemma string_loop_ends s : ends False (length s) (string_loop s).
Proof.
  induction s as [s IH] using list_length_ind. destruct s as [|c s1]; [done|]. cbn [string_loop].
  destruct (ceqb c DQUOTE); [cbn; lia|]. destruct (code c <? 32); [done|].
  destruct (negb _); [eapply out_push_ends; [apply IH|]; cbn; lia|].
  destruct s1 as [|esc s2]; [done|]. destruct (simple_escape esc); [eapply out_push_ends; [apply IH|]; cbn; lia|].
  destruct (ceqb esc "u"); [|done]. destruct s2 as [|? [|? [|? [|? s3]]]]; try done.
  destruct (hex4 _ _ _ _); [|done]. eapply out_push_ends; [apply IH|]; cbn; lia.
Qed.

Lemma parse_string_ends s : ends False (length s) (parse_string s).
Proof.
  unfold parse_string. pose proof (skip_ws_length s). destruct (skip_ws s) as [|c s1]; [done|].
  destruct (ceqb c DQUOTE); [|done]. eapply ends_mono; [apply string_loop_ends|done|cbn in *; lia].
Qed.

Lemma read_int64_ends s : ends False (length s) (read_int64 s).
Proof.
  unfold read_int64. pose proof (skip_ws_length s) as Hs. set (b := skip_ws s) in *.
  set (d := match b with c :: t => if ceqb c "-" then t else b | [] => b end).
  assert (length d ≤ length b)%nat as Hd by (unfold d; destruct b; [lia|case_if; cbn; lia]).
  pose proof (drop_digits_length d). case_bool_decide; [done|].
  destruct (from_chars_int64 _) as [[v n]|]; [|done]. case_bool_decide; [cbn; lia|done].
Qed.

Lemma skip_number_ends s : ends False (length s) (skip_number s).
Proof.
  unfold skip_number. set (neg := match s with c :: _ => ceqb c "-" | [] => false end).
  set (a := if neg then drop 1 s else s).
  assert (length a ≤ length s)%nat by (unfold a; destruct neg; [rewrite length_drop; lia|lia]).
  pose proof (drop_digits_length a) as Ha.
  destruct (bool_decide _ || _) eqn:E; [done|]. bool_prop. destruct (drop_digits a) as [|c r]; [cbn in *; lia|].
  destruct (ceqb c "."); [|cbn in *; lia].
  destruct (bool_decide (length r = _)); [done|]. pose proof (drop_digits_length r). cbn in *. lia.
Qed.

(** The separator or the closing bracket behind an element. *)
Ltac take_consume :=
  match goal with |- context [consume ?c ?s] =>
    let b := fresh "b" in let r := fresh "r" in let E := fresh "E" in
    destruct (consume c s) as [b r] eqn:E; apply consume_length in E;
    try match type of E with context [skip_ws ?t] => pose proof (skip_ws_length t) end end.

Section nested_ends.
Context (stack : nat) (skip : bytes → reader unit)
  (Hskip : ∀ s, ends (stack ≤ length s)%nat (length s) (skip s)).

Lemma skip_members_ends n s : (length s < n)%nat → ends (stack ≤ length s)%nat (length s) (skip_members skip n s).
Proof.
  revert s. induction n as [|n IH]; intros s Hn; [lia|]. cbn [skip_members].
  eapply ends_bind; [apply parse_string_ends|done|]. intros _ r1 H1. take_consume. destruct b; [cbn [negb]|done].
  eapply ends_bind; [apply Hskip|intuition lia|]. intros _ r2 H2. take_consume. destruct b.
  - eapply ends_mono; [apply IH|..]; intuition lia.
  - take_consume. destruct b; [cbn; intuition lia|done].
Qed.

Lemma skip_elements_ends n s : (length s < n)%nat → ends (stack ≤ length s)%nat (length s) (skip_elements skip n s).
Proof.
  revert s. induction n as [|n IH]; intros s Hn; [lia|]. cbn [skip_elements].
  eapply ends_bind; [apply Hskip|intuition lia|]. intros _ r2 H2. take_consume. destruct b.
  - eapply ends_mono; [apply IH|..]; intuition lia.
  - take_consume. destruct b; [cbn; intuition lia|done].
Qed.
End nested_ends.

Lemma skip_value_ends stack s : ends (stack ≤ length s)%nat (length s) (skip_value stack s).
Proof.
  revert s. induction stack as [|stack IH]; intros s; cbn [skip_value]; [cbn; lia|].
  pose proof (skip_ws_length s) as Hs. destruct (skip_ws s) as [|c s1]; [done|]. cbn [length] in Hs.
  destruct (ceqb c DQUOTE).
  { eapply ends_bind; [apply parse_string_ends|done|]. intros _ r Hr. cbn in *. lia. }
  destruct (ceqb c "{").
  { take_consume. destruct b; [cbn; intuition lia|].
    eapply ends_mono; [apply (skip_members_ends stack); [exact IH|lia]|intuition lia|intuition lia]. }
  destruct (ceqb c "[").
  { take_consume. destruct b; [cbn; intuition lia|].
    eapply ends_mono; [apply (skip_elements_ends stack); [exact IH|lia]|intuition lia|intuition lia]. }
  destruct (isdigit c || ceqb c "-"); [eapply ends_mono; [apply skip_number_ends|done|cbn; lia]|].
  assert (∀ k (w : bytes), (0 < length w)%nat → take k (c :: s1) = w → (length (drop k (c :: s1)) < length s)%nat) as Hlit.
  { intros k w Hw Hk. rewrite length_drop. cbn [length]. destruct k; [subst w; cbn in Hw; lia|lia]. }
  repeat match goal with |- context [beqb (take ?k _) ?w] =>
    destruct (beqb (take k (c :: s1)) w) eqn:E;
    [apply beqb_eq in E; eapply (Hlit k); [|exact E]; cbn; lia|clear E] end.
  done.
Qed.

Section object_ends.
Context {R : Type} (stack : nat) (field : bytes → R → bytes → reader R)
  (Hfield : ∀ key r s, ends (stack ≤ length s)%nat (S (length s)) (field key r s)).

Lemma object_loop_ends n r s : (length s < n)%nat → ends (stack ≤ length s)%nat (S (length s)) (object_loop field n r s).
Proof.
  revert r s. induction n as [|n IH]; intros r s Hn; [lia|]. cbn [object_loop]. take_consume.
  destruct b; [cbn; intuition lia|].
  eapply ends_bind; [apply ends_or_fail, parse_string_ends|done|]. intros key s1 H1. take_consume.
  destruct b; [cbn [negb]|done]. eapply ends_bind; [apply Hfield|intuition lia|]. intros r' s2 H2. take_consume.
  destruct b.
  - eapply ends_mono; [apply IH|..]; intuition lia.
  - take_consume. destruct b; [cbn; intuition lia|done].
Qed.

Lemma read_object_ends r s : ends (stack ≤ length s)%nat (length s) (read_object field r s).
Proof.
  unfold read_object. take_consume. destruct b; [cbn [negb]|done].
  eapply ends_mono; [apply object_loop_ends; lia|intuition lia|intuition lia].
Qed.

Lemma read_body_ends r body : ends (stack ≤ length body)%nat (S (length body)) (read_body field r body).
Proof.
  unfold read_body. eapply ends_bind; [apply read_object_ends|done|]. intros r' s Hs. case_if; [cbn; lia|done].
Qed.
End object_ends.

Lemma string_field_ends {R} P check e (store : bytes → R) s : ends P (S (length s)) (string_field check e store s).
Proof.
  eapply ends_bind; [apply ends_or_fail, parse_string_ends|done|]. intros v r Hr. case_if; cbn; [lia|done].
Qed.

Lemma int_field_ends {R} P check e (store : Z → R) s : ends P (S (length s)) (int_field check e store s).
Proof.
  eapply ends_bind; [apply ends_or_fail, read_int64_ends|done|]. intros v r Hr. case_if; cbn; [lia|done].
Qed.

Lemma other_field_ends {R} stack (r : R) s : ends (stack ≤ length s)%nat (S (length s)) (other_field stack r s).
Proof. eapply ends_bind; [apply ends_or_fail, skip_value_ends|done|]. cbn. lia. Qed.

Lemma accept_ends {A} P n missing (a : A) : (0 < n)%nat → ends P n (accept missing a).
Proof. intros Hn. induction missing as [|[[] e] l IH]; cbn; auto. Qed.

#[local] Hint Resolve string_field_ends int_field_ends other_field_ends accept_ends : gw.

Lemma file_field_ends stack key r s : ends (stack ≤ length s)%nat (S (length s)) (file_field stack key r s).
Proof. destruct r as [[]]. unfold file_field. repeat case_if; auto with gw. Qed.

Lemma parse_file_object_ends stack s : ends (stack ≤ length s)%nat (length s) (parse_file_object stack s).
Proof.
  apply ends_or_fail. eapply ends_bind; [apply read_object_ends, file_field_ends|done|].
  intros [[f a] b] r Hr. case_if; [done|cbn; lia].
Qed.

Lemma files_loop_ends stack n files s : (length s < n)%nat →
  ends (stack ≤ length s)%nat (S (length s)) (files_loop stack n files s).
Proof.
  revert files s. induction n as [|n IH]; intros files s Hn; [lia|]. cbn [files_loop]. take_consume.
  destruct b; [cbn; intuition lia|].
  eapply ends_bind; [apply parse_file_object_ends|intuition lia|]. intros f s2 H2. take_consume. destruct b.
  - eapply ends_mono; [apply IH|..]; intuition lia.
  - take_consume. destruct b; [cbn; intuition lia|done].
Qed.

Lemma parse_files_array_ends stack s : ends (stack ≤ length s)%nat (S (length s)) (parse_files_array stack s).
Proof.
  unfold parse_files_array. take_consume. destruct b; [cbn [negb]|done].
  eapply ends_mono; [apply files_loop_ends; lia|intuition lia|intuition lia].
Qed.

Lemma save_field_ends stack key r s : ends (stack ≤ length s)%nat (S (length s)) (save_field stack key r s).
Proof.
  destruct r as [[[] ?] ?]. unfold save_field. repeat (case_if; [auto with gw; fail|]).
  case_if; [|auto with gw]. eapply ends_bind; [apply ends_or_fail, parse_files_array_ends|done|]. cbn. lia.
Qed.

Lemma fields_end stack key s :
  (∀ r, ends (stack ≤ length s)%nat (S (length s)) (login_field stack key r s)) ∧
  (∀ r, ends (stack ≤ length s)%nat (S (length s)) (rollback_field stack key r s)) ∧
  (∀ r, ends (stack ≤ length s)%nat (S (length s)) (repair_field stack key r s)) ∧
  (∀ r, ends (stack ≤ length s)%nat (S (length s)) (orphan_field stack key r s)).
Proof.
  split_and!; intros r; [destruct r as [[[]]]|destruct r as [[[[]]]]|destruct r as [[[]]]|destruct r as [[] []]];
    unfold login_field, rollback_field, repair_field, orphan_field; repeat case_if; auto with gw.
Qed.

(** A reader that has returned, without the loop bound of the model, and without
    overflow when the stack holds more frames than the body has bytes. *)
Definition returns {A} (stack : nat) (body : bytes) (m : reader A) : Prop :=
  m ≠ Exhausted ∧ (slen body < Z.of_nat stack → m ≠ StackOverflow).

Lemma returns_body {R A} stack (field : bytes → R → bytes → reader R) r0 body (k : R → bytes → reader A) :
  (∀ key r s, ends (stack ≤ length s)%nat (S (length s)) (field key r s)) →
  (∀ r s, ends False 1 (k r s)) → returns stack body (rbind (read_body field r0 body) k).
Proof.
  intros Hf Hk. assert (ends (stack ≤ length body)%nat 1 (rbind (read_body field r0 body) k)) as H.
  { eapply ends_bind; [by apply read_body_ends|done|]. intros a r _. eapply ends_mono; [apply Hk|done|lia]. }
  unfold returns, slen. destruct (rbind _ _); cbn in H; split; (done || lia).
Qed.

(** Every reader of admin requests ends on every body, and a thread whose
    stack holds one frame of [skip_value] more than the body has bytes does not
    overflow it. *)
Lemma admin_readers_terminate stack body :
  returns stack body (parse_login_request stack body) ∧ returns stack body (parse_save_request stack body) ∧
  returns stack body (parse_rollback_request stack body) ∧ returns stack body (parse_repair_request stack body) ∧
  returns stack body (parse_orphan_resolution_request stack body).
Proof.
  split_and!; apply returns_body; try (intros ? r ?; apply fields_end || apply save_field_ends).
  - intros [[[]]] s. auto with gw.
  - intros [[[]]] s. auto with gw.
  - intros [[[[]]]] s. auto with gw.
  - intros [[[]]] s. auto with gw.
  - intros [[] []] s. repeat case_if; done || (cbn; lia).
Qed.

(** ** The depth of the recursion *)

Lemma skip_ws_cons d r : isspace d = false → skip_ws (d :: r) = d :: r.
Proof. intros H. unfold skip_ws. cbn. by rewrite H. Qed.

Lemma consume_hit c r : isspace c = false → consume c (c :: r) = (true, r).
Proof. intros H. unfold consume. by rewrite skip_ws_cons, ceqb_refl. Qed.

Lemma consume_miss c d r : isspace d = false → ceqb d c = false → consume c (d :: r) = (false, d :: r).
Proof. intros H E. unfold consume. by rewrite skip_ws_cons, E. Qed.

Lemma skip_value_nested stack n rest : (stack < n)%nat → skip_value stack (repeat "["%char n ++ rest) = StackOverflow.
Proof.
  revert n. induction stack as [|stack IH]; intros n Hn; [done|]. destruct n as [|[|n]]; [lia|lia|].
  specialize (IH (S n) ltac:(lia)). cbn [repeat app] in *. cbn [skip_value].
  rewrite !skip_ws_cons by done.
  change (ceqb "[" DQUOTE) with false. change (ceqb "[" "{") with false. change (ceqb "[" "[") with true. cbn iota.
  rewrite consume_miss by done. cbn [skip_elements]. by rewrite IH.
Qed.

(** The recursion of [skip_value] follows the nesting of the body with no
    limit of its own: for every stack size up to the body limit there is a login
    body within the limit, sent before any credential is checked, that overflows
    the stack. *)
Lemma login_overflows_stack stack :
  Z.of_nat stack + 7 ≤ kMaxBodySize →
  ∃ body, slen body ≤ kMaxBodySize ∧ parse_login_request stack body = StackOverflow.
Proof.
  intros Hs. exists ("{" ++ quoted "a" ++ ":" ++ repeat "["%char (S stack)). split.
  - rewrite !slen_app. change (slen "{") with 1. change (slen (quoted "a")) with 3. change (slen ":") with 1.
    unfold slen. rewrite repeat_length. lia.
  - pose proof (skip_value_nested stack (S stack) [] ltac:(lia)) as Hv. rewrite app_nil_r in Hv.
    assert (other_field stack (mkLogin [] [], false, false) (repeat "["%char (S stack)) = StackOverflow) as Ho.
    { unfold other_field. by rewrite Hv. }
    set (t := repeat _ _) in *. unfold parse_login_request, read_body, read_object.
    change (consume "{" ("{" ++ ?u)) with (true, u). cbn [negb object_loop].
    change (skip_ws (quoted "a" ++ ":" ++ t)) with (quoted "a" ++ ":" ++ t).
    change (consume "}" (quoted "a" ++ ":" ++ t)) with (false, quoted "a" ++ ":" ++ t). cbn iota.
    change (parse_string (quoted "a" ++ ":" ++ t)) with (Got ("a" : bytes) (":" ++ t)). cbn [or_fail rbind].
    change (consume ":" (":" ++ t)) with (true, t). cbn [negb].
    change (login_field stack "a" (mkLogin [] [], false, false) t) with (other_field stack (mkLogin [] [], false, false) t).
    by rewrite Ho.
Qed.

Lemma login_overflows_stack_witness :
  ∃ body, slen body ≤ kMaxBodySize ∧ parse_login_request 100 body = StackOverflow.
Proof. apply (login_overflows_stack 100). by vm_compute. Defined.

(** ** Accepted requests are within their limits *)

Lemma rbind_Got {A B} (m : reader A) (k : A → bytes → reader B) b s :
  rbind m k = Got b s ↔ ∃ a s', m = Got a s' ∧ k a s' = Got b s.
Proof. destruct m; naive_solver. Qed.

Lemma or_fail_Got {A} e (m : reader A) a s : or_fail e m = Got a s ↔ m = Got a s.
Proof. destruct m; naive_solver. Qed.

Section object_inv.
Context {R : Type} (field : bytes → R → bytes → reader R) (I : R → Prop)
  (Hfield : ∀ key r s r' s', I r → field key r s = Got r' s' → I r').

Lemma object_loop_inv n r s r' s' : I r → object_loop field n r s = Got r' s' → I r'.
Proof.
  revert r s. induction n as [|n IH]; intros r s Hr; [done|]. cbn [object_loop].
  destruct (consume "}" (skip_ws s)) as [[] s1]; [by intros [= <- _]|].
  rewrite rbind_Got. intros (key & s2 & _ & H). destruct (consume ":" s2) as [[] s3]; [cbn [negb] in H|done].
  apply rbind_Got in H as (r1 & s4 & Hf & H). apply Hfield in Hf; [|done].
  destruct (consume "," (skip_ws s4)) as [[] s5]; [by eapply IH|].
  destruct (consume "}" s5) as [[] s6]; [|done]. by injection H as <- _.
Qed.

Lemma read_object_inv r s r' s' : I r → read_object field r s = Got r' s' → I r'.
Proof. unfold read_object. destruct (consume "{" s) as [[] s1]; [|done]. apply object_loop_inv. Qed.

Lemma read_body_inv r s r' s' : I r → read_body field r s = Got r' s' → I r'.
Proof.
  intros Hr. unfold read_body. rewrite rbind_Got. intros (r1 & s1 & H & H'). apply read_object_inv in H; [|done].
  case_if; [by injection H' as <- _|done].
Qed.
End object_inv.

Lemma string_field_Got {R} check e (store : bytes → R) s r s' :
  string_field check e store s = Got r s' → ∃ v, check v = true ∧ r = store v.
Proof.
  unfold string_field. rewrite rbind_Got. intros (v & s1 & _ & H). case_if; [|done]. injection H as <- _. eauto.
Qed.

Lemma read_int64_range s v s' : read_int64 s = Got v s' → INT64_MIN ≤ v ≤ INT64_MAX.
Proof.
  unfold read_int64. case_bool_decide; [done|]. destruct (from_chars_int64 _) as [[w n]|] eqn:E; [|done].
  case_bool_decide; [|done]. intros [= <- _]. unfold from_chars_int64 in E.
  destruct (match take _ _ with [] => _ | _ => _ end) as [neg t]. destruct (scan_digits 0 0 t) as [u k].
  case_bool_decide; [done|]. destruct (_ || _) eqn:Er; [done|]. injection E as <- _. bool_prop. lia.
Qed.

Lemma int_field_Got {R} check e (store : Z → R) s r s' :
  int_field check e store s = Got r s' → ∃ v, check v = true ∧ v ≤ INT64_MAX ∧ r = store v.
Proof.
  unfold int_field. rewrite rbind_Got. intros (v & s1 & Hv & H). apply or_fail_Got, read_int64_range in Hv.
  case_if; [|done]. injection H as <- _. exists v. split_and!; [done|lia|done].
Qed.

Lemma other_field_Got {R} stack (r : R) s r' s' : other_field stack r s = Got r' s' → r' = r.
Proof. unfold other_field. rewrite rbind_Got. by intros (? & ? & _ & [= <- _]). Qed.

Lemma accept_Got {A} missing (a a' : A) s : accept missing a = Got a' s → a' = a ∧ Forall (λ p, p.1 = true) missing.
Proof. induction missing as [|[[] e] l IH]; cbn; [by intros [= <- _]|intros [-> ?]%IH; auto|done]. Qed.

(** The fields of a branch that succeeded. *)
Ltac field_inv :=
  repeat match goal with
  | H : (if ?b then _ else _) = Got _ _ |- _ => destruct b
  | H : string_field _ _ _ _ = Got _ _ |- _ => apply string_field_Got in H as (? & ? & ?); simplify_eq/=
  | H : int_field _ _ _ _ = Got _ _ |- _ => apply int_field_Got in H as (? & ? & ? & ?); simplify_eq/=
  | H : other_field _ _ _ = Got _ _ |- _ => apply other_field_Got in H; simplify_eq/=
  | H : rbind _ _ = Got _ _ |- _ => apply rbind_Got in H as (? & ? & ? & ?); simplify_eq/=
  end.

Definition valid_login (r : LoginRequest) : Prop :=
  0 < slen (lg_username r) ≤ kMaxLoginFieldBytes ∧ 0 < slen (lg_password r) ≤ kMaxLoginFieldBytes.
Definition valid_save (r : SaveRequest) : Prop := 0 ≤ sv_base_version r ≤ INT64_MAX.
Definition valid_rollback (r : RollbackRequest) : Prop :=
  0 ≤ rb_base_version r ≤ INT64_MAX ∧ 0 < rb_target_version r ≤ INT64_MAX ∧ rb_reason r ≠ [].
Definition valid_repair (r : RepairRequest) : Prop := 0 < rp_version r ≤ INT64_MAX ∧ rp_reason r ≠ [].
Definition valid_orphan (r : OrphanResolutionRequest) : Prop :=
  0 ≤ or_current_version r ≤ INT64_MAX ∧ 0 < or_target_version r ≤ INT64_MAX ∧ or_reason r ≠ [] ∧
  (or_action r = "restore-version" ∧ or_confirmation r = "RESTORE_VERSION_POINTER" ∨
   or_action r = "delete-orphan" ∧ or_confirmation r = "DELETE_UNPUBLISHED_ORPHAN").

Lemma login_value_range v : login_value v = true → 0 < slen v ≤ kMaxLoginFieldBytes.
Proof.
  unfold login_value. intros H. bool_prop. apply beqb_ne in H. pose proof (slen_nonneg v).
  assert (slen v ≠ 0) by (by rewrite slen_0). lia.
Qed.

Lemma non_empty_spec v : non_empty v = true → v ≠ [].
Proof. unfold non_empty. intros H. bool_prop. by apply beqb_ne. Qed.

Lemma is_action_spec v : is_action v = true → v = "restore-version" ∨ v = "delete-orphan".
Proof. unfold is_action. intros H. bool_prop. rewrite !beqb_eq in H. done. Qed.

#[local] Hint Resolve login_value_range non_empty_spec is_action_spec : gw.

Ltac range_solve := bool_prop; (lia || auto with gw).

Lemma login_valid stack body req s : parse_login_request stack body = Got req s → valid_login req.
Proof.
  unfold parse_login_request. rewrite rbind_Got. intros ([[r u] p] & s1 & Hb & Ha).
  apply (read_body_inv _ (λ x, (x.1.2 = true → 0 < slen (lg_username x.1.1) ≤ kMaxLoginFieldBytes) ∧
    (x.2 = true → 0 < slen (lg_password x.1.1) ≤ kMaxLoginFieldBytes))) in Hb; [|clear|done].
  - apply accept_Got in Ha as [-> Hs]. apply Forall_cons in Hs as [? Hs]. apply Forall_cons in Hs as [? _].
    cbn in *. split; naive_solver.
  - intros key [[q a] b] t r' t' [H1 H2] H. unfold login_field in H. field_inv; cbn in *; auto with gw.
Qed.

Lemma save_valid stack body req s : parse_save_request stack body = Got req s → valid_save req.
Proof.
  unfold parse_save_request. rewrite rbind_Got. intros ([[r u] p] & s1 & Hb & Ha).
  apply (read_body_inv _ (λ x, 0 ≤ sv_base_version x.1.1 ≤ INT64_MAX)) in Hb; [|clear|done].
  - by apply accept_Got in Ha as [-> _].
  - intros key [[[bv rs fs] a] b] t r' t' Hr H. unfold save_field in H. field_inv; cbn in *; range_solve.
Qed.

Lemma rollback_valid stack body req s : parse_rollback_request stack body = Got req s → valid_rollback req.
Proof.
  unfold parse_rollback_request. rewrite rbind_Got. intros ([[[r u] p] w] & s1 & Hb & Ha).
  apply (read_body_inv _ (λ x, 0 ≤ rb_base_version x.1.1.1 ≤ INT64_MAX ∧
    (x.1.2 = true → 0 < rb_target_version x.1.1.1 ≤ INT64_MAX) ∧ (x.2 = true → rb_reason x.1.1.1 ≠ []))) in Hb; [|clear|done].
  - apply accept_Got in Ha as [-> Hs]. repeat apply Forall_cons in Hs as [? Hs]. cbn in *. unfold valid_rollback. naive_solver.
  - intros key [[[[bv tv rs] a] b] c] t r' t' (H1 & H2 & H3) H. unfold rollback_field in H.
    field_inv; cbn in *; split_and!; intros; range_solve.
Qed.

Lemma repair_valid stack body req s : parse_repair_request stack body = Got req s → valid_repair req.
Proof.
  unfold parse_repair_request. rewrite rbind_Got. intros ([[r u] p] & s1 & Hb & Ha).
  apply (read_body_inv _ (λ x, (x.1.2 = true → 0 < rp_version x.1.1 ≤ INT64_MAX) ∧
    (x.2 = true → rp_reason x.1.1 ≠ []))) in Hb; [|clear|done].
  - apply accept_Got in Ha as [-> Hs]. repeat apply Forall_cons in Hs as [? Hs]. cbn in *. unfold valid_repair. naive_solver.
  - intros key [[[vv rs] a] b] t r' t' (H1 & H2) H. unfold repair_field in H.
    field_inv; cbn in *; split_and!; intros; range_solve.
Qed.

Lemma orphan_valid stack body req s : parse_orphan_resolution_request stack body = Got req s → valid_orphan req.
Proof.
  unfold parse_orphan_resolution_request. rewrite rbind_Got. intros ([r [c t a w f]] & s1 & Hb & Ha).
  apply (read_body_inv _ (λ x, 0 ≤ or_current_version x.1 ≤ INT64_MAX ∧
    (saw_target x.2 = true → 0 < or_target_version x.1 ≤ INT64_MAX) ∧
    (saw_action x.2 = true → or_action x.1 = "restore-version" ∨ or_action x.1 = "delete-orphan") ∧
    (saw_reason x.2 = true → or_reason x.1 ≠ []))) in Hb; [|clear|done].
  - destruct (_ || _) eqn:E in Ha; [done|]. bool_prop. destruct (beqb _ _) eqn:Ec in Ha; [|done].
    injection Ha as -> _. apply beqb_eq in Ec. cbn in *. subst. destruct Hb as (H1 & H2 & H3 & H4).
    unfold valid_orphan. rewrite Ec. split; [apply H1|]. split; [by apply H2|]. split; [by apply H4|].
    destruct (H3 eq_refl) as [->| ->]; [by left|by right].
  - intros key [[cv tv ac rs cf] [c t a w f]] x r' x' (H1 & H2 & H3 & H4) H. unfold orphan_field in H.
    field_inv; cbn in *; split_and!; intros; range_solve.
Qed.

(** C39: an accepted admin request satisfies the limits of its fields: login names
    and passwords have 1 to 256 bytes, versions are non-negative (targets
    positive) and fit [int64_t], reasons are given where they are required, and an
    orphan resolution names one of the two actions with its own confirmation. *)
Theorem admin_requests_valid stack body s :
  (∀ req, parse_login_request stack body = Got req s → valid_login req) ∧
  (∀ req, parse_save_request stack body = Got req s → valid_save req) ∧
  (∀ req, parse_rollback_request stack body = Got req s → valid_rollback req) ∧
  (∀ req, parse_repair_request stack body = Got req s → valid_repair req) ∧
  (∀ req, parse_orphan_resolution_request stack body = Got req s → valid_orphan req).
Proof.
  split_and!; intros req; [apply login_valid|apply save_valid|apply rollback_valid|apply repair_valid|apply orphan_valid].
Qed.

(** ** Requests as they are sent *)

Definition jstr (s : bytes) : bytes := quoted (json_escape s).
Definition member (key value : bytes) : bytes := quoted key ++ ":" ++ value.

Definition print_file (f : ManagedFile) : bytes :=
  "{" ++ member "name" (jstr (mf_name f)) ++ "," ++ member "content" (jstr (mf_content f)) ++ "}".

Definition print_files (fs : list ManagedFile) : bytes := "[" ++ join_with "," (print_file <$> fs) ++ "]".

Definition print_save (r : SaveRequest) : bytes :=
  "{" ++ member "base_version" (to_string (sv_base_version r)) ++ "," ++ member "reason" (jstr (sv_reason r)) ++ "," ++
  member "files" (print_files (sv_files r)) ++ "}".

Lemma string_loop_char c rest :
  string_loop (escape_char c ++ rest) = out_push [c] (string_loop rest).
Proof.
  destruct (decide (32 ≤ code c ∧ c ≠ DQUOTE ∧ c ≠ BACKSLASH)) as [(H1 & H2 & H3)|Hn].
  - assert (escape_char c = [c]) as ->.
    { unfold escape_char. rewrite (proj2 (ceqb_ne c DQUOTE)), (proj2 (ceqb_ne c BACKSLASH)) by done.
      replace (code c =? 8) with false by lia. replace (code c =? 12) with false by lia.
      replace (code c =? 10) with false by lia. replace (code c =? 13) with false by lia.
      replace (code c =? 9) with false by lia. by replace (code c <? 32) with false by lia. }
    cbn [app string_loop]. rewrite (proj2 (ceqb_ne c DQUOTE)), (proj2 (ceqb_ne c BACKSLASH)) by done.
    by replace (code c <? 32) with false by lia.
  - clear -Hn. destruct c as [[] [] [] [] [] [] [] []];
      try (exfalso; apply Hn; split; [vm_compute; discriminate|split; discriminate]); reflexivity.
Qed.

Lemma parse_string_escape s rest : parse_string (jstr s ++ rest) = Got s rest.
Proof.
  unfold jstr, quoted. rewrite <- !app_assoc. unfold parse_string. change ([DQUOTE] ++ ?t) with (DQUOTE :: t).
  rewrite skip_ws_cons, ceqb_refl by done. unfold json_escape. induction s as [|c s IH]; [done|].
  cbn [fmap list_fmap concat]. rewrite <- app_assoc, string_loop_char, IH. done.
Qed.

(** Keys contain nothing to escape. *)
Lemma member_key key value rest : json_escape key = key →
  parse_string (member key value ++ rest) = Got key (":" ++ value ++ rest).
Proof. intros Hk. unfold member. rewrite <- !app_assoc, <- Hk at 1. apply parse_string_escape. Qed.

Section print_object.
Context {R : Type} (field : bytes → R → bytes → reader R).

Lemma object_member n r key value r' rest c : json_escape key = key → c = ","%char ∨ c = "}"%char →
  field key r (value ++ c :: rest) = Got r' (c :: rest) →
  object_loop field (S n) r (member key value ++ c :: rest) =
    if ceqb c "," then object_loop field n r' rest else Got r' rest.
Proof.
  intros Hk Hc Hf. cbn [object_loop].
  assert (member key value ++ c :: rest = DQUOTE :: key ++ DQUOTE :: ":" ++ value ++ c :: rest) as Heq.
  { unfold member, quoted. by rewrite <- !app_assoc. }
  replace (skip_ws _) with (member key value ++ c :: rest) by (rewrite Heq; by rewrite skip_ws_cons).
  replace (consume "}" _) with (false, member key value ++ c :: rest) by (rewrite Heq; by rewrite consume_miss).
  rewrite member_key by done. cbn [or_fail rbind]. change (":" ++ ?t) with (":"%char :: t).
  rewrite consume_hit by done. cbn [negb]. rewrite Hf. cbn [rbind].
  destruct Hc as [->| ->]; rewrite skip_ws_cons by done.
  - by rewrite consume_hit.
  - rewrite consume_miss by done. by rewrite consume_hit.
Qed.
End print_object.

Lemma string_field_print {R} check e (store : bytes → R) v rest : check v = true →
  string_field check e store (jstr v ++ rest) = Got (store v) rest.
Proof. intros Hc. unfold string_field. rewrite parse_string_escape. cbn. by rewrite Hc. Qed.

Lemma drop_digits_app d rest : Forall (λ c, isdigit c = true) d → (∀ c, head rest = Some c → isdigit c = false) →
  drop_digits (d ++ rest) = rest.
Proof.
  intros Hd Hr. induction Hd as [|c d Hc Hd IH]; cbn [app drop_digits].
  - destruct rest as [|c r]; [done|]. cbn. by rewrite (Hr c).
  - by rewrite Hc.
Qed.

Lemma from_chars_int64_digits d : Forall (λ c, isdigit c = true) d → d ≠ [] → dec_number d ≤ INT64_MAX →
  from_chars_int64 d = Some (dec_number d, length d).
Proof.
  intros Hd Hne Hv. destruct d as [|c d]; [done|]. unfold from_chars_int64.
  rewrite (proj2 (ceqb_ne c "-")) by (intros ->; by apply Forall_inv in Hd).
  rewrite scan_digits_all by done. cbv zeta beta iota. rewrite bool_decide_eq_false_2 by (cbn [length]; lia).
  pose proof (dec_value_from_ge (c :: d) 0 Hd ltac:(lia)) as Hge. unfold dec_number in *.
  replace (_ <? INT64_MIN) with false by (symmetry; apply Z.ltb_ge; unfold INT64_MIN; lia).
  replace (INT64_MAX <? _) with false by (symmetry; apply Z.ltb_ge; lia). cbn [orb]. do 2 f_equal. lia.
Qed.

Lemma parse_int64_print n : 0 ≤ n ≤ INT64_MAX → parse_int64 (to_string n) = Some n.
Proof.
  intros Hn. destruct (to_string_digits n) as (Hd & Hv & Hne); [unfold INT64_MAX, SIZE_MAX in *; lia|].
  unfold parse_int64. destruct (to_string n) as [|c t] eqn:E; [done|]. rewrite <- E in *.
  rewrite from_chars_int64_digits by (done || lia). by rewrite bool_decide_eq_true_2, Hv.
Qed.

Lemma read_int64_print n c rest : 0 ≤ n ≤ INT64_MAX → isdigit c = false →
  read_int64 (to_string n ++ c :: rest) = Got n (c :: rest).
Proof.
  intros Hn Hc. destruct (to_string_digits n) as (Hd & Hv & Hne); [unfold INT64_MAX, SIZE_MAX in *; lia|].
  unfold read_int64. destruct (to_string n) as [|b d] eqn:E; [done|]. rewrite <- E in *.
  assert (isdigit b = true) as Hb by (rewrite E in Hd; by apply Forall_inv in Hd).
  assert (skip_ws (to_string n ++ c :: rest) = to_string n ++ c :: rest) as ->.
  { rewrite E. cbn [app]. apply skip_ws_cons. by apply isdigit_not_space. }
  replace (match to_string n ++ c :: rest with x :: t => if ceqb x "-" then t else to_string n ++ c :: rest | [] => to_string n ++ c :: rest end)
    with (to_string n ++ c :: rest).
  2:{ rewrite E at 2. cbn [app]. by rewrite (proj2 (ceqb_ne b "-")) by (intros ->; done). }
  rewrite drop_digits_app by (try done; by intros x [= <-]).
  rewrite bool_decide_eq_false_2 by (rewrite length_app, E; cbn [length]; lia).
  replace (length (to_string n ++ c :: rest) - length (c :: rest))%nat with (length (to_string n))
    by (rewrite length_app; lia).
  rewrite take_app_length, from_chars_int64_digits by (done || lia). by rewrite bool_decide_eq_true_2, Hv.
Qed.

Lemma int_field_print {R} check e (store : Z → R) n c rest : 0 ≤ n ≤ INT64_MAX → isdigit c = false → check n = true →
  int_field check e store (to_string n ++ c :: rest) = Got (store n) (c :: rest).
Proof. intros Hn Hd Hc. unfold int_field. rewrite read_int64_print by done. cbn. by rewrite Hc. Qed.

Lemma parse_file_print stack f rest : parse_file_object stack (print_file f ++ rest) = Got f rest.
Proof.
  unfold parse_file_object, read_object, print_file. repeat rewrite <- app_assoc.
  change ("{" ++ ?t) with ("{"%char :: t). rewrite consume_hit by done. cbn [negb].
  set (s := member "name" _ ++ _). assert (∃ n, length s = S n) as [n ->].
  { unfold s, member, quoted. cbn. eauto. }
  unfold s. change ("," ++ ?t) with (","%char :: t). change ("}" ++ ?t) with ("}"%char :: t).
  erewrite object_member; [|done|by left|by apply string_field_print].
  change (ceqb "," ",") with true. cbn iota.
  erewrite object_member; [|done|by right|by apply string_field_print].
  change (ceqb "}" ",") with false. cbn. by destruct f.
Qed.

Lemma print_file_head f rest : ∃ t, print_file f ++ rest = "{"%char :: t.
Proof. unfold print_file. cbn. eauto. Qed.

Lemma files_loop_print stack n files f fs rest : (length fs < n)%nat →
  files_loop stack n files (join_with "," (print_file <$> f :: fs) ++ "]" ++ rest) = Got (files ++ f :: fs) rest.
Proof.
  revert n files f. induction fs as [|g fs IH]; intros n files f Hn; destruct n as [|n]; try (cbn in Hn; lia);
    cbn [files_loop].
  - cbn [fmap list_fmap join_with]. destruct (print_file_head f ("]" ++ rest)) as [t Ht]. rewrite Ht.
    rewrite skip_ws_cons, consume_miss by done. rewrite <- Ht, parse_file_print. cbn [rbind].
    change ("]" ++ rest) with ("]"%char :: rest). rewrite skip_ws_cons, consume_miss by done. by rewrite consume_hit.
  - assert (join_with "," (print_file <$> f :: g :: fs) ++ "]" ++ rest =
      print_file f ++ ","%char :: join_with "," (print_file <$> g :: fs) ++ "]" ++ rest) as ->.
    { cbn [fmap list_fmap join_with]. by rewrite <- !app_assoc. }
    destruct (print_file_head f (","%char :: join_with "," (print_file <$> g :: fs) ++ "]" ++ rest)) as [t Ht]. rewrite Ht.
    rewrite skip_ws_cons, consume_miss by done. rewrite <- Ht, parse_file_print. cbn [rbind].
    rewrite skip_ws_cons, consume_hit by done. rewrite IH by (cbn in Hn; lia). by rewrite <- app_assoc.
Qed.

Lemma join_files_length fs : (length fs ≤ S (length (join_with "," (print_file <$> fs))))%nat.
Proof.
  assert (∀ f, (1 ≤ length (print_file f))%nat) as Hf by (intros f; unfold print_file; cbn; lia).
  induction fs as [|f [|g fs] IH]; [cbn; lia|cbn; lia|].
  assert (length (join_with "," (print_file <$> f :: g :: fs)) =
    (length (print_file f) + 1 + length (join_with "," (print_file <$> g :: fs)))%nat) as ->.
  { cbn [fmap list_fmap join_with]. rewrite !length_app. cbn. lia. }
  specialize (Hf f). cbn [length] in *. lia.
Qed.

Lemma parse_files_print stack fs rest : parse_files_array stack (print_files fs ++ rest) = Got fs rest.
Proof.
  unfold parse_files_array, print_files. rewrite <- !app_assoc. change ("[" ++ ?t) with ("["%char :: t).
  rewrite consume_hit by done. cbn [negb]. destruct fs as [|f fs]; [done|].
  rewrite files_loop_print; [done|]. rewrite length_app. pose proof (join_files_length (f :: fs)). cbn [length] in *. lia.
Qed.

(** A save request is stored as it was sent: printed as JSON with its strings
    escaped, any version, reason and files (whatever bytes they contain) are read
    back exactly. *)
Lemma save_request_roundtrip stack r :
  valid_save r → parse_save_request stack (print_save r) = Got r [].
Proof.
  intros Hr. destruct r as [base reason files]. unfold valid_save in Hr. cbn in Hr.
  unfold parse_save_request, read_body, read_object, print_save. cbn [sv_base_version sv_reason sv_files].
  repeat rewrite <- app_assoc. change ("{" ++ ?t) with ("{"%char :: t). rewrite consume_hit by done. cbn [negb].
  set (s := member "base_version" _ ++ _). assert (∃ n, length s = S (S n)) as [n ->].
  { unfold s, member, quoted. cbn. eauto. }
  unfold s. change ("," ++ ?t) with (","%char :: t). change ("}" : bytes) with ["}"%char].
  erewrite object_member; [|done|by left|apply int_field_print; [done|done|apply negb_true_iff, Z.ltb_ge; lia]].
  change (ceqb "," ",") with true. cbn iota. change ("," ++ ?t) with (","%char :: t).
  erewrite object_member; [|done|by left|by apply string_field_print].
  change (ceqb "," ",") with true. cbn iota.
  erewrite object_member; [|done|by right|].
  2:{ unfold save_field. cbn iota beta. change (beqb "files" "base_version") with false.
      change (beqb "files" "reason") with false. change (beqb "files" "files") with true. cbn iota.
      rewrite parse_files_print. cbn. reflexivity. }
  change (ceqb "}" ",") with false. cbn iota. done.
Qed.

Lemma save_request_roundtrip_witness :
  parse_save_request 0 (print_save (mkSave 7 ("line" ++ [LF; DQUOTE]) [mkManagedFile "a.ini" "[x]"; mkManagedFile "b" []])) =
  Got (mkSave 7 ("line" ++ [LF; DQUOTE]) [mkManagedFile "a.ini" "[x]"; mkManagedFile "b" []]) [].
Proof. apply (save_request_roundtrip 0). by vm_compute. Defined.

(** ** Unicode escapes *)

(** A continuation byte's payload. *)
Definition utf8_cont (b : ascii) : option Z := if in_range 0x80 0xbf (code b) then Some (code b - 0x80) else None.

(** The code point of one well-formed UTF-8 sequence (RFC 3629): shortest form,
    no surrogates. *)
Definition utf8_decode (s : bytes) : option Z :=
  match s with
  | [a] => if code a <? 0x80 then Some (code a) else None
  | [a; b] =>
      y ← utf8_cont b; let cp := (code a - 0xc0) * 64 + y in
      if in_range 0xc2 0xdf (code a) then Some cp else None
  | [a; b; c] =>
      y ← utf8_cont b; z ← utf8_cont c; let cp := (code a - 0xe0) * 4096 + y * 64 + z in
      if in_range 0xe0 0xef (code a) && (0x800 <=? cp) && negb (in_range 0xd800 0xdfff cp) then Some cp else None
  | [a; b; c; d] =>
      x ← utf8_cont b; y ← utf8_cont c; z ← utf8_cont d; let cp := (code a - 0xf0) * 262144 + x * 4096 + y * 64 + z in
      if in_range 0xf0 0xf4 (code a) && in_range 0x10000 0x10ffff cp then Some cp else None
  | _ => None
  end.

Definition surrogate (cp : Z) : bool := in_range 0xd800 0xdfff cp.

Definition utf8_checked (cp : Z) : bool :=
  bool_decide (utf8_decode (append_utf8 cp) = if surrogate cp then None else Some cp).

Fixpoint utf8_check_from (cp : Z) (n : nat) : bool :=
  match n with O => true | S n => utf8_checked cp && utf8_check_from (cp + 1) n end.

Lemma utf8_check_from_spec n cp c : utf8_check_from cp n = true → cp ≤ c < cp + Z.of_nat n → utf8_checked c = true.
Proof.
  revert cp. induction n as [|n IH]; intros cp H Hc; [lia|]. cbn [utf8_check_from] in H. bool_prop.
  destruct (decide (c = cp)) as [->|]; [done|]. apply (IH (cp + 1)); [done|lia].
Qed.

Lemma utf8_all : utf8_check_from 0 (Z.to_nat 65536) = true.
Proof. vm_compute. reflexivity. Qed.

(** A unicode escape of the basic plane becomes the well-formed UTF-8 of its
    code point, except that the escapes of a surrogate pair are not joined: each
    half is encoded alone, which is not UTF-8, so a character beyond the basic
    plane that is sent as two escapes is stored as ill-formed text. *)
Lemma unicode_escapes cp :
  0 ≤ cp < 65536 →
  utf8_decode (append_utf8 cp) = (if surrogate cp then None else Some cp) ∧
  parse_string (quoted ([BACKSLASH] ++ "ud83d" ++ [BACKSLASH] ++ "ude00")) =
    Got (append_utf8 0xd83d ++ append_utf8 0xde00) [] ∧ surrogate 0xd83d = true ∧ surrogate 0xde00 = true.
Proof.
  intros Hcp. split; [|done]. apply (bool_decide_eq_true_1 _), (utf8_check_from_spec _ _ _ utf8_all). lia.
Qed.

Lemma unicode_escapes_witness :
  utf8_decode (append_utf8 0x4e2d) = Some 0x4e2d ∧ utf8_decode (append_utf8 0xd83d) = None.
Proof.
  split; [by destruct (unicode_escapes 0x4e2d) as [H _]|by destruct (unicode_escapes 0xd83d) as [H _]].
Defined.
