(* ===== verification/Lifecycle.v ===== *)
(** * Leases and shutdown (src/src/common/shutdown_coordinator.hpp,
      src/src/http/route_lifecycle.hpp, src/src/app/route_runtime.hpp)

    Sessions and handlers run under leases that are counted, so that shutdown can
    wait until none is left.  Both counters are machines whose steps are the
    atomic operations of the source, under every interleaving of any number of
    threads (the acquire and release orders are read as sequential consistency).
    What both promise is stated once, as an interface of counted leases, and the
    theorems are proved against it: after draining began, a counter at zero means
    that no lease is or will be held.  The session coordinator moreover refines an
    abstract set of sessions with a capacity, and draining it always completes. *)

From stdpp Require Import relations.
From S2P Require Import Prelude.

Inductive Phase := Running | Draining | Stopped.

#[export] Instance Phase_eq_dec : EqDecision Phase.
Proof. solve_decision. Defined.

Definition is_running (p : Phase) : bool := bool_decide (p = Running).

(** [compare_exchange_strong(Running, Draining)]: the flag and the new phase. *)
Definition cas_draining (p : Phase) : bool * Phase :=
  if is_running p then (true, Draining) else (false, p).

(** ** Counted leases: the interface

    A shared state with a counter and a phase, and threads that step on it. *)
Class LeaseMachine (G P : Type) := {
  lm_phase : G → Phase;
  lm_active : G → Z;
  lm_step : G → P → G → P → Prop;
  lm_env : G → G → Prop;
  lm_token : P → Z;
  lm_lease : P → bool;
  lm_ok : P → Prop
}.

(** What an implementation shows: a thread's steps change the counter by exactly
    its own tokens, a lease is a token and is granted only while running, and the
    phase never returns to running. *)
Class LeaseLaws (G P : Type) `{LeaseMachine G P} := {
  token_nonneg : ∀ p, 0 ≤ lm_token p;
  token_le : ∀ p, lm_token p ≤ 1;
  lease_token : ∀ p, lm_lease p = true → 1 ≤ lm_token p;
  step_counts : ∀ g p g' p', lm_step g p g' p' → lm_ok p → 0 ≤ lm_active g < SIZE_MAX → lm_token p ≤ lm_active g →
    lm_ok p' ∧ lm_active g' - lm_active g = lm_token p' - lm_token p;
  step_phase : ∀ g p g' p', lm_step g p g' p' → lm_phase g' = lm_phase g;
  step_grants : ∀ g p g' p', lm_step g p g' p' → lm_lease p = false → lm_lease p' = true → lm_phase g = Running;
  env_counts : ∀ g g', lm_env g g' → lm_active g' = lm_active g;
  env_phase : ∀ g g', lm_env g g' → lm_phase g ≠ Running → lm_phase g' ≠ Running
}.

Section lease_machine.
Context {G P : Type} `{LeaseLaws G P}.

(** A step of one thread, or of the shutdown. *)
Inductive lease_step : G * list P → G * list P → Prop :=
| thread_step g ts i p g' p' : ts !! i = Some p → lm_step g p g' p' → lease_step (g, ts) (g', <[i := p']> ts)
| shutdown_step g ts g' : lm_env g g' → lease_step (g, ts) (g', ts).

(** Fewer threads than a [size_t] can count. *)
Definition counted (s : G * list P) : Prop :=
  Z.of_nat (length s.2) < SIZE_MAX ∧ lm_active s.1 = total lm_token s.2 ∧ Forall lm_ok s.2.

Definition no_lease (s : G * list P) : Prop := Forall (λ p, lm_lease p = false) s.2.

Lemma counted_start g p n : Z.of_nat n < SIZE_MAX → lm_active g = 0 → lm_token p = 0 → lm_ok p → counted (g, replicate n p).
Proof.
  intros Hn Hg Hp Hok. split_and!; cbn [fst snd]; [by rewrite length_replicate| |by apply Forall_replicate].
  rewrite total_zero; [done|]. by intros q [-> _]%elem_of_replicate.
Qed.

Lemma counted_active s : counted s → 0 ≤ lm_active s.1 < SIZE_MAX.
Proof.
  intros (Hn & Ht & _). pose proof (total_bounds lm_token s.2 0 1 (λ p, conj (token_nonneg p) (token_le p))). lia.
Qed.

Lemma counted_step s s' : lease_step s s' → counted s → counted s'.
Proof.
  intros Hstep Hc. pose proof (counted_active _ Hc) as Ha. destruct Hc as (Hn & Ht & Hok).
  destruct Hstep as [g ts i p g' p' Hi Hs|g ts g' He]; cbn [fst snd] in *.
  - pose proof (total_one lm_token ts i p token_nonneg Hi) as Hp.
    destruct (step_counts _ _ _ _ Hs) as [Hok' Hd]; [by eapply Forall_lookup_1|done|lia|].
    pose proof (total_insert lm_token ts i p p' Hi) as Hti.
    unfold counted; cbn [fst snd]. rewrite length_insert. split_and!; [done|lia|by apply Forall_insert].
  - unfold counted; cbn [fst snd]. by rewrite (env_counts _ _ He).
Qed.

Lemma zero_no_lease s : counted s → lm_active s.1 = 0 → no_lease s.
Proof.
  intros (_ & Ht & _) Hz. apply Forall_lookup_2. intros i p Hi. destruct (lm_lease p) eqn:E; [|done].
  apply lease_token in E. pose proof (total_one lm_token s.2 i p token_nonneg Hi). lia.
Qed.

Lemma drained_step s s' : lease_step s s' → lm_phase s.1 ≠ Running → no_lease s → lm_phase s'.1 ≠ Running ∧ no_lease s'.
Proof.
  intros [g ts i p g' p' Hi Hs|g ts g' He] Hp Hn; cbn [fst snd] in *.
  - rewrite (step_phase _ _ _ _ Hs). split; [done|]. apply Forall_insert; [done|].
    destruct (lm_lease p') eqn:E; [|done]. exfalso. apply Hp, (step_grants _ _ _ _ Hs); [|done].
    by eapply (Forall_lookup_1 (λ p, lm_lease p = false)).
  - split; [by eapply env_phase|done].
Qed.

(** The promise: once draining and at zero, no lease is held, now or later. *)
Lemma drained_for_good s0 s s' : counted s0 → rtc lease_step s0 s →
  lm_phase s.1 ≠ Running → lm_active s.1 = 0 → rtc lease_step s s' → no_lease s'.
Proof.
  intros Hc Hr Hp Ha Hs. assert (counted s) as Hcs.
  { induction Hr as [|x y z Hxy _ IH]; [done|]. apply IH; [by eapply counted_step|done..]. }
  assert (no_lease s) as Hn by by apply zero_no_lease.
  clear -Hs Hp Hn H0. induction Hs as [|x y z Hxy _ IH]; [done|].
  destruct (drained_step _ _ Hxy Hp Hn). by apply IH.
Qed.

(** A property of the shared state that the steps keep, with the counter exact. *)
Lemma counted_invariant (I : G → Prop) s0 s :
  (∀ g p g' p', lm_step g p g' p' → lm_ok p → 0 ≤ lm_active g < SIZE_MAX → lm_token p ≤ lm_active g → I g → I g') →
  (∀ g g', lm_env g g' → I g → I g') →
  counted s0 → I s0.1 → rtc lease_step s0 s → counted s ∧ I s.1.
Proof.
  intros Hstep Henv Hc HI Hr. revert s Hr. apply rtc_ind_r; [done|]. intros x y _ Hxy [Hcx HIx].
  split; [by eapply counted_step|]. pose proof (counted_active _ Hcx) as Ha. destruct Hcx as (_ & Ht & Hok).
  destruct Hxy as [g l i p g' p' Hi Hs|g l g' He]; cbn [fst snd] in *; [|by eapply Henv].
  pose proof (total_one lm_token l i p token_nonneg Hi) as Hone. apply (Hstep _ _ _ _ Hs); [by eapply Forall_lookup_1|done|lia|done].
Qed.
End lease_machine.

(** ** The shutdown coordinator *)

Record ShutdownCoordinator := mkCoordinator {
  sc_phase : Phase;
  active_sessions : Z;
  capacity_rejections : Z
}.

Definition coordinator0 : ShutdownCoordinator := mkCoordinator Running 0 0.

Definition set_active (n : Z) (c : ShutdownCoordinator) : ShutdownCoordinator :=
  mkCoordinator (sc_phase c) n (capacity_rejections c).
Definition set_phase (p : Phase) (c : ShutdownCoordinator) : ShutdownCoordinator :=
  mkCoordinator p (active_sessions c) (capacity_rejections c).

Definition begin_draining (c : ShutdownCoordinator) : bool * ShutdownCoordinator :=
  let '(changed, p) := cas_draining (sc_phase c) in (changed, set_phase p c).

Definition mark_stopped (c : ShutdownCoordinator) : ShutdownCoordinator := set_phase Stopped c.

(** Where a session is: in [try_enter_session] (before the first test of the
    phase, before the load, in the loop, before the second test), under its
    lease, in [leave_session] (before the load, in the loop), or out of both. *)
Inductive session_pc :=
| SStart
| SLoad
| SLoop (current : Z)
| SCounted
| SLease
| SLeave
| SLeaving (current : Z)
| SOut.

(** One atomic operation; [spurious] makes a weak compare-exchange fail. *)
Definition enter_step (max_sessions : Z) (spurious : bool) (c : ShutdownCoordinator) (p : session_pc) :
    option (ShutdownCoordinator * session_pc) :=
  match p with
  | SStart => Some (c, if is_running (sc_phase c) then SLoad else SOut)
  | SLoad => Some (c, SLoop (active_sessions c))
  | SLoop current =>
      if negb (max_sessions =? 0) && (max_sessions <=? current)
      then Some (mkCoordinator (sc_phase c) (active_sessions c) (wrap64 (capacity_rejections c + 1)), SOut)
      else if (active_sessions c =? current) && negb spurious
      then Some (set_active (wrap64 (current + 1)) c, SCounted)
      else Some (c, SLoop (active_sessions c))
  | SCounted => Some (c, if is_running (sc_phase c) then SLease else SLeave)
  | _ => None
  end.

Definition leave_step (spurious : bool) (c : ShutdownCoordinator) (p : session_pc) :
    option (ShutdownCoordinator * session_pc) :=
  match p with
  | SLeave => Some (c, SLeaving (active_sessions c))
  | SLeaving current =>
      if current =? 0 then Some (c, SOut)
      else if (active_sessions c =? current) && negb spurious
      then Some (set_active (current - 1) c, SOut)
      else Some (c, SLeaving (active_sessions c))
  | _ => None
  end.

(** A session enters, is served under its lease, and leaves when the lease is
    released. *)
Definition session_step (max_sessions : Z) (spurious : bool) (c : ShutdownCoordinator) (p : session_pc) :
    option (ShutdownCoordinator * session_pc) :=
  match p with
  | SStart | SLoad | SLoop _ | SCounted => enter_step max_sessions spurious c p
  | SLease => Some (c, SLeave)
  | SLeave | SLeaving _ => leave_step spurious c p
  | SOut => None
  end.

(** The polls of [wait_for_drain]: the counter, the clock, and whether the wait
    for the timer failed. *)
Record poll := mkPoll { poll_active : Z; poll_now : Z; poll_ec : bool }.

Fixpoint wait_for_drain (deadline : Z) (polls : list poll) : option bool :=
  match polls with
  | [] => None
  | q :: polls =>
      if poll_active q =? 0 then Some true
      else if deadline <=? poll_now q then Some false
      else if poll_ec q then Some false
      else wait_for_drain deadline polls
  end.

Section coordinator.
Context (max_sessions : Z).

Definition session_token (p : session_pc) : Z :=
  match p with SCounted | SLease | SLeave | SLeaving _ => 1 | _ => 0 end.

#[export] Instance coordinator_machine : LeaseMachine ShutdownCoordinator session_pc := {
  lm_phase := sc_phase;
  lm_active := active_sessions;
  lm_step := λ c p c' p', ∃ spurious, session_step max_sessions spurious c p = Some (c', p');
  lm_env := λ c c', c' = (begin_draining c).2 ∨ c' = mark_stopped c;
  lm_token := session_token;
  lm_lease := λ p, match p with SLease => true | _ => false end;
  lm_ok := λ p, match p with SLeaving current => 1 ≤ current | _ => True end
}.

#[export] Instance coordinator_laws : LeaseLaws ShutdownCoordinator session_pc.
Proof.
  split; cbn.
  - by intros [].
  - by intros [].
  - by intros [].
  - intros c p c' p' [sp Hs] Hok Ha Ht.
    destruct p; cbn in *; repeat case_if; simplify_eq/=; bool_prop; subst; rewrite ?wrap64_small by (unfold SIZE_MAX in *; lia);
      split; (done || lia).
  - intros c p c' p' [sp Hs]. destruct p; cbn in *; repeat case_if; by simplify_eq/=.
  - intros c p c' p' [sp Hs] Hl Hl'. destruct p; cbn in *; repeat case_if; simplify_eq/=; try done.
    unfold is_running in *. by bool_prop.
  - intros c c' [->| ->]; [|done]. unfold begin_draining. by destruct (cas_draining _).
  - intros c c' [->| ->] Hp; [|done]. unfold begin_draining, cas_draining, is_running.
    by rewrite bool_decide_eq_false_2.
Qed.
End coordinator.

(** ** The route lifecycle *)

Record RouteLifecycle := mkLifecycle { rl_phase : Phase; active_handlers : Z }.

Definition lifecycle0 : RouteLifecycle := mkLifecycle Running 0.

(** [fetch_sub] on a [uint64_t]. *)
Definition fetch_sub1 (n : Z) : Z := wrap64 (n - 1).

Inductive handler_pc := HStart | HAdd | HCheck | HUndo | HLease | HOut.

Definition handler_step (l : RouteLifecycle) (p : handler_pc) : option (RouteLifecycle * handler_pc) :=
  match p with
  | HStart => Some (l, if is_running (rl_phase l) then HAdd else HOut)
  | HAdd => Some (mkLifecycle (rl_phase l) (wrap64 (active_handlers l + 1)), HCheck)
  | HCheck => Some (l, if is_running (rl_phase l) then HLease else HUndo)
  | HUndo | HLease => Some (mkLifecycle (rl_phase l) (fetch_sub1 (active_handlers l)), HOut)
  | HOut => None
  end.

Definition lifecycle_begin_draining (l : RouteLifecycle) : bool * RouteLifecycle :=
  let '(changed, p) := cas_draining (rl_phase l) in (changed, mkLifecycle p (active_handlers l)).

Definition lifecycle_mark_stopped (l : RouteLifecycle) : RouteLifecycle := mkLifecycle Stopped (active_handlers l).

#[export] Instance lifecycle_machine : LeaseMachine RouteLifecycle handler_pc := {
  lm_phase := rl_phase;
  lm_active := active_handlers;
  lm_step := λ l p l' p', handler_step l p = Some (l', p');
  lm_env := λ l l', l' = (lifecycle_begin_draining l).2 ∨ l' = lifecycle_mark_stopped l;
  lm_token := λ p, match p with HCheck | HUndo | HLease => 1 | _ => 0 end;
  lm_lease := λ p, match p with HLease => true | _ => false end;
  lm_ok := λ _, True
}.

#[export] Instance lifecycle_laws : LeaseLaws RouteLifecycle handler_pc.
Proof.
  split; cbn.
  - by intros [].
  - by intros [].
  - by intros [].
  - intros l p l' p' Hs _ Ha Ht. destruct p; cbn in *; repeat case_if; simplify_eq/=; unfold fetch_sub1;
      rewrite ?wrap64_small by (unfold SIZE_MAX in *; lia); split; (done || lia).
  - intros l p l' p' Hs. destruct p; cbn in *; by simplify_eq/=.
  - intros l p l' p' Hs Hl Hl'. destruct p; cbn in *; repeat case_if; simplify_eq/=; try done.
    unfold is_running in *. by bool_prop.
  - intros l l' [->| ->]; [|done]. unfold lifecycle_begin_draining. by destruct (cas_draining _).
  - intros l l' [->| ->] Hp; [|done]. unfold lifecycle_begin_draining, cas_draining, is_running.
    by rewrite bool_decide_eq_false_2.
Qed.

(** ** The runtime of the routes: handlers first, then sessions *)

Record RouteRuntime := mkRuntime { rt_lifecycle : RouteLifecycle; rt_shutdown : option ShutdownCoordinator }.

Definition runtime_begin_draining (r : RouteRuntime) : bool * RouteRuntime :=
  let '(transitioned, l) := lifecycle_begin_draining (rt_lifecycle r) in
  (transitioned, mkRuntime l ((λ c, (begin_draining c).2) <$> rt_shutdown r)).

Definition runtime_mark_stopped (r : RouteRuntime) : RouteRuntime :=
  mkRuntime (lifecycle_mark_stopped (rt_lifecycle r)) (mark_stopped <$> rt_shutdown r).

(** After the call neither handlers nor sessions are admitted, and only the first
    call reports the transition. *)
Lemma runtime_draining r : let '(transitioned, r') := runtime_begin_draining r in
  transitioned = is_running (rl_phase (rt_lifecycle r)) ∧ rl_phase (rt_lifecycle r') ≠ Running ∧
  (∀ c, rt_shutdown r' = Some c → sc_phase c ≠ Running).
Proof.
  destruct r as [[p n] sh]. unfold runtime_begin_draining, lifecycle_begin_draining, cas_draining, is_running. cbn.
  case_bool_decide as E; cbn; (split; [done|]); (split; [done|]); intros c; destruct sh as [c0|]; cbn; intros [= <-];
    unfold begin_draining, cas_draining, is_running; case_bool_decide; done.
Qed.

(** ** Draining is final *)

(** Once draining has begun and the count of sessions (of handlers) has been
    seen at zero, no session (no handler) holds a lease, then or later, whatever
    the other threads were doing: what the leases protect can be destroyed. *)
Lemma drained_stays_drained :
  (∀ max n s s', Z.of_nat n < SIZE_MAX →
     rtc (lease_step (H := coordinator_machine max)) (coordinator0, replicate n SStart) s →
     sc_phase s.1 ≠ Running → active_sessions s.1 = 0 →
     rtc (lease_step (H := coordinator_machine max)) s s' → SLease ∉ s'.2) ∧
  (∀ n s s', Z.of_nat n < SIZE_MAX → rtc lease_step (lifecycle0, replicate n HStart) s →
     rl_phase s.1 ≠ Running → active_handlers s.1 = 0 → rtc lease_step s s' → HLease ∉ s'.2).
Proof.
  split.
  - intros max n s s' Hn H1 Hp Ha H2 Hin.
    assert (no_lease (H := coordinator_machine max) s') as Hnl.
    { eapply (drained_for_good _ s s'); [|exact H1|done..]. by apply counted_start. }
    unfold no_lease in Hnl. rewrite Forall_forall in Hnl. by specialize (Hnl _ Hin).
  - intros n s s' Hn H1 Hp Ha H2 Hin.
    assert (no_lease s') as Hnl by (eapply (drained_for_good _ s s'); [|exact H1|done..]; by apply counted_start).
    unfold no_lease in Hnl. rewrite Forall_forall in Hnl. by specialize (Hnl _ Hin).
Qed.

(** ** The coordinator refines a set of sessions with a capacity *)

(** The promise to the server: which of the clients hold a session. *)
Record session_spec := mkSpec { sp_phase : Phase; sp_sessions : list bool }.

Definition held (l : list bool) : Z := total Z.b2z l.

Inductive spec_step (max_sessions : Z) : session_spec → session_spec → Prop :=
| spec_grant l i : l !! i = Some false → max_sessions = 0 ∨ held l < max_sessions →
    spec_step max_sessions (mkSpec Running l) (mkSpec Running (<[i := true]> l))
| spec_release p l i : l !! i = Some true → spec_step max_sessions (mkSpec p l) (mkSpec p (<[i := false]> l))
| spec_drain l : spec_step max_sessions (mkSpec Running l) (mkSpec Draining l)
| spec_stop p l : spec_step max_sessions (mkSpec p l) (mkSpec Stopped l).

Definition in_session (p : session_pc) : bool := match p with SLease => true | _ => false end.

Definition spec_of (s : ShutdownCoordinator * list session_pc) : session_spec :=
  mkSpec (sc_phase s.1) (in_session <$> s.2).

Section refinement.
Context (max_sessions : Z) (Hmax : 0 ≤ max_sessions).
#[local] Existing Instance coordinator_machine.
Abbreviation coord_step := (lease_step (H := coordinator_machine max_sessions)).

Definition within_capacity (s : ShutdownCoordinator * list session_pc) : Prop :=
  max_sessions ≠ 0 → active_sessions s.1 ≤ max_sessions.

Lemma capacity_step s s' : coord_step s s' → counted (H := coordinator_machine max_sessions) s →
  within_capacity s → within_capacity s'.
Proof.
  intros Hstep Hc. pose proof (counted_active (H := coordinator_machine max_sessions) _ Hc) as Ha. cbn in Ha.
  destruct Hstep as [c ts i p c' p' Hi [sp Hs]|c ts c' He]; unfold within_capacity; cbn [fst snd] in *.
  - destruct p; cbn in Hs; repeat case_if; simplify_eq/=; try done.
    + intros Hle Hne. specialize (Hle Hne). bool_prop. subst. rewrite wrap64_small by lia.
      apply andb_false_iff in Heqb. destruct Heqb; bool_prop; lia.
    + intros Hle Hne. specialize (Hle Hne). bool_prop. lia.
  - destruct He as [->| ->]; [|done]. unfold begin_draining. by destruct (cas_draining _).
Qed.

Lemma held_fmap ts : held (in_session <$> ts) = total (λ p, Z.b2z (in_session p)) ts.
Proof. unfold held. induction ts as [|p ts IH]; [done|]. cbn. unfold total in IH. by rewrite IH. Qed.

Lemma held_active s : counted (H := coordinator_machine max_sessions) s →
  held (in_session <$> s.2) ≤ active_sessions s.1.
Proof.
  intros (_ & Ht & _). cbn in Ht. rewrite Ht, held_fmap. apply total_mono. by intros [] _.
Qed.

Lemma refine_step s s' : coord_step s s' → counted (H := coordinator_machine max_sessions) s → within_capacity s →
  spec_of s = spec_of s' ∨ spec_step max_sessions (spec_of s) (spec_of s').
Proof.
  intros Hstep Hc Hw. pose proof (counted_step (H := coordinator_machine max_sessions) _ _ Hstep Hc) as Hc'.
  pose proof (capacity_step _ _ Hstep Hc Hw) as Hw'.
  destruct Hstep as [c ts i p c' p' Hi [sp Hs]|c ts c' He]; unfold spec_of; cbn [fst snd] in *.
  - assert ((in_session <$> ts) !! i = Some (in_session p)) as Hl by by rewrite list_lookup_fmap, Hi.
    assert (sc_phase c' = sc_phase c) as -> by (destruct p; cbn in Hs; repeat case_if; by simplify_eq/=).
    rewrite list_fmap_insert. destruct (decide (in_session p' = in_session p)) as [->|Hne].
    + left. by rewrite list_insert_id.
    + right. destruct p; cbn in Hs; repeat case_if; simplify_eq/=; try done.
      * unfold is_running in *. bool_prop. rewrite Heqb. constructor; [done|].
        destruct (decide (max_sessions = 0)) as [|Hm]; [by left|right].
        pose proof (held_active _ Hc') as Hh. specialize (Hw' Hm). cbn [fst snd] in Hh, Hw'.
        rewrite list_fmap_insert in Hh. unfold held in *. rewrite (total_insert _ _ _ _ _ Hl) in Hh.
        cbn [in_session Z.b2z] in Hh. lia.
      * by constructor.
  - destruct He as [->| ->]; [|right; constructor]. unfold begin_draining, cas_draining, is_running.
    case_bool_decide as E; cbn; [rewrite E; right; constructor|by left].
Qed.
End refinement.

(** C12: The compare-exchange loops implement a set of sessions with a capacity:
    in every run from the start, with any number of threads and any interleaving,
    the sessions that hold a lease evolve as the specification allows (granted
    one at a time, only while running and below the maximum), the counter never
    exceeds the maximum and never counts fewer than the sessions held. *)
Theorem coordinator_refines_sessions max n s :
  0 ≤ max → Z.of_nat n < SIZE_MAX →
  rtc (lease_step (H := coordinator_machine max)) (coordinator0, replicate n SStart) s →
  rtc (spec_step max) (mkSpec Running (replicate n false)) (spec_of s) ∧
  (max ≠ 0 → active_sessions s.1 ≤ max) ∧ held (sp_sessions (spec_of s)) ≤ active_sessions s.1.
Proof.
  intros Hmax Hn Hr.
  assert (counted (H := coordinator_machine max) s ∧ within_capacity max s ∧
          rtc (spec_step max) (mkSpec Running (replicate n false)) (spec_of s)) as (Hc & Hw & Hs).
  { revert s Hr. apply rtc_ind_r.
    - split; [by apply counted_start|]. split; [unfold within_capacity; cbn; lia|].
      unfold spec_of. cbn. by rewrite fmap_replicate.
    - intros x y _ Hxy (Hc & Hw & Hs). split_and!.
      + by eapply (counted_step (H := coordinator_machine max)).
      + by eapply capacity_step.
      + destruct (refine_step max Hmax _ _ Hxy Hc Hw) as [<-|Hstep]; [done|by eapply rtc_r]. }
  split_and!; [done|done|by apply held_active in Hc].
Qed.

(** A run of one thread that takes a session, for the witnesses. *)
Lemma one_session_run max c p c' p' s :
  session_step max false c p = Some (c', p') →
  rtc (lease_step (H := coordinator_machine max)) (c', [p']) s →
  rtc (lease_step (H := coordinator_machine max)) (c, [p]) s.
Proof.
  intros Hs Hr. eapply rtc_l; [|exact Hr]. apply (thread_step (H := coordinator_machine max) c [p] 0 p c' p'); [done|].
  by exists false.
Qed.

Lemma coordinator_refines_sessions_witness :
  rtc (spec_step 1) (mkSpec Running [false]) (mkSpec Running [true]) ∧ held [true] ≤ 1.
Proof.
  destruct (coordinator_refines_sessions 1 1 (mkCoordinator Running 1 0, [SLease])) as (H1 & _ & H2);
    [lia|by vm_compute| |exact (conj H1 H2)].
  do 4 (eapply one_session_run; [reflexivity|]). apply rtc_refl.
Defined.

(** ** Draining completes *)

Section drain_liveness.
Context (max_sessions : Z).

(** A step of a session; a compare-exchange fails only when the value changed. *)
Inductive progress : ShutdownCoordinator * list session_pc → ShutdownCoordinator * list session_pc → Prop :=
| progress_step c ts i p c' p' : ts !! i = Some p → session_step max_sessions false c p = Some (c', p') →
    progress (c, ts) (c', <[i := p']> ts).

(** The exchanges a session can still win while draining, and its other steps. *)
Definition wins_left (p : session_pc) : Z :=
  match p with SLoad | SLoop _ => 2 | SCounted | SLease | SLeave | SLeaving _ => 1 | SStart | SOut => 0 end.

Definition local_left (active : Z) (p : session_pc) : Z :=
  match p with
  | SStart => 1
  | SLoad => 2
  | SLoop current | SLeaving current => if current =? active then 0 else 1
  | SCounted | SLease => 3
  | SLeave => 2
  | SOut => 0
  end.

Definition rank (w active : Z) (p : session_pc) : Z := w * wins_left p + local_left active p.

Definition drain_rank (s : ShutdownCoordinator * list session_pc) : Z :=
  total (rank (Z.of_nat (length s.2) + 5) (active_sessions s.1)) s.2.

Lemma rank_nonneg w active p : 0 ≤ w → 0 ≤ rank w active p.
Proof. intros Hw. unfold rank. destruct p; cbn; repeat case_if; lia. Qed.

Lemma rank_change w a a' p : rank w a' p ≤ rank w a p + 1.
Proof. unfold rank. destruct p; cbn; repeat case_if; lia. Qed.

Lemma total_plus_one {A} (f : A → Z) ts : total (λ p, f p + 1) ts = total f ts + Z.of_nat (length ts).
Proof. unfold total. induction ts as [|p ts IH]; [done|]. cbn [foldr length]. rewrite IH. lia. Qed.

(** A thread's own step pays for what it costs the others. *)
Lemma session_step_rank c p c' p' w n : sc_phase c ≠ Running → 0 ≤ n → w = n + 5 →
  session_step max_sessions false c p = Some (c', p') →
  if active_sessions c' =? active_sessions c
  then rank w (active_sessions c') p' < rank w (active_sessions c) p
  else rank w (active_sessions c') p' + n < rank w (active_sessions c') p.
Proof.
  intros Hp Hn -> Hs. unfold rank. destruct p; cbn in Hs; unfold is_running in Hs;
    rewrite ?bool_decide_eq_false_2 in Hs by done; repeat case_if; simplify_eq/=; bool_prop;
    rewrite ?Z.eqb_refl in *; try lia;
    repeat case_if; bool_prop; try lia; cbn [negb] in *; rewrite ?andb_true_r in *; bool_prop; lia.
Qed.

Lemma progress_rank s s' : sc_phase s.1 ≠ Running → progress s s' →
  sc_phase s'.1 = sc_phase s.1 ∧ drain_rank s' < drain_rank s.
Proof.
  intros Hp Hpr. revert Hp. destruct Hpr as [c ts i p c' p' Hi Hs]. cbn [fst snd]. intros Hp. split.
  { destruct p; cbn in Hs; repeat case_if; by simplify_eq/=. }
  unfold drain_rank. cbn [fst snd]. rewrite length_insert. set (n := Z.of_nat (length ts)).
  pose proof (session_step_rank c p c' p' (n + 5) n Hp ltac:(lia) eq_refl Hs) as Hr.
  rewrite (total_insert _ _ _ _ _ Hi). destruct (active_sessions c' =? active_sessions c) eqn:E.
  - apply Z.eqb_eq in E. rewrite E in *. lia.
  - assert (total (rank (n + 5) (active_sessions c')) ts ≤ total (rank (n + 5) (active_sessions c)) ts + n) as Ht.
    { unfold n at 3. rewrite <- total_plus_one. apply total_mono. intros q _. apply rank_change. }
    lia.
Qed.

Lemma progress_lease_step s s' : progress s s' → lease_step (H := coordinator_machine max_sessions) s s'.
Proof. intros [c ts i p c' p' Hi Hs]. eapply thread_step; [done|]. by exists false. Qed.

Lemma progress_bounded k s s' : sc_phase s.1 ≠ Running → nsteps progress k s s' → Z.of_nat k ≤ drain_rank s.
Proof.
  intros Hp Hr. induction Hr as [s|k s x s' Hsx _ IH].
  - apply total_nonneg. intros p. apply rank_nonneg. lia.
  - destruct (progress_rank _ _ Hp Hsx) as [Hp' Hlt]. rewrite Hp' in IH. specialize (IH Hp). lia.
Qed.

Lemma stuck_all_out s : (∀ s', ¬ progress s s') → Forall (λ p, p = SOut) s.2.
Proof.
  intros Hst. apply Forall_lookup_2. intros i p Hi. destruct s as [c ts].
  destruct (session_step max_sessions false c p) as [[c' p']|] eqn:E.
  - exfalso. eapply Hst. by apply (progress_step c ts i p c' p').
  - destruct p; cbn in E; repeat case_if; done.
Qed.
End drain_liveness.

(** C17: Draining completes: from any reachable state in which draining has begun,
    the sessions can take only a bounded number of further steps (each
    compare-exchange that loses lets another thread advance), and when none can
    move, the count of active sessions is zero, so [wait_for_drain] sees it. *)
Theorem drain_completes max n s :
  Z.of_nat n < SIZE_MAX → rtc (lease_step (H := coordinator_machine max)) (coordinator0, replicate n SStart) s →
  sc_phase s.1 ≠ Running →
  (∀ k s', nsteps (progress max) k s s' → Z.of_nat k ≤ drain_rank s) ∧
  (∀ s', rtc (progress max) s s' → (∀ s'', ¬ progress max s' s'') →
     active_sessions s'.1 = 0 ∧
     ∀ deadline now ec polls, wait_for_drain deadline (mkPoll (active_sessions s'.1) now ec :: polls) = Some true).
Proof.
  intros Hn Hr Hp. split; [intros k s'; by apply progress_bounded|]. intros s' Hs Hst.
  assert (counted (H := coordinator_machine max) s') as (_ & Ht & _).
  { assert (rtc (lease_step (H := coordinator_machine max)) (coordinator0, replicate n SStart) s') as Hr'.
    { etrans; [exact Hr|]. clear -Hs. induction Hs as [|x y z Hxy _ IH]; [done|].
      eapply rtc_l; [by apply progress_lease_step|done]. }
    clear -Hr' Hn. revert s' Hr'. apply rtc_ind_r; [by apply counted_start|].
    intros x y _ Hxy Hc. by eapply (counted_step (H := coordinator_machine max)). }
  assert (active_sessions s'.1 = 0) as Ha.
  { cbn in Ht. rewrite Ht. apply stuck_all_out in Hst. apply total_zero. intros p Hin.
    rewrite Forall_forall in Hst. by rewrite (Hst p Hin). }
  split; [done|]. intros deadline now ec polls. cbn. by rewrite Ha.
Qed.

Lemma drain_completes_witness :
  wait_for_drain 5 [mkPoll (active_sessions (mkCoordinator Draining 0 0)) 3 false] = Some true.
Proof.
  destruct (drain_completes 4 1 (mkCoordinator Draining 0 0, [SStart])) as [_ Hd]; [by vm_compute| |done|].
  - apply rtc_once. apply (shutdown_step (H := coordinator_machine 4) coordinator0 [SStart]). by left.
  - apply (Hd (mkCoordinator Draining 0 0, [SOut])).
    + apply rtc_once. by apply (progress_step 4 _ [SStart] 0 SStart (mkCoordinator Draining 0 0) SOut).
    + intros s'' Hp. inversion Hp as [c ts i p c' p' Hi Hs]; subst. destruct i; cbn in Hi; by simplify_eq/=.
Defined.
