(* ===== verification/HttpServer.v ===== *)
(** * The server (src/src/http/http_server.hpp and [HttpServerState] of
      src/src/http/client_session.hpp)

    Route registration, the registry of client sockets with [stop], and the turns
    of the accept loop.  The theorems show that the longest registered prefix
    wins with its last handler, and that a stopped server leaves no session
    waiting on an open socket. *)

From stdpp Require Import relations.
From S2P Require Import Prelude ClientSession.

(** ** Routes *)

Section routes.
Context {H : Type}.

(** [routes[path] = handler] *)
Definition route (routes : gmap (list ascii) H) (path : bytes) (handler : H) : gmap (list ascii) H :=
  <[path := handler]> routes.

Fixpoint route_prefix (prefix_routes : list (bytes * H)) (prefix : bytes) (handler : H) : list (bytes * H) :=
  match prefix_routes with
  | [] => [(prefix, handler)]
  | (registered, existing) :: rest =>
      if beqb registered prefix then (registered, handler) :: rest
      else (registered, existing) :: route_prefix rest prefix handler
  end.

(** A sequence of registrations. *)
Definition route_prefixes (regs : list (bytes * H)) : list (bytes * H) :=
  foldl (λ rs r, route_prefix rs r.1 r.2) [] regs.

(** The handler registered last for a prefix. *)
Definition last_registered (regs : list (bytes * H)) (p : bytes) (h : H) : Prop :=
  ∃ before after, regs = before ++ (p, h) :: after ∧ p ∉ after.*1.

Lemma route_prefix_elem rs p h q x : NoDup rs.*1 →
  (q, x) ∈ route_prefix rs p h ↔ (q = p ∧ x = h) ∨ (q ≠ p ∧ (q, x) ∈ rs).
Proof.
  induction rs as [|[r e] rs IH]; intros Hnd; cbn [route_prefix].
  - rewrite list_elem_of_singleton. set_solver.
  - apply NoDup_cons in Hnd as [Hr Hnd]. destruct (beqb r p) eqn:E.
    + apply beqb_eq in E as ->. rewrite !elem_of_cons. split.
      * intros [[= -> ->]|Hin]; [by left|right]. split; [|by right]. intros ->. apply Hr. by apply (list_elem_of_fmap_2 fst) in Hin.
      * intros [[-> ->]|(Hq & [[= -> ->]|Hin])]; [by left|done|by right].
    + apply beqb_ne in E. rewrite !elem_of_cons, (IH Hnd). naive_solver.
Qed.

Lemma route_prefix_nodup rs p h : NoDup rs.*1 → NoDup (route_prefix rs p h).*1.
Proof.
  induction rs as [|[r e] rs IH]; intros Hnd; cbn [route_prefix]; [apply NoDup_singleton|].
  apply NoDup_cons in Hnd as [Hr Hnd]. destruct (beqb r p) eqn:E; cbn [fmap list_fmap fst].
  - by constructor.
  - apply beqb_ne in E. constructor; [|by apply IH]. rewrite list_elem_of_fmap. intros ([q x] & -> & Hin).
    apply (route_prefix_elem rs p h q x Hnd) in Hin as [[? _]|[_ Hin]]; [done|].
    apply Hr. by apply (list_elem_of_fmap_2 fst) in Hin.
Qed.

Lemma route_prefixes_spec regs :
  NoDup (route_prefixes regs).*1 ∧ ∀ p h, (p, h) ∈ route_prefixes regs ↔ last_registered regs p h.
Proof.
  unfold route_prefixes. induction regs as [|[q x] regs IH] using rev_ind.
  - split; [constructor|]. intros p h. split; [by intros ?%not_elem_of_nil|]. intros (b & a & Heq & _). by destruct b.
  - rewrite foldl_snoc. destruct IH as [Hnd Hel]. split; [by apply route_prefix_nodup|]. intros p h.
    rewrite (route_prefix_elem _ _ _ _ _ Hnd), Hel. cbn [fst snd]. split.
    + intros [[-> ->]|(Hne & b & a & -> & Ha)].
      * exists regs, []. split; [done|apply not_elem_of_nil].
      * exists b, (a ++ [(q, x)]). rewrite <- app_assoc. split; [done|]. rewrite fmap_app. set_solver.
    + intros (b & a & Heq & Ha). destruct a as [|y a] using rev_ind.
      * apply app_inj_tail in Heq as [-> [= -> ->]]. by left.
      * clear IHa. rewrite app_comm_cons, app_assoc in Heq. apply app_inj_tail in Heq as [-> <-].
        rewrite fmap_app in Ha. right. split; [set_solver|]. exists b, a. split; [done|set_solver].
Qed.

(** ** The longest prefix *)

Lemma prefix_step_fold path (rs : list (bytes * H)) (acc : option H * Z) :
  let '(h, n) := foldl (prefix_step path) acc rs in
  (h = acc.1 ∧ n = acc.2 ∨ ∃ p, (p, h) ∈ (λ r, (r.1, Some r.2)) <$> rs ∧ n = slen p ∧ starts_with p path = true ∧ acc.2 < n) ∧
  (∀ p x, (p, x) ∈ rs → starts_with p path = true → slen p ≤ n ∨ slen p ≤ acc.2).
Proof.
  revert acc. induction rs as [|[r e] rs IH]; intros [h0 n0]; cbn [foldl].
  - split; [by left|]. by intros p x ?%not_elem_of_nil.
  - specialize (IH (prefix_step path (h0, n0) (r, e))). destruct (foldl _ _ rs) as [h n].
    unfold prefix_step in IH. cbn [fst snd] in *. destruct ((n0 <? slen r) && starts_with r path) eqn:E; cbn [fst snd] in *.
    + bool_prop. destruct IH as [[(-> & ->)|(p & Hin & -> & Hp & Hlt)] IH].
      * split.
        -- right. exists r. cbn [fmap list_fmap fst snd]. split_and!; [left|done|done|done].
        -- intros p x [[= -> ->]|Hin]%elem_of_cons Hp; [left; lia|]. destruct (IH p x Hin Hp); auto.
      * split; [right; exists p; cbn [fmap list_fmap]; split_and!; [by right|done|done|lia]|].
        intros q x [[= -> ->]|Hq]%elem_of_cons Hsw; [left; lia|]. destruct (IH q x Hq Hsw); [by left|left; lia].
    + destruct IH as [IH1 IH2]. split.
      * destruct IH1 as [?|(p & Hin & ?)]; [by left|]. right. exists p. cbn [fmap list_fmap]. split; [by right|done].
      * intros q x [[= -> ->]|Hq]%elem_of_cons Hsw; [|by eapply IH2]. rewrite Hsw, andb_true_r in E. bool_prop. by right.
Qed.

(** Local prefix routes: after any sequence of registrations, a path is served
    by the handler registered last for its longest registered prefix (the empty
    prefix serves nothing), and has no prefix handler exactly when no registered
    non-empty prefix fits. *)
Lemma prefix_routes_longest regs path :
  match find_prefix_route (route_prefixes regs) path with
  | Some h => ∃ p, last_registered regs p h ∧ p ≠ [] ∧ starts_with p path = true ∧
      ∀ q x, last_registered regs q x → starts_with q path = true → slen q ≤ slen p
  | None => ∀ q x, last_registered regs q x → starts_with q path = true → q = []
  end.
Proof.
  destruct (route_prefixes_spec regs) as [_ Hel]. unfold find_prefix_route.
  pose proof (prefix_step_fold path (route_prefixes regs) (None, 0)) as Hf.
  destruct (foldl _ _ _) as [h n]. cbn [fst snd] in *. destruct Hf as [[(-> & ->)|(p & Hin & -> & Hp & Hlt)] Hmax].
  - intros q x Hq Hsw. rewrite <- slen_0. pose proof (slen_nonneg q).
    destruct (Hmax q x); [by apply Hel|done|lia|lia].
  - apply list_elem_of_fmap in Hin as ([p' x] & [= -> ->] & Hin). exists p'.
    split; [by apply Hel|]. split; [by intros ->|]. split; [done|]. intros q y Hq Hsw.
    destruct (Hmax q y); [by apply Hel|done|lia|]. pose proof (slen_nonneg p'). lia.
Qed.
End routes.

(** ** The registry of sessions and [stop]

    A socket is named by its session.  [posted] are the sockets whose cancel and
    close have been posted to their executors. *)
Record ServerState := mkServer { running : bool; sessions : gset nat; posted : gset nat }.

Definition server0 : ServerState := mkServer true ∅ ∅.

Definition register_session (i : nat) (s : ServerState) : ServerState :=
  mkServer (running s) ({[i]} ∪ sessions s) (posted s).
Definition unregister_session (i : nat) (s : ServerState) : ServerState :=
  mkServer (running s) (sessions s ∖ {[i]}) (posted s).

(** [stop_sessions]: the snapshot of the registry, then the posts. *)
Definition stop_sessions (s : ServerState) : ServerState :=
  mkServer (running s) (sessions s) (sessions s ∪ posted s).

(** A session: spawned, registered and about to test [running], serving requests
    (reading from its socket), out of the loop, unregistered. *)
Inductive client_pc := CSpawned | CCheck | CServing | CLeft | CGone.

Definition client_step (i : nat) (again : bool) (s : ServerState) (p : client_pc) : option (ServerState * client_pc) :=
  match p with
  | CSpawned => Some (register_session i s, CCheck)
  | CCheck => Some (s, if running s then CServing else CLeft)
  | CServing => Some (s, if again then CCheck else CLeft)
  | CLeft => Some (unregister_session i s, CGone)
  | CGone => None
  end.

(** [stop] on the strand of the acceptor. *)
Inductive stop_pc := StopExchange | StopSnapshot | StopDone.

#[export] Instance stop_pc_eq_dec : EqDecision stop_pc.
Proof. solve_decision. Defined.

Definition stop_step (s : ServerState) (p : stop_pc) : option (ServerState * stop_pc) :=
  match p with
  | StopExchange => Some (mkServer false (sessions s) (posted s), if running s then StopSnapshot else StopDone)
  | StopSnapshot => Some (stop_sessions s, StopDone)
  | StopDone => None
  end.

Inductive server_step : ServerState * list client_pc * stop_pc → ServerState * list client_pc * stop_pc → Prop :=
| client_moves s ts q i p s' p' again : ts !! i = Some p → client_step i again s p = Some (s', p') →
    server_step (s, ts, q) (s', <[i := p']> ts, q)
| client_spawned s ts q : server_step (s, ts, q) (s, ts ++ [CSpawned], q)
| stop_moves s ts q s' q' : stop_step s q = Some (s', q') → server_step (s, ts, q) (s', ts, q').

(** Registered sessions are in the registry; the flag tells how far [stop] is;
    after the snapshot every serving session is among the posted ones. *)
Definition server_inv (x : ServerState * list client_pc * stop_pc) : Prop :=
  let '(s, ts, q) := x in
  (∀ i p, ts !! i = Some p → p = CCheck ∨ p = CServing ∨ p = CLeft → i ∈ sessions s) ∧
  (running s = bool_decide (q = StopExchange)) ∧
  (q = StopDone → ∀ i, ts !! i = Some CServing → i ∈ posted s).

Lemma server_inv_step x y : server_step x y → server_inv x → server_inv y.
Proof.
  intros [s ts q i p s' p' again Hi Hs|s ts q|s ts q s' q' Hs] (Hreg & Hrun & Hdone).
  - assert (i ∈ sessions s ∨ p = CSpawned ∨ p = CGone) as Hin by (destruct p; eauto).
    assert (running s' = running s ∧ posted s' = posted s ∧ (∀ j, j ≠ i → j ∈ sessions s → j ∈ sessions s') ∧
      (p' = CCheck ∨ p' = CServing ∨ p' = CLeft → i ∈ sessions s') ∧
      (p' = CServing → running s = true)) as (Hr' & Hp' & Hoth & Hown & Hserve).
    { destruct p; cbn in Hs; repeat case_if; simplify_eq/=; split_and!; try done; try set_solver;
        intros; destruct_or?; try done; set_solver. }
    split_and!; [|congruence|].
    + intros j pj Hj Hpj. destruct (decide (j = i)) as [->|Hne].
      * rewrite list_lookup_insert_eq in Hj by (by eapply lookup_lt_Some). simplify_eq. by apply Hown.
      * rewrite list_lookup_insert_ne in Hj by done. by eapply Hoth, Hreg.
    + intros -> j Hj. rewrite Hp'. destruct (decide (j = i)) as [->|Hne].
      * rewrite list_lookup_insert_eq in Hj by (by eapply lookup_lt_Some). simplify_eq.
        rewrite Hserve in Hrun by done. done.
      * rewrite list_lookup_insert_ne in Hj by done. by apply Hdone.
  - split_and!; [|done|]; [intros j pj Hj Hpj|intros -> j Hj];
      (apply lookup_app_Some in Hj as [Hj|[_ Hj]]; [eauto|apply list_lookup_singleton_Some in Hj as [_ Hj]]).
    + subst pj. by destruct_or!.
    + done.
  - destruct q; cbn in Hs; simplify_eq/=.
    + rewrite Hrun. split_and!; [done|done|done].
    + split_and!; [done|done|]. intros _ i Hi. apply elem_of_union_l. eapply Hreg; eauto.
Qed.

(** [stop] leaves no session behind: in every interleaving of sessions that
    start, serve and end with one call of [stop], once the call has returned,
    every session still serving has had the close of its socket posted, and every
    other one leaves its loop at the next test of the flag without reading. *)
Lemma stop_reaches_sessions s ts :
  rtc server_step (server0, [], StopExchange) (s, ts, StopDone) →
  (∀ i, ts !! i = Some CServing → i ∈ posted s) ∧
  (∀ i again s' p', ts !! i = Some CCheck → client_step i again s CCheck = Some (s', p') → p' = CLeft).
Proof.
  intros Hr. assert (server_inv (s, ts, StopDone)) as (_ & Hrun & Hdone).
  { revert Hr. generalize (s, ts, StopDone). apply rtc_ind_r; [|intros x y _ Hxy; by apply server_inv_step].
    split_and!; [by intros i p ?|done|done]. }
  split; [by apply Hdone|]. intros i again s' p' _ Hs. cbn in Hs. rewrite Hrun in Hs. by simplify_eq/=.
Qed.

Lemma stop_reaches_sessions_witness :
  let s := mkServer false {[0%nat]} {[0%nat]} in 0%nat ∈ posted s.
Proof.
  intros s. destruct (stop_reaches_sessions s [CServing]) as [Hd _]; [|by apply Hd].
  eapply rtc_l; [apply (client_spawned server0 [] StopExchange)|].
  eapply rtc_l; [by apply (client_moves _ _ _ 0 CSpawned (register_session 0 server0) CCheck true)|].
  eapply rtc_l; [by apply (client_moves _ _ _ 0 CCheck (register_session 0 server0) CServing true)|].
  eapply rtc_l; [by apply (stop_moves _ _ _ (mkServer false (sessions (register_session 0 server0)) ∅) StopSnapshot)|].
  eapply rtc_once. apply stop_moves. vm_compute. done.
Defined.

(** ** The accept loop *)

Definition kMaxBackoffMs : Z := 1000.

(** A completed accept with the result of [try_enter_session], or an exception. *)
Inductive accept_event := Accepted (lease : bool) | AcceptThrew.

(** What a turn does with the socket, or how long it waits. *)
Inductive accept_action := SpawnSession | CloseSocket | Sleep (ms : Z) | LeaveLoop.

(** One turn: [running] is the flag after the accept, [has_shutdown] whether a
    coordinator is set. *)
Definition accept_turn (running has_shutdown : bool) (backoff_ms : Z) (ev : accept_event) : Z * accept_action :=
  match ev with
  | Accepted lease =>
      if negb running then (0, LeaveLoop)
      else if has_shutdown && negb lease then (0, CloseSocket)
      else (0, SpawnSession)
  | AcceptThrew =>
      if running then
        let backoff_ms := if backoff_ms =? 0 then 10 else Z.min (backoff_ms * 2) kMaxBackoffMs in
        (backoff_ms, Sleep backoff_ms)
      else (backoff_ms, LeaveLoop)
  end.

Fixpoint accept_errors (n : nat) (backoff_ms : Z) : Z :=
  match n with O => backoff_ms | S n => accept_errors n (accept_turn true true backoff_ms AcceptThrew).1 end.

(** After [n] errors in a row the loop waits 10 ms, doubled [n - 1] times, at most
    a second; one accepted connection resets the wait. *)
Lemma accept_backoff n : accept_errors (S n) 0 = Z.min (10 * 2 ^ Z.of_nat n) kMaxBackoffMs.
Proof.
  assert (∀ n b, 10 ≤ b ≤ kMaxBackoffMs → accept_errors n b = Z.min (b * 2 ^ Z.of_nat n) kMaxBackoffMs) as Hb.
  { clear n. induction n as [|n IH]; intros b Hb; [cbn; lia|]. cbn [accept_errors accept_turn fst].
    replace (b =? 0) with false by lia. rewrite IH by (unfold kMaxBackoffMs in *; lia).
    rewrite Nat2Z.inj_succ, Z.pow_succ_r by lia. unfold kMaxBackoffMs in *.
    pose proof (Z.pow_pos_nonneg 2 (Z.of_nat n)). nia. }
  change (accept_errors (S n) 0) with (accept_errors n 10). by rewrite Hb.
Qed.
