(* ===== verification/Combo.v ===== *)
(** * Limits and deadlines of combined queries
      (src/src/app/combo_query_limiter.hpp, src/src/app/combo_deadline.hpp)

    A combined query runs under a permit of a shared counter and races with a
    timer: the first of the two claims the answer.  The permit belongs to the
    query, not to the request: it is given back when the query ends, also when the
    client has long been answered with a timeout.  The counter is an instance of
    the counted leases of [Lifecycle]; the theorem bounds the queries in flight
    and shows that each request gets exactly one answer. *)

From stdpp Require Import relations.
From S2P Require Import Prelude Lifecycle.

Record Counter := mkCounter { max_in_flight : Z; in_flight : Z }.

(** [ComboQueryLimiter(max_in_flight)] *)
Definition new_limiter (max : Z) : Counter := mkCounter (if max =? 0 then 1 else max) 0.

Inductive Winner := Pending | Query | Timeout.

#[export] Instance Winner_eq_dec : EqDecision Winner.
Proof. solve_decision. Defined.

(** [ComboQueryState]: the winner and whether the permit is still held. *)
Record ComboQueryState := mkQueryState { winner : Winner; permit : bool }.

(** [ComboQueryPermit::release]: the counter is decremented once. *)
Definition permit_release (c : Counter) (held : bool) : Counter * bool :=
  if held then (mkCounter (max_in_flight c) (fetch_sub1 (in_flight c)), false) else (c, false).

Definition claim_query (c : Counter) (s : ComboQueryState) : Counter * ComboQueryState * bool :=
  if bool_decide (winner s = Pending) then
    let '(c, p) := permit_release c (permit s) in (c, mkQueryState Query p, true)
  else if bool_decide (winner s = Timeout) then
    let '(c, p) := permit_release c (permit s) in (c, mkQueryState (winner s) p, false)
  else (c, s, false).

Definition claim_timeout (s : ComboQueryState) : ComboQueryState * bool :=
  if negb (bool_decide (winner s = Pending)) then (s, false) else (mkQueryState Timeout (permit s), true).

(** A request: before and in [try_acquire], refused, or with a query and a timer
    under way and the messages sent to its channel ([true] for a timeout). *)
Inductive combo_pc :=
| QStart
| QLoop (current : Z)
| QRefused
| QWaiting (state : ComboQueryState) (query_runs timer_runs : bool) (channel : list bool).

(** The next step: an exchange that may fail, the completion of the query, or of
    the timer (fired or cancelled). *)
Inductive combo_event := EvRun (spurious : bool) | EvQueryDone | EvTimer (cancelled : bool).

(** [try_acquire], and the start of the query and of the timer. *)
Definition acquire_step (spurious : bool) (c : Counter) (current : Z) : Counter * combo_pc :=
  if current <? max_in_flight c then
    if (in_flight c =? current) && negb spurious
    then (mkCounter (max_in_flight c) (wrap64 (current + 1)), QWaiting (mkQueryState Pending true) true true [])
    else (c, QLoop (in_flight c))
  else (c, QRefused).

(** The completion handler of the query. *)
Definition query_done (c : Counter) (s : ComboQueryState) (timer : bool) (ch : list bool) : Counter * combo_pc :=
  let '(c, s, claimed) := claim_query c s in
  (c, QWaiting s false timer (if claimed then ch ++ [false] else ch)).

(** The wait of the timer ends. *)
Definition send_combo_deadline (cancelled : bool) (s : ComboQueryState) (query : bool) (ch : list bool) : combo_pc :=
  if cancelled then QWaiting s query false ch
  else let '(s, claimed) := claim_timeout s in QWaiting s query false (if claimed then ch ++ [true] else ch).

Definition combo_step (ev : combo_event) (c : Counter) (p : combo_pc) : option (Counter * combo_pc) :=
  match p, ev with
  | QStart, EvRun _ => Some (c, QLoop (in_flight c))
  | QLoop current, EvRun spurious => Some (acquire_step spurious c current)
  | QWaiting s true timer ch, EvQueryDone => Some (query_done c s timer ch)
  | QWaiting s query true ch, EvTimer cancelled => Some (c, send_combo_deadline cancelled s query ch)
  | _, _ => None
  end.

Definition holds_permit (p : combo_pc) : bool := match p with QWaiting s _ _ _ => permit s | _ => false end.

(** The permit is held exactly while the query runs, the winner is the one whose
    message was sent, and there is one message as soon as one side has claimed. *)
Definition request_ok (p : combo_pc) : Prop :=
  match p with
  | QWaiting s query timer ch =>
      permit s = query ∧
      ch = match winner s with Pending => [] | Query => [false] | Timeout => [true] end ∧
      (query = false → winner s ≠ Pending) ∧ (winner s = Query → query = false)
  | _ => True
  end.

#[export] Instance combo_machine : LeaseMachine Counter combo_pc := {
  lm_phase := λ _, Running;
  lm_active := in_flight;
  lm_step := λ c p c' p', ∃ ev, combo_step ev c p = Some (c', p');
  lm_env := λ c c', c' = c;
  lm_token := λ p, Z.b2z (holds_permit p);
  lm_lease := holds_permit;
  lm_ok := request_ok
}.

Lemma combo_step_counts ev c p c' p' : combo_step ev c p = Some (c', p') → request_ok p →
  0 ≤ in_flight c < SIZE_MAX → Z.b2z (holds_permit p) ≤ in_flight c →
  request_ok p' ∧ in_flight c' - in_flight c = Z.b2z (holds_permit p') - Z.b2z (holds_permit p).
Proof.
  intros Hs Hok Ha Ht. destruct p as [|cur| |[w pm] [] [] ch]; destruct ev as [sp| |[]]; cbn in Hs; try done.
  { simplify_eq/=. split; [done|lia]. }
  { unfold acquire_step in Hs. repeat case_if; simplify_eq/=; try (split; [done|lia]). bool_prop. subst.
    rewrite wrap64_small by lia. split; [|cbn; lia]. by split_and!. }
  all: destruct Hok as (Hpm & Hch & Hq & Hw); cbn in Hpm, Hch, Hq, Hw, Ht; subst pm;
    unfold query_done, send_combo_deadline in Hs; destruct w; cbn in Hs; simplify_eq/=;
    unfold fetch_sub1; rewrite ?wrap64_small by lia;
    try (by exfalso; auto); (split; [split_and!; naive_solver|lia]).
Qed.

#[export] Instance combo_laws : LeaseLaws Counter combo_pc.
Proof.
  split; cbn; try done.
  - intros p. by destruct (holds_permit p).
  - intros p. by destruct (holds_permit p).
  - by intros p ->.
  - intros c p c' p' [ev Hs]. by apply (combo_step_counts ev).
  - by intros c c' ->.
Qed.

Lemma combo_step_max ev c p c' p' : combo_step ev c p = Some (c', p') → in_flight c ≤ max_in_flight c → 
  0 ≤ in_flight c < SIZE_MAX → Z.b2z (holds_permit p) ≤ in_flight c →
  max_in_flight c' = max_in_flight c ∧ in_flight c' ≤ max_in_flight c'.
Proof.
  intros Hs Hle Ha Ht. destruct p as [|cur| |[w pm] [] [] ch]; destruct ev as [sp| |[]]; cbn in Hs; try done.
  { by simplify_eq/=. }
  { unfold acquire_step in Hs. repeat case_if; simplify_eq/=; try done. bool_prop. subst. rewrite wrap64_small by lia. split; [done|lia]. }
  all: unfold query_done, send_combo_deadline in Hs; destruct w, pm; cbn in Hs, Ht; simplify_eq/=; unfold fetch_sub1; rewrite ?wrap64_small by lia; split; (done || lia).
Qed.

(** The queries in flight never exceed the limit, whatever the interleaving
    of admissions, completions and timers: the counter is the number of permits
    held, a permit is held exactly while its query runs (also after its request
    timed out) and is given back once, so the counter is zero when all queries
    have ended; and every request gets at most one message, and exactly one as
    soon as its query or its timer has claimed it. *)
Lemma combo_queries_bounded max n c ts :
  0 ≤ max < SIZE_MAX → Z.of_nat n < SIZE_MAX →
  rtc lease_step (new_limiter max, replicate n QStart) (c, ts) →
  in_flight c = total (λ p, Z.b2z (holds_permit p)) ts ∧ in_flight c ≤ max_in_flight c ∧
  max_in_flight c = (if max =? 0 then 1 else max) ∧
  Forall request_ok ts ∧
  ((∀ s query timer ch, QWaiting s query timer ch ∈ ts → query = false) → in_flight c = 0).
Proof.
  intros Hmax Hn Hr.
  destruct (counted_invariant (λ c, in_flight c ≤ max_in_flight c ∧ max_in_flight c = (if max =? 0 then 1 else max))
    (new_limiter max, replicate n QStart) (c, ts)) as ((_ & Ht & Hok) & Hle & Hm); [| |by apply counted_start| |done|].
  { intros g p g' p' [ev Hs] _ Ha Hone [Hle Hm]. destruct (combo_step_max _ _ _ _ _ Hs Hle Ha Hone). split; congruence. }
  { by intros g g' ->. }
  { cbn. destruct (max =? 0) eqn:E; bool_prop; split; (done || lia). }
  cbn in Ht, Hok. split_and!; [done..|]. intros Hdone. rewrite Ht. apply total_zero. intros p Hp.
  destruct p as [| | |s q t ch]; try done. cbn. rewrite Forall_forall in Hok. destruct (Hok _ Hp) as (Hpq & _).
  by rewrite Hpq, (Hdone _ _ _ _ Hp).
Qed.

Lemma combo_queries_bounded_witness :
  let ts := [QWaiting (mkQueryState Timeout true) true false [true]] in
  1 = total (λ p, Z.b2z (holds_permit p)) ts ∧ 1 ≤ max_in_flight (mkCounter 1 1).
Proof.
  intros ts. destruct (combo_queries_bounded 0 1 (mkCounter 1 1) ts) as (H1 & H2 & _); [by vm_compute..| |exact (conj H1 H2)].
  eapply rtc_l; [apply (thread_step _ [QStart] 0 QStart (new_limiter 0) (QLoop 0)); [done|by exists (EvRun false)]|].
  eapply rtc_l; [apply (thread_step _ _ 0 (QLoop 0) (mkCounter 1 1) (QWaiting (mkQueryState Pending true) true true []));
    [done|by exists (EvRun false)]|].
  eapply rtc_once. apply (thread_step (mkCounter 1 1) [QWaiting (mkQueryState Pending true) true true []] 0
    (QWaiting (mkQueryState Pending true) true true []) (mkCounter 1 1)
    (QWaiting (mkQueryState Timeout true) true false [true])); [done|].
  by exists (EvTimer false).
Defined.
