(* ===== verification/AppConfig.v ===== *)
(** * Application configuration and process limits
      (src/src/app/app_config.hpp, src/src/common/process_fd_budget.hpp)

    The typed configuration the gateway starts from: every section with its
    defaults, clamps and rejections, the admin accounts, the limits of the
    configuration history, and the budget of file descriptors that is compared
    with the process limit.  The theorems show the ranges every accepted
    configuration satisfies, that the budget cannot overflow and is accepted
    exactly when it fits, and which accounts can log in. *)

From S2P Require Import Prelude Config HttpPool.

(** ** Records *)

Record AdminAccountConfig := mkAccount { acc_username : bytes; acc_password_hash : bytes }.

Record AdminConfig := mkAdmin {
  accounts : list AdminAccountConfig;
  jwt_private_key : bytes;
  jwt_public_key : bytes;
  token_ttl_min : Z;
  insecure_no_auth : bool
}.

Record ConfigHistoryConfig := mkHistory {
  read_mode : bytes;
  auto_migrate_legacy : bool;
  retention_versions : Z;
  retention_days : Z;
  warn_snapshot_bytes : Z;
  max_snapshot_bytes : Z;
  warn_file_bytes : Z;
  max_file_bytes : Z;
  warn_files : Z;
  max_files : Z;
  max_reason_bytes : Z;
  history_page_size : Z;
  history_page_size_max : Z;
  max_diff_response_bytes : Z;
  gc_batch_size : Z;
  gc_interval_sec : Z;
  machine_ttl_sec : Z
}.

Record ConfigSyncConfig := mkSync {
  cs_enabled : bool;
  sync_interval_sec : Z;
  machine_name : bytes;
  first_pull : bytes;
  first_pull_timeout_ms : Z;
  cs_admin : AdminConfig;
  cs_history : ConfigHistoryConfig
}.

Inductive LogLevel := DEBUG | INFO | WARN | ERROR.

(** [MysqlPool::Config] *)
Record MysqlConfig := mkMysql {
  my_host : bytes; my_port : Z; my_user : bytes; my_pass : bytes; my_db : bytes;
  my_min_size : Z; my_max_size : Z; my_max_idle_sec : Z; my_connect_timeout_ms : Z; my_read_timeout_ms : Z;
  my_query_timeout_ms : Z; my_acquire_timeout_ms : Z; my_keepalive_sec : Z; my_worker_threads : Z; my_max_creating : Z
}.

Inductive RedisMode := Direct | Worker.

#[export] Instance RedisMode_eq_dec : EqDecision RedisMode.
Proof. solve_decision. Defined.

(** [RedisPool::Config] *)
Record RedisConfig := mkRedis {
  rd_host : bytes; rd_port : Z; rd_db : Z; rd_connect_timeout_ms : Z; rd_cmd_timeout_ms : Z; rd_mode : RedisMode;
  rd_min_size : Z; rd_max_size : Z; rd_max_idle_sec : Z; rd_worker_threads : Z; rd_max_creating : Z;
  rd_acquire_timeout_ms : Z
}.

Record AppConfig := mkApp {
  log_level : LogLevel;
  log_file : bytes;
  server_port : Z;
  io_threads : Z;
  max_client_connections : Z;
  fd_reserve : Z;
  downstream_write_timeout_ms : Z;
  client_header_read_timeout_ms : Z;
  client_body_read_timeout_ms : Z;
  combo_deadline_ms : Z;
  combo_max_in_flight_queries : Z;
  mysql : MysqlConfig;
  redis : RedisConfig;
  http_pool : PoolConfig;
  snapshot_interval_sec : Z;
  reload_interval_sec : Z;
  http_pool_stats_interval_sec : Z;
  config_sync : ConfigSyncConfig
}.

(** ** Admin accounts *)

(** The keys of [[admin]] that are options and not accounts. *)
Definition is_admin_option (key : bytes) : bool :=
  beqb key "jwt_private_key" || beqb key "jwt_public_key" || beqb key "token_ttl_min" || beqb key "insecure_no_auth".

Definition is_account_entry (kv : bytes * bytes) : bool :=
  negb (is_admin_option kv.1) && negb (beqb kv.1 [] || beqb kv.2 []) && starts_with "pbkdf2_sha256$" kv.2.

(** The first account of that name gets the hash, or a new one is appended. *)
Fixpoint set_account (accs : list AdminAccountConfig) (name hash : bytes) : list AdminAccountConfig :=
  match accs with
  | [] => [mkAccount name hash]
  | a :: rest => if beqb (acc_username a) name then mkAccount (acc_username a) hash :: rest else a :: set_account rest name hash
  end.

Definition account_step (accs : list AdminAccountConfig) (kv : bytes * bytes) : list AdminAccountConfig :=
  if is_account_entry kv then set_account accs kv.1 kv.2 else accs.

Definition admin_config_from (cfg : Config) : outcome AdminConfig :=
  ttl ← get_int cfg "admin" "token_ttl_min" 120;
  insecure ← get_bool cfg "admin" "insecure_no_auth" false;
  Ret (mkAdmin (foldl account_step [] (get_section cfg "admin"))
    (get cfg "admin" "jwt_private_key" "") (get cfg "admin" "jwt_public_key" "") (Z.max 1 ttl) insecure).

(** ** Configuration history *)

(** [std::clamp(v, lo, hi)] for [lo <= hi]. *)
Definition clamp (v lo hi : Z) : Z := if v <? lo then lo else if hi <? v then hi else v.

Definition clamped (cfg : Config) (key : bytes) (def lo hi : Z) : outcome Z :=
  v ← get_int cfg "config_history" key def; Ret (clamp v lo hi).

Definition at_least (cfg : Config) (section key : bytes) (def lo : Z) : outcome Z :=
  v ← get_int cfg section key def; Ret (Z.max lo v).

Definition history_read_mode (cfg : Config) : bytes :=
  let mode := tolower <$> get cfg "config_history" "read_mode" "required" in
  if negb (beqb mode "compat") && negb (beqb mode "required") then "required" else mode.

Definition config_history_from (cfg : Config) : outcome ConfigHistoryConfig :=
  auto_migrate_legacy ← get_bool cfg "config_history" "auto_migrate_legacy" true;
  retention_versions ← at_least cfg "config_history" "retention_versions" 100 1;
  retention_days ← at_least cfg "config_history" "retention_days" 90 1;
  warn_snapshot_bytes ← clamped cfg "warn_snapshot_bytes" (256 * 1024) 1 (512 * 1024);
  max_snapshot_bytes ← clamped cfg "max_snapshot_bytes" (512 * 1024) 1 (512 * 1024);
  warn_file_bytes ← clamped cfg "warn_file_bytes" (64 * 1024) 1 (128 * 1024);
  max_file_bytes ← clamped cfg "max_file_bytes" (128 * 1024) 1 (128 * 1024);
  warn_files ← clamped cfg "warn_files" 80 1 100;
  max_files ← clamped cfg "max_files" 100 1 100;
  max_reason_bytes ← clamped cfg "max_reason_bytes" 512 1 512;
  history_page_size ← clamped cfg "history_page_size" 20 1 50;
  history_page_size_max ← clamped cfg "history_page_size_max" 50 1 50;
  max_diff_response_bytes ← clamped cfg "max_diff_response_bytes" (2 * 1024 * 1024) 1 (2 * 1024 * 1024);
  gc_batch_size ← clamped cfg "gc_batch_size" 20 1 20;
  gc_interval_sec ← at_least cfg "config_history" "gc_interval_sec" 300 10;
  machine_ttl_sec ← at_least cfg "config_history" "machine_ttl_sec" 3600 60;
  let max_snapshot_bytes := Z.max max_snapshot_bytes max_file_bytes in
  Ret (mkHistory (history_read_mode cfg) auto_migrate_legacy retention_versions retention_days
    (Z.min warn_snapshot_bytes max_snapshot_bytes) max_snapshot_bytes
    (Z.min warn_file_bytes max_file_bytes) max_file_bytes
    warn_files (Z.max max_files warn_files) max_reason_bytes
    (Z.min history_page_size history_page_size_max) history_page_size_max
    max_diff_response_bytes gc_batch_size gc_interval_sec machine_ttl_sec).

(** ** Pools *)

Definition http_pool_config_from (cfg : Config) : outcome PoolConfig :=
  max_size ← at_least cfg "http_pool" "max_size" 256 1;
  max_concurrent ← at_least cfg "http_pool" "max_concurrent" 0 0;
  max_total_connections ← at_least cfg "http_pool" "max_total_connections" 4096 1;
  max_body_size ← at_least cfg "http_pool" "max_body_size" (10 * 1024 * 1024) 1;
  connect_timeout_ms ← get_int cfg "http_pool" "connect_timeout_ms" 1000;
  read_timeout_ms ← get_int cfg "http_pool" "read_timeout_ms" 30000;
  request_timeout_ms ← get_int cfg "http_pool" "request_timeout_ms" 60000;
  idle_timeout_sec ← get_int cfg "http_pool" "idle_timeout_sec" 60;
  send_keep_alive_header ← get_bool cfg "http_pool" "send_keep_alive_header" false;
  Ret (mkPoolConfig max_size max_concurrent max_total_connections max_body_size connect_timeout_ms
    read_timeout_ms request_timeout_ms idle_timeout_sec send_keep_alive_header).

Definition mysql_config_from (cfg : Config) : outcome MysqlConfig :=
  port ← get_int cfg "mysql" "port" 3306;
  min_size ← at_least cfg "mysql" "min_size" 8 0;
  max_size ← at_least cfg "mysql" "max_size" 64 1;
  max_idle_sec ← get_int cfg "mysql" "max_idle_sec" 60;
  connect_timeout_ms ← get_int cfg "mysql" "connect_timeout_ms" 1000;
  read_timeout_ms ← get_int cfg "mysql" "read_timeout_ms" 500;
  query_timeout_ms ← get_int cfg "mysql" "query_timeout_ms" 0;
  acquire_timeout_ms ← get_int cfg "mysql" "acquire_timeout_ms" 3000;
  keepalive_sec ← get_int cfg "mysql" "keepalive_sec" 30;
  worker_threads ← at_least cfg "mysql" "worker_threads" 32 1;
  max_creating ← at_least cfg "mysql" "max_creating" 0 0;
  Ret (mkMysql (get cfg "mysql" "host" "127.0.0.1") port (get cfg "mysql" "user" "root") (get cfg "mysql" "pass" "")
    (get cfg "mysql" "db" "test") min_size max_size max_idle_sec connect_timeout_ms read_timeout_ms query_timeout_ms
    acquire_timeout_ms keepalive_sec worker_threads max_creating).

Definition redis_mode (cfg : Config) : RedisMode :=
  let mode := get cfg "redis" "mode" "direct" in
  if beqb mode "worker" || beqb mode "WORKER" then Worker else Direct.

Definition redis_config_from (cfg : Config) : outcome RedisConfig :=
  port ← get_int cfg "redis" "port" 6379;
  db ← get_int cfg "redis" "db" 0;
  connect_timeout_ms ← get_int cfg "redis" "connect_timeout_ms" 1000;
  cmd_timeout_ms ← get_int cfg "redis" "cmd_timeout_ms" 1000;
  min_size ← at_least cfg "redis" "min_size" 4 0;
  max_size ← at_least cfg "redis" "max_size" 32 1;
  max_idle_sec ← get_int cfg "redis" "max_idle_sec" 120;
  worker_threads ← at_least cfg "redis" "worker_threads" 16 1;
  max_creating ← at_least cfg "redis" "max_creating" 0 0;
  acquire_timeout_ms ← get_int cfg "redis" "acquire_timeout_ms" 3000;
  Ret (mkRedis (get cfg "redis" "host" "127.0.0.1") port db connect_timeout_ms cmd_timeout_ms (redis_mode cfg)
    min_size max_size max_idle_sec worker_threads max_creating acquire_timeout_ms).

(** ** The application *)

Definition log_level_from (level : bytes) : LogLevel :=
  if beqb level "DEBUG" then DEBUG else if beqb level "WARN" then WARN else if beqb level "ERROR" then ERROR else INFO.

Definition sync_config_from (cfg : Config) : outcome ConfigSyncConfig :=
  enabled ← get_bool cfg "config_sync" "enabled" false;
  interval ← get_int cfg "config_sync" "sync_interval_sec" 5;
  pull_timeout ← get_int cfg "config_sync" "first_pull_timeout_ms" 3000;
  admin ← admin_config_from cfg;
  history ← config_history_from cfg;
  Ret (mkSync enabled interval (get cfg "config_sync" "machine_name" "") (get cfg "config_sync" "first_pull" "async")
    pull_timeout admin history).

Definition app_config_from (cfg : Config) : outcome AppConfig :=
  port ← get_int cfg "server" "port" 8080;
  if (port <? 1) || (65535 <? port) then Throw "server.port out of range [1,65535]"
  else
    io ← get_int cfg "server" "io_threads" 0;
    clients ← at_least cfg "server" "max_client_connections" 8192 1;
    reserve ← get_int cfg "server" "fd_reserve" 256;
    if reserve <? 32 then Throw "server.fd_reserve must be at least 32"
    else
      write_ms ← get_int cfg "server" "downstream_write_timeout_ms" 30000;
      header_ms ← get_int cfg "server" "client_header_read_timeout_ms" 10000;
      body_ms ← get_int cfg "server" "client_body_read_timeout_ms" 30000;
      combo_ms ← at_least cfg "server" "combo_deadline_ms" 500 1;
      combo_max ← at_least cfg "server" "combo_max_in_flight_queries" 8 1;
      my ← mysql_config_from cfg;
      rd ← redis_config_from cfg;
      pool ← http_pool_config_from cfg;
      snapshot_sec ← get_int cfg "rate_limit" "snapshot_interval_sec" 30;
      reload_sec ← get_int cfg "security" "config_reload_interval_sec" 30;
      stats_sec ← get_int cfg "http_pool" "stats_interval_sec" 30;
      sync ← sync_config_from cfg;
      Ret (mkApp (log_level_from (get cfg "server" "log_level" "INFO")) (get cfg "server" "log_file" "server.log") port
        (clamp io 0 256) clients reserve write_ms header_ms body_ms combo_ms combo_max my rd pool
        snapshot_sec reload_sec stats_sec sync).

(** ** File descriptors *)

Record ProcessFdBudget := mkBudget {
  client_connections : Z;
  upstream_connections : Z;
  mysql_connections : Z;
  redis_connections : Z;
  reserve : Z
}.

Definition budget_parts (b : ProcessFdBudget) : list Z :=
  [client_connections b; upstream_connections b; mysql_connections b; redis_connections b; reserve b].

Fixpoint add_parts (result : Z) (parts : list Z) : outcome Z :=
  match parts with
  | [] => Ret result
  | value :: parts =>
      if SIZE_MAX - result <? value then Throw "process FD budget overflow" else add_parts (result + value) parts
  end.

Definition budget_total (b : ProcessFdBudget) : outcome Z := add_parts 0 (budget_parts b).

Definition describe (b : ProcessFdBudget) : bytes :=
  "clients=" ++ to_string (client_connections b) ++ ", upstreams=" ++ to_string (upstream_connections b) ++
  ", mysql=" ++ to_string (mysql_connections b) ++ ", redis=" ++ to_string (redis_connections b) ++
  ", reserve=" ++ to_string (reserve b).

(** [soft_limit] is the result of [process_soft_fd_limit]. *)
Definition validate_process_fd_budget (b : ProcessFdBudget) (soft_limit : option Z) : outcome unit :=
  required ← budget_total b;
  match soft_limit with
  | None => Ret ()
  | Some limit =>
      if required <=? limit then Ret ()
      else Throw ("process FD budget exceeds RLIMIT_NOFILE: required=" ++ to_string required ++ ", soft_limit=" ++
                  to_string limit ++ " (" ++ describe b ++ ")")
  end.

Definition process_fd_budget_from (app : AppConfig) (effective_io_threads : Z) : ProcessFdBudget :=
  mkBudget (max_client_connections app) (max_total_connections (http_pool app)) (my_max_size (mysql app))
    (if bool_decide (rd_mode (redis app) = Worker) then rd_max_size (redis app) else effective_io_threads)
    (fd_reserve app).

(** ** Ranges *)

Lemma from_chars_int_range s v n : from_chars_int s = Some (v, n) → INT_MIN ≤ v ≤ INT_MAX.
Proof.
  unfold from_chars_int. destruct (match s with [] => _ | _ => _ end) as [neg t]. destruct (scan_digits 0 0 t) as [u k].
  case_bool_decide; [done|]. destruct (_ || _) eqn:E; [done|]. intros [= <- _]. bool_prop. lia.
Qed.

Lemma get_int_range cfg section key def v : INT_MIN ≤ def ≤ INT_MAX → get_int cfg section key def = Ret v →
  INT_MIN ≤ v ≤ INT_MAX.
Proof.
  intros Hd. unfold get_int. destruct (data_ cfg !! _) as [t|]; [|by intros [= <-]].
  destruct (from_chars_int t) as [[w n]|] eqn:E; [|done]. destruct (_ || _); [done|]. intros [= <-].
  by eapply from_chars_int_range.
Qed.

Lemma at_least_range cfg section key def lo v : INT_MIN ≤ def ≤ INT_MAX → lo ≤ INT_MAX →
  at_least cfg section key def lo = Ret v → lo ≤ v ≤ INT_MAX.
Proof.
  intros Hd Hlo. unfold at_least. rewrite bind_Ret_inv. intros (w & Hw & [= <-]).
  apply get_int_range in Hw; [|done]. lia.
Qed.

Lemma clamp_range v lo hi : lo ≤ hi → lo ≤ clamp v lo hi ≤ hi.
Proof. unfold clamp. repeat case_if; bool_prop; lia. Qed.

Lemma clamped_range cfg key def lo hi v : lo ≤ hi → clamped cfg key def lo hi = Ret v → lo ≤ v ≤ hi.
Proof. intros Hl. unfold clamped. rewrite bind_Ret_inv. intros (w & _ & [= <-]). by apply clamp_range. Qed.

(** Open a chain of configuration reads, with the range each of them guarantees. *)
Ltac read_ranges :=
  repeat match goal with
  | H : (_ ≫= _) = Ret _ |- _ =>
      let v := fresh "v" in let E := fresh "E" in
      apply bind_Ret_inv in H as (v & E & H);
      first [ apply at_least_range in E; [|by vm_compute..]
            | apply clamped_range in E; [|by vm_compute..]
            | apply get_int_range in E; [|by vm_compute..]
            | idtac ]
  | H : (if ?b then Throw _ else _) = Ret _ |- _ => let E := fresh "E" in destruct b eqn:E; [done|]
  | H : Ret _ = Ret _ |- _ => injection H as <-
  end.

Record history_ok (h : ConfigHistoryConfig) : Prop := {
  ho_mode : read_mode h = "compat" ∨ read_mode h = "required";
  ho_retention : 1 ≤ retention_versions h ∧ 1 ≤ retention_days h;
  ho_snapshot : 1 ≤ warn_snapshot_bytes h ≤ max_snapshot_bytes h ∧ max_snapshot_bytes h ≤ 512 * 1024;
  ho_file : 1 ≤ warn_file_bytes h ≤ max_file_bytes h ∧ max_file_bytes h ≤ 128 * 1024 ∧ max_file_bytes h ≤ max_snapshot_bytes h;
  ho_files : 1 ≤ warn_files h ≤ max_files h ∧ max_files h ≤ 100;
  ho_reason : 1 ≤ max_reason_bytes h ≤ 512;
  ho_page : 1 ≤ history_page_size h ≤ history_page_size_max h ∧ history_page_size_max h ≤ 50;
  ho_diff : 1 ≤ max_diff_response_bytes h ≤ 2 * 1024 * 1024;
  ho_gc : 1 ≤ gc_batch_size h ≤ 20 ∧ 10 ≤ gc_interval_sec h ∧ 60 ≤ machine_ttl_sec h
}.

Lemma config_history_ok cfg h : config_history_from cfg = Ret h → history_ok h.
Proof.
  unfold config_history_from. intros H. read_ranges. split; cbn [read_mode retention_versions retention_days
    warn_snapshot_bytes max_snapshot_bytes warn_file_bytes max_file_bytes warn_files max_files max_reason_bytes
    history_page_size history_page_size_max max_diff_response_bytes gc_batch_size gc_interval_sec machine_ttl_sec]; try lia.
  unfold history_read_mode. destruct (negb _ && _) eqn:Em; [by right|].
  apply andb_false_iff in Em as [Em|Em]; apply negb_false_iff, beqb_eq in Em; rewrite Em; auto.
Qed.

Record pool_ok (p : PoolConfig) : Prop := {
  po_size : 1 ≤ max_size p ≤ INT_MAX;
  po_concurrent : 0 ≤ max_concurrent p ≤ INT_MAX;
  po_total : 1 ≤ max_total_connections p ≤ INT_MAX;
  po_body : 1 ≤ max_body_size p ≤ INT_MAX
}.

Lemma http_pool_config_ok cfg p : http_pool_config_from cfg = Ret p → pool_ok p.
Proof. unfold http_pool_config_from. intros H. read_ranges. split; cbn; lia. Qed.

Record app_ok (a : AppConfig) : Prop := {
  ao_port : 1 ≤ server_port a ≤ 65535;
  ao_threads : 0 ≤ io_threads a ≤ 256;
  ao_clients : 1 ≤ max_client_connections a ≤ INT_MAX;
  ao_reserve : 32 ≤ fd_reserve a ≤ INT_MAX;
  ao_combo : 1 ≤ combo_deadline_ms a ∧ 1 ≤ combo_max_in_flight_queries a ≤ INT_MAX;
  ao_mysql : 0 ≤ my_min_size (mysql a) ∧ 1 ≤ my_max_size (mysql a) ≤ INT_MAX ∧ 1 ≤ my_worker_threads (mysql a);
  ao_redis : 0 ≤ rd_min_size (redis a) ∧ 1 ≤ rd_max_size (redis a) ≤ INT_MAX ∧ 1 ≤ rd_worker_threads (redis a);
  ao_pool : pool_ok (http_pool a);
  ao_token : 1 ≤ token_ttl_min (cs_admin (config_sync a));
  ao_history : history_ok (cs_history (config_sync a))
}.

Lemma app_config_ok cfg app : app_config_from cfg = Ret app → app_ok app.
Proof.
  unfold app_config_from. intros H.
  repeat match goal with
  | H : (mysql_config_from _) = Ret _ |- _ => unfold mysql_config_from in H
  | H : (redis_config_from _) = Ret _ |- _ => unfold redis_config_from in H
  | H : (sync_config_from _) = Ret _ |- _ => unfold sync_config_from, admin_config_from in H
  | H : (http_pool_config_from _) = Ret _ |- _ => apply http_pool_config_ok in H
  | H : (config_history_from _) = Ret _ |- _ => apply config_history_ok in H
  | _ => progress read_ranges
  end.
  bool_prop. split; cbn [server_port io_threads max_client_connections fd_reserve combo_deadline_ms combo_max_in_flight_queries
    mysql redis http_pool config_sync cs_admin cs_history token_ttl_min my_min_size my_max_size my_worker_threads
    rd_min_size rd_max_size rd_worker_threads]; try done; try lia.
  apply clamp_range; lia.
Qed.

(** Every configuration the gateway starts from is within its ranges: the
    port is a port, all pool sizes and limits are positive and fit an [int], the
    reserve is at least 32, and the limits of the configuration history are
    consistent (warnings below maxima, a file fits a snapshot, pages within their
    maximum). *)
Lemma app_config_ranges cfg app : app_config_from cfg = Ret app → app_ok app.
Proof. apply app_config_ok. Qed.

Lemma app_config_ranges_witness : ∃ app, app_config_from empty_config = Ret app ∧ app_ok app.
Proof.
  destruct (app_config_from empty_config) as [app|e] eqn:E; [|by vm_compute in E].
  exists app. split; [done|]. by apply (app_config_ranges empty_config).
Defined.

Lemma add_parts_small parts r : 0 ≤ r → Forall (λ v, 0 ≤ v) parts → r + foldr Z.add 0 parts ≤ SIZE_MAX →
  add_parts r parts = Ret (r + foldr Z.add 0 parts).
Proof.
  revert r. induction parts as [|v parts IH]; intros r Hr Hp Hs; cbn in *; [by rewrite Z.add_0_r|].
  apply Forall_cons in Hp as [Hv Hp].
  assert (0 ≤ foldr Z.add 0 parts) by (clear -Hp; induction Hp; cbn; lia).
  replace (SIZE_MAX - r <? v) with false by lia. rewrite IH by (done || lia). f_equal. lia.
Qed.

(** C40: The file descriptor budget of a loaded configuration never overflows, is
    the sum of the connections the configuration allows, and is accepted exactly
    when it fits the soft limit of the process. *)
Theorem fd_budget_exact cfg app io limit :
  app_config_from cfg = Ret app → 0 ≤ io ≤ INT_MAX →
  let b := process_fd_budget_from app io in
  let required := max_client_connections app + max_total_connections (http_pool app) + my_max_size (mysql app) +
    (if bool_decide (rd_mode (redis app) = Worker) then rd_max_size (redis app) else io) + fd_reserve app in
  budget_total b = Ret required ∧
  (validate_process_fd_budget b limit = Ret () ↔ ∀ l, limit = Some l → required ≤ l).
Proof.
  intros Happ Hio b required. apply app_config_ok in Happ as [_ _ Hc Hr _ Hm Hrd [_ _ Hp _] _ _].
  assert (budget_total b = Ret required) as Ht.
  { unfold budget_total. rewrite add_parts_small.
    - f_equal. unfold required, b. cbn. lia.
    - done.
    - unfold b, process_fd_budget_from, budget_parts. cbn. repeat constructor; try lia. case_bool_decide; lia.
    - unfold b, process_fd_budget_from, budget_parts. cbn. unfold INT_MAX, SIZE_MAX in *. case_bool_decide; lia. }
  split; [done|]. unfold validate_process_fd_budget. rewrite Ht. cbn [mbind outcome_bind].
  destruct limit as [l|]; [|naive_solver]. destruct (required <=? l) eqn:E; bool_prop.
  - split; [by intros _ ? [= <-]|done].
  - split; [done|]. intros Hl. specialize (Hl l eq_refl). lia.
Qed.

Lemma fd_budget_exact_witness :
  ∃ app, app_config_from empty_config = Ret app ∧
    (validate_process_fd_budget (process_fd_budget_from app 8) (Some 12616) = Ret () ↔ ∀ l, Some 12616 = Some l → 12616 ≤ l).
Proof.
  destruct (app_config_from empty_config) as [app|e] eqn:E; [|by vm_compute in E].
  exists app. split; [done|].
  destruct (fd_budget_exact empty_config app 8 (Some 12616) E) as [_ H]; [by vm_compute|].
  vm_compute in E. injection E as <-. exact H.
Defined.

(** ** Accounts *)

(** The last valid entry of a name. *)
Definition last_account (entries : list (bytes * bytes)) (name hash : bytes) : Prop :=
  ∃ before after, entries = before ++ (name, hash) :: after ∧ is_account_entry (name, hash) = true ∧
    Forall (λ kv, kv.1 = name → is_account_entry kv = false) after.

Lemma set_account_elem accs name hash a : NoDup (acc_username <$> accs) →
  a ∈ set_account accs name hash ↔ a = mkAccount name hash ∨ (acc_username a ≠ name ∧ a ∈ accs).
Proof.
  induction accs as [|b accs IH]; intros Hnd; cbn [set_account].
  - rewrite list_elem_of_singleton. set_solver.
  - apply NoDup_cons in Hnd as [Hb Hnd]. destruct (beqb (acc_username b) name) eqn:E.
    + apply beqb_eq in E. rewrite E, !elem_of_cons. split; [|naive_solver].
      intros [->|Hin]; [by left|right]. split; [|by right]. rewrite <- E. intros Heq. apply Hb. rewrite <- Heq.
      by apply list_elem_of_fmap_2.
    + apply beqb_ne in E. rewrite !elem_of_cons, (IH Hnd). naive_solver.
Qed.

Lemma set_account_nodup accs name hash : NoDup (acc_username <$> accs) → NoDup (acc_username <$> set_account accs name hash).
Proof.
  induction accs as [|b accs IH]; intros Hnd; cbn [set_account]; [apply NoDup_singleton|].
  apply NoDup_cons in Hnd as [Hb Hnd]. destruct (beqb (acc_username b) name) eqn:E; cbn [fmap list_fmap acc_username].
  - by constructor.
  - apply beqb_ne in E. constructor; [|by apply IH]. rewrite list_elem_of_fmap. intros (a & Ha & Hin).
    apply set_account_elem in Hin as [->|[_ Hin]]; [done| |done]. apply Hb. rewrite Ha. by apply list_elem_of_fmap_2.
Qed.

Lemma accounts_spec entries :
  NoDup (acc_username <$> foldl account_step [] entries) ∧
  ∀ name hash, mkAccount name hash ∈ foldl account_step [] entries ↔ last_account entries name hash.
Proof.
  induction entries as [|[k v] entries [Hnd Hel]] using rev_ind.
  - split; [constructor|]. intros name hash. split; [by intros ?%not_elem_of_nil|].
    intros (b & a & Heq & _). by destruct b.
  - rewrite foldl_snoc. unfold account_step at 1 3. destruct (is_account_entry (k, v)) eqn:E; cbn [fst snd].
    + split; [by apply set_account_nodup|]. intros name hash. rewrite (set_account_elem _ _ _ _ Hnd), Hel. split.
      * intros [[= -> ->]|(Hne & b & a & -> & Hv & Ha)].
        -- exists entries, []. by repeat split.
        -- exists b, (a ++ [(k, v)]). rewrite <- app_assoc. split; [done|]. split; [done|].
           apply Forall_app. split; [done|]. apply Forall_singleton. cbn. by intros ->.
      * intros (b & a & Heq & Hv & Ha). destruct a as [|y a _] using rev_ind.
        -- apply app_inj_tail in Heq as [-> [= -> ->]]. by left.
        -- rewrite app_comm_cons, app_assoc in Heq. apply app_inj_tail in Heq as [-> <-].
           apply Forall_app in Ha as [Ha Hlast]. apply Forall_inv in Hlast. cbn in Hlast.
           right. split; [cbn; intros Hk; specialize (Hlast (eq_sym Hk)); congruence|]. by exists b, a.
    + split; [done|]. intros name hash. rewrite Hel. split.
      * intros (b & a & -> & Hv & Ha). exists b, (a ++ [(k, v)]). rewrite <- app_assoc. split; [done|]. split; [done|].
        apply Forall_app. split; [done|]. by apply Forall_singleton.
      * intros (b & a & Heq & Hv & Ha). destruct a as [|y a _] using rev_ind.
        -- apply app_inj_tail in Heq as [-> [= -> ->]]. congruence.
        -- rewrite app_comm_cons, app_assoc in Heq. apply app_inj_tail in Heq as [-> <-].
           apply Forall_app in Ha as [Ha _]. by exists b, a.
Qed.

(** The admin accounts are exactly the entries of [[admin]] that are not
    options and carry a pbkdf2 hash: one account per name, with the hash of its
    last such entry. *)
Lemma admin_accounts_exact cfg admin :
  admin_config_from cfg = Ret admin →
  NoDup (acc_username <$> accounts admin) ∧
  ∀ name hash, mkAccount name hash ∈ accounts admin ↔ last_account (get_section cfg "admin") name hash.
Proof.
  unfold admin_config_from. rewrite bind_Ret_inv. intros (ttl & _ & H). apply bind_Ret_inv in H as (ins & _ & [= <-]).
  apply accounts_spec.
Qed.

Definition two_admins : Config :=
  mkConfig ∅ [("admin" : bytes, "bob" : bytes, "pbkdf2_sha256$1$a$b" : bytes); ("admin" : bytes, "eve" : bytes, "secret" : bytes);
              ("admin" : bytes, "bob" : bytes, "pbkdf2_sha256$1$c$d" : bytes)].

Lemma admin_accounts_exact_witness :
  mkAccount "bob" "pbkdf2_sha256$1$c$d" ∈ [mkAccount "bob" "pbkdf2_sha256$1$c$d"] ↔
  last_account (get_section two_admins "admin") "bob" "pbkdf2_sha256$1$c$d".
Proof.
  destruct (admin_accounts_exact two_admins (mkAdmin [mkAccount "bob" "pbkdf2_sha256$1$c$d"] [] [] 120 false)) as [_ H];
    [by vm_compute|]. apply H.
Defined.

(** A maximum below the number of files that warns is raised to that number: with
    the default warning at 80 files no lower maximum can be configured. *)
Lemma max_files_raised cfg h m : config_history_from cfg = Ret h →
  get_int cfg "config_history" "max_files" 100 = Ret m → data_ cfg !! qualified "config_history" "warn_files" = None →
  1 ≤ m ≤ 80 → max_files h = 80.
Proof.
  unfold config_history_from. intros H Hm Hw Hr.
  repeat (apply bind_Ret_inv in H as (? & ? & H)). injection H as <-. cbn [max_files].
  unfold clamped, get_int in *. rewrite Hw in *. cbn [mbind outcome_bind] in *. simplify_eq.
  rewrite Hm in *. simplify_eq/=. unfold clamp. repeat case_if; bool_prop; lia.
Qed.
