(* ===== verification/ReloadService.v ===== *)
(** * Hot reload (src/src/app/reload_service.hpp)

    A timer observes the fingerprint of config.d.  A change is loaded only when
    two ticks in a row saw the same fingerprint and it has not moved while the
    files were parsed; the new rules and the new route table are prepared from the
    same configuration, and both are published or neither.  The theorems show
    this for every sequence of ticks and that a change that settles is applied. *)

From S2P Require Import Prelude Doubles RateLimiter IpRules Config Jwt SecurityRules HttpPool Upstream AppConfig.

(** ** Fingerprints *)

Record ConfigFileFingerprint := mkFingerprint { ff_name : bytes; ff_size : Z; ff_mtime : Z }.

#[export] Instance ConfigFileFingerprint_eq_dec : EqDecision ConfigFileFingerprint.
Proof. solve_decision. Defined.

(** What the directory iterator shows of an entry; an error is [None]. *)
Record file_meta := mkMeta { fm_name : bytes; fm_regular : option bool; fm_size : option Z; fm_mtime : option Z }.

(** config.d: not a directory, not readable, or its entries, where advancing the
    iterator may throw after the last one. *)
Inductive config_dir := NotADirectory | CannotOpen | Listing (entries : list file_meta) (advance_throws : bool).

Fixpoint collect_fingerprints (es : list file_meta) : option (list ConfigFileFingerprint) :=
  match es with
  | [] => Some []
  | e :: rest =>
      if negb (bool_decide (fm_regular e = Some true) && beqb (extension (fm_name e)) ".ini")
      then collect_fingerprints rest
      else
        size ← fm_size e; mtime ← fm_mtime e;
        fps ← collect_fingerprints rest; Some (mkFingerprint (fm_name e) size mtime :: fps)
  end.

Section model.
Context `{Double, !DoubleText, StdSort, StdHash, AsioAddress, JwtCpp, KeyStore}.

Definition fingerprint_less (a b : ConfigFileFingerprint) : bool := str_ltb (ff_name a) (ff_name b).

(** An entry that cannot be inspected ends the scan before a throwing advance. *)
Definition read_config_fingerprint (dir : config_dir) : outcome (option (list ConfigFileFingerprint)) :=
  match dir with
  | NotADirectory => Ret None
  | CannotOpen => Ret (Some (std_sort fingerprint_less []))
  | Listing es advance_throws =>
      match collect_fingerprints es with
      | None => Ret None
      | Some fps => if advance_throws then Throw "directory_iterator" else Ret (Some (std_sort fingerprint_less fps))
      end
  end.

(** ** The service *)

Record ReloadState := mkReload {
  rs_last : option (list ConfigFileFingerprint);
  rs_pending : option (list ConfigFileFingerprint);
  rs_rules : SecurityRules;
  rs_upstreams : UpstreamManager
}.

(** What a tick finds on disk: before, while and after loading. *)
Record tick_input := mkTick {
  t_before : config_dir;
  t_load : option (list dir_entry) * bool;
  t_after : config_dir
}.

Context (pool_config_validator : PoolConfig → outcome unit).

(** Prepare everything, then publish the rules and the routes.  When a step
    throws, the staging of the rules may already have drawn a generation. *)
Definition apply_config (cfg : Config) (interval_sec : Z) (rules : SecurityRules) (ups : UpstreamManager) :
    SecurityRules * outcome (Z * SecurityRules * UpstreamManager) :=
  match get_int cfg "security" "config_reload_interval_sec" interval_sec with
  | Throw e => (rules, Throw e)
  | Ret next =>
      match SecurityRules.prepare_reload rules cfg with
      | Throw e => (rules, Throw e)
      | Ret (prepared_security, rules') =>
          (rules',
           pool_cfg ← http_pool_config_from cfg;
           _ ← pool_config_validator pool_cfg;
           '(prepared_upstreams, heap) ← Upstream.prepare_reload ups cfg pool_cfg;
           Ret (next, SecurityRules.publish_reload rules' prepared_security,
                Upstream.publish_reload ups prepared_upstreams heap))
      end
  end.

Definition unapplied (st : ReloadState) (c : list ConfigFileFingerprint) : bool :=
  match rs_last st with None => true | Some l => negb (bool_decide (c = l)) end.

Definition set_pending (st : ReloadState) (p : option (list ConfigFileFingerprint)) : ReloadState :=
  mkReload (rs_last st) p (rs_rules st) (rs_upstreams st).

(** The stable branch: the fingerprint [c] was seen on two ticks.  The flag says
    that the configuration was published. *)
Definition tick_stable (interval_sec : Z) (st : ReloadState) (inp : tick_input) (c : list ConfigFileFingerprint) :
    ReloadState * Z * bool :=
  if negb (unapplied st c) then (set_pending st None, interval_sec, false)
  else match load empty_config (t_load inp).1 (t_load inp).2 with
  | (false, _) => (set_pending st None, interval_sec, false)
  | (true, cfg) =>
      match read_config_fingerprint (t_after inp) with
      | Throw _ => (st, interval_sec, false)
      | Ret after =>
          if negb (bool_decide (after = Some c)) then (set_pending st None, interval_sec, false)
          else match apply_config cfg interval_sec (rs_rules st) (rs_upstreams st) with
          | (rules', Throw _) => (mkReload (rs_last st) (rs_pending st) rules' (rs_upstreams st), interval_sec, false)
          | (_, Ret (next, rules, ups)) => (mkReload (Some c) None rules ups, next, true)
          end
      end
  end.

Definition reload_tick (interval_sec : Z) (st : ReloadState) (inp : tick_input) : ReloadState * Z * bool :=
  match read_config_fingerprint (t_before inp) with
  | Throw _ => (st, interval_sec, false)
  | Ret current =>
      match rs_pending st, current with
      | Some p, Some c =>
          if bool_decide (p = c) then tick_stable interval_sec st inp c
          else if unapplied st c then (set_pending st (Some c), interval_sec, false)
          else (set_pending st None, interval_sec, false)
      | None, Some c =>
          if unapplied st c then (set_pending st (Some c), interval_sec, false)
          else (set_pending st None, interval_sec, false)
      | _, None => (set_pending st None, interval_sec, false)
      end
  end.

(** [start]: without a positive interval nothing is scheduled; otherwise the
    fingerprint at that moment counts as applied. *)
Definition start (rules : SecurityRules) (ups : UpstreamManager) (dir : config_dir) (interval_sec : Z) :
    outcome (option ReloadState) :=
  if interval_sec <=? 0 then Ret None
  else last ← read_config_fingerprint dir; Ret (Some (mkReload last None rules ups)).

(** The timer fires again only with a positive interval. *)
Definition rescheduled (running : bool) (next_sec : Z) : bool := running && (0 <? next_sec).

(** A sequence of ticks, the interval being what the last one returned. *)
Fixpoint run_ticks (interval_sec : Z) (st : ReloadState) (inps : list tick_input) : ReloadState * Z :=
  match inps with
  | [] => (st, interval_sec)
  | inp :: inps => let '(st', next, _) := reload_tick interval_sec st inp in run_ticks next st' inps
  end.

(** ** Every tick publishes all or nothing *)

(** What requests see of the two subsystems. *)
Definition same_published (a b : ReloadState) : Prop :=
  rules_snapshot (rs_rules a) = rules_snapshot (rs_rules b) ∧
  rules_generation (rs_rules a) = rules_generation (rs_rules b) ∧ rs_upstreams a = rs_upstreams b.

(** Rules and routes of [st'] come from one configuration. *)
Definition published_from (cfg : Config) (st st' : ReloadState) : Prop :=
  ∃ ps rules' pool_cfg pu heap,
    SecurityRules.prepare_reload (rs_rules st) cfg = Ret (ps, rules') ∧
    rs_rules st' = SecurityRules.publish_reload rules' ps ∧
    http_pool_config_from cfg = Ret pool_cfg ∧ pool_config_validator pool_cfg = Ret () ∧
    Upstream.prepare_reload (rs_upstreams st) cfg pool_cfg = Ret (pu, heap) ∧
    rs_upstreams st' = Upstream.publish_reload (rs_upstreams st) pu heap.

Lemma prepare_reload_keeps w cfg p w' : SecurityRules.prepare_reload w cfg = Ret (p, w') →
  rules_snapshot w' = rules_snapshot w ∧ rules_generation w' = rules_generation w.
Proof.
  unfold SecurityRules.prepare_reload. rewrite bind_Ret_inv. intros ([s rl] & _ & Hp). by simplify_eq/=.
Qed.

Lemma apply_config_spec cfg interval st rules' o :
  apply_config cfg interval (rs_rules st) (rs_upstreams st) = (rules', o) →
  rules_snapshot rules' = rules_snapshot (rs_rules st) ∧ rules_generation rules' = rules_generation (rs_rules st) ∧
  ∀ next rules ups l p, o = Ret (next, rules, ups) → published_from cfg st (mkReload l p rules ups).
Proof.
  unfold apply_config. destruct (get_int _ _ _ _) as [next|e]; [|intros ?; by simplify_eq/=].
  destruct (SecurityRules.prepare_reload _ _) as [[ps w']|e] eqn:Ep; [|intros ?; by simplify_eq/=]. intros [= <- <-].
  destruct (prepare_reload_keeps _ _ _ _ Ep) as [-> ->]. split; [done|]. split; [done|].
  intros nx rules ups l p Ho. apply bind_Ret_inv in Ho as (pool & Hpool & Ho). apply bind_Ret_inv in Ho as ([] & Hv & Ho).
  apply bind_Ret_inv in Ho as ([pu heap] & Hu & Ho). simplify_eq/=.
  unfold published_from. cbn. rewrite Ep. naive_solver.
Qed.

Lemma tick_cases interval st inp st' next published :
  reload_tick interval st inp = (st', next, published) →
  if published then
    ∃ c cfg, rs_pending st = Some c ∧ read_config_fingerprint (t_before inp) = Ret (Some c) ∧
      load empty_config (t_load inp).1 (t_load inp).2 = (true, cfg) ∧
      read_config_fingerprint (t_after inp) = Ret (Some c) ∧ rs_last st ≠ Some c ∧
      published_from cfg st st' ∧ rs_last st' = Some c ∧ rs_pending st' = None
  else
    same_published st st' ∧ rs_last st' = rs_last st ∧
    (∀ c, rs_pending st' = Some c → read_config_fingerprint (t_before inp) = Ret (Some c) ∨
       rs_pending st = Some c ∧ ∃ e, read_config_fingerprint (t_before inp) = Throw e).
Proof.
  unfold reload_tick. destruct (read_config_fingerprint (t_before inp)) as [cur|e] eqn:Eb.
  2:{ intros [= <- _ <-]. split; [done|]. split; [done|]. intros c Hc. right. eauto. }
  destruct (rs_pending st) as [p|] eqn:Ep, cur as [c|]; try case_bool_decide as Hpc; subst.
  2-5: try destruct (unapplied st _); intros [= <- _ <-]; (split; [done|]); (split; [done|]); cbn; intros d [= <-]; by left.
  unfold tick_stable. destruct (unapplied st c) eqn:Eu; cbn [negb].
  2:{ intros [= <- _ <-]. by split. }
  destruct (load _ _ _) as [[] cfg] eqn:El; [|intros [= <- _ <-]; by split].
  destruct (read_config_fingerprint (t_after inp)) as [after|e] eqn:Ea.
  2:{ intros [= <- _ <-]. split; [done|]. split; [done|]. intros d Hd. left. congruence. }
  case_bool_decide as Hac; cbn [negb]; [|intros [= <- _ <-]; by split].
  destruct (apply_config cfg interval (rs_rules st) (rs_upstreams st)) as [rules' o] eqn:Eap.
  destruct (apply_config_spec _ _ _ _ _ Eap) as (Hsn & Hgen & Hpub).
  destruct o as [[[nx rules] ups]|e]; intros [= <- _ <-].
  - exists c, cfg. split_and!; try done; [congruence| |by eapply Hpub].
    unfold unapplied in Eu. destruct (rs_last st); [|done]. intros [= ->]. by rewrite bool_decide_eq_true_2 in Eu.
  - split; [split_and!; cbn; congruence|]. split; [done|]. cbn. intros d Hd. left. congruence.
Qed.

(** A pending fingerprint was seen by the last tick that could read config.d. *)
Definition readable (inp : tick_input) : bool := is_ret (read_config_fingerprint (t_before inp)).

Lemma pending_observed interval st0 inps st next c :
  rs_pending st0 = None → run_ticks interval st0 inps = (st, next) → rs_pending st = Some c →
  ∃ before prev after, inps = before ++ prev :: after ∧ read_config_fingerprint (t_before prev) = Ret (Some c) ∧
    Forall (λ i, readable i = false) after.
Proof.
  intros Hnone. revert interval st0 Hnone st next c.
  induction inps as [|inp inps IH] using rev_ind; intros interval st0 Hnone st next c; [cbn; intros [= -> ->]; congruence|].
  assert (∀ inps interval st0, run_ticks interval st0 (inps ++ [inp]) =
    let '(s, n) := run_ticks interval st0 inps in let '(s', n', _) := reload_tick n s inp in (s', n')) as Hsnoc.
  { clear. induction inps as [|i inps IH]; intros interval st0; cbn [run_ticks app].
    - by destruct (reload_tick interval st0 inp) as [[s' n'] b].
    - destruct (reload_tick interval st0 i) as [[s' n'] b]. apply IH. }
  rewrite Hsnoc. destruct (run_ticks interval st0 inps) as [s n] eqn:Er.
  destruct (reload_tick n s inp) as [[s' n'] b] eqn:Et. intros [= <- <-] Hc. apply tick_cases in Et. destruct b.
  - destruct Et as (? & ? & _ & _ & _ & _ & _ & _ & _ & Hp). congruence.
  - destruct Et as (_ & _ & Hp). destruct (Hp c Hc) as [Hr|[Hps [e He]]].
    + exists inps, inp, []. by split_and!.
    + destruct (IH interval st0 Hnone s n c Er Hps) as (b' & prev & a' & -> & Hr & Ha).
      exists b', prev, (a' ++ [inp]). rewrite <- app_assoc. split_and!; [done..|].
      apply Forall_app. split; [done|]. apply Forall_singleton. unfold readable. by rewrite He.
Qed.

(** C35: A reload publishes only settled files, and all of them: in every sequence
    of ticks, whenever a tick publishes, an earlier tick saw the same fingerprint
    (and every tick in between failed to read the directory), the fingerprint was
    the same after parsing and differs from the one applied last, and the rules
    and the route table are both those of the configuration parsed; a tick that
    does not publish leaves what requests see unchanged. *)
Theorem reload_debounced interval st0 inps st next inp st' next' published :
  rs_pending st0 = None → run_ticks interval st0 inps = (st, next) →
  reload_tick next st inp = (st', next', published) →
  if published then
    ∃ c cfg before prev after, inps = before ++ prev :: after ∧
      read_config_fingerprint (t_before prev) = Ret (Some c) ∧ Forall (λ i, readable i = false) after ∧
      read_config_fingerprint (t_before inp) = Ret (Some c) ∧
      read_config_fingerprint (t_after inp) = Ret (Some c) ∧ rs_last st ≠ Some c ∧
      load empty_config (t_load inp).1 (t_load inp).2 = (true, cfg) ∧
      published_from cfg st st' ∧ rs_last st' = Some c
  else same_published st st' ∧ rs_last st' = rs_last st.
Proof.
  intros Hnone Hr Ht. apply tick_cases in Ht. destruct published.
  - destruct Ht as (c & cfg & Hp & Hb & Hl & Ha & Hne & Hpub & Hlast & _).
    destruct (pending_observed _ _ _ _ _ _ Hnone Hr Hp) as (b & prev & a & -> & Hprev & Hun).
    exists c, cfg, b, prev, a. by split_and!.
  - by destruct Ht as (? & ? & _).
Qed.

(** A change that settles is applied: if two ticks find the same new
    fingerprint on disk, the files parse and stay unchanged, and the
    configuration is acceptable, then the second tick publishes it; a tick whose
    configuration was rejected keeps the observation, so the next tick that finds
    an acceptable one publishes at once; and once applied, a further tick on the
    same files does nothing. *)
Lemma reload_converges interval st c cfg first second third rules' next rules ups :
  rs_last st ≠ Some c → rs_pending st ≠ Some c →
  read_config_fingerprint (t_before first) = Ret (Some c) →
  read_config_fingerprint (t_before second) = Ret (Some c) → read_config_fingerprint (t_after second) = Ret (Some c) →
  load empty_config (t_load second).1 (t_load second).2 = (true, cfg) →
  apply_config cfg interval (rs_rules st) (rs_upstreams st) = (rules', Ret (next, rules, ups)) →
  read_config_fingerprint (t_before third) = Ret (Some c) →
  ∃ st1 st2, reload_tick interval st first = (st1, interval, false) ∧
    reload_tick interval st1 second = (st2, next, true) ∧ st2 = mkReload (Some c) None rules ups ∧
    reload_tick next st2 third = (st2, next, false) ∧
    (∀ bad cfg' r e, apply_config cfg' interval (rs_rules st) (rs_upstreams st) = (r, Throw e) → t_before bad = t_before second →
       t_after bad = t_after second → load empty_config (t_load bad).1 (t_load bad).2 = (true, cfg') →
       rs_pending (reload_tick interval st1 bad).1.1 = Some c).
Proof.
  intros Hl Hp Hf1 Hf2 Ha Hld Happ Hf3.
  assert (unapplied st c = true) as Hu.
  { unfold unapplied. destruct (rs_last st) as [l|]; [|done]. by rewrite bool_decide_eq_false_2 by (intros <-; done). }
  exists (set_pending st (Some c)), (mkReload (Some c) None rules ups).
  assert (∀ inp, read_config_fingerprint (t_before inp) = Ret (Some c) →
    reload_tick interval (set_pending st (Some c)) inp = tick_stable interval (set_pending st (Some c)) inp c) as Hst.
  { intros inp Hi. unfold reload_tick. rewrite Hi. cbn [rs_pending set_pending]. by rewrite bool_decide_eq_true_2. }
  split_and!.
  - unfold reload_tick. rewrite Hf1. destruct (rs_pending st) as [p|]; [|by rewrite Hu].
    rewrite bool_decide_eq_false_2 by (intros ->; done). by rewrite Hu.
  - rewrite Hst by done. unfold tick_stable. change (unapplied (set_pending st (Some c)) c) with (unapplied st c).
    rewrite Hu, Hld, Ha, bool_decide_eq_true_2 by done. cbn [negb]. cbn [set_pending rs_rules rs_upstreams]. by rewrite Happ.
  - done.
  - unfold reload_tick. rewrite Hf3. cbn [rs_pending]. unfold unapplied. cbn. by rewrite bool_decide_eq_true_2.
  - intros bad cfg' r e Hap Hbb Hba Hbl. rewrite Hst by (by rewrite Hbb). unfold tick_stable.
    change (unapplied (set_pending st (Some c)) c) with (unapplied st c).
    rewrite Hu, Hbl, Hba, Ha, bool_decide_eq_true_2 by done. cbn [negb]. cbn [set_pending rs_rules rs_upstreams]. by rewrite Hap.
Qed.

(** Whatever configuration runs, [start] takes the files as applied: until they
    change again no tick publishes them. *)
Lemma start_takes_files_as_applied rules ups dir st c inp interval :
  start rules ups dir interval = Ret (Some st) → read_config_fingerprint dir = Ret (Some c) →
  read_config_fingerprint (t_before inp) = Ret (Some c) → reload_tick interval st inp = (st, interval, false).
Proof.
  unfold start. intros Hs Hd Hi. rewrite Hd in Hs. destruct (interval <=? 0); [done|]. cbn in Hs. injection Hs as <-.
  unfold reload_tick. rewrite Hi. cbn. unfold unapplied. cbn. by rewrite bool_decide_eq_true_2.
Qed.
End model.

(** ** A reload that runs *)

Module Sample.
#[local] Existing Instances binary64 sample_text insertion_sort DottedQuad.dotted sample_jwt sample_keys.

Definition ini : bytes := "[security]" ++ [LF] ++ "jwt_disabled = true" ++ [LF].
Definition files : option (list dir_entry) := Some [mkEntry "a.ini" (Some true) (Some ini)].
Definition on_disk : config_dir := Listing [mkMeta "a.ini" (Some true) (Some (slen ini)) (Some 7)] false.
Definition now : list ConfigFileFingerprint := [mkFingerprint "a.ini" (slen ini) 7].
Definition tick : tick_input := mkTick on_disk (files, true) on_disk.
Definition any_pool (p : PoolConfig) : outcome unit := Ret ().
Definition state0 : ReloadState := mkReload (Some []) None rules0 manager0.
Definition state1 : ReloadState := set_pending state0 (Some now).
End Sample.

Lemma reload_converges_witness :
  let tick_of := @reload_tick binary64 sample_text insertion_sort DottedQuad.dotted sample_jwt sample_keys Sample.any_pool in
  ∃ st1 st2 next, tick_of 30 Sample.state0 Sample.tick = (st1, 30, false) ∧ tick_of 30 st1 Sample.tick = (st2, next, true).
Proof.
  intros tick_of.
  destruct (@load insertion_sort empty_config Sample.files true) as [ok cfg] eqn:El.
  assert (ok = true) as -> by (change ok with (ok, cfg).1; rewrite <- El; by vm_compute).
  destruct (@apply_config binary64 sample_text insertion_sort DottedQuad.dotted sample_jwt sample_keys Sample.any_pool
    cfg 30 rules0 manager0) as [r [[[next rules] ups]|e]] eqn:Ea.
  - destruct (@reload_converges binary64 sample_text insertion_sort DottedQuad.dotted sample_jwt sample_keys Sample.any_pool
      30 Sample.state0 Sample.now cfg Sample.tick Sample.tick Sample.tick r next rules ups) as (st1 & st2 & Ht1 & Ht2 & _);
      [done|done|by vm_compute|by vm_compute|by vm_compute|exact El|exact Ea|by vm_compute|].
    by exists st1, st2, next.
  - exfalso. assert (cfg = (@load insertion_sort empty_config Sample.files true).2) as Hc by by rewrite El.
    assert (is_ret (@apply_config binary64 sample_text insertion_sort DottedQuad.dotted sample_jwt sample_keys
      Sample.any_pool (@load insertion_sort empty_config Sample.files true).2 30 rules0 manager0).2 = true) as Hr
      by (vm_compute; reflexivity).
    rewrite <- Hc, Ea in Hr. discriminate.
Defined.

Lemma reload_debounced_witness :
  let tick_of := @reload_tick binary64 sample_text insertion_sort DottedQuad.dotted sample_jwt sample_keys Sample.any_pool in
  let ticks_of := @run_ticks binary64 sample_text insertion_sort DottedQuad.dotted sample_jwt sample_keys Sample.any_pool in
  ∃ st next st' next', ticks_of 30 Sample.state0 [Sample.tick] = (st, next) ∧
    tick_of next st Sample.tick = (st', next', true) ∧ rs_last st' = Some Sample.now.
Proof.
  intros tick_of ticks_of. destruct (ticks_of 30 Sample.state0 [Sample.tick]) as [st next] eqn:Er.
  destruct (tick_of next st Sample.tick) as [[st' next'] published] eqn:Et.
  assert (published = true) as ->.
  { change published with (st', next', published).2. rewrite <- Et.
    change st with (st, next).1. change next with (st, next).2 at 1. rewrite <- Er. vm_compute. reflexivity. }
  exists st, next, st', next'. split; [done|]. split; [done|].
  destruct (@reload_debounced binary64 sample_text insertion_sort DottedQuad.dotted sample_jwt sample_keys Sample.any_pool
    30 Sample.state0 [Sample.tick] st next Sample.tick st' next' true eq_refl Er Et) as
    (c & cfg & before & prev & after & _ & _ & _ & Hb & _ & _ & _ & _ & Hl).
  rewrite Hl. assert (@read_config_fingerprint insertion_sort (t_before Sample.tick) = Ret (Some Sample.now)) as Hn by (vm_compute; reflexivity).
  rewrite Hb in Hn. by injection Hn as <-.
Defined.
