(* ===== verification/DbPool.v ===== *)
(** * What the two database pools share (src/src/db/mysql_pool.hpp, redis_pool.hpp)

    [MysqlPool] and [RedisPool] in worker mode keep the same state: idle
    connections in a deque, a count of all connections, a count of connections
    being opened, one mutex and one condition variable for the threads that wait
    for a connection and for the maintenance thread.  This file has that state,
    the way condition variables wake threads, the shutdown, and the accounting:
    an interface that says what one thread's step may change, and the invariant
    that follows for every interleaving.  [MysqlPool] and [RedisPool] discharge
    the interface. *)

From S2P Require Import Prelude.

(** ** State *)

(** A connection is the number under which it was opened. *)
Record IdleConn := mkIdle { ic_conn : nat; ic_last_used_at : Z }.

(** [db_closed] and [db_opened] record what the client library knows: the
    connections that were closed, and how many were opened. *)
Record DbPool := mkDb {
  db_running : bool;
  db_locked : bool;
  idle_pool : list IdleConn;
  db_total : Z;
  db_creating : Z;
  db_closed : list nat;
  db_opened : nat
}.

Definition db0 : DbPool := mkDb true false [] 0 0 [] 0.

Definition set_locked (b : bool) (g : DbPool) : DbPool :=
  mkDb (db_running g) b (idle_pool g) (db_total g) (db_creating g) (db_closed g) (db_opened g).
Definition set_idle (l : list IdleConn) (g : DbPool) : DbPool :=
  mkDb (db_running g) (db_locked g) l (db_total g) (db_creating g) (db_closed g) (db_opened g).
(** [size_t] arithmetic on the two counters. *)
Definition add_total (n : Z) (g : DbPool) : DbPool :=
  mkDb (db_running g) (db_locked g) (idle_pool g) (wrap64 (db_total g + n)) (db_creating g) (db_closed g) (db_opened g).
Definition add_creating (n : Z) (g : DbPool) : DbPool :=
  mkDb (db_running g) (db_locked g) (idle_pool g) (db_total g) (wrap64 (db_creating g + n)) (db_closed g) (db_opened g).
Definition close_conn (c : nat) (g : DbPool) : DbPool :=
  mkDb (db_running g) (db_locked g) (idle_pool g) (db_total g) (db_creating g) (c :: db_closed g) (db_opened g).
Definition open_conn (g : DbPool) : DbPool :=
  mkDb (db_running g) (db_locked g) (idle_pool g) (db_total g) (db_creating g) (db_closed g) (S (db_opened g)).

(** The number of idle connections, [idle_pool_.size()]. *)
Definition idle_size (g : DbPool) : Z := Z.of_nat (length (idle_pool g)).

(** [max_creating_limit_] *)
Definition compute_max_creating_limit (max_creating max_size worker_threads : Z) : Z :=
  if 0 <? max_creating then Z.max 1 (Z.min max_creating max_size)
  else Z.min 4 (Z.min (Z.max 1 (max_size `div` 8)) (Z.max 1 (worker_threads `div` 2))).

(** ** Condition variable *)

Inductive notify := Quiet | NotifyOne | NotifyAll.

Section notified.
Context {P : Type} (waiting : P → bool) (wake : P → P).

(** [notify_one] wakes some waiter, if there is one. *)
Inductive notified : notify → list P → list P → Prop :=
| notified_none ts : notified Quiet ts ts
| notified_all ts : notified NotifyAll ts (wake <$> ts)
| notified_one ts j p : ts !! j = Some p → waiting p = true → notified NotifyOne ts (<[j := wake p]> ts)
| notified_nobody ts : Forall (λ p, waiting p = false) ts → notified NotifyOne ts ts.
End notified.

(** ** The interface of a thread *)

(** Occurrences of a connection. *)
Fixpoint occ (x : nat) (l : list nat) : Z :=
  match l with [] => 0 | y :: l => Z.b2z (bool_decide (x = y)) + occ x l end.

Definition opened (x : nat) (g : DbPool) : Z := Z.b2z (bool_decide (x < db_opened g)%nat).

(** Where the pool itself has a connection. *)
Definition pooled (x : nat) (g : DbPool) : Z := occ x (ic_conn <$> idle_pool g) + occ x (db_closed g).

(** [E] is what the environment contributes to a step. *)
Class DbThread (E P : Type) := {
  dt_max : Z;                                                  (* max_size *)
  dt_limit : Z;                                                (* max_creating_limit_ *)
  dt_step : E → DbPool → P → option (DbPool * P * notify);
  dt_slots : P → Z;                                            (* its share of total_ *)
  dt_making : P → Z;                                           (* its share of creating_ *)
  dt_owned : P → list nat;                                     (* connections only it can reach *)
  dt_waiting : P → bool;
  dt_wake : P → P;
  dt_rest : P → bool;                                          (* done: what a join waits for *)
  dt_ok : P → Prop                                             (* what holds of its local variables *)
}.

(** The state a step may assume: what it holds is counted, and the limits hold. *)
Record fits `{DbThread E P} (g : DbPool) (p : P) : Prop := {
  fit_slots : dt_slots p ≤ db_total g - idle_size g;
  fit_making : dt_making p ≤ db_creating g;
  fit_total : 0 ≤ db_total g ≤ dt_max;
  fit_creating : 0 ≤ db_creating g ≤ dt_limit;
  fit_max : 0 ≤ dt_max < SIZE_MAX;
  fit_limit : 0 ≤ dt_limit < SIZE_MAX;
  fit_ok : dt_ok p
}.

(** What the step owes: it changes the counters by exactly what it takes or gives
    back, keeps the limits, and neither loses nor duplicates a connection. *)
Record accounts `{DbThread E P} (g : DbPool) (p : P) (g' : DbPool) (p' : P) : Prop := {
  acc_slots : (db_total g' - idle_size g') - (db_total g - idle_size g) = dt_slots p' - dt_slots p;
  acc_total : 0 ≤ db_total g' ≤ dt_max;
  acc_making : db_creating g' - db_creating g = dt_making p' - dt_making p;
  acc_creating : db_creating g' ≤ dt_limit;
  acc_conns x : pooled x g' + occ x (dt_owned p') - opened x g' = pooled x g + occ x (dt_owned p) - opened x g;
  acc_running : db_running g' = db_running g;
  acc_ok : dt_ok p'
}.

Class DbLaws (E P : Type) `{DbThread E P} := {
  slots_nonneg : ∀ p, 0 ≤ dt_slots p;
  making_nonneg : ∀ p, 0 ≤ dt_making p;
  step_accounts : ∀ ev g p g' p' n, dt_step ev g p = Some (g', p', n) → fits g p → accounts g p g' p';
  wake_slots : ∀ p, dt_slots (dt_wake p) = dt_slots p;
  wake_making : ∀ p, dt_making (dt_wake p) = dt_making p;
  wake_owned : ∀ p, dt_owned (dt_wake p) = dt_owned p;
  wake_rest : ∀ p, dt_rest (dt_wake p) = dt_rest p;
  wake_ok : ∀ p, dt_ok p → dt_ok (dt_wake p);
  rest_holds : ∀ p, dt_rest p = true → dt_slots p = 0 ∧ dt_making p = 0 ∧ dt_owned p = [];
  rest_stays : ∀ ev g p g' p' n, dt_step ev g p = Some (g', p', n) → dt_rest p = true → db_running g = false → g' = g ∧ dt_rest p' = true
}.

Lemma occ_app x l k : occ x (l ++ k) = occ x l + occ x k.
Proof. induction l as [|y l IH]; cbn; lia. Qed.

Lemma occ_nonneg x l : 0 ≤ occ x l.
Proof. induction l as [|y l IH]; cbn; [lia|]. destruct (bool_decide _); cbn; lia. Qed.

Lemma occ_elem x l : 1 ≤ occ x l ↔ x ∈ l.
Proof.
  induction l as [|y l IH]; cbn; [split; [lia|by intros ?%not_elem_of_nil]|].
  rewrite elem_of_cons, <- IH. pose proof (occ_nonneg x l).
  case_bool_decide; cbn; intuition lia.
Qed.

Lemma opened_next x g : opened x (open_conn g) = opened x g + Z.b2z (bool_decide (x = db_opened g)).
Proof. unfold opened; cbn. repeat case_bool_decide; cbn; lia. Qed.

(** ** The pool with its threads, and shutdown *)

Inductive stop_pc := SdRunning | SdNotify | SdJoin | SdDone.

Section db_machine.
Context {E P : Type} `{DbLaws E P}.

(** [shutdown]: [running_] is cleared and all waiters are woken without the
    mutex; the threads are joined; then the idle connections are closed. *)
Inductive db_step : DbPool * list P * stop_pc → DbPool * list P * stop_pc → Prop :=
| db_thread ev g ts i p g' p' n ts' sd :
    ts !! i = Some p → dt_step ev g p = Some (g', p', n) → notified dt_waiting dt_wake n (<[i := p']> ts) ts' →
    db_step (g, ts, sd) (g', ts', sd)
| db_stop g ts :
    db_step (g, ts, SdRunning)
      (mkDb false (db_locked g) (idle_pool g) (db_total g) (db_creating g) (db_closed g) (db_opened g), ts, SdNotify)
| db_stop_notify g ts : db_step (g, ts, SdNotify) (g, dt_wake <$> ts, SdJoin)
| db_finish g ts :
    Forall (λ p, dt_rest p = true) ts → db_locked g = false →
    db_step (g, ts, SdJoin)
      (mkDb (db_running g) false [] 0 (db_creating g) (reverse (ic_conn <$> idle_pool g) ++ db_closed g) (db_opened g),
       ts, SdDone).

(** Every connection is in one place; the counters are what the threads hold. *)
Record db_inv (s : DbPool * list P * stop_pc) : Prop := {
  inv_total : db_total s.1.1 - idle_size s.1.1 = total dt_slots s.1.2;
  inv_max : 0 ≤ db_total s.1.1 ≤ dt_max;
  inv_creating : db_creating s.1.1 = total dt_making s.1.2;
  inv_limit : 0 ≤ db_creating s.1.1 ≤ dt_limit;
  inv_conns x : pooled x s.1.1 + total (λ p, occ x (dt_owned p)) s.1.2 = opened x s.1.1;
  inv_ok : Forall dt_ok s.1.2;
  inv_bounds : 0 ≤ dt_max < SIZE_MAX ∧ 0 ≤ dt_limit < SIZE_MAX;
  inv_stop : s.2 ≠ SdRunning → db_running s.1.1 = false;
  inv_done : s.2 = SdDone → idle_pool s.1.1 = [] ∧ Forall (λ p, dt_rest p = true) s.1.2
}.

Lemma notified_sum (f : P → Z) n ts ts' : (∀ p, f (dt_wake p) = f p) → notified dt_waiting dt_wake n ts ts' →
  total f ts' = total f ts.
Proof.
  intros Hf [| |us j q Hj _|]; [done|by apply total_fmap| |done].
  rewrite (total_insert _ _ _ _ _ Hj), Hf. lia.
Qed.

Lemma notified_forall (Q : P → Prop) n ts ts' : (∀ p, Q p → Q (dt_wake p)) → notified dt_waiting dt_wake n ts ts' →
  Forall Q ts → Forall Q ts'.
Proof.
  intros Hw [|us|us j q Hj _|] Hr; [done| | |done].
  - apply Forall_fmap. by eapply Forall_impl.
  - apply Forall_insert; [done|]. apply Hw. by eapply Forall_lookup_1.
Qed.

Lemma inv_fits g ts sd i p : db_inv (g, ts, sd) → ts !! i = Some p → fits g p.
Proof.
  intros [Ht Hm Hc Hl _ Hok [Hb1 Hb2] _ _] Hi; cbn [fst snd] in *. split; try done.
  - rewrite Ht. by apply (total_one _ _ i), Hi; apply slots_nonneg.
  - rewrite Hc. by apply (total_one _ _ i), Hi; apply making_nonneg.
  - by eapply Forall_lookup_1.
Qed.

Lemma thread_keeps ev g ts i p g' p' n ts' sd : ts !! i = Some p → dt_step ev g p = Some (g', p', n) →
  notified dt_waiting dt_wake n (<[i := p']> ts) ts' → db_inv (g, ts, sd) → db_inv (g', ts', sd).
Proof.
  intros Hi Hs Hn Hinv. pose proof (inv_fits _ _ _ _ _ Hinv Hi) as Hf.
  destruct (step_accounts _ _ _ _ _ _ Hs Hf) as [A1 A2 A3 A4 A5 A6 A7].
  destruct Hinv as [I1 I2 I3 I4 I5 Iok I6 I7 I8]; cbn [fst snd] in *.
  assert (∀ f : P → Z, (∀ q, f (dt_wake q) = f q) → total f ts' = total f ts - f p + f p') as Hsum.
  { intros f Hw. rewrite (notified_sum f _ _ _ Hw Hn). by apply total_insert. }
  split; cbn [fst snd]; [| |rewrite Hsum by apply wake_making; lia| | | |done| |].
  - rewrite Hsum by apply wake_slots. lia.
  - lia.
  - pose proof (total_nonneg dt_making ts' making_nonneg). rewrite Hsum in * by apply wake_making. lia.
  - intros x. rewrite (Hsum (λ p, occ x (dt_owned p))) by (intros q; by rewrite wake_owned).
    specialize (I5 x). specialize (A5 x). lia.
  - eapply notified_forall; [apply wake_ok|done|]. by apply Forall_insert.
  - rewrite A6. done.
  - intros Hd. destruct (I8 Hd) as [Hid Hr]. assert (db_running g = false) as Hrun by (apply I7; congruence).
    destruct (rest_stays _ _ _ _ _ _ Hs) as [-> Hp']; [|done|].
    + by apply (Forall_lookup_1 _ _ _ _ Hr Hi).
    + split; [done|]. eapply notified_forall; [|done|by apply Forall_insert]. intros q. by rewrite wake_rest.
Qed.

Lemma rest_totals ts : Forall (λ p, dt_rest p = true) ts →
  total dt_slots ts = 0 ∧ total dt_making ts = 0 ∧ ∀ x, total (λ p, occ x (dt_owned p)) ts = 0.
Proof.
  rewrite Forall_forall. intros Hr. split_and!; [| |intros x]; apply total_zero; intros p Hp;
    destruct (rest_holds p (Hr p Hp)) as (Hs & Hm & Ho); [done|done|]. cbn. by rewrite Ho.
Qed.

Lemma occ_reverse x l : occ x (reverse l) = occ x l.
Proof.
  induction l as [|y l IH]; [done|]. rewrite reverse_cons, occ_app, IH. cbn. lia.
Qed.

Lemma db_inv_step s s' : db_step s s' → db_inv s → db_inv s'.
Proof.
  intros [ev g ts i p g' p' n ts' sd Hi Hs Hn|g ts|g ts|g ts Hr Hl] Hinv.
  - by eapply thread_keeps.
  - destruct Hinv as [I1 I2 I3 I4 I5 Iok I6 I7 I8]. by split.
  - destruct Hinv as [I1 I2 I3 I4 I5 Iok I6 I7 I8]; cbn [fst snd] in *. split; cbn [fst snd]; try done.
    + by rewrite total_fmap by apply wake_slots.
    + by rewrite total_fmap by apply wake_making.
    + intros x. rewrite (total_fmap (λ p, occ x (dt_owned p))) by (intros q; by rewrite wake_owned). apply I5.
    + apply Forall_fmap. eapply Forall_impl; [exact Iok|]. apply wake_ok.
    + intros _. by apply I7.
  - destruct Hinv as [I1 I2 I3 I4 I5 Iok I6 I7 I8]; cbn [fst snd] in *.
    destruct (rest_totals _ Hr) as (T1 & T2 & T3). split; cbn [fst snd db_total db_creating db_running]; try done.
    + lia.
    + intros x. specialize (I5 x). rewrite T3 in *. unfold pooled, opened in *; cbn in *.
      rewrite occ_app, occ_reverse. lia.
    + intros _. by apply I7.
Qed.

Lemma db_inv_reachable s s' : db_inv s → rtc db_step s s' → db_inv s'.
Proof. intros Hi Hr. induction Hr as [|x y z Hxy _ IH]; [done|]. apply IH. by eapply db_inv_step. Qed.

(** What the accounting promises to the users of a pool. *)
Record db_sound (s : DbPool * list P * stop_pc) : Prop := {
  (** the limits hold, and the counters never wrap *)
  sound_limits : idle_size s.1.1 ≤ db_total s.1.1 ≤ dt_max ∧ 0 ≤ db_creating s.1.1 ≤ dt_limit;
  (** no connection is used by two threads, or idle while used *)
  sound_exclusive : ∀ i j p q x, s.1.2 !! i = Some p → s.1.2 !! j = Some q → x ∈ dt_owned p →
    x ∉ (ic_conn <$> idle_pool s.1.1) ∧ x ∉ db_closed s.1.1 ∧ (x ∈ dt_owned q → i = j);
  (** no connection is closed twice or handed out after it was closed *)
  sound_closed : NoDup ((ic_conn <$> idle_pool s.1.1) ++ db_closed s.1.1);
  (** no slot and no connection is lost *)
  sound_rest : Forall (λ p, dt_rest p = true) s.1.2 → db_total s.1.1 = idle_size s.1.1 ∧ db_creating s.1.1 = 0 ∧
    ∀ x, (x < db_opened s.1.1)%nat → x ∈ (ic_conn <$> idle_pool s.1.1) ++ db_closed s.1.1;
  (** after shutdown everything is closed *)
  sound_done : s.2 = SdDone → idle_pool s.1.1 = [] ∧ ∀ x, (x < db_opened s.1.1)%nat ↔ x ∈ db_closed s.1.1
}.

Lemma occ_nodup l : (∀ x, occ x l ≤ 1) → NoDup l.
Proof.
  induction l as [|y l IH]; intros Ho; [constructor|]. constructor.
  - intros Hin%occ_elem. specialize (Ho y). cbn in Ho. rewrite bool_decide_eq_true_2 in Ho by done. cbn in Ho. lia.
  - apply IH. intros x. specialize (Ho x). cbn in Ho. destruct (bool_decide _); cbn in Ho; lia.
Qed.

Lemma inv_sound s : db_inv s → db_sound s.
Proof.
  destruct s as [[g ts] sd]. intros [I1 I2 I3 I4 I5 Iok I6 I7 I8]; cbn [fst snd] in *.
  assert (∀ x, opened x g ≤ 1) as Ho1 by (intros x; unfold opened; destruct (bool_decide _); cbn; lia).
  assert (∀ x (q : P), 0 ≤ occ x (dt_owned q)) as Hown by (intros; apply occ_nonneg).
  assert (∀ x, 0 ≤ total (λ p, occ x (dt_owned p)) ts) as Htot by (intros; by apply total_nonneg).
  split; cbn [fst snd].
  - pose proof (total_nonneg dt_slots ts slots_nonneg). lia.
  - intros i j p q x Hp Hq Hx%occ_elem. specialize (I5 x). specialize (Ho1 x). unfold pooled in I5.
    pose proof (occ_nonneg x (ic_conn <$> idle_pool g)) as N1. pose proof (occ_nonneg x (db_closed g)) as N2.
    pose proof (total_one _ _ _ _ (Hown x) Hp) as T1. cbn in T1. rewrite <- !occ_elem.
    split; [lia|]. split; [lia|]. intros Hy. destruct (decide (i = j)) as [|Hij]; [done|exfalso].
    pose proof (total_two _ _ _ _ _ _ (Hown x) Hp Hq Hij) as T2. cbn in T2. lia.
  - apply occ_nodup. intros x. rewrite occ_app. specialize (I5 x). specialize (Ho1 x). specialize (Htot x).
    unfold pooled in I5. lia.
  - intros Hr. destruct (rest_totals _ Hr) as (T1 & T2 & T3). split; [lia|]. split; [lia|].
    intros x Hx. apply occ_elem. rewrite occ_app. specialize (I5 x). rewrite T3 in I5. unfold pooled, opened in I5.
    rewrite bool_decide_eq_true_2 in I5 by done. cbn in I5. lia.
  - intros Hd. destruct (I8 Hd) as [Hid Hr]. destruct (rest_totals _ Hr) as (_ & _ & T3). split; [done|].
    intros x. specialize (I5 x). rewrite T3 in I5. unfold pooled, opened in I5. rewrite Hid in I5. cbn in I5.
    rewrite <- occ_elem. case_bool_decide; cbn in I5; lia.
Qed.

(** *** Runs that can be computed *)

(** Thread [i] steps on an event; if it notifies one waiter, then thread [j]. *)
Definition move : Type := nat * E * nat.

Definition notify_fn (n : notify) (j : nat) (ts : list P) : option (list P) :=
  match n with
  | Quiet => Some ts
  | NotifyAll => Some (dt_wake <$> ts)
  | NotifyOne =>
      match ts !! j with
      | Some p => if dt_waiting p then Some (<[j := dt_wake p]> ts) else None
      | None => if forallb (λ p, negb (dt_waiting p)) ts then Some ts else None
      end
  end.

Fixpoint run (moves : list move) (g : DbPool) (ts : list P) : option (DbPool * list P) :=
  match moves with
  | [] => Some (g, ts)
  | (i, ev, j) :: moves =>
      p ← ts !! i; '(g, p, n) ← dt_step ev g p; ts ← notify_fn n j (<[i := p]> ts); run moves g ts
  end.

Lemma notify_fn_sound n j ts ts' : notify_fn n j ts = Some ts' → notified dt_waiting dt_wake n ts ts'.
Proof.
  destruct n; cbn; [intros [= <-]; constructor| |intros [= <-]; constructor].
  destruct (ts !! j) as [p|] eqn:Ej; case_match; intros [= <-]; [by eapply notified_one|].
  apply notified_nobody. clear Ej. induction ts as [|q ts IH]; [constructor|]. cbn in *. bool_prop.
  constructor; [done|]. by apply IH.
Qed.

Lemma run_sound moves g ts g' ts' sd : run moves g ts = Some (g', ts') → rtc db_step (g, ts, sd) (g', ts', sd).
Proof.
  revert g ts. induction moves as [|[[i ev] j] moves IH]; intros g ts; cbn; [by intros [= <- <-]|].
  destruct (ts !! i) as [p|] eqn:Ei; cbn; [|done].
  destruct (dt_step ev g p) as [[[g1 p1] n]|] eqn:Es; cbn; [|done].
  destruct (notify_fn n j (<[i:=p1]> ts)) as [ts1|] eqn:En; cbn; [|done]. intros Hr.
  eapply rtc_l; [|by apply IH]. eapply db_thread; [done|done|by eapply notify_fn_sound].
Qed.
End db_machine.

(** Proofs of [step_accounts]: compute the step, unfold the measures. *)
Create HintDb db_pool discriminated.
#[export] Hint Rewrite @fmap_app @length_app @length_fmap @length_take @length_drop occ_app : db_pool.

Ltac account :=
  repeat match goal with
  | |- accounts _ _ _ _ => split
  | |- ∀ _ : nat, _ => intros ?
  | H : fits _ _ |- _ => destruct H
  end;
  unfold idle_size, pooled in *; rewrite ?opened_next; unfold opened in *; cbn in *;
  try match goal with Hi : idle_pool ?g = _ |- context [idle_pool ?g] => rewrite Hi; cbn end;
  repeat rewrite wrap64_small in * by (unfold SIZE_MAX in *; lia);
  autorewrite with db_pool; cbn; try done; try lia.

(** Opening the first connections: what holds after [n] attempts. *)
Record db_filled (n : nat) (g : DbPool) : Prop := {
  fill_total : db_total g = idle_size g;
  fill_size : idle_size g ≤ Z.of_nat n;
  fill_creating : db_creating g = 0;
  fill_running : db_running g = true;
  fill_conns x : pooled x g = opened x g
}.

Lemma db_filled_start : db_filled 0 db0.
Proof. by split. Qed.

Lemma filled_inv {E P : Type} `{DbLaws E P} n g ts : db_filled n g → Forall (λ p, dt_slots p = 0 ∧ dt_making p = 0 ∧ dt_owned p = [] ∧ dt_ok p) ts →
  Z.of_nat n ≤ dt_max < SIZE_MAX → 0 ≤ dt_limit < SIZE_MAX → db_inv (g, ts, SdRunning).
Proof.
  intros [F1 F2 F3 F4 F5] Hts Hm Hl. rewrite Forall_forall in Hts.
  assert (0 ≤ idle_size g) by (unfold idle_size; lia).
  split; cbn [fst snd]; try done; try lia.
  - rewrite total_zero; [lia|]. intros p Hp. by destruct (Hts p Hp).
  - rewrite total_zero; [lia|]. intros p Hp. by destruct (Hts p Hp) as (_ & ? & _).
  - intros x. rewrite total_zero; [rewrite F5; lia|]. intros p Hp. destruct (Hts p Hp) as (_ & _ & -> & _). done.
  - apply Forall_forall. intros p Hp. by destruct (Hts p Hp) as (_ & _ & _ & ?).
Qed.

Lemma filled_skip n g : db_filled n g → db_filled (S n) g.
Proof. intros [F1 F2 F3 F4 F5]. split; try done. lia. Qed.

Lemma filled_push n g now : Z.of_nat n < SIZE_MAX → db_filled n g →
  db_filled (S n) (add_total 1 (set_idle (idle_pool g ++ [mkIdle (db_opened g) now]) (open_conn g))).
Proof.
  intros Hn [F1 F2 F3 F4 F5]. assert (0 ≤ idle_size g) by (unfold idle_size; lia).
  split; unfold idle_size in *; cbn; try done; autorewrite with db_pool; cbn; [|lia|].
  - rewrite wrap64_small by lia. lia.
  - intros x. specialize (F5 x). unfold pooled in *. change (opened x _) with (opened x (open_conn g)).
    rewrite opened_next. cbn. autorewrite with db_pool. cbn. lia.
Qed.

Lemma filled_close n g : db_filled n g → db_filled (S n) (close_conn (db_opened g) (open_conn g)).
Proof.
  intros [F1 F2 F3 F4 F5]. split; unfold idle_size in *; cbn; try done; [lia|]. intros x. specialize (F5 x).
  unfold pooled in *. change (opened x _) with (opened x (open_conn g)). rewrite opened_next. cbn. lia.
Qed.

Lemma creating_limit_range max_creating max_size threads : 1 ≤ max_size < SIZE_MAX →
  0 ≤ compute_max_creating_limit max_creating max_size threads < SIZE_MAX.
Proof. unfold compute_max_creating_limit, SIZE_MAX. intros Hm. case_if; lia. Qed.
