(* ===== verification/RedisPool.v ===== *)
(** * The Redis pool (src/src/db/redis_pool.hpp, redis_connection.cpp, redis_reply.cpp)

    Worker mode: commands run on worker threads that share a pool of
    connections, a maintenance thread closes old connections, opens missing ones
    and pings some, and shutdown joins them all.  The model interleaves the
    threads at the mutex, at every access to the atomic [running_] outside of it,
    and at every call of the client library, whose answers are events.  Direct
    mode keeps one connection per thread.  The theorems show that the pool counts
    right and neither loses nor shares a connection, and that only reading
    commands are sent twice; one records a wake-up the maintenance thread can
    swallow. *)

From S2P Require Import Prelude AppConfig DbPool.

(** ** Replies *)

(** [reply->type] of hiredis. *)
Inductive reply_type := ReplyString | ReplyArray | ReplyInteger | ReplyNil | ReplyStatus | ReplyError | ReplyOther.

Inductive redisReply := mkRedisReply {
  rr_type : reply_type;
  rr_str : bytes;
  rr_integer : Z;
  rr_element : list redisReply
}.

Record RedisReplyData := mkReplyData {
  rd_ok : bool;
  rd_error : bytes;
  rd_str : bytes;
  rd_integer : Z;
  rd_elements : list bytes;
  rd_type : bytes
}.

Definition reply_data0 : RedisReplyData := mkReplyData false [] [] 0 [] [].

Definition element_text (e : redisReply) : bytes :=
  match rr_type e with
  | ReplyString | ReplyStatus => rr_str e
  | ReplyInteger => to_string (rr_integer e)
  | ReplyNil => "(nil)"
  | _ => "(unknown)"
  end.

Definition parse_redis_reply (reply : redisReply) : RedisReplyData :=
  match rr_type reply with
  | ReplyString | ReplyStatus => mkReplyData true [] (rr_str reply) 0 [] "string"
  | ReplyInteger => mkReplyData true [] [] (rr_integer reply) [] "integer"
  | ReplyArray => mkReplyData true [] [] 0 (element_text <$> rr_element reply) "array"
  | ReplyError => mkReplyData false (rr_str reply) [] 0 [] "error"
  | ReplyNil => mkReplyData true [] [] 0 [] "nil"
  | ReplyOther => mkReplyData true [] [] 0 [] "unknown"
  end.

Definition make_error (msg : bytes) : RedisReplyData := mkReplyData false msg [] 0 [] "error".

(** ** Configuration *)

(** The branch of [validate_config] for worker mode. *)
Definition validate_worker (cfg : RedisConfig) : RedisConfig :=
  let max_size := if rd_max_size cfg =? 0 then 32 else rd_max_size cfg in
  mkRedis (rd_host cfg) (rd_port cfg) (rd_db cfg) (rd_connect_timeout_ms cfg) (rd_cmd_timeout_ms cfg) (rd_mode cfg)
    (if max_size <? rd_min_size cfg then max_size else rd_min_size cfg) max_size
    (if rd_max_idle_sec cfg <=? 0 then 120 else rd_max_idle_sec cfg)
    (if rd_worker_threads cfg =? 0 then 4 else rd_worker_threads cfg) (rd_max_creating cfg)
    (if rd_acquire_timeout_ms cfg <=? 0 then 3000 else rd_acquire_timeout_ms cfg).

Definition validate_redis (cfg : RedisConfig) : outcome RedisConfig :=
  if beqb (rd_host cfg) [] then Throw "Redis host cannot be empty"
  else if (rd_port cfg <=? 0) || (65535 <? rd_port cfg) then Throw "Redis port out of range"
  else if rd_db cfg <? 0 then Throw "Redis db cannot be negative"
  else
    let cfg := mkRedis (rd_host cfg) (rd_port cfg) (rd_db cfg)
      (if rd_connect_timeout_ms cfg <=? 0 then 1000 else rd_connect_timeout_ms cfg)
      (if rd_cmd_timeout_ms cfg <=? 0 then 30000 else rd_cmd_timeout_ms cfg) (rd_mode cfg)
      (rd_min_size cfg) (rd_max_size cfg) (rd_max_idle_sec cfg) (rd_worker_threads cfg) (rd_max_creating cfg)
      (rd_acquire_timeout_ms cfg) in
    Ret (match rd_mode cfg with Worker => validate_worker cfg | Direct => cfg end).

Definition redis_creating_limit (cfg : RedisConfig) : Z :=
  compute_max_creating_limit (rd_max_creating cfg) (rd_max_size cfg) (rd_worker_threads cfg).

(** ** Commands that may be sent again *)

Definition kReadOnly : list bytes := String.list_ascii_of_string <$> [
  "GET"; "MGET"; "STRLEN"; "EXISTS"; "TTL"; "PTTL"; "TYPE";
  "HGET"; "HMGET"; "HGETALL"; "HKEYS"; "HVALS"; "HLEN"; "HEXISTS";
  "LLEN"; "LRANGE"; "LINDEX"; "SCARD"; "SISMEMBER"; "SMEMBERS";
  "ZCARD"; "ZSCORE"; "ZRANGE"; "ZRANK"]%string.

Definition is_readonly_idempotent (verb : bytes) : bool :=
  existsb (beqb (toupper <$> verb)) kReadOnly.

Definition retryable (args : list bytes) : bool :=
  match args with verb :: _ => is_readonly_idempotent verb | [] => false end.

Definition max_attempts (args : list bytes) : nat := if retryable args then 2 else 1.

(** ** A worker: [cmd_argv_sync_impl] with [acquire_worker] and the guard

    [c_sent] counts how often the command was handed to the client library. *)
Record call := mkCall { c_args : list bytes; c_attempt : nat; c_sent : nat }.

Inductive worker_pc :=
| COut (result : option RedisReplyData)           (* no command, or its answer *)
| CAcquire (c : call)                             (* acquire_conn *)
| CLock (c : call) (retry : nat)                  (* acquire_worker: before the mutex *)
| CSection (c : call) (retry : nat)               (* holds the mutex, running_ was set *)
| CWait (c : call) (retry : nat) (woken : bool)   (* in cv_.wait_until *)
| CCreate (c : call) (retry : nat)
| CCreated (c : call) (retry : nat) (conn : option nat)
| CHeld (c : call) (conn : nat)                   (* under the guard *)
| CRelease (conn : nat) (r : RedisReplyData)      (* release_worker *)
| CFree (conn : nat) (r : RedisReplyData)
| CNotify (r : RedisReplyData)
| CDrop (c : call) (conn : nat) (err : bytes)     (* drop_bad_connection *)
| CDropped (c : call) (err : bytes)
| CRetry (c : call) (err : bytes).

(** ** The maintenance thread: [maintain_loop] and [do_maintain] *)
Inductive maintain_pc :=
| MLoop                                           (* while (running_) *)
| MLock                                           (* wait_for: before the mutex *)
| MSection                                        (* holds the mutex, the predicate was false *)
| MWait (woken : bool)
| MTimedOut
| MReclaim
| MClose (conns : list nat)
| MRefillTest
| MRefill
| MMake (i need : nat) (conns : list nat)
| MMaking (i need : nat) (conns : list nat)
| MPool (need : nat) (conns : list nat)
| MFree (conns : list nat)
| MCheckTest
| MTake
| MPing (l : list nat) (dead : nat)
| MPinging (conn : nat) (l : list nat) (dead : nat)
| MPush (conn : nat) (l : list nat) (dead : nat)
| MPingFree (conn : nat) (l : list nat) (dead : nat)
| MAbandon (l : list nat) (dead : nat)
| MDead (dead : nat)
| MExit.

Inductive redis_pc := W (p : worker_pc) | M (p : maintain_pc).

Inductive redis_event :=
| EvRun
| EvCall (args : list bytes)
| EvWake                                          (* notified, or a spurious wake-up *)
| EvTimeout
| EvConnect (ok : bool)
| EvReply (reply : bytes + redisReply)            (* no reply and the error text, or a reply *)
| EvPush (now : Z) (ok : bool)                    (* whether the deque could grow *)
| EvPushes (l : list (Z * bool))
| EvClock (now : Z)
| EvPing (reply : option redisReply).

(** A step that takes the mutex. *)
Definition with_mutex {A} (g : DbPool) (k : A) : option A := if db_locked g then None else Some k.

Section worker_mode.
Context (cfg : RedisConfig).

Definition no_connection : RedisReplyData := make_error "no available Redis connection".

(** [acquire_worker] *)
Definition acquire_step (ev : redis_event) (g : DbPool) (p : worker_pc) : option (DbPool * worker_pc * notify) :=
  match p, ev with
  | CAcquire c, EvRun => Some (g, if db_running g then CLock c 0 else COut (Some no_connection), Quiet)
  | CLock c retry, EvRun =>
      if (retry <? 2)%nat then
        with_mutex g (if db_running g then (set_locked true g, CSection c retry, Quiet)
                      else (g, COut (Some no_connection), Quiet))
      else Some (g, COut (Some no_connection), Quiet)
  | CSection c retry, EvRun =>
      let g := set_locked false g in
      match idle_pool g with
      | x :: rest => Some (set_idle rest g, CHeld c (ic_conn x), Quiet)
      | [] =>
          if (db_total g <? rd_max_size cfg) && (db_creating g <? redis_creating_limit cfg)
          then Some (add_creating 1 (add_total 1 g), CCreate c retry, Quiet)
          else Some (g, CWait c retry false, Quiet)
      end
  | CWait c retry _, EvWake => Some (g, CLock c retry, Quiet)
  | CWait c retry _, EvTimeout => with_mutex g (g, COut (Some no_connection), Quiet)
  | CCreate c retry, EvConnect ok =>
      Some (if ok then (open_conn g, CCreated c retry (Some (db_opened g)), Quiet)
            else (g, CCreated c retry None, Quiet))
  | CCreated c retry (Some conn), EvRun => with_mutex g (add_creating (-1) g, CHeld c conn, Quiet)
  | CCreated c retry None, EvRun =>
      with_mutex g (add_total (-1) (add_creating (-1) g), CLock c (S retry), NotifyAll)
  | _, _ => None
  end.

(** [release_worker]; [ok] says whether [push_idle_locked] succeeded. *)
Definition release_step (ev : redis_event) (g : DbPool) (p : worker_pc) : option (DbPool * worker_pc * notify) :=
  match p, ev with
  | CRelease conn r, EvPush now ok =>
      with_mutex g (if ok then (set_idle (idle_pool g ++ [mkIdle conn now]) g, CNotify r, Quiet)
                    else (if 0 <? db_total g then add_total (-1) g else g, CFree conn r, Quiet))
  | CFree conn r, EvRun => Some (close_conn conn g, CNotify r, Quiet)
  | CNotify r, EvRun => Some (g, COut (Some r), NotifyOne)
  | _, _ => None
  end.

(** [drop_bad_connection] and the test of the retry *)
Definition drop_step (ev : redis_event) (g : DbPool) (p : worker_pc) : option (DbPool * worker_pc * notify) :=
  match p, ev with
  | CDrop c conn err, EvRun => Some (close_conn conn g, CDropped c err, Quiet)
  | CDropped c err, EvRun => with_mutex g (add_total (-1) g, CRetry c err, NotifyAll)
  | CRetry c err, EvRun =>
      Some (g, if retryable (c_args c) && (S (c_attempt c) <? max_attempts (c_args c))%nat && db_running g
               then CAcquire (mkCall (c_args c) (S (c_attempt c)) (c_sent c))
               else COut (Some (make_error err)), Quiet)
  | _, _ => None
  end.

(** [cmd_argv_sync_impl] *)
Definition worker_step (ev : redis_event) (g : DbPool) (p : worker_pc) : option (DbPool * worker_pc * notify) :=
  match p, ev with
  | COut _, EvCall args =>
      Some (g, if negb (db_running g) then COut (Some (make_error "redis pool is shutdown"))
               else match args with
                    | [] => COut (Some (make_error "empty Redis command"))
                    | _ => CAcquire (mkCall args 0 0)
                    end, Quiet)
  | CHeld c conn, EvReply reply =>
      Some (g, match reply with
               | inl err => CDrop (mkCall (c_args c) (c_attempt c) (S (c_sent c))) conn err
               | inr r => CRelease conn (parse_redis_reply r)
               end, Quiet)
  | CRelease _ _, _ | CFree _ _, _ | CNotify _, _ => release_step ev g p
  | CDrop _ _ _, _ | CDropped _ _, _ | CRetry _ _, _ => drop_step ev g p
  | _, _ => acquire_step ev g p
  end.

(** The loop that takes expired connections from the front. *)
Fixpoint reclaim (now : Z) (l : list IdleConn) : list nat * list IdleConn :=
  match l with
  | [] => ([], [])
  | x :: rest =>
      if (now - ic_last_used_at x) ÷ 10 ^ 9 <? rd_max_idle_sec cfg then ([], l)
      else let '(closing, kept) := reclaim now rest in (ic_conn x :: closing, kept)
  end.

(** The loop that pools the new connections: the deque, and what did not fit. *)
Fixpoint push_new (idle : list IdleConn) (conns : list nat) (pushes : list (Z * bool)) : list IdleConn * list nat :=
  match conns, pushes with
  | c :: conns, (now, true) :: pushes => push_new (idle ++ [mkIdle c now]) conns pushes
  | c :: conns, (_, false) :: pushes => let '(idle, failed) := push_new idle conns pushes in (idle, c :: failed)
  | _, [] => (idle, conns)
  | [], _ => (idle, [])
  end.

Definition refill_need (g : DbPool) : Z :=
  if idle_size g <? rd_min_size cfg then
    let headroom := if rd_max_size cfg <? db_total g then 0 else rd_max_size cfg - db_total g in
    Z.min (rd_min_size cfg - idle_size g) headroom
  else 0.

Definition is_pong (reply : option redisReply) : bool :=
  match reply with
  | Some r => match rr_type r with ReplyStatus => beqb (rr_str r) "PONG" | _ => false end
  | None => false
  end.

Definition max_check : nat := 4.

(** [maintain_loop] *)
Definition loop_step (ev : redis_event) (g : DbPool) (p : maintain_pc) : option (DbPool * maintain_pc * notify) :=
  match p, ev with
  | MLoop, EvRun => Some (g, if db_running g then MLock else MExit, Quiet)
  | MLock, EvRun =>
      with_mutex g (if db_running g then (set_locked true g, MSection, Quiet) else (g, MExit, Quiet))
  | MSection, EvRun => Some (set_locked false g, MWait false, Quiet)
  | MWait _, EvWake => Some (g, MLock, Quiet)
  | MWait _, EvTimeout => Some (g, MTimedOut, Quiet)
  | MTimedOut, EvRun => with_mutex g (g, if db_running g then MReclaim else MExit, Quiet)
  | _, _ => None
  end.

(** The two first parts of [do_maintain]: reclaim, refill. *)
Definition refill_step (ev : redis_event) (g : DbPool) (p : maintain_pc) : option (DbPool * maintain_pc * notify) :=
  match p, ev with
  | MReclaim, EvClock now =>
      let '(closing, kept) := reclaim now (idle_pool g) in
      with_mutex g (add_total (- Z.of_nat (length closing)) (set_idle kept g), MClose closing, NotifyAll)
  | MClose (c :: conns), EvRun => Some (close_conn c g, MClose conns, Quiet)
  | MClose [], EvRun => Some (g, MRefillTest, Quiet)
  | MRefillTest, EvRun => Some (g, if db_running g then MRefill else MLoop, Quiet)
  | MRefill, EvRun =>
      let need := refill_need g in with_mutex g (add_total need g, MMake 0 (Z.to_nat need) [], Quiet)
  | MMake i need conns, EvRun =>
      Some (g, if (i <? need)%nat && db_running g then MMaking i need conns else MPool need conns, Quiet)
  | MMaking i need conns, EvConnect ok =>
      Some (if ok then (open_conn g, MMake (S i) need (conns ++ [db_opened g]), Quiet)
            else (g, MMake (S i) need conns, Quiet))
  | MPool need conns, EvPushes pushes =>
      let '(idle, failed) := push_new (idle_pool g) conns pushes in
      let pooled := Z.of_nat (length conns) - Z.of_nat (length failed) in
      with_mutex g (add_total (- (Z.of_nat need - pooled)) (set_idle idle g), MFree failed, NotifyAll)
  | MFree (c :: conns), EvRun => Some (close_conn c g, MFree conns, Quiet)
  | MFree [], EvRun => Some (g, MCheckTest, Quiet)
  | MCheckTest, EvRun => Some (g, if db_running g then MTake else MLoop, Quiet)
  | _, _ => None
  end.

(** The third part: ping the oldest connections. *)
Definition check_step (ev : redis_event) (g : DbPool) (p : maintain_pc) : option (DbPool * maintain_pc * notify) :=
  match p, ev with
  | MTake, EvRun =>
      with_mutex g (set_idle (drop max_check (idle_pool g)) g, MPing (ic_conn <$> take max_check (idle_pool g)) 0, Quiet)
  | MPing [] dead, EvRun => Some (g, MDead dead, Quiet)
  | MPing (c :: l) dead, EvRun => Some (g, if db_running g then MPinging c l dead else MAbandon (c :: l) dead, Quiet)
  | MPinging c l dead, EvPing reply => Some (g, if is_pong reply then MPush c l dead else MPingFree c l dead, Quiet)
  | MPush c l dead, EvPush now ok =>
      with_mutex g (if ok then (set_idle (idle_pool g ++ [mkIdle c now]) g, MPing l dead, Quiet)
                    else (g, MPingFree c l dead, Quiet))
  | MPingFree c l dead, EvRun => Some (close_conn c g, MPing l (S dead), Quiet)
  | MAbandon (c :: l) dead, EvRun => Some (close_conn c g, MAbandon l (S dead), Quiet)
  | MAbandon [] dead, EvRun => Some (g, MDead dead, Quiet)
  | MDead dead, EvRun =>
      if (0 <? dead)%nat then with_mutex g (add_total (- Z.of_nat dead) g, MLoop, NotifyAll) else Some (g, MLoop, Quiet)
  | _, _ => None
  end.

Definition maintain_step (ev : redis_event) (g : DbPool) (p : maintain_pc) : option (DbPool * maintain_pc * notify) :=
  match loop_step ev g p with
  | Some r => Some r
  | None => match refill_step ev g p with Some r => Some r | None => check_step ev g p end
  end.

Definition redis_step (ev : redis_event) (g : DbPool) (p : redis_pc) : option (DbPool * redis_pc * notify) :=
  match p with
  | W p => '(g, p, n) ← worker_step ev g p; Some (g, W p, n)
  | M p => '(g, p, n) ← maintain_step ev g p; Some (g, M p, n)
  end.
End worker_mode.

(** ** Accounting *)

Definition worker_slots (p : worker_pc) : Z :=
  match p with
  | CCreate _ _ | CCreated _ _ _ | CHeld _ _ | CRelease _ _ | CDrop _ _ _ | CDropped _ _ => 1
  | _ => 0
  end.

Definition worker_making (p : worker_pc) : Z :=
  match p with CCreate _ _ | CCreated _ _ _ => 1 | _ => 0 end.

Definition worker_owned (p : worker_pc) : list nat :=
  match p with
  | CCreated _ _ (Some c) | CHeld _ c | CRelease c _ | CFree c _ | CDrop _ c _ => [c]
  | _ => []
  end.

Definition maintain_slots (p : maintain_pc) : Z :=
  match p with
  | MMake _ need _ | MMaking _ need _ | MPool need _ => Z.of_nat need
  | MPing l dead | MAbandon l dead => Z.of_nat (length l) + Z.of_nat dead
  | MPinging _ l dead | MPush _ l dead | MPingFree _ l dead => 1 + Z.of_nat (length l) + Z.of_nat dead
  | MDead dead => Z.of_nat dead
  | _ => 0
  end.

Definition maintain_owned (p : maintain_pc) : list nat :=
  match p with
  | MClose l | MMake _ _ l | MMaking _ _ l | MPool _ l | MFree l | MPing l _ | MAbandon l _ => l
  | MPinging c l _ | MPush c l _ | MPingFree c l _ => c :: l
  | _ => []
  end.

(** New connections are at most as many as the slots reserved for them. *)
Definition maintain_ok (p : maintain_pc) : Prop :=
  match p with
  | MMake i need conns => (length conns ≤ i)%nat ∧ (i ≤ need)%nat
  | MMaking i need conns => (length conns ≤ i)%nat ∧ (i < need)%nat
  | MPool need conns => (length conns ≤ need)%nat
  | _ => True
  end.

Section accounting.
Context (cfg : RedisConfig).

Definition redis_slots (p : redis_pc) : Z := match p with W p => worker_slots p | M p => maintain_slots p end.
Definition redis_making (p : redis_pc) : Z := match p with W p => worker_making p | M _ => 0 end.
Definition redis_owned (p : redis_pc) : list nat := match p with W p => worker_owned p | M p => maintain_owned p end.
Definition redis_waiting (p : redis_pc) : bool :=
  match p with W (CWait _ _ false) | M (MWait false) => true | _ => false end.
Definition redis_wake (p : redis_pc) : redis_pc :=
  match p with W (CWait c retry _) => W (CWait c retry true) | M (MWait _) => M (MWait true) | p => p end.
Definition redis_rest (p : redis_pc) : bool := match p with W (COut _) | M MExit => true | _ => false end.

#[export] Instance redis_thread : DbThread redis_event redis_pc := {
  dt_max := rd_max_size cfg;
  dt_limit := redis_creating_limit cfg;
  dt_step := redis_step cfg;
  dt_slots := redis_slots;
  dt_making := redis_making;
  dt_owned := redis_owned;
  dt_waiting := redis_waiting;
  dt_wake := redis_wake;
  dt_rest := redis_rest;
  dt_ok := λ p, match p with W _ => True | M p => maintain_ok p end
}.

Lemma worker_accounts ev g p g' p' n : worker_step cfg ev g p = Some (g', p', n) → fits g (W p) →
  accounts g (W p) g' (W p').
Proof.
  intros Hs Hf. destruct p, ev; cbn in Hs; try done; unfold with_mutex in Hs; repeat case_match; simplify_eq/=;
    bool_prop; account.
Qed.
Lemma reclaim_conns now l closing kept : reclaim cfg now l = (closing, kept) →
  ic_conn <$> l = closing ++ (ic_conn <$> kept).
Proof.
  revert closing. induction l as [|x l IH]; cbn; [by intros ? [= <- <-]|]. intros closing.
  case_if; [by intros [= <- <-]|]. destruct (reclaim cfg now l) as [cl k]. intros [= <- <-]. cbn. f_equal. by apply IH.
Qed.

Lemma push_new_conns x idle conns pushes idle' failed : push_new idle conns pushes = (idle', failed) →
  occ x (ic_conn <$> idle') + occ x failed = occ x (ic_conn <$> idle) + occ x conns ∧
  (length idle' + length failed = length idle + length conns)%nat.
Proof.
  revert idle pushes idle' failed. induction conns as [|c conns IH]; intros idle [|[now []] pushes] idle' failed; cbn;
    try (intros [= <- <-]; cbn; lia).
  - intros [Ho Hl]%IH. autorewrite with db_pool in *. cbn in *. lia.
  - destruct (push_new idle conns pushes) as [i f] eqn:E. apply IH in E as [Ho Hl]. intros [= <- <-]. cbn. lia.
Qed.

Lemma loop_accounts ev g p g' p' n : loop_step ev g p = Some (g', p', n) → fits g (M p) → accounts g (M p) g' (M p').
Proof.
  intros Hs Hf. destruct p, ev; cbn in Hs; try done; unfold with_mutex in Hs; simplify_eq/=;
    repeat (case_match; simplify_eq/=); account.
Qed.

Lemma reclaim_accounts g now closing kept : reclaim cfg now (idle_pool g) = (closing, kept) → fits g (M MReclaim) →
  accounts g (M MReclaim) (add_total (- Z.of_nat (length closing)) (set_idle kept g)) (M (MClose closing)).
Proof.
  intros Hc%reclaim_conns Hf. pose proof (f_equal length Hc) as Hl. rewrite length_app, !length_fmap in Hl.
  account. rewrite Hc, occ_app. lia.
Qed.

Lemma refill_need_range g : 0 ≤ db_total g ≤ rd_max_size cfg → 0 ≤ refill_need cfg g ∧ db_total g + refill_need cfg g ≤ rd_max_size cfg.
Proof. intros Hm. unfold refill_need. repeat case_if; bool_prop; lia. Qed.

Lemma pool_accounts g need conns pushes idle failed : push_new (idle_pool g) conns pushes = (idle, failed) →
  fits g (M (MPool need conns)) →
  accounts g (M (MPool need conns))
    (add_total (- (Z.of_nat need - (Z.of_nat (length conns) - Z.of_nat (length failed)))) (set_idle idle g)) (M (MFree failed)).
Proof.
  intros Hp Hf. pose proof (λ x, push_new_conns x _ _ _ _ _ Hp) as Hc. destruct (Hc 0%nat) as [_ Hl]. account.
  destruct (Hc x) as [Hx _]. lia.
Qed.

Lemma refill_accounts ev g p g' p' n : refill_step cfg ev g p = Some (g', p', n) → fits g (M p) →
  accounts g (M p) g' (M p').
Proof.
  intros Hs Hf. destruct p, ev; cbn [refill_step] in Hs; try done; try (by destruct conns);
    unfold with_mutex in Hs; simplify_eq/=.
  - destruct (reclaim _ _ _) eqn:E. case_match; simplify_eq. by eapply reclaim_accounts.
  - case_match; simplify_eq; account.
  - case_match; simplify_eq; account.
  - pose proof (refill_need_range g (fit_total _ _ Hf)) as Hn. case_match; simplify_eq; account.
  - destruct (i <? need)%nat eqn:E; [apply Nat.ltb_lt in E|]; case_match; account.
  - case_match; simplify_eq; account.
  - destruct (push_new _ _ _) eqn:E. case_match; simplify_eq. by eapply pool_accounts.
  - case_match; simplify_eq; account.
  - case_match; simplify_eq; account.
Qed.

Lemma take_accounts g k : fits g (M MTake) →
  accounts g (M MTake) (set_idle (drop k (idle_pool g)) g) (M (MPing (ic_conn <$> take k (idle_pool g)) 0)).
Proof.
  intros Hf. account. rewrite <- (take_drop k (idle_pool g)) at 3. rewrite fmap_app, occ_app. lia.
Qed.

Lemma check_accounts ev g p g' p' n : check_step ev g p = Some (g', p', n) → fits g (M p) →
  accounts g (M p) g' (M p').
Proof.
  intros Hs Hf. destruct p, ev; cbn [check_step] in Hs; try done; try (by destruct l);
    unfold with_mutex in Hs; simplify_eq/=.
  - case_match; simplify_eq. by apply take_accounts.
  - repeat (case_match; simplify_eq/=); account.
  - case_match; simplify_eq; account.
  - repeat (case_match; simplify_eq/=); account.
  - account.
  - case_match; simplify_eq; account.
  - destruct dead as [|dead]; repeat (case_match; simplify_eq/=); account.
Qed.

Lemma maintain_accounts ev g p g' p' n : maintain_step cfg ev g p = Some (g', p', n) → fits g (M p) →
  accounts g (M p) g' (M p').
Proof.
  unfold maintain_step. intros Hs Hf.
  destruct (loop_step ev g p) as [r|] eqn:E1; [injection Hs as ->; by eapply loop_accounts|].
  destruct (refill_step cfg ev g p) as [r|] eqn:E2; [injection Hs as ->; by eapply refill_accounts|].
  by eapply check_accounts.
Qed.

#[export] Instance redis_laws : DbLaws redis_event redis_pc.
Proof.
  split; cbn.
  - intros [[]|[]]; cbn; lia.
  - intros [[]|p]; cbn; lia.
  - intros ev g p g' p' n Hs Hf. destruct p as [p|p]; cbn in Hs; apply bind_Some in Hs as ([[g1 p1] n1] & Hs & Hr);
      simplify_eq/=; [by eapply worker_accounts|by eapply maintain_accounts].
  - by intros [[]|[]].
  - by intros [[]|[]].
  - by intros [[]|[]].
  - by intros [[]|[]].
  - by intros [[]|[]].
  - by intros [[]|[]].
  - intros ev g p g' p' n Hs Hr Hrun. destruct p as [[]|[]]; try done; cbn in Hs; destruct ev; try done.
    cbn in Hs. rewrite Hrun in Hs. by simplify_eq/=.
Qed.
End accounting.

(** ** Start of worker mode *)

(** One turn of the loop of [init_worker_mode]: did the connect succeed, the
    clock, did the deque grow. *)
Definition init_conn (answer : bool * Z * bool) (g : DbPool) : DbPool :=
  let '(connected, now, grown) := answer in
  if negb connected then g
  else if grown then add_total 1 (set_idle (idle_pool g ++ [mkIdle (db_opened g) now]) (open_conn g))
  else close_conn (db_opened g) (open_conn g).

Fixpoint init_loop (n : nat) (answers : nat → bool * Z * bool) (g : DbPool) : DbPool :=
  match n with O => g | S n => init_conn (answers n) (init_loop n answers g) end.

Definition init_worker_mode (cfg : RedisConfig) (answers : nat → bool * Z * bool) : DbPool :=
  init_loop (Z.to_nat (rd_min_size cfg)) answers db0.

(** Workers without a command, and the maintenance thread. *)
Definition redis_threads (workers : nat) : list redis_pc := replicate workers (W (COut None)) ++ [M MLoop].

Lemma init_conn_filled answer n g : Z.of_nat n < SIZE_MAX → db_filled n g → db_filled (S n) (init_conn answer g).
Proof.
  intros Hn Hf. destruct answer as [[[] now] []]; cbn; [by apply filled_push|by apply filled_close|by apply filled_skip..].
Qed.

Lemma init_loop_filled n answers : Z.of_nat n ≤ SIZE_MAX → db_filled n (init_loop n answers db0).
Proof.
  induction n as [|n IH]; intros Hn; cbn; [apply db_filled_start|]. apply init_conn_filled; [lia|]. apply IH. lia.
Qed.

Lemma validate_redis_worker cfg0 cfg : validate_redis cfg0 = Ret cfg → rd_mode cfg = Worker → 0 ≤ rd_max_size cfg0 < SIZE_MAX →
  1 ≤ rd_max_size cfg < SIZE_MAX ∧ rd_min_size cfg ≤ rd_max_size cfg.
Proof.
  unfold validate_redis. intros Hv Hm Hs. destruct (beqb _ _); [done|]. destruct (_ || _); [done|].
  destruct (_ <? 0); [done|]. injection Hv as <-. cbn in *.
  destruct (rd_mode cfg0); [done|]. cbn. repeat case_if; bool_prop; unfold SIZE_MAX in *; lia.
Qed.

(** C25: The Redis pool never loses or shares a connection: for every accepted
    configuration, whatever connects at start-up and whatever the interleaving of
    commands, maintenance and shutdown, and whichever library call fails, the
    number of connections stays within [max_size] and of concurrent connects
    within its limit, no counter wraps, a connection is reached by one thread at a
    time, is not idle or closed while it is used and is closed at most once; when
    the threads are at rest the count is the number of idle connections; and after
    shutdown every connection ever opened is closed. *)
Theorem redis_pool_conserves cfg0 cfg answers workers s :
  validate_redis cfg0 = Ret cfg → rd_mode cfg = Worker → 0 ≤ rd_max_size cfg0 < SIZE_MAX →
  rtc (db_step (H := redis_thread cfg)) (init_worker_mode cfg answers, redis_threads workers, SdRunning) s →
  db_sound (H := redis_thread cfg) s.
Proof.
  intros Hv Hm Hs Hr. destruct (validate_redis_worker _ _ Hv Hm Hs) as [Hmax Hmin].
  apply (inv_sound (H := redis_thread cfg)). eapply (db_inv_reachable (H := redis_thread cfg)); [|exact Hr].
  apply (filled_inv (H := redis_thread cfg) (Z.to_nat (rd_min_size cfg))); cbn.
  - apply init_loop_filled. lia.
  - apply Forall_app. split; [apply Forall_replicate|apply Forall_singleton]; by split_and!.
  - lia.
  - by apply creating_limit_range.
Qed.

(** *** A small pool *)

Definition one_connection : RedisConfig := mkRedis "127.0.0.1" 6379 0 1000 1000 Worker 0 1 120 2 0 3000.
Definition get_k : list bytes := [("GET" : bytes); ("k" : bytes)].
Definition set_k : list bytes := [("SET" : bytes); ("k" : bytes); ("v" : bytes)].
Definition nil_reply : redisReply := mkRedisReply ReplyNil [] 0 [].

(** Thread [i] runs on an event. *)
Definition on (i : nat) (ev : redis_event) : @move redis_event := (i, ev, 9%nat).

(** Worker 0 calls and gets a connection it has to open. *)
Definition open_and_hold (args : list bytes) : list (@move redis_event) :=
  [on 0 (EvCall args); on 0 EvRun; on 0 EvRun; on 0 EvRun; on 0 (EvConnect true); on 0 EvRun].

Lemma redis_pool_conserves_witness :
  validate_redis one_connection = Ret one_connection ∧
  db_sound (H := redis_thread one_connection)
    (mkDb true false [] 1 0 [] 1, [W (CHeld (mkCall get_k 0 0) 0); M MLoop], SdRunning).
Proof.
  split; [by vm_compute|].
  apply (redis_pool_conserves one_connection one_connection (λ _, (false, 0, false)) 1); [by vm_compute..|].
  apply (run_sound (H := redis_thread one_connection) (open_and_hold get_k)). by vm_compute.
Defined.

(** ** How often a command is sent *)

Definition call_of (p : redis_pc) : option call :=
  match p with
  | W (CAcquire c | CLock c _ | CSection c _ | CWait c _ _ | CCreate c _ | CCreated c _ _ | CHeld c _) => Some c
  | _ => None
  end.

Definition failed_call (p : redis_pc) : option call :=
  match p with W (CDrop c _ _ | CDropped c _ | CRetry c _) => Some c | _ => None end.

(** Before each attempt the command was sent once per failed attempt. *)
Definition sent_ok (p : redis_pc) : Prop :=
  (∀ c, call_of p = Some c → c_sent c = c_attempt c ∧ (c_attempt c < max_attempts (c_args c))%nat) ∧
  (∀ c, failed_call p = Some c → c_sent c = S (c_attempt c) ∧ (c_attempt c < max_attempts (c_args c))%nat).

Section sent.
Context (cfg : RedisConfig).
#[local] Arguments Nat.ltb : simpl never.
#[local] Arguments Nat.leb : simpl never.

Lemma sent_step ev g p g' p' n : redis_step cfg ev g p = Some (g', p', n) → sent_ok p → sent_ok p'.
Proof.
  intros Hs [H1 H2]. destruct p as [p|p]; cbn in Hs; apply bind_Some in Hs as ([[g1 p1] n1] & Hs & Hr); simplify_eq/=.
  2:{ by split. }
  destruct p, ev; cbn in Hs; try done; unfold with_mutex in Hs; repeat (case_match; simplify_eq/=);
    split; intros d Hd; simplify_eq/=; try (by auto).
  all: try (destruct (H1 _ eq_refl); split; cbn; lia).
  all: try (destruct (H2 _ eq_refl); bool_prop; split; cbn; [lia|by apply Nat.ltb_lt]).
  all: split; [done|]; unfold max_attempts; case_if; lia.
Qed.

Lemma sent_wake p : sent_ok p → sent_ok (redis_wake p).
Proof. by destruct p as [[]|[]]. Qed.

Lemma sent_reachable s s' : Forall sent_ok s.1.2 → rtc (db_step (H := redis_thread cfg)) s s' → Forall sent_ok s'.1.2.
Proof.
  intros Hs Hr. induction Hr as [|x y z Hxy _ IH]; [done|]. apply IH. clear IH.
  destruct Hxy as [ev g ts i p g' p' n ts' sd Hi Hst Hn|g ts|g ts|g ts _ _]; cbn [fst snd] in *; [|done| |done].
  - eapply (notified_forall (H := redis_thread cfg)); [apply sent_wake|exact Hn|]. apply Forall_insert; [done|].
    eapply sent_step; [exact Hst|]. by eapply Forall_lookup_1.
  - apply Forall_fmap. eapply Forall_impl; [exact Hs|]. apply sent_wake.
Qed.
End sent.

(** A command that is not in the list of reading commands is handed to the
    client library at most once, a reading one at most twice, in every
    interleaving: whenever a thread is about to send, the number of times the
    command was sent before is below that bound; and a command is answered by the
    reply that was read or by an error. *)
Lemma redis_no_replay cfg answers workers g ts sd i c conn :
  rtc (db_step (H := redis_thread cfg)) (init_worker_mode cfg answers, redis_threads workers, SdRunning) (g, ts, sd) →
  ts !! i = Some (W (CHeld c conn)) →
  (c_sent c < max_attempts (c_args c))%nat ∧ (retryable (c_args c) = false → c_sent c = 0%nat) ∧
  (∀ reply g' p' n, redis_step cfg (EvReply reply) g (W (CHeld c conn)) = Some (g', p', n) →
     match reply with
     | inl err => p' = W (CDrop (mkCall (c_args c) (c_attempt c) (S (c_sent c))) conn err)
     | inr r => p' = W (CRelease conn (parse_redis_reply r))
     end).
Proof.
  intros Hr Hi. assert (sent_ok (W (CHeld c conn))) as [Hs _].
  { apply sent_reachable in Hr; [by eapply (Forall_lookup_1 _ _ _ _ Hr)|]. cbn. unfold redis_threads.
    apply Forall_app. split; [apply Forall_replicate|apply Forall_singleton]; by split. }
  destruct (Hs c eq_refl) as [Heq Hlt]. split; [lia|]. split.
  - intros Hn. unfold max_attempts in Hlt. rewrite Hn in Hlt. lia.
  - intros [err|r] g' p' n Hst; cbn in Hst; by simplify_eq/=.
Qed.

Lemma redis_no_replay_witness : (0 < max_attempts set_k)%nat ∧ retryable set_k = false.
Proof.
  destruct (redis_no_replay one_connection (λ _, (false, 0, false)) 1 (mkDb true false [] 1 0 [] 1)
    [W (CHeld (mkCall set_k 0 0) 0); M MLoop] SdRunning 0 (mkCall set_k 0 0) 0) as (Hs & _).
  - apply (run_sound (H := redis_thread one_connection) (open_and_hold set_k)). by vm_compute.
  - done.
  - split; [exact Hs|by vm_compute].
Defined.

(** ** A wake-up that is lost *)

(** Worker 1 waits, the maintenance thread waits, worker 0 releases its
    connection and its [notify_one] goes to the maintenance thread, which waits
    again. *)
Definition stolen : list (@move redis_event) :=
  open_and_hold get_k ++
  [on 1 (EvCall get_k); on 1 EvRun; on 1 EvRun; on 1 EvRun;
   on 2 EvRun; on 2 EvRun; on 2 EvRun;
   on 0 (EvReply (inr nil_reply)); on 0 (EvPush 7 true); (0, EvRun, 2);
   on 2 EvWake; on 2 EvRun; on 2 EvRun]%nat.

(** The condition variable is shared by the threads that wait for a connection
    and by the maintenance thread, and a release wakes only one of them: there is a
    run at whose end a connection is idle, a command still waits for one, no
    thread is going to notify it, and when its deadline passes it fails with "no
    available Redis connection". *)
Lemma release_wakeup_stolen :
  ∃ g ts, rtc (db_step (H := redis_thread one_connection))
      (init_worker_mode one_connection (λ _, (false, 0, false)), redis_threads 2, SdRunning) (g, ts, SdRunning) ∧
    length (idle_pool g) = 1%nat ∧
    ts = [W (COut (Some (parse_redis_reply nil_reply))); W (CWait (mkCall get_k 0 0) 0 false); M (MWait false)] ∧
    redis_step one_connection EvTimeout g (W (CWait (mkCall get_k 0 0) 0 false)) =
      Some (g, W (COut (Some no_connection)), Quiet).
Proof.
  eexists _, _. split; [apply (run_sound (H := redis_thread one_connection) stolen); vm_compute; reflexivity|].
  by split_and!.
Qed.

(** [shutdown] clears [running_] and notifies without the mutex: when that
    happens between the test of the maintenance thread and its wait, the thread
    sleeps for its full interval although shutdown waits for it. *)
Lemma shutdown_wakeup_lost :
  ∃ g, rtc (db_step (H := redis_thread one_connection))
      (init_worker_mode one_connection (λ _, (false, 0, false)), redis_threads 0, SdRunning) (g, [M (MWait false)], SdJoin) ∧
    db_running g = false.
Proof.
  eexists. split.
  - etrans; [apply (run_sound (H := redis_thread one_connection) [on 0 EvRun; on 0 EvRun]); vm_compute; reflexivity|].
    eapply rtc_l; [apply db_stop|]. eapply rtc_l; [apply db_stop_notify|].
    apply (run_sound (H := redis_thread one_connection) [on 0 EvRun]). vm_compute. reflexivity.
  - done.
Qed.

(** ** Opening a connection (redis_connection.cpp) *)

Record RedisConnectionConfig := mkConnCfg {
  rc_host : bytes; rc_port : Z; rc_db : Z; rc_connect_timeout_ms : Z; rc_cmd_timeout_ms : Z
}.

Definition effective_cmd_timeout_ms (cfg : RedisConfig) : Z :=
  if rd_cmd_timeout_ms cfg <=? 0 then 30000 else rd_cmd_timeout_ms cfg.

Definition connection_config (cfg : RedisConfig) : RedisConnectionConfig :=
  mkConnCfg (rd_host cfg) (rd_port cfg) (rd_db cfg) (rd_connect_timeout_ms cfg) (effective_cmd_timeout_ms cfg).

(** A [timeval] of at least 100 ms: seconds and microseconds. *)
Definition timeval_of (ms : Z) : Z * Z :=
  let ms := if ms <? 100 then 100 else ms in (ms ÷ 1000, Z.rem ms 1000 * 1000).

(** A context: its number, its database and whether [ctx->err] is set. *)
Record redisContext := mkCtx { ctx_id : nat; ctx_db : Z; ctx_err : bool }.

(** What the server answers: to the connect ([None] without memory, an error, or
    a context), and to SELECT. *)
Record connect_answer := mkAnswer { an_connect : option bool; an_select : option redisReply }.

Definition is_ok_status (reply : option redisReply) : bool :=
  match reply with
  | Some r => match rr_type r with ReplyStatus => beqb (rr_str r) "OK" | _ => false end
  | None => false
  end.

(** The context, and the contexts that were freed. *)
Definition create_redis_connection (cfg : RedisConnectionConfig) (id : nat) (a : connect_answer) :
    option redisContext * list nat :=
  match an_connect a with
  | None => (None, [])
  | Some false => (None, [id])
  | Some true =>
      if negb (rc_db cfg =? 0) then
        if is_ok_status (an_select a) then (Some (mkCtx id (rc_db cfg) false), []) else (None, [id])
      else (Some (mkCtx id 0 false), [])
  end.

(** ** Direct mode: one connection per thread *)

Record TlsRedisConn := mkTls { tls_owner : option nat; tls_generation : Z; tls_conn : option redisContext }.

(** A thread: its slot, the contexts it opened so far and those it freed. *)
Record tls_state := mkTlsState { slot : TlsRedisConn; ts_opened : nat; ts_freed : list nat }.

Definition redis_tls_owner_matches (tls : TlsRedisConn) (owner : nat) (generation : Z) : bool :=
  bool_decide (tls_owner tls = Some owner) && (tls_generation tls =? generation).

Definition conn_ids (c : option redisContext) : list nat := match c with Some c => [ctx_id c] | None => [] end.

(** [tls.conn.reset(new)] frees the old context. *)
Definition reset_conn (st : tls_state) (new : option redisContext) : tls_state :=
  mkTlsState (mkTls (tls_owner (slot st)) (tls_generation (slot st)) new) (ts_opened st)
    (conn_ids (tls_conn (slot st)) ++ ts_freed st).

Definition reset_redis_tls_owner (st : tls_state) (owner : nat) (generation : Z) : tls_state :=
  let st := reset_conn st None in
  mkTlsState (mkTls (Some owner) generation None) (ts_opened st) (ts_freed st).

Definition open_into_slot (cfg : RedisConnectionConfig) (a : connect_answer) (st : tls_state) : tls_state :=
  let '(ctx, freed) := create_redis_connection cfg (ts_opened st) a in
  reset_conn (mkTlsState (slot st) (if an_connect a then S (ts_opened st) else ts_opened st) (freed ++ ts_freed st)) ctx.

Definition ensure_redis_tls_connection (cfg : RedisConnectionConfig) (owner : nat) (generation : Z) (a : connect_answer)
    (st : tls_state) : tls_state :=
  let st := if redis_tls_owner_matches (slot st) owner generation then st else reset_redis_tls_owner st owner generation in
  match tls_conn (slot st) with
  | None => open_into_slot cfg a st
  | Some c => if ctx_err c then open_into_slot cfg a st else st
  end.

(** The attempts of [cmd_argv_sync_impl] in direct mode; each has the answers to a
    connect and to the command, and whether the pool still runs after a failure. *)
Record attempt_answer := mkAttempt { at_connect : connect_answer; at_reply : bytes + redisReply; at_running : bool }.

(** [n] attempts are left; the result, the state, and how often the command was sent. *)
Fixpoint direct_attempts (cfg : RedisConnectionConfig) (owner : nat) (generation : Z) (n sent : nat)
    (answers : list attempt_answer) (st : tls_state) : RedisReplyData * tls_state * nat :=
  match n, answers with
  | O, _ | _, [] => (make_error "redis retry exhausted", st, sent)
  | S n, a :: answers =>
      let st := ensure_redis_tls_connection cfg owner generation (at_connect a) st in
      match tls_conn (slot st) with
      | None => (make_error "no available Redis connection", st, sent)
      | Some ctx =>
          match at_reply a with
          | inr r => (parse_redis_reply r, st, S sent)
          | inl err =>
              let st := reset_conn st None in
              if (0 <? n)%nat && at_running a then direct_attempts cfg owner generation n (S sent) answers st
              else (make_error err, st, S sent)
          end
      end
  end.

(** [shutdown] clears the slot of the thread that calls it. *)
Definition shutdown_slot (owner : nat) (generation : Z) (st : tls_state) : tls_state :=
  if redis_tls_owner_matches (slot st) owner generation
  then let st := reset_conn st None in mkTlsState (mkTls None 0 None) (ts_opened st) (ts_freed st)
  else st.

(** At most one context of the thread is open, and it has the configured database. *)
Definition tls_ok (db : Z) (st : tls_state) : Prop :=
  (∀ x, occ x (conn_ids (tls_conn (slot st)) ++ ts_freed st) = Z.b2z (bool_decide (x < ts_opened st)%nat)) ∧
  (∀ c, tls_conn (slot st) = Some c → ctx_db c = db).

Lemma reset_ok db st : tls_ok db st → tls_ok db (reset_conn st None).
Proof. intros [Ho _]. split; [|done]. intros x. apply Ho. Qed.

Lemma open_ok cfg a st : tls_ok (rc_db cfg) st → tls_ok (rc_db cfg) (open_into_slot cfg a st).
Proof.
  intros [Ho Hd]. unfold open_into_slot, create_redis_connection.
  assert (∀ x, Z.b2z (bool_decide (x < S (ts_opened st))%nat) =
    Z.b2z (bool_decide (x = ts_opened st)) + Z.b2z (bool_decide (x < ts_opened st)%nat)) as Hnext
    by (intros x; repeat case_bool_decide; cbn; lia).
  destruct (an_connect a) as [[]|]; [|split; cbn; [|done]..].
  - destruct (rc_db cfg =? 0) eqn:E; cbn; [|destruct (is_ok_status _); cbn]; split; cbn; intros; simplify_eq/=; try done;
      try (bool_prop; congruence); rewrite Hnext, <- Ho, !occ_app; cbn; rewrite ?occ_app; lia.
  - intros x. rewrite Hnext, <- Ho, !occ_app. cbn. lia.
  - intros x. rewrite <- Ho, !occ_app. lia.
Qed.

Lemma ensure_ok cfg owner gen a st : tls_ok (rc_db cfg) st → tls_ok (rc_db cfg) (ensure_redis_tls_connection cfg owner gen a st).
Proof.
  intros Hok. unfold ensure_redis_tls_connection.
  assert (tls_ok (rc_db cfg) (if redis_tls_owner_matches (slot st) owner gen then st else reset_redis_tls_owner st owner gen))
    as Hok' by (case_if; [done|by apply (reset_ok _ _ Hok)]).
  destruct (tls_conn _) as [c|]; [destruct (ctx_err c); [|done]|]; by apply open_ok.
Qed.

Lemma shutdown_slot_ok db owner gen st : tls_ok db st → tls_ok db (shutdown_slot owner gen st).
Proof. intros Hok. unfold shutdown_slot. case_if; [|done]. by apply (reset_ok _ _ Hok). Qed.

(** A thread never has two open contexts, frees each once, uses the configured
    database, and sends the command at most [n] more times. *)
Lemma direct_attempts_ok cfg owner gen n sent answers st r st' k :
  direct_attempts cfg owner gen n sent answers st = (r, st', k) → tls_ok (rc_db cfg) st →
  tls_ok (rc_db cfg) st' ∧ (k ≤ sent + n)%nat.
Proof.
  revert sent answers st. induction n as [|n IH]; intros sent [|a answers] st; cbn [direct_attempts]; try (intros [= _ <- <-] ?; split; [done|lia]).
  intros Hd Hok. apply (ensure_ok cfg owner gen (at_connect a)) in Hok.
  destruct (tls_conn (slot _)) as [ctx|]; [|simplify_eq/=; split; [done|lia]].
  destruct (at_reply a) as [err|rep]; [|simplify_eq/=; split; [done|lia]]. apply reset_ok in Hok.
  destruct (_ && _).
  - apply IH in Hd as [Hst Hk]; [|done]. split; [done|lia].
  - simplify_eq/=. split; [done|lia].
Qed.
