(* ===== verification/DbJson.v ===== *)
(** * Query results as JSON (src/src/db/mysql_result_json.cpp)

    Rows become a JSON array of objects whose bytes are escaped; bytes that do
    not have the shape of UTF-8 are replaced.  The reader takes the first string
    value of such a text.  The theorem shows that it gets back the first
    non-null column of the first row. *)

From S2P Require Import Prelude.

(** ** Writing *)

Definition kHex (d : Z) : ascii := if d <? 10 then chr (48 + d) else chr (87 + d).

(** How many continuation bytes a lead byte announces. *)
Definition utf8_extra (c : Z) : Z :=
  if Z.land c 0xE0 =? 0xC0 then 1
  else if Z.land c 0xF0 =? 0xE0 then 2
  else if Z.land c 0xF8 =? 0xF0 then 3
  else -1.

Definition is_continuation (c : ascii) : bool := Z.land (code c) 0xC0 =? 0x80.

(** Whether [c] and the bytes behind it have the shape of a UTF-8 sequence; the
    first test keeps the reads inside the buffer. *)
Definition valid_sequence (c : ascii) (rest : bytes) : bool :=
  let extra := utf8_extra (code c) in
  (0 <? extra) && (extra <? 1 + slen rest) && forallb is_continuation (take (Z.to_nat extra) rest).

(** The escapes of the [switch]. *)
Definition short_escape (c : ascii) : option ascii :=
  if code c =? 34 then Some DQUOTE
  else if code c =? 92 then Some BACKSLASH
  else if code c =? 8 then Some "b"%char
  else if code c =? 12 then Some "f"%char
  else if code c =? 10 then Some "n"%char
  else if code c =? 13 then Some "r"%char
  else if code c =? 9 then Some "t"%char
  else None.

(** One turn of the loop: what is written, and how many bytes are skipped. *)
Definition escape_turn (c : ascii) (rest : bytes) : bytes * nat :=
  match short_escape c with
  | Some e => ([BACKSLASH; e], 0%nat)
  | None =>
      if code c <? 32 then
        ([BACKSLASH] ++ "u00" ++ [kHex (Z.land (Z.shiftr (code c) 4) 15); kHex (Z.land (code c) 15)], 0%nat)
      else if code c <? 128 then ([c], 0%nat)
      else if valid_sequence c rest then
        let extra := Z.to_nat (utf8_extra (code c)) in (c :: take extra rest, extra)
      else ([BACKSLASH] ++ "ufffd", 0%nat)
  end.

Fixpoint escape_loop (fuel : nat) (data : bytes) : bytes :=
  match fuel, data with
  | S fuel, c :: rest => let '(out, skipped) := escape_turn c rest in out ++ escape_loop fuel (drop skipped rest)
  | _, _ => []
  end.

Definition append_json_string (data : bytes) : bytes :=
  [DQUOTE] ++ escape_loop (length data) data ++ [DQUOTE].

(** A row has one cell per column; [None] is NULL. *)
Definition cell_json (cell : option bytes) : bytes :=
  match cell with None => "null" | Some v => append_json_string v end.

Definition row_json (fields : list bytes) (row : list (option bytes)) : bytes :=
  "{" ++ join_with "," (zip_with (λ name cell, append_json_string name ++ ":" ++ cell_json cell) fields row) ++ "}".

Definition mysql_result_to_json (fields : list bytes) (rows : list (list (option bytes))) : bytes :=
  "[" ++ join_with "," (row_json fields <$> rows) ++ "]".

(** ** Reading *)

Definition hex_of (h : ascii) : Z :=
  let c := code h in
  if in_range 48 57 c then c - 48
  else if in_range 97 102 c then c - 97 + 10
  else if in_range 65 70 c then c - 65 + 10
  else -1.

Definition encode_bmp (cp : Z) : bytes :=
  if cp <? 0x80 then [chr cp]
  else if cp <? 0x800 then [chr (Z.lor 0xC0 (Z.shiftr cp 6)); chr (Z.lor 0x80 (Z.land cp 0x3F))]
  else [chr (Z.lor 0xE0 (Z.shiftr cp 12)); chr (Z.lor 0x80 (Z.land (Z.shiftr cp 6) 0x3F));
        chr (Z.lor 0x80 (Z.land cp 0x3F))].

Definition unescape (e : ascii) : option ascii :=
  if ceqb e DQUOTE then Some DQUOTE
  else if ceqb e BACKSLASH then Some BACKSLASH
  else if ceqb e "/"%char then Some "/"%char
  else if ceqb e "b"%char then Some (chr 8)
  else if ceqb e "f"%char then Some (chr 12)
  else if ceqb e "n"%char then Some LF
  else if ceqb e "r"%char then Some CR
  else if ceqb e "t"%char then Some TAB
  else None.

(** The loop behind the opening quote. *)
Fixpoint read_string (json : bytes) : option bytes :=
  match json with
  | [] => None
  | c :: rest =>
      if ceqb c DQUOTE then Some []
      else if ceqb c BACKSLASH then
        match rest with
        | [] => None
        | e :: rest =>
            if ceqb e "u"%char then
              match rest with
              | h1 :: h2 :: h3 :: h4 :: rest =>
                  if (hex_of h1 <? 0) || (hex_of h2 <? 0) || (hex_of h3 <? 0) || (hex_of h4 <? 0) then None
                  else
                    let cp := Z.lor (Z.lor (Z.lor (Z.shiftl (hex_of h1) 12) (Z.shiftl (hex_of h2) 8))
                                       (Z.shiftl (hex_of h3) 4)) (hex_of h4) in
                    app (encode_bmp cp) <$> read_string rest
              | _ => None
              end
            else match unescape e with
                 | Some d => cons d <$> read_string rest
                 | None => None
                 end
        end
      else cons c <$> read_string rest
  end.

Fixpoint skip_blanks (json : bytes) : bytes :=
  match json with
  | c :: rest =>
      if ceqb c " "%char || ceqb c TAB || ceqb c LF || ceqb c CR then skip_blanks rest else json
  | [] => []
  end.

(** [json] is the text from [search_from] on. *)
Fixpoint first_string (fuel : nat) (json : bytes) : option bytes :=
  match fuel, json with
  | S fuel, _ :: _ =>
      match find_char ":"%char json with
      | None => None
      | Some colon =>
          match skip_blanks (drop (S colon) json) with
          | [] => None
          | c :: rest =>
              if negb (ceqb c DQUOTE) then
                match find_char ","%char (c :: rest) with
                | None => None
                | Some comma => first_string fuel (drop (S comma) (c :: rest))
                end
              else read_string rest
          end
      end
  | _, _ => None
  end.

Definition extract_first_string_value (json : bytes) : option bytes := first_string (length json) json.

(** ** What is read back *)

(** The text with every byte that does not belong to a sequence of UTF-8 shape
    replaced by U+FFFD. *)
Fixpoint sanitize_loop (fuel : nat) (data : bytes) : bytes :=
  match fuel, data with
  | S fuel, c :: rest =>
      if code c <? 128 then c :: sanitize_loop fuel rest
      else if valid_sequence c rest then
        let extra := Z.to_nat (utf8_extra (code c)) in c :: take extra rest ++ sanitize_loop fuel (drop extra rest)
      else [chr 0xEF; chr 0xBF; chr 0xBD] ++ sanitize_loop fuel rest
  | _, _ => []
  end.

Definition sanitize (data : bytes) : bytes := sanitize_loop (length data) data.

(** A test that holds of all 256 bytes, by computation. *)
Lemma byte_check (f : ascii → bool) : forallb f (chr <$> seqZ 0 256) = true → ∀ c, f c = true.
Proof.
  intros Hf c. rewrite <- (chr_code c). eapply (proj1 (forallb_forall _ _)); [exact Hf|].
  apply list_elem_of_In, list_elem_of_fmap_2, elem_of_seqZ. pose proof (code_range c). lia.
Qed.

Definition escape_ok (c : ascii) : bool :=
  match short_escape c with
  | Some e => negb (ceqb e "u"%char) && bool_decide (unescape e = Some c) && (code c <? 128)
  | None => negb (ceqb c DQUOTE || ceqb c BACKSLASH)
  end && (if code c <? 128 then true else bool_decide (short_escape c = None)).

Lemma escape_ok_all c : escape_ok c = true.
Proof. revert c. apply byte_check. vm_compute. reflexivity. Qed.

Lemma short_escape_read c e : short_escape c = Some e →
  ceqb e "u"%char = false ∧ unescape e = Some c ∧ code c <? 128 = true.
Proof.
  intros He. pose proof (escape_ok_all c) as Hc. unfold escape_ok in Hc. rewrite He in Hc.
  apply andb_prop in Hc as [[[Hu Hd]%andb_prop Hh]%andb_prop _].
  apply bool_decide_eq_true_1 in Hd. split_and!; [by apply negb_true_iff|done|done].
Qed.

(** The code point of the two hexadecimal digits that are written. *)
Definition control_point (c : ascii) : Z :=
  Z.lor (Z.lor (Z.lor (Z.shiftl (hex_of "0") 12) (Z.shiftl (hex_of "0") 8))
           (Z.shiftl (hex_of (kHex (Z.land (Z.shiftr (code c) 4) 15))) 4)) (hex_of (kHex (Z.land (code c) 15))).

Definition control_ok (c : ascii) : bool :=
  negb ((hex_of "0" <? 0) || (hex_of "0" <? 0) || (hex_of (kHex (Z.land (Z.shiftr (code c) 4) 15)) <? 0) ||
        (hex_of (kHex (Z.land (code c) 15)) <? 0)) && beqb (encode_bmp (control_point c)) [c].

Lemma control_ok_all c : (if code c <? 32 then control_ok c else true) = true.
Proof. revert c. apply byte_check. vm_compute. reflexivity. Qed.

Lemma control_digits c : code c <? 32 = true →
  (hex_of "0" <? 0) || (hex_of "0" <? 0) || (hex_of (kHex (Z.land (Z.shiftr (code c) 4) 15)) <? 0) ||
  (hex_of (kHex (Z.land (code c) 15)) <? 0) = false ∧ encode_bmp (control_point c) = [c].
Proof.
  intros Hc. pose proof (control_ok_all c) as Hok. rewrite Hc in Hok. unfold control_ok in Hok.
  apply andb_prop in Hok as [Hn He]. split; [by apply negb_true_iff|by apply beqb_eq].
Qed.

Lemma read_u h1 h2 h3 h4 s :
  read_string (BACKSLASH :: "u"%char :: h1 :: h2 :: h3 :: h4 :: s) =
    if (hex_of h1 <? 0) || (hex_of h2 <? 0) || (hex_of h3 <? 0) || (hex_of h4 <? 0) then None
    else app (encode_bmp (Z.lor (Z.lor (Z.lor (Z.shiftl (hex_of h1) 12) (Z.shiftl (hex_of h2) 8))
                                   (Z.shiftl (hex_of h3) 4)) (hex_of h4))) <$> read_string s.
Proof. reflexivity. Qed.

Lemma control_read c s : code c <? 32 = true →
  read_string ([BACKSLASH] ++ "u00" ++ [kHex (Z.land (Z.shiftr (code c) 4) 15); kHex (Z.land (code c) 15)] ++ s) =
    cons c <$> read_string s.
Proof.
  intros Hc. destruct (control_digits c Hc) as [Hd He].
  change ([BACKSLASH] ++ "u00" ++ [?x; ?y] ++ s) with (BACKSLASH :: "u"%char :: "0"%char :: "0"%char :: x :: y :: s).
  rewrite read_u, Hd. fold (control_point c). by rewrite He.
Qed.

Lemma plain_byte c : short_escape c = None → ceqb c DQUOTE = false ∧ ceqb c BACKSLASH = false.
Proof.
  intros Hn. pose proof (escape_ok_all c) as Hc. unfold escape_ok in Hc. rewrite Hn in Hc.
  apply andb_prop in Hc as [Hc%negb_true_iff _]. by apply orb_false_elim in Hc.
Qed.

Lemma plain_read c s : short_escape c = None → read_string (c :: s) = cons c <$> read_string s.
Proof. intros Hc. destruct (plain_byte c Hc) as [H1 H2]. cbn [read_string]. by rewrite H1, H2. Qed.

Lemma high_byte c : code c <? 128 = false → short_escape c = None.
Proof.
  intros Hh. pose proof (escape_ok_all c) as Hc. unfold escape_ok in Hc. rewrite Hh in Hc.
  apply andb_prop in Hc as [_ Hc]. by apply bool_decide_eq_true_1 in Hc.
Qed.

Lemma continuation_high c : is_continuation c = true → code c <? 128 = false.
Proof.
  intros Hc. assert (implb (is_continuation c) (negb (code c <? 128)) = true) as Hi.
  { revert c Hc. intros c _. revert c. apply byte_check. vm_compute. reflexivity. }
  rewrite Hc in Hi. by apply negb_true_iff.
Qed.

Lemma high_read l s : Forall (λ c, code c <? 128 = false) l → read_string (l ++ s) = app l <$> read_string s.
Proof.
  induction 1 as [|c l Hc Hl IH]; cbn [app]; [by destruct (read_string s)|].
  rewrite plain_read by by apply high_byte. rewrite IH. by destruct (read_string s).
Qed.

(** The reader undoes the escaping, whatever follows the closing quote. *)
Lemma read_escaped fuel data tail : (length data ≤ fuel)%nat →
  read_string (escape_loop fuel data ++ DQUOTE :: tail) = Some (sanitize_loop fuel data).
Proof.
  revert data. induction fuel as [|fuel IH]; intros [|c rest] Hl; cbn [length] in Hl; try done; try lia.
  cbn [escape_loop sanitize_loop]. unfold escape_turn. destruct (short_escape c) as [e|] eqn:Es.
  { destruct (short_escape_read _ _ Es) as (Hu & He & Hc). rewrite Hc, drop_0. cbn [app].
    cbn [read_string]. change (ceqb BACKSLASH DQUOTE) with false. rewrite ceqb_refl, Hu, He, IH by lia. done. }
  destruct (code c <? 32) eqn:E32.
  { rewrite <- !app_assoc. rewrite control_read by done. rewrite drop_0, IH by lia.
    assert (code c <? 128 = true) as -> by (apply Z.ltb_lt in E32; apply Z.ltb_lt; lia). done. }
  destruct (code c <? 128) eqn:E128; cbn [app].
  { rewrite plain_read by done. by rewrite drop_0, IH by lia. }
  destruct (valid_sequence c rest) eqn:Ev.
  - rewrite <- app_assoc. cbn [app]. rewrite plain_read by done. rewrite high_read.
    + rewrite IH by (rewrite length_drop; lia). done.
    + unfold valid_sequence in Ev. bool_prop. apply Forall_forall. intros d Hd. apply continuation_high.
      by eapply (proj1 (forallb_forall _ _)); [done|apply list_elem_of_In].
  - rewrite drop_0. etrans; [exact (read_u "f" "f" "f" "d" (escape_loop fuel rest ++ DQUOTE :: tail))|].
    by rewrite IH by lia.
Qed.

(** *** The first colon is the one behind the first name *)

Definition COLON : ascii := ":"%char.

Definition written_ok (c : ascii) : bool :=
  match short_escape c with
  | Some e => negb (ceqb e COLON)
  | None => negb (ceqb (kHex (Z.land (Z.shiftr (code c) 4) 15)) COLON) && negb (ceqb (kHex (Z.land (code c) 15)) COLON)
  end.

Lemma written_ok_all c : written_ok c = true.
Proof. revert c. apply byte_check. vm_compute. reflexivity. Qed.

Lemma escape_turn_no_colon c rest : COLON ∉ c :: rest → COLON ∉ (escape_turn c rest).1.
Proof.
  intros Hn. apply not_elem_of_cons in Hn as [Hc Hr]. pose proof (written_ok_all c) as Hw. unfold written_ok in Hw.
  unfold escape_turn. destruct (short_escape c) as [e|].
  { apply negb_true_iff, ceqb_ne in Hw. cbn. set_solver. }
  apply andb_prop in Hw as [H1%negb_true_iff%ceqb_ne H2%negb_true_iff%ceqb_ne].
  repeat case_if; cbn; try set_solver.
  apply not_elem_of_cons. split; [done|]. intros (i & Hi & _)%elem_of_take.
  by eapply Hr, list_elem_of_lookup_2.
Qed.

Lemma escape_no_colon fuel data : COLON ∉ data → COLON ∉ escape_loop fuel data.
Proof.
  revert data. induction fuel as [|fuel IH]; intros [|c rest] Hn; cbn [escape_loop]; try apply not_elem_of_nil.
  pose proof (escape_turn_no_colon c rest Hn) as Ht. destruct (escape_turn c rest) as [out k]. cbn in Ht.
  apply not_elem_of_app. split; [done|]. apply IH. intros Hin. apply Hn. right.
  rewrite <- (take_drop k rest). apply elem_of_app. by right.
Qed.

Definition pair_json (p : bytes * option bytes) : bytes := append_json_string p.1 ++ ":" ++ cell_json p.2.

Lemma name_skip pre name s : COLON ∉ pre → COLON ∉ name →
  find_char COLON (pre ++ append_json_string name ++ COLON :: s) = Some (length (pre ++ append_json_string name)).
Proof.
  intros Hp Hn. rewrite app_assoc. apply find_char_app. unfold append_json_string.
  rewrite !not_elem_of_app. split_and!; [done| |by apply escape_no_colon|]; by intros [=]%list_elem_of_singleton.
Qed.

Lemma drop_name pre name s :
  drop (S (length (pre ++ append_json_string name))) (pre ++ append_json_string name ++ COLON :: s) = s.
Proof.
  change (COLON :: s) with ([COLON] ++ s). rewrite !app_assoc. apply drop_app_length'.
  rewrite !length_app. cbn. lia.
Qed.

Lemma first_string_unfold fuel json : json ≠ [] →
  first_string (S fuel) json =
    match find_char COLON json with
    | None => None
    | Some colon =>
        match skip_blanks (drop (S colon) json) with
        | [] => None
        | c :: rest =>
            if negb (ceqb c DQUOTE) then
              match find_char ","%char (c :: rest) with
              | None => None
              | Some comma => first_string fuel (drop (S comma) (c :: rest))
              end
            else read_string rest
        end
    end.
Proof. by destruct json. Qed.

Lemma pair_nonempty pre name s : pre ++ append_json_string name ++ COLON :: s ≠ [].
Proof. by destruct pre. Qed.

(** A string value is returned; a null is skipped up to the next comma. *)
Lemma scan_value fuel pre name v s : COLON ∉ pre → COLON ∉ name →
  first_string (S fuel) (pre ++ append_json_string name ++ COLON :: append_json_string v ++ s) = Some (sanitize v).
Proof.
  intros Hp Hn. rewrite first_string_unfold by apply pair_nonempty. rewrite name_skip, drop_name by done.
  change (append_json_string v ++ s) with (DQUOTE :: (escape_loop (length v) v ++ [DQUOTE]) ++ s).
  change (skip_blanks (DQUOTE :: ?t)) with (DQUOTE :: t). cbn iota. rewrite ceqb_refl. cbn [negb].
  rewrite <- app_assoc. by apply read_escaped.
Qed.

Lemma scan_null fuel pre name gap s : COLON ∉ pre → COLON ∉ name → ","%char ∉ gap →
  first_string (S fuel) (pre ++ append_json_string name ++ COLON :: "null" ++ gap ++ ","%char :: s) = first_string fuel s.
Proof.
  intros Hp Hn Hg. rewrite first_string_unfold by apply pair_nonempty. rewrite name_skip, drop_name by done.
  change (skip_blanks ("null" ++ ?t)) with ("n"%char :: "u"%char :: "l"%char :: "l"%char :: t). cbn iota.
  change (ceqb "n"%char DQUOTE) with false. cbn [negb].
  change ("n"%char :: "u"%char :: "l"%char :: "l"%char :: gap ++ ","%char :: s) with (("null" ++ gap) ++ ","%char :: s).
  rewrite find_char_app by (apply not_elem_of_app; split; [by vm_compute; set_solver|done]).
  change (","%char :: s) with ([","%char] ++ s). rewrite app_assoc, drop_app_length'; [done|].
  rewrite !length_app. cbn. lia.
Qed.

Lemma scan_null_end fuel pre name gap : COLON ∉ pre → COLON ∉ name → ","%char ∉ gap →
  first_string (S fuel) (pre ++ append_json_string name ++ COLON :: "null" ++ gap) = None.
Proof.
  intros Hp Hn Hg. rewrite first_string_unfold by apply pair_nonempty. rewrite name_skip, drop_name by done.
  change (skip_blanks ("null" ++ ?t)) with ("n"%char :: "u"%char :: "l"%char :: "l"%char :: t). cbn iota.
  change (ceqb "n"%char DQUOTE) with false. cbn [negb].
  change ("n"%char :: "u"%char :: "l"%char :: "l"%char :: gap) with ("null" ++ gap).
  rewrite (proj2 (find_char_None _ _)); [done|]. apply not_elem_of_app; split; [by vm_compute; set_solver|done].
Qed.

(** *** Rows *)

(** What follows a row: another row, or the end. *)
Definition tail_of (more : option bytes) : bytes := match more with Some s => ","%char :: s | None => "]" end.

Lemma scan_row pairs pre more fuel : pairs ≠ [] → COLON ∉ pre → Forall (λ p, COLON ∉ p.1) pairs →
  (length pairs ≤ fuel)%nat →
  first_string fuel (pre ++ join_with "," (pair_json <$> pairs) ++ "}" ++ tail_of more) =
    match head (omap snd pairs) with
    | Some v => Some (sanitize v)
    | None => match more with Some s => first_string (fuel - length pairs) s | None => None end
    end.
Proof.
  intros Hne Hpre Hall. revert pre Hpre fuel. induction pairs as [|[name cell] pairs IH]; [done|].
  intros pre Hpre [|fuel] Hf; cbn [length] in Hf; [lia|]. apply Forall_cons in Hall as [Hn Hall]. cbn [fst] in Hn.
  destruct pairs as [|p pairs]; cbn [fmap list_fmap join_with]; unfold pair_json at 1; cbn [fst snd].
  - rewrite <- !app_assoc. destruct cell as [v|]; cbn [omap list_omap head cell_json]; cbn [snd].
    + by apply scan_value.
    + destruct more as [s|]; cbn [tail_of].
      * replace (S fuel - length [(name, None)])%nat with fuel by (cbn; lia).
        by apply (scan_null fuel pre name "}"); [..|vm_compute; set_solver].
      * by apply (scan_null_end fuel pre name "}]"); [..|vm_compute; set_solver].
  - rewrite <- !app_assoc. destruct cell as [v|].
    + by apply scan_value.
    + cbn [cell_json]. etrans; [by apply (scan_null fuel pre name []); [..|apply not_elem_of_nil]|].
      change (omap snd ((name, None) :: p :: pairs)) with (omap snd (p :: pairs)).
      etrans; [apply (IH ltac:(done) Hall []); [apply not_elem_of_nil|cbn in *; lia]|].
      done.
Qed.

Lemma row_json_pairs fields row : row_json fields row = "{" ++ join_with "," (pair_json <$> zip fields row) ++ "}".
Proof. unfold row_json. do 3 f_equal. revert row. induction fields as [|f fields IH]; intros [|c row]; cbn; [done..|]. by rewrite IH. Qed.

Lemma zip_cells (fields : list bytes) (row : list (option bytes)) : length row = length fields →
  omap snd (zip fields row) = omap id row.
Proof.
  revert row. induction fields as [|f fields IH]; intros [|c row] Hl; try done. injection Hl as Hl. cbn.
  rewrite (IH _ Hl). done.
Qed.

Section result.
Context (fields : list bytes).
Hypothesis fields_some : fields ≠ [].
Hypothesis fields_colon : Forall (λ f, COLON ∉ f) fields.

Lemma scan_rows rows pre fuel : rows ≠ [] → COLON ∉ pre → Forall (λ r, length r = length fields) rows →
  (length (concat rows) ≤ fuel)%nat →
  first_string fuel (pre ++ join_with "," (row_json fields <$> rows) ++ "]") = sanitize <$> head (omap id (concat rows)).
Proof.
  intros Hne Hpre Hall. revert pre Hpre fuel Hne. induction rows as [|r rows IH]; [done|]. intros pre Hpre fuel _ Hf.
  apply Forall_cons in Hall as [Hl Hall]. cbn [concat] in *. rewrite length_app in Hf.
  assert (∃ more, join_with "," (row_json fields <$> r :: rows) ++ "]" = row_json fields r ++ tail_of more ∧
    more = match rows with [] => None | _ => Some (join_with "," (row_json fields <$> rows) ++ "]") end) as (more & -> & Hm).
  { eexists. split; [|done]. destruct rows; [done|]. cbn [fmap list_fmap join_with]. by rewrite <- !app_assoc. }
  rewrite row_json_pairs, <- !app_assoc, app_assoc.
  assert (length (zip fields r) = length r) as Hz by (rewrite length_zip_with; lia).
  rewrite scan_row; [| | | |rewrite Hz; lia].
  - rewrite zip_cells, omap_app by done. destruct (omap id r) as [|v vs]; cbn [head app]; [|done].
    subst more. destruct rows as [|r2 rows]; [done|]. rewrite Hz. apply (IH Hall []); [apply not_elem_of_nil|done|lia].
  - destruct fields, r; done.
  - apply not_elem_of_app. split; [done|]. by intros [=]%list_elem_of_singleton.
  - apply Forall_forall. intros [f c] Hin%elem_of_zip_l. cbn.
    rewrite Forall_forall in fields_colon. auto.
Qed.
End result.

Lemma join_length sep ps : (sum_list (length <$> ps) ≤ length (join_with sep ps))%nat.
Proof.
  induction ps as [|p [|q ps] IH]; cbn in *; [done|lia|]. rewrite !length_app. lia.
Qed.

Lemma cells_bound fields rows : Forall (λ r, length r = length fields) rows →
  (length (concat rows) ≤ sum_list (length <$> (row_json fields <$> rows)))%nat.
Proof.
  induction 1 as [|r rows Hr Hrows IH]; [done|]. cbn [concat fmap list_fmap sum_list_with]. rewrite length_app. unfold id at 1.
  assert (length r ≤ length (row_json fields r))%nat; [|lia].
  rewrite row_json_pairs, !length_app. pose proof (join_length "," (pair_json <$> zip fields r)) as Hj.
  assert (length r ≤ sum_list (length <$> (pair_json <$> zip fields r)))%nat; [|lia].
  clear -Hr. revert r Hr. induction fields as [|f fields IH]; intros [|c r] Hr; try done; try (cbn; lia).
  injection Hr as Hr. specialize (IH r Hr). cbn [length zip zip_with fmap list_fmap sum_list_with]. unfold id at 1.
  unfold pair_json at 1, append_json_string. rewrite !length_app. cbn [length]. lia.
Qed.

(** The first string value of a query result is read back: for every result
    whose column names contain no colon, [extract_first_string_value] on its JSON
    text returns the first cell, in row order, that is not NULL, with the bytes
    that do not have the shape of UTF-8 replaced; and nothing when every cell is
    NULL or there is no row. *)
Lemma first_value_roundtrip fields rows :
  Forall (λ f, COLON ∉ f) fields → fields ≠ [] → Forall (λ r, length r = length fields) rows →
  extract_first_string_value (mysql_result_to_json fields rows) = sanitize <$> head (omap id (concat rows)).
Proof.
  intros Hc Hne Hl. unfold extract_first_string_value, mysql_result_to_json.
  destruct rows as [|r rows]; [done|]. rewrite app_assoc.
  assert (∀ fuel, (length (concat (r :: rows)) ≤ fuel)%nat →
    first_string fuel (("[" ++ join_with "," (row_json fields <$> r :: rows)) ++ "]") =
    sanitize <$> head (omap id (concat (r :: rows)))) as Hscan.
  { intros fuel Hf. rewrite <- app_assoc. apply scan_rows; try done. by intros [=]%list_elem_of_singleton. }
  apply Hscan. rewrite !length_app. pose proof (join_length "," (row_json fields <$> r :: rows)).
  pose proof (cells_bound fields (r :: rows) Hl). lia.
Qed.

Lemma first_value_roundtrip_witness :
  extract_first_string_value (mysql_result_to_json [("id" : bytes); ("name, x" : bytes)]
    [[None; Some ("a:" ++ [DQUOTE; LF; chr 255])]]) = Some ("a:" ++ [DQUOTE; LF; chr 0xEF; chr 0xBF; chr 0xBD]).
Proof.
  rewrite first_value_roundtrip; [by vm_compute| |done|by repeat constructor].
  repeat constructor; vm_compute; set_solver.
Defined.

(** *** Text is not changed *)

(** A sequence of the shape of UTF-8: an ASCII byte, or a lead byte with as many
    continuation bytes as it announces. *)
Definition shaped (s : bytes) : Prop :=
  match s with
  | [] => False
  | c :: l => if code c <? 128 then l = [] else utf8_extra (code c) = slen l ∧ Forall (λ d, is_continuation d = true) l
  end.

Lemma shaped_valid c l rest : code c <? 128 = false → shaped (c :: l) → valid_sequence c (l ++ rest) = true ∧
  Z.to_nat (utf8_extra (code c)) = length l.
Proof.
  intros Hc. cbn. rewrite Hc. intros [He Hl].
  assert (0 < utf8_extra (code c)) as Hpos.
  { unfold utf8_extra in *. pose proof (slen_nonneg l). repeat case_if; lia. }
  split; [|rewrite He; unfold slen; lia]. unfold valid_sequence. rewrite slen_app.
  replace (Z.to_nat (utf8_extra (code c))) with (length l) by (rewrite He; unfold slen; lia).
  rewrite take_app_length. pose proof (slen_nonneg rest).
  apply andb_true_intro. split; [apply andb_true_intro; split; apply Z.ltb_lt; lia|].
  apply forallb_forall. intros d Hd%list_elem_of_In. by rewrite Forall_forall in Hl; apply Hl.
Qed.

Lemma sanitize_loop_shaped l fuel : Forall shaped l → (length (concat l) ≤ fuel)%nat → sanitize_loop fuel (concat l) = concat l.
Proof.
  intros Hl. revert fuel. induction Hl as [|s l Hs Hl IH]; intros fuel Hf; [by destruct fuel|].
  destruct s as [|c s]; [done|]. cbn [concat app length] in *. destruct fuel as [|fuel]; [lia|]. cbn [sanitize_loop].
  rewrite length_app in Hf. destruct (code c <? 128) eqn:Ec.
  - cbn in Hs. rewrite Ec in Hs. subst s. cbn [app]. rewrite IH by (cbn in *; lia). done.
  - destruct (shaped_valid c s (concat l) Ec Hs) as [Hv He]. rewrite Hv, He, take_app_length, drop_app_length.
    rewrite IH by lia. done.
Qed.

Lemma sanitize_shaped l : Forall shaped l → sanitize (concat l) = concat l.
Proof. intros Hl. by apply sanitize_loop_shaped. Qed.

(** The shape is all that is tested: an overlong form, which is not UTF-8, passes. *)
Lemma overlong_passes : sanitize [chr 0xC0; chr 0x80] = [chr 0xC0; chr 0x80].
Proof. by vm_compute. Qed.

(** A colon in a column name is taken for the one behind it. *)
Lemma colon_in_name_lost : extract_first_string_value (mysql_result_to_json [("a:b" : bytes)] [[Some ("x" : bytes)]]) = None.
Proof. by vm_compute. Qed.
