(* ===== verification/MysqlPool.v ===== *)
(** * The MySQL pool (src/src/db/mysql_pool.hpp, mysql_connection.cpp)

    Queries run on worker threads that share a pool of connections; a pooled
    connection is reset before it is used again, and one that failed is closed.
    The maintenance thread closes old connections, opens missing ones and pings
    some.  The threads interleave as in [RedisPool]; the accounting of [DbPool]
    holds here too. *)

From S2P Require Import Prelude AppConfig DbPool DbJson.

(** ** Configuration *)

Definition validate_mysql (cfg : MysqlConfig) : outcome MysqlConfig :=
  if beqb (my_host cfg) [] then Throw "mysql.host cannot be empty"
  else if (my_port cfg <=? 0) || (65535 <? my_port cfg) then Throw "mysql.port out of range"
  else
    let max_size := if my_max_size cfg =? 0 then 1 else my_max_size cfg in
    let positive v def := if v <=? 0 then def else v in
    Ret (mkMysql (my_host cfg) (my_port cfg) (my_user cfg) (my_pass cfg) (my_db cfg)
      (if max_size <? my_min_size cfg then max_size else my_min_size cfg) max_size
      (positive (my_max_idle_sec cfg) 60) (positive (my_connect_timeout_ms cfg) 1000) (my_read_timeout_ms cfg)
      (positive (my_query_timeout_ms cfg) 30000) (positive (my_acquire_timeout_ms cfg) 3000)
      (positive (my_keepalive_sec cfg) 30)
      (if my_worker_threads cfg =? 0 then 1 else my_worker_threads cfg) (my_max_creating cfg)).

Definition mysql_creating_limit (cfg : MysqlConfig) : Z :=
  compute_max_creating_limit (my_max_creating cfg) (my_max_size cfg) (my_worker_threads cfg).

(** The timeouts of a connection, in whole seconds. *)
Definition connect_timeout_sec (connect_timeout_ms : Z) : Z :=
  let s := connect_timeout_ms ÷ 1000 in if s <? 1 then 1 else s.
Definition read_timeout_sec (query_timeout_ms : Z) : Z :=
  let s := (query_timeout_ms + 999) ÷ 1000 in if s <? 1 then 1 else s.

(** ** Queries *)

Record Result := mkResult { res_ok : bool; res_error : bytes; res_json : bytes }.

(** [mysql_errno]: the errors that say the connection is gone, and the others. *)
Inductive mysql_errno := CR_SERVER_GONE_ERROR | CR_SERVER_LOST | CR_CONNECTION_ERROR | CR_CONN_HOST_ERROR | OtherErrno.

Definition is_connection_error (err : mysql_errno) : bool :=
  match err with
  | CR_SERVER_GONE_ERROR | CR_SERVER_LOST | CR_CONNECTION_ERROR | CR_CONN_HOST_ERROR => true
  | OtherErrno => false
  end.

(** What the client library answers to a query: an error of [mysql_query], no
    result set with or without fields expected, or a result set. *)
Inductive query_answer :=
| QueryError (err_no : mysql_errno) (err : bytes)
| NoResult (field_count : Z) (err_no : mysql_errno) (err : bytes)
| ResultSet (fields : list bytes) (rows : list (list (option bytes))).

(** The result, and whether the guard was marked bad. *)
Definition query_result (a : query_answer) : Result * bool :=
  match a with
  | QueryError err_no err => (mkResult false err [], is_connection_error err_no)
  | NoResult field_count err_no err =>
      if negb (field_count =? 0) then (mkResult false err [], is_connection_error err_no)
      else (mkResult true [] "[]", false)
  | ResultSet fields rows => (mkResult true [] (mysql_result_to_json fields rows), false)
  end.

(** ** Threads *)

Inductive worker_pc :=
| QOut (result : option Result)
| QLock (retry : nat)
| QSection (retry : nat)                          (* holds the mutex, running_ was set *)
| QWait (retry : nat) (woken : bool)
| QReset (retry conn : nat)                       (* mysql_reset_connection *)
| QResetDrop (retry conn : nat)
| QResetDropped (retry : nat)
| QCreate (retry : nat)
| QCreated (retry : nat) (conn : option nat)
| QHeld (conn : nat)
| QRelease (conn : nat) (r : Result)
| QClose (conn : nat) (r : Result)
| QNotify (r : Result)
| QDrop (conn : nat) (r : Result)                 (* drop_bad_connection *)
| QDropped (r : Result).

Inductive maintain_pc :=
| MLoop
| MLock
| MSection                                        (* holds the mutex, the predicate was false *)
| MWait (woken : bool)
| MTest                                           (* if (!running_) break *)
| MReclaim
| MClose (conns : list nat)
| MRefillTest
| MRefill
| MMake (i need : nat) (conns : list nat)
| MMaking (i need : nat) (conns : list nat)
| MPool (need : nat) (conns : list nat)
| MCheckTest
| MTake
| MPing (l : list nat) (dead : nat)
| MPinging (conn : nat) (l : list nat) (dead : nat)
| MPush (conn : nat) (l : list nat) (dead : nat)
| MPingClose (conn : nat) (l : list nat) (dead : nat)
| MAbandon (l : list nat) (dead : nat)
| MDead (dead : nat)
| MExit.

Inductive mysql_pc := W (p : worker_pc) | M (p : maintain_pc).

Inductive mysql_event :=
| EvRun
| EvCall
| EvWake                                          (* notified, or a spurious wake-up *)
| EvTimeout
| EvConnect (ok : bool)
| EvReset (ok : bool)
| EvQuery (answer : query_answer)
| EvPush (now : Z) (ok : bool)                    (* whether the deque could grow *)
| EvClock (now : Z)
| EvClocks (now : nat → Z)                        (* the clock at every push *)
| EvPing (ok : bool).

Definition with_mutex {A} (g : DbPool) (k : A) : option A := if db_locked g then None else Some k.

Section machine.
Context (cfg : MysqlConfig).

Definition no_connection : Result := mkResult false "no available connection" [].
Definition pool_stopped : Result := mkResult false "mysql pool stopped" [].

(** [idle_pool_.back()] and [pop_back()] *)
Definition pop_back (l : list IdleConn) : option (nat * list IdleConn) :=
  match last l with Some x => Some (ic_conn x, take (length l - 1) l) | None => None end.

(** [acquire] *)
Definition acquire_step (ev : mysql_event) (g : DbPool) (p : worker_pc) : option (DbPool * worker_pc * notify) :=
  match p, ev with
  | QLock retry, EvRun =>
      if (retry <? 2)%nat then
        with_mutex g (if db_running g then (set_locked true g, QSection retry, Quiet)
                      else (g, QOut (Some no_connection), Quiet))
      else Some (g, QOut (Some no_connection), Quiet)
  | QSection retry, EvRun =>
      let g := set_locked false g in
      match pop_back (idle_pool g) with
      | Some (conn, rest) => Some (set_idle rest g, QReset retry conn, Quiet)
      | None =>
          if (db_total g <? my_max_size cfg) && (db_creating g <? mysql_creating_limit cfg)
          then Some (add_creating 1 (add_total 1 g), QCreate retry, Quiet)
          else Some (g, QWait retry false, Quiet)
      end
  | QWait retry _, EvWake => Some (g, QLock retry, Quiet)
  | QWait retry _, EvTimeout => with_mutex g (g, QOut (Some no_connection), Quiet)
  | QReset retry conn, EvReset ok => Some (g, if ok then QHeld conn else QResetDrop retry conn, Quiet)
  | QResetDrop retry conn, EvRun => Some (close_conn conn g, QResetDropped retry, Quiet)
  | QResetDropped retry, EvRun => with_mutex g (add_total (-1) g, QLock (S retry), NotifyAll)
  | QCreate retry, EvConnect ok =>
      Some (if ok then (open_conn g, QCreated retry (Some (db_opened g)), Quiet) else (g, QCreated retry None, Quiet))
  | QCreated retry (Some conn), EvRun => with_mutex g (add_creating (-1) g, QHeld conn, Quiet)
  | QCreated retry None, EvRun => with_mutex g (add_total (-1) (add_creating (-1) g), QLock (S retry), NotifyAll)
  | _, _ => None
  end.

(** [release] and [drop_bad_connection] *)
Definition release_step (ev : mysql_event) (g : DbPool) (p : worker_pc) : option (DbPool * worker_pc * notify) :=
  match p, ev with
  | QRelease conn r, EvPush now ok =>
      with_mutex g (if ok then (set_idle (idle_pool g ++ [mkIdle conn now]) g, QNotify r, Quiet)
                    else (if 0 <? db_total g then add_total (-1) g else g, QClose conn r, Quiet))
  | QClose conn r, EvRun => Some (close_conn conn g, QNotify r, Quiet)
  | QNotify r, EvRun => Some (g, QOut (Some r), NotifyOne)
  | QDrop conn r, EvRun => Some (close_conn conn g, QDropped r, Quiet)
  | QDropped r, EvRun => with_mutex g (add_total (-1) g, QOut (Some r), NotifyAll)
  | _, _ => None
  end.

(** [execute] and [do_query] *)
Definition worker_step (ev : mysql_event) (g : DbPool) (p : worker_pc) : option (DbPool * worker_pc * notify) :=
  match p, ev with
  | QOut _, EvCall => Some (g, if db_running g then QLock 0 else QOut (Some pool_stopped), Quiet)
  | QHeld conn, EvQuery a =>
      let '(r, bad) := query_result a in Some (g, if bad then QDrop conn r else QRelease conn r, Quiet)
  | QRelease _ _, _ | QClose _ _, _ | QNotify _, _ | QDrop _ _, _ | QDropped _, _ => release_step ev g p
  | _, _ => acquire_step ev g p
  end.

(** The first loop of [do_maintain]: what is closed, what stays, the new total. *)
Fixpoint reclaim (now : Z) (l : list IdleConn) (total : Z) : list nat * list IdleConn * Z :=
  match l with
  | [] => ([], [], total)
  | x :: rest =>
      if my_min_size cfg <? total then
        if (now - ic_last_used_at x) ÷ 10 ^ 9 <? my_max_idle_sec cfg then ([], l, total)
        else let '(closing, kept, total) := reclaim now rest (wrap64 (total - 1)) in (ic_conn x :: closing, kept, total)
      else ([], l, total)
  end.

Definition refill_need (g : DbPool) : Z :=
  if idle_size g <? my_min_size cfg then
    let headroom := if my_max_size cfg <? db_total g then 0 else my_max_size cfg - db_total g in
    Z.min (my_min_size cfg - idle_size g) headroom
  else 0.

Definition max_check : nat := 4.

(** [maintain_loop] *)
Definition loop_step (ev : mysql_event) (g : DbPool) (p : maintain_pc) : option (DbPool * maintain_pc * notify) :=
  match p, ev with
  | MLoop, EvRun => Some (g, if db_running g then MLock else MExit, Quiet)
  | MLock, EvRun =>
      with_mutex g (if db_running g then (set_locked true g, MSection, Quiet) else (g, MTest, Quiet))
  | MSection, EvRun => Some (set_locked false g, MWait false, Quiet)
  | MWait _, EvWake => Some (g, MLock, Quiet)
  | MWait _, EvTimeout => with_mutex g (g, MTest, Quiet)
  | MTest, EvRun => Some (g, if db_running g then MReclaim else MExit, Quiet)
  | _, _ => None
  end.

(** Phases 1 and 2 of [do_maintain]. *)
Definition refill_step (ev : mysql_event) (g : DbPool) (p : maintain_pc) : option (DbPool * maintain_pc * notify) :=
  match p, ev with
  | MReclaim, EvClock now =>
      let '(closing, kept, total) := reclaim now (idle_pool g) (db_total g) in
      with_mutex g (mkDb (db_running g) (db_locked g) kept total (db_creating g) (db_closed g) (db_opened g),
                    MClose closing, NotifyAll)
  | MClose (c :: conns), EvRun => Some (close_conn c g, MClose conns, Quiet)
  | MClose [], EvRun => Some (g, MRefillTest, Quiet)
  | MRefillTest, EvRun => Some (g, if db_running g then MRefill else MLoop, Quiet)
  | MRefill, EvRun =>
      let need := refill_need g in with_mutex g (add_total need g, MMake 0 (Z.to_nat need) [], Quiet)
  | MMake i need conns, EvRun =>
      Some (g, if (i <? need)%nat && db_running g then MMaking i need conns else MPool need conns, Quiet)
  | MMaking i need conns, EvConnect ok =>
      Some (if ok then (open_conn g, MMake (S i) need (conns ++ [db_opened g]), Quiet)
            else (g, MMake (S i) need conns, Quiet))
  | MPool need conns, EvClocks now =>
      let unused := Z.of_nat need - Z.of_nat (length conns) in
      let g' := if 0 <? unused then add_total (- unused) g else g in
      with_mutex g (set_idle (idle_pool g' ++ imap (λ i c, mkIdle c (now i)) conns) g', MCheckTest, NotifyAll)
  | MCheckTest, EvRun => Some (g, if db_running g then MTake else MLoop, Quiet)
  | _, _ => None
  end.

(** Phase 3. *)
Definition check_step (ev : mysql_event) (g : DbPool) (p : maintain_pc) : option (DbPool * maintain_pc * notify) :=
  match p, ev with
  | MTake, EvRun =>
      with_mutex g (set_idle (drop max_check (idle_pool g)) g, MPing (ic_conn <$> take max_check (idle_pool g)) 0, Quiet)
  | MPing [] dead, EvRun => Some (g, MDead dead, Quiet)
  | MPing (c :: l) dead, EvRun => Some (g, if db_running g then MPinging c l dead else MAbandon (c :: l) dead, Quiet)
  | MPinging c l dead, EvPing ok => Some (g, if ok then MPush c l dead else MPingClose c l dead, Quiet)
  | MPush c l dead, EvClock now => with_mutex g (set_idle (idle_pool g ++ [mkIdle c now]) g, MPing l dead, Quiet)
  | MPingClose c l dead, EvRun => Some (close_conn c g, MPing l (S dead), Quiet)
  | MAbandon (c :: l) dead, EvRun => Some (close_conn c g, MAbandon l (S dead), Quiet)
  | MAbandon [] dead, EvRun => Some (g, MDead dead, Quiet)
  | MDead dead, EvRun =>
      if (0 <? dead)%nat then with_mutex g (add_total (- Z.of_nat dead) g, MLoop, NotifyAll) else Some (g, MLoop, Quiet)
  | _, _ => None
  end.

Definition maintain_step (ev : mysql_event) (g : DbPool) (p : maintain_pc) : option (DbPool * maintain_pc * notify) :=
  match loop_step ev g p with
  | Some r => Some r
  | None => match refill_step ev g p with Some r => Some r | None => check_step ev g p end
  end.

Definition mysql_step (ev : mysql_event) (g : DbPool) (p : mysql_pc) : option (DbPool * mysql_pc * notify) :=
  match p with
  | W p => '(g, p, n) ← worker_step ev g p; Some (g, W p, n)
  | M p => '(g, p, n) ← maintain_step ev g p; Some (g, M p, n)
  end.
End machine.

(** ** Accounting *)

Definition worker_slots (p : worker_pc) : Z :=
  match p with
  | QReset _ _ | QResetDrop _ _ | QResetDropped _ | QCreate _ | QCreated _ _ | QHeld _ | QRelease _ _
  | QDrop _ _ | QDropped _ => 1
  | _ => 0
  end.

Definition worker_making (p : worker_pc) : Z := match p with QCreate _ | QCreated _ _ => 1 | _ => 0 end.

Definition worker_owned (p : worker_pc) : list nat :=
  match p with
  | QReset _ c | QResetDrop _ c | QCreated _ (Some c) | QHeld c | QRelease c _ | QClose c _ | QDrop c _ => [c]
  | _ => []
  end.

Definition maintain_slots (p : maintain_pc) : Z :=
  match p with
  | MMake _ need _ | MMaking _ need _ | MPool need _ => Z.of_nat need
  | MPing l dead | MAbandon l dead => Z.of_nat (length l) + Z.of_nat dead
  | MPinging _ l dead | MPush _ l dead | MPingClose _ l dead => 1 + Z.of_nat (length l) + Z.of_nat dead
  | MDead dead => Z.of_nat dead
  | _ => 0
  end.

Definition maintain_owned (p : maintain_pc) : list nat :=
  match p with
  | MClose l | MMake _ _ l | MMaking _ _ l | MPool _ l | MPing l _ | MAbandon l _ => l
  | MPinging c l _ | MPush c l _ | MPingClose c l _ => c :: l
  | _ => []
  end.

Definition maintain_ok (p : maintain_pc) : Prop :=
  match p with
  | MMake i need conns => (length conns ≤ i)%nat ∧ (i ≤ need)%nat
  | MMaking i need conns => (length conns ≤ i)%nat ∧ (i < need)%nat
  | MPool need conns => (length conns ≤ need)%nat
  | _ => True
  end.

Section accounting.
Context (cfg : MysqlConfig).
Hypothesis min_size_nonneg : 0 ≤ my_min_size cfg.

Definition mysql_slots (p : mysql_pc) : Z := match p with W p => worker_slots p | M p => maintain_slots p end.
Definition mysql_making (p : mysql_pc) : Z := match p with W p => worker_making p | M _ => 0 end.
Definition mysql_owned (p : mysql_pc) : list nat := match p with W p => worker_owned p | M p => maintain_owned p end.
Definition mysql_waiting (p : mysql_pc) : bool :=
  match p with W (QWait _ false) | M (MWait false) => true | _ => false end.
Definition mysql_wake (p : mysql_pc) : mysql_pc :=
  match p with W (QWait retry _) => W (QWait retry true) | M (MWait _) => M (MWait true) | p => p end.
Definition mysql_rest (p : mysql_pc) : bool := match p with W (QOut _) | M MExit => true | _ => false end.

#[export] Instance mysql_thread : DbThread mysql_event mysql_pc := {
  dt_max := my_max_size cfg;
  dt_limit := mysql_creating_limit cfg;
  dt_step := mysql_step cfg;
  dt_slots := mysql_slots;
  dt_making := mysql_making;
  dt_owned := mysql_owned;
  dt_waiting := mysql_waiting;
  dt_wake := mysql_wake;
  dt_rest := mysql_rest;
  dt_ok := λ p, match p with W _ => True | M p => maintain_ok p end
}.

Lemma pop_back_spec l conn rest : pop_back l = Some (conn, rest) → ∃ x, l = rest ++ [x] ∧ ic_conn x = conn.
Proof.
  unfold pop_back. destruct (last l) as [x|] eqn:E; [|done]. intros [= <- <-].
  apply last_Some in E as [l' ->]. exists x. split; [|done]. rewrite length_app. cbn [length].
  replace (length l' + 1 - 1)%nat with (length l') by lia. by rewrite take_app_length.
Qed.

Lemma pop_accounts g retry conn rest : pop_back (idle_pool g) = Some (conn, rest) → fits g (W (QSection retry)) →
  accounts g (W (QSection retry)) (set_idle rest (set_locked false g)) (W (QReset retry conn)).
Proof.
  intros (x & Hx & <-)%pop_back_spec Hf. account; rewrite Hx; autorewrite with db_pool; cbn; lia.
Qed.

Lemma query_accounts ev g p g' p' n : worker_step cfg ev g p = Some (g', p', n) → fits g (W p) →
  accounts g (W p) g' (W p').
Proof.
  intros Hs Hf. destruct p, ev; cbn [worker_step acquire_step release_step] in Hs; try done;
    try (destruct (pop_back _) as [[conn rest]|] eqn:Ep; [simplify_eq; by apply pop_accounts|]; clear Ep);
    unfold with_mutex in Hs; simplify_eq/=; repeat (case_match; simplify_eq/=); bool_prop; account.
Qed.

Lemma reclaim_spec now l t closing kept t' : reclaim cfg now l t = (closing, kept, t') → 0 ≤ t ≤ SIZE_MAX →
  ic_conn <$> l = closing ++ (ic_conn <$> kept) ∧ t' = t - Z.of_nat (length closing) ∧ 0 ≤ t'.
Proof.
  revert t closing. induction l as [|x l IH]; intros t closing; cbn [reclaim]; [intros [= <- <- <-] Ht; split_and!; cbn; (done || lia)|].
  case_if; [case_if|]; try (intros [= <- <- <-] Ht; split_and!; cbn; (done || lia)).
  destruct (reclaim cfg now l _) as [[cl k] t1] eqn:E. intros [= <- <- <-] Ht. bool_prop.
  rewrite wrap64_small in E by lia. apply IH in E as (Hc & -> & Hnn); [|lia]. cbn. split; [by f_equal|]. lia.
Qed.

Lemma mysql_reclaim_accounts g b now closing kept t : reclaim cfg now (idle_pool g) (db_total g) = (closing, kept, t) →
  fits g (M MReclaim) →
  accounts g (M MReclaim) (mkDb (db_running g) b kept t (db_creating g) (db_closed g) (db_opened g))
    (M (MClose closing)).
Proof.
  intros Hc Hf. apply reclaim_spec in Hc as (Hc & -> & Hnn); [|destruct Hf; cbn in *; lia].
  pose proof (f_equal length Hc) as Hl. rewrite length_app, !length_fmap in Hl. account. rewrite Hc, occ_app. lia.
Qed.

Lemma mysql_need_range g : 0 ≤ db_total g ≤ my_max_size cfg →
  0 ≤ refill_need cfg g ∧ db_total g + refill_need cfg g ≤ my_max_size cfg.
Proof. intros Hm. unfold refill_need. repeat case_if; bool_prop; lia. Qed.

Lemma imap_conns (now : nat → Z) conns : ic_conn <$> imap (λ i c, mkIdle c (now i)) conns = conns.
Proof.
  rewrite fmap_imap. apply list_eq. intros i. rewrite list_lookup_imap. by destruct (conns !! i).
Qed.

Lemma mysql_pool_accounts g need conns now : fits g (M (MPool need conns)) →
  accounts g (M (MPool need conns))
    (let unused := Z.of_nat need - Z.of_nat (length conns) in
     let g' := if 0 <? unused then add_total (- unused) g else g in
     set_idle (idle_pool g' ++ imap (λ i c, mkIdle c (now i)) conns) g') (M MCheckTest).
Proof.
  intros Hf. cbn zeta. case_if; bool_prop; account; rewrite ?length_imap, ?imap_conns; lia.
Qed.

Lemma mysql_loop_accounts ev g p g' p' n : loop_step ev g p = Some (g', p', n) → fits g (M p) → accounts g (M p) g' (M p').
Proof.
  intros Hs Hf. destruct p, ev; cbn in Hs; try done; unfold with_mutex in Hs; simplify_eq/=;
    repeat (case_match; simplify_eq/=); account.
Qed.

Lemma mysql_refill_accounts ev g p g' p' n : refill_step cfg ev g p = Some (g', p', n) → fits g (M p) →
  accounts g (M p) g' (M p').
Proof.
  intros Hs Hf. destruct p, ev; cbn [refill_step] in Hs; try done; try (by destruct conns);
    unfold with_mutex in Hs; simplify_eq/=.
  - destruct (reclaim _ _ _ _) as [[cl k] t] eqn:E. case_match; simplify_eq. by eapply mysql_reclaim_accounts.
  - case_match; simplify_eq; account.
  - case_match; simplify_eq; account.
  - pose proof (mysql_need_range g (fit_total _ _ Hf)) as Hn. case_match; simplify_eq; account.
  - destruct (i <? need)%nat eqn:E; [apply Nat.ltb_lt in E|]; case_match; account.
  - case_match; simplify_eq; account.
  - destruct (db_locked g); [done|]. injection Hs as <- <- <-. by apply mysql_pool_accounts.
  - case_match; simplify_eq; account.
Qed.

Lemma mysql_take_accounts g k : fits g (M MTake) →
  accounts g (M MTake) (set_idle (drop k (idle_pool g)) g) (M (MPing (ic_conn <$> take k (idle_pool g)) 0)).
Proof.
  intros Hf. account. rewrite <- (take_drop k (idle_pool g)) at 3. rewrite fmap_app, occ_app. lia.
Qed.

Lemma mysql_check_accounts ev g p g' p' n : check_step ev g p = Some (g', p', n) → fits g (M p) →
  accounts g (M p) g' (M p').
Proof.
  intros Hs Hf. destruct p, ev; cbn [check_step] in Hs; try done; try (by destruct l);
    unfold with_mutex in Hs; simplify_eq/=.
  - case_match; simplify_eq. by apply mysql_take_accounts.
  - repeat (case_match; simplify_eq/=); account.
  - case_match; simplify_eq; account.
  - repeat (case_match; simplify_eq/=); account.
  - account.
  - case_match; simplify_eq; account.
  - destruct dead as [|dead]; repeat (case_match; simplify_eq/=); account.
Qed.

Lemma mysql_maintain_accounts ev g p g' p' n : maintain_step cfg ev g p = Some (g', p', n) → fits g (M p) →
  accounts g (M p) g' (M p').
Proof.
  unfold maintain_step. intros Hs Hf.
  destruct (loop_step ev g p) as [r|] eqn:E1; [injection Hs as ->; by eapply mysql_loop_accounts|].
  destruct (refill_step cfg ev g p) as [r|] eqn:E2; [injection Hs as ->; by eapply mysql_refill_accounts|].
  by eapply mysql_check_accounts.
Qed.

Lemma mysql_laws : DbLaws mysql_event mysql_pc.
Proof.
  split; cbn.
  - intros [[]|[]]; cbn; lia.
  - intros [[]|p]; cbn; lia.
  - intros ev g p g' p' n Hs Hf. destruct p as [p|p]; cbn in Hs; apply bind_Some in Hs as ([[g1 p1] n1] & Hs & Hr);
      simplify_eq/=; [by eapply query_accounts|by eapply mysql_maintain_accounts].
  - by intros [[]|[]].
  - by intros [[]|[]].
  - by intros [[]|[]].
  - by intros [[]|[]].
  - by intros [[]|[]].
  - by intros [[]|[]].
  - intros ev g p g' p' n Hs Hr Hrun. destruct p as [[]|[]]; try done; cbn in Hs; destruct ev; try done.
    cbn in Hs. rewrite Hrun in Hs. by simplify_eq/=.
Qed.
End accounting.

(** ** Start *)

(** One turn of the loop of the constructor: did the connect succeed, the clock. *)
Definition init_conn (answer : bool * Z) (g : DbPool) : DbPool :=
  let '(connected, now) := answer in
  if connected then add_total 1 (set_idle (idle_pool g ++ [mkIdle (db_opened g) now]) (open_conn g)) else g.

Fixpoint init_loop (n : nat) (answers : nat → bool * Z) (g : DbPool) : DbPool :=
  match n with O => g | S n => init_conn (answers n) (init_loop n answers g) end.

Definition new_mysql_pool (cfg : MysqlConfig) (answers : nat → bool * Z) : DbPool :=
  init_loop (Z.to_nat (my_min_size cfg)) answers db0.

Definition mysql_threads (workers : nat) : list mysql_pc := replicate workers (W (QOut None)) ++ [M MLoop].

Lemma mysql_init_filled answer n g : Z.of_nat n < SIZE_MAX → db_filled n g → db_filled (S n) (init_conn answer g).
Proof.
  intros Hn Hf. destruct answer as [[] now]; cbn; [by apply filled_push|by apply filled_skip].
Qed.

Lemma mysql_loop_filled n answers : Z.of_nat n ≤ SIZE_MAX → db_filled n (init_loop n answers db0).
Proof.
  induction n as [|n IH]; intros Hn; cbn; [apply db_filled_start|]. apply mysql_init_filled; [lia|]. apply IH. lia.
Qed.

Lemma validate_mysql_sizes cfg0 cfg : validate_mysql cfg0 = Ret cfg → 0 ≤ my_max_size cfg0 < SIZE_MAX → 0 ≤ my_min_size cfg0 →
  1 ≤ my_max_size cfg < SIZE_MAX ∧ 0 ≤ my_min_size cfg ≤ my_max_size cfg.
Proof.
  unfold validate_mysql. intros Hv Hs Hm. destruct (beqb _ _); [done|]. destruct (_ || _); [done|].
  injection Hv as <-. cbn. repeat case_if; bool_prop; unfold SIZE_MAX in *; lia.
Qed.

(** The MySQL pool never loses or shares a connection: for every accepted
    configuration, whatever connects at start-up and whatever the interleaving of
    queries, maintenance and shutdown, and whichever library call fails, the
    number of connections stays within [max_size] and of concurrent connects
    within its limit, no counter wraps, a connection is reached by one thread at a
    time, is not idle or closed while it is used and is closed at most once; when
    the threads are at rest the count is the number of idle connections; and after
    shutdown every connection ever opened is closed. *)
Lemma mysql_pool_conserves cfg0 cfg answers workers s :
  validate_mysql cfg0 = Ret cfg → 0 ≤ my_max_size cfg0 < SIZE_MAX → 0 ≤ my_min_size cfg0 →
  rtc (db_step (H := mysql_thread cfg)) (new_mysql_pool cfg answers, mysql_threads workers, SdRunning) s →
  db_sound (H := mysql_thread cfg) s.
Proof.
  intros Hv Hs Hmin Hr. destruct (validate_mysql_sizes _ _ Hv Hs Hmin) as [Hmax Hm].
  pose proof (mysql_laws cfg (proj1 Hm)) as Hlaws.
  apply (inv_sound (H := mysql_thread cfg)). eapply (db_inv_reachable (H := mysql_thread cfg)); [|exact Hr].
  apply (filled_inv (H := mysql_thread cfg) (Z.to_nat (my_min_size cfg))); cbn.
  - apply mysql_loop_filled. lia.
  - apply Forall_app. split; [apply Forall_replicate|apply Forall_singleton]; by split_and!.
  - lia.
  - by apply creating_limit_range.
Qed.

(** *** A run *)

Definition small_mysql : MysqlConfig :=
  mkMysql "db" 3306 "root" [] "test" 1 2 60 1000 500 30000 3000 30 1 0.

Definition on (i : nat) (ev : mysql_event) : @move mysql_event := (i, ev, 9%nat).

(** A query takes the idle connection, its reset fails, it opens another one, and
    the server goes away. *)
Definition broken_query : list (@move mysql_event) :=
  [on 0 EvCall; on 0 EvRun; on 0 EvRun; on 0 (EvReset false); on 0 EvRun; on 0 EvRun;
   on 0 EvRun; on 0 EvRun; on 0 (EvConnect true); on 0 EvRun;
   on 0 (EvQuery (QueryError CR_SERVER_LOST "lost")); on 0 EvRun; on 0 EvRun].

Lemma mysql_pool_conserves_witness :
  validate_mysql small_mysql = Ret small_mysql ∧
  db_sound (H := mysql_thread small_mysql)
    (mkDb true false [] 0 0 [1; 0]%nat 2, [W (QOut (Some (mkResult false "lost" []))); M MLoop], SdRunning).
Proof.
  split; [by vm_compute|].
  apply (mysql_pool_conserves small_mysql small_mysql (λ _, (true, 5)) 1); [by vm_compute..|].
  apply (run_sound (H := mysql_thread small_mysql) broken_query). by vm_compute.
Defined.

(** The comment in [maintain_loop] says that shutdown wakes the thread at once;
    [running_] is cleared and the notification sent without the mutex, so both can
    fall between the thread's test and its wait. *)
Lemma shutdown_wakeup_missed :
  ∃ g, rtc (db_step (H := mysql_thread small_mysql))
      (new_mysql_pool small_mysql (λ _, (true, 5)), mysql_threads 0, SdRunning) (g, [M (MWait false)], SdJoin) ∧
    db_running g = false.
Proof.
  eexists. split.
  - etrans; [apply (run_sound (H := mysql_thread small_mysql) [on 0 EvRun; on 0 EvRun]); vm_compute; reflexivity|].
    eapply rtc_l; [apply db_stop|]. eapply rtc_l; [apply db_stop_notify|].
    apply (run_sound (H := mysql_thread small_mysql) [on 0 EvRun]). vm_compute. reflexivity.
  - done.
Qed.

(** A connection that failed is not pooled, and an error of the query alone does
    not cost the connection. *)
Lemma query_result_pools a : (query_result a).2 = true →
  ∃ err_no err, is_connection_error err_no = true ∧ (query_result a).1 = mkResult false err [].
Proof.
  destruct a as [e t|n e t|f r]; cbn; [eauto| |done]. case_if; cbn; [eauto|done].
Qed.
