(* ===== verification/PoolStats.v ===== *)
(** * Statistics of the database pools (src/src/db/redis_pool_stats.cpp,
      mysql_pool_stats.cpp, redis_pool.hpp, mysql_pool.hpp)

    The counters of the two pools, the commands and queries that move them and the
    text the routes print.  A command is followed with the answers of the pool and
    of the client library as its environment; what it increments is the list of
    the calls on the statistics, in order.  The lemmas say what the counters count
    and that the text gives every counter back. *)

From S2P Require Import Prelude HttpProtocol HttpPool AppConfig DbPool DbJson RedisPool MysqlPool.

(** ** Counters *)

(** A method of the statistics. *)
Class CounterKey (K : Type) := counter_dec :: EqDecision K.

Section counters.
Context `{CounterKey K}.

(** The counters, all atomic [uint64_t]; an increment names the counter and the
    amount. *)
Definition counters : Type := K → Z.

Definition counters0 : counters := λ _, 0.

Definition fetch_add (c : counters) (inc : K * Z) : counters :=
  λ k, if bool_decide (k = inc.1) then wrap64 (c k + inc.2) else c k.

Definition apply_incs (c : counters) (incs : list (K * Z)) : counters := foldl fetch_add c incs.

(** How much a list of increments adds to one counter. *)
Definition amount (k : K) (incs : list (K * Z)) : Z := total (λ i, if bool_decide (i.1 = k) then i.2 else 0) incs.

Lemma wrap64_add a b : wrap64 (wrap64 a + b) = wrap64 (a + b).
Proof. unfold wrap64. by rewrite Zplus_mod_idemp_l. Qed.

Lemma amount_cons k i incs : amount k (i :: incs) = (if bool_decide (i.1 = k) then i.2 else 0) + amount k incs.
Proof. done. Qed.

Lemma amount_app k l1 l2 : amount k (l1 ++ l2) = amount k l1 + amount k l2.
Proof. induction l1 as [|i l1 IH]; [done|]. cbn [app]. rewrite !amount_cons, IH. lia. Qed.

(** A counter holds what was added to it, modulo 2^64. *)
Lemma apply_incs_amount incs k : apply_incs counters0 incs k = wrap64 (amount k incs).
Proof.
  assert (∀ c n, c k = wrap64 n → apply_incs c incs k = wrap64 (n + amount k incs)) as Hgen.
  { induction incs as [|i incs IH]; intros c n Hc; [cbn; by rewrite Z.add_0_r|].
    cbn [apply_incs foldl]. rewrite amount_cons, Z.add_assoc. apply IH. unfold fetch_add.
    destruct (decide (k = i.1)) as [->|Hk]; [rewrite !bool_decide_true by done; by rewrite Hc, wrap64_add|].
    rewrite !bool_decide_false by done. by rewrite Z.add_0_r. }
  by rewrite (Hgen counters0 0).
Qed.
Lemma amount_nil k : amount k [] = 0.
Proof. done. Qed.
End counters.

Arguments amount {K H} k incs : simpl never.

(** Settle the comparisons of two counters by their names. *)
Ltac tally :=
  cbn in *; rewrite ?amount_app, ?amount_cons, ?amount_nil in *; cbn in *;
  repeat match goal with
  | |- context [bool_decide (?x = ?x)] => rewrite (bool_decide_true (x = x)) by done
  | |- context [bool_decide (?x = ?y)] => rewrite (bool_decide_false (x = y)) by done
  | H : context [bool_decide (?x = ?x)] |- _ => rewrite (bool_decide_true (x = x)) in H by done
  | H : context [bool_decide (?x = ?y)] |- _ => rewrite (bool_decide_false (x = y)) in H by done
  end; cbn in *.

(** ** Redis *)

Module RedisStats.

Inductive stat :=
| reconnect | cmd_ok | cmd_fail | nil_reply | timeout | connect_ok | connect_fail | acquire_wait | acquire_timeout
| acquire_retry_exhausted | idle_recycled | ping_fail.

#[global] Instance stat_counter : CounterKey stat.
Proof. intros x y. solve_decision. Defined.

Abbreviation incs := (list (stat * Z)).

(** [record_command_result] *)
Definition record_command_result (r : RedisReplyData) : incs :=
  if rd_ok r then (cmd_ok, 1) :: (if beqb (rd_type r) "nil" then [(nil_reply, 1)] else [])
  else [(cmd_fail, 1)].

(** A failed command: whether [ctx->err] is set, whether it is [REDIS_ERR_IO],
    its text, and whether [errno] is one of ETIMEDOUT, EAGAIN and EWOULDBLOCK. *)
Record failure := mkFailure { fl_err : bool; fl_io : bool; fl_errstr : bytes; fl_errno_timeout : bool }.

(** [fill_error_if_empty]: the failure with its text filled in. *)
Definition fill_error_if_empty (f : failure) : failure :=
  if fl_err f then f
  else mkFailure true true "redisCommand returned nullptr (OOM or disconnect)" (fl_errno_timeout f).

Definition says_timeout (err : bytes) : bool :=
  contains_str "timeout" err || contains_str "Timeout" err || contains_str "timed out" err.

Definition timeout_incs (f : failure) : incs :=
  if fl_io f && fl_errno_timeout f then [(timeout, 1)] else if says_timeout (fl_errstr f) then [(timeout, 1)] else [].

Definition record_command_failure (f : failure) : incs := (cmd_fail, 1) :: timeout_incs f.

(** What one attempt meets: the calls on the statistics while a connection is
    acquired (creation, waits, a reconnect of direct mode), whether there is one,
    the answer, and whether the pool still runs after a failure. *)
Record attempt := mkAttempt {
  at_acquire : incs;
  at_conn : bool;
  at_answer : failure + redisReply;
  at_running : bool
}.

(** The loop of [cmd_argv_sync_impl] with [n] attempts left. *)
Fixpoint attempts_loop (n : nat) (env : nat → attempt) (i : nat) : RedisReplyData * incs :=
  match n with
  | O => (make_error "redis retry exhausted", [])
  | S n =>
      let a := env i in
      if negb (at_conn a) then (RedisPool.no_connection, at_acquire a ++ [(cmd_fail, 1)])
      else match at_answer a with
      | inl f =>
          let f := fill_error_if_empty f in
          let done := at_acquire a ++ record_command_failure f in
          if (0 <? n)%nat && at_running a then
            let '(r, rest) := attempts_loop n env (S i) in (r, done ++ [(reconnect, 1)] ++ rest)
          else (make_error (fl_errstr f), done)
      | inr reply =>
          let r := parse_redis_reply reply in (r, at_acquire a ++ record_command_result r)
      end
  end.

Definition cmd_argv_sync_impl (running : bool) (args : list bytes) (env : nat → attempt) : RedisReplyData * incs :=
  if negb running then (make_error "redis pool is shutdown", [])
  else if bool_decide (args = []) then (make_error "empty Redis command", [(cmd_fail, 1)])
  else attempts_loop (max_attempts args) env 0.

(** The coroutine: in worker mode it hops to the pool's threads first.  [running]
    is what each test of [running_] reads. *)
Definition cmd_argv (mode : RedisMode) (running : nat → bool) (args : list bytes) (env : nat → attempt) : RedisReplyData * incs :=
  if negb (running 0%nat) then (make_error "redis pool is shutdown", [])
  else match mode with
  | Direct => cmd_argv_sync_impl (running 1%nat) args env
  | Worker =>
      if negb (running 1%nat) then (make_error "redis pool is shutdown", [])
      else cmd_argv_sync_impl (running 2%nat) args env
  end.

(** [get] *)
Definition redis_get (mode : RedisMode) (running : nat → bool) (key : bytes) (env : nat → attempt) : RedisReplyData * incs :=
  cmd_argv mode running [("GET" : bytes); key] env.

Definition create_connection (connected : bool) : incs := [(if connected then connect_ok else connect_fail, 1)].

(** ** What the counters count *)

(** Acquiring a connection moves none of the command counters. *)
Definition acquire_incs (l : incs) : Prop :=
  Forall (λ i, i.1 ∉ [cmd_ok; cmd_fail; nil_reply; timeout] ∧ 0 ≤ i.2) l.

Lemma acquire_amount l k : acquire_incs l → k ∈ [cmd_ok; cmd_fail; nil_reply; timeout] → amount k l = 0.
Proof.
  intros Hl Hk. induction Hl as [|i l [Hi _] _ IH]; [done|]. rewrite amount_cons, IH.
  rewrite bool_decide_false; [done|]. intros <-. done.
Qed.

Lemma acquire_reconnect l : acquire_incs l → 0 ≤ amount reconnect l.
Proof.
  intros Hl. induction Hl as [|i l [_ Hi] _ IH]; [done|]. rewrite amount_cons. case_bool_decide; lia.
Qed.

Lemma timeout_amount f k : amount k (timeout_incs f) = if bool_decide (k = timeout) then amount timeout (timeout_incs f) else 0.
Proof.
  destruct (decide (k = timeout)) as [->|Hk]; [by rewrite bool_decide_true|]. rewrite (bool_decide_false (k = timeout)) by done.
  unfold timeout_incs. repeat case_if; [..|done]; rewrite amount_cons; cbn [fst]; by rewrite bool_decide_false.
Qed.

Lemma timeout_bound f : 0 ≤ amount timeout (timeout_incs f) ≤ 1.
Proof. unfold timeout_incs. repeat case_if; tally; lia. Qed.

Lemma failure_amount f l k : amount k (record_command_failure f ++ l) =
  (if bool_decide (cmd_fail = k) then 1 else 0) +
  (if bool_decide (k = timeout) then amount timeout (timeout_incs f) else 0) + amount k l.
Proof. rewrite amount_app. unfold record_command_failure. rewrite amount_cons, <- (timeout_amount f k). cbn [fst snd]. lia. Qed.

(** One command: [k] is the number of attempts it made. *)
Definition accounted (r : RedisReplyData) (l : incs) (k : Z) : Prop :=
  amount cmd_ok l = Z.b2z (rd_ok r) ∧ amount cmd_fail l = k - Z.b2z (rd_ok r) ∧
  amount nil_reply l = Z.b2z (rd_ok r && beqb (rd_type r) "nil") ∧ 0 ≤ amount timeout l ≤ k ∧ k - 1 ≤ amount reconnect l.

Lemma attempts_accounted n env i :
  (∀ j, acquire_incs (at_acquire (env j))) → (0 < n)%nat →
  let '(r, l) := attempts_loop n env i in ∃ k, 1 ≤ k ≤ Z.of_nat n ∧ accounted r l k.
Proof.
  intros Henv. revert i. induction n as [|n IH]; intros i Hn; [lia|]. cbn [attempts_loop].
  pose proof (Henv i) as Ha. pose proof (acquire_reconnect _ Ha) as Hr0.
  assert (∀ l k, k ∈ [cmd_ok; cmd_fail; nil_reply; timeout] → amount k (at_acquire (env i) ++ l) = amount k l) as Hskip.
  { intros l k Hk. by rewrite amount_app, (acquire_amount _ _ Ha Hk). }
  assert (∀ l, amount reconnect l ≤ amount reconnect (at_acquire (env i) ++ l)) as Hrec by (intros l; rewrite amount_app; lia).
  assert (cmd_ok ∈ [cmd_ok; cmd_fail; nil_reply; timeout] ∧ cmd_fail ∈ [cmd_ok; cmd_fail; nil_reply; timeout] ∧
    nil_reply ∈ [cmd_ok; cmd_fail; nil_reply; timeout] ∧ timeout ∈ [cmd_ok; cmd_fail; nil_reply; timeout]) as (M1 & M2 & M3 & M4).
  { split_and!; by apply (bool_decide_eq_true_1 _); vm_compute. }
  destruct (at_conn (env i)); cbn [negb].
  2:{ exists 1. split; [lia|]. unfold accounted. specialize (Hrec [(cmd_fail, 1)]). rewrite !Hskip by done. tally. lia. }
  destruct (at_answer (env i)) as [f|reply].
  - set (f' := fill_error_if_empty f). pose proof (timeout_bound f') as Ht.
    destruct ((0 <? n)%nat && at_running (env i)) eqn:Eg.
    + bool_prop. destruct (attempts_loop n env (S i)) as [r l] eqn:El. specialize (IH (S i)). rewrite El in IH.
      destruct IH as (k & Hk & A1 & A2 & A3 & A4 & A5); [by apply Nat.ltb_lt|]. exists (k + 1). split; [lia|].
      specialize (Hrec (record_command_failure f' ++ [(reconnect, 1)] ++ l)). unfold accounted.
      rewrite <- app_assoc. rewrite !Hskip, !failure_amount by done. rewrite failure_amount in Hrec. tally. lia.
    + exists 1. split; [lia|]. unfold accounted. specialize (Hrec (record_command_failure f')).
      rewrite !Hskip by done. rewrite <- (app_nil_r (record_command_failure f')) in *. rewrite !failure_amount in *. tally. lia.
  - exists 1. split; [lia|]. unfold accounted. specialize (Hrec (record_command_result (parse_redis_reply reply))).
    rewrite !Hskip by done. unfold record_command_result in *. destruct (rd_ok _); [destruct (beqb _ _)|]; tally; lia.
Qed.

(** A call, with what it meets. *)
Record cmd_call := mkCmdCall { cl_mode : RedisMode; cl_running : nat → bool; cl_args : list bytes; cl_env : nat → attempt }.

Definition run_call (c : cmd_call) : RedisReplyData * incs := cmd_argv (cl_mode c) (cl_running c) (cl_args c) (cl_env c).

(** The replies of a sequence of calls, and all their increments. *)
Definition run_calls (calls : list cmd_call) : list RedisReplyData * incs :=
  ((run_call <$> calls).*1, concat ((run_call <$> calls).*2)).

Definition oks (rs : list RedisReplyData) : Z := total (λ r, Z.b2z (rd_ok r)) rs.
Definition nils (rs : list RedisReplyData) : Z := total (λ r, Z.b2z (rd_ok r && beqb (rd_type r) "nil")) rs.

Lemma run_call_accounted c : (∀ j, acquire_incs (at_acquire (cl_env c j))) →
  let '(r, l) := run_call c in ∃ k, Z.b2z (rd_ok r) ≤ k ≤ 2 ∧
    amount cmd_ok l = Z.b2z (rd_ok r) ∧ amount cmd_fail l = k - Z.b2z (rd_ok r) ∧
    amount nil_reply l = Z.b2z (rd_ok r && beqb (rd_type r) "nil") ∧ 0 ≤ amount timeout l ≤ k.
Proof.
  intros Henv. assert (∀ msg, let '(r, l) := (make_error msg, @nil (stat * Z)) in ∃ k, Z.b2z (rd_ok r) ≤ k ≤ 2 ∧
    amount cmd_ok l = Z.b2z (rd_ok r) ∧ amount cmd_fail l = k - Z.b2z (rd_ok r) ∧
    amount nil_reply l = Z.b2z (rd_ok r && beqb (rd_type r) "nil") ∧ 0 ≤ amount timeout l ≤ k) as Hstop.
  { intros msg. exists 0. rewrite !amount_nil. cbn. lia. }
  assert (∀ b, let '(r, l) := cmd_argv_sync_impl b (cl_args c) (cl_env c) in ∃ k, Z.b2z (rd_ok r) ≤ k ≤ 2 ∧
    amount cmd_ok l = Z.b2z (rd_ok r) ∧ amount cmd_fail l = k - Z.b2z (rd_ok r) ∧
    amount nil_reply l = Z.b2z (rd_ok r && beqb (rd_type r) "nil") ∧ 0 ≤ amount timeout l ≤ k) as Hsync.
  { intros b. unfold cmd_argv_sync_impl. destruct b; cbn [negb]; [|apply Hstop]. destruct (bool_decide _).
    { exists 1. tally. lia. }
    pose proof (attempts_accounted (max_attempts (cl_args c)) (cl_env c) 0 Henv) as Ha. unfold max_attempts in *.
    destruct (retryable _); (destruct (attempts_loop _ _ _) as [r l]; destruct Ha as (k & Hk & H1 & H2 & H3 & H4 & _); [lia|]);
      exists k; (split; [destruct (rd_ok r); cbn; lia|done]). }
  unfold run_call, cmd_argv. destruct (cl_running c 0%nat); cbn [negb]; [|apply Hstop].
  destruct (cl_mode c); [apply Hsync|]. destruct (cl_running c 1%nat); cbn [negb]; [apply Hsync|apply Hstop].
Qed.

(** What the counters of a pool say after any sequence of commands, up to the
    width of a counter: cmd_ok_total is the number of commands answered without an
    error and nil_total the number of those answered nil; a command that fails
    adds one to cmd_fail_total for each attempt it made (so a read that succeeds
    on its retry also adds one), none if the pool is shut down; timeouts are among
    the failures. *)
Lemma redis_stats_exact calls :
  Forall (λ c, ∀ j, acquire_incs (at_acquire (cl_env c j))) calls →
  let '(rs, l) := run_calls calls in
  let c := apply_incs counters0 l in
  c cmd_ok = wrap64 (oks rs) ∧ c nil_reply = wrap64 (nils rs) ∧
  ∃ tries timeouts, oks rs ≤ tries ≤ 2 * Z.of_nat (length calls) ∧ 0 ≤ timeouts ≤ tries ∧
    c cmd_fail = wrap64 (tries - oks rs) ∧ c timeout = wrap64 timeouts.
Proof.
  intros Hc. unfold run_calls. cbv zeta. rewrite !apply_incs_amount.
  assert (∃ tries, amount cmd_ok (concat (run_call <$> calls).*2) = oks (run_call <$> calls).*1 ∧
    amount nil_reply (concat (run_call <$> calls).*2) = nils (run_call <$> calls).*1 ∧
    oks (run_call <$> calls).*1 ≤ tries ≤ 2 * Z.of_nat (length calls) ∧
    amount cmd_fail (concat (run_call <$> calls).*2) = tries - oks (run_call <$> calls).*1 ∧
    0 ≤ amount timeout (concat (run_call <$> calls).*2) ≤ tries) as (tries & H1 & H2 & H3 & H4 & H5).
  { induction Hc as [|c calls Hc _ IH]; [exists 0; cbn; rewrite !amount_nil; lia|]. destruct IH as (t & I1 & I2 & I3 & I4 & I5).
    pose proof (run_call_accounted c Hc) as Ha. cbn [fmap list_fmap]. destruct (run_call c) as [r l].
    destruct Ha as (k & Hk & A1 & A2 & A3 & A4). exists (t + k). cbn [fst snd concat length].
    rewrite !amount_app. unfold oks, nils, total in *. cbn [foldr fmap list_fmap] in *.
    lia. }
  rewrite H1, H2. split; [done|]. split; [done|]. exists tries, (amount timeout (concat (run_call <$> calls).*2)).
  rewrite H4. split_and!; try done; lia.
Qed.

End RedisStats.

(** ** MySQL *)

Module MysqlStats.

Inductive query_stat :=
| query_ok | query_fail | connect_ok | connect_fail | reset_conn_fail | acquire_wait | acquire_timeout
| acquire_retry_exhausted | idle_recycled | ping_fail.

#[global] Instance mysql_stat_counter : CounterKey query_stat.
Proof. intros x y. solve_decision. Defined.

Abbreviation incs := (list (query_stat * Z)).

(** [do_query]: what acquiring a connection incremented, and the answer if there
    is one. *)
Definition do_query (acquire : incs) (answer : option query_answer) : Result * incs :=
  match answer with
  | None => (MysqlPool.no_connection, acquire ++ [(query_fail, 1)])
  | Some a =>
      let r := (query_result a).1 in
      (r, acquire ++ [(if res_ok r then query_ok else query_fail, 1)])
  end.

(** [execute]; [running] is what the two tests of [running_] read. *)
Definition execute (running : bool * bool) (acquire : incs) (answer : option query_answer) : Result * incs :=
  if negb running.1 then (pool_stopped, [(query_fail, 1)])
  else if negb running.2 then (pool_stopped, [(query_fail, 1)])
  else do_query acquire answer.

Definition create_connection_with_timeout (connected : bool) : incs := [(if connected then connect_ok else connect_fail, 1)].

(** Acquiring a connection moves neither counter of the queries. *)
Definition query_acquire_incs (l : incs) : Prop := Forall (λ i, i.1 ≠ query_ok ∧ i.1 ≠ query_fail) l.

Lemma query_acquire_amount l k : query_acquire_incs l → k = query_ok ∨ k = query_fail → amount k l = 0.
Proof.
  intros Hl Hk. induction Hl as [|i l [H1 H2] _ IH]; [done|]. rewrite amount_cons, IH, bool_decide_false; [done|]. naive_solver.
Qed.

Record query_call := mkQueryCall { qc_running : bool * bool; qc_acquire : incs; qc_answer : option query_answer }.

Definition run_query (q : query_call) : Result * incs := execute (qc_running q) (qc_acquire q) (qc_answer q).

Lemma query_accounted q : query_acquire_incs (qc_acquire q) →
  let '(r, l) := run_query q in
  amount query_ok l = Z.b2z (res_ok r) ∧ amount query_fail l = 1 - Z.b2z (res_ok r).
Proof.
  intros Ha. unfold run_query, execute, do_query. destruct (qc_running q) as [[] []]; cbn [negb fst snd]; try (tally; lia).
  destruct (qc_answer q) as [a|]; rewrite !amount_app, !(query_acquire_amount _ _ Ha) by auto.
  - destruct (res_ok (query_result a).1); tally; lia.
  - tally. lia.
Qed.

(** Every query is counted once, as it was answered: after any sequence of them,
    stopped pools included, query_ok_total is the number of successes and
    query_fail_total the number of the others, up to the width of a counter. *)
Lemma mysql_stats_exact qs :
  Forall (λ q, query_acquire_incs (qc_acquire q)) qs →
  let rs := (run_query <$> qs).*1 in
  let c := apply_incs counters0 (concat (run_query <$> qs).*2) in
  let successes := total (λ r, Z.b2z (res_ok r)) rs in
  c query_ok = wrap64 successes ∧ c query_fail = wrap64 (Z.of_nat (length qs) - successes).
Proof.
  intros Hq. cbv zeta. rewrite !apply_incs_amount.
  assert (amount query_ok (concat (run_query <$> qs).*2) = total (λ r, Z.b2z (res_ok r)) (run_query <$> qs).*1 ∧
    amount query_fail (concat (run_query <$> qs).*2) =
      Z.of_nat (length qs) - total (λ r, Z.b2z (res_ok r)) (run_query <$> qs).*1) as [-> ->]; [|done].
  induction Hq as [|q qs Ha _ [I1 I2]]; [done|]. pose proof (query_accounted q Ha) as Hc. cbn [fmap list_fmap].
  destruct (run_query q) as [r l]. destruct Hc as [H1 H2]. cbn [fst snd concat length]. rewrite !amount_app.
  unfold total in *. cbn [foldr fmap list_fmap] in *. lia.
Qed.

End MysqlStats.

(** ** The text *)

(** A snapshot as the list of its members, in the order of the text. *)
Definition render_stat (kv : bytes * Z) : bytes := kv.1 ++ "=" ++ to_string kv.2.

Definition render_stats (fields : list (bytes * Z)) : bytes := join_with ", " (render_stat <$> fields).

Section redis_text.
Import RedisStats.

(** [RedisPoolStats::snapshot] and [format_redis_pool_stats]. *)
Definition redis_snapshot (c : counters) (created_total total_conn idle_conn creating_conn max_creating : Z) : list (bytes * Z) :=
  [("created_total" : bytes, created_total); ("reconnect_total" : bytes, c reconnect); ("cmd_ok_total" : bytes, c cmd_ok);
   ("cmd_fail_total" : bytes, c cmd_fail); ("nil_total" : bytes, c nil_reply); ("timeout_total" : bytes, c timeout);
   ("connect_ok_total" : bytes, c connect_ok); ("connect_fail_total" : bytes, c connect_fail);
   ("acquire_wait_total" : bytes, c acquire_wait); ("acquire_timeout_total" : bytes, c acquire_timeout);
   ("acquire_retry_exhausted_total" : bytes, c acquire_retry_exhausted); ("idle_recycled_total" : bytes, c idle_recycled);
   ("ping_fail_total" : bytes, c ping_fail); ("total_conn" : bytes, total_conn); ("idle_conn" : bytes, idle_conn);
   ("creating_conn" : bytes, creating_conn); ("max_creating" : bytes, max_creating)].

(** [RedisPool::snapshot]: direct mode leaves the sizes of the pool at 0. *)
Definition redis_pool_snapshot (mode : RedisMode) (c : counters) (created_total max_creating : Z) (g : DbPool) : list (bytes * Z) :=
  match mode with
  | Worker => redis_snapshot c created_total (db_total g) (idle_size g) (db_creating g) max_creating
  | Direct => redis_snapshot c created_total 0 0 0 0
  end.

Definition redis_stats (mode : RedisMode) (c : counters) (created_total max_creating : Z) (g : DbPool) : bytes :=
  render_stats (redis_pool_snapshot mode c created_total max_creating g).
End redis_text.

Section mysql_text.
Import MysqlStats.

(** [MysqlPool::snapshot] and [format_mysql_pool_stats]. *)
Definition mysql_snapshot (c : counters) (total idle creating max_creating : Z) : list (bytes * Z) :=
  [("query_ok_total" : bytes, c query_ok); ("query_fail_total" : bytes, c query_fail); ("connect_ok_total" : bytes, c connect_ok);
   ("connect_fail_total" : bytes, c connect_fail); ("reset_conn_fail_total" : bytes, c reset_conn_fail);
   ("acquire_wait_total" : bytes, c acquire_wait); ("acquire_timeout_total" : bytes, c acquire_timeout);
   ("acquire_retry_exhausted_total" : bytes, c acquire_retry_exhausted); ("idle_recycled_total" : bytes, c idle_recycled);
   ("ping_fail_total" : bytes, c ping_fail); ("total" : bytes, total); ("idle" : bytes, idle); ("creating" : bytes, creating);
   ("max_creating" : bytes, max_creating)].

Definition mysql_stats (c : counters) (max_creating : Z) (g : DbPool) : bytes :=
  render_stats (mysql_snapshot c (db_total g) (idle_size g) (db_creating g) max_creating).
End mysql_text.

(** *** Reading it back *)

Definition skip_space (s : bytes) : bytes := match s with c :: t => if ceqb c " " then t else s | [] => [] end.

Definition read_stat (piece : bytes) : option (bytes * Z) :=
  let s := skip_space piece in
  i ← find_char "=" s; Some (take i s, dec_number (drop (S i) s)).

Definition read_stats (text : bytes) : option (list (bytes * Z)) := mapM read_stat (split_on "," text).

(** A name of the text, and a value of an unsigned 64-bit counter. *)
Definition field_ok (kv : bytes * Z) : Prop :=
  kv.1 ≠ [] ∧ forallb (λ c, negb (ceqb c " ") && negb (ceqb c ",") && negb (ceqb c "=")) kv.1 = true ∧ 0 ≤ kv.2 ≤ SIZE_MAX.

Lemma name_chars (n : bytes) c :
  forallb (λ c, negb (ceqb c " ") && negb (ceqb c ",") && negb (ceqb c "=")) n = true → c ∈ n → c ≠ " "%char ∧ c ≠ ","%char ∧ c ≠ "="%char.
Proof.
  rewrite forallb_forall. intros Hn Hc%list_elem_of_In. specialize (Hn c Hc).
  rewrite !andb_true_iff, !negb_true_iff, !ceqb_ne in Hn. naive_solver.
Qed.

Lemma render_no_comma kv : field_ok kv → ","%char ∉ render_stat kv.
Proof.
  intros (_ & Hn & Hv). unfold render_stat. destruct (to_string_digits kv.2 Hv) as (Hd & _ & _). rewrite !not_elem_of_app. split_and!.
  - intros Hc. by destruct (name_chars _ _ Hn Hc) as (_ & ? & _).
  - by apply (bool_decide_eq_true_1 _); vm_compute.
  - rewrite Forall_forall in Hd. intros Hc. by specialize (Hd _ Hc).
Qed.

Lemma read_render_stat kv sp : field_ok kv → sp = [] ∨ sp = [" "%char] → read_stat (sp ++ render_stat kv) = Some kv.
Proof.
  intros (Hne & Hn & Hv) Hsp. destruct kv as [name v]. cbn [fst snd] in *. unfold read_stat.
  assert (skip_space (sp ++ render_stat (name, v)) = name ++ "="%char :: to_string v) as ->.
  { destruct Hsp as [->| ->]; [|done]. unfold render_stat. cbn [fst snd app]. destruct name as [|c name]; [done|].
    cbn [app skip_space]. rewrite (proj2 (ceqb_ne c " ")); [done|]. apply (name_chars _ c Hn). left. }
  rewrite find_char_app. 2:{ intros Hc. by destruct (name_chars _ _ Hn Hc) as (_ & _ & ?). }
  cbn [mbind option_bind]. rewrite take_app_length. replace (S (length name)) with (length name + 1)%nat by lia.
  rewrite <- drop_drop, drop_app_length. change (drop 1 ("="%char :: to_string v)) with (to_string v).
  by destruct (to_string_digits v Hv) as (_ & -> & _).
Qed.

(** The text of the statistics loses nothing: reading it back gives every member
    of the snapshot, in order. *)
Lemma stats_text_roundtrip fields :
  fields ≠ [] → Forall field_ok fields → read_stats (render_stats fields) = Some fields.
Proof.
  intros Hne Hf. unfold read_stats, render_stats.
  assert (∀ sp, sp = [] ∨ sp = [" "%char] → mapM read_stat (split_on "," (sp ++ join_with ", " (render_stat <$> fields))) = Some fields)
    as Hgen; [|apply (Hgen []); by left].
  revert Hne. induction Hf as [|kv fields Hkv Hf IH]; intros Hne sp Hsp; [done|].
  pose proof (render_no_comma _ Hkv) as Hc. pose proof (read_render_stat _ sp Hkv Hsp) as Hr.
  assert (","%char ∉ sp ++ render_stat kv) as Hc'.
  { rewrite not_elem_of_app. split; [|done]. by destruct Hsp as [->| ->]; apply (bool_decide_eq_true_1 _); vm_compute. }
  destruct fields as [|kv' fields].
  - cbn [fmap list_fmap join_with]. rewrite split_on_notin by done. cbn [mapM]. by rewrite Hr.
  - change (join_with ", " (render_stat <$> kv :: kv' :: fields)) with
      (render_stat kv ++ ","%char :: [" "%char] ++ join_with ", " (render_stat <$> kv' :: fields)).
    rewrite app_assoc, split_on_app by done. cbn [mapM]. rewrite Hr, IH by (done || by right). done.
Qed.

(** For the pools: counters are never negative and fit their type, so the two
    texts are read back whatever the counters are. *)
Lemma apply_incs_range `{CounterKey K} (l : list (K * Z)) k : 0 ≤ apply_incs counters0 l k ≤ SIZE_MAX.
Proof.
  rewrite apply_incs_amount. unfold wrap64, SIZE_MAX. pose proof (Z.mod_pos_bound (amount k l) (2 ^ 64)). lia.
Qed.

Lemma pool_stats_readable lr lm mode created max_r max_m gr gm :
  0 ≤ created ≤ SIZE_MAX → 0 ≤ max_r ≤ SIZE_MAX → 0 ≤ max_m ≤ SIZE_MAX →
  Forall (λ g, 0 ≤ db_total g ≤ SIZE_MAX ∧ idle_size g ≤ SIZE_MAX ∧ 0 ≤ db_creating g ≤ SIZE_MAX) [gr; gm] →
  let cr := apply_incs counters0 lr in let cm := apply_incs counters0 lm in
  read_stats (redis_stats mode cr created max_r gr) = Some (redis_pool_snapshot mode cr created max_r gr) ∧
  read_stats (mysql_stats cm max_m gm) = Some (mysql_snapshot cm (db_total gm) (idle_size gm) (db_creating gm) max_m).
Proof.
  intros H1 H2 H3 [(T1 & I1 & C1) [(T2 & I2 & C2) _]%Forall_cons]%Forall_cons cr cm.
  assert (∀ g, 0 ≤ idle_size g) as Hi by (intros g; unfold idle_size; lia).
  assert (0 ≤ 0 ≤ SIZE_MAX) as H0 by (unfold SIZE_MAX; lia).
  assert (∀ (name : bytes) v, forallb (λ c, negb (ceqb c " ") && negb (ceqb c ",") && negb (ceqb c "=")) name && negb (beqb name []) = true →
    0 ≤ v ≤ SIZE_MAX → field_ok (name, v)) as Hok.
  { intros name v [Hn Hb]%andb_true_iff Hv. split; [by apply beqb_ne, negb_true_iff|]. by split. }
  split; apply stats_text_roundtrip.
  - by destruct mode.
  - destruct mode; repeat apply Forall_cons_2; try apply Forall_nil_2; (apply Hok; [reflexivity|]);
      try apply apply_incs_range; try done; split; done || apply Hi || lia.
  - done.
  - repeat apply Forall_cons_2; try apply Forall_nil_2; (apply Hok; [reflexivity|]);
      try apply apply_incs_range; try done; split; done || apply Hi || lia.
Qed.

(** ** The upstream pools *)

(** A sum of [size_t] over the shards. *)
Definition shard_sum (f : Shard → Z) (st : Pool) : Z := wrap64 (total f (shards st)).

(** [HttpPool::stats]; the last five are the counters of acquire and release. *)
Definition http_snapshot (st : Pool) (reused created released_idle released_closed released_bad : Z) : list (bytes * Z) :=
  [("total" : bytes, shard_sum sh_total st); ("idle" : bytes, shard_sum (λ sh, Z.of_nat (length (idle sh))) st);
   ("active" : bytes, shard_sum (λ sh, Z.of_nat (size (active sh))) st); ("in_flight" : bytes, shard_sum sh_in_flight st);
   ("reused" : bytes, reused); ("created" : bytes, created); ("released_idle" : bytes, released_idle);
   ("released_closed" : bytes, released_closed); ("released_bad" : bytes, released_bad)].

Definition http_stats (st : Pool) (reused created released_idle released_closed released_bad : Z) : bytes :=
  render_stats (http_snapshot st reused created released_idle released_closed released_bad).

Lemma http_stats_readable st a b c d e : Forall (λ n, 0 ≤ n ≤ SIZE_MAX) [a; b; c; d; e] →
  read_stats (http_stats st a b c d e) = Some (http_snapshot st a b c d e).
Proof.
  intros Hn. apply stats_text_roundtrip; [done|].
  assert (∀ z, 0 ≤ wrap64 z ≤ SIZE_MAX) as Hw.
  { intros z. unfold wrap64, SIZE_MAX. pose proof (Z.mod_pos_bound z (2 ^ 64)). lia. }
  repeat (apply Forall_cons in Hn as [? Hn]).
  repeat apply Forall_cons_2; try apply Forall_nil_2; (split; [discriminate|split; [reflexivity|]]); done || apply Hw.
Qed.
