(* ===== verification/AdminAuth.v ===== *)
(** * Administrator credentials (src/src/app/admin/config_admin_auth.cpp,
      src/src/app/admin/admin_auth_runtime.hpp)

    Base64url, password hashes and their verification, and the throttle of
    failed logins.  OpenSSL (PBKDF2, SHA-256, RSA signatures) is the class
    [OpenSsl].  The theorems show that base64url decodes what it encoded, that a
    password is accepted exactly when its hash matches the stored one, and when
    an address is locked out. *)

From S2P Require Import Prelude AdminJson AppConfig.

(** ** Base64url *)

Definition alphabet_chars : bytes := "ABCDEFGHIJKLMNOPQRSTUVWXYZabcdefghijklmnopqrstuvwxyz0123456789-_".
Definition alphabet (i : Z) : ascii := nth (Z.to_nat i) alphabet_chars NUL.

(** [while (bit_count >= 6)]: two turns at most, since 13 bits are the most. *)
Fixpoint emit (fuel : nat) (bits bit_count : Z) : bytes * Z :=
  match fuel with
  | O => ([], bit_count)
  | S fuel =>
      if 6 <=? bit_count then
        let bit_count := bit_count - 6 in
        let '(out, bit_count') := emit fuel bits bit_count in
        (alphabet (Z.land (Z.shiftr bits bit_count) 0x3f) :: out, bit_count')
      else ([], bit_count)
  end.

(** The loop over the bytes; [bits] is a [uint32_t]. *)
Fixpoint encode_loop (data : bytes) (bits bit_count : Z) : bytes :=
  match data with
  | [] => if 0 <? bit_count then [alphabet (Z.land (wrap32 (Z.shiftl bits (6 - bit_count))) 0x3f)] else []
  | d :: data =>
      let bits := Z.lor (wrap32 (Z.shiftl bits 8)) (code d) in
      let '(out, bit_count) := emit 2 bits (bit_count + 8) in
      out ++ encode_loop data bits bit_count
  end.

Definition base64url_encode (data : bytes) : bytes := encode_loop data 0 0.

Definition base64url_value (c : ascii) : Z :=
  let v := code c in
  if in_range 65 90 v then v - 65
  else if in_range 97 122 v then v - 97 + 26
  else if in_range 48 57 v then v - 48 + 52
  else if v =? 45 then 62
  else if v =? 95 then 63
  else -1.

Fixpoint decode_loop (input : bytes) (bits bit_count : Z) : option bytes :=
  match input with
  | [] => Some []
  | c :: input =>
      if ceqb c "=" then Some []
      else
        let value := base64url_value c in
        if value <? 0 then None
        else
          let bits := Z.lor (wrap32 (Z.shiftl bits 6)) value in
          let bit_count := bit_count + 6 in
          if 8 <=? bit_count then
            let bit_count := bit_count - 8 in
            cons (chr (Z.land (Z.shiftr bits bit_count) 0xff)) <$> decode_loop input bits bit_count
          else decode_loop input bits bit_count
  end.

Definition base64url_decode (input : bytes) : option bytes := decode_loop input 0 0.

(** *** Decoding undoes encoding *)

Lemma alphabet_value i : 0 ≤ i < 64 → base64url_value (alphabet i) = i ∧ ceqb (alphabet i) "=" = false.
Proof.
  intros Hi. assert (forallb (λ i, (base64url_value (alphabet i) =? i) && negb (ceqb (alphabet i) "=")) (seqZ 0 64) = true)
    as Hall by (vm_compute; reflexivity).
  rewrite forallb_forall in Hall. specialize (Hall i). cbn beta in Hall.
  apply andb_prop in Hall as [Hv He]; [split; [by apply Z.eqb_eq|by apply negb_true_iff]|].
  apply list_elem_of_In, elem_of_seqZ. lia.
Qed.

Lemma land_63 x : Z.land x 0x3f = x `mod` 64.
Proof. change 0x3f with (Z.ones 6). by rewrite Z.land_ones by lia. Qed.
Lemma land_255 x : Z.land x 0xff = x `mod` 256.
Proof. change 0xff with (Z.ones 8). by rewrite Z.land_ones by lia. Qed.

Lemma low_disjoint a k v : 0 ≤ k → 0 ≤ v < 2 ^ k → Z.land (Z.shiftl a k) v = 0.
Proof.
  intros Hk Hv. destruct (decide (v = 0)) as [->|Hz]; [apply Z.land_0_r|]. apply Z.bits_inj'. intros n Hn. rewrite Z.land_spec, Z.bits_0, Z.shiftl_spec by done.
  destruct (decide (n < k)) as [Hlt|Hge]; [by rewrite Z.testbit_neg_r by lia|].
  rewrite (Z.bits_above_log2 v n), andb_false_r; [done|lia|].
  apply Z.log2_lt_pow2; [lia|].
  eapply Z.lt_le_trans; [apply Hv|]. apply Z.pow_le_mono_r; lia.
Qed.

(** Shifting in [k] bits. *)
Lemma shift_in bits k v : 0 ≤ k → 0 ≤ v < 2 ^ k → k ≤ 32 →
  Z.lor (wrap32 (Z.shiftl bits k)) v = wrap32 (bits * 2 ^ k) + v.
Proof.
  intros Hk Hv H32. rewrite Z.shiftl_mul_pow2 by done. unfold wrap32.
  assert ((bits * 2 ^ k) `mod` 2 ^ 32 = (bits `mod` 2 ^ (32 - k)) * 2 ^ k) as ->.
  { replace (2 ^ 32) with (2 ^ (32 - k) * 2 ^ k) by (rewrite <- Z.pow_add_r by lia; f_equal; lia).
    rewrite Z.mul_mod_distr_r by (apply Z.pow_nonzero; lia). done. }
  rewrite <- Z.shiftl_mul_pow2 by done. pose proof (low_disjoint (bits `mod` 2 ^ (32 - k)) k v Hk Hv) as Hd.
  by rewrite <- Z.lxor_lor, <- Z.add_nocarry_lxor.
Qed.

(** The registers after one byte or one digit, up to multiples of 2^32. *)
Lemma shift_in_8 bits d : ∃ q, Z.lor (wrap32 (Z.shiftl bits 8)) (code d) = bits * 256 + code d + 4294967296 * q.
Proof.
  pose proof (code_range d). rewrite shift_in by lia. unfold wrap32. exists (- ((bits * 2 ^ 8) `div` 2 ^ 32)).
  rewrite Z.mod_eq by lia. change (2 ^ 8) with 256. change (2 ^ 32) with 4294967296. lia.
Qed.

Lemma shift_in_6 bits v : 0 ≤ v < 64 → ∃ q, Z.lor (wrap32 (Z.shiftl bits 6)) v = bits * 64 + v + 4294967296 * q.
Proof.
  intros Hv. rewrite shift_in by lia. unfold wrap32. exists (- ((bits * 2 ^ 6) `div` 2 ^ 32)).
  rewrite Z.mod_eq by lia. change (2 ^ 6) with 64. change (2 ^ 32) with 4294967296. lia.
Qed.

Definition enc (bits : Z) (d : ascii) : Z := Z.lor (wrap32 (Z.shiftl bits 8)) (code d).
Definition dec (bits v : Z) : Z := Z.lor (wrap32 (Z.shiftl bits 6)) v.

(** The loops, by the number of bits that are pending. *)
Lemma encode_0 d data bits :
  encode_loop (d :: data) bits 0 = alphabet (Z.land (Z.shiftr (enc bits d) 2) 0x3f) :: encode_loop data (enc bits d) 2.
Proof. reflexivity. Qed.
Lemma encode_2 d data bits :
  encode_loop (d :: data) bits 2 = alphabet (Z.land (Z.shiftr (enc bits d) 4) 0x3f) :: encode_loop data (enc bits d) 4.
Proof. reflexivity. Qed.
Lemma encode_4 d data bits :
  encode_loop (d :: data) bits 4 =
    alphabet (Z.land (Z.shiftr (enc bits d) 6) 0x3f) :: alphabet (Z.land (Z.shiftr (enc bits d) 0) 0x3f) ::
    encode_loop data (enc bits d) 0.
Proof. reflexivity. Qed.

Lemma decode_digit i s bits k : 0 ≤ i < 64 →
  decode_loop (alphabet i :: s) bits k =
    if 8 <=? k + 6 then cons (chr (Z.land (Z.shiftr (dec bits i) (k + 6 - 8)) 0xff)) <$> decode_loop s (dec bits i) (k + 6 - 8)
    else decode_loop s (dec bits i) (k + 6).
Proof.
  intros Hi. destruct (alphabet_value i Hi) as [Hv He]. cbn [decode_loop]. rewrite He, Hv.
  assert (i <? 0 = false) as -> by (apply Z.ltb_ge; lia). reflexivity.
Qed.

Lemma chr_is x c : x = code c → chr x = c.
Proof. intros ->. apply chr_code. Qed.

(** The bits that are emitted, as arithmetic on the bytes. *)
Lemma enc_mod bits d : ∃ q, enc bits d = code d + 256 * q.
Proof. destruct (shift_in_8 bits d) as [q Hq]. exists (bits + 16777216 * q). unfold enc. lia. Qed.
Lemma enc_mod2 bits d e : ∃ q, enc (enc bits d) e = 256 * code d + code e + 65536 * q.
Proof.
  destruct (enc_mod bits d) as [q Hq]. destruct (shift_in_8 (enc bits d) e) as [r Hr].
  exists (q + 65536 * r). unfold enc at 1. rewrite Hr, Hq. lia.
Qed.
Lemma dec_mod bits v : 0 ≤ v < 64 → ∃ q, dec bits v = v + 64 * q.
Proof. intros Hv. destruct (shift_in_6 bits v Hv) as [q Hq]. exists (bits + 67108864 * q). unfold dec. lia. Qed.
Lemma dec_mod2 bits v w : 0 ≤ v < 64 → 0 ≤ w < 64 → ∃ q, dec (dec bits v) w = 64 * v + w + 4096 * q.
Proof.
  intros Hv Hw. destruct (dec_mod bits v Hv) as [q Hq]. destruct (shift_in_6 (dec bits v) w Hw) as [r Hr].
  exists (q + 1048576 * r). unfold dec at 1. rewrite Hr, Hq. lia.
Qed.

Lemma digit_range x : 0 ≤ Z.land x 0x3f < 64.
Proof. rewrite land_63. apply Z.mod_pos_bound. lia. Qed.

(** One step of each loop. *)
Ltac one_digit :=
  rewrite decode_digit by apply digit_range;
  match goal with |- context [8 <=? ?k] => let b := eval vm_compute in (8 <=? k) in change (8 <=? k) with b end;
  cbn iota.



(** A byte from the digits that carry its bits: [v] ends in the byte's high bits and
    [w] begins with its low ones. *)
Lemma byte_of_digits bits v w k c : 0 ≤ v < 64 → 0 ≤ w < 64 → 0 ≤ k ≤ 4 → 
  ((64 * v + w) `div` 2 ^ k) `mod` 256 = code c →
  chr (Z.land (Z.shiftr (dec (dec bits v) w) k) 0xff) = c.
Proof.
  intros Hv Hw Hk Hc. apply chr_is. destruct (dec_mod2 bits v w Hv Hw) as [q ->].
  rewrite land_255, Z.shiftr_div_pow2 by lia. rewrite <- Hc.
  replace (4096 * q) with (16 * q * 2 ^ (4 - k) * 2 ^ k * 16) by
    (replace 4096 with (16 * 2 ^ 4 * 16) by done; replace (2 ^ 4) with (2 ^ (4 - k) * 2 ^ k) by (rewrite <- Z.pow_add_r by lia; f_equal; lia); lia).
  replace (64 * v + w + 16 * q * 2 ^ (4 - k) * 2 ^ k * 16) with (64 * v + w + (256 * (q * 2 ^ (4 - k))) * 2 ^ k) by lia.
  rewrite Z.div_add by (apply Z.pow_nonzero; lia).
  replace (256 * (q * 2 ^ (4 - k))) with ((q * 2 ^ (4 - k)) * 256) by lia. apply Z_mod_plus_full.
Qed.

Ltac group_byte :=
  apply byte_of_digits; [apply digit_range|apply digit_range|lia|];
  rewrite ?land_63, ?Z.shiftr_div_pow2, ?Z.shiftl_mul_pow2 by lia; unfold wrap32;
  repeat match goal with |- context [enc (enc (enc ?w ?x) ?y) ?z] => let q := fresh "q" in destruct (enc_mod2 (enc w x) y z) as [q ->] end;
  repeat match goal with |- context [enc (enc ?x ?y) ?z] => let q := fresh "q" in destruct (enc_mod2 x y z) as [q ->] end;
  repeat match goal with |- context [enc ?x ?y] => let q := fresh "q" in destruct (enc_mod x y) as [q ->] end;
  repeat match goal with
  | |- context [code ?c] => lazymatch goal with H : 0 ≤ code c < 256 |- _ => fail | _ => pose proof (code_range c) end
  end;
  repeat match goal with |- context [2 ^ ?k] => let v := eval vm_compute in (2 ^ k) in change (2 ^ k) with v end;
  Z.to_euclidean_division_equations; lia.

Lemma decode_encode data bits dbits : decode_loop (encode_loop data bits 0) dbits 0 = Some data.
Proof.
  revert bits dbits. induction data as [data IH] using list_length_ind. intros bits dbits.
  destruct data as [|a [|b [|c data]]]; [done|..].
  - rewrite encode_0. cbn [encode_loop]. change (0 <? 2) with true. cbn iota. do 2 one_digit.
    cbn [decode_loop fmap option_fmap option_map]. f_equal. f_equal. group_byte.
  - rewrite encode_0, encode_2. cbn [encode_loop]. change (0 <? 4) with true. cbn iota. do 3 one_digit.
    cbn [decode_loop fmap option_fmap option_map]. f_equal. f_equal; [group_byte|]. f_equal. group_byte.
  - rewrite encode_0, encode_2, encode_4. do 4 one_digit.
    rewrite (IH data) by (cbn [length]; lia). cbn [fmap option_fmap option_map]. f_equal.
    f_equal; [group_byte|]. f_equal; [group_byte|]. f_equal. group_byte.
Qed.

(** *** The encoded text *)

Definition is_base64url (c : ascii) : bool := 0 <=? base64url_value c.

Lemma emit_alphabet fuel bits k out k' : emit fuel bits k = (out, k') → Forall (λ c, is_base64url c = true) out.
Proof.
  revert k out. induction fuel as [|fuel IH]; intros k out; cbn [emit]; [intros [= <- _]; by constructor|].
  case_if; [|intros [= <- _]; by constructor]. destruct (emit fuel bits (k - 6)) as [o k''] eqn:E. intros [= <- <-].
  constructor; [|by eapply IH]. unfold is_base64url. destruct (alphabet_value _ (digit_range (Z.shiftr bits (k - 6)))) as [-> _].
  pose proof (digit_range (Z.shiftr bits (k - 6))). lia.
Qed.

Lemma encode_alphabet data bits k : Forall (λ c, is_base64url c = true) (encode_loop data bits k).
Proof.
  revert bits k. induction data as [|d data IH]; intros bits k; cbn [encode_loop].
  - case_if; [|by constructor]. constructor; [|by constructor]. unfold is_base64url.
    destruct (alphabet_value _ (digit_range (wrap32 (Z.shiftl bits (6 - k))))) as [-> _].
    pose proof (digit_range (wrap32 (Z.shiftl bits (6 - k)))). lia.
  - destruct (emit 2 _ (k + 8)) as [out k'] eqn:E. apply Forall_app. split; [by eapply emit_alphabet|apply IH].
Qed.

Lemma encode_length data bits : slen (encode_loop data bits 0) = (4 * slen data + 2) `div` 3.
Proof.
  revert bits. induction data as [data IH] using list_length_ind. intros bits.
  destruct data as [|a [|b [|c data]]]; [done..|].
  rewrite encode_0, encode_2, encode_4. unfold slen in *. cbn [length].
  specialize (IH data ltac:(cbn [length]; lia) (enc (enc (enc bits a) b) c)). rewrite !Nat2Z.inj_succ, IH.
  Z.to_euclidean_division_equations; lia.
Qed.

Lemma dollar_free s : Forall (λ c, is_base64url c = true) s → "$"%char ∉ s.
Proof. rewrite Forall_forall. intros Hs Hin. by apply Hs in Hin. Qed.

(** ** Password hashes *)

(** [PKCS5_PBKDF2_HMAC] with SHA-256 (password, its length, salt, its length,
    iterations, length of the key), which fills the whole key; [EVP_Digest] with
    SHA-256; [PEM_read_bio_PrivateKey] and the [EVP_DigestSign] sequence. *)
Class OpenSsl := {
  pkcs5_pbkdf2_hmac_sha256 : bytes → Z → bytes → Z → Z → Z → option bytes;
  pbkdf2_length : ∀ p pl s sl it n out, pkcs5_pbkdf2_hmac_sha256 p pl s sl it n = Some out → slen out = n;
  evp_sha256 : bytes → option bytes;
  PKey : Type;
  pem_private_key : bytes → Z → option PKey;
  digest_sign_sha256 : PKey → bytes → option bytes
}.

(** [static_cast<int>] of a size. *)
Definition cast_int (n : Z) : Z := (n + 2 ^ 31) `mod` 2 ^ 32 - 2 ^ 31.

Section passwords.
Context `{OpenSsl}.

Definition pbkdf2_sha256 (password salt : bytes) (iterations output_len : Z) : option bytes :=
  if (iterations <=? 0) || (10000000 <? iterations) || (output_len =? 0) then None
  else pkcs5_pbkdf2_hmac_sha256 password (cast_int (slen password)) salt (cast_int (slen salt)) iterations (cast_int output_len).

(** Empty on failure. *)
Definition pbkdf2_sha256_hash_string (password salt : bytes) (iterations output_len : Z) : bytes :=
  match pbkdf2_sha256 password salt iterations output_len with
  | None => []
  | Some hash => "pbkdf2_sha256$" ++ to_string iterations ++ "$" ++ base64url_encode salt ++ "$" ++ base64url_encode hash
  end.

(** The loop over the parts: all but the last end at a dollar sign. *)
Fixpoint hash_parts (n : nat) (s : bytes) : option (list bytes) :=
  match n with
  | O => Some []
  | 1%nat => if contains_char "$" s then None else Some [s]
  | S n =>
      match find_char "$" s with
      | None => None
      | Some next => cons (take next s) <$> hash_parts n (drop (S next) s)
      end
  end.

(** The three outputs, assigned only on success. *)
Definition split_password_hash (encoded : bytes) : option (Z * bytes * bytes) :=
  match hash_parts 4 encoded with
  | Some [p0; p1; p2; p3] =>
      if negb (beqb p0 "pbkdf2_sha256") then None
      else
        match parse_int64 p1 with
        | None => None
        | Some iter =>
            if (iter <=? 0) || (10000000 <? iter) then None
            else
              match base64url_decode p2, base64url_decode p3 with
              | Some salt, Some hash => if beqb salt [] || beqb hash [] then None else Some (cast_int iter, salt, hash)
              | _, _ => None
              end
        end
  | _ => None
  end.

Fixpoint find_account (accs : list AdminAccountConfig) (username : bytes) : option AdminAccountConfig :=
  match accs with
  | [] => None
  | a :: rest => if beqb (acc_username a) username then Some a else find_account rest username
  end.

Definition dummy_salt : bytes := "asio_owen_admin_dummy".

(** An unknown name or a malformed hash costs one derivation too, of a dummy. *)
Definition verify_admin_password (admin : AdminConfig) (username password : bytes) : bool :=
  let split := match find_account (accounts admin) username with
               | Some account => split_password_hash (acc_password_hash account)
               | None => None
               end in
  let '(iterations, salt, expected) := default (100000, dummy_salt, replicate 32 NUL) split in
  match pbkdf2_sha256 password salt iterations (slen expected) with
  | None => false
  | Some actual => if negb (slen actual =? slen expected) then false else bool_decide (is_Some split) && beqb actual expected
  end.

(** *** What is accepted *)

Lemma hash_parts_join p0 p1 p2 p3 :
  "$"%char ∉ p0 → "$"%char ∉ p1 → "$"%char ∉ p2 → "$"%char ∉ p3 →
  hash_parts 4 (p0 ++ "$"%char :: p1 ++ "$"%char :: p2 ++ "$"%char :: p3) = Some [p0; p1; p2; p3].
Proof.
  intros H0 H1 H2 H3. cbn [hash_parts].
  assert (∀ p t : bytes, drop (S (length p)) (p ++ "$"%char :: t) = t) as Hdrop.
  { intros p t. change (p ++ "$"%char :: t) with (p ++ ["$"%char] ++ t). rewrite app_assoc, drop_app_length'; [done|].
    rewrite length_app. cbn. lia. }
  repeat (rewrite find_char_app by done; rewrite take_app_length, Hdrop).
  apply contains_char_false in H3 as ->. done.
Qed.

Lemma cast_int_small n : 0 ≤ n ≤ INT_MAX → cast_int n = n.
Proof. unfold cast_int, INT_MAX. intros Hn. rewrite Z.mod_small by lia. lia. Qed.

Lemma pbkdf2_sha256_inv password salt iterations n key :
  pbkdf2_sha256 password salt iterations n = Some key → n ≤ INT_MAX → 0 ≤ n →
  0 < iterations ≤ 10000000 ∧ 0 < n ∧ slen key = n.
Proof.
  unfold pbkdf2_sha256. intros Hp Hn H0. case_if; [done|]. bool_prop. apply pbkdf2_length in Hp.
  rewrite cast_int_small in Hp by lia. lia.
Qed.

Lemma split_hash_string password salt iterations n h :
  pbkdf2_sha256_hash_string password salt iterations n = h → h ≠ [] → salt ≠ [] → 0 ≤ n ≤ INT_MAX →
  ∃ key, pbkdf2_sha256 password salt iterations n = Some key ∧ slen key = n ∧ split_password_hash h = Some (iterations, salt, key).
Proof.
  unfold pbkdf2_sha256_hash_string. intros Hh Hne Hs Hn.
  destruct (pbkdf2_sha256 password salt iterations n) as [key|] eqn:Hp; [|by subst h].
  destruct (pbkdf2_sha256_inv _ _ _ _ _ Hp) as (Hi & Hn0 & Hl); [lia..|]. exists key. split_and!; [done..|].
  destruct (to_string_digits iterations) as (Hd & Hv & Hdn); [unfold SIZE_MAX; lia|].
  unfold split_password_hash. subst h.
  change ("pbkdf2_sha256$" ++ to_string iterations ++ "$" ++ base64url_encode salt ++ "$" ++ base64url_encode key)
    with (("pbkdf2_sha256" : bytes) ++ "$"%char :: to_string iterations ++ "$"%char :: base64url_encode salt ++ "$"%char :: base64url_encode key).
  rewrite hash_parts_join; [|by apply contains_char_false|by apply (digits_not_elem _ _ Hd)|apply dollar_free, encode_alphabet..].
  rewrite beqb_refl. cbn [negb]. unfold parse_int64. destruct (to_string iterations) as [|c t] eqn:E; [done|]. rewrite <- E in *.
  rewrite from_chars_int64_digits by (done || (unfold INT64_MAX; lia)). rewrite bool_decide_eq_true_2 by done.
  rewrite Hv. replace (iterations <=? 0) with false by lia. replace (10000000 <? iterations) with false by lia. cbn [orb].
  unfold base64url_decode, base64url_encode. rewrite !decode_encode.
  assert (key ≠ []) as Hk by (intros ->; change (slen []) with 0 in Hl; lia).
  rewrite (proj2 (beqb_ne salt [])), (proj2 (beqb_ne key [])) by done.
  cbn [orb]. rewrite cast_int_small by (unfold INT_MAX; lia). done.
Qed.

Lemma verify_password_spec admin username password :
  verify_admin_password admin username password = true ↔
  ∃ acc it salt key, find_account (accounts admin) username = Some acc ∧
    split_password_hash (acc_password_hash acc) = Some (it, salt, key) ∧
    pbkdf2_sha256 password salt it (slen key) = Some key.
Proof.
  unfold verify_admin_password. destruct (find_account _ _) as [acc|] eqn:Ef.
  2:{ split; [|naive_solver]. cbn [from_option id]; cbv beta iota. destruct (pbkdf2_sha256 _ _ _ _); [|done]. by destruct (negb _). }
  destruct (split_password_hash _) as [[[it salt] key]|] eqn:Es; cbn [from_option id]; cbv beta iota.
  - rewrite (bool_decide_eq_true_2 (is_Some (Some _))) by done. cbn [andb]. split.
    + destruct (pbkdf2_sha256 password salt it (slen key)) as [actual|] eqn:Ep; [|done]. destruct (negb _); [done|].
      intros ->%beqb_eq. exists acc, it, salt, key. done.
    + intros (acc' & it' & salt' & key' & [= <-] & Es' & Hp). rewrite Es in Es'. simplify_eq. rewrite Hp.
      rewrite Z.eqb_refl. cbn [negb]. apply beqb_refl.
  - split; [|naive_solver]. destruct (pbkdf2_sha256 _ _ _ _); [|done]. by destruct (negb _).
Qed.

(** C37: An administrator is let in by the password and by nothing else.  The
    check accepts exactly when the first account of that name carries a
    well-formed hash and deriving the offered password with its salt and
    iterations gives the stored key: an unknown name, a malformed hash and a
    failing derivation are all rejected.  And a hash written by
    [pbkdf2_sha256_hash_string] reads back as the parameters it was made from,
    so an account stored with it accepts its own password, and another one only
    if the two derive the same key. *)
Theorem admin_password_exact admin username password :
  (verify_admin_password admin username password = true ↔
   ∃ acc it salt key, find_account (accounts admin) username = Some acc ∧
     split_password_hash (acc_password_hash acc) = Some (it, salt, key) ∧
     pbkdf2_sha256 password salt it (slen key) = Some key) ∧
  (∀ own salt iterations n acc, salt ≠ [] → 0 ≤ n ≤ INT_MAX →
     find_account (accounts admin) username = Some acc →
     acc_password_hash acc = pbkdf2_sha256_hash_string own salt iterations n → acc_password_hash acc ≠ [] →
     split_password_hash (acc_password_hash acc) = (λ key, (iterations, salt, key)) <$> pbkdf2_sha256 own salt iterations n ∧
     (verify_admin_password admin username password = true ↔
      pbkdf2_sha256 password salt iterations n = pbkdf2_sha256 own salt iterations n)).
Proof.
  split; [apply verify_password_spec|]. intros own salt iterations n acc Hs Hn Hf Hh Hne.
  destruct (split_hash_string own salt iterations n _ (eq_sym Hh) Hne Hs Hn) as (key & Hp & Hl & Hsp).
  rewrite Hp. split; [done|]. rewrite verify_password_spec. split.
  - intros (acc' & it & salt' & key' & Hf' & Hs' & Hp'). rewrite Hf in Hf'. injection Hf' as <-. rewrite Hsp in Hs'. by simplify_eq.
  - intros Hp'. exists acc, iterations, salt, key. by rewrite Hl.
Qed.

End passwords.

(** ** The login throttle *)

Definition kMaxFailures : Z := 5.
Definition kLockDuration : Z := 15 * 60 * 1000000000.
Definition kMaxEntries : nat := 4096.

(** Times in nanoseconds of the steady clock; a default time point is its epoch. *)
Record Entry := mkThrottled { failures : Z; locked_until : Z }.

Abbreviation Entries := (gmap bytes Entry).

(** The first element of the hash table, in an order of its own. *)
Class HashOrder := {
  map_begin : Entries → bytes;
  map_begin_elem : ∀ m : Entries, m ≠ ∅ → is_Some (m !! map_begin m)
}.

Section throttle.
Context `{HashOrder}.

(** [while (size > kMaxEntries) erase(begin())]; each turn removes one entry. *)
Fixpoint evict (fuel : nat) (m : Entries) : Entries :=
  match fuel with
  | O => m
  | S fuel => if bool_decide (kMaxEntries < size m)%nat then evict fuel (delete (map_begin m) m) else m
  end.

Definition sweep_expired_locked (now : Z) (m : Entries) : Entries :=
  if bool_decide (size m ≤ kMaxEntries)%nat then m
  else
    let m := filter (λ kv, now < locked_until kv.2) m in
    evict (size m) m.

(** The sweep and the operation read the clock separately. *)
Definition locked (m : Entries) (now_sweep now : Z) (client_ip : bytes) : Entries * bool :=
  let m := sweep_expired_locked now_sweep m in
  (m, match m !! client_ip with Some e => now <? locked_until e | None => false end).

(** [operator[]] makes an empty entry; [failures] is an [int]. *)
Definition record_failure (m : Entries) (now_sweep now : Z) (client_ip : bytes) : Entries :=
  let m := sweep_expired_locked now_sweep m in
  let entry := default (mkThrottled 0 0) (m !! client_ip) in
  let f := cast_int (failures entry + 1) in
  <[client_ip := mkThrottled f (if kMaxFailures <=? f then now + kLockDuration else locked_until entry)]> m.

Definition record_success (m : Entries) (client_ip : bytes) : Entries := delete client_ip m.

Definition locked_entries (m : Entries) (now : Z) : nat := size (filter (λ kv, now < locked_until kv.2) m).

(** *** The table stays small *)

Lemma throttle_evict_spec fuel m : (size m ≤ kMaxEntries + fuel)%nat →
  (size (evict fuel m) ≤ kMaxEntries)%nat ∧ evict fuel m ⊆ m.
Proof.
  revert m. induction fuel as [|fuel IH]; intros m Hs; cbn [evict]; [split; [lia|done]|].
  case_bool_decide as Hlt; [|split; [lia|done]].
  destruct (map_begin_elem m) as [e He]; [intros ->; rewrite map_size_empty in Hlt; lia|].
  destruct (IH (delete (map_begin m) m)) as [Hs' Hsub]; [rewrite map_size_delete_Some by done; lia|]. split; [done|].
  etrans; [done|apply delete_subseteq].
Qed.

Lemma sweep_spec now m : (size (sweep_expired_locked now m) ≤ kMaxEntries)%nat ∧ sweep_expired_locked now m ⊆ m.
Proof.
  unfold sweep_expired_locked. case_bool_decide; [done|].
  destruct (throttle_evict_spec (size (filter (λ kv, now < locked_until kv.2) m)) (filter (λ kv, now < locked_until kv.2) m)) as [Hs Hsub]; [lia|].
  split; [done|]. etrans; [done|apply map_filter_subseteq].
Qed.

Lemma record_failure_size m t now ip : (size (record_failure m t now ip) ≤ S kMaxEntries)%nat.
Proof.
  unfold record_failure. destruct (sweep_spec t m) as [Hs _].
  destruct (sweep_expired_locked t m !! ip) as [e|] eqn:E.
  - rewrite map_size_insert_Some by done. lia.
  - rewrite map_size_insert_None by done. lia.
Qed.

(** *** The throttle as a function of the history *)

Inductive throttle_event :=
| Failed (client_ip : bytes) (now_sweep now : Z)
| Succeeded (client_ip : bytes)
| Asked (client_ip : bytes) (now_sweep now : Z).

Definition throttle_step (m : Entries) (ev : throttle_event) : Entries :=
  match ev with
  | Failed ip t now => record_failure m t now ip
  | Succeeded ip => record_success m ip
  | Asked ip t now => (locked m t now ip).1
  end.

Definition run_throttle (hist : list throttle_event) : Entries := foldl throttle_step ∅ hist.

(** The times of the failures of an address since its last success. *)
Definition recent_step (ip : bytes) (acc : list Z) (ev : throttle_event) : list Z :=
  match ev with
  | Failed ip' _ now => if beqb ip' ip then acc ++ [now] else acc
  | Succeeded ip' => if beqb ip' ip then [] else acc
  | Asked _ _ _ => acc
  end.
Definition recent_failures (ip : bytes) (hist : list throttle_event) : list Z := foldl (recent_step ip) [] hist.

Definition locked_spec (fails : list Z) (now : Z) : bool :=
  (5 <=? Z.of_nat (length fails)) && (now <? default 0 (last fails) + kLockDuration).

Definition entry_of (fails : list Z) : option Entry :=
  match fails with
  | [] => None
  | _ => Some (mkThrottled (Z.of_nat (length fails)) (if 5 <=? Z.of_nat (length fails) then default 0 (last fails) + kLockDuration else 0))
  end.

(** Failures come from the addresses [ips] only. *)
Definition failing (ips : list bytes) (ev : throttle_event) : Prop :=
  match ev with Failed ip _ _ => ip ∈ ips | _ => True end.

Definition tracks (ips : list bytes) (hist : list throttle_event) (m : Entries) : Prop :=
  (∀ ip, m !! ip = entry_of (recent_failures ip hist)) ∧ dom m ⊆ (list_to_set ips : gset bytes).

Lemma size_list_to_set_le (l : list bytes) : (size (list_to_set l : gset bytes) ≤ length l)%nat.
Proof.
  induction l as [|x l IH]; [done|]. cbn [list_to_set length]. rewrite size_union_alt, size_singleton.
  pose proof (subseteq_size (list_to_set l ∖ {[x]}) (list_to_set l : gset bytes) ltac:(set_solver)). lia.
Qed.

Lemma sweep_small ips now m : (length ips ≤ kMaxEntries)%nat → dom m ⊆ (list_to_set ips : gset bytes) →
  sweep_expired_locked now m = m.
Proof.
  intros Hl Hd. unfold sweep_expired_locked. rewrite bool_decide_eq_true_2; [done|].
  rewrite <- size_dom. apply subseteq_size in Hd. pose proof (size_list_to_set_le ips). lia.
Qed.

Lemma recent_snoc ip hist ev : recent_failures ip (hist ++ [ev]) = recent_step ip (recent_failures ip hist) ev.
Proof. unfold recent_failures. by rewrite foldl_app. Qed.

Lemma recent_length ip hist : (length (recent_failures ip hist) ≤ length hist)%nat.
Proof.
  induction hist as [|ev hist IH] using rev_ind; [done|]. rewrite recent_snoc, length_app. cbn [length].
  destruct ev as [ip' t now|ip'|]; cbn [recent_step]; try case_if; rewrite ?length_app; cbn [length]; lia.
Qed.

Lemma entry_snoc fails now : Z.of_nat (length fails) < INT_MAX →
  entry_of (fails ++ [now]) =
  let entry := default (mkThrottled 0 0) (entry_of fails) in
  let f := cast_int (failures entry + 1) in
  Some (mkThrottled f (if kMaxFailures <=? f then now + kLockDuration else locked_until entry)).
Proof.
  intros Hl. assert (failures (default (mkThrottled 0 0) (entry_of fails)) = Z.of_nat (length fails)) as Hf by by destruct fails.
  cbv zeta. rewrite Hf, cast_int_small by lia. unfold kMaxFailures.
  assert (Z.of_nat (length (fails ++ [now])) = Z.of_nat (length fails) + 1) as Hl' by (rewrite length_app; cbn; lia).
  unfold entry_of at 1. destruct (fails ++ [now]) as [|x l] eqn:E; [by apply app_eq_nil in E as [_ ?]|].
  rewrite Hl', <- E, last_snoc. cbn [from_option id]. do 2 f_equal. case_if; [done|]. bool_prop.
  destruct fails as [|y fails]; [done|]. cbn [entry_of from_option id]. unfold entry_of. cbn [from_option id locked_until].
  by replace (5 <=? Z.of_nat (length (y :: fails))) with false by lia.
Qed.

Lemma tracks_step ips hist ev m : (length ips ≤ kMaxEntries)%nat → Z.of_nat (length hist) < INT_MAX →
  failing ips ev → tracks ips hist m → tracks ips (hist ++ [ev]) (throttle_step m ev).
Proof.
  intros Hl Hh Hf [Hm Hd]. destruct ev as [ip t now|ip|ip t now]; cbn [throttle_step failing] in *.
  - unfold record_failure. rewrite (sweep_small ips) by done. split.
    + intros ip'. rewrite recent_snoc. cbn [recent_step]. destruct (beqb ip ip') eqn:Heqb.
      * apply beqb_eq in Heqb as <-. rewrite lookup_insert_eq, entry_snoc; [by rewrite <- Hm|].
        pose proof (recent_length ip hist). lia.
      * apply beqb_ne in Heqb. rewrite lookup_insert_ne by done. apply Hm.
    + rewrite dom_insert. set_solver.
  - split.
    + intros ip'. rewrite recent_snoc. cbn [recent_step]. unfold record_success. case_if.
      * apply beqb_eq in Heqb as <-. by rewrite lookup_delete_eq.
      * apply beqb_ne in Heqb. rewrite lookup_delete_ne by done. apply Hm.
    + unfold record_success. rewrite dom_delete. set_solver.
  - unfold locked. cbn [fst]. rewrite (sweep_small ips) by done. split; [|done].
    intros ip'. rewrite recent_snoc. apply Hm.
Qed.

Lemma tracks_run ips hist : (length ips ≤ kMaxEntries)%nat → Z.of_nat (length hist) ≤ INT_MAX → Forall (failing ips) hist →
  tracks ips hist (run_throttle hist).
Proof.
  intros Hl. induction hist as [|ev hist IH] using rev_ind; intros Hh Hf.
  - split; [done|]. unfold run_throttle. cbn [foldl]. rewrite dom_empty. set_solver.
  - rewrite length_app in Hh. cbn [length] in Hh. apply Forall_app in Hf as [Hf Hev]. apply Forall_inv in Hev.
    unfold run_throttle. rewrite foldl_app. cbn [foldl]. apply tracks_step; [done|lia|done|]. apply IH; [lia|done].
Qed.

(** The throttle locks exactly the addresses it should.  As long as no more
    than 4096 addresses have failed, an address is locked at a time exactly when
    it has failed at least five times since its last success and the last of
    these failures is less than fifteen minutes old (so one failure after a lock
    has run out locks again at once); and with any number of addresses, after any
    history, the table never holds more than 4097 of them. *)
Lemma login_throttle_exact hist :
  (size (run_throttle hist) ≤ 4097)%nat ∧
  (∀ ips ip now_sweep now, (length ips ≤ 4096)%nat → Z.of_nat (length hist) ≤ INT_MAX → Forall (failing ips) hist → 0 ≤ now →
     (locked (run_throttle hist) now_sweep now ip).2 = locked_spec (recent_failures ip hist) now).
Proof.
  split.
  - change 4097%nat with (S kMaxEntries). induction hist as [|ev hist IH] using rev_ind; [unfold run_throttle; cbn [foldl]; rewrite map_size_empty; lia|].
    unfold run_throttle in *. rewrite foldl_app. cbn [foldl]. destruct ev as [ip t now|ip|ip t now]; cbn [throttle_step].
    + apply record_failure_size.
    + unfold record_success. etrans; [|exact IH]. apply map_subseteq_size, delete_subseteq.
    + unfold locked. cbn [fst]. destruct (sweep_spec t (foldl throttle_step ∅ hist)). lia.
  - intros ips ip t now Hl Hh Hf Hnow. destruct (tracks_run ips hist Hl Hh Hf) as [Hm Hd]. unfold locked. cbn [snd].
    rewrite (sweep_small ips) by done. rewrite Hm. unfold locked_spec, entry_of.
    destruct (recent_failures ip hist) as [|x l]; [done|]. cbn [locked_until]. case_if; cbn [andb]; [done|].
    apply Z.ltb_ge. lia.
Qed.

End throttle.

(** ** Examples *)

Module Sample.
(** A derivation that pads the password to the length of the key. *)
Definition pad (p : bytes) (n : Z) : option bytes :=
  if 0 <=? n then Some (take (Z.to_nat n) (p ++ replicate (Z.to_nat n) "."%char)) else None.

Lemma pad_length p n out : pad p n = Some out → slen out = n.
Proof.
  unfold pad. case_if; [|done]. bool_prop. intros [= <-]. unfold slen. rewrite length_take, length_app, length_replicate. lia.
Qed.

Definition ssl : OpenSsl := {|
  pkcs5_pbkdf2_hmac_sha256 := λ p _ _ _ _ n, pad p n;
  pbkdf2_length := λ p _ _ _ _ n, pad_length p n;
  evp_sha256 := Some;
  PKey := unit;
  pem_private_key := λ _ _, Some ();
  digest_sign_sha256 := λ _ d, Some d
|}.

Definition hash : bytes := @pbkdf2_sha256_hash_string ssl "pw" "salt" 1000 8.
Definition admin : AdminConfig := mkAdmin [mkAccount "root" hash] "k" "p" 120 false.

Definition order : HashOrder.
Proof.
  refine {| map_begin := λ m, default [] (fst <$> head (map_to_list m)) |}.
  intros m Hm. destruct (map_to_list m) as [|[k e] l] eqn:E; [by apply map_to_list_empty_iff in E|].
  exists e. apply elem_of_map_to_list. rewrite E. cbn. left.
Defined.

Definition five (ip : bytes) : list throttle_event := (λ t, Failed ip t t) <$> [1; 2; 3; 4; 5].
End Sample.

Lemma admin_password_exact_witness :
  @split_password_hash Sample.hash =
    Some (1000, "salt" : bytes, "pw......" : bytes) ∧
  @verify_admin_password Sample.ssl Sample.admin "root" "pw" = true.
Proof.
  destruct (@admin_password_exact Sample.ssl Sample.admin "root" "pw") as [_ H].
  destruct (H "pw" "salt" 1000 8 (mkAccount "root" Sample.hash)) as [H1 H2];
    [done|by vm_compute|reflexivity|reflexivity|by vm_compute|].
  split; [exact H1|]. apply H2. reflexivity.
Defined.

Lemma login_throttle_exact_witness :
  (@locked Sample.order (@run_throttle Sample.order (Sample.five "1.2.3.4")) 6 6 "1.2.3.4").2 = true.
Proof.
  destruct (@login_throttle_exact Sample.order (Sample.five "1.2.3.4")) as [_ H].
  rewrite (H ["1.2.3.4" : bytes] "1.2.3.4" 6 6); [reflexivity|cbn; lia|by vm_compute| |lia].
  repeat constructor.
Defined.
