(* ===== verification/AdminLogin.v ===== *)
(** * Administrator login and authorization
      (src/src/app/admin/admin_credential_store.hpp, config_admin_auth.cpp,
      admin_routes.cpp, admin_auth_runtime.hpp)

    The store of the administrators' credentials, which reloads them when their
    files change; the tokens it issues and verifies; the guard of the admin API
    and the login handler, with its throttle and its limit of derivations.  Time,
    file contents and stamps are read at each call and may change in between.
    The theorems show who is let in, that a changed password revokes the tokens
    issued before, what a login attempt leaves behind on every path, and that no
    more than sixteen derivations run at once. *)

From S2P Require Import Prelude HttpProtocol PathRules Config Response Jwt AdminJson AppConfig Lifecycle AdminAuth.

(** ** Files *)

(** The file system as seen by one call: [exists] and [is_regular_file], the size
    and the time of last write ([None] is an error), and the content of a file
    that can be opened. *)
Record fs_view := mkFs {
  fs_exists : bytes → bool;
  fs_regular : bytes → bool;
  fs_size : bytes → option Z;
  fs_mtime : bytes → option Z;
  fs_read : bytes → option bytes
}.

(** [path::operator/] and [is_relative]. *)
Definition is_relative (p : bytes) : bool := negb (starts_with "/" p).
Definition path_append (base p : bytes) : bytes :=
  if negb (is_relative p) then p
  else if beqb base [] || bool_decide (last base = Some "/"%char) then base ++ p
  else base ++ "/" ++ p.

Definition config_sync_ini (base : bytes) : bytes := path_append (path_append base "config.d") "12-config-sync.ini".
Definition local_ini (base : bytes) : bytes := path_append (path_append base "config.d") "99-local.ini".

Definition has_pem (s : bytes) : bool := contains_str "-----BEGIN" s.

Definition load_pem_or_file (fs : fs_view) (value base : bytes) : option bytes :=
  if beqb value [] then None
  else if has_pem value then Some value
  else
    let path := if negb (beqb base []) && is_relative value then path_append base value else value in
    match fs_read fs path with
    | None => None
    | Some loaded => if has_pem loaded then Some loaded else None
    end.

(** The loop over the local files: those that exist are loaded in this order. *)
Fixpoint load_local_files (fs : fs_view) (cfg : Config) (loaded_any : bool) (files : list (bytes * bytes)) :
    bytes + Config * bool :=
  match files with
  | [] => inr (cfg, loaded_any)
  | (name, path) :: rest =>
      if negb (fs_exists fs path) then load_local_files fs cfg loaded_any rest
      else
        let '(ok, cfg) := load_file cfg (fs_read fs path) in
        if ok then load_local_files fs cfg true rest else inl ("failed to parse " ++ name)
  end.

Definition load_local_admin_config (fs : fs_view) (config_base : bytes) : bytes + AdminConfig :=
  if beqb config_base [] then inl ("config base is unavailable" : bytes)
  else
    match load_local_files fs empty_config false
            [("12-config-sync.ini" : bytes, config_sync_ini config_base); ("99-local.ini" : bytes, local_ini config_base)] with
    | inl error => inl error
    | inr (_, false) => inl ("local admin config not found" : bytes)
    | inr (cfg, true) => match admin_config_from cfg with Ret admin => inr admin | Throw e => inl e end
    end.

Definition admin_configured (fs : fs_view) (admin : AdminConfig) (base : bytes) : bool :=
  negb (bool_decide (accounts admin = [])) &&
  bool_decide (is_Some (load_pem_or_file fs (jwt_private_key admin) base)) &&
  bool_decide (is_Some (load_pem_or_file fs (jwt_public_key admin) base)).

(** ** Tokens *)

Record IssuedToken := mkIssued { token : bytes; expires_in : Z }.

Definition kAdminIssuer : bytes := "asio-owen-admin".

Section model.
Context `{OpenSsl, JwtCpp, HashOrder}.

Definition sign_rs256 (data private_key_pem : bytes) : option bytes :=
  pkey ← pem_private_key private_key_pem (cast_int (slen private_key_pem));
  digest_sign_sha256 pkey data.

Definition admin_auth_version (admin : AdminConfig) (username : bytes) : option bytes :=
  match find_account (accounts admin) username with
  | None => None
  | Some account =>
      if beqb (acc_password_hash account) [] then None
      else
        match evp_sha256 (username ++ [LF] ++ acc_password_hash account) with
        | None => None
        | Some digest => if beqb digest [] then None else Some (base64url_encode digest)
        end
  end.

Definition token_header : bytes := "{" ++ quoted "alg" ++ ":" ++ quoted "RS256" ++ "," ++ quoted "typ" ++ ":" ++ quoted "JWT" ++ "}".

Definition token_payload (username auth_version : bytes) (now exp : Z) : bytes :=
  "{" ++ quoted "iss" ++ ":" ++ quoted kAdminIssuer ++ "," ++ quoted "sub" ++ ":" ++ quoted (json_escape username) ++ "," ++
  quoted "name" ++ ":" ++ quoted (json_escape username) ++ "," ++ quoted "roles" ++ ":[" ++ quoted "admin" ++ "]," ++
  quoted "av" ++ ":" ++ quoted auth_version ++ "," ++ quoted "iat" ++ ":" ++ to_string now ++ "," ++
  quoted "exp" ++ ":" ++ to_string exp ++ "}".

(** [now] is [std::time]; the product is an [int] (an overflow, which the source
    leaves undefined, wraps here). *)
Definition issue_admin_token_with_pem (admin : AdminConfig) (username private_key_pem : bytes) (now : Z) : option IssuedToken :=
  auth_version ← admin_auth_version admin username;
  let ttl_sec := cast_int (Z.max 1 (token_ttl_min admin) * 60) in
  let signing_input := base64url_encode token_header ++ "." ++
    base64url_encode (token_payload username auth_version now (now + ttl_sec)) in
  signature ← sign_rs256 signing_input private_key_pem;
  Some (mkIssued (signing_input ++ "." ++ base64url_encode signature) ttl_sec).

Definition issue_admin_token (fs : fs_view) (admin : AdminConfig) (username base : bytes) (now : Z) : option IssuedToken :=
  private_key ← load_pem_or_file fs (jwt_private_key admin) base;
  issue_admin_token_with_pem admin username private_key now.

(** The claim [av] of the token after the scheme, compared with the version. *)
Definition av_matches (auth_header expected : bytes) : bool :=
  match jwt_decode (drop 7 auth_header) with
  | Throw _ => false
  | Ret decoded =>
      match d_payload_claims decoded "av" with
      | None => false
      | Some v => match as_string v with Ret av => beqb av expected | Throw _ => false end
      end
  end.

(** [now] is the clock of [JWTAuth::verify]. *)
Definition verify_admin_token_with_auth (admin : AdminConfig) (auth_header : bytes) (auth : JWTAuth) (now : Z) : option Principal :=
  claims ← jwt_verify auth now auth_header;
  let user := if beqb (cl_username claims) [] then cl_subject claims else cl_username claims in
  expected ← admin_auth_version admin user;
  if (slen auth_header <=? 7) || negb (bearer_prefix auth_header) then None
  else if negb (av_matches auth_header expected) then None
  else Some (mkPrincipal (cl_subject claims) (cl_username claims) (cl_roles claims)).

Definition make_verifier (public_key_pem : bytes) : outcome JWTAuth :=
  make_jwt_auth "admin-rs256-unused-secret" kAdminIssuer "RS256" public_key_pem.

Definition verify_admin_token_with_pem (admin : AdminConfig) (auth_header public_key_pem : bytes) (now : Z) : option Principal :=
  match make_verifier public_key_pem with
  | Throw _ => None
  | Ret auth => verify_admin_token_with_auth admin auth_header auth now
  end.

Definition verify_admin_token (fs : fs_view) (admin : AdminConfig) (auth_header base : bytes) (now : Z) : option Principal :=
  public_key ← load_pem_or_file fs (jwt_public_key admin) base;
  verify_admin_token_with_pem admin auth_header public_key now.

(** ** The credential store *)

Record FileStamp := mkStamp { st_path : bytes; st_exists : bool; st_size : Z; st_modified : Z }.

#[export] Instance FileStamp_eq_dec : EqDecision FileStamp.
Proof. solve_decision. Defined.

(** What [file_size] and [last_write_time] return on an error. *)
Definition file_size_error : Z := SIZE_MAX.
Definition file_time_min : Z := INT64_MIN.

Definition stamp_file (fs : fs_view) (path : bytes) : FileStamp :=
  if negb (fs_regular fs path) then mkStamp path false 0 0
  else
    match fs_size fs path with
    | None => mkStamp path false file_size_error 0
    | Some size =>
        match fs_mtime fs path with
        | None => mkStamp path false size file_time_min
        | Some modified => mkStamp path true size modified
        end
    end.

Record Snapshot := mkSnapshot {
  sn_config : AdminConfig;
  private_key_pem : bytes;
  public_key_pem : bytes;
  verifier : option JWTAuth;
  sn_error : bytes;
  sn_loaded : bool;
  sn_configured : bool
}.

Record AdminCredentialStore := mkStore {
  config_base : bytes;
  stored_stamp : list FileStamp;
  snapshot_ : option Snapshot
}.

Definition key_files (base : bytes) (admin : AdminConfig) : list bytes :=
  (λ value, if is_relative value then path_append base value else value) <$>
  filter (λ value, (beqb value [] || has_pem value) = false) [jwt_private_key admin; jwt_public_key admin].

Definition source_stamp_locked (st : AdminCredentialStore) (fs : fs_view) : list FileStamp :=
  if beqb (config_base st) [] then []
  else
    stamp_file fs <$>
      [config_sync_ini (config_base st); local_ini (config_base st)] ++
      match snapshot_ st with
      | Some snap => if sn_loaded snap then key_files (config_base st) (sn_config snap) else []
      | None => []
      end.

(** [AdminConfig{}] *)
Definition admin_config0 : AdminConfig := mkAdmin [] [] [] 120 false.

(** The configuration part of [load_locked]: an error text, or the configuration. *)
Definition load_config (base : bytes) (fs : fs_view) (fallback : option AdminConfig) : bytes + AdminConfig :=
  if beqb base [] then
    match fallback with
    | None => inl ("config base is unavailable" : bytes)
    | Some admin => inr admin
    end
  else
    match load_local_admin_config fs base with
    | inl error => inl (if beqb error [] then ("admin config unavailable" : bytes) else error)
    | inr admin => inr admin
    end.

Definition load_locked (base : bytes) (fs : fs_view) (fallback : option AdminConfig) : Snapshot :=
  match load_config base fs fallback with
  | inl error => mkSnapshot admin_config0 [] [] None error false false
  | inr admin =>
      let private := default [] (load_pem_or_file fs (jwt_private_key admin) base) in
      let public := default [] (load_pem_or_file fs (jwt_public_key admin) base) in
      let '(verifier, error) :=
        if beqb public [] then (None, [])
        else match make_verifier public with Ret auth => (Some auth, []) | Throw e => (None, e) end in
      let configured := negb (bool_decide (accounts admin = [])) && negb (beqb private []) && bool_decide (is_Some verifier) in
      mkSnapshot admin private public verifier
        (if negb configured && beqb error [] then ("admin API is not configured" : bytes) else error) true configured
  end.

(** The file system at the time of the stamp, and of the load. *)
Definition access : Type := fs_view * fs_view.

Definition snapshot (st : AdminCredentialStore) (fs : access) (fallback : option AdminConfig) : AdminCredentialStore * Snapshot :=
  let stamp := source_stamp_locked st fs.1 in
  match snapshot_ st with
  | Some snap =>
      if bool_decide (stamp = stored_stamp st) then (st, snap)
      else let snap := load_locked (config_base st) fs.2 fallback in (mkStore (config_base st) stamp (Some snap), snap)
  | None => let snap := load_locked (config_base st) fs.2 fallback in (mkStore (config_base st) stamp (Some snap), snap)
  end.

Definition store_issue (snap : Snapshot) (username : bytes) (now : Z) : option IssuedToken :=
  if negb (sn_configured snap) then None
  else issue_admin_token_with_pem (sn_config snap) username (private_key_pem snap) now.

Definition store_verify (snap : Snapshot) (auth_header : bytes) (now : Z) : option Principal :=
  if negb (sn_configured snap) then None
  else
    match verifier snap with
    | None => None
    | Some auth => verify_admin_token_with_auth (sn_config snap) auth_header auth now
    end.

(** ** The guard of the admin API *)

(** The parts of [AppServices] that are used: the base directory, the admin
    section of the start-up configuration, and the optional store. *)
Record Services := mkServices {
  sv_base : bytes;
  sv_sync_admin : AdminConfig;
  sv_credentials : option AdminCredentialStore
}.

Definition fallback (sv : Services) : option AdminConfig :=
  if beqb (sv_base sv) [] then Some (sv_sync_admin sv) else None.

(** A use of the store through the services: the new services and the snapshot. *)
Definition use_store (sv : Services) (st : AdminCredentialStore) (fs : access) : Services * Snapshot :=
  let '(st, snap) := snapshot st fs (fallback sv) in (mkServices (sv_base sv) (sv_sync_admin sv) (Some st), snap).

Definition load_effective_admin_config (sv : Services) (fs : access) : Services * option AdminConfig :=
  match sv_credentials sv with
  | Some st => let '(sv, snap) := use_store sv st fs in (sv, if sn_loaded snap then Some (sn_config snap) else None)
  | None =>
      (sv, match load_local_admin_config fs.2 (sv_base sv) with
           | inr admin => Some admin
           | inl _ => if beqb (sv_base sv) [] then Some (sv_sync_admin sv) else None
           end)
  end.

Definition is_configured (sv : Services) (fs : access) (admin : AdminConfig) : Services * bool :=
  match sv_credentials sv with
  | Some st => let '(sv, snap) := use_store sv st fs in (sv, sn_configured snap)
  | None => (sv, admin_configured fs.2 admin (sv_base sv))
  end.

Definition verify_principal (sv : Services) (fs : access) (admin : AdminConfig) (auth_header : bytes) (now : Z) :
    Services * option Principal :=
  match sv_credentials sv with
  | Some st => let '(sv, snap) := use_store sv st fs in (sv, store_verify snap auth_header now)
  | None => (sv, verify_admin_token fs.2 admin auth_header (sv_base sv) now)
  end.

Definition issue_token (sv : Services) (fs : access) (admin : AdminConfig) (username : bytes) (now : Z) :
    Services * option IssuedToken :=
  match sv_credentials sv with
  | Some st => let '(sv, snap) := use_store sv st fs in (sv, store_issue snap username now)
  | None => (sv, issue_admin_token fs.2 admin username (sv_base sv) now)
  end.

(** *** Metrics *)

Inductive metric :=
| auth_attempts | auth_rejected | login_failures | login_successes | auth_in_flight | auth_work_rejections | throttle_locked_ips.

#[export] Instance metric_eq_dec : EqDecision metric.
Proof. solve_decision. Defined.

Definition Metrics : Type := metric → Z.

(** [if (services.admin_metrics) metric.fetch_add(n)] *)
Definition add_metric (k : metric) (n : Z) (m : option Metrics) : option Metrics :=
  (λ m k', if decide (k' = k) then wrap64 (m k + n) else m k') <$> m.
Definition store_metric (k : metric) (n : Z) (m : option Metrics) : option Metrics :=
  (λ m k', if decide (k' = k) then n else m k') <$> m.

(** *** Responses *)

Definition SERVER_ERROR : Z := 500.
Definition PARAM_ERROR : Z := 400.

Definition add_header (ctx : HttpContext) (name value : bytes) : HttpContext :=
  mkContext (ctx_method ctx) (ctx_path ctx) (ctx_body ctx) (ctx_headers ctx) (status_code ctx) (response_status_text ctx)
    (response_body ctx) (response_headers ctx ++ [(name, value)]) (ctx_principal ctx) (ctx_admin_principal ctx)
    (ctx_client_ip ctx) (ctx_jwt_disabled ctx).

Definition set_json (ctx : HttpContext) : HttpContext :=
  let ctx := if beqb (get_header_value (response_headers ctx) "Content-Type") []
             then add_header ctx "Content-Type" "application/json" else ctx in
  if beqb (get_header_value (response_headers ctx) "Cache-Control") []
  then add_header ctx "Cache-Control" "no-store" else ctx.

Definition respond (ctx : HttpContext) (status : Z) (body : bytes) : HttpContext :=
  mkContext (ctx_method ctx) (ctx_path ctx) (ctx_body ctx) (ctx_headers ctx) status (response_status_text ctx)
    body (response_headers ctx) (ctx_principal ctx) (ctx_admin_principal ctx) (ctx_client_ip ctx) (ctx_jwt_disabled ctx).

Definition set_admin_principal (ctx : HttpContext) (p : option Principal) : HttpContext :=
  mkContext (ctx_method ctx) (ctx_path ctx) (ctx_body ctx) (ctx_headers ctx) (status_code ctx) (response_status_text ctx)
    (response_body ctx) (response_headers ctx) (ctx_principal ctx) p (ctx_client_ip ctx) (ctx_jwt_disabled ctx).

Definition method_not_allowed (ctx : HttpContext) (allow : bytes) : HttpContext :=
  respond (add_header (set_json ctx) "Allow" allow) 405 (resp_err 405 "method not allowed").

Definition admin_login_failed (ctx : HttpContext) : HttpContext := respond ctx 401 (resp_err 401 "invalid credentials").

Definition not_configured (ctx : HttpContext) : HttpContext :=
  respond ctx 503 (resp_err SERVER_ERROR "admin API is not configured").

(** *** [authorize_admin] *)

(** The three uses of the files, and the clock. *)
Definition authorize_admin (sv : Services) (m : option Metrics) (ctx : HttpContext) (f1 f2 f3 : access) (now : Z) :
    Services * option Metrics * HttpContext * bool :=
  let m := add_metric auth_attempts 1 m in
  let ctx := set_json ctx in
  let '(sv, current_admin) := load_effective_admin_config sv f1 in
  match current_admin with
  | None => (sv, add_metric auth_rejected 1 m, not_configured ctx, false)
  | Some admin =>
      if insecure_no_auth admin then (sv, m, set_admin_principal ctx None, true)
      else
        let '(sv, configured) := is_configured sv f2 admin in
        if negb configured then (sv, add_metric auth_rejected 1 m, not_configured ctx, false)
        else
          let '(sv, principal) := verify_principal sv f3 admin (get_header ctx "Authorization") now in
          match principal with
          | None => (sv, add_metric auth_rejected 1 m, respond ctx 401 (resp_err 401 "admin token required"), false)
          | Some p =>
              if negb (has_role p "admin")
              then (sv, add_metric auth_rejected 1 m, respond ctx 403 (resp_err 403 "admin role required"), false)
              else (sv, m, set_admin_principal ctx (Some p), true)
          end
  end.

(** ** The login handler *)

Definition kMaxInFlight : Z := 16.

(** What the handlers share; the throttle and the limiter may be absent. *)
Record LoginShared := mkShared {
  sh_services : Services;
  sh_throttle : option Entries;
  sh_limiter : option Z;            (** [in_flight_] *)
  sh_metrics : option Metrics
}.

Definition with_services (g : LoginShared) (sv : Services) : LoginShared :=
  mkShared sv (sh_throttle g) (sh_limiter g) (sh_metrics g).
Definition with_throttle (g : LoginShared) (m : Entries) : LoginShared :=
  mkShared (sh_services g) (Some m) (sh_limiter g) (sh_metrics g).
Definition with_limiter (g : LoginShared) (n : Z) : LoginShared :=
  mkShared (sh_services g) (sh_throttle g) (Some n) (sh_metrics g).
Definition count (k : metric) (n : Z) (g : LoginShared) : LoginShared :=
  mkShared (sh_services g) (sh_throttle g) (sh_limiter g) (add_metric k n (sh_metrics g)).

(** A request: its context, the configuration it loaded, the parsed body and the
    address it is counted under. *)
Record login_data := mkLoginData { ld_ctx : HttpContext; ld_admin : AdminConfig; ld_req : LoginRequest; ld_ip : bytes }.

Inductive login_pc :=
| LStart (ctx : HttpContext)
| LThrottle (d : login_data)
| LAcquire (d : login_data)
| LLoop (d : login_data) (current : Z)
| LWork (d : login_data)
| LFail (d : login_data)
| LIssue (d : login_data)
| LSuccess (d : login_data) (issued : IssuedToken)
| LCount (d : login_data) (issued : IssuedToken)
| LRelease (ctx : HttpContext)
| LDone (ctx : HttpContext)
| LCrashed.

(** What the environment supplies to a step: the files, the two readings of the
    steady clock, [std::time], and whether a weak exchange fails spuriously. *)
Record login_io := mkLoginIo { io_fs : access; io_now_sweep : Z; io_now : Z; io_time : Z; io_spurious : bool }.

(** The client's address, or a common name for those without one. *)
Definition throttle_key (ctx : HttpContext) : bytes := if beqb (ctx_client_ip ctx) [] then "unknown" else ctx_client_ip ctx.

(** Up to the throttle; a body that overflows the reader's stack ends the process. *)
Definition login_start (stack : nat) (io : login_io) (g : LoginShared) (ctx : HttpContext) : LoginShared * login_pc :=
  let g := count auth_attempts 1 g in
  let ctx := set_json ctx in
  if negb (beqb (ctx_method ctx) "POST") then (g, LDone (method_not_allowed ctx "POST"))
  else
    let '(sv, current_admin) := load_effective_admin_config (sh_services g) (io_fs io) in
    let g := with_services g sv in
    match current_admin with
    | None => (g, LDone (not_configured ctx))
    | Some admin =>
        if bool_decide (accounts admin = []) || beqb (jwt_private_key admin) [] || beqb (jwt_public_key admin) []
        then (g, LDone (not_configured ctx))
        else
          match parse_login_request stack (ctx_body ctx) with
          | Got req _ =>
              match sh_throttle g with
              | None => (g, LDone (respond ctx 503 (resp_err SERVER_ERROR "admin login runtime unavailable")))
              | Some _ => (g, LThrottle (mkLoginData ctx admin req (throttle_key ctx)))
              end
          | Bad error => (g, LDone (respond ctx 400 (resp_err PARAM_ERROR error)))
          | StackOverflow | Exhausted => (g, LCrashed)
          end
    end.

Definition login_throttled (io : login_io) (g : LoginShared) (d : login_data) (m : Entries) : LoginShared * login_pc :=
  let '(m, is_locked) := locked m (io_now_sweep io) (io_now io) (ld_ip d) in
  let g := with_throttle g m in
  if is_locked then (count login_failures 1 (count auth_rejected 1 g), LDone (admin_login_failed (ld_ctx d)))
  else (g, LAcquire d).

Definition too_many (g : LoginShared) (ctx : HttpContext) : LoginShared * login_pc :=
  (count auth_rejected 1 (count auth_work_rejections 1 g),
   LDone (respond (add_header ctx "Retry-After" "1") 429 (resp_err 429 "too many login attempts"))).

(** [try_acquire], and the permit. *)
Definition login_acquire (spurious : bool) (g : LoginShared) (d : login_data) (current in_flight : Z) : LoginShared * login_pc :=
  if current <? kMaxInFlight then
    if (in_flight =? current) && negb spurious
    then (count auth_in_flight 1 (with_limiter g (wrap64 (current + 1))), LWork d)
    else (g, LLoop d in_flight)
  else too_many g (ld_ctx d).

(** On a worker: the configuration is checked afresh, the password against the
    configuration that was loaded first. *)
Definition login_work (io : login_io) (g : LoginShared) (d : login_data) : LoginShared * login_pc :=
  let '(sv, configured) := is_configured (sh_services g) (io_fs io) (ld_admin d) in
  let g := with_services g sv in
  if negb configured then (count auth_rejected 1 g, LRelease (not_configured (ld_ctx d)))
  else if negb (verify_admin_password (ld_admin d) (lg_username (ld_req d)) (lg_password (ld_req d)))
  then (count login_failures 1 g, LFail d)
  else (g, LIssue d).

Definition login_issue (io : login_io) (g : LoginShared) (d : login_data) : LoginShared * login_pc :=
  let '(sv, issued) := issue_token (sh_services g) (io_fs io) (ld_admin d) (lg_username (ld_req d)) (io_time io) in
  let g := with_services g sv in
  match issued with
  | None => (count auth_rejected 1 g, LRelease (respond (ld_ctx d) 503 (resp_err SERVER_ERROR "admin token signer is unavailable")))
  | Some issued => (g, LSuccess d issued)
  end.

Definition login_ok (ctx : HttpContext) (issued : IssuedToken) : HttpContext :=
  respond ctx 200 (resp_ok ("{" ++ quoted "token" ++ ":" ++ quoted (json_escape (token issued)) ++ "," ++
    quoted "expires_in" ++ ":" ++ to_string (expires_in issued) ++ "}")).

(** The metric of locked addresses, and the success. *)
Definition login_count (io : login_io) (g : LoginShared) (d : login_data) (issued : IssuedToken) (m : Entries) : LoginShared * login_pc :=
  let g := mkShared (sh_services g) (sh_throttle g) (sh_limiter g)
    (store_metric throttle_locked_ips (Z.of_nat (locked_entries m (io_now io))) (sh_metrics g)) in
  (count login_successes 1 g, LRelease (login_ok (ld_ctx d) issued)).

(** [~AdminAuthWorkPermit] *)
Definition permit_released (g : LoginShared) (n : Z) : LoginShared := count auth_in_flight (-1) (with_limiter g (fetch_sub1 n)).

Definition login_step (stack : nat) (io : login_io) (g : LoginShared) (p : login_pc) : option (LoginShared * login_pc) :=
  match p with
  | LStart ctx => Some (login_start stack io g ctx)
  | LThrottle d => login_throttled io g d <$> sh_throttle g
  | LAcquire d =>
      match sh_limiter g with
      | None => Some (too_many g (ld_ctx d))
      | Some in_flight => Some (g, LLoop d in_flight)
      end
  | LLoop d current => login_acquire (io_spurious io) g d current <$> sh_limiter g
  | LWork d => Some (login_work io g d)
  | LFail d => (λ m, (with_throttle g (record_failure m (io_now_sweep io) (io_now io) (ld_ip d)), LRelease (admin_login_failed (ld_ctx d)))) <$> sh_throttle g
  | LIssue d => Some (login_issue io g d)
  | LSuccess d issued => (λ m, (with_throttle g (record_success m (ld_ip d)), LCount d issued)) <$> sh_throttle g
  | LCount d issued => login_count io g d issued <$> sh_throttle g
  | LRelease ctx => (λ n, (permit_released g n, LDone ctx)) <$> sh_limiter g
  | LDone _ | LCrashed => None
  end.

(** ** The store shows the files as they are *)

(** A file whose stamp is the same has not changed. *)
Definition unchanged (v0 v : fs_view) : Prop :=
  ∀ p, stamp_file v0 p = stamp_file v p → fs_exists v0 p = fs_exists v p ∧ fs_read v0 p = fs_read v p.

Definition ini_files (base : bytes) : list bytes := [config_sync_ini base; local_ini base].

Definition same_on (v0 v : fs_view) (paths : list bytes) : Prop :=
  ∀ p, p ∈ paths → fs_exists v0 p = fs_exists v p ∧ fs_read v0 p = fs_read v p.

Lemma stamp_path v p : st_path (stamp_file v p) = p.
Proof. unfold stamp_file. repeat case_match; done. Qed.

(** Equal stamps are stamps of the same files. *)
Lemma stamps_same v0 v l0 l : stamp_file v0 <$> l0 = stamp_file v <$> l → unchanged v0 v → l0 = l ∧ same_on v0 v l.
Proof.
  intros Heq Hun. assert (l0 = l) as ->.
  { apply (f_equal (fmap st_path)) in Heq. rewrite <- !list_fmap_compose in Heq. unfold compose in Heq.
    erewrite (list_fmap_ext (λ x, st_path (stamp_file v0 x)) id), (list_fmap_ext (λ x, st_path (stamp_file v x)) id) in Heq
      by (intros; apply stamp_path).
    by rewrite !list_fmap_id in Heq. }
  split; [done|]. intros p Hp. apply Hun. apply list_elem_of_lookup in Hp as [i Hi].
  apply (f_equal (lookup i)) in Heq. rewrite !list_lookup_fmap, Hi in Heq. by injection Heq.
Qed.

Lemma load_files_same v0 v cfg any files : same_on v0 v files.*2 → load_local_files v0 cfg any files = load_local_files v cfg any files.
Proof.
  revert cfg any. induction files as [|[name path] rest IH]; intros cfg any Hs; [done|]. cbn [load_local_files].
  destruct (Hs path) as [-> ->]; [left|]. assert (same_on v0 v rest.*2) as Hr by (intros p Hp; apply Hs; by right).
  case_if; [by apply IH|]. destruct (load_file _ _) as [[] cfg']; [by apply IH|done].
Qed.

Lemma load_config_same base v0 v fb : base ≠ [] → same_on v0 v (ini_files base) → load_config base v0 fb = load_config base v fb.
Proof.
  intros Hb Hs. unfold load_config, load_local_admin_config. rewrite (proj2 (beqb_ne base [])) by done.
  by rewrite (load_files_same v0 v).
Qed.

Lemma load_pem_same base v0 v admin value : base ≠ [] → value = jwt_private_key admin ∨ value = jwt_public_key admin →
  same_on v0 v (key_files base admin) → load_pem_or_file v0 value base = load_pem_or_file v value base.
Proof.
  intros Hb Hv Hs. unfold load_pem_or_file. destruct (beqb value []) eqn:E1; [done|]. destruct (has_pem value) eqn:E2; [done|].
  rewrite (proj2 (beqb_ne base [])) by done. cbn [negb andb].
  destruct (Hs (if is_relative value then path_append base value else value)) as [_ ->]; [|done].
  apply list_elem_of_fmap. exists value. split; [done|]. apply list_elem_of_filter. rewrite E1, E2. split; [done|].
  destruct Hv as [->| ->]; [left|right; left].
Qed.

(** What a load depends on: the two files, and the key files they name. *)
Lemma load_locked_same base v0 v fb : base ≠ [] → same_on v0 v (ini_files base) →
  (sn_loaded (load_locked base v0 fb) = true → same_on v0 v (key_files base (sn_config (load_locked base v0 fb)))) →
  load_locked base v0 fb = load_locked base v fb.
Proof.
  intros Hb Hini Hkeys. unfold load_locked in *. rewrite <- (load_config_same base v0 v) by done.
  destruct (load_config base v0 fb) as [error|admin]; [done|].
  assert (same_on v0 v (key_files base admin)) as Hk.
  { destruct (if beqb (default [] (load_pem_or_file v0 (jwt_public_key admin) base)) [] then _ else _) as [vf e]. by apply Hkeys. }
  rewrite (load_pem_same base v0 v admin (jwt_private_key admin)), (load_pem_same base v0 v admin (jwt_public_key admin)) by auto.
  done.
Qed.

(** The snapshot is the load of an earlier view, with the stamps of that view. *)
Definition cached (base : bytes) (fb : option AdminConfig) (vs : list fs_view) (st : AdminCredentialStore) : Prop :=
  config_base st = base ∧
  (∀ snap, snapshot_ st = Some snap → ∃ v0 keys, v0 ∈ vs ∧ snap = load_locked base v0 fb ∧
     stored_stamp st = stamp_file v0 <$> ini_files base ++ keys).

Lemma snapshot_cached base fb vs st v : base ≠ [] → cached base fb vs st → cached base fb (vs ++ [v]) (snapshot st (v, v) fb).1.
Proof.
  intros Hb [Hbase Hc]. unfold snapshot, source_stamp_locked. cbn [fst snd]. rewrite Hbase, (proj2 (beqb_ne base [])) by done.
  destruct (snapshot_ st) as [snap|] eqn:Es; [case_bool_decide|]; cbn [fst].
  - split; [done|]. intros snap'. rewrite Es. intros [= <-]. destruct (Hc snap eq_refl) as (v0 & keys & Hv0 & ?).
    exists v0, keys. rewrite elem_of_app. auto.
  - split; [done|]. cbn [snapshot_ stored_stamp]. intros snap' [= <-].
    eexists v, _. rewrite elem_of_app, list_elem_of_singleton. split; [by right|]. split; reflexivity.
  - split; [done|]. cbn [snapshot_ stored_stamp]. intros snap' [= <-].
    exists v, []. rewrite elem_of_app, list_elem_of_singleton. split; [by right|]. split; reflexivity.
Qed.

Lemma snapshot_fresh base fb vs st v : base ≠ [] → cached base fb vs st → (∀ v0, v0 ∈ vs → unchanged v0 v) →
  (snapshot st (v, v) fb).2 = load_locked base v fb.
Proof.
  intros Hb [Hbase Hc] Hun. unfold snapshot, source_stamp_locked. cbn [fst snd]. rewrite Hbase, (proj2 (beqb_ne base [])) by done.
  destruct (snapshot_ st) as [snap|] eqn:Es; [|done].
  destruct (Hc snap eq_refl) as (v0 & keys & Hv0 & -> & Hst). case_bool_decide as Heq; cbn [snd]; [|done].
  rewrite Hst in Heq. apply eq_sym, stamps_same in Heq as [Hl Hs]; [|by apply Hun].
  apply load_locked_same; [done|intros p Hp; apply Hs, elem_of_app; by left|]. intros Hld p Hp. apply Hs, elem_of_app. right.
  by rewrite Hld.
Qed.

(** The constructor, and a history of calls. *)
Definition new_store (base : bytes) : AdminCredentialStore := mkStore base [] None.

Definition after_calls (base : bytes) (fb : option AdminConfig) (vs : list fs_view) : AdminCredentialStore :=
  foldl (λ st v, (snapshot st (v, v) fb).1) (new_store base) vs.

Lemma after_calls_cached base fb vs : base ≠ [] → cached base fb vs (after_calls base fb vs).
Proof.
  intros Hb. unfold after_calls. induction vs as [|v vs IH] using rev_ind; [done|].
  rewrite foldl_app. cbn [foldl]. by apply snapshot_cached.
Qed.

(** ** Who is let in *)

(** Only a text without surrounding blanks decodes. *)
Definition rejects_blanks : Prop := ∀ s d, jwt_decode s = Ret d → trim s = s.

(** The scheme and the token of an accepted header. *)
Lemma bearer_token h : bearer_prefix h = true → drop_space h = h.
Proof.
  unfold bearer_prefix. intros Hp. bool_prop. apply drop_space_id. intros c Hc. destruct h as [|c' h]; [done|]. injection Hc as ->.
  cbn [take fmap list_fmap] in Hp. injection Hp as Hc _. 
  destruct (isspace c) eqn:E; [|done]. exfalso. revert Hc E. all_bytes c.
Qed.

Lemma extract_bearer h token : bearer_prefix h = true → extract_token h = Some token → token = trim (drop 7 h).
Proof.
  intros Hb. unfold extract_token. rewrite (bearer_token h Hb). repeat case_if; try done. by intros [= <-].
Qed.

Lemma av_matches_spec h v : av_matches h v = true ↔
  ∃ d, jwt_decode (drop 7 h) = Ret d ∧ d_payload_claims d "av" = Some (JString v).
Proof.
  unfold av_matches. destruct (jwt_decode (drop 7 h)) as [d|]; [|naive_solver].
  destruct (d_payload_claims d "av") as [[s| | |]|] eqn:E; cbn [as_string]; [rewrite beqb_eq|..]; naive_solver.
Qed.

(** The account a token speaks for. *)
Definition token_user (claims : JWTClaims) : bytes :=
  if beqb (cl_username claims) [] then cl_subject claims else cl_username claims.

(** A token that is accepted: it verifies, and carries the version of the password
    its account has in this configuration. *)
Definition admin_token (admin : AdminConfig) (auth : JWTAuth) (now : Z) (token : bytes) (p : Principal) : Prop :=
  ∃ d claims v, jwt_decode token = Ret d ∧ token_accepted auth now d ∧ extract_claims token d = Ret claims ∧
    admin_auth_version admin (token_user claims) = Some v ∧ d_payload_claims d "av" = Some (JString v) ∧
    p = mkPrincipal (cl_subject claims) (cl_username claims) (cl_roles claims).

Lemma verify_with_auth_sound admin h auth now p : rejects_blanks → algorithm auth = "RS256" →
  verify_admin_token_with_auth admin h auth now = Some p →
  bearer_prefix h = true ∧ 7 < slen h ∧ admin_token admin auth now (drop 7 h) p.
Proof.
  intros Hrb Halg. unfold verify_admin_token_with_auth.
  destruct (jwt_verify auth now h) as [claims|] eqn:Hv; [|done]. cbn [mbind option_bind].
  destruct (admin_auth_version admin _) as [v|] eqn:Hver; [|done]. cbn [mbind option_bind].
  case_if; [done|]. case_if; [done|]. intros [= <-]. bool_prop.
  apply jwt_verify_iff in Hv as (token & d & He & Hd & Hacc & Hc); [|by right].
  apply av_matches_spec in Heqb0 as (d' & Hd' & Hav). apply extract_bearer in He as ->; [|done].
  rewrite (Hrb _ _ Hd') in *. rewrite Hd in Hd'. simplify_eq. split; [done|]. split; [lia|]. by exists d', claims, v.
Qed.

Lemma verify_with_auth_complete admin h auth now p : algorithm auth = "RS256" →
  7 < slen h → bearer_prefix h = true → rejects_blanks → admin_token admin auth now (drop 7 h) p →
  verify_admin_token_with_auth admin h auth now = Some p.
Proof.
  intros Halg Hl Hb Hrb (d & claims & v & Hd & Hacc & Hc & Hver & Hav & ->). unfold verify_admin_token_with_auth.
  pose proof (Hrb _ _ Hd) as Ht. assert (extract_token h = Some (drop 7 h)) as He.
  { unfold extract_token. rewrite (bearer_token h Hb), Hb, Ht. replace (slen h <? 7) with false by lia. cbn [negb].
    rewrite (proj2 (beqb_ne (drop 7 h) [])); [done|]. intros He. apply (f_equal length) in He. rewrite length_drop in He.
    unfold slen in Hl. cbn in He. lia. }
  rewrite (proj2 (jwt_verify_iff auth now h claims (or_intror Halg))) by (exists (drop 7 h), d; done).
  cbn [mbind option_bind]. unfold token_user in Hver. rewrite Hver. cbn [mbind option_bind]. rewrite Hb.
  replace (slen h <=? 7) with false by lia. cbn [negb orb].
  rewrite (proj2 (av_matches_spec h v)) by by exists d. done.
Qed.

(** Versions are equal only if the digests of the names and hashes are. *)
Lemma auth_version_digest admin user v : admin_auth_version admin user = Some v →
  ∃ acc digest, find_account (accounts admin) user = Some acc ∧ evp_sha256 (user ++ [LF] ++ acc_password_hash acc) = Some digest ∧
    base64url_decode v = Some digest.
Proof.
  unfold admin_auth_version. destruct (find_account _ _) as [acc|]; [|done]. case_if; [done|].
  destruct (evp_sha256 _) as [digest|] eqn:E; [|done]. case_if; [done|]. intros [= <-]. exists acc, digest.
  split_and!; [done..|]. apply decode_encode.
Qed.

(** The credentials on disk: the configuration, and the verifier when the API is
    configured. *)
Definition credentials_on_disk (v : fs_view) (base : bytes) (admin : AdminConfig) (auth : option JWTAuth) : Prop :=
  load_local_admin_config v base = inr admin ∧
  match auth with
  | None => True
  | Some auth =>
      accounts admin ≠ [] ∧
      (∃ private, load_pem_or_file v (jwt_private_key admin) base = Some private ∧ private ≠ []) ∧
      (∃ public, load_pem_or_file v (jwt_public_key admin) base = Some public ∧ public ≠ [] ∧ make_verifier public = Ret auth)
  end.

Lemma load_locked_loaded base v admin : base ≠ [] →
  sn_loaded (load_locked base v None) = true ∧ sn_config (load_locked base v None) = admin ↔ credentials_on_disk v base admin None.
Proof.
  intros Hb. unfold load_locked, load_config, credentials_on_disk. rewrite (proj2 (beqb_ne base [])) by done.
  destruct (load_local_admin_config v base) as [e|a]; [cbn; naive_solver|].
  destruct (if beqb _ [] then _ else _) as [vf er]. cbn. naive_solver.
Qed.

Lemma pem_nonempty v value base : default [] (load_pem_or_file v value base) ≠ [] ↔
  ∃ pem, load_pem_or_file v value base = Some pem ∧ pem ≠ [].
Proof. destruct (load_pem_or_file v value base) as [pem|]; cbn; naive_solver. Qed.

Lemma load_locked_configured base v admin auth : base ≠ [] →
  sn_configured (load_locked base v None) = true ∧ sn_config (load_locked base v None) = admin ∧
  verifier (load_locked base v None) = Some auth ↔ credentials_on_disk v base admin (Some auth).
Proof.
  intros Hb. unfold load_locked, load_config, credentials_on_disk. rewrite (proj2 (beqb_ne base [])) by done.
  destruct (load_local_admin_config v base) as [e|a]; [cbn; naive_solver|].
  pose proof (pem_nonempty v (jwt_private_key a) base) as Hpriv. pose proof (pem_nonempty v (jwt_public_key a) base) as Hpub.
  destruct (beqb (default [] (load_pem_or_file v (jwt_public_key a) base)) []) eqn:E.
  - apply beqb_eq in E. split; [by intros (_ & _ & ?)|]. intros ([= <-] & _ & _ & (pub & Hp & Hn & _)). exfalso.
    by apply (proj2 Hpub); [exists pub|].
  - apply beqb_ne in E. destruct (make_verifier _) as [auth'|e'] eqn:Em; cbn [sn_configured sn_config verifier].
    + split.
      * intros (Hc & <- & [= <-]). bool_prop. split; [done|]. split; [done|]. 
        split; [apply Hpriv; by apply beqb_ne|]. apply Hpub in E as (pub & Hp & Hn). exists pub. rewrite Hp in Em. done.
      * intros ([= <-] & Ha & Hp & pub & Hl & Hn & Hm). rewrite Hl in Em. cbn in Em. rewrite Hm in Em. simplify_eq.
        split; [|done]. rewrite bool_decide_eq_false_2 by done. apply Hpriv in Hp. apply beqb_ne in Hp as ->. done.
    + split; [by intros (_ & _ & ?)|]. intros ([= <-] & _ & _ & pub & Hl & Hn & Hm). rewrite Hl in Em. cbn in Em. congruence.
Qed.

Lemma configured_loaded base v : sn_configured (load_locked base v None) = true →
  sn_loaded (load_locked base v None) = true ∧ is_Some (verifier (load_locked base v None)).
Proof.
  unfold load_locked. destruct (load_config base v None) as [e|a]; [done|]. destruct (if beqb _ [] then _ else _) as [vf er].
  cbn. intros Hc. bool_prop. done.
Qed.

Lemma verifier_algorithm public auth : make_verifier public = Ret auth → algorithm auth = "RS256".
Proof.
  unfold make_verifier, make_jwt_auth. change (beqb "RS256" "HS256") with false. rewrite beqb_refl.
  repeat case_if; intros; simplify_eq; done.
Qed.

(** The services of a running gateway: a base directory and a store that has
    answered calls over the views [vs]. *)
Definition services_at (sv : Services) (vs : list fs_view) : Prop :=
  sv_base sv ≠ [] ∧ ∃ st, sv_credentials sv = Some st ∧ cached (sv_base sv) None vs st.

Lemma use_store_fresh sv vs v st : services_at sv vs → (∀ v0, v0 ∈ vs → unchanged v0 v) → sv_credentials sv = Some st →
  ∃ sv', use_store sv st (v, v) = (sv', load_locked (sv_base sv) v None) ∧ services_at sv' (vs ++ [v]) ∧ sv_base sv' = sv_base sv.
Proof.
  intros (Hb & st' & Hst & Hc) Hun Hs. rewrite Hst in Hs. injection Hs as ->. unfold use_store, fallback.
  rewrite (proj2 (beqb_ne (sv_base sv) [])) by done.
  pose proof (snapshot_fresh _ None vs st v Hb Hc Hun) as Hf. pose proof (snapshot_cached _ None vs st v Hb Hc) as Hc'.
  destruct (snapshot st (v, v) None) as [st'' snap]. cbn [fst snd] in *. subst snap. eexists. split; [done|]. split; [|done].
  split; [done|]. by exists st''.
Qed.

Lemma unchanged_refl vs v : (∀ v0, v0 ∈ vs → unchanged v0 v) → ∀ v0, v0 ∈ vs ++ [v] → unchanged v0 v.
Proof. intros Hun v0 [Hv| ->%list_elem_of_singleton]%elem_of_app; [by apply Hun|]. by intros p. Qed.

(** The guard, with the store replaced by the files themselves. *)
Lemma authorize_fresh sv m ctx vs v now : services_at sv vs → (∀ v0, v0 ∈ vs → unchanged v0 v) →
  let snap := load_locked (sv_base sv) v None in
  let '(sv', _, ctx', ok) := authorize_admin sv m ctx (v, v) (v, v) (v, v) now in
  (∃ vs', services_at sv' vs') ∧
  (ctx', ok) =
  (let ctx := set_json ctx in
   if negb (sn_loaded snap) then (not_configured ctx, false)
   else if insecure_no_auth (sn_config snap) then (set_admin_principal ctx None, true)
   else if negb (sn_configured snap) then (not_configured ctx, false)
   else match store_verify snap (get_header ctx "Authorization") now with
        | None => (respond ctx 401 (resp_err 401 "admin token required"), false)
        | Some p => if negb (has_role p "admin") then (respond ctx 403 (resp_err 403 "admin role required"), false)
                    else (set_admin_principal ctx (Some p), true)
        end).
Proof.
  intros Hsv Hun snap. unfold authorize_admin, load_effective_admin_config, is_configured, verify_principal.
  destruct Hsv as (Hb & st & Hst & Hc). rewrite Hst.
  destruct (use_store_fresh sv vs v st) as (sv1 & -> & Hsv1 & Hb1); [by split; [|exists st]|done|done|]. fold snap.
  destruct (sn_loaded snap); [|by split; [eexists|]]. cbn [negb]. destruct (insecure_no_auth _); [by split; [eexists|]|].
  pose proof (unchanged_refl _ _ Hun) as Hun1. destruct Hsv1 as (Hb1' & st1 & Hst1 & Hc1). rewrite Hst1.
  destruct (use_store_fresh sv1 (vs ++ [v]) v st1) as (sv2 & -> & Hsv2 & Hb2); [by split; [|exists st1]|done|done|].
  rewrite Hb1. fold snap. destruct (sn_configured snap); [|by split; [eexists|]]. cbn [negb].
  pose proof (unchanged_refl _ _ Hun1) as Hun2. destruct Hsv2 as (Hb2' & st2 & Hst2 & Hc2). rewrite Hst2.
  destruct (use_store_fresh sv2 ((vs ++ [v]) ++ [v]) v st2) as (sv3 & -> & Hsv3 & Hb3); [by split; [|exists st2]|done|done|].
  rewrite Hb2, Hb1. fold snap. destruct (store_verify _ _ _) as [p|]; [|by split; [eexists|]].
  destruct (has_role p "admin"); by split; [eexists|].
Qed.

Lemma store_verify_spec base v h now p : base ≠ [] → rejects_blanks → sn_configured (load_locked base v None) = true →
  store_verify (load_locked base v None) h now = Some p ↔
  ∃ auth, credentials_on_disk v base (sn_config (load_locked base v None)) (Some auth) ∧ bearer_prefix h = true ∧ 7 < slen h ∧
    admin_token (sn_config (load_locked base v None)) auth now (drop 7 h) p.
Proof.
  intros Hb Hrb Hc. unfold store_verify. rewrite Hc. cbn [negb]. destruct (configured_loaded base v Hc) as (_ & auth & Hv). rewrite Hv.
  assert (credentials_on_disk v base (sn_config (load_locked base v None)) (Some auth)) as Hd by by apply load_locked_configured.
  assert (algorithm auth = "RS256") as Halg by (destruct Hd as (_ & _ & _ & pub & _ & _ & Hm); by eapply verifier_algorithm).
  split.
  - intros Hp. exists auth. split; [done|]. by apply verify_with_auth_sound.
  - intros (auth' & Hd' & Hpre & Hl & Ht). apply load_locked_configured in Hd' as (_ & _ & Hv'); [|done].
    rewrite Hv in Hv'. injection Hv' as ->. by apply verify_with_auth_complete.
Qed.

(** C21: The admin API is guarded by the credentials that are on disk now.
    Whatever calls the cache of credentials has answered before, and provided a
    file does not change without a change of its size or time, a request passes
    exactly when the local configuration can be loaded and either switches the
    authentication off, or is complete and the request carries a Bearer token
    that its key verifies, that has not expired, that has the role "admin" and
    whose version is the digest of the account's name and present password hash:
    so replacing a password (or an account, or a key) revokes the tokens issued
    before at the next request.  Every other request is answered 401, 403 or
    503. *)
Theorem admin_access_exact sv m ctx vs v now :
  rejects_blanks → services_at sv vs → (∀ v0, v0 ∈ vs → unchanged v0 v) →
  let '(sv', _, ctx', ok) := authorize_admin sv m ctx (v, v) (v, v) (v, v) now in
  (∃ vs', services_at sv' vs') ∧
  (ok = false → status_code ctx' ∈ [401; 403; 503]) ∧
  (ok = true ↔ ∃ admin, credentials_on_disk v (sv_base sv) admin None ∧
     (insecure_no_auth admin = true ∨
      ∃ auth p, credentials_on_disk v (sv_base sv) admin (Some auth) ∧
        let h := get_header (set_json ctx) "Authorization" in
        bearer_prefix h = true ∧ 7 < slen h ∧ admin_token admin auth now (drop 7 h) p ∧ ("admin" : bytes) ∈ roles p)) ∧
  (∀ admin auth token p, admin_token admin auth now token p →
     ∃ d claims acc digest av, jwt_decode token = Ret d ∧ token_accepted auth now d ∧ extract_claims token d = Ret claims ∧
       d_payload_claims d "av" = Some (JString av) ∧ find_account (accounts admin) (token_user claims) = Some acc ∧
       evp_sha256 (token_user claims ++ [LF] ++ acc_password_hash acc) = Some digest ∧ base64url_decode av = Some digest).
Proof.
  intros Hrb Hsv Hun. pose proof (authorize_fresh sv m ctx vs v now Hsv Hun) as Hf. cbv zeta in Hf.
  destruct Hsv as (Hb & _).
  destruct (authorize_admin sv m ctx (v, v) (v, v) (v, v) now) as [[[sv' m'] ctx'] ok]. destruct Hf as [Hsv' Hf].
  split; [done|]. set (base := sv_base sv) in *. split.
  { intros ->. destruct (negb (sn_loaded _)); [injection Hf as ->; cbn; set_solver|]. destruct (insecure_no_auth _); [done|].
    destruct (negb (sn_configured _)); [injection Hf as ->; cbn; set_solver|].
    destruct (store_verify _ _ _) as [p|]; [|injection Hf as ->; cbn; set_solver].
    destruct (negb (has_role p "admin")); [injection Hf as ->; cbn; set_solver|done]. }
  split; [|intros admin auth token p (d & claims & av & Hd & Hacc & Hc & Hver & Hav & _)].
  2:{ apply auth_version_digest in Hver as (acc & digest & Hfa & Hdig & Hdec). by exists d, claims, acc, digest, av. }
  split.
  - intros ->. destruct (sn_loaded (load_locked base v None)) eqn:Hl; [|done]. cbn [negb] in Hf.
    exists (sn_config (load_locked base v None)). split; [by apply load_locked_loaded|].
    destruct (insecure_no_auth _); [by left|]. destruct (sn_configured _) eqn:Hc; [|done]. cbn [negb] in Hf.
    destruct (store_verify _ _ _) as [p|] eqn:Hp; [|done]. apply store_verify_spec in Hp as (auth & Hd & Hp); [|done..].
    destruct (has_role p "admin") eqn:Hr; [|done]. apply has_role_spec in Hr. right. exists auth, p. naive_solver.
  - intros (admin & Hd & Hor). apply load_locked_loaded in Hd as [Hl Hcfg]; [|done]. rewrite Hl, Hcfg in Hf. cbn [negb] in Hf.
    destruct (insecure_no_auth admin); [by injection Hf|]. destruct Hor as [?|(auth & p & Hd & Hpre & Hlen & Ht & Hr)]; [done|].
    pose proof (proj2 (load_locked_configured base v admin auth Hb) Hd) as (Hc & _ & _).
    rewrite Hc in Hf. cbn [negb] in Hf. rewrite (proj2 (store_verify_spec base v _ now p Hb Hrb Hc)) in Hf.
    + apply has_role_spec in Hr. rewrite Hr in Hf. cbn [negb] in Hf. by injection Hf.
    + rewrite Hcfg. by exists auth.
Qed.

(** ** Logins in parallel *)

Definition in_flight_of (g : LoginShared) : Z := default 0 (sh_limiter g).

Definition holds_work_permit (p : login_pc) : bool :=
  match p with LWork _ | LFail _ | LIssue _ | LSuccess _ _ | LCount _ _ | LRelease _ => true | _ => false end.

Definition password_ok (d : login_data) : bool :=
  verify_admin_password (ld_admin d) (lg_username (ld_req d)) (lg_password (ld_req d)).

Definition issued_for (user : bytes) (issued : IssuedToken) : Prop :=
  ∃ admin pem now, issue_admin_token_with_pem admin user pem now = Some issued.

(** A successful answer: the password was accepted and the token issued for its
    user. *)
Definition granted (ctx : HttpContext) : Prop :=
  ∃ d issued, password_ok d = true ∧ issued_for (lg_username (ld_req d)) issued ∧ ctx = login_ok (ld_ctx d) issued.

Definition login_inv (p : login_pc) : Prop :=
  match p with
  | LFail d => password_ok d = false
  | LIssue d => password_ok d = true
  | LSuccess d issued | LCount d issued => password_ok d = true ∧ issued_for (lg_username (ld_req d)) issued
  | LRelease ctx | LDone ctx => status_code ctx = 200 → granted ctx
  | _ => True
  end.

(** Between the steps of the handlers, anything but the limiter may change. *)
Definition login_machine (stack : nat) : LeaseMachine LoginShared login_pc := {|
  lm_phase := λ _, Running;
  lm_active := in_flight_of;
  lm_step := λ g p g' p', ∃ io, login_step stack io g p = Some (g', p');
  lm_env := λ g g', sh_limiter g' = sh_limiter g;
  lm_token := λ p, Z.b2z (holds_work_permit p);
  lm_lease := holds_work_permit;
  lm_ok := login_inv
|}.

Lemma store_issued snap user now issued : store_issue snap user now = Some issued → issued_for user issued.
Proof. unfold store_issue. case_if; [done|]. intros Hi. by eexists _, _, _. Qed.

Lemma issue_token_issued sv fs admin user now sv' issued : issue_token sv fs admin user now = (sv', Some issued) → issued_for user issued.
Proof.
  unfold issue_token. destruct (sv_credentials sv) as [st|].
  - destruct (use_store sv st fs) as [sv1 snap]. intros [= _ Hi]. by eapply store_issued.
  - intros [= _ Hi]. unfold issue_admin_token in Hi. destruct (load_pem_or_file _ _ _) as [pem|]; [|done]. by eexists _, _, _.
Qed.

(** The steps that do not touch the limiter. *)
Lemma start_spec stack io g ctx g' p' : login_start stack io g ctx = (g', p') →
  sh_limiter g' = sh_limiter g ∧ login_inv p' ∧ holds_work_permit p' = false.
Proof.
  unfold login_start. destruct (negb _); [by intros [= <- <-]|]. destruct (load_effective_admin_config _ _) as [sv [admin|]];
    [|by intros [= <- <-]]. destruct (_ || _); [by intros [= <- <-]|].
  destruct (parse_login_request _ _); try by intros [= <- <-]. destruct (sh_throttle _); by intros [= <- <-].
Qed.

Lemma throttled_spec io g d m g' p' : login_throttled io g d m = (g', p') →
  sh_limiter g' = sh_limiter g ∧ login_inv p' ∧ holds_work_permit p' = false.
Proof. unfold login_throttled. destruct (locked _ _ _ _) as [m' []]; by intros [= <- <-]. Qed.

Lemma work_spec io g d g' p' : login_work io g d = (g', p') →
  sh_limiter g' = sh_limiter g ∧ login_inv p' ∧ holds_work_permit p' = true.
Proof.
  unfold login_work. destruct (is_configured _ _ _) as [sv []]; cbn [negb]; [|by intros [= <- <-]].
  fold (password_ok d). destruct (password_ok d) eqn:E; by intros [= <- <-].
Qed.

Lemma issue_spec io g d g' p' : password_ok d = true → login_issue io g d = (g', p') →
  sh_limiter g' = sh_limiter g ∧ login_inv p' ∧ holds_work_permit p' = true.
Proof.
  intros Hp. unfold login_issue. destruct (issue_token _ _ _ _ _) as [sv [issued|]] eqn:E; intros [= <- <-]; [|done].
  split; [done|]. split; [|done]. split; [done|]. by eapply issue_token_issued.
Qed.

Lemma acquire_spec spurious g d current n g' p' : sh_limiter g = Some n → 0 ≤ n < SIZE_MAX →
  login_acquire spurious g d current n = (g', p') →
  login_inv p' ∧ ∃ n', sh_limiter g' = Some n' ∧ n' - n = Z.b2z (holds_work_permit p') ∧ (n ≤ 16 → n' ≤ 16).
Proof.
  unfold login_acquire, kMaxInFlight. intros Hl Hn. case_if.
  - case_if; intros [= <- <-]; (split; [done|]).
    + bool_prop. eexists. split; [done|]. subst current. rewrite wrap64_small by (unfold SIZE_MAX in *; lia). cbn. lia.
    + exists n. split; [done|]. cbn. lia.
  - intros [= <- <-]. split; [done|]. exists n. split; [done|]. cbn. lia.
Qed.

(** Every step counts its permits, keeps to the limit and leaves a limiter. *)
Lemma login_step_counts stack io g p g' p' n : login_step stack io g p = Some (g', p') → login_inv p → sh_limiter g = Some n →
  0 ≤ n < SIZE_MAX → Z.b2z (holds_work_permit p) ≤ n →
  login_inv p' ∧ ∃ n', sh_limiter g' = Some n' ∧ n' - n = Z.b2z (holds_work_permit p') - Z.b2z (holds_work_permit p) ∧ (n ≤ 16 → n' ≤ 16).
Proof.
  intros Hs Hok Hl Hn Ht.
  assert (∀ b b', sh_limiter g' = sh_limiter g ∧ login_inv p' ∧ holds_work_permit p' = b' → b = b' →
    login_inv p' ∧ ∃ n', sh_limiter g' = Some n' ∧ n' - n = Z.b2z (holds_work_permit p') - Z.b2z b ∧ (n ≤ 16 → n' ≤ 16)) as Hkeep.
  { intros b b' (Hg & Hi & ->) ->. split; [done|]. exists n. rewrite Hg. split; [done|]. lia. }
  destruct p as [ctx|d|d|d cur|d|d|d|d issued|d issued|ctx|ctx|]; cbn [login_step login_inv] in *; cbn [holds_work_permit] in *.
  - injection Hs as Hs. eapply Hkeep; [by eapply start_spec|done].
  - destruct (sh_throttle g) as [m|]; [|done]. injection Hs as Hs. eapply Hkeep; [by eapply throttled_spec|done].
  - rewrite Hl in Hs. injection Hs as <- <-. by eapply Hkeep.
  - rewrite Hl in Hs. injection Hs as Hs. destruct (acquire_spec _ _ _ _ _ _ _ Hl Hn Hs) as (Hi & n' & Hl' & Hd & Hm).
    split; [done|]. exists n'. cbn. split_and!; [done|lia|done].
  - injection Hs as Hs. eapply Hkeep; [by eapply work_spec|done].
  - destruct (sh_throttle g) as [m|]; [|done]. injection Hs as <- <-. by eapply Hkeep.
  - injection Hs as Hs. eapply Hkeep; [by eapply issue_spec|done].
  - destruct (sh_throttle g) as [m|]; [|done]. injection Hs as <- <-. by eapply Hkeep.
  - destruct (sh_throttle g) as [m|]; [|done]. injection Hs as <- <-. eapply Hkeep; [|done]. split_and!; [done| |done].
    intros _. exists d, issued. naive_solver.
  - rewrite Hl in Hs. injection Hs as <- <-. split; [done|]. eexists. split; [done|]. cbn in Ht. unfold fetch_sub1.
    rewrite wrap64_small by lia. cbn. lia.
  - done.
  - done.
Qed.

(** Without a limiter no permit is granted. *)
Lemma login_step_refused stack io g p g' p' : login_step stack io g p = Some (g', p') → sh_limiter g = None →
  holds_work_permit p = false → sh_limiter g' = None ∧ login_inv p' ∧ holds_work_permit p' = false.
Proof.
  intros Hs Hl Ht. destruct p as [ctx|d|d|d cur|d|d|d|d issued|d issued|ctx|ctx|]; try done; cbn [login_step] in Hs.
  - injection Hs as Hs. rewrite <- Hl. by eapply start_spec.
  - destruct (sh_throttle g) as [m|]; [|done]. injection Hs as Hs. rewrite <- Hl. by eapply throttled_spec.
  - rewrite Hl in Hs. by injection Hs as <- <-.
  - by rewrite Hl in Hs.
Qed.

Lemma login_laws stack : @LeaseLaws _ _ (login_machine stack).
Proof.
  split; cbn; try done.
  - intros p. by destruct (holds_work_permit p).
  - intros p. by destruct (holds_work_permit p).
  - by intros p ->.
  - unfold in_flight_of. intros g p g' p' [io Hs] Hok Ha Ht. destruct (sh_limiter g) as [n|] eqn:Hl; cbn [from_option id] in *.
    + destruct (login_step_counts _ _ _ _ _ _ _ Hs Hok Hl Ha Ht) as (Hi & n' & -> & Hd & _). done.
    + destruct (holds_work_permit p) eqn:E; [cbn in Ht; lia|].
      by destruct (login_step_refused _ _ _ _ _ _ Hs Hl E) as (-> & Hi & ->).
  - unfold in_flight_of. by intros g g' ->.
Qed.

(** However many logins run at once and however their steps interleave, at
    most sixteen of them hold a permit to derive a key; the limiter's counter is
    exactly the number of permits held, and it is zero again when every login has
    been answered, whichever path it took.  And a login is answered with success
    only after its password was accepted and a token was issued for its user. *)
Lemma login_work_bounded stack g0 ctxs g ts :
  sh_limiter g0 = Some 0 → Z.of_nat (length ctxs) < SIZE_MAX →
  rtc (lease_step (H := login_machine stack)) (g0, LStart <$> ctxs) (g, ts) →
  (∃ n, sh_limiter g = Some n ∧ n = total (λ p, Z.b2z (holds_work_permit p)) ts ∧ n ≤ 16) ∧
  ((∀ p, p ∈ ts → ∃ ctx, p = LDone ctx) → sh_limiter g = Some 0) ∧
  (∀ ctx, LDone ctx ∈ ts → status_code ctx = 200 → granted ctx).
Proof.
  intros Hg Hn Hr. pose proof (login_laws stack) as Hlaws.
  assert (counted (H := login_machine stack) (g0, LStart <$> ctxs)) as Hc0.
  { split_and!; cbn [fst snd]; [by rewrite length_fmap| |by apply Forall_fmap, Forall_true].
    cbn. unfold in_flight_of. rewrite Hg. symmetry. apply total_zero. by intros p (ctx & -> & _)%list_elem_of_fmap. }
  destruct (counted_invariant (H := login_machine stack) (λ g, ∃ n, sh_limiter g = Some n ∧ n ≤ 16) (g0, LStart <$> ctxs) (g, ts))
    as ((_ & Ht & Hok) & n & Hl & Hmax); [| |done|by exists 0|done|].
  { cbn. unfold in_flight_of. intros g1 p g2 p' [io Hs] Hok Ha Htk (n & Hl & Hm). rewrite Hl in Ha, Htk.
    destruct (login_step_counts _ _ _ _ _ _ _ Hs Hok Hl Ha Htk) as (_ & n' & Hl' & _ & Hm'). exists n'. auto. }
  { cbn. intros g1 g2 ->. done. }
  cbn [fst snd] in *. cbn in Ht, Hok. unfold in_flight_of in Ht. rewrite Hl in Ht. cbn [from_option id] in Ht.
  split; [by exists n|]. split.
  - intros Hall. rewrite Hl, Ht. f_equal. apply total_zero. intros p Hp. by destruct (Hall p Hp) as [ctx ->].
  - intros ctx Hin. rewrite Forall_forall in Hok. apply (Hok _ Hin).
Qed.

End model.

(** ** Examples *)

Module LoginSample.
#[local] Existing Instance Sample.ssl.
#[local] Existing Instance Sample.order.

Definition ini_with (hash : bytes) : bytes :=
  "[admin]" ++ [LF] ++ "root=" ++ hash ++ [LF] ++ "jwt_private_key=-----BEGIN a" ++ [LF] ++
  "jwt_public_key=-----BEGIN b" ++ [LF].

(** Only the local file exists. *)
Definition base : bytes := "/etc/gw".
Definition files_with (hash : bytes) (mtime : Z) : fs_view :=
  let here p := beqb p (local_ini base) in
  let ini := ini_with hash in
  mkFs here here (λ p, if here p then Some (slen ini) else None) (λ p, if here p then Some mtime else None)
    (λ p, if here p then Some ini else None).
Definition files : fs_view := files_with Sample.hash 7.

(** The same files after the password was changed. *)
Definition new_hash : bytes := pbkdf2_sha256_hash_string "changed" "salt" 1000 8.
Definition new_files : fs_view := files_with new_hash 8.

Definition admin_with (hash : bytes) : AdminConfig := mkAdmin [mkAccount "root" hash] "-----BEGIN a" "-----BEGIN b" 120 false.
Definition admin : AdminConfig := admin_with Sample.hash.

Definition version : bytes := default [] (admin_auth_version admin "root").

Definition decoded : decoded_jwt :=
  mkDecoded "h" "p" "s" (Ret ("RS256" : bytes)) (Ret kAdminIssuer) (Ret ("root" : bytes)) (Some (Ret 5000000000)) None
    (λ n, if beqb n "av" then Some (JString version)
          else if beqb n "name" then Some (JString "root")
          else if beqb n "roles" then Some (JArray [JString "admin"]) else None).

#[local] Instance jwt : JwtCpp := {|
  jwt_decode := λ t, if beqb t "tok" then Ret decoded else Throw "invalid token";
  hs256_verify := λ _ _ _, Throw "unused";
  rs256_verify := λ _ _ _, true;
  pem_parses := λ _, true
|}.

Lemma jwt_no_blanks : rejects_blanks.
Proof.
  intros s d. change (jwt_decode s) with (if beqb s "tok" then Ret decoded else Throw "invalid token").
  destruct (beqb s "tok") eqn:E; [|done]. apply beqb_eq in E as ->. intros _. vm_compute. reflexivity.
Qed.

Definition services : Services := mkServices base admin_config0 (Some (new_store base)).

Lemma services_new : services_at services [].
Proof. split; [done|]. by exists (new_store base). Qed.

Definition guarded : HttpContext :=
  mkContext "GET" "/api/admin/config" [] [("Authorization" : bytes, "Bearer tok" : bytes)] 200 [] [] [] None None "10.0.0.1" false.

Definition login : HttpContext :=
  mkContext "POST" "/api/admin/login"
    ("{" ++ quoted "username" ++ ":" ++ quoted "root" ++ "," ++ quoted "password" ++ ":" ++ quoted "pw" ++ "}")
    [] 200 [] [] [] None None "10.0.0.1" false.

Definition shared : LoginShared := mkShared services (Some ∅) (Some 0) None.
Definition io : login_io := mkLoginIo (files, files) 1 1 1 false.

(** One handler alone. *)
Fixpoint run (io : login_io) (n : nat) (g : LoginShared) (p : login_pc) : LoginShared * login_pc :=
  match n with
  | O => (g, p)
  | S n => match login_step 10 io g p with Some (g, p) => run io n g p | None => (g, p) end
  end.

Lemma run_steps io n g p : rtc (lease_step (H := login_machine 10)) (g, [p]) ((run io n g p).1, [(run io n g p).2]).
Proof.
  revert g p. induction n as [|n IH]; intros g p; cbn [run]; [done|].
  destruct (login_step 10 io g p) as [[g' p']|] eqn:E; [|done].
  eapply rtc_l; [|apply IH]. apply (thread_step (H := login_machine 10) g [p] 0 p g' p'); [done|]. by exists io.
Qed.
(** The password is changed between the two steps of one login that read the
    configuration: the old password is accepted, and the token that is issued
    carries the version of the new one. *)
Lemma old_password_new_token :
  let new_io := mkLoginIo (new_files, new_files) 2 2 2 false in
  let '(g, p) := run io 4 shared (LStart login) in
  let '(_, p) := run new_io 10 g p in
  verify_admin_password (admin_with new_hash) "root" "pw" = false ∧
  p = LDone (login_ok (set_json login) (default (mkIssued [] 0) (issue_admin_token_with_pem (admin_with new_hash) "root" "-----BEGIN a" 2))).
Proof. vm_compute. split; reflexivity. Qed.
End LoginSample.

Lemma admin_access_exact_witness :
  (@authorize_admin Sample.ssl LoginSample.jwt LoginSample.services None LoginSample.guarded
     (LoginSample.files, LoginSample.files) (LoginSample.files, LoginSample.files) (LoginSample.files, LoginSample.files) 1000).2 = true ∧
  ∃ admin, credentials_on_disk (H0 := LoginSample.jwt) LoginSample.files LoginSample.base admin None ∧
    (insecure_no_auth admin = true ∨ ∃ auth p, @admin_token Sample.ssl LoginSample.jwt admin auth 1000 "tok" p).
Proof.
  pose proof (@admin_access_exact Sample.ssl LoginSample.jwt LoginSample.services None LoginSample.guarded [] LoginSample.files 1000
    LoginSample.jwt_no_blanks LoginSample.services_new ltac:(by intros v0 ?%not_elem_of_nil)) as Hx.
  assert ((@authorize_admin Sample.ssl LoginSample.jwt LoginSample.services None LoginSample.guarded
     (LoginSample.files, LoginSample.files) (LoginSample.files, LoginSample.files) (LoginSample.files, LoginSample.files) 1000).2 = true)
    as Hok by (vm_compute; reflexivity).
  split; [exact Hok|]. destruct (authorize_admin _ _ _ _ _ _ _) as [[[sv' m'] ctx'] ok].
  destruct Hx as (_ & _ & Hiff & _). destruct (proj1 Hiff Hok) as (admin & Hd & Hor). exists admin. split; [exact Hd|].
  destruct Hor as [Hi|(auth & p & _ & _ & _ & Ht & _)]; [by left|]. right. exists auth, p. exact Ht.
Defined.

Lemma login_work_bounded_witness :
  let '(g, p) := @LoginSample.run LoginSample.io 10 LoginSample.shared (LStart LoginSample.login) in
  sh_limiter g = Some 0 ∧ ∃ ctx, p = LDone ctx ∧ status_code ctx = 200 ∧ @granted Sample.ssl ctx.
Proof.
  pose proof (LoginSample.run_steps LoginSample.io 10 LoginSample.shared (LStart LoginSample.login)) as Hr.
  assert (match (LoginSample.run LoginSample.io 10 LoginSample.shared (LStart LoginSample.login)).2 with LDone ctx => status_code ctx | _ => 0 end = 200)
    as Hst by (vm_compute; reflexivity).
  destruct (LoginSample.run LoginSample.io 10 LoginSample.shared (LStart LoginSample.login)) as [g p]. cbn [fst snd] in Hr, Hst.
  destruct (@login_work_bounded Sample.ssl LoginSample.jwt Sample.order 10 LoginSample.shared [LoginSample.login] g [p])
    as (_ & Hz & Hg); [reflexivity|by vm_compute|exact Hr|].
  destruct p as [| | | | | | | | | |ctx|]; try discriminate Hst. split.
  - apply Hz. intros p Hp. apply list_elem_of_singleton in Hp as ->. by exists ctx.
  - exists ctx. split; [done|]. split; [done|]. apply Hg; [by left|done].
Defined.
