(* ===== verification/AdminPages.v ===== *)
(** * The admin pages (src/src/app/admin/admin_routes.cpp, handle_admin_page)

    The pages are embedded at build time, so their text is a parameter.  Each
    answer draws a nonce, puts it on the inline style and script elements of the
    page and names it in the Content-Security-Policy header.  The theorems show
    that the rewriting changes exactly the bare tags, that none is left, and that
    nothing of the nonce can leave its attribute. *)

From S2P Require Import Prelude HttpProtocol Response AdminAuth.

(** ** The rewriting *)

(** [while ((pos = html.find(tag, pos)) != npos) { replace; pos += ...; }] *)
Fixpoint replace_loop (fuel : nat) (tag replacement html : bytes) (pos : nat) : option bytes :=
  match fuel with
  | O => None
  | S fuel =>
      match find_str tag (drop pos html) with
      | None => Some html
      | Some i =>
          let pos := (pos + i)%nat in
          replace_loop fuel tag replacement (take pos html ++ replacement ++ drop (pos + length tag) html)
            (pos + length replacement)
      end
  end.

(** Every turn leaves at least one byte less to search. *)
Definition replace_tags (tag replacement html : bytes) : option bytes :=
  replace_loop (S (length html)) tag replacement html 0.

Definition style_tag : bytes := "<style>".
Definition script_tag : bytes := "<script>".

Definition nonce_tag (element nonce : bytes) : bytes :=
  "<" ++ element ++ " nonce=" ++ [DQUOTE] ++ nonce ++ [DQUOTE] ++ ">".

Definition add_csp_nonce (html nonce : bytes) : option bytes :=
  html ← replace_tags style_tag (nonce_tag "style" nonce) html;
  replace_tags script_tag (nonce_tag "script" nonce) html.

(** ** The answers *)

(** [RAND_bytes] of 18 bytes: [None] when it fails. *)
Definition csp_nonce (random : option bytes) : option bytes := base64url_encode <$> random.

Definition csp_policy (nonce : bytes) : bytes :=
  "default-src 'self'; script-src 'self' 'nonce-" ++ nonce ++ "'; style-src 'self' 'nonce-" ++ nonce ++
  "'; connect-src 'self'; img-src 'self' data:; base-uri 'none'; frame-ancestors 'none'; form-action 'self'".

Definition page_reply (ctx : HttpContext) (status : Z) (body : bytes) (fields : headers) : HttpContext :=
  mkContext (ctx_method ctx) (ctx_path ctx) (ctx_body ctx) (ctx_headers ctx) status (response_status_text ctx) body
    (response_headers ctx ++ fields) (ctx_principal ctx) (ctx_admin_principal ctx) (ctx_client_ip ctx) (ctx_jwt_disabled ctx).

Definition page_fields : headers :=
  [("Content-Type" : bytes, "text/html; charset=utf-8" : bytes); ("Cache-Control" : bytes, "no-store" : bytes)].

(** [handle_admin_page] and [handle_admin_settings_page]; [html] is the embedded
    page, [random] what the generator delivers.  [None] would be a loop that does
    not end. *)
Definition handle_admin_page (html : bytes) (random : option bytes) (ctx : HttpContext) : option HttpContext :=
  if negb (beqb (ctx_method ctx) "GET") && negb (beqb (ctx_method ctx) "HEAD")
  then Some (page_reply ctx 405 "method not allowed" [("Allow" : bytes, "GET, HEAD" : bytes)])
  else match csp_nonce random with
  | None => Some (page_reply ctx 500 "admin page unavailable" page_fields)
  | Some nonce =>
      body ← add_csp_nonce html nonce;
      Some (page_reply ctx 200 body (page_fields ++ [("Content-Security-Policy" : bytes, csp_policy nonce)]))
  end.

(** ** Texts without a tag *)

Definition absent (p s : bytes) : Prop := ∀ a b, s ≠ a ++ p ++ b.

Lemma find_str_absent p s : find_str p s = None ↔ absent p s.
Proof.
  split.
  - intros Hn a b ->. destruct (decide (p = [])) as [->|Hp].
    { destruct (a ++ [] ++ b); done. }
    revert Hn. induction a as [|c a IH]; cbn [app find_str].
    + pose proof (starts_with_app p b) as Hs. destruct (p ++ b) as [|x t] eqn:E; [by apply app_eq_nil in E as [-> _]|].
      cbn [find_str]. by rewrite Hs.
    + destruct (starts_with _ _); [done|]. by destruct (find_str p (a ++ p ++ b)); [|apply IH].
  - intros Ha. destruct (find_str p s) as [i|] eqn:E; [|done]. apply find_str_Some in E as [E _]. by apply Ha in E.
Qed.

Lemma absent_part p a s b : absent p (a ++ s ++ b) → absent p s.
Proof. intros H x y ->. apply (H (a ++ x) (y ++ b)). by rewrite <- !app_assoc. Qed.

(** A tag starts with "<" and holds no other. *)
Definition tag_like (p : bytes) : Prop := ∃ t, p = "<"%char :: t ∧ "<"%char ∉ t.

Lemma absent_join p g rest : tag_like p → absent p g → absent p ("<"%char :: rest) → absent p (g ++ "<"%char :: rest).
Proof.
  intros (t & -> & Ht) Hg Hr a b Heq. apply app_eq_inv in Heq as [(k & -> & Hk)|(k & -> & Hk)]; [|by apply (Hr k b)].
  cbn [app] in Hk. destruct k as [|c k]; [by apply (Hr [] b)|].
  cbn [app] in Hk. injection Hk as <- Hk. apply app_eq_inv in Hk as [(k' & Hk & Hk')|(k' & Hk & _)].
  - destruct k' as [|c' k']; [|cbn in Hk'; injection Hk' as <- _; apply Ht; rewrite Hk; apply elem_of_app; right; left].
    apply (Hg a []). by rewrite Hk, !app_nil_r.
  - apply (Hg a k'). by rewrite Hk.
Qed.

(** Behind a text that does not begin with the tag and holds no other "<". *)
Lemma absent_behind p n rest : tag_like p → (∀ b, ("<"%char :: n) ++ rest ≠ p ++ b) → "<"%char ∉ n →
  absent p rest → absent p (("<"%char :: n) ++ rest).
Proof.
  intros (t & -> & Ht) Hn Hlt Hr [|c a] b Heq; [by apply (Hn b)|]. cbn [app] in Heq. injection Heq as _ Heq.
  apply app_eq_inv in Heq as [(k & -> & Hk)|(k & -> & Hk)]; [|by apply (Hr k b)].
  destruct k as [|c' k]; [by apply (Hr [] b)|]. cbn in Hk. injection Hk as <- _.
  apply Hlt, elem_of_app. right. left.
Qed.

(** ** What the rewriting does *)

(** The page is cut at the tags, with [gaps] between them and [rest] behind. *)
Definition filled (gaps : list bytes) (tag rest : bytes) : bytes := concat ((λ g, g ++ tag) <$> gaps) ++ rest.

Lemma replace_loop_spec fuel tag replacement html pos :
  tag ≠ [] → (length (drop pos html) < fuel)%nat →
  ∃ gaps rest, drop pos html = filled gaps tag rest ∧ Forall (absent tag) gaps ∧ absent tag rest ∧
    replace_loop fuel tag replacement html pos = Some (take pos html ++ filled gaps replacement rest).
Proof.
  intros Ht. revert html pos. induction fuel as [|fuel IH]; intros html pos Hl; [lia|]. cbn [replace_loop].
  destruct (find_str tag (drop pos html)) as [i|] eqn:E.
  2:{ exists [], (drop pos html). split_and!; [done|done|by apply find_str_absent|]. cbn. by rewrite take_drop. }
  set (gap := take i (drop pos html)). pose proof (find_str_Some _ _ _ E) as [Hs Hlen]. fold gap in Hs.
  assert (absent tag gap) as Hgap.
  { intros a b Hg. assert (find_str tag gap ≠ None) as Hf by (intros Hf%find_str_absent; by apply (Hf a b)).
    destruct (find_str tag gap) as [j|] eqn:F; [|done]. pose proof (find_str_Some _ _ _ F) as [_ Hj].
    apply (find_str_app_l _ _ (tag ++ drop (i + length tag) (drop pos html))) in F. rewrite <- Hs, E in F. injection F as ->.
    unfold gap in Hj. rewrite length_take in Hj. destruct tag; [done|]. cbn in Hj. lia. }
  assert (length gap = i) as Hgl by (unfold gap; rewrite length_take, length_drop in *; lia).
  set (after := drop (i + length tag) (drop pos html)) in *.
  set (html' := take (pos + i) html ++ replacement ++ drop (pos + i + length tag) html).
  assert (html' = (take pos html ++ gap ++ replacement) ++ after) as Hh.
  { unfold html', after, gap. rewrite drop_drop, Nat.add_assoc, <- (take_take_drop html pos i), <- !app_assoc. done. }
  rewrite length_drop in Hl, Hlen.
  assert (1 ≤ length tag)%nat as Ht1 by (destruct tag; [done|cbn; lia]).
  assert (drop (pos + i + length replacement) html' = after) as Hd.
  { rewrite Hh. apply drop_app_length'. rewrite !length_app, length_take. lia. }
  destruct (IH html' (pos + i + length replacement)%nat) as (gaps & rest & Hc & Hg & Hr & ->).
  { rewrite Hd. unfold after. rewrite !length_drop. lia. }
  exists (gap :: gaps), rest. rewrite Hd in Hc. split_and!; [|by constructor|done|].
  - rewrite Hs. unfold filled. cbn. rewrite <- !app_assoc. by rewrite Hc.
  - f_equal. rewrite Hh, take_app_length' by (rewrite !length_app, length_take; lia).
    unfold filled. cbn. by rewrite <- !app_assoc.
Qed.

(** A tag that is in no gap is not in the page filled with other tags. *)
Lemma filled_absent p gaps n rest :
  tag_like p → "<"%char ∉ n → (∀ r b, ("<"%char :: n) ++ r ≠ p ++ b) → Forall (absent p) gaps → absent p rest →
  absent p (filled gaps ("<"%char :: n) rest).
Proof.
  intros Hp Hlt Hn Hg Hr. unfold filled. induction Hg as [|g gaps Hg _ IH]; [done|]. cbn [fmap list_fmap concat].
  rewrite <- !app_assoc. apply absent_join; [done..|]. by apply absent_behind.
Qed.

(** The gaps are parts of the page. *)
Lemma filled_parts p gaps tag rest : absent p (filled gaps tag rest) → Forall (absent p) gaps ∧ absent p rest.
Proof.
  unfold filled. induction gaps as [|g gaps IH]; cbn [fmap list_fmap concat app]; [done|]. rewrite <- !app_assoc. intros Ha.
  destruct IH as [? ?]; [apply (absent_part p (g ++ tag) _ []); by rewrite app_nil_r, <- app_assoc|].
  split; [|done]. constructor; [|done]. by apply (absent_part p [] g) in Ha.
Qed.

(** *** The nonce *)

(** A character of the alphabet: none of the characters of a tag or a quote. *)
Definition nonce_char (c : ascii) : bool :=
  negb (ceqb c "<") && negb (ceqb c ">") && negb (ceqb c DQUOTE) && negb (ceqb c "'") && negb (ceqb c ";") &&
  negb (ceqb c " ") && line_safe c.

Lemma alphabet_nonce i : 0 ≤ i < 64 → nonce_char (alphabet i) = true.
Proof.
  intros Hi. unfold alphabet. assert (forallb nonce_char alphabet_chars = true) as Ha by (vm_compute; reflexivity).
  rewrite forallb_forall in Ha. apply Ha, nth_In. change (length alphabet_chars) with 64%nat. lia.
Qed.

Lemma masked_index x : 0 ≤ Z.land x 63 < 64.
Proof. change 63 with (Z.ones 6). rewrite Z.land_ones by lia. apply Z.mod_pos_bound. lia. Qed.

Lemma emit_nonce fuel bits n : Forall (λ c, nonce_char c = true) (emit fuel bits n).1.
Proof.
  revert n. induction fuel as [|fuel IH]; intros n; cbn [emit]; [constructor|]. destruct (6 <=? n); [|constructor].
  specialize (IH (n - 6)). destruct (emit fuel bits (n - 6)) as [out k]. cbn [fst] in *.
  constructor; [|done]. apply alphabet_nonce, masked_index.
Qed.

Lemma nonce_chars data : Forall (λ c, nonce_char c = true) (base64url_encode data).
Proof.
  unfold base64url_encode. generalize 0 at 1. generalize 0. induction data as [|d data IH]; intros n bits; cbn [encode_loop].
  - destruct (0 <? n); repeat constructor. apply alphabet_nonce, masked_index.
  - pose proof (emit_nonce 2 (Z.lor (wrap32 (Z.shiftl bits 8)) (code d)) (n + 8)) as He.
    destruct (emit _ _ _) as [out k]. cbn [fst] in He. by apply Forall_app.
Qed.

Lemma nonce_no_lt nonce : Forall (λ c, nonce_char c = true) nonce → "<"%char ∉ nonce.
Proof. rewrite Forall_forall. intros Hn Hin. by specialize (Hn _ Hin). Qed.

(** *** The pages *)

Lemma nonce_tag_cons element nonce :
  nonce_tag element nonce = "<"%char :: element ++ " nonce=" ++ [DQUOTE] ++ nonce ++ [DQUOTE] ++ ">".
Proof. reflexivity. Qed.

Lemma tag_tail_no_lt element nonce : "<"%char ∉ element → "<"%char ∉ nonce →
  "<"%char ∉ element ++ " nonce=" ++ [DQUOTE] ++ nonce ++ [DQUOTE] ++ ">".
Proof. intros He Hn. rewrite !not_elem_of_app. split_and!; try done; by apply (bool_decide_eq_true_1 _); vm_compute. Qed.

Lemma style_like : tag_like style_tag.
Proof. exists "style>". split; [done|]. by apply (bool_decide_eq_true_1 _); vm_compute. Qed.

Lemma script_like : tag_like script_tag.
Proof. exists "script>". split; [done|]. by apply (bool_decide_eq_true_1 _); vm_compute. Qed.

(** What was a bare tag carries the nonce and everything else is as it was; no
    bare tag is left. *)
Lemma replace_tags_spec tag element nonce html p :
  tag_like tag → "<"%char ∉ element → "<"%char ∉ nonce →
  (∀ r b, nonce_tag element nonce ++ r ≠ tag ++ b) → (∀ r b, nonce_tag element nonce ++ r ≠ p ++ b) →
  ∃ gaps rest out, html = filled gaps tag rest ∧ out = filled gaps (nonce_tag element nonce) rest ∧
    replace_tags tag (nonce_tag element nonce) html = Some out ∧ absent tag out ∧
    (tag_like p → absent p html → absent p out).
Proof.
  intros Htag He Hn Hd Hp. destruct (replace_loop_spec (S (length html)) tag (nonce_tag element nonce) html 0)
    as (gaps & rest & Hc & Hg & Hr & Heq); [by destruct Htag as (t & -> & _)|rewrite drop_0; lia|].
  exists gaps, rest, (filled gaps (nonce_tag element nonce) rest). split_and!; [done|done|exact Heq| |].
  - apply filled_absent; [done|by apply tag_tail_no_lt|exact Hd|done|done].
  - intros Hlike Hab. rewrite drop_0 in Hc. rewrite Hc in Hab. apply filled_parts in Hab as [Hg' Hr'].
    apply filled_absent; [done|by apply tag_tail_no_lt|exact Hp|done|done].
Qed.

(** An admin page is always answered.  When it is answered with status 200, its
    policy names the nonce of this answer, the nonce holds no character that
    could end its attribute or its directive, and the body is the embedded page
    with that nonce on every style and script element and nothing else changed:
    no inline element is left without it. *)
Lemma admin_page_nonce html random ctx :
  ∃ ctx', handle_admin_page html random ctx = Some ctx' ∧
    (status_code ctx' = 200 →
     ∃ data nonce gaps rest gaps' rest' mid,
       random = Some data ∧ nonce = base64url_encode data ∧ Forall (λ c, nonce_char c = true) nonce ∧
       ("Content-Security-Policy" : bytes, csp_policy nonce) ∈ response_headers ctx' ∧
       html = filled gaps style_tag rest ∧ mid = filled gaps (nonce_tag "style" nonce) rest ∧
       mid = filled gaps' script_tag rest' ∧ response_body ctx' = filled gaps' (nonce_tag "script" nonce) rest' ∧
       absent style_tag (response_body ctx') ∧ absent script_tag (response_body ctx')).
Proof.
  unfold handle_admin_page. destruct (negb _ && negb _); [by eexists|]. destruct random as [data|]; cbn [csp_nonce fmap option_fmap option_map]; [|by eexists].
  set (nonce := base64url_encode data). pose proof (nonce_chars data) as Hn. fold nonce in Hn. pose proof (nonce_no_lt _ Hn) as Hlt.
  destruct (replace_tags_spec style_tag "style" nonce html style_tag style_like) as (gaps & rest & mid & H1 & H2 & H3 & H4 & _);
    [by apply (bool_decide_eq_true_1 _); vm_compute|done|done|done|].
  destruct (replace_tags_spec script_tag "script" nonce mid style_tag script_like) as (gaps' & rest' & out & H5 & H6 & H7 & H8 & H9);
    [by apply (bool_decide_eq_true_1 _); vm_compute|done|done|done|].
  unfold add_csp_nonce. rewrite H3. cbn [mbind option_bind]. rewrite H7. cbn [mbind option_bind]. eexists. split; [done|].
  intros _. exists data, nonce, gaps, rest, gaps', rest', mid. split_and!; try done.
  - cbn [page_reply response_headers]. rewrite !elem_of_app. right. right. left.
  - apply H9; [exact style_like|exact H4].
Qed.
