(* ===== verification/OrderedMap.v ===== *)
(** * std::map and std::set with string keys

    The ordered containers of the standard library, as lists sorted strictly by
    key: the order in which they are iterated is the order of the list, and two
    maps are equal when the lists are. *)

From stdpp Require Import sorting.
From S2P Require Import Prelude Config.

Definition smap (V : Type) : Type := list (bytes * V).
Abbreviation files_map := (smap bytes).

Section ordered_map.
Context {V : Type}.
Implicit Types (m : smap V) (k : bytes) (v : V).

(** [m[k] = v] *)
Fixpoint sm_insert k v m : smap V :=
  match m with
  | [] => [(k, v)]
  | (k', v') :: rest =>
      if str_ltb k k' then (k, v) :: m
      else if str_ltb k' k then (k', v') :: sm_insert k v rest
      else (k, v) :: rest
  end.

(** [m.find(k)] *)
Fixpoint sm_find k m : option V :=
  match m with
  | [] => None
  | (k', v) :: rest => if beqb k' k then Some v else sm_find k rest
  end.

Definition sm_has k m : bool := bool_decide (is_Some (sm_find k m)).

(** [m.erase(k)] *)
Fixpoint sm_delete k m : smap V :=
  match m with
  | [] => []
  | (k', v) :: rest => if beqb k' k then rest else (k', v) :: sm_delete k rest
  end.

(** Insertion of a list of pairs, the last one of a key wins. *)
Definition sm_insert_all (l : list (bytes * V)) m : smap V := foldl (λ m kv, sm_insert kv.1 kv.2 m) m l.

Definition key_lt (a b : bytes * V) : Prop := str_ltb a.1 b.1 = true.
Definition sm_sorted m : Prop := StronglySorted key_lt m.

Lemma str_ltb_irrefl k : str_ltb k k = false.
Proof. apply (sw_irrefl _ str_ltb_sw). Qed.
Lemma str_ltb_trans a b c : str_ltb a b = true → str_ltb b c = true → str_ltb a c = true.
Proof. apply (sw_trans _ str_ltb_sw). Qed.

Lemma str_ltb_ne a b : str_ltb a b = true → a ≠ b.
Proof. intros Hl ->. by rewrite str_ltb_irrefl in Hl. Qed.

Lemma sorted_cons k v m : sm_sorted ((k, v) :: m) ↔ (∀ k' v', (k', v') ∈ m → str_ltb k k' = true) ∧ sm_sorted m.
Proof.
  split.
  - intros Hs. apply StronglySorted_inv in Hs as [Hs Hf]. split; [|done]. intros k' v' Hin. rewrite Forall_forall in Hf. by apply (Hf _ Hin).
  - intros [Hlt Hs]. constructor; [done|]. apply Forall_forall. intros [k' v'] Hin. by apply (Hlt k' v').
Qed.

Lemma sm_find_elem k v m : sm_sorted m → sm_find k m = Some v ↔ (k, v) ∈ m.
Proof.
  induction m as [|[k' v'] m IH]; intros Hs; [split; [done|by intros ?%not_elem_of_nil]|].
  apply sorted_cons in Hs as [Hlt Hs]. cbn [sm_find]. rewrite elem_of_cons. destruct (beqb k' k) eqn:E.
  - apply beqb_eq in E as ->. split; [intros [= ->]; by left|]. intros [[= ->]|Hin]; [done|].
    apply Hlt in Hin. by rewrite str_ltb_irrefl in Hin.
  - apply beqb_ne in E. rewrite IH by done. naive_solver.
Qed.

Lemma insert_elem k v m k' v' : (k', v') ∈ sm_insert k v m → (k', v') = (k, v) ∨ (k', v') ∈ m.
Proof.
  induction m as [|[k0 v0] m IH]; cbn [sm_insert]; [rewrite list_elem_of_singleton; auto|].
  repeat case_if; rewrite !elem_of_cons; naive_solver.
Qed.

Lemma sm_insert_sorted k v m : sm_sorted m → sm_sorted (sm_insert k v m).
Proof.
  induction m as [|[k0 v0] m IH]; intros Hs; cbn [sm_insert]; [by apply sorted_cons; split; [intros ? ? ?%not_elem_of_nil|]|].
  pose proof Hs as Hs'. apply sorted_cons in Hs' as [Hlt Hs0]. case_if; [|case_if].
  - apply sorted_cons. split; [|done]. intros k' v' [[= -> ->]|Hin]%elem_of_cons; [done|].
    eapply str_ltb_trans; [done|by eapply Hlt].
  - apply sorted_cons. split; [|by apply IH]. intros k' v' [[= -> ->]|Hin]%insert_elem; [done|by eapply Hlt].
  - apply sorted_cons. split; [|done]. intros k' v' Hin. rewrite (str_ltb_total k k0) by done. by eapply Hlt.
Qed.

Lemma sm_find_insert k v m : sm_find k (sm_insert k v m) = Some v.
Proof.
  induction m as [|[k0 v0] m IH]; cbn [sm_insert sm_find]; [by rewrite beqb_refl|].
  case_if; [cbn [sm_find]; by rewrite beqb_refl|]. case_if; cbn [sm_find]; [|by rewrite beqb_refl].
  rewrite (proj2 (beqb_ne k0 k)); [done|by apply str_ltb_ne].
Qed.

Lemma sm_find_insert_ne k k' v m : k ≠ k' → sm_find k' (sm_insert k v m) = sm_find k' m.
Proof.
  intros Hne. induction m as [|[k0 v0] m IH]; cbn [sm_insert sm_find]; [by rewrite (proj2 (beqb_ne k k'))|].
  case_if; [cbn [sm_find]; by rewrite (proj2 (beqb_ne k k'))|]. case_if; cbn [sm_find]; [by rewrite IH|].
  rewrite <- (str_ltb_total k k0), !(proj2 (beqb_ne k k')) by done. done.
Qed.

Lemma sm_find_insert_case k k' v m : sm_find k' (sm_insert k v m) = if beqb k k' then Some v else sm_find k' m.
Proof.
  destruct (beqb k k') eqn:E; [apply beqb_eq in E as <-; apply sm_find_insert|].
  apply beqb_ne in E. by apply sm_find_insert_ne.
Qed.

Lemma sorted_nodup m : sm_sorted m → NoDup m.
Proof.
  induction m as [|[k v] m IH]; intros Hs; [constructor|]. apply sorted_cons in Hs as [Hlt Hs]. constructor; [|by apply IH].
  intros Hin. apply Hlt in Hin. by rewrite str_ltb_irrefl in Hin.
Qed.

Lemma sorted_keys_nodup m : sm_sorted m → NoDup m.*1.
Proof.
  induction m as [|[k v] m IH]; intros Hs; [constructor|]. apply sorted_cons in Hs as [Hlt Hs]. constructor; [|by apply IH].
  intros ([k' v'] & Hk & Hin)%list_elem_of_fmap. cbn in Hk. subst k'. apply Hlt in Hin. by rewrite str_ltb_irrefl in Hin.
Qed.

(** A sorted list is determined by its lookups. *)
Lemma sm_ext m1 m2 : sm_sorted m1 → sm_sorted m2 → (∀ k, sm_find k m1 = sm_find k m2) → m1 = m2.
Proof.
  intros H1 H2 Hf. eapply (StronglySorted_unique_strong key_lt); [|done|done|].
  { intros [k v] [k' v'] _ _ Ha Hb. exfalso. unfold key_lt in Ha, Hb. cbn in Ha, Hb.
    pose proof (str_ltb_trans _ _ _ Ha Hb) as Hc. by rewrite str_ltb_irrefl in Hc. }
  apply NoDup_Permutation; [by apply sorted_nodup..|].
  intros [k v]. rewrite <- !sm_find_elem by done. by rewrite Hf.
Qed.

Lemma insert_all_sorted l m : sm_sorted m → sm_sorted (sm_insert_all l m).
Proof.
  unfold sm_insert_all. revert m. induction l as [|[k v] l IH]; intros m Hs; [done|]. cbn [foldl]. by apply IH, sm_insert_sorted.
Qed.

Lemma find_insert_all_ne k l m : k ∉ l.*1 → sm_find k (sm_insert_all l m) = sm_find k m.
Proof.
  unfold sm_insert_all. revert m. induction l as [|[k' v] l IH]; intros m Hk; [done|]. cbn [foldl fmap list_fmap fst] in *.
  apply not_elem_of_cons in Hk as [Hne Hk]. rewrite IH by done. by apply sm_find_insert_ne.
Qed.

(** Inserting the pairs of a sorted list in order gives the list. *)
Lemma find_insert_all k l : sm_sorted l → sm_find k (sm_insert_all l []) = sm_find k l.
Proof.
  intros Hs. assert (∀ m, sm_find k (sm_insert_all l m) = match sm_find k l with Some v => Some v | None => sm_find k m end) as Hgen.
  { induction l as [|[k' v] l IH]; intros m; [done|]. apply sorted_cons in Hs as [Hlt Hs].
    change (sm_insert_all ((k', v) :: l) m) with (sm_insert_all l (sm_insert k' v m)). cbn [sm_find]. rewrite IH by done.
    rewrite sm_find_insert_case. destruct (beqb k' k) eqn:E; [|done]. apply beqb_eq in E as <-.
    destruct (sm_find k' l) as [v'|] eqn:F; [|done]. apply sm_find_elem in F; [|done]. apply Hlt in F. by rewrite str_ltb_irrefl in F. }
  rewrite Hgen. by destruct (sm_find k l).
Qed.

Lemma insert_all_id l : sm_sorted l → sm_insert_all l [] = l.
Proof.
  intros Hs. apply sm_ext; [apply insert_all_sorted; constructor|done|]. intros k. by apply find_insert_all.
Qed.

Lemma delete_elem k m kv : kv ∈ sm_delete k m → kv ∈ m.
Proof.
  induction m as [|[k' v] m IH]; [done|]. cbn [sm_delete]. case_if; rewrite ?elem_of_cons; naive_solver.
Qed.

Lemma sm_delete_sorted k m : sm_sorted m → sm_sorted (sm_delete k m).
Proof.
  induction m as [|[k' v] m IH]; intros Hs; [done|]. apply sorted_cons in Hs as [Hlt Hs]. cbn [sm_delete]. case_if; [done|].
  apply sorted_cons. split; [|by apply IH]. intros k0 v0 Hin%delete_elem. by eapply Hlt.
Qed.

Lemma sm_find_delete k k' m : sm_sorted m → sm_find k' (sm_delete k m) = if beqb k k' then None else sm_find k' m.
Proof.
  induction m as [|[k0 v0] m IH]; intros Hs; [by destruct (beqb k k')|]. apply sorted_cons in Hs as [Hlt Hs]. cbn [sm_delete sm_find].
  destruct (beqb k0 k) eqn:E.
  - apply beqb_eq in E as ->. destruct (beqb k k') eqn:E'; [|done]. apply beqb_eq in E' as <-.
    destruct (sm_find k m) as [v|] eqn:F; [|done]. apply sm_find_elem in F; [|done]. apply Hlt in F. by rewrite str_ltb_irrefl in F.
  - cbn [sm_find]. rewrite (IH Hs). destruct (beqb k0 k') eqn:E0; [|done]. apply beqb_eq in E0 as ->.
    apply beqb_ne in E. by rewrite (proj2 (beqb_ne k k')).
Qed.

Lemma sm_has_spec k m : sm_has k m = true ↔ k ∈ m.*1.
Proof.
  unfold sm_has. rewrite bool_decide_eq_true. induction m as [|[k' v] m IH]; cbn [sm_find fmap list_fmap fst].
  - split; [by intros [? ?]|by intros ?%not_elem_of_nil].
  - rewrite elem_of_cons. destruct (beqb k' k) eqn:E; [apply beqb_eq in E as ->; naive_solver|]. apply beqb_ne in E. naive_solver.
Qed.
End ordered_map.

#[export] Hint Resolve sm_insert_sorted insert_all_sorted sm_delete_sorted : gw.

(** Values mapped, keys kept. *)
Lemma sorted_fmap {V W} (f : bytes → V → W) (m : smap V) : sm_sorted m → sm_sorted ((λ kv, (kv.1, f kv.1 kv.2)) <$> m).
Proof.
  induction m as [|[k v] m IH]; intros Hs; [constructor|]. apply sorted_cons in Hs as [Hlt Hs]. cbn [fmap list_fmap fst snd].
  apply sorted_cons. split; [|by apply IH]. intros k' w ([k0 v0] & [= -> ->] & Hin)%list_elem_of_fmap. by eapply Hlt.
Qed.

Lemma find_fmap {V W} (f : bytes → V → W) (m : smap V) k : sm_find k ((λ kv, (kv.1, f kv.1 kv.2)) <$> m) = f k <$> sm_find k m.
Proof.
  induction m as [|[k' v] m IH]; [done|]. cbn [fmap list_fmap fst snd sm_find]. destruct (beqb k' k) eqn:E; [|done].
  by apply beqb_eq in E as ->.
Qed.
