(* ===== verification/ConfigHistory.v ===== *)
(** * Data of the configuration history (src/src/app/admin/config_history_data.cpp)

    Snapshots of the managed files: their digest, the limits they must keep, the
    JSON of their metadata, of lists, of details and of differences, and the
    reader of single fields.  SHA-256 is a parameter.  The theorems show that the
    digest binds the names and contents of a snapshot, which snapshots are
    accepted, when the digest is read back from the metadata, and that a
    difference turns one text into the other. *)

From S2P Require Import Prelude Config Response AdminJson AppConfig AdminAuth OrderedMap.

Definition kMetaKey : bytes := "asio_owen:config:history:meta".
Definition kIndexKey : bytes := "asio_owen:config:history:index".
Definition kSnapshotPrefix : bytes := "asio_owen:config:history:".
Definition kSnapshotStagingKey : bytes := "asio_owen:config:history:staging".

Record SnapshotInfo := mkInfo { file_count : Z; total_bytes : Z; content_hash_hex : bytes }.
Record SnapshotRecord := mkRecord { current_version : Z; meta_json : bytes; rec_files : files_map }.

(** ** The digest *)

(** Eight bytes, the most significant first. *)
Fixpoint be_bytes (n : nat) (value : Z) : bytes :=
  match n with
  | O => []
  | S n => be_bytes n (Z.shiftr value 8) ++ [chr (Z.land value 0xff)]
  end.
Definition digest_u64 (value : Z) : bytes := be_bytes 8 (wrap64 value).

Definition digest_field (s : bytes) : bytes := digest_u64 (slen s) ++ s.

(** What is fed to [EVP_DigestUpdate], call after call. *)
Definition digest_input (files : files_map) : bytes :=
  concat ((λ kv, digest_field kv.1 ++ digest_field kv.2) <$> files).

Definition hex_digits : bytes := "0123456789abcdef".
Definition hex_nibble (v : Z) : ascii := nth (Z.to_nat v) hex_digits NUL.
Definition hex_bytes (digest : bytes) : bytes :=
  concat ((λ c, [hex_nibble (Z.shiftr (code c) 4); hex_nibble (Z.land (code c) 0x0f)]) <$> digest).

Section model.
Context `{OpenSsl}.

Definition content_sha256 (files : files_map) : option bytes := hex_bytes <$> evp_sha256 (digest_input files).

(** ** Limits *)

(** The loop over the files: an error, or the sum of the sizes. *)
Fixpoint snapshot_bytes (files : files_map) (cfg : ConfigHistoryConfig) (total : Z) : bytes + Z :=
  match files with
  | [] => inr total
  | (name, content) :: rest =>
      if max_file_bytes cfg <? slen content
      then inl (name ++ ": file content exceeds limit " ++ to_string (max_file_bytes cfg) ++ " bytes")
      else if max_snapshot_bytes cfg - Z.min total (max_snapshot_bytes cfg) <? slen content
      then inl ("snapshot content exceeds limit " ++ to_string (max_snapshot_bytes cfg) ++ " bytes")
      else snapshot_bytes rest cfg (wrap64 (total + slen content))
  end.

(** An error, or the information about the snapshot. *)
Definition validate_snapshot (files : files_map) (cfg : ConfigHistoryConfig) (reject_empty : bool) : bytes + SnapshotInfo :=
  if reject_empty && bool_decide (files = []) then inl ("files must not be empty" : bytes)
  else if max_files cfg <? Z.of_nat (length files)
  then inl ("managed file count exceeds limit " ++ to_string (max_files cfg))
  else
    match snapshot_bytes files cfg 0 with
    | inl error => inl error
    | inr total =>
        match content_sha256 files with
        | None => inl ("failed to calculate snapshot SHA-256" : bytes)
        | Some hash => inr (mkInfo (Z.of_nat (length files)) total hash)
        end
    end.

Definition snapshot_key (version : Z) : bytes := kSnapshotPrefix ++ to_string version.

(** ** Metadata *)

Definition metadata_json (version base_version timestamp : Z) (user action reason : bytes) (info : SnapshotInfo)
    (rollback_from : option Z) : bytes :=
  "{" ++ quoted "version" ++ ":" ++ to_string version ++
  "," ++ quoted "base_version" ++ ":" ++ to_string base_version ++
  "," ++ quoted "ts" ++ ":" ++ to_string timestamp ++
  "," ++ quoted "user" ++ ":" ++ quoted (json_escape user) ++
  "," ++ quoted "action" ++ ":" ++ quoted (json_escape action) ++
  "," ++ quoted "reason" ++ ":" ++ quoted (json_escape reason) ++
  "," ++ quoted "file_count" ++ ":" ++ to_string (file_count info) ++
  "," ++ quoted "total_bytes" ++ ":" ++ to_string (total_bytes info) ++
  "," ++ quoted "content_sha256" ++ ":" ++ quoted (content_hash_hex info) ++
  "," ++ quoted "rollback_from" ++ ":" ++ match rollback_from with Some v => to_string v | None => "null" end ++ "}".

Definition is_json_blank (c : ascii) : bool := ceqb c " " || ceqb c TAB || ceqb c CR || ceqb c LF.

Fixpoint skip_json_blanks (s : bytes) : bytes :=
  match s with c :: t => if is_json_blank c then skip_json_blanks t else s | [] => [] end.

(** The rest of a literal; unicode escapes are not understood. *)
Fixpoint field_literal (s : bytes) : option bytes :=
  match s with
  | [] => None
  | c :: t =>
      if ceqb c DQUOTE then Some []
      else if negb (ceqb c BACKSLASH) then cons c <$> field_literal t
      else match t with
           | [] => None
           | e :: t => match simple_escape e with Some d => cons d <$> field_literal t | None => None end
           end
  end.

(** The first occurrence of the quoted name, then the next colon. *)
Definition json_string_field (json field : bytes) : option bytes :=
  let needle := quoted field in
  match find_str needle json with
  | None => None
  | Some pos =>
      let rest := drop (pos + length needle) json in
      match find_char ":" rest with
      | None => None
      | Some colon =>
          match skip_json_blanks (drop (S colon) rest) with
          | c :: t => if ceqb c DQUOTE then field_literal t else None
          | [] => None
          end
      end
  end.

(** ** Records of the scripts *)

(** The file pairs from the third element on. *)
Fixpoint pair_elements (elements : list bytes) : list (bytes * bytes) :=
  match elements with a :: b :: rest => (a, b) :: pair_elements rest | _ => [] end.

Definition parse_detail_elements (elements : list bytes) : option SnapshotRecord :=
  match elements with
  | e0 :: e1 :: rest =>
      if negb (Nat.even (length rest)) then None
      else
        match parse_int64 e0 with
        | None => None
        | Some current =>
            if (current <? 0) || beqb e1 [] || beqb e1 "(nil)" then None
            else
              let files := sm_insert_all (pair_elements rest) [] in
              if bool_decide (files = []) then None else Some (mkRecord current e1 files)
        end
  | _ => None
  end.

(** The entries that are listed: version and metadata. *)
Definition listed (elements : list bytes) : list (Z * bytes) :=
  omap (λ kv, match parse_int64 kv.1 with
              | Some v => if beqb kv.2 [] || beqb kv.2 "(nil)" then None else Some (v, kv.2)
              | None => None
              end) (pair_elements elements).

Definition history_list_json (elements : list bytes) (current_version : Z) : bytes :=
  "{" ++ quoted "current_version" ++ ":" ++ to_string current_version ++ "," ++ quoted "versions" ++ ":[" ++
  join_with "," (snd <$> listed elements) ++ "]," ++ quoted "next_before" ++ ":" ++
  match last (listed elements) with Some (v, _) => to_string v | None => "null" end ++ "}".

Definition file_json (kv : bytes * bytes) : bytes :=
  "{" ++ quoted "name" ++ ":" ++ quoted (json_escape kv.1) ++ "," ++ quoted "content" ++ ":" ++ quoted (json_escape kv.2) ++ "}".

Definition detail_json (version : Z) (record : SnapshotRecord) : bytes :=
  "{" ++ quoted "version" ++ ":" ++ to_string version ++ "," ++ quoted "current_version" ++ ":" ++
  to_string (current_version record) ++ "," ++ quoted "meta" ++ ":" ++ meta_json record ++ "," ++ quoted "files" ++ ":[" ++
  join_with "," (file_json <$> rec_files record) ++ "]}".

(** ** Differences *)

(** The loop from [begin]; every turn consumes a line. *)
Fixpoint text_lines_loop (fuel : nat) (text : bytes) : list bytes :=
  match fuel, text with
  | O, _ | _, [] => []
  | S fuel, _ =>
      match find_char LF text with
      | None => [text]
      | Some e => take e text :: match drop (S e) text with [] => [[]] | rest => text_lines_loop fuel rest end
      end
  end.
Definition split_text_lines (text : bytes) : list bytes := text_lines_loop (length text) text.

Fixpoint common_prefix (a b : list bytes) : nat :=
  match a, b with
  | x :: a, y :: b => if beqb x y then S (common_prefix a b) else 0
  | _, _ => 0
  end.

(** From the ends, down to the prefix. *)
Definition common_suffix (prefix : nat) (a b : list bytes) : nat :=
  common_prefix (reverse (drop prefix a)) (reverse (drop prefix b)).

Definition diff_lines (mark : bytes) (lines : list bytes) : bytes := concat ((λ l, mark ++ l ++ [LF]) <$> lines).

Definition slice (lines : list bytes) (from to : nat) : list bytes := take (to - from) (drop from lines).

Definition coarse_text_diff (name from to : bytes) : bytes :=
  let old_lines := split_text_lines from in
  let new_lines := split_text_lines to in
  let prefix := common_prefix old_lines new_lines in
  let suffix := common_suffix prefix old_lines new_lines in
  let old_suffix := (length old_lines - suffix)%nat in
  let new_suffix := (length new_lines - suffix)%nat in
  "--- " ++ name ++ [LF] ++ "+++ " ++ name ++ [LF] ++
  diff_lines " " (slice old_lines (if (2 <? prefix)%nat then prefix - 2 else 0) prefix) ++
  diff_lines "-" (slice old_lines prefix old_suffix) ++
  diff_lines "+" (slice new_lines prefix new_suffix) ++
  diff_lines " " (slice old_lines old_suffix (Nat.min (length old_lines) (old_suffix + 2))).

Definition sensitive_needles : list bytes :=
  ["[mysql]" : bytes; "pass" : bytes; "password" : bytes; "secret" : bytes; "token" : bytes; "private_key" : bytes; "jwt_private" : bytes].

Definition looks_sensitive (content : bytes) : bool :=
  existsb (λ needle, contains_str needle (tolower <$> content)) sensitive_needles.

Definition json_bool (b : bool) : bytes := if b then "true" else "false".

(** One entry of the list, or nothing for an unchanged file. *)
Definition change_json (name : bytes) (old new : option bytes) : option bytes :=
  let head type := "{" ++ quoted "name" ++ ":" ++ quoted (json_escape name) ++ "," ++ quoted "type" ++ ":" ++ quoted type ++ "," in
  let body field text sensitive := quoted field ++ ":" ++ quoted (json_escape text) ++ "," ++ quoted "sensitive" ++ ":" ++ json_bool sensitive ++ "}" in
  match old, new with
  | None, None => None
  | None, Some n => Some (head "added" ++ body "content" n (looks_sensitive n))
  | Some o, None => Some (head "deleted" ++ body "content" o (looks_sensitive o))
  | Some o, Some n =>
      if beqb o n then None
      else Some (head "modified" ++ body "diff" (coarse_text_diff name o n) (looks_sensitive o || looks_sensitive n))
  end.

(** The loop over the names; the stream is measured after every entry. *)
Fixpoint diff_loop (names : list bytes) (from to : files_map) (max_bytes : Z) (first : bool) (out : bytes) : option bytes :=
  match names with
  | [] => Some out
  | name :: rest =>
      match change_json name (sm_find name from) (sm_find name to) with
      | None => diff_loop rest from to max_bytes first out
      | Some entry =>
          let out := out ++ (if first then [] else ",") ++ entry in
          if max_bytes <? slen out then None else diff_loop rest from to max_bytes false out
      end
  end.

Definition all_names (from to : files_map) : list bytes :=
  (sm_insert_all ((λ kv, (kv.1, ())) <$> to) (sm_insert_all ((λ kv, (kv.1, ())) <$> from) [])).*1.

Definition diff_json (from_version : Z) (from : SnapshotRecord) (to_version : Z) (to : SnapshotRecord) (max_bytes : Z) : option bytes :=
  match diff_loop (all_names (rec_files from) (rec_files to)) (rec_files from) (rec_files to) max_bytes true
          ("{" ++ quoted "from" ++ ":" ++ to_string from_version ++ "," ++ quoted "to" ++ ":" ++ to_string to_version ++ "," ++
           quoted "changes" ++ ":[") with
  | None => None
  | Some out => let result := out ++ "]}" in if max_bytes <? slen result then None else Some result
  end.

(** ** The digest binds names and contents *)

Lemma be_bytes_length n v : length (be_bytes n v) = n.
Proof. revert v. induction n as [|n IH]; intros v; [done|]. cbn [be_bytes]. rewrite length_app, IH. cbn. lia. Qed.

Lemma be_bytes_inj n a b : 0 ≤ a < 256 ^ Z.of_nat n → 0 ≤ b < 256 ^ Z.of_nat n → be_bytes n a = be_bytes n b → a = b.
Proof.
  revert a b. induction n as [|n IH]; intros a b Ha Hb Heq; [cbn in *; lia|]. cbn [be_bytes] in Heq.
  apply app_inj_tail in Heq as [Hh Hl]. rewrite !land_255 in Hl. apply (f_equal code) in Hl.
  rewrite !code_chr in Hl by (apply Z.mod_pos_bound; lia).
  rewrite Nat2Z.inj_succ, Z.pow_succ_r in Ha, Hb by lia. rewrite !Z.shiftr_div_pow2 in Hh by lia. change (2 ^ 8) with 256 in Hh.
  apply IH in Hh; [|Z.to_euclidean_division_equations; lia..].
  rewrite (Z.div_mod a 256), (Z.div_mod b 256) by lia. lia.
Qed.

Lemma digest_field_inj s s' r r' : slen s ≤ SIZE_MAX → slen s' ≤ SIZE_MAX →
  digest_field s ++ r = digest_field s' ++ r' → s = s' ∧ r = r'.
Proof.
  intros Hs Hs' Heq. unfold digest_field, digest_u64 in Heq. rewrite <- !app_assoc in Heq.
  apply app_inj_1 in Heq as [Hl Hr]; [|by rewrite !be_bytes_length].
  pose proof (slen_nonneg s). pose proof (slen_nonneg s').
  rewrite !wrap64_small in Hl by lia. apply be_bytes_inj in Hl; [|unfold SIZE_MAX in *; change (256 ^ Z.of_nat 8) with (2 ^ 64); lia..].
  apply app_inj_1 in Hr; [done|]. unfold slen in Hl. lia.
Qed.

(** Sizes that fit a [size_t]. *)
Definition sized (files : files_map) : Prop := Forall (λ kv, slen kv.1 ≤ SIZE_MAX ∧ slen kv.2 ≤ SIZE_MAX) files.

Lemma digest_field_nonempty s r : digest_field s ++ r ≠ [].
Proof.
  intros Hn. apply (f_equal length) in Hn. unfold digest_field, digest_u64 in Hn. rewrite !length_app, be_bytes_length in Hn. cbn in Hn. lia.
Qed.

Lemma digest_input_inj f1 f2 : sized f1 → sized f2 → digest_input f1 = digest_input f2 → f1 = f2.
Proof.
  unfold digest_input. intros H1. revert f2. induction H1 as [|[n c] f1 [Hn Hc] _ IH]; intros f2 H2 Heq.
  - destruct f2 as [|[n2 c2] f2]; [done|]. cbn [fmap list_fmap concat fst snd] in Heq. rewrite <- app_assoc in Heq.
    by apply eq_sym, digest_field_nonempty in Heq.
  - destruct f2 as [|[n2 c2] f2]; cbn [fmap list_fmap concat fst snd] in Heq; rewrite <- ?app_assoc in Heq;
      [by apply digest_field_nonempty in Heq|].
    apply Forall_cons in H2 as [[Hn2 Hc2] H2]. apply digest_field_inj in Heq as [-> Heq]; [|done..].
    apply digest_field_inj in Heq as [-> Heq]; [|done..]. f_equal. by apply IH.
Qed.

Lemma hex_nibble_value v : 0 ≤ v < 16 → hex_value (hex_nibble v) = v.
Proof.
  intros Hv. assert (forallb (λ v, hex_value (hex_nibble v) =? v) (seqZ 0 16) = true) as Hall by (vm_compute; reflexivity).
  rewrite forallb_forall in Hall. specialize (Hall v). cbn beta in Hall. apply Z.eqb_eq, Hall.
  apply list_elem_of_In, elem_of_seqZ. lia.
Qed.

Lemma hex_bytes_inj a b : hex_bytes a = hex_bytes b → a = b.
Proof.
  unfold hex_bytes. revert b. induction a as [|x a IH]; intros [|y b]; cbn [fmap list_fmap concat app]; try done.
  intros [= Hh Hl Ht]. f_equal; [|by apply IH]. apply code_inj. pose proof (code_range x). pose proof (code_range y).
  change 0x0f with (Z.ones 4) in Hl. rewrite !Z.land_ones in Hl by lia. rewrite !Z.shiftr_div_pow2 in Hh by lia. change (2 ^ 4) with 16 in *.
  apply (f_equal hex_value) in Hh, Hl. rewrite !hex_nibble_value in Hh, Hl by (Z.to_euclidean_division_equations; lia).
  rewrite (Z.div_mod (code x) 16), (Z.div_mod (code y) 16) by lia. lia.
Qed.

(** ** Which snapshots are accepted *)

Definition bytes_of (files : files_map) : Z := total (λ kv, slen kv.2) files.

Lemma bytes_of_nonneg files : 0 ≤ bytes_of files.
Proof. apply total_nonneg. intros kv. apply slen_nonneg. Qed.

Lemma snapshot_bytes_spec files cfg t n : 0 ≤ t ≤ max_snapshot_bytes cfg → max_snapshot_bytes cfg ≤ SIZE_MAX →
  snapshot_bytes files cfg t = inr n ↔
  Forall (λ kv, slen kv.2 ≤ max_file_bytes cfg) files ∧ t + bytes_of files ≤ max_snapshot_bytes cfg ∧ n = t + bytes_of files.
Proof.
  intros Ht Hmax. revert t Ht. induction files as [|[name c] files IH]; intros t Ht; cbn [snapshot_bytes].
  - unfold bytes_of. cbn [total foldr]. split; [intros [= <-]; split_and!; [done|lia|lia]|]. intros (_ & _ & ->). f_equal. lia.
  - pose proof (slen_nonneg c). pose proof (bytes_of_nonneg files).
    change (bytes_of ((name, c) :: files)) with (slen c + bytes_of files). rewrite Forall_cons. cbn [snd]. case_if; bool_prop.
    { split; [done|]. intros ([? _] & _). lia. }
    case_if; bool_prop; rewrite Z.min_l in * by lia.
    { split; [done|]. intros (_ & ? & _). lia. }
    rewrite wrap64_small by lia. rewrite IH by lia. split; intros (? & ? & ?); split_and!; try done; naive_solver lia.
Qed.

(** A snapshot is accepted exactly when it is not empty (where that is asked),
    has no more files than allowed, no file larger and no larger sum than allowed,
    and can be digested; the information recorded is the number of files, the sum
    of their sizes (which cannot overflow) and the digest.  And the digest binds
    the whole snapshot: two sets of files with the same digest are the same names
    with the same contents, or exhibit a collision of SHA-256. *)
Lemma snapshot_accepted_exact files cfg reject_empty info :
  0 ≤ max_snapshot_bytes cfg ≤ SIZE_MAX →
  (validate_snapshot files cfg reject_empty = inr info ↔
   (reject_empty = true → files ≠ []) ∧ Z.of_nat (length files) ≤ max_files cfg ∧
   Forall (λ kv, slen kv.2 ≤ max_file_bytes cfg) files ∧ bytes_of files ≤ max_snapshot_bytes cfg ∧
   ∃ hash, content_sha256 files = Some hash ∧ info = mkInfo (Z.of_nat (length files)) (bytes_of files) hash) ∧
  (∀ files' hash, sized files → sized files' → content_sha256 files = Some hash → content_sha256 files' = Some hash →
     files' = files ∨ ∃ x y digest, x ≠ y ∧ evp_sha256 x = Some digest ∧ evp_sha256 y = Some digest).
Proof.
  intros Hmax. split.
  - unfold validate_snapshot. destruct (reject_empty && bool_decide (files = [])) eqn:E1.
    { bool_prop. subst. split; [done|]. intros (Hne & _). by destruct (Hne eq_refl). }
    assert (reject_empty = true → files ≠ []) as Hne.
    { intros -> ->. by rewrite bool_decide_eq_true_2 in E1. }
    case_if; bool_prop; [split; [done|]; intros (_ & ? & _); lia|].
    pose proof (λ n, snapshot_bytes_spec files cfg 0 n ltac:(lia) ltac:(lia)) as Hb.
    destruct (snapshot_bytes files cfg 0) as [e|n].
    + split; [done|]. intros (_ & _ & Hf & Hs & _). discriminate (proj2 (Hb (bytes_of files)) (conj Hf (conj Hs eq_refl))).
    + destruct (proj1 (Hb n) eq_refl) as (Hf & Hs & ->). destruct (content_sha256 files) as [hash|].
      * split; [intros [= <-]; naive_solver|]. intros (_ & _ & _ & _ & h & [= <-] & ->). done.
      * split; [done|]. by intros (_ & _ & _ & _ & h & ? & _).
  - intros files' hash Hz Hz' H1 H2. unfold content_sha256 in H1, H2.
    apply fmap_Some in H1 as (d & H1 & ->). apply fmap_Some in H2 as (d' & H2 & Hh). apply hex_bytes_inj in Hh as <-.
    destruct (decide (digest_input files' = digest_input files)) as [Heq|Hne]; [left; by apply digest_input_inj|].
    right. by exists (digest_input files'), (digest_input files), d.
Qed.

(** ** Reading the digest back *)

(** The texts differ before either of them ends. *)
Fixpoint mismatch (p s : bytes) : bool :=
  match p, s with
  | a :: p, b :: s => if ceqb a b then mismatch p s else true
  | _, _ => false
  end.

(** [p] begins nowhere in [s], whatever follows. *)
Fixpoint clear_of (p s : bytes) : bool :=
  match s with [] => true | _ :: t => mismatch p s && clear_of p t end.

Lemma mismatch_starts p s rest : mismatch p s = true → starts_with p (s ++ rest) = false.
Proof.
  revert s. induction p as [|a p IH]; intros [|b s]; cbn [mismatch starts_with app]; try done.
  destruct (ceqb a b); [apply IH|done].
Qed.
Lemma mismatch_app p s t : mismatch p s = true → mismatch p (s ++ t) = true.
Proof.
  revert s. induction p as [|a p IH]; intros [|b s]; cbn [mismatch app]; try done. destruct (ceqb a b); [apply IH|done].
Qed.

Lemma clear_find p s rest : clear_of p s = true → find_str p (s ++ rest) = Nat.add (length s) <$> find_str p rest.
Proof.
  induction s as [|c s IH]; cbn [clear_of app]; intros Hc; [by destruct (find_str p rest)|].
  apply andb_prop in Hc as [Hm Hc]. cbn [find_str]. change (c :: s ++ rest) with ((c :: s) ++ rest).
  rewrite (mismatch_starts _ _ _ Hm), (IH Hc). cbn [app length]. by destruct (find_str p rest).
Qed.
Lemma clear_app p s t : clear_of p s = true → clear_of p t = true → clear_of p (s ++ t) = true.
Proof.
  induction s as [|c s IH]; cbn [clear_of app]; intros Hs Ht; [done|]. apply andb_prop in Hs as [Hm Hs].
  apply andb_true_intro. split; [by apply (mismatch_app p (c :: s))|auto].
Qed.
Lemma clear_unquoted w s : DQUOTE ∉ s → clear_of (quoted w) s = true.
Proof.
  induction s as [|c s IH]; intros Hc; [done|]. apply not_elem_of_cons in Hc as [Hne Hc]. cbn [clear_of]. rewrite (IH Hc), andb_true_r.
  unfold quoted. cbn [app mismatch]. by rewrite (proj2 (ceqb_ne DQUOTE c)).
Qed.

(** A byte that is written as it is. *)
Lemma escape_char_cases c : (escape_char c = [c] ∧ c ≠ DQUOTE ∧ c ≠ BACKSLASH) ∨
  (c = DQUOTE ∧ escape_char c = [BACKSLASH; DQUOTE]) ∨ (∃ t, escape_char c = BACKSLASH :: t ∧ DQUOTE ∉ t ∧ c ≠ DQUOTE).
Proof.
  assert (forallb (λ n, let c := ascii_of_N (N.of_nat n) in
    (bool_decide (escape_char c = [c] ∧ c ≠ DQUOTE ∧ c ≠ BACKSLASH)) ||
    (bool_decide (c = DQUOTE ∧ escape_char c = [BACKSLASH; DQUOTE])) ||
    (bool_decide (head (escape_char c) = Some BACKSLASH ∧ DQUOTE ∉ tail (escape_char c) ∧ c ≠ DQUOTE))) (seq 0 256) = true) as Hall
    by (vm_compute; reflexivity).
  rewrite forallb_forall in Hall. specialize (Hall (N.to_nat (N_of_ascii c))). cbn zeta in Hall.
  rewrite N2Nat.id, ascii_N_embedding in Hall. 
  assert (In (N.to_nat (N_of_ascii c)) (seq 0 256)) as Hin.
  { apply in_seq. pose proof (code_range c). unfold code in *. lia. }
  apply Hall in Hin. apply orb_prop in Hin as [[Hin|Hin]%orb_prop|Hin]; apply bool_decide_eq_true in Hin; [by left|right; by left|].
  right. right. destruct Hin as (Hh & Ht & Hne). destruct (escape_char c) as [|b t]; [done|]. injection Hh as ->. by exists t.
Qed.

(** A name of a field: no quote, backslash or comma, and not empty. *)
Definition field_name (w : bytes) : Prop := w ≠ [] ∧ DQUOTE ∉ w ∧ BACKSLASH ∉ w ∧ head w ≠ Some ","%char.

(** A text that does not end in a place where a reader would see [quoted w]. *)
Definition hides (w s : bytes) : Prop := s = w ∨ ∃ pre, s = pre ++ DQUOTE :: w.

Lemma mismatch_escaped w s : DQUOTE ∉ w → BACKSLASH ∉ w → s ≠ w →
  mismatch (w ++ [DQUOTE]) (json_escape s ++ [DQUOTE; ","%char]) = true.
Proof.
  intros Hq Hb. revert s. induction w as [|a w IH]; intros s Hne.
  - destruct s as [|c s]; [done|]. unfold json_escape. cbn [fmap list_fmap concat].
    destruct (escape_char_cases c) as [(-> & H1 & _)|[(_ & ->)|(t & -> & _)]]; cbn [app mismatch].
    + by rewrite (proj2 (ceqb_ne DQUOTE c)).
    + done.
    + done.
  - apply not_elem_of_cons in Hq as [Hqa Hq]. apply not_elem_of_cons in Hb as [Hba Hb].
    destruct s as [|c s]; [cbn [json_escape fmap list_fmap concat app mismatch]; by rewrite (proj2 (ceqb_ne a DQUOTE))|].
    unfold json_escape. cbn [fmap list_fmap concat].
    destruct (escape_char_cases c) as [(-> & H1 & _)|[(_ & ->)|(t & -> & _)]]; cbn [app mismatch].
    + destruct (ceqb a c) eqn:E; [|done]. apply ceqb_eq in E as ->. apply IH; [done..|congruence].
    + by rewrite (proj2 (ceqb_ne a BACKSLASH)).
    + by rewrite (proj2 (ceqb_ne a BACKSLASH)).
Qed.

Lemma clear_escaped w s : field_name w → ¬ (∃ pre, s = pre ++ DQUOTE :: w) →
  clear_of (quoted w) (json_escape s ++ [DQUOTE; ","%char]) = true.
Proof.
  intros (Hw & Hq & Hb & Hh) Hs.
  assert (∀ b t, b ≠ DQUOTE → clear_of (quoted w) t = true → clear_of (quoted w) (b :: t) = true) as Hskip.
  { intros b t Hne Ht. cbn [clear_of]. rewrite Ht, andb_true_r. unfold quoted. cbn [app mismatch]. by rewrite (proj2 (ceqb_ne DQUOTE b)). }
  assert (∀ t u, DQUOTE ∉ t → clear_of (quoted w) u = true → clear_of (quoted w) (t ++ u) = true) as Hpass.
  { induction t as [|b t IH]; intros u Ht Hu; [done|]. apply not_elem_of_cons in Ht as [? ?]. apply Hskip; [done|]. by apply IH. }
  induction s as [|c s IH].
  - cbn [json_escape fmap list_fmap concat app clear_of]. unfold quoted. cbn [app mismatch]. rewrite ceqb_refl.
    destruct w as [|a w]; [done|]. cbn [app mismatch]. change (ceqb DQUOTE ",") with false. cbn iota.
    rewrite (proj2 (ceqb_ne a ",")); [done|]. intros ->. by apply Hh.
  - assert (clear_of (quoted w) (json_escape s ++ [DQUOTE; ","%char]) = true) as Ht.
    { apply IH. intros [pre ->]. apply Hs. by exists (c :: pre). }
    unfold json_escape in *. cbn [fmap list_fmap concat]. rewrite <- app_assoc.
    destruct (escape_char_cases c) as [(-> & H1 & H2)|[(-> & ->)|(t & -> & Htq & _)]].
    + by apply Hskip.
    + cbn [app]. apply Hskip; [done|]. cbn [clear_of]. rewrite Ht, andb_true_r. unfold quoted. cbn [app mismatch]. rewrite ceqb_refl.
      apply mismatch_escaped; [done..|]. intros ->. apply Hs. by exists [].
    + cbn [app]. apply Hskip; [done|]. by apply Hpass.
Qed.

Lemma clear_quoted w s : field_name w → ¬ hides w s → clear_of (quoted w) (quoted (json_escape s) ++ [","%char]) = true.
Proof.
  intros Hw Hs. pose proof Hw as (_ & Hq & Hb & _). unfold quoted at 2. rewrite <- app_assoc. cbn [app].
  rewrite <- app_assoc. cbn [app clear_of]. rewrite clear_escaped, andb_true_r; [|done|intros [pre ->]; apply Hs; right; by exists pre].
  unfold quoted. cbn [app mismatch]. rewrite ceqb_refl. apply mismatch_escaped; [done..|]. intros ->. apply Hs. by left.
Qed.

Lemma dec_digits_digits fuel n : 0 ≤ n → Forall (λ c, isdigit c = true) (dec_digits fuel n).
Proof.
  revert n. induction fuel as [|fuel IH]; intros n Hn; cbn [dec_digits]; [constructor|].
  assert (∀ d, 0 ≤ d < 10 → isdigit (digit d) = true) as Hd by (intros d Hd; apply isdigit_range; rewrite digit_code by done; lia).
  case_if; bool_prop; [repeat constructor; apply Hd; lia|]. apply Forall_app. split; [apply IH; apply Z.div_pos; lia|].
  repeat constructor. apply Hd, Z.mod_pos_bound. lia.
Qed.

Lemma to_string_chars n c : c ∈ to_string n → isdigit c = true ∨ c = "-"%char.
Proof.
  unfold to_string. destruct (n <? 0) eqn:E.
  - apply Z.ltb_lt in E. intros [->|Hin]%elem_of_cons; [by right|]. left.
    pose proof (dec_digits_digits 20 (- n) ltac:(lia)) as Hd. rewrite Forall_forall in Hd. by apply Hd.
  - apply Z.ltb_ge in E. intros Hin. left. pose proof (dec_digits_digits 20 n E) as Hd. rewrite Forall_forall in Hd. by apply Hd.
Qed.

Lemma to_string_unquoted n : DQUOTE ∉ to_string n.
Proof. intros Hin. by destruct (to_string_chars n _ Hin). Qed.

Lemma field_literal_plain s rest : DQUOTE ∉ s → BACKSLASH ∉ s → field_literal (s ++ DQUOTE :: rest) = Some s.
Proof.
  induction s as [|c s IH]; intros Hq Hb; cbn [app field_literal]; [done|].
  apply not_elem_of_cons in Hq as [Hqc Hq]. apply not_elem_of_cons in Hb as [Hbc Hb].
  rewrite (proj2 (ceqb_ne c DQUOTE)), (proj2 (ceqb_ne c BACKSLASH)) by done. cbn [negb]. by rewrite (IH Hq Hb).
Qed.

Lemma hex_bytes_plain d : DQUOTE ∉ hex_bytes d ∧ BACKSLASH ∉ hex_bytes d.
Proof.
  assert (∀ v, 0 ≤ v < 16 → hex_nibble v ≠ DQUOTE ∧ hex_nibble v ≠ BACKSLASH) as Hn.
  { intros v Hv. pose proof (hex_nibble_value v Hv) as Hh. split; intros E; rewrite E in Hh; vm_compute in Hh; lia. }
  unfold hex_bytes. induction d as [|c d [IH1 IH2]]; [split; apply not_elem_of_nil|]. cbn [fmap list_fmap concat app].
  pose proof (code_range c). destruct (Hn (Z.shiftr (code c) 4)) as [Ha Hb].
  { rewrite Z.shiftr_div_pow2 by lia. change (2 ^ 4) with 16. Z.to_euclidean_division_equations; lia. }
  destruct (Hn (Z.land (code c) 0x0f)) as [Hc Hd].
  { change 0x0f with (Z.ones 4). rewrite Z.land_ones by lia. apply Z.mod_pos_bound. lia. }
  rewrite !not_elem_of_cons. auto.
Qed.

Definition sha_field : bytes := "content_sha256".

Lemma sha_field_name : field_name sha_field.
Proof. split; [done|]. split; [by apply contains_char_false|]. split; [by apply contains_char_false|done]. Qed.

(** The metadata up to the reason, and from the reason to the digest. *)
Definition meta_before (version base_version timestamp : Z) (user action : bytes) : bytes :=
  (("{" ++ quoted "version" ++ ":") ++ to_string version) ++ (("," ++ quoted "base_version" ++ ":") ++ to_string base_version) ++
  (("," ++ quoted "ts" ++ ":") ++ to_string timestamp) ++ ("," ++ quoted "user" ++ ":") ++ (quoted (json_escape user) ++ [","%char]) ++
  (quoted "action" ++ ":") ++ (quoted (json_escape action) ++ [","%char]) ++ (quoted "reason" ++ ":").
Definition meta_between (info : SnapshotInfo) : bytes :=
  ((quoted "file_count" ++ ":") ++ to_string (file_count info)) ++
  (("," ++ quoted "total_bytes" ++ ":") ++ to_string (total_bytes info)) ++ ",".
Definition meta_after (info : SnapshotInfo) (rollback_from : option Z) : bytes :=
  quoted sha_field ++ ":" ++ quoted (content_hash_hex info) ++ "," ++ quoted "rollback_from" ++ ":" ++
  match rollback_from with Some v => to_string v | None => "null" end ++ "}".

Lemma metadata_parts version base ts user action reason info rb :
  metadata_json version base ts user action reason info rb =
  meta_before version base ts user action ++ (quoted (json_escape reason) ++ [","%char]) ++ meta_between info ++ meta_after info rb.
Proof. unfold metadata_json, meta_before, meta_between, meta_after, sha_field. by rewrite <- !app_assoc. Qed.

Ltac clear_pieces :=
  lazymatch goal with
  | |- clear_of _ (to_string _) = true => apply clear_unquoted, to_string_unquoted
  | |- clear_of _ (quoted (json_escape _) ++ _) = true => by apply clear_quoted
  | |- clear_of _ ?s = true =>
      lazymatch s with
      | context [to_string _] => apply clear_app; clear_pieces
      | context [json_escape _] => apply clear_app; clear_pieces
      | _ => vm_compute; reflexivity
      end
  end.

Lemma clear_before version base ts user action : ¬ hides sha_field user → ¬ hides sha_field action →
  clear_of (quoted sha_field) (meta_before version base ts user action) = true.
Proof. intros Hu Ha. pose proof sha_field_name. unfold meta_before. clear_pieces. Qed.

Lemma clear_between info : clear_of (quoted sha_field) (meta_between info) = true.
Proof. unfold meta_between. clear_pieces. Qed.

(** The reader after the first occurrence of the name. *)
Lemma json_field_at field pre rest : clear_of (quoted field) pre = true →
  json_string_field (pre ++ quoted field ++ rest) field =
  match find_char ":" rest with
  | None => None
  | Some colon =>
      match skip_json_blanks (drop (S colon) rest) with
      | c :: t => if ceqb c DQUOTE then field_literal t else None
      | [] => None
      end
  end.
Proof.
  intros Hc. unfold json_string_field. rewrite (clear_find _ _ _ Hc).
  assert (find_str (quoted field) (quoted field ++ rest) = Some 0%nat) as ->.
  { destruct (quoted field ++ rest) eqn:E; [by destruct (quoted field)|]. cbn [find_str]. rewrite <- E, starts_with_app. done. }
  cbn [fmap option_fmap option_map]. rewrite Nat.add_0_r, app_assoc, drop_app_length'; [done|]. by rewrite length_app.
Qed.

Lemma json_field_value field pre value rest : clear_of (quoted field) pre = true → DQUOTE ∉ value → BACKSLASH ∉ value →
  json_string_field (pre ++ quoted field ++ ":" ++ quoted value ++ rest) field = Some value.
Proof.
  intros Hc Hq Hb. rewrite json_field_at by done.
  change ((":" : bytes) ++ quoted value ++ rest) with (":"%char :: DQUOTE :: (value ++ [DQUOTE]) ++ rest).
  cbn [find_char]. change (ceqb ":" ":") with true. cbn iota. cbn [drop skip_json_blanks].
  change (is_json_blank DQUOTE) with false. cbn iota. rewrite ceqb_refl, <- app_assoc. by apply field_literal_plain.
Qed.

(** The digest of a snapshot is read back from its metadata, whatever the
    user, the action and the reason contain, as long as none of them is
    "content_sha256" or ends in a quote followed by it. *)
Lemma metadata_digest_roundtrip version base ts user action reason info rb digest :
  content_hash_hex info = hex_bytes digest →
  ¬ hides sha_field user → ¬ hides sha_field action → ¬ hides sha_field reason →
  json_string_field (metadata_json version base ts user action reason info rb) sha_field = Some (content_hash_hex info).
Proof.
  intros Hd Hu Ha Hr. rewrite metadata_parts. unfold meta_after.
  rewrite (app_assoc (quoted (json_escape reason) ++ _)), (app_assoc (meta_before _ _ _ _ _)).
  rewrite Hd. apply json_field_value; [|apply hex_bytes_plain..].
  apply clear_app; [by apply clear_before|]. apply clear_app; [|apply clear_between]. apply clear_quoted; [apply sha_field_name|done].
Qed.

Lemma digit_not_blank c : isdigit c = true → is_json_blank c = false.
Proof.
  intros Hd. destruct (is_json_blank c) eqn:Eb; [|done]. unfold is_json_blank in Eb.
  repeat (apply orb_prop in Eb as [Eb|Eb]); apply ceqb_eq in Eb as ->; done.
Qed.

(** A reason that is the name of the field hides the digest. *)
Lemma reason_hides_digest version base ts user action info rb : ¬ hides sha_field user → ¬ hides sha_field action →
  json_string_field (metadata_json version base ts user action sha_field info rb) sha_field = None.
Proof.
  intros Hu Ha. rewrite metadata_parts. change (json_escape sha_field) with sha_field. rewrite <- (app_assoc (quoted sha_field)).
  rewrite json_field_at by by apply clear_before.
  set (tail := ("," ++ quoted "total_bytes" ++ ":" ++ to_string (total_bytes info) ++ "," ++ meta_after info rb)).
  assert ([","%char] ++ meta_between info ++ meta_after info rb =
    ("," ++ quoted "file_count") ++ ":"%char :: to_string (file_count info) ++ tail) as ->.
  { unfold meta_between, tail. by rewrite <- !app_assoc. }
  rewrite find_char_app by by apply contains_char_false.
  change (("," ++ quoted "file_count") ++ ":"%char :: to_string (file_count info) ++ tail) with
    (("," ++ quoted "file_count") ++ [":"%char] ++ to_string (file_count info) ++ tail).
  rewrite app_assoc, drop_app_length' by by rewrite length_app, Nat.add_comm.
  assert (∀ c, head (to_string (file_count info) ++ tail) = Some c → is_json_blank c = false ∧ c ≠ DQUOTE) as Hh.
  { intros c Hc. pose proof (to_string_unquoted (file_count info)) as Hq. destruct (to_string (file_count info)) as [|d t] eqn:E.
    - cbn in Hc. by injection Hc as <-.
    - injection Hc as ->. assert (c ∈ to_string (file_count info)) as Hin by (rewrite E; left).
      split; [|intros ->; apply Hq; left]. destruct (to_string_chars _ _ Hin) as [Hd| ->]; [by apply digit_not_blank|reflexivity]. }
  destruct (to_string (file_count info) ++ tail) as [|c t]; [done|]. destruct (Hh c eq_refl) as [Hb Hq]. cbn [skip_json_blanks].
  rewrite Hb. by rewrite (proj2 (ceqb_ne c DQUOTE)).
Qed.

(** ** Differences *)

Lemma text_lines_spec fuel text : (length text ≤ fuel)%nat → text ≠ [] → text_lines_loop fuel text = split_on LF text.
Proof.
  revert text. induction fuel as [|fuel IH]; intros text Hf Hne; [destruct text; [done|cbn in Hf; lia]|].
  replace (text_lines_loop (S fuel) text) with
    (match find_char LF text with
     | None => [text]
     | Some e => take e text :: match drop (S e) text with [] => [[]] | rest => text_lines_loop fuel rest end
     end) by by destruct text.
  destruct (find_char LF text) as [e|] eqn:E.
  - apply find_char_Some in E as (Htext & Hnl & Hlt). rewrite Htext at 3. rewrite split_on_app by done. f_equal.
    destruct (drop (S e) text) as [|c rest] eqn:Ed; [done|]. apply IH; [|done].
    apply (f_equal length) in Ed. rewrite length_drop in Ed. lia.
  - apply find_char_None in E. by rewrite split_on_notin.
Qed.

Lemma split_text_join text : join_with [LF] (split_text_lines text) = text.
Proof.
  unfold split_text_lines. destruct text as [|c t] eqn:E; [done|]. rewrite <- E. rewrite text_lines_spec by (subst; done).
  apply join_split.
Qed.

Lemma common_prefix_spec a b : take (common_prefix a b) a = take (common_prefix a b) b ∧ (common_prefix a b ≤ length a)%nat ∧ (common_prefix a b ≤ length b)%nat.
Proof.
  revert b. induction a as [|x a IH]; intros [|y b]; cbn [common_prefix length]; try (split_and!; [done|lia|lia]).
  destruct (beqb x y) eqn:E; [|split_and!; [done|lia|lia]]. apply beqb_eq in E as ->. destruct (IH b) as (Ht & ? & ?).
  cbn [take]. rewrite Ht. split_and!; [done|lia|lia].
Qed.

(** The lines both texts begin and end with, and what stands between. *)
Lemma diff_split a b :
  let prefix := common_prefix a b in
  let suffix := common_suffix prefix a b in
  a = take prefix a ++ slice a prefix (length a - suffix) ++ drop (length a - suffix) a ∧
  b = take prefix a ++ slice b prefix (length b - suffix) ++ drop (length a - suffix) a.
Proof.
  intros prefix suffix. destruct (common_prefix_spec a b) as (Hp & Hpa & Hpb). fold prefix in Hp, Hpa, Hpb.
  destruct (common_prefix_spec (reverse (drop prefix a)) (reverse (drop prefix b))) as (Hs & Hsa & Hsb).
  fold (common_suffix prefix a b) in Hs, Hsa, Hsb. fold suffix in Hs, Hsa, Hsb. rewrite !length_reverse, !length_drop in Hsa, Hsb.
  assert (drop (length a - suffix) a = drop (length b - suffix) b) as Hsuf.
  { rewrite !take_reverse in Hs. apply (f_equal reverse) in Hs. rewrite !reverse_involutive in Hs.
    rewrite !length_drop, !drop_drop in Hs.
    replace (prefix + (length a - prefix - suffix))%nat with (length a - suffix)%nat in Hs by lia.
    by replace (prefix + (length b - prefix - suffix))%nat with (length b - suffix)%nat in Hs by lia. }
  assert (∀ l : list bytes, (prefix ≤ length l - suffix)%nat →
    l = take prefix l ++ slice l prefix (length l - suffix) ++ drop (length l - suffix) l) as Hcut.
  { intros l Hl. unfold slice. rewrite <- (take_drop prefix l) at 1. f_equal.
    rewrite <- (take_drop (length l - suffix - prefix) (drop prefix l)) at 1. rewrite drop_drop. do 2 f_equal. lia. }
  split; [apply Hcut; lia|]. rewrite Hsuf, Hp. apply Hcut. lia.
Qed.

(** The difference that is shown turns the old text into the new one: the old
    text is its lines, the lines marked "-" stand after a common beginning and
    before a common end, and replacing them by the lines marked "+" gives exactly
    the lines of the new text. *)
Theorem diff_turns_old_into_new name from to :
  ∃ before removed added after,
    from = join_with [LF] (before ++ removed ++ after) ∧
    to = join_with [LF] (before ++ added ++ after) ∧
    ∃ shown_before shown_after,
      (∃ hidden, before = hidden ++ shown_before) ∧ (∃ hidden, after = shown_after ++ hidden) ∧
      coarse_text_diff name from to =
        "--- " ++ name ++ [LF] ++ "+++ " ++ name ++ [LF] ++ diff_lines " " shown_before ++ diff_lines "-" removed ++
        diff_lines "+" added ++ diff_lines " " shown_after.
Proof.
  set (a := split_text_lines from). set (b := split_text_lines to). destruct (diff_split a b) as [Ha Hb].
  set (prefix := common_prefix a b) in *. set (suffix := common_suffix prefix a b) in *.
  exists (take prefix a), (slice a prefix (length a - suffix)), (slice b prefix (length b - suffix)), (drop (length a - suffix) a).
  rewrite <- Ha, <- Hb. split; [by rewrite <- (split_text_join from)|]. split; [by rewrite <- (split_text_join to)|].
  eexists _, _. split; [|split; [|reflexivity]].
  - fold a b. fold prefix. exists (take (if (2 <? prefix)%nat then prefix - 2 else 0) a). unfold slice.
    destruct (common_prefix_spec a b) as (_ & Hpa & _). fold prefix in Hpa.
    set (k := if (2 <? prefix)%nat then (prefix - 2)%nat else 0%nat). assert (k ≤ prefix)%nat as Hk.
    { unfold k. case_if; lia. }
    rewrite take_take_drop. f_equal. lia.
  - fold a b. fold prefix. fold suffix. unfold slice. eexists. symmetry. apply take_drop.
Qed.

End model.

(** ** Examples *)

Module HistorySample.
Definition files : files_map := [("01-a.ini" : bytes, "x=1" : bytes); ("02-b.ini" : bytes, [])].
Definition limits : ConfigHistoryConfig :=
  mkHistory "compat" false 10 10 100 200 100 100 5 5 100 10 10 1000 10 10 10.
Definition info : SnapshotInfo := mkInfo 2 3 (hex_bytes (digest_input files)).
End HistorySample.

Lemma snapshot_accepted_exact_witness :
  @validate_snapshot Sample.ssl HistorySample.files HistorySample.limits true = inr HistorySample.info.
Proof.
  apply (@snapshot_accepted_exact Sample.ssl HistorySample.files HistorySample.limits true HistorySample.info); [by vm_compute|].
  split; [discriminate|]. split; [by vm_compute|]. split; [by repeat constructor|]. split; [by vm_compute|].
  exists (hex_bytes (digest_input HistorySample.files)). split; reflexivity.
Defined.

Lemma metadata_digest_roundtrip_witness :
  json_string_field (metadata_json 2 1 1700000000 "root" "save" ("say " ++ quoted "hi") HistorySample.info None) sha_field =
  Some (content_hash_hex HistorySample.info).
Proof.
  assert (∀ s : bytes, find_str sha_field s = None → ¬ hides sha_field s) as Hno.
  { intros s Hs [->|[pre ->]]; [by vm_compute in Hs|]. revert Hs. induction pre as [|c pre IH]; [by vm_compute|].
    cbn [app find_str]. case_if; [done|]. destruct (find_str sha_field (pre ++ DQUOTE :: sha_field)); [done|auto]. }
  apply (metadata_digest_roundtrip 2 1 1700000000 "root" "save" ("say " ++ quoted "hi") HistorySample.info None
    (digest_input HistorySample.files)); [reflexivity|apply Hno; by vm_compute..].
Defined.
