(* ===== verification/JsonText.v ===== *)
(** * JSON documents

    The grammar of RFC 8259 as the gateway writes it (no blanks, integers only),
    over a set of admitted multi-byte sequences: the UTF-8 of RFC 3629, or, weaker,
    everything that has the shape of a UTF-8 sequence, which is what the writer of
    result sets tests.  A document over the first can be decoded.  The gateway has
    two escaping routines: [json_escape] copies bytes above 0x7f, so that what it
    writes can be decoded exactly when the text is UTF-8; the writer of result sets
    replaces what does not have the shape. *)

From S2P Require Import Prelude Response DbJson ConfigHistory.

(** ** UTF-8 *)

(** What may follow: any character, or a byte in a range and then [more]
    continuation bytes; [UBad] is final. *)
Inductive ustate := UStart | UNeed (lo hi : Z) (more : nat) | UBad.

#[export] Instance ustate_eq_dec : EqDecision ustate.
Proof. solve_decision. Defined.

(** The byte sequences of RFC 3629, section 4: no overlong forms, no surrogates,
    nothing beyond U+10FFFF. *)
Definition ustep (q : ustate) (c : ascii) : ustate :=
  let x := code c in
  match q with
  | UStart =>
      if x <? 0x80 then UStart
      else if x <? 0xC2 then UBad
      else if x <? 0xE0 then UNeed 0x80 0xBF 0
      else if x =? 0xE0 then UNeed 0xA0 0xBF 1
      else if x =? 0xED then UNeed 0x80 0x9F 1
      else if x <? 0xF0 then UNeed 0x80 0xBF 1
      else if x =? 0xF0 then UNeed 0x90 0xBF 2
      else if x <? 0xF4 then UNeed 0x80 0xBF 2
      else if x =? 0xF4 then UNeed 0x80 0x8F 2
      else UBad
  | UNeed lo hi more =>
      if (lo <=? x) && (x <=? hi) then match more with O => UStart | S k => UNeed 0x80 0xBF k end else UBad
  | UBad => UBad
  end.

Definition urun (q : ustate) (s : bytes) : ustate := foldl ustep q s.

Definition utf8_text (s : bytes) : bool := bool_decide (urun UStart s = UStart).

(** Bytes above 0x7f that are complete characters. *)
Definition high (c : ascii) : bool := 128 <=? code c.
Definition utf8_run (s : bytes) : bool := forallb high s && utf8_text s.

(** A sequence of the shape of UTF-8. *)
Definition utf8_shape (s : bytes) : bool :=
  match s with
  | [] => false
  | c :: l => (0 <? utf8_extra (code c)) && (utf8_extra (code c) =? slen l) && forallb is_continuation l
  end.

(** ** Grammar *)

Definition is_hex (c : ascii) : bool :=
  isdigit c || ((97 <=? code c) && (code c <=? 102)) || ((65 <=? code c) && (code c <=? 70)).

(** A byte below 0x80 that stands for itself, an escape of one character, or [\u]
    and four digits. *)
Definition ascii_unit (u : bytes) : bool :=
  match u with
  | [c] => (32 <=? code c) && (code c <? 128) && negb (ceqb c DQUOTE) && negb (ceqb c BACKSLASH)
  | [b; e] => ceqb b BACKSLASH && contains_char e [DQUOTE; BACKSLASH; "/"; "b"; "f"; "n"; "r"; "t"]%char
  | [b; e; h1; h2; h3; h4] => ceqb b BACKSLASH && ceqb e "u" && is_hex h1 && is_hex h2 && is_hex h3 && is_hex h4
  | _ => false
  end.

Definition member (m : bytes * bytes) : bytes := m.1 ++ ":" ++ m.2.
Definition array_text (vs : list bytes) : bytes := "[" ++ join_with "," vs ++ "]".
Definition object_text (ms : list (bytes * bytes)) : bytes := "{" ++ join_with "," (member <$> ms) ++ "}".

Section grammar.
(** The admitted multi-byte sequences. *)
Context (mb : bytes → bool).

Definition str_unit (u : bytes) : bool := ascii_unit u || mb u.

Definition json_string (s : bytes) : Prop := ∃ us, Forall (λ u, str_unit u = true) us ∧ s = quoted (concat us).

Inductive json_doc : bytes → Prop :=
| doc_null : json_doc "null"
| doc_bool b : json_doc (if b : bool then "true" else "false")
| doc_int z : json_doc (to_string z)
| doc_string s : json_string s → json_doc s
| doc_array vs : Forall json_doc vs → json_doc (array_text vs)
| doc_object ms : Forall (λ m, json_string m.1 ∧ json_doc m.2) ms → json_doc (object_text ms).
End grammar.

Create HintDb json.
#[export] Hint Constructors json_doc : json.

(** ** Reading bytes below 0x80 *)

Definition low (c : ascii) : Prop := code c < 128.

Lemma urun_app q s t : urun q (s ++ t) = urun (urun q s) t.
Proof. apply foldl_app. Qed.

Lemma urun_bad s : urun UBad s = UBad.
Proof. induction s as [|c s IH]; [done|]. exact IH. Qed.

(** A state in which a character may begin, or none. *)
Definition settled (q : ustate) : ustate := match q with UStart => UStart | _ => UBad end.

Definition ustate_ok (q : ustate) : Prop := match q with UNeed lo _ _ => 128 ≤ lo | _ => True end.

Lemma ustep_ok q c : ustate_ok q → ustate_ok (ustep q c).
Proof. destruct q as [|lo hi more|]; cbn [ustep]; intros Hq; repeat case_match; cbn; try done; lia. Qed.

Lemma ustep_low q c : ustate_ok q → low c → ustep q c = settled q.
Proof.
  unfold low. intros Hq Hc. destruct q as [|lo hi more|]; cbn [ustep settled]; [|cbn in Hq|done].
  - by rewrite (proj2 (Z.ltb_lt _ _)).
  - rewrite (proj2 (Z.leb_gt _ _)) by lia. done.
Qed.

Lemma urun_low q s : ustate_ok q → Forall low s → s ≠ [] → urun q s = settled q.
Proof.
  intros Hq Hs. revert q Hq. induction Hs as [|c s Hc _ IH]; intros q Hq Hne; [done|]. cbn. rewrite ustep_low by done.
  destruct s as [|d s]; [done|]. etrans; [apply IH; [by destruct q|done]|by destruct q].
Qed.

Lemma urun_ok q s : ustate_ok q → ustate_ok (urun q s).
Proof. revert q. induction s as [|c s IH]; intros q Hq; [done|]. by apply IH, ustep_ok. Qed.

(** A text between bytes below 0x80. *)
Lemma utf8_between a s b : Forall low a → Forall low b → utf8_text (a ++ s ++ b) = utf8_text s.
Proof.
  intros Ha Hb. unfold utf8_text. rewrite !urun_app. assert (urun UStart a = UStart) as ->.
  { destruct a as [|c a]; [done|]. by rewrite urun_low. }
  destruct b as [|c b]; [done|]. rewrite urun_low; [|by apply urun_ok|done|done]. apply bool_decide_ext. by destruct (urun UStart s).
Qed.

Lemma utf8_low s : Forall low s → utf8_text s = true.
Proof. intros Hs. rewrite <- (app_nil_r s), <- (app_nil_l []), utf8_between by done. done. Qed.

Lemma utf8_app s t : utf8_text s = true → utf8_text (s ++ t) = utf8_text t.
Proof. unfold utf8_text. rewrite urun_app. intros Hs%bool_decide_eq_true. by rewrite Hs. Qed.

Lemma low_literal s : forallb (λ c, code c <? 128) s = true → Forall low s.
Proof. rewrite forallb_forall, Forall_forall. intros Hs c Hc%list_elem_of_In. by apply Z.ltb_lt, Hs. Qed.

Lemma to_string_low z : Forall low (to_string z).
Proof.
  apply Forall_forall. intros c [Hc| ->]%to_string_chars; [|done]. unfold isdigit in Hc. apply andb_true_iff in Hc as [_ Hc%Z.leb_le]. unfold low. lia.
Qed.

(** ** Text that is escaped byte by byte *)

Definition escape_low (c : ascii) : bool :=
  if code c <? 128 then negb (bool_decide (escape_char c = [])) && forallb (λ d, code d <? 128) (escape_char c) && ascii_unit (escape_char c)
  else beqb (escape_char c) [c].

Lemma escape_low_all c : escape_low c = true.
Proof. revert c. apply byte_check. vm_compute. reflexivity. Qed.

Lemma escape_char_low c : low c → escape_char c ≠ [] ∧ Forall low (escape_char c) ∧ ascii_unit (escape_char c) = true.
Proof.
  intros Hc. pose proof (escape_low_all c) as Ha. unfold escape_low in Ha. rewrite (proj2 (Z.ltb_lt _ _)) in Ha by done.
  rewrite !andb_true_iff, negb_true_iff, bool_decide_eq_false in Ha. destruct Ha as ((? & ?) & ?). split_and!; [done|by apply low_literal|done].
Qed.

Lemma escape_char_high c : high c = true → escape_char c = [c].
Proof.
  unfold high. intros Hc. pose proof (escape_low_all c) as Ha. unfold escape_low in Ha. rewrite (proj2 (Z.ltb_ge _ _)) in Ha by lia. by apply beqb_eq.
Qed.

Lemma high_or_low c : high c = true ∨ low c.
Proof. unfold high, low. destruct (Z.leb_spec 128 (code c)); auto. Qed.

(** Escaping neither makes nor breaks a character. *)
Lemma urun_escape q s : ustate_ok q → urun q (json_escape s) = urun q s.
Proof.
  revert q. induction s as [|c s IH]; intros q Hq; [done|]. unfold json_escape. cbn [fmap list_fmap]. rewrite concat_cons.
  fold (json_escape s). rewrite urun_app. change (urun q (c :: s)) with (urun (ustep q c) s).
  destruct (high_or_low c) as [Hc|Hc].
  - rewrite escape_char_high by done. apply IH. by apply ustep_ok.
  - destruct (escape_char_low c Hc) as (Hne & Hl & _). rewrite (urun_low q (escape_char c)), ustep_low by done. apply IH. by destruct q.
Qed.

Lemma utf8_escape s : utf8_text (json_escape s) = utf8_text s.
Proof. unfold utf8_text. by rewrite urun_escape. Qed.

(** A text is split into characters below 0x80 and runs above. *)
Lemma run_prefix s : ∀ q, ustate_ok q → urun q s = UStart →
  ∃ h rest, s = h ++ rest ∧ forallb high h = true ∧ urun q h = UStart ∧ urun UStart rest = UStart ∧
    match rest with [] => True | c :: _ => low c end.
Proof.
  induction s as [|c s IH]; intros q Hq Hr; [by exists [], []|]. destruct (high_or_low c) as [Hc|Hc].
  - destruct (IH _ (ustep_ok q c Hq) Hr) as (h & rest & -> & Hh & Hq' & Hrest & Hl). exists (c :: h), rest. split_and!; [done| |done|done|done].
    cbn. by rewrite Hc.
  - assert (q = UStart) as ->.
    { cbn in Hr. rewrite ustep_low in Hr by done. destruct q; [done|..]; by rewrite urun_bad in Hr. }
    by exists [], (c :: s).
Qed.

Lemma utf8_units s : utf8_text s = true → ∃ us, Forall (λ u, str_unit utf8_run u = true) us ∧ json_escape s = concat us.
Proof.
  unfold utf8_text. intros Hr%bool_decide_eq_true. remember (length s) as n eqn:Hn. revert s Hr Hn.
  induction n as [n IH] using (well_founded_induction lt_wf). intros s Hr ->.
  destruct (run_prefix s UStart I Hr) as (h & rest & -> & Hh & Hrun & Hrest & Hlow).
  assert (json_escape h = h) as Hesc.
  { clear -Hh. unfold json_escape. induction h as [|c h IHh]; [done|]. cbn in Hh |- *. apply andb_true_iff in Hh as [Hc Hh].
    rewrite escape_char_high by done. cbn. by rewrite IHh. }
  assert (str_unit utf8_run h = true) as Hu.
  { unfold str_unit, utf8_run, utf8_text. rewrite Hh, bool_decide_eq_true_2 by done. apply orb_true_r. }
  assert (json_escape (h ++ rest) = h ++ json_escape rest) as ->.
  { unfold json_escape in *. by rewrite fmap_app, concat_app, Hesc. }
  destruct rest as [|c rest]; [exists [h]; split; [by constructor|]; cbn; by rewrite app_nil_r|].
  destruct (IH (length rest)) with (s := rest) as (us & Hus & Heq); [rewrite length_app; cbn; lia| |done|].
  { change (urun (ustep UStart c) rest = UStart) in Hrest. by rewrite ustep_low in Hrest. }
  exists (h :: escape_char c :: us). split.
  - constructor; [done|]. constructor; [|done]. unfold str_unit. by destruct (escape_char_low c Hlow) as (_ & _ & ->).
  - cbn [concat]. unfold json_escape in *. cbn [fmap list_fmap concat]. by rewrite Heq.
Qed.

Lemma json_escape_string s : utf8_text s = true → json_string utf8_run (quoted (json_escape s)).
Proof. intros (us & Hus & ->)%utf8_units. by exists us. Qed.

(** ** Documents can be decoded *)

Lemma unit_utf8 u : str_unit utf8_run u = true → utf8_text u = true.
Proof.
  unfold str_unit, utf8_run. rewrite orb_true_iff, andb_true_iff. intros [Hu|[_ Hu]]; [|done]. apply utf8_low. unfold ascii_unit in Hu.
  assert (∀ c, ceqb c BACKSLASH = true → low c) as Hb by (intros c ->%ceqb_eq; done).
  assert (∀ c, is_hex c = true → low c) as Hh.
  { intros c Hc. unfold is_hex, isdigit, in_range in Hc. unfold low. rewrite !orb_true_iff, !andb_true_iff, !Z.leb_le in Hc. lia. }
  destruct u as [|b [|e [|h1 [|h2 [|h3 [|h4 []]]]]]]; try done.
  - apply Forall_singleton. unfold low. bool_prop. lia.
  - apply andb_true_iff in Hu as [H1 H2]. apply contains_char_spec in H2. repeat constructor; [by apply Hb|].
    rewrite !elem_of_cons, elem_of_nil in H2. unfold low. destruct H2 as [->|[->|[->|[->|[->|[->|[->|[->|[]]]]]]]]]; by vm_compute.
  - rewrite !andb_true_iff in Hu. destruct Hu as (((((H1 & H2) & H3) & H4) & H5) & H6). apply ceqb_eq in H2 as ->.
    repeat constructor; auto.
Qed.

Lemma concat_utf8 us : Forall (λ u, utf8_text u = true) us → utf8_text (concat us) = true.
Proof. induction 1 as [|u us Hu _ IH]; [done|]. cbn [concat]. by rewrite utf8_app. Qed.

Lemma string_utf8 s : json_string utf8_run s → utf8_text s = true.
Proof.
  intros (us & Hus & ->). unfold quoted. rewrite utf8_between by by apply low_literal. apply concat_utf8.
  eapply Forall_impl; [exact Hus|]. apply unit_utf8.
Qed.

Lemma join_utf8 l : Forall (λ u, utf8_text u = true) l → utf8_text (join_with "," l) = true.
Proof.
  induction 1 as [|u l Hu Hl IH]; [done|]. destruct l as [|v l]; [done|]. change (join_with "," (u :: v :: l)) with (u ++ "," ++ join_with "," (v :: l)).
  by rewrite utf8_app, utf8_app by done.
Qed.

Lemma doc_utf8 : ∀ d, json_doc utf8_run d → utf8_text d = true.
Proof.
  fix doc_utf8 2. intros d [|b|z|s Hs|vs Hvs|ms Hms].
  - done.
  - by destruct b.
  - apply utf8_low, to_string_low.
  - by apply string_utf8.
  - unfold array_text. rewrite utf8_between by by apply low_literal. apply join_utf8. induction Hvs as [|v vs Hv _ IH]; constructor; [|exact IH].
    by apply doc_utf8.
  - unfold object_text. rewrite utf8_between by by apply low_literal. apply join_utf8. induction Hms as [|m ms [Hk Hv] _ IH]; constructor; [|exact IH].
    unfold member. rewrite utf8_app by by apply string_utf8. rewrite utf8_app by done. by apply doc_utf8.
Qed.

(** ** The cells of a result set *)

(** The escapes of a cell below 0x80. *)
Definition turn_unit (c : ascii) : bool := if code c <? 128 then ascii_unit (escape_turn c []).1 else true.

Lemma turn_unit_all c : turn_unit c = true.
Proof. revert c. apply byte_check. vm_compute. reflexivity. Qed.

Lemma low_turn c rest : code c <? 128 = true → escape_turn c rest = escape_turn c [].
Proof. intros Hc. unfold escape_turn. rewrite Hc. by destruct (short_escape c). Qed.

Section cells.
Context (mb : bytes → bool).

(** Every sequence that passes the test of the writer is admitted. *)
Definition admitted (data : bytes) : Prop :=
  ∀ pre c rest, data = pre ++ c :: rest → valid_sequence c rest = true → mb (c :: take (Z.to_nat (utf8_extra (code c))) rest) = true.

Lemma escape_turn_unit c rest : (valid_sequence c rest = true → mb (c :: take (Z.to_nat (utf8_extra (code c))) rest) = true) →
  str_unit mb (escape_turn c rest).1 = true.
Proof.
  intros Hm. unfold str_unit. apply orb_true_iff. destruct (code c <? 128) eqn:Hc.
  - left. rewrite low_turn by done. pose proof (turn_unit_all c) as Ht. unfold turn_unit in Ht. by rewrite Hc in Ht.
  - unfold escape_turn. rewrite high_byte by done. assert (code c <? 32 = false) as -> by lia. rewrite Hc.
    destruct (valid_sequence c rest); [right; by apply Hm|by left].
Qed.

Lemma admitted_suffix a b : admitted (a ++ b) → admitted b.
Proof. intros Ha pre c rest -> Hv. apply (Ha (a ++ pre)); [by rewrite app_assoc|done]. Qed.

Lemma cell_string data : admitted data → json_string mb (append_json_string data).
Proof.
  intros Ha. cut (∃ us, Forall (λ u, str_unit mb u = true) us ∧ escape_loop (length data) data = concat us).
  { intros (us & Hu & He). unfold append_json_string. rewrite He. by exists us. }
  generalize (length data). intros fuel. revert data Ha. induction fuel as [|fuel IH]; intros data Ha; [by exists []|].
  destruct data as [|c rest]; [by exists []|]. cbn [escape_loop]. pose proof (escape_turn_unit c rest (Ha [] c rest eq_refl)) as Hu.
  destruct (escape_turn c rest) as [out skipped]. cbn [fst] in Hu. destruct (IH (drop skipped rest)) as (us & Hus & ->).
  { apply (admitted_suffix (c :: take skipped rest)). cbn. by rewrite take_drop. }
  exists (out :: us). split; [by constructor|done].
Qed.

(** ** Documents *)

Lemma json_resp_doc c msg data : json_string mb (quoted (json_escape msg)) → json_doc mb data → json_doc mb (json_resp c msg data).
Proof.
  intros Hm Hd. assert (json_resp c msg data = object_text [(quoted "code", to_string c); (quoted "msg", quoted (json_escape msg)); (quoted "data", data)]) as ->.
  { unfold json_resp, object_text, member. cbn [fmap list_fmap join_with fst snd]. by rewrite <- !app_assoc. }
  assert (∀ k, forallb ascii_unit ((λ c, [c]) <$> k) = true → json_string mb (quoted k)) as Hkey.
  { intros k Hk. exists ((λ c, [c]) <$> k). split.
    - rewrite forallb_forall in Hk. apply Forall_forall. intros u Hu%list_elem_of_In. unfold str_unit. by rewrite Hk.
    - f_equal. clear Hk. induction k as [|d k IH]; [done|]. cbn. by rewrite <- IH. }
  apply doc_object. rewrite !Forall_cons. split_and!; cbn [fst snd]; try (by apply Hkey); [apply doc_int|by apply doc_string|done|done].
Qed.

(** The rows of a result. *)
Lemma mysql_result_doc fields rows : Forall admitted fields → Forall (Forall (λ cell, ∀ v, cell = Some v → admitted v)) rows →
  json_doc mb (mysql_result_to_json fields rows).
Proof.
  intros Hf Hr. apply doc_array, Forall_fmap. eapply Forall_impl; [exact Hr|]. intros row Hrow. unfold compose. rewrite row_json_pairs.
  assert (pair_json <$> zip fields row = member <$> ((λ p : bytes * option bytes, (append_json_string p.1, cell_json p.2)) <$> zip fields row)) as ->
    by (by rewrite <- list_fmap_compose).
  rewrite !Forall_forall in *. apply doc_object, Forall_fmap, Forall_forall. intros [name cell] Hin. cbn [compose fst snd].
  pose proof (elem_of_zip_l _ _ _ _ Hin) as Hn. pose proof (elem_of_zip_r _ _ _ _ Hin) as Hc.
  split; [by apply cell_string, Hf|]. destruct cell as [cell|]; cbn [cell_json]; [|apply doc_null]. apply doc_string, cell_string. by apply (Hrow _ Hc).
Qed.
End cells.

(** What the writer tests is the shape. *)
Lemma shape_admitted data : admitted utf8_shape data.
Proof.
  intros pre c rest _ Hv. unfold valid_sequence in Hv. rewrite !andb_true_iff in Hv. destruct Hv as ((H0 & H1) & H2).
  unfold utf8_shape. rewrite H0, H2, andb_true_r. apply Z.ltb_lt in H0, H1. apply Z.eqb_eq. unfold slen in *. rewrite length_take. lia.
Qed.

Lemma key_string k : forallb (λ c, code c <? 128) k = true → json_escape k = k → json_string utf8_run (quoted k).
Proof. intros Hk <-. by apply json_escape_string, utf8_low, low_literal. Qed.

(** An envelope around a text can be decoded exactly when the text is UTF-8. *)
Lemma envelope_low c : Forall low ("{" ++ quoted "code" ++ ":" ++ to_string c ++ "," ++ quoted "msg" ++ ":" ++ [DQUOTE]).
Proof. rewrite !Forall_app. split_and!; try (by apply low_literal). apply to_string_low. Qed.

Lemma ok_text : json_string utf8_run (quoted (json_escape "ok")).
Proof. apply json_escape_string. vm_compute. reflexivity. Qed.

Lemma ok_text_any mb : json_string mb (quoted (json_escape "ok")).
Proof. exists [["o"%char]; ["k"%char]]. split; [by repeat constructor|reflexivity]. Qed.

Lemma ok_str_decodes s : json_doc utf8_run (resp_ok_str s) ↔ utf8_text s = true.
Proof.
  split; [|intros Hs; unfold resp_ok_str; exact (json_resp_doc utf8_run 0 _ _ ok_text (doc_string _ _ (json_escape_string _ Hs)))].
  intros Hd%doc_utf8. assert (resp_ok_str s = (("{" ++ quoted "code" ++ ":" ++ to_string 0 ++ "," ++ quoted "msg" ++ ":" ++ [DQUOTE]) ++
    json_escape "ok" ++ ([DQUOTE] ++ "," ++ quoted "data" ++ ":" ++ [DQUOTE])) ++ json_escape s ++ ([DQUOTE] ++ "}")) as E.
  { unfold resp_ok_str, json_resp, quoted. by rewrite <- !app_assoc. }
  rewrite E, utf8_between, utf8_escape in Hd; [done| |by apply low_literal].
  rewrite !Forall_app. split_and!; [..|by apply low_literal]; try (by apply low_literal).
Qed.

Lemma err_decodes c s : json_doc utf8_run (resp_err c s) ↔ utf8_text s = true.
Proof.
  split; [|intros Hs; unfold resp_err; exact (json_resp_doc utf8_run c _ _ (json_escape_string _ Hs) (doc_null _))].
  intros Hd%doc_utf8. assert (resp_err c s = ("{" ++ quoted "code" ++ ":" ++ to_string c ++ "," ++ quoted "msg" ++ ":" ++ [DQUOTE]) ++ json_escape s ++
    ([DQUOTE] ++ "," ++ quoted "data" ++ ":" ++ "null" ++ "}")) as E.
  { unfold resp_err, json_resp, quoted. by rewrite <- !app_assoc. }
  rewrite E, utf8_between, utf8_escape in Hd; [done|apply envelope_low|by apply low_literal].
Qed.
