(* ===== verification/ConfigSync.v ===== *)
(** * Configuration sync (src/src/app/config_sync_*.cpp)

    Machines share their configuration through Redis: a tick reads the version,
    fetches the snapshot, checks its digest and the version again, and replaces
    the managed files of config.d; a machine that finds no version seeds it.  What
    was applied is remembered in a state file.  The local directory and the state
    file are a record, a tick is a machine that is driven by the replies of Redis,
    and the results of file operations are inputs.  The theorems show which files
    a tick can touch and when, that an applied version is exactly what the
    directory then holds, that versions do not go back, and that the state file is
    read back as it was written. *)

From S2P Require Import Prelude Config PathRules Response AdminJson AppConfig AdminAuth OrderedMap ConfigHistory DbPool RedisPool.

(** ** Managed files *)

Definition is_never_sync_file (name : bytes) : bool :=
  beqb name "11-redis.ini" || beqb name "12-config-sync.ini" || beqb name "99-local.ini".

Definition managed_char (c : ascii) : bool := islower c || isdigit c || ceqb c "_" || ceqb c "-".

Definition is_valid_managed_filename (name : bytes) : bool :=
  match name with
  | a :: b :: c :: rest =>
      negb (slen name <? 7) && (isdigit a && isdigit b && ceqb c "-") &&
      beqb (drop (length name - 4) name) ".ini" && forallb managed_char (take (length rest - 4) rest)
  | _ => false
  end.

Definition strip_cr (s : bytes) : bytes := if bool_decide (last s = Some CR) then take (length s - 1) s else s.

(** A line of an ini file: nothing, a section name, or a key and a value. *)
Inductive ini_line := Blank | Section_ (name : bytes) | Pair_ (key value : bytes) | Other.

Definition classify (line : bytes) : ini_line :=
  let line := trim (strip_cr line) in
  match line with
  | [] => Blank
  | c :: _ =>
      if ceqb c "#" || ceqb c ";" then Blank
      else if ceqb c "[" && bool_decide (last line = Some "]"%char)
      then Section_ (tolower <$> trim (take (length line - 2) (drop 1 line)))
      else match find_char "=" line with
           | None => Other
           | Some eq => Pair_ (trim (take eq line)) (trim (drop (S eq) line))
           end
  end.

Definition contains_section (content target : bytes) : bool :=
  existsb (λ line, match classify line with Section_ s => beqb s (tolower <$> target) | _ => false end) (split_lt LF content).

Definition is_reserved_admin_path (path : bytes) : bool :=
  let path := trim path in
  if negb (starts_with "/" path) then false
  else
    let path := tolower <$> path in
    beqb path "/admin" || starts_with "/admin/" path || beqb path "/api/admin" || starts_with "/api/admin/" path.

Fixpoint reserved_lines (section : bytes) (lines : list bytes) : bool :=
  match lines with
  | [] => false
  | line :: rest =>
      match classify line with
      | Section_ s => reserved_lines s rest
      | Pair_ key value =>
          if beqb section "auth_whitelist" && (is_reserved_admin_path key || is_reserved_admin_path value) then true
          else if beqb section "path_blacklist" && is_reserved_admin_path key then true
          else reserved_lines section rest
      | Blank | Other => reserved_lines section rest
      end
  end.

Definition has_reserved_admin_rule (content : bytes) : bool := reserved_lines [] (split_lt LF content).

(** The reason of a rejection. *)
Definition validate_managed_file (name content : bytes) : option bytes :=
  if is_never_sync_file name then Some ("never-sync file is not Redis-managed" : bytes)
  else if negb (is_valid_managed_filename name) then Some ("invalid managed filename" : bytes)
  else if contains_section content "redis" then Some ("managed file contains [redis] section" : bytes)
  else if contains_section content "admin" then Some ("managed file contains [admin] section" : bytes)
  else if contains_section content "config_sync" then Some ("managed file contains [config_sync] section" : bytes)
  else if contains_section content "config_history" then Some ("managed file contains [config_history] section" : bytes)
  else if has_reserved_admin_rule content then Some ("managed file touches reserved admin path" : bytes)
  else None.

(** FNV-1a in 64 bits, as sixteen hexadecimal digits. *)
Definition fnv_hash (content : bytes) : Z :=
  foldl (λ hash c, wrap64 (Z.lxor hash (code c) * 1099511628211)) 1469598103934665603 content.
Definition content_hash (content : bytes) : bytes := hex_bytes (be_bytes 8 (fnv_hash content)).

(** ** The state file *)

Record State := mkState {
  st_exists : bool;
  synced_version : Z;
  status : bytes;
  managed_files : files_map;
  last_ok : files_map;
  failures : files_map
}.

Definition state0 : State := mkState false 0 "ok" [] [] [].

(** One key of the file; unknown keys are ignored. *)
Definition state_set (st : State) (key value : bytes) : State :=
  if beqb key "synced_version" then
    match parse_int64 value with
    | Some v => mkState (st_exists st) v (status st) (managed_files st) (last_ok st) (failures st)
    | None => st
    end
  else if beqb key "status" then mkState (st_exists st) (synced_version st) value (managed_files st) (last_ok st) (failures st)
  else if starts_with "file." key then
    mkState (st_exists st) (synced_version st) (status st) (sm_insert (drop 5 key) value (managed_files st)) (last_ok st) (failures st)
  else if starts_with "last_ok." key then
    mkState (st_exists st) (synced_version st) (status st) (managed_files st) (sm_insert (drop 8 key) value (last_ok st)) (failures st)
  else if starts_with "failure." key then
    mkState (st_exists st) (synced_version st) (status st) (managed_files st) (last_ok st) (sm_insert (drop 8 key) value (failures st))
  else st.

Definition state_line (st : State) (line : bytes) : State :=
  let line := strip_cr line in
  match find_char "=" line with
  | None => st
  | Some eq => state_set st (take eq line) (drop (S eq) line)
  end.

(** [text] is [None] when the file cannot be opened. *)
Definition load_state (text : option bytes) : State :=
  match text with
  | None => state0
  | Some text => foldl state_line (mkState true 0 "ok" [] [] []) (split_lt LF text)
  end.

Definition prefixed_lines (prefix : bytes) (m : files_map) : list bytes := (λ kv, prefix ++ kv.1 ++ "=" ++ kv.2) <$> m.

Definition state_lines (st : State) : list bytes :=
  [("synced_version=" ++ to_string (synced_version st)); ("status=" ++ status st)] ++
  prefixed_lines "file." (managed_files st) ++ prefixed_lines "last_ok." (last_ok st) ++ prefixed_lines "failure." (failures st).

Definition serialized (st : State) : bytes := concat ((λ l, l ++ [LF]) <$> state_lines st).

(** ** The local files *)

(** An entry of config.d: a regular file or not, and its content when it can be
    opened. *)
Record local_file := mkFile { lf_regular : bool; lf_content : option bytes }.

(** config.d (whether it is a directory, whether it can be listed, its entries)
    and the content of .config-sync-state. *)
Record LocalFs := mkLocal { is_dir : bool; listable : bool; entries : smap local_file; state_text : option bytes }.

(** The results of the operations that replace one file: creating the directory,
    opening the temporary file, the number of bytes that reached it ([None]: all),
    renaming. *)
Record write_io := mkWriteIo { wi_mkdir : bool; wi_open : bool; wi_written : option nat; wi_rename : bool }.

(** What the path config.d/name of a removal leads to: an entry of config.d, the
    state file, config.d itself, or anything else. *)
Inductive removal := RmEntry (k : bytes) | RmState | RmDirectory | RmElsewhere.

(** [io_target] is where a name leads that is not the name of an entry: it holds a
    slash or a NUL (which ends the path), or is empty or made of dots. *)
Record sync_io := mkSyncIo {
  io_write : bytes → write_io;
  io_remove : bytes → bool;
  io_target : bytes → removal;
  io_state : write_io
}.

Definition on_disk (w : write_io) (content : bytes) : bytes :=
  match wi_written w with Some n => take n content | None => content end.

Definition set_entries (fs : LocalFs) (m : smap local_file) : LocalFs := mkLocal true (listable fs) m (state_text fs).

Definition read_file (fs : LocalFs) (name : bytes) : option bytes := f ← sm_find name (entries fs); lf_content f.

(** The stream is not tested after the write: a short write is renamed into
    place. *)
Definition write_managed_file_if_changed (w : write_io) (fs : LocalFs) (name content : bytes) : LocalFs * bool :=
  if negb (wi_mkdir w) then (fs, false)
  else
    let fs := set_entries fs (entries fs) in
    if bool_decide (read_file fs name = Some content) then (fs, true)
    else if negb (wi_open w) then (fs, false)
    else
      let tmp := name ++ ".tmp" in
      let file := mkFile true (Some (on_disk w content)) in
      if negb (wi_rename w) then (set_entries fs (sm_insert tmp file (entries fs)), false)
      else (set_entries fs (sm_insert name file (sm_delete tmp (entries fs))), true).

(** The temporary file of the state is never read and is left out. *)
Definition write_state (w : write_io) (fs : LocalFs) (st : State) : LocalFs * bool :=
  let content := serialized st in
  if bool_decide (state_text fs = Some content) then (fs, true)
  else if negb (wi_open w) then (fs, false)
  else if negb (wi_rename w) then (fs, false)
  else (mkLocal (is_dir fs) (listable fs) (entries fs) (Some (on_disk w content)), true).

Definition plain_name (name : bytes) : bool :=
  negb (contains_char "/" name || contains_char NUL name || beqb name [] || beqb name "." || beqb name "..").

Definition remove_target (io : sync_io) (name : bytes) : removal := if plain_name name then RmEntry name else io_target io name.

(** [std::filesystem::remove]; removing what does not exist is not an error, and a
    directory is removed only when it is empty.  What lies outside config.d, apart
    from the state file, is not modelled. *)
Definition remove_file (ok : bool) (target : removal) (fs : LocalFs) : LocalFs * bool :=
  if negb ok then (fs, false)
  else
    match target with
    | RmEntry name => (mkLocal (is_dir fs) (listable fs) (sm_delete name (entries fs)) (state_text fs), true)
    | RmState => (mkLocal (is_dir fs) (listable fs) (entries fs) None, true)
    | RmDirectory => if bool_decide (entries fs = []) then (mkLocal false (listable fs) [] (state_text fs), true) else (fs, false)
    | RmElsewhere => (fs, true)
    end.

(** *** Collecting *)

(** The paths that are read, in the order of their names. *)
Definition listed_files (fs : LocalFs) : list (bytes * local_file) :=
  if negb (listable fs) then []
  else filter (λ kv : bytes * local_file,
                 (lf_regular kv.2 && beqb (extension kv.1) ".ini" && negb (is_never_sync_file kv.1)) = true) (entries fs : list (bytes * local_file)).

(** The files and the errors; a directory that cannot be listed has neither. *)
Definition collect_local_managed_files (fs : LocalFs) : files_map * list bytes :=
  if negb (is_dir fs) then ([], ["config.d not found" : bytes])
  else
    foldl (λ acc kv,
             let '(files, errors) := acc in
             match lf_content kv.2 with
             | None => (files, errors ++ ["failed to read " ++ kv.1])
             | Some content =>
                 match validate_managed_file kv.1 content with
                 | Some reason => (files, errors ++ [kv.1 ++ ": " ++ reason])
                 | None => (sm_insert kv.1 content files, errors)
                 end
             end) ([], []) (listed_files fs).

Definition collect_local_managed_file_names (fs : LocalFs) : smap () :=
  if negb (is_dir fs) then []
  else sm_insert_all ((λ kv, (kv.1, ())) <$> filter (λ kv : bytes * local_file, is_valid_managed_filename kv.1 = true) (listed_files fs)) [].

Definition hashes (files : files_map) : files_map := (λ kv, (kv.1, content_hash kv.2)) <$> files.

(** ** Applying a version *)

Definition with_failures (st : State) (fl : files_map) : State :=
  mkState (st_exists st) (synced_version st) (status st) (managed_files st) (last_ok st) fl.

(** The rejected files with their reasons, and the accepted ones. *)
Definition rejected_files (remote : files_map) : files_map :=
  foldl (λ fl kv, match validate_managed_file kv.1 kv.2 with Some reason => sm_insert kv.1 reason fl | None => fl end) [] remote.
Definition valid_files (remote : files_map) : files_map :=
  foldl (λ m kv, match validate_managed_file kv.1 kv.2 with Some _ => m | None => sm_insert kv.1 kv.2 m end) [] remote.

(** The two loops over files: the directory, and the failures added. *)
Fixpoint write_files (io : sync_io) (fs : LocalFs) (files : files_map) (fl : files_map) : LocalFs * files_map :=
  match files with
  | [] => (fs, fl)
  | (name, content) :: rest =>
      let '(fs, ok) := write_managed_file_if_changed (io_write io name) fs name content in
      write_files io fs rest (if ok then fl else sm_insert name ("failed to write file" : bytes) fl)
  end.

(** The text of the error code is left out of the reason. *)
Fixpoint remove_stale (io : sync_io) (remote : files_map) (fs : LocalFs) (names : list bytes) (fl : files_map) : LocalFs * files_map :=
  match names with
  | [] => (fs, fl)
  | name :: rest =>
      if sm_has name remote then remove_stale io remote fs rest fl
      else
        let '(fs, ok) := remove_file (io_remove io name) (remove_target io name) fs in
        remove_stale io remote fs rest (if ok then fl else sm_insert name ("failed to remove stale file: " : bytes) fl)
  end.

Definition clean_state (version : Z) (remote : files_map) (detail : bytes) : State :=
  mkState true version (if beqb detail [] then "ok" else "partial") (hashes remote) (hashes remote)
    (if beqb detail [] then [] else [("history_snapshot" : bytes, detail)]).

(** [persist_partial] *)
Definition persist_partial (io : sync_io) (fs : LocalFs) (previous : State) (fl : files_map) : LocalFs * bool * files_map :=
  let next := mkState (st_exists previous) (synced_version previous) "partial" (managed_files previous) (last_ok previous) fl in
  let '(fs, _) := write_state (io_state io) fs next in (fs, false, fl).

(** The directory, whether the version was applied, and the failures. *)
Definition apply_remote_files (io : sync_io) (fs : LocalFs) (version : Z) (remote : files_map) (previous : State) (detail : bytes) :
    LocalFs * bool * files_map :=
  let local_names := sm_insert_all ((λ kv, (kv.1, ())) <$> managed_files previous) (collect_local_managed_file_names fs) in
  if bool_decide (remote = []) && negb (bool_decide (local_names = []))
  then persist_partial io fs previous
         [("remote_files" : bytes, "empty remote file set refused while local managed files exist" : bytes)]
  else
    let '(fs, fl) := write_files io fs (valid_files remote) (rejected_files remote) in
    if negb (bool_decide (fl = [])) then persist_partial io fs previous fl
    else
      let '(fs, fl) := remove_stale io remote fs local_names.*1 [] in
      if negb (bool_decide (fl = [])) then persist_partial io fs previous fl
      else
        let clean := clean_state version remote detail in
        let '(fs, written) := write_state (io_state io) fs clean in
        if negb written then (fs, false, [])
        else if negb (beqb detail []) then (fs, false, failures clean)
        else (fs, true, []).

(** ** Replies *)

Inductive VersionRead := VValue (v : Z) | VMissing | VInvalid (error : bytes) | VError (error : bytes).

Definition read_version_reply (reply : RedisReplyData) : VersionRead :=
  if negb (rd_ok reply) then VError (rd_error reply)
  else if beqb (rd_type reply) "nil" then VMissing
  else if beqb (rd_type reply) "integer" then
    if rd_integer reply <? 0 then VInvalid "negative version" else VValue (rd_integer reply)
  else if beqb (rd_type reply) "string" then
    match parse_int64 (rd_str reply) with
    | Some v => if v <? 0 then VInvalid (rd_str reply) else VValue v
    | None => VInvalid (rd_str reply)
    end
  else VInvalid ("unexpected type " ++ rd_type reply).

(** Anything but an array is an empty map. *)
Definition parse_hgetall (reply : RedisReplyData) : option files_map :=
  if negb (beqb (rd_type reply) "array") then Some []
  else if negb (Nat.even (length (rd_elements reply))) then None
  else Some (sm_insert_all (pair_elements (rd_elements reply)) []).

Definition script_integer (reply : RedisReplyData) : option Z :=
  if beqb (rd_type reply) "integer" then Some (rd_integer reply)
  else if beqb (rd_type reply) "string" then parse_int64 (rd_str reply)
  else None.

(** ** A tick *)

Definition kVersionKey : bytes := "asio_owen:config:version".
Definition kFilesKey : bytes := "asio_owen:config:files".
Definition kStagingKey : bytes := "asio_owen:config:files:staging".
Definition kMachinesKey : bytes := "asio_owen:config:machines".

Definition failure_text (kv : bytes * bytes) : bytes := kv.1 ++ ":" ++ kv.2.

Definition heartbeat_payload (version time pid : Z) (status : bytes) (fl : files_map) : bytes :=
  to_string version ++ "|" ++ to_string time ++ "|" ++ to_string pid ++ "|" ++ status ++
  (if bool_decide (fl = []) then [] else "|" ++ join_with "," (failure_text <$> fl)).

(** The command under way and what its reply is for. *)
Inductive sync_pc :=
| AwaitVersion
| AwaitSnapshot (version : Z)
| AwaitMirror (version : Z) (require_meta_hash : bool)
| AwaitMeta (version : Z) (files : files_map) (fallback_detail : bytes)
| AwaitSecond (version : Z) (files : files_map) (detail : bytes)
| AwaitSeed (seeded : State) (args : list bytes)
| AwaitBeat (payload : bytes) (result : bool)
| Finished (ok : bool).

(** What a step may observe: the file operations, [std::time], [getpid]. *)
Record tick_io := mkTickIo { ti_sync : sync_io; ti_time : Z; ti_pid : Z }.

Section tick.
(** The text of the Lua script that seeds, the history part of the configuration,
    and the name of the machine. *)
Context `{OpenSsl} (seed_script : bytes) (history : ConfigHistoryConfig) (machine : bytes).

(** The command of a pending reply. *)
Definition command (pc : sync_pc) : list bytes :=
  match pc with
  | AwaitVersion | AwaitSecond _ _ _ => ["GET" : bytes; kVersionKey]
  | AwaitSnapshot v => ["HGETALL" : bytes; snapshot_key v]
  | AwaitMirror _ _ => ["HGETALL" : bytes; kFilesKey]
  | AwaitMeta v _ _ => ["HGET" : bytes; kMetaKey; to_string v]
  | AwaitSeed _ args => args
  | AwaitBeat payload _ => ["HSET" : bytes; kMachinesKey; machine; payload]
  | Finished _ => []
  end.

Definition beat (io : tick_io) (version : Z) (status : bytes) (fl : files_map) (result : bool) : sync_pc :=
  AwaitBeat (heartbeat_payload version (ti_time io) (ti_pid io) status fl) result.

Definition has_seed_eligibility (fs : LocalFs) (st : State) : bool :=
  if negb (st_exists st) then true
  else if negb (beqb (status st) "ok") then false
  else
    let '(files, errors) := collect_local_managed_files fs in
    if negb (bool_decide (errors = [])) then false else bool_decide (hashes files = last_ok st).

Definition seeded_state (files : files_map) : State := mkState true 1 "ok" (hashes files) (hashes files) [].

Definition seed_args (time : Z) (files : files_map) (info : SnapshotInfo) : list bytes :=
  ["EVAL" : bytes; seed_script; "7" : bytes; kVersionKey; kFilesKey; kStagingKey; kMetaKey; kIndexKey; snapshot_key 1; kSnapshotStagingKey;
   metadata_json 1 0 time machine "seed" "initial configuration seed" info None;
   to_string (max_files history); to_string (max_file_bytes history); to_string (max_snapshot_bytes history)] ++
  concat ((λ kv, [kv.1; kv.2]) <$> files).

Definition seed_if_eligible (io : tick_io) (fs : LocalFs) : sync_pc :=
  if negb (has_seed_eligibility fs (load_state (state_text fs))) then Finished false
  else
    let '(files, errors) := collect_local_managed_files fs in
    if negb (bool_decide (errors = [])) then Finished false
    else
      match validate_snapshot files history false with
      | inl _ => Finished false
      | inr info =>
          if bool_decide (files = []) && beqb (read_mode history) "required" then Finished false
          else AwaitSeed (seeded_state files) (seed_args (ti_time io) files info)
      end.

Definition seed_done (io : tick_io) (fs : LocalFs) (seeded : State) (reply : RedisReplyData) : LocalFs * sync_pc :=
  if negb (rd_ok reply) then (fs, Finished false)
  else
    match script_integer reply with
    | Some 1 =>
        let '(fs, ok) := write_state (io_state (ti_sync io)) fs seeded in
        if negb ok then (fs, Finished false) else (fs, beat io 1 "ok" [] true)
    | _ => (fs, Finished false)
    end.

Definition record_history_failure (io : tick_io) (fs : LocalFs) (version : Z) (detail : bytes) : LocalFs * sync_pc :=
  let st := load_state (state_text fs) in
  let next := mkState true (synced_version st) "partial" (managed_files st) (last_ok st) (sm_insert "history_snapshot" detail (failures st)) in
  let '(fs, _) := write_state (io_state (ti_sync io)) fs next in
  (fs, beat io version "partial" [("history_snapshot" : bytes, detail)] false).

(** The local files match the state. *)
Definition local_matches (fs : LocalFs) (st : State) : bool :=
  let '(files, errors) := collect_local_managed_files fs in
  bool_decide (errors = []) && beqb (status st) "ok" && bool_decide (managed_files st = last_ok st) &&
  bool_decide (hashes files = last_ok st).

Definition version_read (io : tick_io) (fs : LocalFs) (reply : RedisReplyData) : sync_pc :=
  match read_version_reply reply with
  | VError _ | VInvalid _ => Finished false
  | VMissing => seed_if_eligible io fs
  | VValue remote =>
      let st := load_state (state_text fs) in
      if remote <? synced_version st then Finished false
      else
        let recovery := beqb (status st) "partial" && sm_has "history_snapshot" (failures st) in
        if (remote =? synced_version st) && negb recovery && local_matches fs st
        then beat io remote "ok" [] true
        else AwaitSnapshot remote
  end.

Definition snapshot_read (version : Z) (reply : RedisReplyData) : sync_pc :=
  if negb (rd_ok reply) then Finished false
  else
    match parse_hgetall reply with
    | None => Finished false
    | Some [] => AwaitMirror version (negb (beqb (read_mode history) "compat"))
    | Some files => AwaitMeta version files []
    end.

Definition mirror_read (io : tick_io) (fs : LocalFs) (version : Z) (require_meta_hash : bool) (reply : RedisReplyData) : LocalFs * sync_pc :=
  if negb (rd_ok reply) then record_history_failure io fs version "history_snapshot_missing_mirror_read_failed"
  else
    match parse_hgetall reply with
    | None | Some [] => record_history_failure io fs version "history_snapshot_and_mirror_missing"
    | Some files =>
        (fs, if negb require_meta_hash then AwaitSecond version files []
             else AwaitMeta version files "history_snapshot_missing_fallback")
    end.

Definition meta_read (io : tick_io) (fs : LocalFs) (version : Z) (files : files_map) (detail : bytes) (reply : RedisReplyData) : LocalFs * sync_pc :=
  if negb (rd_ok reply) || negb (beqb (rd_type reply) "string")
  then record_history_failure io fs version "history_snapshot_meta_missing"
  else
    match json_string_field (rd_str reply) "content_sha256", content_sha256 files with
    | Some expected, Some actual =>
        if beqb expected actual then (fs, AwaitSecond version files detail)
        else record_history_failure io fs version "history_snapshot_hash_mismatch"
    | _, _ => record_history_failure io fs version "history_snapshot_hash_mismatch"
    end.

Definition second_read (io : tick_io) (fs : LocalFs) (version : Z) (files : files_map) (detail : bytes) (reply : RedisReplyData) : LocalFs * sync_pc :=
  match read_version_reply reply with
  | VValue after =>
      if negb (after =? version) then (fs, Finished false)
      else
        let '(fs, applied, fl) := apply_remote_files (ti_sync io) fs version files (load_state (state_text fs)) detail in
        (fs, if applied then beat io version "ok" [] true else beat io version "partial" fl false)
  | _ => (fs, Finished false)
  end.

(** One reply. *)
Definition sync_step (io : tick_io) (fs : LocalFs) (pc : sync_pc) (reply : RedisReplyData) : LocalFs * sync_pc :=
  match pc with
  | AwaitVersion => (fs, version_read io fs reply)
  | AwaitSnapshot v => (fs, snapshot_read v reply)
  | AwaitMirror v require => mirror_read io fs v require reply
  | AwaitMeta v files detail => meta_read io fs v files detail reply
  | AwaitSecond v files detail => second_read io fs v files detail reply
  | AwaitSeed seeded _ => seed_done io fs seeded reply
  | AwaitBeat _ result => (fs, Finished result)
  | Finished ok => (fs, Finished ok)
  end.

(** A whole tick, reply after reply. *)
Fixpoint run_tick (fs : LocalFs) (pc : sync_pc) (replies : list (tick_io * RedisReplyData)) : LocalFs * sync_pc :=
  match replies with
  | [] => (fs, pc)
  | (io, reply) :: rest => let '(fs, pc) := sync_step io fs pc reply in run_tick fs pc rest
  end.

End tick.

(** ** The state file is read back *)

(** A value that survives a line of the file, and a key without a separator. *)
Definition line_value (v : bytes) : Prop := LF ∉ v ∧ last v ≠ Some CR.
Definition line_key (k : bytes) : Prop := LF ∉ k ∧ "="%char ∉ k.

Lemma state_line_kv st k v : "="%char ∉ k → last v ≠ Some CR → state_line st (k ++ "="%char :: v) = state_set st k v.
Proof.
  intros Hk Hv. unfold state_line, strip_cr. rewrite bool_decide_eq_false_2.
  - rewrite find_char_app by done. rewrite take_app_length. f_equal.
    change (k ++ "="%char :: v) with (k ++ ["="%char] ++ v). rewrite app_assoc. apply drop_app_length'. rewrite length_app. cbn. lia.
  - rewrite last_app. destruct v as [|c v]; [done|]. rewrite last_cons_cons. destruct (last (c :: v)) eqn:E; [done|by apply last_None in E].
Qed.

Definition clean_map (m : files_map) : Prop := sm_sorted m ∧ Forall (λ kv, line_key kv.1 ∧ line_value kv.2) m.

Definition clean (st : State) : Prop :=
  st_exists st = true ∧ 0 ≤ synced_version st ≤ INT64_MAX ∧ line_value (status st) ∧
  clean_map (managed_files st) ∧ clean_map (last_ok st) ∧ clean_map (failures st).

(** The lines of the three maps: each is one insertion. *)
Lemma load_prefixed prefix (set : State → bytes → bytes → State) st m :
  "="%char ∉ prefix → (∀ st k v, state_set st (prefix ++ k) v = set st k v) →
  Forall (λ kv, "="%char ∉ kv.1 ∧ last kv.2 ≠ Some CR) m →
  foldl state_line st (prefixed_lines prefix m) = foldl (λ st kv, set st kv.1 kv.2) st m.
Proof.
  intros Hp Hset Hm. revert st. induction Hm as [|[k v] m [Hk Hv] _ IH]; intros st; [done|]. unfold prefixed_lines in *.
  cbn [fmap list_fmap foldl fst snd] in *. rewrite IH. f_equal.
  change (prefix ++ k ++ "=" ++ v) with (prefix ++ k ++ "="%char :: v). rewrite app_assoc, state_line_kv; [apply Hset| |done].
  rewrite elem_of_app. tauto.
Qed.

Definition set_file (st : State) (k v : bytes) : State :=
  mkState (st_exists st) (synced_version st) (status st) (sm_insert k v (managed_files st)) (last_ok st) (failures st).
Definition set_last_ok (st : State) (k v : bytes) : State :=
  mkState (st_exists st) (synced_version st) (status st) (managed_files st) (sm_insert k v (last_ok st)) (failures st).
Definition set_failure (st : State) (k v : bytes) : State :=
  mkState (st_exists st) (synced_version st) (status st) (managed_files st) (last_ok st) (sm_insert k v (failures st)).

Lemma state_set_file st k v : state_set st ("file." ++ k) v = set_file st k v.
Proof. reflexivity. Qed.
Lemma state_set_last_ok st k v : state_set st ("last_ok." ++ k) v = set_last_ok st k v.
Proof. reflexivity. Qed.
Lemma state_set_failure st k v : state_set st ("failure." ++ k) v = set_failure st k v.
Proof. reflexivity. Qed.

Lemma fold_set_file st m : foldl (λ st kv, set_file st kv.1 kv.2) st m =
  mkState (st_exists st) (synced_version st) (status st) (sm_insert_all m (managed_files st)) (last_ok st) (failures st).
Proof. revert st. induction m as [|[k v] m IH]; intros st; [by destruct st|]. cbn [foldl]. by rewrite IH. Qed.
Lemma fold_set_last_ok st m : foldl (λ st kv, set_last_ok st kv.1 kv.2) st m =
  mkState (st_exists st) (synced_version st) (status st) (managed_files st) (sm_insert_all m (last_ok st)) (failures st).
Proof. revert st. induction m as [|[k v] m IH]; intros st; [by destruct st|]. cbn [foldl]. by rewrite IH. Qed.
Lemma fold_set_failure st m : foldl (λ st kv, set_failure st kv.1 kv.2) st m =
  mkState (st_exists st) (synced_version st) (status st) (managed_files st) (last_ok st) (sm_insert_all m (failures st)).
Proof. revert st. induction m as [|[k v] m IH]; intros st; [by destruct st|]. cbn [foldl]. by rewrite IH. Qed.

(** Texts without a line feed are one line each. *)
Definition map_lines (m : files_map) : Prop := Forall (λ kv, LF ∉ kv.1 ∧ LF ∉ kv.2) m.
Definition state_text_lines (st : State) : Prop :=
  LF ∉ status st ∧ map_lines (managed_files st) ∧ map_lines (last_ok st) ∧ map_lines (failures st).

Lemma prefixed_lines_lf prefix m : LF ∉ prefix → map_lines m → Forall (λ l, LF ∉ l) (prefixed_lines prefix m).
Proof.
  intros Hp Hm. unfold prefixed_lines. apply Forall_fmap. eapply Forall_impl; [exact Hm|]. intros [k v] [Hk Hv]. cbn [fst snd] in *.
  unfold compose. cbn [fst snd]. rewrite !elem_of_app. intros [Hi|[Hi|[Hi|Hi]]]; [by apply Hp|by apply Hk|by apply contains_char_spec in Hi|by apply Hv].
Qed.

Lemma to_string_no_lf n : LF ∉ to_string n.
Proof. intros Hin. by destruct (to_string_chars n _ Hin). Qed.

Lemma state_lines_lf st : state_text_lines st → Forall (λ l, LF ∉ l) (state_lines st).
Proof.
  intros (Hs & Hf & Hl & Hr). unfold state_lines. rewrite !Forall_app, !Forall_cons. split_and!; [| |by constructor|..];
    try (apply prefixed_lines_lf; [by apply contains_char_false|done]).
  - rewrite elem_of_app. intros [Hin|Hin]; [by apply contains_char_spec in Hin|by apply to_string_no_lf in Hin].
  - rewrite elem_of_app. intros [Hin|Hin]; [by apply contains_char_spec in Hin|done].
Qed.

Lemma load_serialized st : state_text_lines st → load_state (Some (serialized st)) = foldl state_line (mkState true 0 "ok" [] [] []) (state_lines st).
Proof. intros Hst. unfold load_state, serialized. by rewrite split_lines by by apply state_lines_lf. Qed.

Lemma map_lines_clean m : clean_map m → map_lines m.
Proof. intros [_ Hm]. eapply Forall_impl; [exact Hm|]. by intros kv [[? _] [? _]]. Qed.

Lemma load_two_lines v s : 0 ≤ v ≤ INT64_MAX → last s ≠ Some CR →
  foldl state_line (mkState true 0 "ok" [] [] []) [("synced_version=" ++ to_string v); ("status=" ++ s)] = mkState true v s [] [] [].
Proof.
  intros Hv Hs. cbn [foldl]. change ("synced_version=" ++ to_string v) with (("synced_version" : bytes) ++ "="%char :: to_string v).
  rewrite state_line_kv; [|by apply contains_char_false|].
  - unfold state_set at 1. rewrite beqb_refl, parse_int64_print by done. cbn [st_exists status managed_files last_ok failures].
    change ("status=" ++ s) with (("status" : bytes) ++ "="%char :: s). by rewrite state_line_kv; [|by apply contains_char_false|].
  - intros Hl. apply last_Some_elem_of in Hl. by destruct (to_string_chars v _ Hl).
Qed.

Lemma state_read_back st : clean st → load_state (Some (serialized st)) = st.
Proof.
  intros (He & Hv & [Hs1 Hs2] & Hm & Hl & Hf). rewrite load_serialized by (split_and!; [done|by apply map_lines_clean..]).
  unfold state_lines. rewrite foldl_app, load_two_lines by done. rewrite !foldl_app.
  assert (∀ m, clean_map m → Forall (λ kv, "="%char ∉ kv.1 ∧ last kv.2 ≠ Some CR) m) as Hcm.
  { intros m [_ Hcm]. eapply Forall_impl; [exact Hcm|]. by intros kv [[_ ?] [_ ?]]. }
  rewrite (load_prefixed "file." set_file _ _ ltac:(by apply contains_char_false) state_set_file (Hcm _ Hm)).
  rewrite (load_prefixed "last_ok." set_last_ok _ _ ltac:(by apply contains_char_false) state_set_last_ok (Hcm _ Hl)).
  rewrite (load_prefixed "failure." set_failure _ _ ltac:(by apply contains_char_false) state_set_failure (Hcm _ Hf)).
  rewrite fold_set_file, fold_set_last_ok, fold_set_failure. cbn [st_exists synced_version status managed_files last_ok failures].
  rewrite !insert_all_id by (apply Hm || apply Hl || apply Hf). destruct st. cbn in *. by subst.
Qed.

(** ** What the file operations touch *)

Definition is_tmp (k : bytes) : Prop := ∃ n, k = n ++ ".tmp".

(** Two directories that agree on a name, and in everything but their entries. *)
Definition same_entry (fs fs' : LocalFs) (k : bytes) : Prop := sm_find k (entries fs') = sm_find k (entries fs).
Definition keeps_rest (fs fs' : LocalFs) : Prop :=
  state_text fs' = state_text fs ∧ listable fs' = listable fs ∧ (is_dir fs = true → is_dir fs' = true) ∧
  (sm_sorted (entries fs) → sm_sorted (entries fs')).

#[export] Instance keeps_rest_refl : Reflexive keeps_rest.
Proof. done. Qed.
#[export] Instance keeps_rest_trans : Transitive keeps_rest.
Proof. intros f g h (? & ? & ? & ?) (? & ? & ? & ?). split_and!; [congruence|congruence|auto|auto]. Qed.

Lemma write_spec w fs name content fs' ok :
  write_managed_file_if_changed w fs name content = (fs', ok) → sm_sorted (entries fs) →
  keeps_rest fs fs' ∧
  (∀ k, ¬ is_tmp k → (k ≠ name ∨ ok = false) → same_entry fs fs' k) ∧
  (ok = true → wi_written w = None → read_file fs' name = Some content).
Proof.
  unfold write_managed_file_if_changed. intros Hw Hs. case_if; [injection Hw as <- <-; done|]. case_if.
  { bool_prop. injection Hw as <- <-. done. }
  case_if; [injection Hw as <- <-; done|]. case_if; injection Hw as <- <-.
  - split; [split_and!; try done; intros; by apply sm_insert_sorted|]. split; [|done].
    intros k Hk _. unfold same_entry. cbn [entries set_entries]. rewrite sm_find_insert_ne; [done|]. intros <-. apply Hk. by exists name.
  - split; [split_and!; try done; intros; by apply sm_insert_sorted, sm_delete_sorted|]. split.
    + intros k Hk [Hne|?]; [|done]. unfold same_entry. cbn [entries set_entries]. rewrite sm_find_insert_ne by done. rewrite sm_find_delete by done.
      destruct (beqb _ k) eqn:Ek; [|done]. apply beqb_eq in Ek as <-. exfalso. apply Hk. by exists name.
    + intros _ Hc. unfold read_file, on_disk. cbn [entries set_entries]. by rewrite sm_find_insert, Hc.
Qed.

Lemma insert_nonempty {V} k (v : V) m : sm_insert k v m ≠ [].
Proof. destruct m as [|[k' v'] m]; cbn; [done|]. by repeat case_if. Qed.

Lemma write_files_nonempty io fs files fl : fl ≠ [] → (write_files io fs files fl).2 ≠ [].
Proof.
  revert fs fl. induction files as [|[n c] files IH]; intros fs fl Hf; [done|]. cbn [write_files].
  destruct (write_managed_file_if_changed _ _ _ _) as [fs1 []]; apply IH; [done|apply insert_nonempty].
Qed.

Lemma write_files_spec io fs files fl fs' fl' :
  write_files io fs files fl = (fs', fl') → sm_sorted (entries fs) →
  keeps_rest fs fs' ∧
  (∀ k, ¬ is_tmp k → k ∉ files.*1 → same_entry fs fs' k) ∧
  (fl' = [] → NoDup files.*1 → Forall (λ n, ¬ is_tmp n ∧ wi_written (io_write io n) = None) files.*1 →
   ∀ n c, (n, c) ∈ files → read_file fs' n = Some c).
Proof.
  revert fs fl. induction files as [|[n c] files IH]; intros fs fl Hw Hs; cbn [write_files] in Hw.
  { injection Hw as <- <-. split_and!; try done. by intros _ _ _ ? ? ?%not_elem_of_nil. }
  destruct (write_managed_file_if_changed _ fs n c) as [fs1 ok] eqn:E.
  destruct (write_spec _ _ _ _ _ _ E Hs) as (Hk1 & Hsame1 & Hread). pose proof Hk1 as (_ & _ & _ & Hs1).
  pose proof (write_files_nonempty io fs1 files) as Hne.
  destruct (IH _ _ Hw (Hs1 Hs)) as (Hk2 & Hsame2 & Hread2). split; [by etrans|]. cbn [fmap list_fmap fst]. split.
  - intros k Ht Hk. apply not_elem_of_cons in Hk as [Hkn Hk]. unfold same_entry in *. rewrite Hsame2 by done. apply Hsame1; auto.
  - intros Hfl [Hn Hnd]%NoDup_cons [[Htn Hwn] Hall]%Forall_cons. assert (ok = true) as ->.
    { destruct ok; [done|]. exfalso. apply (Hne (sm_insert n ("failed to write file" : bytes) fl)); [apply insert_nonempty|].
      by rewrite Hw. }
    intros n' c' [[= -> ->]|Hin]%elem_of_cons; [|by apply Hread2].
    unfold read_file. pose proof (Hsame2 n Htn Hn) as Heq. unfold same_entry in Heq. rewrite Heq. by apply Hread.
Qed.

Lemma remove_stale_nonempty io remote fs names fl : fl ≠ [] → (remove_stale io remote fs names fl).2 ≠ [].
Proof.
  revert fs fl. induction names as [|n names IH]; intros fs fl Hf; [done|]. cbn [remove_stale]. case_if; [by apply IH|].
  destruct (remove_file _ _ _) as [fs1 []]; apply IH; [done|apply insert_nonempty].
Qed.

Lemma remove_file_spec ok io fs n fs' done_ : remove_file ok (remove_target io n) fs = (fs', done_) → plain_name n = true → sm_sorted (entries fs) →
  keeps_rest fs fs' ∧ (∀ k, k ≠ n → same_entry fs fs' k) ∧ (∀ k f, sm_find k (entries fs') = Some f → sm_find k (entries fs) = Some f) ∧
  (done_ = true → sm_find n (entries fs') = None).
Proof.
  unfold remove_file, remove_target. intros Hr Hp Hs. rewrite Hp in Hr. destruct ok; cbn [negb] in Hr; [|by injection Hr as <- <-].
  injection Hr as <- <-. split; [split_and!; try done; by apply sm_delete_sorted|]. unfold same_entry. cbn. split_and!.
  - intros k Hk. rewrite sm_find_delete by done. by rewrite (proj2 (beqb_ne n k)).
  - intros k f. rewrite sm_find_delete by done. by destruct (beqb n k).
  - intros _. rewrite sm_find_delete by done. by rewrite beqb_refl.
Qed.

Lemma remove_stale_spec io remote fs names fl fs' fl' :
  remove_stale io remote fs names fl = (fs', fl') → Forall (λ n, plain_name n = true) names → sm_sorted (entries fs) →
  keeps_rest fs fs' ∧
  (∀ k, k ∉ names ∨ sm_has k remote = true → same_entry fs fs' k) ∧
  (∀ k f, sm_find k (entries fs') = Some f → sm_find k (entries fs) = Some f) ∧
  (fl' = [] → ∀ n, n ∈ names → sm_has n remote = false → sm_find n (entries fs') = None).
Proof.
  intros Hr Hp. revert fs fl Hr. induction Hp as [|n names Hn0 _ IH]; intros fs fl Hr Hs; cbn [remove_stale] in Hr.
  { injection Hr as <- <-. split_and!; try done. by intros _ ? ?%not_elem_of_nil. }
  destruct (sm_has n remote) eqn:Eh.
  { destruct (IH _ _ Hr Hs) as (Hk & Hsame & Hsub & Hdel). split; [done|]. split; [|split; [done|]].
    - intros k [Hk'|Hk']; apply Hsame; [left; intros Hin; apply Hk'; by right|by right].
    - intros Hfl n' [->|Hin]%elem_of_cons Hn; [congruence|]. by apply Hdel. }
  destruct (remove_file _ _ fs) as [fs1 ok] eqn:E. destruct (remove_file_spec _ _ _ _ _ _ E Hn0 Hs) as (Hk1 & Hsame1 & Hsub1 & Hdel1).
  pose proof Hk1 as (_ & _ & _ & Hs1). pose proof (remove_stale_nonempty io remote fs1 names) as Hne.
  destruct (IH _ _ Hr (Hs1 Hs)) as (Hk2 & Hsame2 & Hsub2 & Hdel2). split; [by etrans|]. split; [|split; [auto|]].
  - intros k Hk. unfold same_entry in *. rewrite Hsame2; [apply Hsame1|].
    + destruct Hk as [Hk|Hk]; [intros ->; apply Hk; left|congruence].
    + destruct Hk as [Hk|Hk]; [left; intros Hin; apply Hk; by right|by right].
  - intros Hfl n' [->|Hin]%elem_of_cons Hn; [|by apply Hdel2]. assert (ok = true) as ->.
    { destruct ok; [done|]. exfalso. apply (Hne (sm_insert n ("failed to remove stale file: " : bytes) fl)); [apply insert_nonempty|].
      by rewrite Hr. }
    destruct (sm_find n (entries fs')) as [f|] eqn:F; [|done]. apply Hsub2 in F. by rewrite Hdel1 in F.
Qed.
