(* ===== verification/SyncSafety.v ===== *)
(** * What a tick of the synchronization guarantees

    The theorems on ConfigSync: which entries of config.d a tick can change, that
    an applied version is what the directory then holds, that the next tick has
    nothing to do, that versions do not go back, and that a file that passes the
    validation leaves the sections of the gateway's own administration as they
    were. *)

From S2P Require Import Prelude Config Doubles PathNormalize PathRules RateLimiter SecurityRules Response AdminJson AppConfig AdminAuth OrderedMap ConfigHistory DbPool RedisPool ConfigSync.

(** ** Names of managed files *)

Lemma valid_name_shape n : is_valid_managed_filename n = true →
  ∃ a b mid, n = a :: b :: "-"%char :: mid ++ ".ini" ∧ isdigit a = true ∧ isdigit b = true ∧ forallb managed_char mid = true.
Proof.
  unfold is_valid_managed_filename. destruct n as [|a [|b [|c rest]]]; try done. intros Hv. unfold slen in Hv.
  apply andb_true_iff in Hv as [Hv Hm]. apply andb_true_iff in Hv as [Hv He]. apply andb_true_iff in Hv as [Hl Hd].
  apply negb_true_iff, Z.ltb_ge in Hl. cbn [length] in Hl. apply beqb_eq in He. apply andb_true_iff in Hd as [Hd Hc].
  apply andb_true_iff in Hd as [Ha Hb]. apply ceqb_eq in Hc as ->.
  exists a, b, (take (length rest - 4) rest). split_and!; try done. repeat f_equal. rewrite <- (take_drop (length rest - 4) rest) at 1. f_equal.
  rewrite <- He. replace (length (a :: b :: "-"%char :: rest) - 4)%nat with (S (S (S (length rest - 4)))) by (cbn [length]; lia). done.
Qed.

Lemma managed_char_plain c : managed_char c = true → c ≠ "/"%char ∧ c ≠ "="%char ∧ c ≠ LF ∧ c ≠ "."%char ∧ c ≠ CR.
Proof. intros Hm. split_and!; intros ->; vm_compute in Hm; done. Qed.

Lemma valid_name_chars n c : is_valid_managed_filename n = true → c ∈ n → c ≠ "/"%char ∧ c ≠ "="%char ∧ c ≠ LF ∧ c ≠ CR.
Proof.
  intros (a & b & mid & -> & Ha & Hb & Hm)%valid_name_shape Hin.
  assert (∀ d, isdigit d = true → d ≠ "/"%char ∧ d ≠ "="%char ∧ d ≠ LF ∧ d ≠ CR) as Hdig.
  { intros d Hd. split_and!; intros ->; vm_compute in Hd; done. }
  rewrite !elem_of_cons, elem_of_app in Hin. destruct Hin as [->|[->|[->|[Hin|Hin]]]]; [by apply Hdig..|done| |].
  - rewrite forallb_forall in Hm. destruct (managed_char_plain c) as (? & ? & ? & ? & ?); [|done].
    by apply Hm, list_elem_of_In.
  - split_and!; intros ->; by apply contains_char_spec in Hin.
Qed.

Lemma valid_name_line n : is_valid_managed_filename n = true → line_key n ∧ "/"%char ∉ n.
Proof. intros Hv. unfold line_key. split_and!; intros Hin; by destruct (valid_name_chars _ _ Hv Hin) as (? & ? & ? & ?). Qed.

Lemma valid_name_not_tmp n : is_valid_managed_filename n = true → ¬ is_tmp n.
Proof.
  intros (a & b & mid & -> & _)%valid_name_shape [m Hm].
  assert (last (a :: b :: "-"%char :: mid ++ ".ini") = last (m ++ ".tmp")) as Hl by by rewrite Hm.
  rewrite last_app in Hl. rewrite !app_comm_cons, last_app in Hl. done.
Qed.

Lemma never_not_tmp n : is_never_sync_file n = true → ¬ is_tmp n.
Proof.
  unfold is_never_sync_file. intros Hn [m ->].
  assert (∀ s, last s = Some "i"%char → beqb (m ++ ".tmp") s = false) as Hf.
  { intros s Hs. apply beqb_ne. intros <-. by rewrite last_app in Hs. }
  by rewrite !Hf in Hn.
Qed.

Lemma rfind_char_app c s t : c ∉ t → rfind_char c (s ++ c :: t) = Some (length s).
Proof.
  intros Ht. assert (rfind_char c t = None) as Hn.
  { induction t as [|d t IH]; [done|]. apply not_elem_of_cons in Ht as [Hd Ht]. cbn [rfind_char]. rewrite IH by done.
    by rewrite (proj2 (ceqb_ne d c)). }
  induction s as [|d s IH]; cbn [app rfind_char]; [rewrite Hn; by rewrite ceqb_refl|]. by rewrite IH.
Qed.

Lemma valid_name_ext n : is_valid_managed_filename n = true → extension n = ".ini".
Proof.
  intros (a & b & mid & -> & Ha & _)%valid_name_shape. unfold extension.
  assert (∀ s, head s = Some "."%char → beqb (a :: b :: "-"%char :: mid ++ ".ini") s = false) as Hf.
  { intros s Hs. apply beqb_ne. intros <-. cbn in Hs. injection Hs as ->. by vm_compute in Ha. }
  rewrite !Hf by done. cbn [orb].
  change (a :: b :: "-"%char :: mid ++ ".ini") with ((a :: b :: "-"%char :: mid) ++ "."%char :: ("ini" : bytes)).
  rewrite rfind_char_app by by apply contains_char_false. cbn [length]. by apply drop_app_length'.
Qed.

(** ** The texts of a state *)

Lemma map_lines_insert k v m : LF ∉ k → LF ∉ v → map_lines m → map_lines (sm_insert k v m).
Proof.
  intros Hk Hv Hm. unfold map_lines in *. rewrite Forall_forall in *. intros [k' v'] [[= -> ->]|Hin]%insert_elem; [done|]. by apply (Hm _ Hin).
Qed.

Lemma write_files_lines io fs files fl :
  Forall (λ kv : bytes * bytes, LF ∉ kv.1) files → map_lines fl → map_lines (write_files io fs files fl).2.
Proof.
  intros Hf. revert fs fl. induction Hf as [|[n c] files Hn _ IH]; intros fs fl Hfl; [done|]. cbn [write_files].
  destruct (write_managed_file_if_changed _ _ _ _) as [fs1 []]; apply IH; [done|]. apply map_lines_insert; [done| |done].
  by apply contains_char_false.
Qed.

Lemma remove_stale_lines io remote fs names fl : Forall (λ n : bytes, LF ∉ n) names → map_lines fl → map_lines (remove_stale io remote fs names fl).2.
Proof.
  intros Hf. revert fs fl. induction Hf as [|n names Hn _ IH]; intros fs fl Hfl; [done|]. cbn [remove_stale].
  destruct (sm_has n remote); [by apply IH|]. destruct (remove_file _ _ _) as [fs1 []]; apply IH; [done|].
  apply map_lines_insert; [done| |done]. by apply contains_char_false.
Qed.

Lemma validate_reason_lf n c reason : validate_managed_file n c = Some reason → LF ∉ reason.
Proof. unfold validate_managed_file. repeat case_if; intros [= <-]; by apply contains_char_false. Qed.

Lemma rejected_lines remote : Forall (λ kv : bytes * bytes, LF ∉ kv.1) remote → map_lines (rejected_files remote).
Proof.
  intros Hr. unfold rejected_files. assert (map_lines []) as Hm by constructor. revert Hm. generalize ([] : files_map) as fl.
  induction Hr as [|[n c] remote Hn _ IH]; intros fl Hfl; [done|]. cbn [foldl fst snd]. apply IH.
  destruct (validate_managed_file n c) as [reason|] eqn:E; [|done]. apply map_lines_insert; [done| |done]. by eapply validate_reason_lf.
Qed.

Lemma strip_cr_prefix s : ∃ t, s = strip_cr s ++ t.
Proof. unfold strip_cr. case_if; [eexists; symmetry; apply take_drop|exists []; by rewrite app_nil_r]. Qed.

Lemma strip_cr_elem c s : c ∈ strip_cr s → c ∈ s.
Proof. destruct (strip_cr_prefix s) as [t Ht]. rewrite Ht at 2. rewrite elem_of_app. tauto. Qed.

(** Names and values that come from a line hold no line feed; a name no separator
    either. *)
Definition loaded (st : State) : Prop :=
  state_text_lines st ∧ Forall (λ kv : bytes * bytes, "="%char ∉ kv.1) (managed_files st).

Lemma insert_forall {V} (P : bytes * V → Prop) k v m : P (k, v) → Forall P m → Forall P (sm_insert k v m).
Proof. rewrite !Forall_forall. intros Hkv Hm [k' v'] [[= -> ->]|Hin]%insert_elem; [done|]. by apply Hm. Qed.

Lemma elem_drop {A} n (l : list A) x : x ∈ drop n l → x ∈ l.
Proof. intros Hin. rewrite <- (take_drop n l), elem_of_app. by right. Qed.

Lemma state_set_loaded st k v : LF ∉ k → "="%char ∉ k → LF ∉ v → loaded st → loaded (state_set st k v).
Proof.
  intros Hk He Hv ((Hs & Hm & Hl & Hf) & Hn). unfold state_set.
  assert (∀ i, LF ∉ drop i k) as Hd by (intros i Hin; by apply elem_drop in Hin).
  repeat case_if; [destruct (parse_int64 v)|..]; (split; [split_and!|]); try done; try (by apply map_lines_insert).
  apply insert_forall; [|done]. intros Hin. by apply elem_drop in Hin.
Qed.

Lemma state_line_loaded st l : LF ∉ l → loaded st → loaded (state_line st l).
Proof.
  intros Hl Hst. unfold state_line. assert (LF ∉ strip_cr l) as Hc by (intros Hin; by apply strip_cr_elem in Hin).
  destruct (find_char "=" (strip_cr l)) as [i|] eqn:E; [|done]. destruct (find_char_Some _ _ _ E) as (Ht & Hn & _).
  rewrite Ht in Hc. rewrite elem_of_app, elem_of_cons in Hc. apply state_set_loaded; [..|done]; tauto.
Qed.

Lemma load_state_loaded text : loaded (load_state text).
Proof.
  destruct text as [text|]; [|split; [split_and!; [by apply contains_char_false|constructor..]|constructor]]. unfold load_state.
  assert (Forall (λ l, LF ∉ l) (split_lt LF text)) as Hl.
  { unfold split_lt. case_if; [apply Forall_take|]; apply split_on_pieces. }
  assert (loaded (mkState true 0 "ok" [] [] [])) as Hst by (split; [split_and!; [by apply contains_char_false|constructor..]|constructor]).
  revert Hst. generalize (mkState true 0 "ok" [] [] []) as st. induction Hl as [|l ls Hl _ IH]; intros st Hst; [done|].
  cbn [foldl]. by apply IH, state_line_loaded.
Qed.

(** *** Reading back names and the version, whatever the other texts are *)

Lemma strip_cr_app s c v : strip_cr (s ++ c :: v) = s ++ strip_cr (c :: v).
Proof.
  unfold strip_cr. rewrite last_app. destruct (last (c :: v)) as [d|] eqn:E; [|by apply last_None in E].
  destruct (bool_decide (Some d = Some CR)); [|done]. rewrite length_app. cbn [length]. rewrite take_app_ge by lia. f_equal. f_equal. lia.
Qed.

Lemma strip_cr_cons c v : c ≠ CR → strip_cr (c :: v) = c :: strip_cr v.
Proof.
  intros Hc. destruct v as [|d v]; [|apply (strip_cr_app [c] d v)].
  unfold strip_cr. rewrite bool_decide_eq_false_2 by by intros [= ->]. by rewrite bool_decide_eq_false_2.
Qed.

Lemma state_line_at p st k v : "="%char ∉ p → ∃ k' v', state_line st (p ++ k ++ "="%char :: v) = state_set st (p ++ k') v' ∧ ("="%char ∉ k → k' = k).
Proof.
  intros Hp. unfold state_line. rewrite app_assoc, strip_cr_app, strip_cr_cons by done. rewrite <- app_assoc. rewrite find_char_skip by done.
  destruct (find_char "=" (k ++ "="%char :: strip_cr v)) as [i|] eqn:E.
  - cbn [fmap option_fmap option_map]. exists (take i (k ++ "="%char :: strip_cr v)). eexists. split.
    + f_equal. by rewrite take_app_add.
    + intros Hk. rewrite find_char_app in E by done. injection E as <-. by rewrite take_app_length.
  - exfalso. apply find_char_None in E. apply E. rewrite elem_of_app. right. left.
Qed.

(** The lines of one map: only the field of the map changes, by insertions. *)
Lemma load_prefix_names {A} (get : State → A) p m :
  "="%char ∉ p → (∀ st k v, get (state_set st (p ++ k) v) = get st) →
  ∀ st, get (foldl state_line st (prefixed_lines p m)) = get st.
Proof.
  intros Hp Hget. induction m as [|[k v] m IH]; intros st; [done|]. unfold prefixed_lines in *. cbn [fmap list_fmap foldl fst snd].
  rewrite IH. destruct (state_line_at p st k v Hp) as (k' & v' & Hl & _). change ("=" ++ v) with ("="%char :: v). by rewrite Hl.
Qed.

Lemma load_file_names m st n : Forall (λ kv : bytes * bytes, "="%char ∉ kv.1) m →
  n ∈ (managed_files (foldl state_line st (prefixed_lines "file." m))).*1 → n ∈ m.*1 ∨ n ∈ (managed_files st).*1.
Proof.
  intros Hm. revert st. induction Hm as [|[k v] m Hk _ IH]; intros st; [by right|]. unfold prefixed_lines in *. cbn [fmap list_fmap foldl fst snd].
  intros Hin%IH. destruct (state_line_at "file." st k v) as (k' & v' & Hl & Hk'); [by apply contains_char_false|].
  change ("=" ++ v) with ("="%char :: v) in Hin. rewrite Hl, state_set_file, Hk' in Hin by done. rewrite elem_of_cons.
  destruct Hin as [Hin|Hin]; [auto|]. apply list_elem_of_fmap in Hin as ([n' w] & -> & [[= -> ->]|Hin]%insert_elem); [auto|].
  right. apply list_elem_of_fmap. by exists (n', w).
Qed.

Lemma load_two st0 v s : 0 ≤ v ≤ INT64_MAX →
  ∃ s', foldl state_line st0 [("synced_version=" ++ to_string v); ("status=" ++ s)] =
        mkState (st_exists st0) v s' (managed_files st0) (last_ok st0) (failures st0).
Proof.
  intros Hv. cbn [foldl]. change ("synced_version=" ++ to_string v) with (("synced_version" : bytes) ++ "="%char :: to_string v).
  rewrite state_line_kv; [|by apply contains_char_false|].
  - unfold state_set. rewrite beqb_refl, parse_int64_print by done.
    destruct (state_line_at ("status" : bytes) (mkState (st_exists st0) v (status st0) (managed_files st0) (last_ok st0) (failures st0)) [] s)
      as (k' & v' & Hl & Hk'); [by apply contains_char_false|].
    change ("status=" ++ s) with (("status" : bytes) ++ [] ++ "="%char :: s). rewrite Hl, Hk' by by apply not_elem_of_nil. by exists v'.
  - intros Hl. apply last_Some_elem_of in Hl. by destruct (to_string_chars v _ Hl).
Qed.

Lemma reload st : loaded st → 0 ≤ synced_version st ≤ INT64_MAX →
  synced_version (load_state (Some (serialized st))) = synced_version st ∧
  (∀ n, n ∈ (managed_files (load_state (Some (serialized st)))).*1 → n ∈ (managed_files st).*1).
Proof.
  intros [Ht Hn] Hv. rewrite load_serialized by done. unfold state_lines. rewrite !foldl_app.
  destruct (load_two (mkState true 0 "ok" [] [] []) (synced_version st) (status st) Hv) as [s' ->]. cbn [st_exists managed_files last_ok failures].
  split.
  - rewrite !(load_prefix_names synced_version); done || by apply contains_char_false.
  - intros n. rewrite (load_prefix_names managed_files "failure."), (load_prefix_names managed_files "last_ok.");
      try done; try by apply contains_char_false. intros [Hin|Hin]%load_file_names; [done|by apply not_elem_of_nil in Hin|done].
Qed.

(** ** Applying a version *)

(** Every byte reached the disk. *)
Definition complete (io : sync_io) : Prop := wi_written (io_state io) = None ∧ ∀ n, wi_written (io_write io n) = None.

Lemma write_state_spec w fs st fs' ok : write_state w fs st = (fs', ok) → wi_written w = None →
  entries fs' = entries fs ∧ is_dir fs' = is_dir fs ∧ listable fs' = listable fs ∧
  (ok = true → state_text fs' = Some (serialized st)) ∧
  (state_text fs' = state_text fs ∨ state_text fs' = Some (serialized st)).
Proof.
  unfold write_state, on_disk. intros Hw Hc. case_if; [|case_if; [|case_if]]; injection Hw as <- <-; bool_prop;
    split_and!; cbn [entries is_dir listable state_text]; rewrite ?Hc; auto; done.
Qed.

Lemma valid_files_elem remote n c : (n, c) ∈ valid_files remote → (n, c) ∈ remote ∧ validate_managed_file n c = None.
Proof.
  unfold valid_files. assert (∀ m, (n, c) ∈ foldl (λ m kv, match validate_managed_file kv.1 kv.2 with Some _ => m | None => sm_insert kv.1 kv.2 m end) m remote →
    (n, c) ∈ m ∨ (n, c) ∈ remote ∧ validate_managed_file n c = None) as Hg.
  { induction remote as [|[k v] remote IH]; intros m; cbn [foldl fst snd]; [auto|]. intros [Hin|[Hin Hv]]%IH; [|right; split; [by right|done]].
    destruct (validate_managed_file k v) eqn:E; [auto|]. apply insert_elem in Hin as [[= -> ->]|Hin]; [right; split; [left|done]|auto]. }
  intros [Hin|?]%Hg; [by apply not_elem_of_nil in Hin|done].
Qed.

Lemma rejected_none remote : rejected_files remote = [] → Forall (λ kv, validate_managed_file kv.1 kv.2 = None) remote.
Proof.
  unfold rejected_files. assert (∀ fl, foldl (λ fl kv, match validate_managed_file kv.1 kv.2 with Some reason => sm_insert kv.1 reason fl | None => fl end) fl remote = [] →
    fl = [] ∧ Forall (λ kv, validate_managed_file kv.1 kv.2 = None) remote) as Hg; [|intros Hr; by apply (Hg [])].
  induction remote as [|[k v] remote IH]; intros fl; cbn [foldl fst snd]; [by split; [|constructor]|].
  destruct (validate_managed_file k v) eqn:E; intros [Hf Hr]%IH; [by apply insert_nonempty in Hf|]. split; [done|by constructor].
Qed.

Lemma valid_files_all remote : sm_sorted remote → Forall (λ kv, validate_managed_file kv.1 kv.2 = None) remote → valid_files remote = remote.
Proof.
  intros Hs Hv. rewrite <- (insert_all_id remote Hs) at 2. unfold valid_files, sm_insert_all. generalize ([] : files_map) as m.
  induction Hv as [|[k v] remote Hk _ IH]; intros m; [done|]. cbn [foldl fst snd] in *. rewrite Hk. apply IH.
  by apply sorted_cons in Hs as [_ Hs].
Qed.

Lemma valid_name_plain n : is_valid_managed_filename n = true → plain_name n = true.
Proof.
  intros Hv. pose proof (valid_name_shape _ Hv) as (a & b & mid & -> & Ha & Hb & Hm). unfold plain_name.
  rewrite negb_true_iff, !orb_false_iff. assert (∀ c, c ∈ a :: b :: "-"%char :: mid ++ ".ini" → c ≠ "/"%char ∧ c ≠ NUL) as Hc.
  { intros c Hin. split; [by destruct (valid_name_chars _ _ Hv Hin)|]. rewrite !elem_of_cons, elem_of_app in Hin.
    destruct Hin as [->|[->|[->|[Hin|Hin]]]]; [by intros ->..|done| |].
    - rewrite forallb_forall in Hm. intros ->. apply list_elem_of_In in Hin. by apply Hm in Hin.
    - intros ->. by apply contains_char_spec in Hin. }
  split_and!; try (apply not_true_iff_false; rewrite contains_char_spec; intros Hin; by destruct (Hc _ Hin)); apply beqb_ne; try done.
Qed.

(** A name that a managed file may have. *)
Definition managed_name (n : bytes) : Prop := is_never_sync_file n = false ∧ is_valid_managed_filename n = true.

Lemma validate_name n c : validate_managed_file n c = None → managed_name n.
Proof. unfold validate_managed_file, managed_name. repeat case_if; try done. intros _. bool_prop. done. Qed.

Lemma local_name_managed fs n : n ∈ (collect_local_managed_file_names fs).*1 → managed_name n.
Proof.
  unfold collect_local_managed_file_names. destruct (negb (is_dir fs)); [by intros ?%not_elem_of_nil|].
  set (l := (λ kv : bytes * local_file, (kv.1, ())) <$> _). intros Hin.
  assert (n ∈ l.*1) as Hl.
  { destruct (decide (n ∈ l.*1)) as [|Hn]; [done|]. exfalso. apply sm_has_spec in Hin. unfold sm_has in Hin.
    by rewrite find_insert_all_ne in Hin. }
  subst l. rewrite <- list_fmap_compose in Hl. apply list_elem_of_fmap in Hl as ([k f] & -> & Hk). cbn.
  apply list_elem_of_filter in Hk as [Hv Hk]. unfold listed_files in Hk. destruct (negb (listable fs)); [by apply not_elem_of_nil in Hk|].
  apply list_elem_of_filter in Hk as [Hk _]. cbn [fst snd] in *. split; [|done]. apply andb_true_iff in Hk as [_ Hk]. by apply negb_true_iff.
Qed.

(** The names an application may remove. *)
Definition local_names (fs : LocalFs) (previous : State) : list bytes :=
  (sm_insert_all ((λ kv, (kv.1, ())) <$> managed_files previous) (collect_local_managed_file_names fs)).*1.

Lemma local_names_spec fs previous n : n ∈ local_names fs previous ↔ n ∈ (managed_files previous).*1 ∨ n ∈ (collect_local_managed_file_names fs).*1.
Proof.
  unfold local_names. generalize (collect_local_managed_file_names fs) as m. unfold sm_insert_all.
  induction (managed_files previous) as [|[k v] l IH]; intros m; cbn [fmap list_fmap foldl fst snd].
  { rewrite elem_of_nil. tauto. }
  rewrite IH, elem_of_cons, <- !sm_has_spec. unfold sm_has at 2. rewrite sm_find_insert_case. destruct (beqb k n) eqn:E.
  - apply beqb_eq in E as ->. rewrite bool_decide_eq_true_2 by done. tauto.
  - apply beqb_ne in E. unfold sm_has. naive_solver.
Qed.

Definition partial_state (previous : State) (fl : files_map) : State :=
  mkState (st_exists previous) (synced_version previous) "partial" (managed_files previous) (last_ok previous) fl.

(** What an application may leave in the state file. *)
Definition state_result (fs fs' : LocalFs) (version : Z) (remote : files_map) (previous : State) (detail : bytes) : Prop :=
  state_text fs' = state_text fs ∨
  (∃ fl, map_lines fl ∧ state_text fs' = Some (serialized (partial_state previous fl))) ∨
  (Forall (λ kv, validate_managed_file kv.1 kv.2 = None) remote ∧ state_text fs' = Some (serialized (clean_state version remote detail))).

(** What it may change in the directory. *)
Definition touches_only (fs fs' : LocalFs) (remote : files_map) (names : list bytes) : Prop :=
  sm_sorted (entries fs') ∧ listable fs' = listable fs ∧ (is_dir fs = true → is_dir fs' = true) ∧
  ∀ k, ¬ is_tmp k → k ∉ (valid_files remote).*1 → k ∉ names → same_entry fs fs' k.

Lemma persist_partial_spec io fs fs1 remote names version previous detail fl fs' ok fl' :
  persist_partial io fs1 previous fl = (fs', ok, fl') → complete io → map_lines fl →
  touches_only fs fs1 remote names → state_text fs1 = state_text fs →
  touches_only fs fs' remote names ∧ state_result fs fs' version remote previous detail ∧ ok = false.
Proof.
  unfold persist_partial. fold (partial_state previous fl). intros Hp [Hc _] Hfl (Hs & Hl & Hd & Hk) Hst.
  destruct (write_state _ fs1 _) as [fs2 w] eqn:E. injection Hp as <- <- <-.
  destruct (write_state_spec _ _ _ _ _ E Hc) as (He & Hdir & Hli & _ & Htext).
  unfold touches_only, same_entry in *. rewrite He, Hdir, Hli. split_and!; [done..| |done].
  destruct Htext as [Htext|Htext]; [left; congruence|]. right. left. by exists fl.
Qed.

Lemma files_written io fs remote fs1 fl1 :
  write_files io fs (valid_files remote) (rejected_files remote) = (fs1, fl1) → sm_sorted (entries fs) → sm_sorted remote → complete io →
  keeps_rest fs fs1 ∧ (∀ k, ¬ is_tmp k → k ∉ (valid_files remote).*1 → same_entry fs fs1 k) ∧
  (fl1 = [] → Forall (λ kv, validate_managed_file kv.1 kv.2 = None) remote ∧ ∀ n c, (n, c) ∈ remote → read_file fs1 n = Some c).
Proof.
  intros Hw Hs Hsr [_ Hc]. destruct (write_files_spec _ _ _ _ _ _ Hw Hs) as (Hk & Hsame & Hread). split_and!; [done..|].
  intros ->. assert (rejected_files remote = []) as Hr.
  { destruct (decide (rejected_files remote = [])) as [|Hne]; [done|]. apply (write_files_nonempty io fs (valid_files remote)) in Hne.
    by rewrite Hw in Hne. }
  apply rejected_none in Hr. split; [done|]. rewrite valid_files_all in Hread by done. apply Hread; [done| |].
  - clear -Hsr. induction remote as [|[k v] remote IH]; [constructor|]. apply sorted_cons in Hsr as [Hlt Hsr]. cbn. constructor; [|by apply IH].
    intros ([k' v'] & -> & Hin)%list_elem_of_fmap. apply Hlt in Hin. by rewrite str_ltb_irrefl in Hin.
  - apply Forall_fmap. eapply Forall_impl; [exact Hr|]. intros [k v] Hv%validate_name. split; [|apply Hc]. by apply valid_name_not_tmp, Hv.
Qed.

(** What a successful application achieved. *)
Definition applied_exactly (fs fs' : LocalFs) (remote : files_map) (names : list bytes) : Prop :=
  Forall (λ kv, validate_managed_file kv.1 kv.2 = None) remote ∧
  (∀ n c, (n, c) ∈ remote → read_file fs' n = Some c) ∧
  (∀ n, n ∈ names → n ∉ remote.*1 → sm_find n (entries fs') = None).

(** The names a state records are names of entries. *)
Definition plain_names (st : State) : Prop := Forall (λ n, plain_name n = true) (managed_files st).*1.

Lemma local_names_plain fs previous : plain_names previous → Forall (λ n, plain_name n = true) (local_names fs previous).
Proof.
  unfold plain_names. rewrite !Forall_forall. intros Hp n [Hin|Hin]%local_names_spec; [by apply Hp|].
  apply local_name_managed in Hin as [_ Hin]. by apply valid_name_plain.
Qed.

Lemma apply_spec io fs v remote previous detail fs' ok fl :
  apply_remote_files io fs v remote previous detail = (fs', ok, fl) →
  sm_sorted (entries fs) → sm_sorted remote → complete io → loaded previous → Forall (λ kv : bytes * bytes, LF ∉ kv.1) remote →
  plain_names previous →
  touches_only fs fs' remote (local_names fs previous) ∧ state_result fs fs' v remote previous detail ∧
  (ok = true → detail = [] ∧ applied_exactly fs fs' remote (local_names fs previous) ∧
   state_text fs' = Some (serialized (clean_state v remote []))).
Proof.
  unfold apply_remote_files. fold (local_names fs previous). intros Ha Hs Hsr Hc ((_ & Hm & _) & _) Hlf Hpl.
  assert (touches_only fs fs remote (local_names fs previous)) as Hrefl by by split_and!.
  case_if.
  { destruct (persist_partial_spec _ fs fs remote (local_names fs previous) v _ detail _ _ _ _ Ha Hc) as (? & ? & ->); [|done..|done].
    constructor; [|constructor]. split; by apply contains_char_false. }
  destruct (write_files io fs _ _) as [fs1 fl1] eqn:Ew.
  destruct (files_written _ _ _ _ _ Ew Hs Hsr Hc) as ((Ht & Hli & Hd & Hs1) & Hsame & Hok).
  assert (map_lines fl1) as Hfl1.
  { replace fl1 with (write_files io fs (valid_files remote) (rejected_files remote)).2 by by rewrite Ew. apply write_files_lines.
    - rewrite !Forall_forall in *. intros [n c] [Hin _]%valid_files_elem. by apply (Hlf (n, c)).
    - by apply rejected_lines. }
  case_if.
  { destruct (persist_partial_spec _ fs fs1 remote (local_names fs previous) v _ detail _ _ _ _ Ha Hc) as (? & ? & ->); [done| |done|done].
    split_and!; auto. }
  bool_prop. destruct (Hok Heqb0) as [Hv Hread]. clear Hok Hfl1.
  destruct (remove_stale io remote fs1 _ _) as [fs2 fl2] eqn:Er.
  destruct (remove_stale_spec _ _ _ _ _ _ _ Er (local_names_plain fs previous Hpl) (Hs1 Hs)) as ((Ht2 & Hli2 & Hd2 & Hs2) & Hsame2 & _ & Hdel).
  assert (touches_only fs fs2 remote (local_names fs previous)) as Htouch.
  { split_and!; [by auto|congruence|by auto|]. intros k Hk1 Hk2 Hk3. unfold same_entry in *. rewrite Hsame2 by by left. by apply Hsame. }
  case_if.
  { destruct (persist_partial_spec _ fs fs2 remote (local_names fs previous) v _ detail _ _ _ _ Ha Hc) as (? & ? & ->); [|done|congruence|done].
    replace fl2 with (remove_stale io remote fs1 (local_names fs previous) []).2 by by rewrite Er. apply remove_stale_lines; [|constructor].
    rewrite Forall_forall. intros n [Hin|Hin]%local_names_spec.
    - apply list_elem_of_fmap in Hin as ([n' c] & -> & Hin). unfold map_lines in Hm. rewrite Forall_forall in Hm. by apply (Hm _ Hin).
    - apply local_name_managed in Hin as [_ Hin]. by apply valid_name_line. }
  bool_prop. subst fl1 fl2.
  destruct (write_state _ fs2 _) as [fs3 written] eqn:E.
  destruct (write_state_spec _ _ _ _ _ E (proj1 Hc)) as (He & Hdir & Hl3 & Hw & Htext).
  assert (touches_only fs fs3 remote (local_names fs previous) ∧ state_result fs fs3 v remote previous detail) as [Ht3 Hs3].
  { split; [unfold touches_only, same_entry in *; by rewrite He, Hdir, Hl3|]. destruct Htext as [Htext|Htext]; [left; congruence|].
    right. right. by split. }
  destruct written; cbn [negb] in Ha; [|by injection Ha as <- <- <-]. destruct (beqb detail []) eqn:Edet; injection Ha as <- <- <-; [|done].
  apply beqb_eq in Edet as ->. split_and!; [done..|]. intros _. unfold applied_exactly. split_and!; [done|done| | |by apply Hw].
  - intros n c Hin. unfold read_file. rewrite He. assert (same_entry fs1 fs2 n) as Hsn.
    { apply Hsame2. right. apply sm_has_spec, list_elem_of_fmap. by exists (n, c). }
    unfold same_entry in Hsn. rewrite Hsn. by apply Hread.
  - intros n Hin Hn. rewrite He. apply Hdel; [done..|]. apply not_true_iff_false. by rewrite sm_has_spec.
Qed.

(** ** After an application there is nothing left to do *)

(** Only regular files can be read. *)
Definition reads_regular (fs : LocalFs) : Prop := Forall (λ kv : bytes * local_file, lf_content kv.2 ≠ None → lf_regular kv.2 = true) (entries fs).

Lemma delete_forall {V} (P : bytes * V → Prop) k m : Forall P m → Forall P (sm_delete k m).
Proof. rewrite !Forall_forall. intros Hm kv Hin%delete_elem. by apply Hm. Qed.

Lemma write_files_regular io fs files fl : reads_regular fs → reads_regular (write_files io fs files fl).1.
Proof.
  revert fs fl. induction files as [|[n c] files IH]; intros fs fl Hr; [done|]. cbn [write_files].
  assert (reads_regular (write_managed_file_if_changed (io_write io n) fs n c).1) as H1.
  { unfold write_managed_file_if_changed. repeat case_if; try done; unfold reads_regular; cbn [entries set_entries fst].
    - by apply insert_forall.
    - apply insert_forall; [done|]. by apply delete_forall. }
  destruct (write_managed_file_if_changed _ _ _ _) as [fs1 ok]. by apply IH.
Qed.

Lemma remove_stale_regular io remote fs names fl : reads_regular fs → reads_regular (remove_stale io remote fs names fl).1.
Proof.
  revert fs fl. induction names as [|n names IH]; intros fs fl Hr; [done|]. cbn [remove_stale]. case_if; [by apply IH|].
  assert (reads_regular (remove_file (io_remove io n) (remove_target io n) fs).1) as H1.
  { unfold remove_file. case_if; [done|]. destruct (remove_target io n); [by apply delete_forall|done| |done]. case_if; [constructor|done]. }
  destruct (remove_file _ _ _) as [fs1 ok]. by apply IH.
Qed.

Lemma write_state_entries w fs st : entries (write_state w fs st).1 = entries fs.
Proof. unfold write_state. by repeat case_if. Qed.

Lemma apply_regular io fs v remote previous detail : reads_regular fs → reads_regular (apply_remote_files io fs v remote previous detail).1.1.
Proof.
  intros Hr. unfold apply_remote_files, persist_partial. unfold reads_regular in *.
  assert (∀ fs fl st, entries (let '(fs, _) := write_state (io_state io) fs st in (fs, false, fl : files_map)).1.1 = entries fs) as Hp.
  { intros fs0 fl st. rewrite <- (write_state_entries (io_state io) fs0 st). by destruct (write_state _ _ _). }
  case_if; [by rewrite Hp|]. pose proof (write_files_regular io fs (valid_files remote) (rejected_files remote) Hr) as H1.
  destruct (write_files _ _ _ _) as [fs1 fl1]. case_if; [by rewrite Hp|].
  match goal with |- context [remove_stale io remote fs1 ?names ?fl] => pose proof (remove_stale_regular io remote fs1 names fl H1) as H2 end.
  destruct (remove_stale _ _ _ _ _) as [fs2 fl2]. case_if; [by rewrite Hp|].
  pose proof (write_state_entries (io_state io) fs2 (clean_state v remote detail)) as H3.
  destruct (write_state _ _ _) as [fs3 w]. cbn [fst] in *. unfold reads_regular in *. repeat case_if; cbn [fst]; by rewrite H3.
Qed.

Lemma tmp_ext k : is_tmp k → extension k ≠ ".ini".
Proof.
  intros [n ->]. unfold extension. case_if; [done|]. change (n ++ ".tmp") with (n ++ "."%char :: ("tmp" : bytes)).
  rewrite rfind_char_app by by apply contains_char_false. destruct n as [|c n]; [done|]. cbn [length].
  change (S (length n)) with (length (c :: n)). by rewrite drop_app_length.
Qed.

(** The collection of a directory whose listed files are all valid. *)
Lemma collect_all fs (get : bytes → option bytes) :
  is_dir fs = true → (∀ k f, (k, f) ∈ listed_files fs → lf_content f = get k ∧ ∃ c, get k = Some c ∧ validate_managed_file k c = None) →
  collect_local_managed_files fs = (sm_insert_all ((λ kv, (kv.1, default [] (get kv.1))) <$> listed_files fs) [], []).
Proof.
  intros Hd Hall. unfold collect_local_managed_files. rewrite Hd. cbn [negb]. unfold sm_insert_all. generalize ([] : files_map) as m.
  induction (listed_files fs) as [|[k f] l IH]; intros m; [done|]. cbn [fmap list_fmap foldl fst snd].
  destruct (Hall k f) as (Hf & c & Hc & Hv); [left|]. rewrite Hf, Hc, Hv. cbn [from_option id]. apply IH. intros k' f' Hin. apply Hall. by right.
Qed.

Lemma filter_sorted {V} (P : bytes * V → Prop) `{∀ kv, base.Decision (P kv)} (m : smap V) : sm_sorted m → sm_sorted (filter P (m : list (bytes * V))).
Proof.
  induction m as [|[k v] m IH]; intros Hs; [constructor|]. apply sorted_cons in Hs as [Hlt Hs]. rewrite filter_cons. case_decide; [|by apply IH].
  apply sorted_cons. split; [|by apply IH]. intros k' v' Hin. apply list_elem_of_filter in Hin as [_ Hin]. by eapply Hlt.
Qed.

Lemma collect_is fs remote :
  is_dir fs = true → sm_sorted (entries fs) → sm_sorted remote → Forall (λ kv, validate_managed_file kv.1 kv.2 = None) remote →
  (∀ k f, (k, f) ∈ listed_files fs → is_Some (sm_find k remote) ∧ lf_content f = sm_find k remote) →
  (∀ k c, sm_find k remote = Some c → ∃ f, (k, f) ∈ listed_files fs) →
  collect_local_managed_files fs = (remote, []).
Proof.
  intros Hd Hs Hsr Hv Hin Hout. rewrite (collect_all fs (λ k, sm_find k remote)); [|done|].
  - f_equal. assert (sm_sorted (listed_files fs)) as Hl.
    { unfold listed_files. case_if; [constructor|by apply filter_sorted]. }
    pose proof (sorted_fmap (λ k _, default [] (sm_find k remote)) _ Hl) as Hl'. cbn in Hl'.
    rewrite insert_all_id by done. apply sm_ext; [done..|]. intros k.
    rewrite (find_fmap (λ k _, default [] (sm_find k remote))). destruct (sm_find k (listed_files fs)) as [f|] eqn:E.
    + apply sm_find_elem in E; [|done]. destruct (Hin _ _ E) as [[c Hc] _]. cbn. by rewrite Hc.
    + destruct (sm_find k remote) as [c|] eqn:Ek; [|done]. destruct (Hout _ _ Ek) as [f Hf]. apply sm_find_elem in Hf; [congruence|done].
  - intros k f Hkf. destruct (Hin _ _ Hkf) as [[c Hc] Hf]. split; [done|]. exists c. split; [done|]. rewrite Forall_forall in Hv.
    apply (Hv (k, c)). by apply sm_find_elem.
Qed.

(** A directory without a stray file: whatever is listed has a managed name. *)
Definition tidy (fs : LocalFs) : Prop :=
  sm_sorted (entries fs) ∧ is_dir fs = true ∧ listable fs = true ∧ reads_regular fs ∧
  (∀ k f, (k, f) ∈ listed_files fs → is_valid_managed_filename k = true).

Lemma listed_spec fs k f : listable fs = true →
  (k, f) ∈ listed_files fs ↔ (k, f) ∈ entries fs ∧ lf_regular f = true ∧ extension k = ".ini" ∧ is_never_sync_file k = false.
Proof.
  intros Hl. unfold listed_files. rewrite Hl. cbn [negb]. rewrite list_elem_of_filter. cbn [fst snd].
  rewrite !andb_true_iff, negb_true_iff, beqb_eq. tauto.
Qed.

Lemma listed_in_names fs k f : tidy fs → (k, f) ∈ listed_files fs → k ∈ (collect_local_managed_file_names fs).*1.
Proof.
  intros (Hs & Hd & Hl & _ & Hv) Hin. unfold collect_local_managed_file_names. rewrite Hd. cbn [negb].
  assert (sm_sorted (listed_files fs)) as Hsl by (unfold listed_files; rewrite Hl; by apply filter_sorted).
  rewrite insert_all_id.
  - apply list_elem_of_fmap. exists (k, ()). split; [done|]. apply list_elem_of_fmap. exists (k, f). split; [done|].
    apply list_elem_of_filter. split; [by eapply Hv|done].
  - by apply (sorted_fmap (λ _ _, ())), filter_sorted.
Qed.

Lemma collect_after_apply fs fs' remote previous :
  tidy fs → sm_sorted remote → reads_regular fs' →
  touches_only fs fs' remote (local_names fs previous) → applied_exactly fs fs' remote (local_names fs previous) →
  collect_local_managed_files fs' = (remote, []).
Proof.
  intros Ht Hsr Hr (Hs' & Hl & Hd & Hsame) (Hv & Hread & Hgone). pose proof Ht as (Hs & Hdir & Hli & _ & _).
  assert (listable fs' = true) as Hli' by congruence.
  apply collect_is; [by apply Hd|done..| |].
  - intros k f Hkf. pose proof Hkf as (Hin & Hreg & He & Hn)%listed_spec; [|done]. apply sm_find_elem in Hin; [|done].
    destruct (sm_find k remote) as [c|] eqn:Ek.
    + split; [done|]. apply sm_find_elem in Ek; [|done]. apply Hread in Ek. unfold read_file in Ek. by rewrite Hin in Ek.
    + exfalso. assert (k ∉ remote.*1) as Hnr.
      { intros Hk. apply sm_has_spec in Hk. unfold sm_has in Hk. by rewrite Ek in Hk. }
      assert (k ∉ local_names fs previous) as Hnl.
      { intros Hk. by rewrite Hgone in Hin. }
      assert (same_entry fs fs' k) as Hsk.
      { apply Hsame; [intros Htmp; by apply tmp_ext in Htmp|by rewrite valid_files_all|done]. }
      apply Hnl, local_names_spec. right. apply (listed_in_names _ k f); [done|]. apply listed_spec; [done|].
      unfold same_entry in Hsk. rewrite Hsk in Hin. by apply sm_find_elem in Hin.
  - intros k c Hk. apply sm_find_elem in Hk; [|done]. pose proof (Hread _ _ Hk) as Hf. unfold read_file in Hf.
    destruct (sm_find k (entries fs')) as [f|] eqn:Ef; [|done]. exists f. apply listed_spec; [done|]. apply sm_find_elem in Ef; [|done].
    rewrite Forall_forall in Hv. destruct (validate_name k c) as [Hn Hva]; [by apply (Hv (k, c))|]. cbn in Hf.
    split_and!; [done| |by apply valid_name_ext|done]. unfold reads_regular in Hr. rewrite Forall_forall in Hr. apply (Hr _ Ef). cbn. by rewrite Hf.
Qed.

Lemma hex_bytes_elem d c : c ∈ hex_bytes d → ∃ v, 0 ≤ v < 16 ∧ c = hex_nibble v.
Proof.
  unfold hex_bytes. induction d as [|x d IH]; [by intros ?%not_elem_of_nil|]. cbn [fmap list_fmap concat app]. pose proof (code_range x) as Hx.
  change 0x0f with (Z.ones 4). rewrite !elem_of_cons, Z.shiftr_div_pow2, Z.land_ones by lia.
  intros [->|[->|Hin]]; [..|by apply IH]; (eexists; split; [|reflexivity]); Z.to_euclidean_division_equations; lia.
Qed.

Lemma content_hash_line s : line_value (content_hash s).
Proof.
  assert (∀ c, c ∈ content_hash s → c ≠ LF ∧ c ≠ CR) as Hc.
  { intros c (v & Hv & ->)%hex_bytes_elem. pose proof (hex_nibble_value v Hv) as Hh. split; intros E; rewrite E in Hh; vm_compute in Hh; lia. }
  split; [intros Hin; by apply Hc in Hin as []|]. intros Hl%last_Some_elem_of. by apply Hc in Hl as [].
Qed.

Lemma hashes_clean remote : sm_sorted remote → Forall (λ kv, validate_managed_file kv.1 kv.2 = None) remote → clean_map (hashes remote).
Proof.
  intros Hs Hv. split; [by apply (sorted_fmap (λ _, content_hash))|]. unfold hashes. apply Forall_fmap. eapply Forall_impl; [exact Hv|].
  intros [k c] [_ Hk]%validate_name. split; [by apply valid_name_line|apply content_hash_line].
Qed.

Lemma clean_state_clean v remote : 0 ≤ v ≤ INT64_MAX → sm_sorted remote → Forall (λ kv, validate_managed_file kv.1 kv.2 = None) remote →
  clean (clean_state v remote []).
Proof.
  intros Hv Hs Hr. unfold clean_state. rewrite beqb_refl. unfold clean. cbn [st_exists synced_version status managed_files last_ok failures].
  split; [done|]. split; [done|]. split; [by split; [apply contains_char_false|]|]. split; [by apply hashes_clean|]. split; [by apply hashes_clean|].
  split; constructor.
Qed.

Section settle.
Context `{OpenSsl} (seed_script : bytes) (history : ConfigHistoryConfig) (machine : bytes).

(** The reply of GET for a version. *)
Definition version_reply (reply : RedisReplyData) (version : Z) : Prop := read_version_reply reply = VValue version ∧ 0 ≤ version ≤ INT64_MAX.

Lemma load_clean v remote : 0 ≤ v ≤ INT64_MAX → sm_sorted remote → Forall (λ kv, validate_managed_file kv.1 kv.2 = None) remote →
  load_state (Some (serialized (clean_state v remote []))) = clean_state v remote [].
Proof. intros. by apply state_read_back, clean_state_clean. Qed.

(** C33: A tick that applied a version leaves nothing to do.  Suppose that config.d
    can be listed, that only its regular files can be read, that it holds no stray
    ini file (one whose name is neither managed
    nor on the list of files that are never synchronized; such a file makes every
    collection fail, see [stray_never_settles]), that every write of the tick
    reached the disk whole (a short write is not noticed, see
    [short_write_reported]), and that the names of the version hold no line feed
    and those the state file recorded before are names of entries.  Then config.d
    holds exactly the files of the version (every file it lists with its content,
    and no other managed file), the state file records the version, and the next
    tick that is told the same version sends its heartbeat without reading any file
    from Redis. *)
Theorem sync_settles io fs version files reply payload fs' io' reply' :
  tidy fs → complete (ti_sync io) → sm_sorted files → Forall (λ kv : bytes * bytes, LF ∉ kv.1) files →
  plain_names (load_state (state_text fs)) →
  sync_step seed_script history machine io fs (AwaitSecond version files []) reply = (fs', AwaitBeat payload true) →
  version_reply reply' version →
  collect_local_managed_files fs' = (files, []) ∧
  load_state (state_text fs') = clean_state version files [] ∧
  sync_step seed_script history machine io' fs' AwaitVersion reply' = (fs', beat io' version "ok" [] true).
Proof.
  intros Ht Hc Hsf Hlf Hsl Hstep [Hr' Hv]. cbn [sync_step] in *. unfold second_read in Hstep.
  destruct (read_version_reply reply) as [after| | |]; try by injection Hstep. case_if; [by injection Hstep|].
  destruct (apply_remote_files _ fs version files _ []) as [[fs1 ok] fl] eqn:Ea. destruct ok; [|by injection Hstep].
  injection Hstep as <- _. pose proof (load_state_loaded (state_text fs)) as Hld.
  destruct (apply_spec _ _ _ _ _ _ _ _ _ Ea (proj1 Ht) Hsf Hc Hld Hlf Hsl) as (Htouch & _ & Hok).
  destruct (Hok eq_refl) as (_ & Hex & Htext).
  assert (reads_regular fs1) as Hreg.
  { pose proof (apply_regular (ti_sync io) fs version files (load_state (state_text fs)) [] (proj1 (proj2 (proj2 (proj2 Ht))))) as Hreg.
    by rewrite Ea in Hreg. }
  pose proof (collect_after_apply _ _ _ _ Ht Hsf Hreg Htouch Hex) as Hcol. split; [done|].
  assert (load_state (state_text fs1) = clean_state version files []) as Hload.
  { rewrite Htext. apply load_clean; [done..|apply Hex]. }
  split; [done|]. unfold version_read. rewrite Hr', Hload. cbn [clean_state synced_version status failures].
  rewrite Z.ltb_irrefl, Z.eqb_refl. unfold local_matches. rewrite Hcol. cbn [clean_state status managed_files last_ok].
  rewrite !beqb_refl. by rewrite !bool_decide_eq_true_2.
Qed.

(** ** What a tick can change *)

(** A reply whose integer is 64 bits wide and whose names are one line each. *)
Definition reply_fits (reply : RedisReplyData) : Prop :=
  rd_integer reply ≤ INT64_MAX ∧ Forall (λ kv : bytes * bytes, LF ∉ kv.1) (pair_elements (rd_elements reply)).

Lemma parse_int64_max s v : parse_int64 s = Some v → v ≤ INT64_MAX.
Proof.
  unfold parse_int64. destruct s as [|c s]; [done|]. destruct (from_chars_int64 _) as [[w n]|] eqn:E; [|done].
  case_bool_decide; [|done]. intros [= <-]. unfold from_chars_int64 in E.
  destruct (if ceqb c "-" then _ else _) as [neg t]. destruct (scan_digits 0 0 t) as [u k].
  case_bool_decide; [done|]. destruct (_ || _) eqn:Er; [done|]. injection E as <- _. bool_prop. lia.
Qed.

Lemma read_version_range reply v : reply_fits reply → read_version_reply reply = VValue v → 0 ≤ v ≤ INT64_MAX.
Proof.
  intros [Hi _]. unfold read_version_reply. repeat case_if; try done; [intros [= <-]; lia|].
  destruct (parse_int64 (rd_str reply)) as [w|] eqn:E; [|done]. case_if; [done|]. intros [= <-]. apply parse_int64_max in E. lia.
Qed.

(** The files of a reply: in order, with names of one line. *)
Definition fetched (files : files_map) : Prop := sm_sorted files ∧ Forall (λ kv : bytes * bytes, LF ∉ kv.1) files.

Lemma insert_all_forall {V} (P : bytes * V → Prop) l m : Forall P l → Forall P m → Forall P (sm_insert_all l m).
Proof.
  intros Hl. revert m. unfold sm_insert_all. induction Hl as [|[k v] l Hk _ IH]; intros m Hm; [done|]. cbn [foldl]. by apply IH, insert_forall.
Qed.

Lemma parse_hgetall_fetched reply files : reply_fits reply → parse_hgetall reply = Some files → fetched files.
Proof.
  intros [_ Hn]. unfold parse_hgetall. repeat case_if; [|done|]; intros [= <-]; [split; constructor|].
  split; [by apply insert_all_sorted; constructor|]. by apply insert_all_forall; [|constructor].
Qed.

Abbreviation stored fs := (load_state (state_text fs)).

Definition version_ok (fs : LocalFs) (v : Z) : Prop := synced_version (stored fs) ≤ v ≤ INT64_MAX.

Definition pc_inv (fs : LocalFs) (pc : sync_pc) : Prop :=
  match pc with
  | AwaitSnapshot v | AwaitMirror v _ => version_ok fs v
  | AwaitMeta v files detail | AwaitSecond v files detail => version_ok fs v ∧ fetched files ∧ LF ∉ detail
  | AwaitSeed seeded _ => ∃ files, seeded = seeded_state files ∧ sm_sorted files ∧ Forall (λ kv, validate_managed_file kv.1 kv.2 = None) files
  | _ => True
  end.

(** [K] holds the names that may be touched. *)
Definition tick_inv (K : bytes → Prop) (fs : LocalFs) : Prop :=
  sm_sorted (entries fs) ∧ 0 ≤ synced_version (stored fs) ≤ INT64_MAX ∧ ∀ n, n ∈ (managed_files (stored fs)).*1 → K n.

(** Managed names are among them, and all of them are names of entries. *)
Definition names_ok (K : bytes → Prop) : Prop := (∀ n, managed_name n → K n) ∧ ∀ n, K n → plain_name n = true.

Definition touched_in (K : bytes → Prop) (fs fs' : LocalFs) : Prop := ∀ k, ¬ is_tmp k → ¬ K k → same_entry fs fs' k.

Lemma state_kept K fs fs' : tick_inv K fs → sm_sorted (entries fs') → state_text fs' = state_text fs →
  tick_inv K fs' ∧ synced_version (stored fs) ≤ synced_version (stored fs').
Proof. intros (Hs & Hv & Hn) Hs' Ht. unfold tick_inv. rewrite Ht. split; [by split|lia]. Qed.

Lemma state_replaced K fs fs' st : tick_inv K fs → sm_sorted (entries fs') → state_text fs' = Some (serialized st) → loaded st →
  0 ≤ synced_version st ≤ INT64_MAX → (∀ n, n ∈ (managed_files st).*1 → K n) →
  tick_inv K fs' ∧ synced_version (stored fs') = synced_version st.
Proof.
  intros (Hs & _ & _) Hs' Ht Hl Hv Hn. unfold tick_inv. rewrite Ht. destruct (reload st Hl Hv) as [Hr Hm]. split; [|done].
  rewrite Hr. split; [done|]. split; [done|]. intros n Hin. by apply Hn, Hm.
Qed.

Lemma record_failure_inv K io fs v detail fs' pc' :
  record_history_failure io fs v detail = (fs', pc') → complete (ti_sync io) → LF ∉ detail → tick_inv K fs →
  tick_inv K fs' ∧ touched_in K fs fs' ∧ synced_version (stored fs) ≤ synced_version (stored fs') ∧ ∃ payload, pc' = AwaitBeat payload false.
Proof.
  unfold record_history_failure. intros Hr [Hc _] Hd Hi. destruct (write_state _ fs _) as [fs1 w] eqn:E. injection Hr as <- <-.
  destruct (write_state_spec _ _ _ _ _ E Hc) as (He & _ & _ & _ & Ht).
  assert (touched_in K fs fs1) as Htouch by (intros k _ _; unfold same_entry; by rewrite He).
  assert (sm_sorted (entries fs1)) as Hs by (rewrite He; apply Hi).
  pose proof (load_state_loaded (state_text fs)) as ((Hst & Hm & Hl & Hf) & Hn).
  destruct Ht as [Ht|Ht]; [destruct (state_kept K fs fs1) as [H1 H2]; [done..|]; split_and!; eauto|].
  destruct (state_replaced K _ _ _ Hi Hs Ht) as [H1 H2]; [|apply Hi|apply Hi|].
  - split; [split_and!; [by apply contains_char_false|done|done|]|done]. apply map_lines_insert; [by apply contains_char_false|done..].
  - split_and!; [done..| |by eexists]. rewrite H2. cbn [synced_version]. lia.
Qed.

Lemma hashes_names files : (hashes files).*1 = files.*1.
Proof. unfold hashes. by rewrite <- list_fmap_compose. Qed.

Lemma valid_names_managed files n : Forall (λ kv, validate_managed_file kv.1 kv.2 = None) files → n ∈ files.*1 → managed_name n.
Proof. rewrite Forall_forall. intros Hv ([k c] & -> & Hin)%list_elem_of_fmap. by apply (validate_name k c), (Hv (k, c)). Qed.

Lemma loaded_hashes e v status files fl : Forall (λ kv, validate_managed_file kv.1 kv.2 = None) files → LF ∉ status → map_lines fl →
  loaded (mkState e v status (hashes files) (hashes files) fl).
Proof.
  intros Hv Hs Hf. assert (map_lines (hashes files) ∧ Forall (λ kv : bytes * bytes, "="%char ∉ kv.1) (hashes files)) as [Hm Hn].
  { split; unfold map_lines, hashes; apply Forall_fmap; (eapply Forall_impl; [exact Hv|]); intros [k c] [_ Hk%valid_name_line]%validate_name;
      unfold compose; cbn [fst snd]; [|apply Hk]. split; [apply Hk|apply content_hash_line]. }
  by split.
Qed.

Lemma second_read_inv K io fs v files detail reply fs' pc' :
  names_ok K → second_read io fs v files detail reply = (fs', pc') → complete (ti_sync io) →
  tick_inv K fs → pc_inv fs (AwaitSecond v files detail) →
  tick_inv K fs' ∧ touched_in K fs fs' ∧ synced_version (stored fs) ≤ synced_version (stored fs') ∧
  match pc' with AwaitBeat _ _ | Finished _ => True | _ => False end.
Proof.
  intros [HK HP] Hsec Hc Hi ([Hle Hmax] & [Hsf Hlf] & Hd). unfold second_read in Hsec.
  assert (tick_inv K fs ∧ touched_in K fs fs ∧ synced_version (stored fs) ≤ synced_version (stored fs)) as Hrefl by (split_and!; done || lia).
  destruct (read_version_reply reply) as [after| | |]; try (injection Hsec as <- <-; naive_solver). case_if; [injection Hsec as <- <-; naive_solver|].
  destruct (apply_remote_files _ fs v files _ detail) as [[fs1 ok] fl] eqn:Ea. injection Hsec as <- <-.
  pose proof Hi as (Hs & Hv & Hn). pose proof (load_state_loaded (state_text fs)) as Hld.
  assert (plain_names (stored fs)) as Hpl by (apply Forall_forall; intros n Hin; by apply HP, Hn).
  destruct (apply_spec _ _ _ _ _ _ _ _ _ Ea Hs Hsf Hc Hld Hlf Hpl) as ((Hs1 & _ & _ & Hsame) & Hres & _).
  assert (touched_in K fs fs1) as Htouch.
  { intros k Hk Hnk. apply Hsame; [done| |].
    - intros ([n c] & -> & [_ Hin]%valid_files_elem)%list_elem_of_fmap. by eapply Hnk, HK, validate_name.
    - intros [Hin|Hin]%local_names_spec; [by apply Hnk, Hn|by eapply Hnk, HK, local_name_managed]. }
  assert (tick_inv K fs1 ∧ synced_version (stored fs) ≤ synced_version (stored fs1)) as [H1 H2]; [|split_and!; [done..|by destruct ok]].
  destruct Hres as [Ht|[(fl' & Hfl & Ht)|[Hvalid Ht]]]; [by apply state_kept|..].
  - destruct (state_replaced K _ _ _ Hi Hs1 Ht) as [H1 H2]; [|done|done|split; [done|rewrite H2; cbn [synced_version partial_state]; lia]].
    destruct Hld as ((_ & ? & ? & _) & ?). split; [split_and!; [by apply contains_char_false|done..]|done].
  - destruct (state_replaced K _ _ _ Hi Hs1 Ht) as [H1 H2]; [|cbn [clean_state synced_version]; lia| |].
    + apply loaded_hashes; [done|by case_if; apply contains_char_false|]. case_if; constructor; [|constructor].
      split; [by apply contains_char_false|done].
    + intros n Hin. cbn [clean_state managed_files] in Hin. rewrite hashes_names in Hin. by eapply HK, valid_names_managed.
    + split; [done|]. rewrite H2. cbn [clean_state synced_version]. lia.
Qed.

Lemma collected_valid fs files errors : collect_local_managed_files fs = (files, errors) →
  sm_sorted files ∧ Forall (λ kv, validate_managed_file kv.1 kv.2 = None) files.
Proof.
  unfold collect_local_managed_files. case_if; [intros [= <- <-]; split; constructor|].
  set (P := λ m : files_map, sm_sorted m ∧ Forall (λ kv, validate_managed_file kv.1 kv.2 = None) m).
  match goal with |- foldl ?f _ ?l = _ → _ => assert (∀ acc, P acc.1 → P (foldl f acc l).1) as Hg end.
  { induction (listed_files fs) as [|[k f] l IH]; intros [m errs] [Hs Hv]; cbn [foldl fst snd]; [done|]. apply IH.
    destruct (lf_content f) as [c|]; [|done]. destruct (validate_managed_file k c) eqn:E; [done|].
    split; [by apply sm_insert_sorted|by apply insert_forall]. }
  intros E. specialize (Hg ([], [])). rewrite E in Hg. apply Hg. split; constructor.
Qed.

Lemma seed_eligible_pc io fs : pc_inv fs (seed_if_eligible seed_script history machine io fs).
Proof.
  unfold seed_if_eligible. case_if; [done|]. destruct (collect_local_managed_files fs) as [files errors] eqn:E. case_if; [done|].
  destruct (validate_snapshot files history false); [done|]. case_if; [done|]. apply collected_valid in E as [Hs Hv]. by exists files.
Qed.

Lemma seed_done_inv K io fs seeded args reply fs' pc' :
  names_ok K → seed_done io fs seeded reply = (fs', pc') → complete (ti_sync io) → tick_inv K fs → pc_inv fs (AwaitSeed seeded args) →
  tick_inv K fs' ∧ touched_in K fs fs' ∧ match pc' with AwaitBeat _ _ | Finished _ => True | _ => False end.
Proof.
  intros [HK _] Hd [Hc _] Hi (files & -> & Hs & Hv). unfold seed_done in Hd.
  assert (tick_inv K fs ∧ touched_in K fs fs) as Hrefl by by split. case_if; [injection Hd as <- <-; naive_solver|].
  destruct (script_integer reply) as [[|[]|]|]; try (injection Hd as <- <-; naive_solver).
  destruct (write_state _ fs _) as [fs1 w] eqn:E. destruct (write_state_spec _ _ _ _ _ E Hc) as (He & _ & _ & _ & Ht).
  assert (sm_sorted (entries fs1)) as Hs1 by (rewrite He; apply Hi).
  assert (tick_inv K fs1 ∧ touched_in K fs fs1) as [H1 H2]; [|by destruct w; injection Hd as <- <-].
  split; [|intros k _ _; unfold same_entry; by rewrite He].
  destruct Ht as [Ht|Ht]; [by apply (state_kept K fs)|]. apply (state_replaced K _ _ _ Hi Hs1 Ht).
  - apply loaded_hashes; [done|by apply contains_char_false|constructor].
  - cbn. unfold INT64_MAX. lia.
  - intros n Hin. cbn [seeded_state managed_files] in Hin. rewrite hashes_names in Hin. by eapply HK, valid_names_managed.
Qed.

(** A step that leaves the directory alone. *)
Definition step_inv (K : bytes → Prop) (fs fs' : LocalFs) (pc pc' : sync_pc) (reply : RedisReplyData) : Prop :=
  tick_inv K fs' ∧ touched_in K fs fs' ∧ pc_inv fs' pc' ∧
  (synced_version (stored fs) ≤ synced_version (stored fs') ∨ ∃ seeded args, pc = AwaitSeed seeded args) ∧
  (∀ seeded args, pc' = AwaitSeed seeded args → pc = AwaitVersion ∧ read_version_reply reply = VMissing).

Lemma tick_idle K fs pc pc' reply : tick_inv K fs → pc_inv fs pc' →
  (∀ seeded args, pc' = AwaitSeed seeded args → pc = AwaitVersion ∧ read_version_reply reply = VMissing) → step_inv K fs fs pc pc' reply.
Proof. intros. split; [done|]. split; [done|]. split; [done|]. split; [left; lia|done]. Qed.

Lemma step_failed K io fs v detail fs' pc pc' reply :
  record_history_failure io fs v detail = (fs', pc') → complete (ti_sync io) → LF ∉ detail → tick_inv K fs → step_inv K fs fs' pc pc' reply.
Proof.
  intros Hr Hc Hd Hi. destruct (record_failure_inv K _ _ _ _ _ _ Hr Hc Hd Hi) as (? & ? & ? & payload & ->). by split_and!; auto.
Qed.

Lemma sync_step_inv K io fs pc reply fs' pc' :
  names_ok K → sync_step seed_script history machine io fs pc reply = (fs', pc') → complete (ti_sync io) → reply_fits reply →
  tick_inv K fs → pc_inv fs pc → step_inv K fs fs' pc pc' reply.
Proof.
  intros HK Hstep Hc Hr Hi Hpc. destruct pc as [|v|v require|v files detail|v files detail|seeded args|payload result|ok]; cbn [sync_step] in Hstep.
  - injection Hstep as <- <-. unfold version_read. destruct (read_version_reply reply) as [v| | |] eqn:Er; try by apply tick_idle.
    + case_if; [by apply tick_idle|]. case_if; [by apply tick_idle|]. apply tick_idle; [done| |done]. split; [lia|].
      by apply (read_version_range reply).
    + apply tick_idle; [done|apply seed_eligible_pc|done].
  - injection Hstep as <- <-. unfold snapshot_read. case_if; [by apply tick_idle|].
    destruct (parse_hgetall reply) as [files|] eqn:Ep; [|by apply tick_idle]. apply parse_hgetall_fetched in Ep; [|done].
    destruct files as [|kv files]; apply tick_idle; try done. split; [done|]. split; [done|]. apply not_elem_of_nil.
  - unfold mirror_read in Hstep. case_if; [eapply step_failed; eauto; by apply contains_char_false|].
    destruct (parse_hgetall reply) as [[|kv files]|] eqn:Ep; try (eapply step_failed; eauto; by apply contains_char_false).
    apply parse_hgetall_fetched in Ep; [|done]. injection Hstep as <- <-. apply tick_idle; [done| |by case_if].
    case_if; (split; [done|]); (split; [done|]); [apply not_elem_of_nil|by apply contains_char_false].
  - unfold meta_read in Hstep. case_if; [eapply step_failed; eauto; by apply contains_char_false|].
    destruct (json_string_field _ _) as [expected|]; [|eapply step_failed; eauto; by apply contains_char_false].
    destruct (content_sha256 files) as [actual|]; [|eapply step_failed; eauto; by apply contains_char_false].
    case_if; [|eapply step_failed; eauto; by apply contains_char_false]. injection Hstep as <- <-. by apply tick_idle.
  - destruct (second_read_inv K _ _ _ _ _ _ _ _ HK Hstep Hc Hi Hpc) as (? & ? & ? & Hp). by destruct pc'; split_and!; auto.
  - destruct (seed_done_inv K _ _ _ args _ _ _ HK Hstep Hc Hi Hpc) as (? & ? & Hp). by destruct pc'; split_and!; eauto.
  - injection Hstep as <- <-. by apply tick_idle.
  - injection Hstep as <- <-. by apply tick_idle.
Qed.

Lemma never_back io fs pc reply fs' : sync_step seed_script history machine io fs pc reply ≠ (fs', AwaitVersion).
Proof.
  destruct pc; cbn [sync_step]; unfold version_read, seed_if_eligible, snapshot_read, mirror_read, meta_read, second_read, seed_done, record_history_failure, beat;
    repeat case_match; congruence.
Qed.

Lemma run_tick_inv K fs pc replies fs' pc' :
  names_ok K → run_tick seed_script history machine fs pc replies = (fs', pc') →
  Forall (λ r : tick_io * RedisReplyData, complete (ti_sync r.1) ∧ reply_fits r.2) replies → tick_inv K fs → pc_inv fs pc →
  tick_inv K fs' ∧ touched_in K fs fs' ∧
  (pc ≠ AwaitVersion → (∀ seeded args, pc ≠ AwaitSeed seeded args) → synced_version (stored fs) ≤ synced_version (stored fs')).
Proof.
  intros HK Hrun Hr. revert fs pc Hrun. induction Hr as [|[io reply] replies [Hc Hfit] _ IH]; intros fs pc Hrun Hi Hpc; cbn [run_tick] in Hrun.
  { injection Hrun as <- <-. split; [done|]. split; [done|]. lia. }
  destruct (sync_step _ _ _ io fs pc reply) as [fs1 pc1] eqn:E.
  destruct (sync_step_inv K _ _ _ _ _ _ HK E Hc Hfit Hi Hpc) as (Hi1 & Ht1 & Hpc1 & Hv1 & Hseed).
  destruct (IH _ _ Hrun Hi1 Hpc1) as (Hi2 & Ht2 & Hv2). split; [done|]. split.
  { intros k Hk Hn. pose proof (Ht1 k Hk Hn). pose proof (Ht2 k Hk Hn). unfold same_entry in *. congruence. }
  intros Hnv Hns. etrans; [destruct Hv1 as [Hv1|(sd & args & ->)]; [exact Hv1|by edestruct Hns]|]. apply Hv2.
  - intros ->. by apply never_back in E.
  - intros sd args ->. by destruct (Hseed sd args eq_refl) as [-> _].
Qed.

(** C27: What a tick can change.  Suppose that every write reaches the disk whole
    (a short write is not noticed, see [short_write_reported]), that the names in
    the replies hold no line feed (one that does can add a name to the state file,
    see [name_injects_state]), and that the state file at the start records a
    version that is not negative and names of entries (no slash or NUL; others lead
    elsewhere, see [slash_removes_local]).  Then, whatever else Redis answers, a tick leaves every
    entry of config.d alone except files with a managed name, files that the state
    file already records as managed, and temporary files; so the files that are
    never synchronized are left alone unless the state file records them.  The state file
    it leaves records only such names, and the recorded version does not go back,
    unless the tick found no version in Redis (and may have seeded it). *)
Theorem sync_confined fs replies fs' pc' :
  run_tick seed_script history machine fs AwaitVersion replies = (fs', pc') →
  sm_sorted (entries fs) → 0 ≤ synced_version (stored fs) ≤ INT64_MAX → plain_names (stored fs) →
  Forall (λ r : tick_io * RedisReplyData, complete (ti_sync r.1) ∧ reply_fits r.2) replies →
  (∀ k, ¬ is_tmp k → ¬ managed_name k → k ∉ (managed_files (stored fs)).*1 → same_entry fs fs' k) ∧
  (∀ n, n ∈ (managed_files (stored fs')).*1 → managed_name n ∨ n ∈ (managed_files (stored fs)).*1) ∧
  (synced_version (stored fs) ≤ synced_version (stored fs') ∨
   ∃ io reply rest, replies = (io, reply) :: rest ∧ read_version_reply reply = VMissing).
Proof.
  intros Hrun Hs Hv Hp Hr. set (K := λ n, managed_name n ∨ n ∈ (managed_files (stored fs)).*1).
  assert (names_ok K) as HK.
  { split; [by left|]. intros n [[_ Hn]|Hn]; [by apply valid_name_plain|]. unfold plain_names in Hp. rewrite Forall_forall in Hp. by apply Hp. }
  assert (tick_inv K fs) as Hi by (split; [done|]; split; [done|]; intros n Hn; by right).
  destruct (run_tick_inv K _ _ _ _ _ HK Hrun Hr Hi I) as ((_ & _ & Hn) & Ht & _). split_and!; [|done|].
  { intros k Hk Hm Hnk. apply Ht; [done|]. by intros [?|?]. }
  destruct replies as [|[io reply] rest]; cbn [run_tick] in Hrun; [injection Hrun as <- <-; left; lia|].
  apply Forall_cons in Hr as [[Hc Hf] Hr]. cbn [fst snd] in Hc, Hf. destruct (sync_step _ _ _ io fs _ reply) as [fs1 pc1] eqn:E.
  destruct (sync_step_inv K _ _ _ _ _ _ HK E Hc Hf Hi I) as (Hi1 & _ & Hpc1 & Hv1 & Hseed).
  destruct (run_tick_inv K _ _ _ _ _ HK Hrun Hr Hi1 Hpc1) as (_ & _ & Hv2).
  destruct (read_version_reply reply) eqn:Er; [left|right; eauto 10|left|left]; (destruct Hv1 as [Hv1|(? & ? & ?)]; [|done]);
    (etrans; [exact Hv1|]); apply Hv2; try (intros sd args ->; by destruct (Hseed sd args eq_refl)); intros ->; by apply never_back in E.
Qed.

End settle.

(** ** A managed file cannot speak for the administration *)

Definition reserved_sections : list bytes := ["redis" : bytes; "admin" : bytes; "config_sync" : bytes; "config_history" : bytes].

(** Two configurations that agree on the reserved sections. *)
Definition agree (c1 c2 : Config) : Prop :=
  ∀ s key, s ∈ reserved_sections → "."%char ∉ key → data_ c1 !! qualified s key = data_ c2 !! qualified s key.

#[export] Instance agree_equiv : Equivalence agree.
Proof. split; [done|intros c1 c2 Ha s k Hs Hk; symmetry; by apply Ha|]. intros c1 c2 c3 H1 H2 s k Hs Hk. etrans; [by apply H1|by apply H2]. Qed.

Lemma reserved_no_dot s : s ∈ reserved_sections → "."%char ∉ s.
Proof. unfold reserved_sections. rewrite !elem_of_cons, elem_of_nil. intros [->|[->|[->|[->|[]]]]]; by apply contains_char_false. Qed.

Definition dots (s : bytes) : nat := length (filter (λ c, c = "."%char) (s : list ascii)).

Lemma dots_zero s : dots s = 0%nat ↔ "."%char ∉ s.
Proof.
  unfold dots. rewrite length_zero_iff_nil. induction s as [|c s IH]; [split; [intros _; apply not_elem_of_nil|done]|].
  rewrite filter_cons, not_elem_of_cons. case_decide; [split; [done|intros [? _]; congruence]|]. naive_solver.
Qed.

Lemma qualified_inj s1 k1 s2 k2 : "."%char ∉ s2 → "."%char ∉ k2 → qualified s1 k1 = qualified s2 k2 → s1 = s2.
Proof.
  intros Hs Hk E. assert ("."%char ∉ s1) as Hs1.
  { apply dots_zero. apply (f_equal dots) in E. revert E. unfold qualified, dots. rewrite !filter_app, !length_app.
    fold (dots s1) (dots k1) (dots s2) (dots k2). rewrite (proj2 (dots_zero s2) Hs), (proj2 (dots_zero k2) Hk). cbn. lia. }
  unfold qualified in E. change (s1 ++ "." ++ k1) with (s1 ++ "."%char :: k1) in E. change (s2 ++ "." ++ k2) with (s2 ++ "."%char :: k2) in E.
  pose proof (find_char_app "." s1 k1 Hs1) as H1. rewrite E, (find_char_app "." s2 k2 Hs) in H1. injection H1 as H1. by apply app_inj_1 in E as [-> _].
Qed.

Lemma drop_space_snoc s c : isspace c = true → drop_space (s ++ [c]) = match drop_space s with [] => [] | t => t ++ [c] end.
Proof. intros Hc. induction s as [|d s IH]; cbn [app drop_space]; [by rewrite Hc|]. by case_if. Qed.

Lemma trim_snoc s c : isspace c = true → trim (s ++ [c]) = trim s.
Proof.
  intros Hc. unfold trim. rewrite drop_space_snoc by done. destruct (drop_space s) as [|d t]; [done|].
  unfold drop_space_back. rewrite reverse_app. cbn [reverse rev_append app drop_space]. by rewrite Hc.
Qed.

Lemma trim_strip_cr s : trim (strip_cr s) = trim s.
Proof.
  unfold strip_cr. case_if; [|done]. bool_prop. destruct (last_Some s CR) as [[t ->] _]; [done|].
  rewrite length_app. cbn [length]. rewrite take_app_length' by lia. by rewrite trim_snoc.
Qed.

Lemma add_entry_agree c s k v : s ∉ reserved_sections → agree c (add_entry c (s, k, v)).
Proof.
  intros Hs s' k' Hs' Hk'. cbn [add_entry data_]. rewrite lookup_insert_ne; [done|]. intros E. apply qualified_inj in E as ->; [done| |done].
  by apply reserved_no_dot.
Qed.

Lemma add_entry_proper c1 c2 e : agree c1 c2 → agree (add_entry c1 e) (add_entry c2 e).
Proof. intros Ha s' k' Hs' Hk'. destruct e as [[s k] v]. cbn [add_entry data_]. destruct (decide (qualified s k = qualified s' k')) as [->|Hne];
  [by rewrite !lookup_insert_eq|]. rewrite !lookup_insert_ne by done. by apply Ha. Qed.

(** Sections are read as the validation reads them. *)
Lemma load_lines_agree c section lines :
  section ∉ reserved_sections → Forall (λ l, ∀ s, classify l = Section_ s → s ∉ reserved_sections) lines → agree c (load_lines c section lines).2.
Proof.
  intros Hs Hl. revert c section Hs. induction Hl as [|l lines Hl _ IH]; intros c section Hs; [done|]. cbn [load_lines].
  unfold classify in Hl. rewrite trim_strip_cr in Hl. destruct (trim l) as [|c0 t] eqn:Et; [by apply IH|]. case_if; [by apply IH|].
  destruct (ceqb c0 "[") eqn:Eb; cbn [andb] in Hl.
  - unfold back. case_if; [|done]. apply IH. intros Hin. apply (Hl (tolower <$> trim (take (length (c0 :: t) - 2) (drop 1 (c0 :: t))))); [done|].
    revert Hin. generalize (take (length (c0 :: t) - 2) (drop 1 (c0 :: t))) as s. unfold reserved_sections. intros s.
    rewrite !elem_of_cons, elem_of_nil. intros [->|[->|[->|[->|[]]]]]; vm_compute; naive_solver.
  - destruct (find_char "=" (c0 :: t)) as [eq|]; [|done]. etrans; [by apply (add_entry_agree c section)|]. by apply IH.
Qed.

Lemma load_lines_proper c1 c2 section lines : agree c1 c2 →
  (load_lines c1 section lines).1 = (load_lines c2 section lines).1 ∧ agree (load_lines c1 section lines).2 (load_lines c2 section lines).2.
Proof.
  revert c1 c2 section. induction lines as [|l lines IH]; intros c1 c2 section Ha; [done|]. cbn [load_lines].
  repeat case_match; try done; try by apply IH. by apply IH, add_entry_proper.
Qed.

Lemma validated_sections n text : validate_managed_file n text = None →
  Forall (λ l, ∀ s, classify l = Section_ s → s ∉ reserved_sections) (split_lt LF text).
Proof.
  unfold validate_managed_file. do 2 (case_if; [done|]).
  assert (∀ target, (tolower <$> target) = target → contains_section text target = false →
    Forall (λ l, ∀ s, classify l = Section_ s → s ≠ target) (split_lt LF text)) as Hc.
  { intros target Ht Hf. rewrite Forall_forall. intros l Hl s Hs ->. apply not_true_iff_false in Hf. apply Hf. unfold contains_section.
    apply existsb_exists. exists l. split; [by apply list_elem_of_In|]. by rewrite Hs, Ht, beqb_refl. }
  do 4 (case_if; [done|]). intros _. rewrite Forall_forall. intros l Hl s Hs. unfold reserved_sections. rewrite !elem_of_cons, elem_of_nil.
  intros [->|[->|[->|[->|[]]]]].
  - pose proof (Hc "redis" ltac:(done) ltac:(done)) as Hf. rewrite Forall_forall in Hf. by apply (Hf l Hl _ Hs).
  - pose proof (Hc "admin" ltac:(done) ltac:(done)) as Hf. rewrite Forall_forall in Hf. by apply (Hf l Hl _ Hs).
  - pose proof (Hc "config_sync" ltac:(done) ltac:(done)) as Hf. rewrite Forall_forall in Hf. by apply (Hf l Hl _ Hs).
  - pose proof (Hc "config_history" ltac:(done) ltac:(done)) as Hf. rewrite Forall_forall in Hf. by apply (Hf l Hl _ Hs).
Qed.

Lemma empty_not_reserved : ([] : bytes) ∉ reserved_sections.
Proof. unfold reserved_sections. rewrite !elem_of_cons, elem_of_nil. intros [?|[?|[?|[?|[]]]]]; done. Qed.

Lemma load_files_local c1 c2 files c' :
  agree c1 c2 → load_files c1 files = (true, c') →
  Forall (λ f, is_never_sync_file (filename f) = true ∨ ∃ text, content f = Some text ∧ validate_managed_file (filename f) text = None) files →
  ∃ c'', load_files c2 (filter (λ f, is_never_sync_file (filename f) = true) files) = (true, c'') ∧ agree c' c''.
Proof.
  intros Ha Hl Hf. revert c1 c2 Ha Hl. induction Hf as [|f files Hf _ IH]; intros c1 c2 Ha Hl; cbn [load_files] in Hl.
  { injection Hl as <-. by exists c2. }
  destruct (load_file c1 (content f)) as [[] c1'] eqn:E; [|done]. rewrite filter_cons. case_decide as Hn.
  - cbn [load_files]. unfold load_file in *. destruct (content f) as [text|]; [|done].
    destruct (load_lines_proper c1 c2 [] (split_lt LF text) Ha) as [Hok Hag]. rewrite E in Hok, Hag.
    destruct (load_lines c2 [] (split_lt LF text)) as [ok c2']. cbn [fst snd] in *. subst ok. by apply (IH c1').
  - destruct Hf as [?|(text & Ht & Hv)]; [done|]. apply (IH c1'); [|done]. etrans; [|exact Ha]. symmetry. rewrite Ht in E. unfold load_file in E.
    pose proof (load_lines_agree c1 [] (split_lt LF text) empty_not_reserved (validated_sections _ _ Hv)) as Hag. by rewrite E in Hag.
Qed.

(** Managed files cannot speak for the administration: when every file of
    config.d is either never synchronized or passed the validation, the values of
    the sections redis, admin, config_sync and config_history are what the files
    that are never synchronized say alone (for keys without a dot, as all keys of
    these sections are). *)
Lemma managed_files_confined c files c' :
  load_files c files = (true, c') →
  Forall (λ f, is_never_sync_file (filename f) = true ∨ ∃ text, content f = Some text ∧ validate_managed_file (filename f) text = None) files →
  ∃ c'', load_files c (filter (λ f, is_never_sync_file (filename f) = true) files) = (true, c'') ∧
         ∀ section key def, section ∈ reserved_sections → "."%char ∉ key → get c' section key def = get c'' section key def.
Proof.
  intros Hl Hf. destruct (load_files_local c c files c' (reflexivity c) Hl Hf) as (c'' & Hl' & Ha). exists c''. split; [done|].
  intros section key def Hs Hk. unfold get. by rewrite Ha.
Qed.

(** ** Examples *)

Module SyncSample.

Definition write_ok : write_io := mkWriteIo true true None true.

(** A name that starts with a dot and a slash leads to an entry. *)
Definition leads_to (name : bytes) : removal := if starts_with "./" name then RmEntry (drop 2 name) else RmElsewhere.
Definition io_ok : sync_io := mkSyncIo (λ _, write_ok) (λ _, true) leads_to write_ok.
Definition tick : tick_io := mkTickIo io_ok 1700000000 42.

Definition text (s : bytes) : local_file := mkFile true (Some s).
(** A stale managed file and a local one; nothing was synchronized yet. *)
Definition fs0 : LocalFs := mkLocal true true [("05-old.ini" : bytes, text "[log]"); ("99-local.ini" : bytes, text "[admin]")] None.
Definition remote : files_map := [("10-a.ini" : bytes, "[log]" : bytes); ("20-b.ini" : bytes, "x=1" : bytes)].

Definition string_reply (s : bytes) : RedisReplyData := mkReplyData true [] s 0 [] "string".
Definition array_reply (l : list bytes) : RedisReplyData := mkReplyData true [] [] 0 l "array".
Definition pairs (files : files_map) : list bytes := concat ((λ kv, [kv.1; kv.2]) <$> files).

Definition meta (v : Z) (files : files_map) : bytes :=
  metadata_json v 0 1700000000 "root" "save" "" (mkInfo 0 0 (hex_bytes (digest_input files))) None.

(** The replies of a tick that applies a version. *)
Definition replies (v : Z) (files : files_map) : list (tick_io * RedisReplyData) :=
  [(tick, string_reply (to_string v)); (tick, array_reply (pairs files)); (tick, string_reply (meta v files));
   (tick, string_reply (to_string v)); (tick, reply_data0)].

Abbreviation run := (@run_tick Sample.ssl [] HistorySample.limits []).

Definition fs1 : LocalFs := (run fs0 AwaitVersion (replies 3 remote)).1.

Lemma applied : run fs0 AwaitVersion (replies 3 remote) = (fs1, Finished true).
Proof. by vm_compute. Qed.
Lemma applied_names : (entries fs1).*1 = ["10-a.ini" : bytes; "20-b.ini" : bytes; "99-local.ini" : bytes].
Proof. by vm_compute. Qed.

Lemma io_ok_complete : complete (ti_sync tick).
Proof. by split. Qed.

(** *** Names with a line feed

    The name of a rejected file is written to the state file as it is. *)
Definition injected : files_map := [("x" ++ [LF] ++ "file.99-local.ini" : bytes, [])].

(** The rejected version puts a local file on the list of managed ones; applying
    the next version removes it. *)
Lemma name_injects_state :
  let '(fs2, pc2) := run fs1 AwaitVersion (replies 4 injected) in
  let '(fs3, pc3) := run fs2 AwaitVersion (replies 5 remote) in
  sm_has "99-local.ini" (entries fs1) = true ∧ pc2 = Finished false ∧
  sm_has "99-local.ini" (managed_files (load_state (state_text fs2))) = true ∧
  pc3 = Finished true ∧ sm_has "99-local.ini" (entries fs3) = false.
Proof. by vm_compute. Qed.

(** *** Names with a slash

    A recorded name is joined to config.d as it is, so another spelling of a local
    file's name removes the file. *)
Definition respelled : LocalFs := mkLocal true true (entries fs1) (Some ("file../99-local.ini=0" ++ [LF])).

Lemma slash_removes_local :
  let '(fs2, pc2) := run respelled AwaitVersion (replies 4 remote) in
  sm_has "99-local.ini" (entries respelled) = true ∧ pc2 = Finished true ∧ sm_has "99-local.ini" (entries fs2) = false.
Proof. by vm_compute. Qed.

(** *** A stray ini file

    A file whose name is not managed makes the collection report an error, so the
    version is fetched again on every tick. *)
Definition stray : LocalFs := mkLocal true true (sm_insert "notes.ini" (text "x=1") (entries fs0)) None.

Lemma stray_never_settles :
  let '(fs2, pc2) := run stray AwaitVersion (replies 3 remote) in
  pc2 = Finished true ∧ run fs2 AwaitVersion [(tick, string_reply "3")] = (fs2, AwaitSnapshot 3).
Proof. by vm_compute. Qed.

(** *** A full disk

    The stream is not tested after the content was written: a file that was cut
    short is renamed into place and reported as written. *)
Definition write_short : write_io := mkWriteIo true true (Some 3%nat) true.

Lemma short_write_reported :
  let '(fs, ok) := write_managed_file_if_changed write_short fs0 "10-a.ini" "[log]" in
  ok = true ∧ read_file fs "10-a.ini" = Some ("[lo" : bytes).
Proof. by vm_compute. Qed.

(** *** A directory that cannot be listed

    It is collected as empty without an error: the machine is eligible and seeds a
    version without files. *)
Lemma unlistable_seeds_empty :
  let fs := mkLocal true false (entries fs0) None in
  collect_local_managed_files fs = ([], []) ∧
  ∃ args, @version_read Sample.ssl [] HistorySample.limits [] tick fs (mkReplyData true [] [] 0 [] "nil") = AwaitSeed (seeded_state []) args.
Proof. split; [by vm_compute|]. eexists. by vm_compute. Qed.

(** *** A version without files

    The machine that seeds an empty version is in step with it; any other machine,
    although it has no managed file either, finds neither snapshot nor mirror. *)
Definition bare : LocalFs := mkLocal true true [("99-local.ini" : bytes, text "[admin]")] None.

Lemma empty_seed_unreadable :
  let fs := (run bare AwaitVersion [(tick, string_reply "1"); (tick, array_reply []); (tick, array_reply []); (tick, reply_data0)]).1 in
  collect_local_managed_files bare = ([], []) ∧ status (load_state (state_text fs)) = "partial" ∧ synced_version (load_state (state_text fs)) = 0 ∧
  run fs AwaitVersion [(tick, string_reply "1"); (tick, array_reply []); (tick, array_reply []); (tick, reply_data0)] = (fs, Finished false).
Proof. by vm_compute. Qed.

(** *** Other spellings of a reserved path

    The validation compares the text of a rule; the gateway normalizes the rules
    when it loads them. *)
Definition spelling : bytes := "[path_blacklist]" ++ [LF] ++ "/api//admin=".

(** The rules of a file, as [build_snapshot] makes them. *)
Definition blocked_paths (content : bytes) : PathBlacklist :=
  let cfg := (load_file empty_config (Some content)).2 in
  @path_blacklist_reload insertion_sort (normalize_path_keys (get_section cfg "path_blacklist") false).

Lemma reserved_path_respelled :
  validate_managed_file "34-path_blacklist.ini" spelling = None ∧
  blocked (path_blacklist_check (blocked_paths spelling) "/api/admin/login") = true.
Proof. by vm_compute. Qed.

(** A rule for an ancestor passes as well. *)
Lemma reserved_path_ancestor :
  validate_managed_file "34-path_blacklist.ini" ("[path_blacklist]" ++ [LF] ++ "/api=") = None ∧
  blocked (path_blacklist_check (blocked_paths ("[path_blacklist]" ++ [LF] ++ "/api=")) "/api/admin/login") = true.
Proof. by vm_compute. Qed.

End SyncSample.

Lemma names_check files : forallb (λ kv : bytes * bytes, negb (contains_char LF kv.1)) files = true → Forall (λ kv : bytes * bytes, LF ∉ kv.1) files.
Proof.
  rewrite forallb_forall, Forall_forall. intros Hf kv Hin. apply contains_char_false. apply negb_true_iff, Hf. by apply list_elem_of_In.
Qed.

Lemma sync_confined_witness :
  run_tick (H := Sample.ssl) [] HistorySample.limits [] SyncSample.fs0 AwaitVersion (SyncSample.replies 3 SyncSample.remote) =
    (SyncSample.fs1, Finished true) ∧
  (∀ k, ¬ is_tmp k → ¬ managed_name k → k ∉ (managed_files (load_state (state_text SyncSample.fs0))).*1 → same_entry SyncSample.fs0 SyncSample.fs1 k).
Proof.
  split; [exact SyncSample.applied|].
  refine (proj1 (@sync_confined Sample.ssl [] HistorySample.limits [] _ _ _ _ SyncSample.applied _ _ _ _)).
  - repeat constructor.
  - by vm_compute.
  - constructor.
  - repeat (apply Forall_cons; split; [split; [exact SyncSample.io_ok_complete|]; split; [by vm_compute|by apply names_check]|]). constructor.
Defined.

Lemma sync_settles_witness :
  collect_local_managed_files SyncSample.fs1 = (SyncSample.remote, []).
Proof.
  refine (proj1 (@sync_settles Sample.ssl [] HistorySample.limits [] SyncSample.tick SyncSample.fs0 3 SyncSample.remote (SyncSample.string_reply "3")
    (heartbeat_payload 3 1700000000 42 "ok" []) SyncSample.fs1 SyncSample.tick (SyncSample.string_reply "3") _ SyncSample.io_ok_complete _ _ _ _ _)).
  - split; [repeat constructor|]. split; [done|]. split; [done|]. split; [by repeat constructor|].
    intros k f Hin. unfold listed_files in Hin. vm_compute in Hin. apply elem_of_cons in Hin as [Hin|Hin]; [|by apply not_elem_of_nil in Hin].
    by injection Hin as -> ->.
  - repeat constructor.
  - by apply names_check.
  - constructor.
  - by vm_compute.
  - split; [by vm_compute|]. by vm_compute.
Defined.

Lemma managed_files_confined_witness :
  let local := mkEntry "99-local.ini" (Some true) (Some ("[admin]" ++ [LF] ++ "user=root")) in
  let managed := mkEntry "10-a.ini" (Some true) (Some ("[log]" ++ [LF] ++ "level=info")) in
  get (load_files empty_config [managed; local]).2 "admin" "user" [] = "root".
Proof.
  intros local managed.
  destruct (managed_files_confined empty_config [managed; local] (load_files empty_config [managed; local]).2) as (c & Hc & Hget).
  - by vm_compute.
  - apply Forall_cons. split; [right; eexists; split; [reflexivity|by vm_compute]|]. apply Forall_cons. split; [by left|constructor].
  - rewrite Hget; [|right; left|by apply contains_char_false]. cbn [filter list_filter] in Hc. vm_compute in Hc. injection Hc as <-. by vm_compute.
Defined.
