(* ===== verification/SyncLifecycle.v ===== *)
(** * The life cycle of the configuration synchronization

    config_sync_lifecycle.cpp, config_sync_dispatch.cpp and the timer of
    config_sync_remote.cpp: the configuration the service runs with, the
    comparison behind the warning that a restart is needed, the delivery of a
    reply to the callback that waits for it, and the timer, ticks and [stop] as
    one interleaved machine.

    A step of the machine is one atomic access of the code: a load or store of
    [running_], the critical section on [in_flight_], the exchange of
    [finished_].  What runs between two such accesses is an [activity]; any
    activity may move next, which covers every number of threads.  Failed
    allocations are not modelled. *)

From S2P Require Import Prelude Config Response AppConfig AdminAuth OrderedMap ConfigHistory DbPool RedisPool ConfigSync SyncSafety.
Open Scope Z_scope.

(** ** Configuration *)

Definition valid_first_pull (s : bytes) : bool := beqb s "async" || beqb s "blocking".

Definition normalize_config (cfg : ConfigSyncConfig) : ConfigSyncConfig :=
  let interval := if sync_interval_sec cfg <=? 0 then 5 else sync_interval_sec cfg in
  let pull := if beqb (first_pull cfg) [] then "async" : bytes else first_pull cfg in
  let pull := if valid_first_pull pull then pull else "async" in
  let timeout := if first_pull_timeout_ms cfg <=? 0 then 3000 else first_pull_timeout_ms cfg in
  mkSync (cs_enabled cfg) interval (machine_name cfg) pull timeout (cs_admin cfg) (cs_history cfg).

(** The connection options of the pool that the blocking first pull opens for
    itself, from the configured ones. *)
Definition first_pull_redis (sync_cfg : ConfigSyncConfig) (r : RedisConfig) : RedisConfig :=
  let total_ms := Z.max 100 (first_pull_timeout_ms sync_cfg) in
  mkRedis (rd_host r) (rd_port r) (rd_db r) (Z.max 100 (Z.min 1000 (Z.quot total_ms 3))) (Z.max 100 (Z.min 500 total_ms)) Direct
    0 1 (rd_max_idle_sec r) 1 (rd_max_creating r) (rd_acquire_timeout_ms r).

(** A command of the blocking pull: past the deadline it is answered without
    Redis. *)
Definition first_pull_reply (expired : bool) (reply : RedisReplyData) : RedisReplyData :=
  if expired then mkReplyData false "config sync blocking first_pull deadline exceeded" [] 0 [] "error" else reply.

Section first_pull.
Context `{OpenSsl} (seed_script : bytes) (history : ConfigHistoryConfig) (machine : bytes).

(** [blocking_first_pull]: [true] at once unless a pull is configured; otherwise
    the result of one tick, [false] until the completion stores it and when the
    deadline has passed or the pool throws ([opened]) before the tick starts.
    Each reply comes with whether the deadline had passed when its command was
    issued. *)
Definition blocking_first_pull (sync_cfg : ConfigSyncConfig) (opened : bool) (fs : LocalFs) (replies : list (tick_io * (bool * RedisReplyData))) :
  LocalFs * bool :=
  if negb (cs_enabled sync_cfg) || negb (beqb (first_pull sync_cfg) "blocking") then (fs, true)
  else if negb opened then (fs, false)
  else
    let '(fs, pc) := run_tick seed_script history machine fs AwaitVersion
                       ((λ p : tick_io * (bool * RedisReplyData), (p.1, first_pull_reply p.2.1 p.2.2)) <$> replies) in
    (fs, match pc with Finished ok => ok | _ => false end).
End first_pull.

(** [machine_name]: [host] is what [gethostname] gives, [None] on failure. *)
Definition sync_machine_name (cfg : ConfigSyncConfig) (host : option bytes) : bytes :=
  if negb (beqb (machine_name cfg) []) then machine_name cfg
  else match host with Some ((_ :: _) as h) => h | _ => "unknown" end.

(** [warn_limited]: the time of the last warning, and whether this one is
    logged; times in nanoseconds. *)
Definition warn_limited (last_warn now : Z) : Z * bool :=
  if 30 * 10 ^ 9 <? now - last_warn then (now, true) else (last_warn, false).

(** An [int] addition: [None] is the overflow, which is undefined. *)
Definition effective_drain_timeout_ms (r : RedisConfig) : option Z :=
  let cmd_ms := if rd_cmd_timeout_ms r <=? 0 then 30000 else rd_cmd_timeout_ms r in
  if cmd_ms + 500 <=? 2147483647 then Some (cmd_ms + 500) else None.

(** ** Startup drift *)

Definition mysql_config_differs (a b : MysqlConfig) : bool :=
  negb (beqb (my_host a) (my_host b)) || negb (my_port a =? my_port b) || negb (beqb (my_user a) (my_user b)) ||
  negb (beqb (my_pass a) (my_pass b)) || negb (beqb (my_db a) (my_db b)) || negb (my_min_size a =? my_min_size b) ||
  negb (my_max_size a =? my_max_size b) || negb (my_max_idle_sec a =? my_max_idle_sec b) ||
  negb (my_connect_timeout_ms a =? my_connect_timeout_ms b) ||
  negb (my_read_timeout_ms a =? my_read_timeout_ms b) ||
  negb (my_query_timeout_ms a =? my_query_timeout_ms b) ||
  negb (my_acquire_timeout_ms a =? my_acquire_timeout_ms b) ||
  negb (my_keepalive_sec a =? my_keepalive_sec b) ||
  negb (my_worker_threads a =? my_worker_threads b) ||
  negb (my_max_creating a =? my_max_creating b).

Definition redis_config_differs (a b : RedisConfig) : bool :=
  negb (beqb (rd_host a) (rd_host b)) || negb (rd_port a =? rd_port b) || negb (rd_db a =? rd_db b) ||
  negb (rd_connect_timeout_ms a =? rd_connect_timeout_ms b) ||
  negb (rd_cmd_timeout_ms a =? rd_cmd_timeout_ms b) || negb (bool_decide (rd_mode a = rd_mode b)) ||
  negb (rd_min_size a =? rd_min_size b) || negb (rd_max_size a =? rd_max_size b) ||
  negb (rd_max_idle_sec a =? rd_max_idle_sec b) ||
  negb (rd_worker_threads a =? rd_worker_threads b) ||
  negb (rd_max_creating a =? rd_max_creating b) ||
  negb (rd_acquire_timeout_ms a =? rd_acquire_timeout_ms b).

Definition startup_config_differs (running current : AppConfig) : bool :=
  negb (server_port current =? server_port running) ||
  negb (io_threads current =? io_threads running) ||
  negb (max_client_connections current =? max_client_connections running) ||
  negb (fd_reserve current =? fd_reserve running) ||
  mysql_config_differs (mysql current) (mysql running) ||
  redis_config_differs (redis current) (redis running).

(** [warn_startup_drift_once]: the versions warned about, and whether this call
    logs.  [current] is the configuration the files give, [None] when they do
    not load or are refused. *)
Definition warn_startup_drift_once (running : AppConfig) (current : option AppConfig) (warned : gset Z) (version : Z) : gset Z * bool :=
  if bool_decide (version ∈ warned) then (warned, false)
  else ({[version]} ∪ warned, match current with Some c => startup_config_differs running c | None => false end).

(** ** Delivery of a reply

    What a call of [command_] does is the events it causes, in order: it invokes
    the callback ([CbReply]), a file worker runs the first job waiting in its
    queue ([WorkerRuns]), it throws ([CmdThrows]).  [what] is the text of a
    [std::exception]. *)
Inductive cmd_event := CbReply (r : RedisReplyData) | WorkerRuns | CmdThrows (what : option bytes).

Definition exception_reply (what : option bytes) : RedisReplyData :=
  mkReplyData false (default ("unknown Redis command exception" : bytes) what) [] 0 [] "error".

(** The atomics of [ConfigSyncRuntimeMetrics]. *)
Record FileCounters := mkFileCounters {
  file_worker_jobs : Z; file_worker_fallbacks : Z; file_worker_busy : Z; file_worker_queue_delay_us_total : Z;
  file_worker_queue_delay_us_max : Z; file_scan_duration_us_total : Z; file_scan_duration_us_max : Z; files_scanned : Z;
  file_bytes_read : Z
}.

Definition add_jobs (m : FileCounters) : FileCounters :=
  mkFileCounters (wrap64 (file_worker_jobs m + 1)) (file_worker_fallbacks m) (file_worker_busy m) (file_worker_queue_delay_us_total m)
    (file_worker_queue_delay_us_max m) (file_scan_duration_us_total m) (file_scan_duration_us_max m) (files_scanned m) (file_bytes_read m).
Definition add_fallbacks (m : FileCounters) : FileCounters :=
  mkFileCounters (file_worker_jobs m) (wrap64 (file_worker_fallbacks m + 1)) (file_worker_busy m) (file_worker_queue_delay_us_total m)
    (file_worker_queue_delay_us_max m) (file_scan_duration_us_total m) (file_scan_duration_us_max m) (files_scanned m) (file_bytes_read m).
Definition add_busy (n : Z) (m : FileCounters) : FileCounters :=
  mkFileCounters (file_worker_jobs m) (file_worker_fallbacks m) (wrap64 (file_worker_busy m + n)) (file_worker_queue_delay_us_total m)
    (file_worker_queue_delay_us_max m) (file_scan_duration_us_total m) (file_scan_duration_us_max m) (files_scanned m) (file_bytes_read m).
(** The delay of a job: [max] with 0, then the total and the maximum. *)
Definition add_delay (us : Z) (m : FileCounters) : FileCounters :=
  let delay := Z.max 0 us in
  mkFileCounters (file_worker_jobs m) (file_worker_fallbacks m) (file_worker_busy m) (wrap64 (file_worker_queue_delay_us_total m + delay))
    (Z.max (file_worker_queue_delay_us_max m) delay) (file_scan_duration_us_total m) (file_scan_duration_us_max m) (files_scanned m) (file_bytes_read m).

(** [callback_started], the jobs posted to the workers and not yet run, the
    replies handed to the completion so far, and the counters. *)
Record delivery := mkDelivery {
  callback_started : bool; queued : list RedisReplyData; delivered : list RedisReplyData; metrics_ : option FileCounters
}.

Definition delivery0 (m : option FileCounters) : delivery := mkDelivery false [] [] m.

Definition count_in (f : FileCounters → FileCounters) (d : delivery) : delivery :=
  mkDelivery (callback_started d) (queued d) (delivered d) (f <$> metrics_ d).

(** The job: the flag first, then the completion, whose exceptions are logged. *)
Definition invoke (d : delivery) (r : RedisReplyData) : delivery := mkDelivery true (queued d) (delivered d ++ [r]) (metrics_ d).

Definition instrumented (us : Z) (d : delivery) (r : RedisReplyData) : delivery :=
  count_in (add_busy (-1)) (invoke (count_in (add_busy 1) (count_in (add_delay us) d)) r).

(** [file_workers] is whether there is a pool, [posts] whether [asio::post]
    accepts the job; without either the job runs in place.  [us] is the time until
    it runs. *)
Definition dispatch_command_completion (file_workers posts : bool) (us : Z) (d : delivery) (r : RedisReplyData) : delivery :=
  if negb file_workers then instrumented us (count_in add_fallbacks d) r
  else
    let d := count_in add_jobs d in
    if posts then mkDelivery (callback_started d) (queued d ++ [r]) (delivered d) (metrics_ d)
    else instrumented us (count_in add_fallbacks d) r.

Definition run_worker (us : Z) (d : delivery) : delivery :=
  match queued d with [] => d | r :: rest => instrumented us (mkDelivery (callback_started d) rest (delivered d) (metrics_ d)) r end.

(** An event with the answer of [asio::post] and the time until the job runs. *)
Record timed_event := mkEvent { ev_posts : bool; ev_us : Z; ev_what : cmd_event }.

(** [run_command]: an exception becomes a reply unless a callback has already
    started; a callback that [command_] kept may still come after it. *)
Fixpoint run_command (file_workers : bool) (d : delivery) (events : list timed_event) : delivery :=
  match events with
  | [] => d
  | mkEvent posts us (CbReply r) :: rest => run_command file_workers (dispatch_command_completion file_workers posts us d r) rest
  | mkEvent _ us WorkerRuns :: rest => run_command file_workers (run_worker us d) rest
  | mkEvent posts us (CmdThrows what) :: rest =>
      run_command file_workers
        (if callback_started d then d else dispatch_command_completion file_workers posts us d (exception_reply what)) rest
  end.

(** The workers run what is left. *)
Definition settled (d : delivery) : list RedisReplyData := delivered d ++ queued d.

(** ** The timer, the ticks and stop *)

(** The members of the service that several threads share. *)
Record Service := mkService { running_ : bool; in_flight_ : Z; ioc_stopped : bool }.

Definition service0 : Service := mkService false 0 false.

Definition set_running (b : bool) (s : Service) : Service := mkService b (in_flight_ s) (ioc_stopped s).
Definition set_in_flight (n : Z) (s : Service) : Service := mkService (running_ s) n (ioc_stopped s).

Record TickCompletion := mkTick { finished_ : bool; service_ : bool }.

Definition tick_completion : TickCompletion := mkTick false true.

(** [TickCompletion::finish]: whether [finish_tick] is called. *)
Definition finish (t : TickCompletion) : TickCompletion * bool :=
  if finished_ t then (t, false) else (mkTick true false, service_ t).

Inductive stop_result := Unwaited | Drained | TimedOut.

(** What is under way, by the access that comes next. *)
Inductive activity :=
  | Start                                       (* start is called *)
  | Schedule                                    (* schedule_after loads running_ *)
  | Arm                                         (* expires_after and async_wait *)
  | Wait                                        (* a pending wait *)
  | Expired (ec : bool)                         (* the wait's handler is to run *)
  | Launch                                      (* launch_tick enters its critical section *)
  | Tick (copies : nat) (t : TickCompletion)    (* sync_once; [copies] of the completion are alive *)
  | FinishTick                                  (* finish_tick enters its critical section *)
  | Notified                                    (* finish_tick loads running_ *)
  | Posted                                      (* the handler finish_tick posted *)
  | StopStore                                   (* stop is called *)
  | StopCancel                                  (* timer_.cancel() *)
  | StopCheck                                   (* ioc_.stopped() *)
  | StopWait                                    (* wait_for on in_flight_cv_ *)
  | StopDone (r : stop_result)
  | IocStop.                                    (* the io_context is stopped by its owner *)

(** What can happen to an activity besides its next access: its timeout, and for
    a tick that a copy of the completion is made, called or destroyed. *)
Inductive event := Go | Timeout | Copy | Call | Drop.

Definition finish_activity (calls : bool) : list activity := if calls then [FinishTick] else [].

(** A tick: the last copy destroyed runs [~TickCompletion]. *)
Definition tick_step (e : event) (copies : nat) (t : TickCompletion) : option (list activity) :=
  match e, copies with
  | Copy, S _ => Some [Tick (S copies) t]
  | Call, S _ => let '(t', calls) := finish t in Some (Tick copies t' :: finish_activity calls)
  | Drop, S (S n) => Some [Tick (S n) t]
  | Drop, S O => Some (finish_activity (finish t).2)
  | _, _ => None
  end.

(** [finish_tick]'s critical section. *)
Definition leave_flight (s : Service) : Service := if 0 <? in_flight_ s then set_in_flight (in_flight_ s - 1) s else s.

(** A step of an activity: the new state, whether the other pending waits are
    cancelled, and what takes its place. *)
Definition activity_step (cfg : ConfigSyncConfig) (e : event) (s : Service) (a : activity) : option (Service * bool * list activity) :=
  match e, a with
  | Go, Start => if negb (cs_enabled cfg) || (sync_interval_sec cfg <=? 0) then Some (s, false, [])
                 else Some (set_running true s, false, [Schedule])
  | Go, Schedule => Some (s, false, if running_ s then [Arm] else [])
  | Go, Arm => Some (s, true, [Wait])
  | Go, Wait => Some (s, false, [Expired false])
  | Go, Expired ec => Some (s, false, if ec || negb (running_ s) then [] else [Launch])
  | Go, Launch => Some (set_in_flight (in_flight_ s + 1) s, false, [Tick 1 tick_completion])
  | _, Tick copies t => acts ← tick_step e copies t; Some (s, false, acts)
  | Go, FinishTick => Some (leave_flight s, false, [Notified])
  | Go, Notified => Some (s, false, if running_ s then [Posted] else [])
  | Go, Posted => Some (s, false, if running_ s then [Schedule] else [])
  | Go, StopStore => Some (set_running false s, false, [StopCancel])
  | Go, StopCancel => Some (s, true, [StopCheck])
  | Go, StopCheck => Some (s, false, if ioc_stopped s then [StopDone Unwaited] else [StopWait])
  | Go, StopWait => if in_flight_ s =? 0 then Some (s, false, [StopDone Drained]) else None
  | Timeout, StopWait => Some (s, false, [StopDone (if in_flight_ s =? 0 then Drained else TimedOut)])
  | Go, IocStop => Some (mkService (running_ s) (in_flight_ s) true, false, [])
  | _, _ => None
  end.

(** A cancelled wait's handler runs with an error. *)
Definition cancel_wait (a : activity) : activity := match a with Wait => Expired true | _ => a end.
Definition cancel_waits (cancel : bool) (l : list activity) : list activity := if cancel then cancel_wait <$> l else l.

Inductive life_step (cfg : ConfigSyncConfig) : Service * list activity → Service * list activity → Prop :=
  | life_move e s s' l1 l2 a acts cancel :
      activity_step cfg e s a = Some (s', cancel, acts) →
      life_step cfg (s, l1 ++ a :: l2) (s', cancel_waits cancel l1 ++ acts ++ cancel_waits cancel l2).

(** ** What the configuration guarantees *)

(** The service runs with a positive interval, so that [start] refuses only a
    synchronization that is switched off. *)
Lemma normalized_interval cfg : 0 < sync_interval_sec (normalize_config cfg).
Proof. unfold normalize_config. cbn [sync_interval_sec]. case_match; lia. Qed.

Lemma normalized_first_pull cfg : valid_first_pull (first_pull (normalize_config cfg)) = true.
Proof. unfold normalize_config. cbn [first_pull]. by case_match. Qed.

Lemma normalize_idempotent cfg : normalize_config (normalize_config cfg) = normalize_config cfg.
Proof.
  unfold normalize_config at 1.
  pose proof (normalized_interval cfg) as Hi. pose proof (normalized_first_pull cfg) as Hp.
  assert (0 < first_pull_timeout_ms (normalize_config cfg)) as Ht by (unfold normalize_config; cbn [first_pull_timeout_ms]; case_match; lia).
  rewrite (proj2 (Z.leb_gt _ _) Hi), (proj2 (Z.leb_gt _ _) Ht).
  destruct (beqb (first_pull (normalize_config cfg)) []) eqn:He.
  - apply beqb_eq in He. by rewrite He in Hp.
  - rewrite Hp. by destruct cfg.
Qed.

(** The drift that is warned about is exactly a change of the listening port, the
    threads, the connection limits or a pool; in particular the deadline and the
    permits of combined queries, which are also read only at startup, may change
    without a warning. *)
Lemma mysql_config_same a b : mysql_config_differs a b = false ↔ a = b.
Proof.
  destruct a, b. unfold mysql_config_differs. cbn. rewrite !orb_false_iff, !negb_false_iff, !beqb_eq, !Z.eqb_eq. split; [intros H; decompose [and] H; subst; reflexivity|intros H; injection H; intros; subst; repeat split].
Qed.

Lemma redis_config_same a b : redis_config_differs a b = false ↔ a = b.
Proof.
  destruct a, b. unfold redis_config_differs. cbn.
  rewrite !orb_false_iff, !negb_false_iff, !beqb_eq, !Z.eqb_eq, bool_decide_eq_true. split; [intros H; decompose [and] H; subst; reflexivity|intros H; injection H; intros; subst; repeat split].
Qed.

Lemma startup_drift running current : startup_config_differs running current = false ↔
  server_port current = server_port running ∧ io_threads current = io_threads running ∧
  max_client_connections current = max_client_connections running ∧ fd_reserve current = fd_reserve running ∧
  mysql current = mysql running ∧ redis current = redis running.
Proof.
  unfold startup_config_differs. rewrite !orb_false_iff, !negb_false_iff, !Z.eqb_eq, mysql_config_same, redis_config_same. tauto.
Qed.

(** A version is warned about at most once. *)
Lemma drift_warned_once running current current' warned version :
  (warn_startup_drift_once running current' (warn_startup_drift_once running current warned version).1 version).2 = false.
Proof.
  unfold warn_startup_drift_once. destruct (bool_decide (version ∈ warned)) eqn:Hw; cbn [fst]; [by rewrite Hw|].
  by rewrite bool_decide_true by set_solver.
Qed.

(** ** A tick ends *)

Section tick_ends.
Context `{OpenSsl} (seed_script : bytes) (history : ConfigHistoryConfig) (machine : bytes).

(** The replies a tick still waits for, at most. *)
Definition replies_left (pc : sync_pc) : nat :=
  match pc with
  | AwaitVersion => 6 | AwaitSnapshot _ => 5 | AwaitMirror _ _ => 4 | AwaitMeta _ _ _ => 3 | AwaitSecond _ _ _ => 2
  | AwaitSeed _ _ => 2 | AwaitBeat _ _ => 1 | Finished _ => 0
  end.

Lemma seed_eligible_left io fs : (replies_left (seed_if_eligible seed_script history machine io fs) ≤ 2)%nat.
Proof. unfold seed_if_eligible, beat. repeat case_match; simplify_eq/=; lia. Qed.

Lemma history_failure_left io fs v detail : replies_left (record_history_failure io fs v detail).2 = 1%nat.
Proof. unfold record_history_failure. by case_match. Qed.

(** Every reply brings the end of the tick closer. *)
Lemma sync_step_left io fs pc reply :
  replies_left pc ≠ 0%nat → (replies_left (sync_step seed_script history machine io fs pc reply).2 < replies_left pc)%nat.
Proof.
  intros Hpc. destruct pc as [|v|v req|v files detail|v files detail|seeded args|payload res|ok]; cbn [sync_step]; [| | | | | | |done].
  - cbn [snd]. unfold version_read. pose proof (seed_eligible_left io fs). unfold beat. repeat case_match; cbn [replies_left]; lia.
  - cbn [snd]. unfold snapshot_read. repeat case_match; cbn [replies_left]; lia.
  - unfold mirror_read. repeat case_match; rewrite ?history_failure_left; cbn [snd replies_left]; lia.
  - unfold meta_read. repeat case_match; rewrite ?history_failure_left; cbn [snd replies_left]; lia.
  - unfold second_read, beat. repeat case_match; cbn [snd replies_left]; lia.
  - unfold seed_done, beat. repeat case_match; cbn [snd replies_left]; lia.
  - cbn. lia.
Qed.

Lemma run_tick_finished fs ok replies : run_tick seed_script history machine fs (Finished ok) replies = (fs, Finished ok).
Proof. induction replies as [|[io r] rest IH]; [done|]. cbn [run_tick sync_step]. exact IH. Qed.

Lemma tick_ends replies : ∀ fs pc, (replies_left pc ≤ length replies)%nat →
  ∃ ok, (run_tick seed_script history machine fs pc replies).2 = Finished ok.
Proof.
  induction replies as [|[io r] rest IH]; intros fs pc Hl; cbn [run_tick length] in *.
  - destruct pc; cbn [replies_left] in Hl; try lia. by eexists.
  - destruct (decide (replies_left pc = 0%nat)) as [Hz|Hz].
    + destruct pc; try done. cbn [sync_step]. rewrite run_tick_finished. by eexists.
    + pose proof (sync_step_left io fs pc r Hz) as Hs.
      destruct (sync_step seed_script history machine io fs pc r) as [fs' pc']. cbn [snd] in Hs. apply IH. lia.
Qed.

(** a tick waits for at most six replies, so the blocking first pull always
    comes to a decision: with six replies its tick has run to its end and the
    result of the pull is the result of that tick.  When the deadline passes
    before the first command is issued the pull reports failure and leaves the
    directory untouched. *)
Lemma first_pull_decides cfg fs replies :
  cs_enabled cfg = true → first_pull cfg = "blocking" → (6 ≤ length replies)%nat →
  let '(fs', ok) := blocking_first_pull seed_script history machine cfg true fs replies in
  run_tick seed_script history machine fs AwaitVersion
    ((λ p : tick_io * (bool * RedisReplyData), (p.1, first_pull_reply p.2.1 p.2.2)) <$> replies) = (fs', Finished ok) ∧
  (∀ p, head replies = Some p → p.2.1 = true → fs' = fs ∧ ok = false).
Proof.
  intros He Hb Hl. unfold blocking_first_pull. rewrite He, Hb. change (beqb ("blocking" : bytes) "blocking") with true. cbn [negb orb].
  set (rs := _ <$> replies).
  destruct (tick_ends rs fs AwaitVersion) as [ok Hok]; [by unfold rs; rewrite length_fmap|].
  destruct (run_tick seed_script history machine fs AwaitVersion rs) as [fs' pc] eqn:Ht. cbn [snd] in Hok. subst pc. split; [done|].
  intros [io [expired r]] Hh Hx. cbn in Hx. subst expired. destruct replies as [|p rest]; [done|]. cbn in Hh. injection Hh as ->.
  unfold rs in Ht. cbn [fmap list_fmap run_tick fst snd first_pull_reply sync_step] in Ht.
  change (version_read seed_script history machine io fs _) with (Finished false) in Ht. rewrite run_tick_finished in Ht. by simplify_eq.
Qed.
End tick_ends.

(** ** A reply is delivered *)

(** The replies an event of [command_] stands for. *)
Definition event_replies (e : cmd_event) : list RedisReplyData :=
  match e with CbReply r => [r] | WorkerRuns => [] | CmdThrows what => [exception_reply what] end.

Definition outcome_replies (events : list timed_event) : list RedisReplyData := concat ((λ e, event_replies (ev_what e)) <$> events).

Lemma dispatch_settled fw posts us d r : settled (dispatch_command_completion fw posts us d r) ≡ₚ r :: settled d.
Proof.
  unfold dispatch_command_completion, settled, instrumented, count_in. repeat case_match; cbn [invoke queued delivered].
  - rewrite <- app_assoc. cbn [app]. by rewrite <- Permutation_middle.
  - by rewrite app_assoc, <- Permutation_cons_append.
  - rewrite <- app_assoc. cbn [app]. by rewrite <- Permutation_middle.
Qed.

Lemma worker_settled us d : settled (run_worker us d) = settled d.
Proof. unfold run_worker, settled. destruct (queued d) as [|r rest] eqn:Hq; cbn; [by rewrite Hq|]. by rewrite <- app_assoc. Qed.

Lemma run_command_quiet fw events : ∀ d, outcome_replies events = [] → settled (run_command fw d events) = settled d.
Proof.
  induction events as [|[posts us [r| |what]] rest IH]; intros d Ho; [done|done| |done].
  cbn [run_command]. rewrite IH by done. apply worker_settled.
Qed.

(** When [command_] calls back once or throws once, before the end of its call or
    after it, on workers or in place, the completion gets exactly that reply. *)
Lemma delivered_once fw m events r : outcome_replies events = [r] → settled (run_command fw (delivery0 m) events) = [r].
Proof.
  assert (∀ d, settled d = [] → callback_started d = false → outcome_replies events = [r] → settled (run_command fw d events) = [r]) as Hg.
  { induction events as [|[posts us [r'| |what]] rest IH]; intros d Hd Hs Ho; [done| | |].
    - injection Ho as -> Ho. cbn [run_command]. rewrite run_command_quiet by done.
      pose proof (dispatch_settled fw posts us d r) as Hp. rewrite Hd in Hp. by apply Permutation_singleton_r in Hp.
    - cbn [run_command]. apply IH; [by rewrite worker_settled| |done].
      unfold run_worker. destruct (queued d) eqn:Hq; [done|]. exfalso. unfold settled in Hd. rewrite Hq in Hd. by destruct (delivered d).
    - injection Ho as <- Ho. cbn [run_command]. rewrite Hs, run_command_quiet by done.
      pose proof (dispatch_settled fw posts us d (exception_reply what)) as Hp. rewrite Hd in Hp. by apply Permutation_singleton_r in Hp. }
  intros Ho. by apply Hg.
Qed.

(** The gauge of busy workers is back where it was after every job. *)
Lemma busy_balanced us d r m : metrics_ d = Some m → 0 ≤ file_worker_busy m ≤ SIZE_MAX →
  ∃ m', metrics_ (instrumented us d r) = Some m' ∧ file_worker_busy m' = file_worker_busy m.
Proof.
  intros Hm Hr. unfold instrumented, count_in. cbn [invoke metrics_]. rewrite Hm. cbn [fmap option_fmap option_map]. eexists. split; [done|].
  cbn [add_busy add_delay file_worker_busy]. unfold wrap64, SIZE_MAX in *. rewrite Zplus_mod_idemp_l.
  replace (file_worker_busy m + 1 + -1) with (file_worker_busy m) by lia. apply Z.mod_small. lia.
Qed.

(** Without workers a callback has started by the time [command_] can throw, and
    the exception is dropped; a posted callback has not, and the completion gets
    both the reply and the exception. *)
Lemma throw_after_reply m r what :
  settled (run_command false (delivery0 m) [mkEvent true 0 (CbReply r); mkEvent true 0 (CmdThrows what)]) = [r] ∧
  settled (run_command true (delivery0 m) [mkEvent true 0 (CbReply r); mkEvent true 0 (CmdThrows what)]) = [r; exception_reply what].
Proof. done. Qed.

(** ** The ticks are counted *)

(** The chain from the timer to the tick and back; a tick leaves it when its
    completion has been called. *)
Definition token (a : activity) : Z :=
  match a with
  | Start | Schedule | Arm | Wait | Expired _ | Launch | FinishTick | Notified | Posted => 1
  | Tick _ t => if finished_ t then 0 else 1
  | _ => 0
  end.

(** A tick under way. *)
Definition flight (a : activity) : Z :=
  match a with Tick _ t => if finished_ t then 0 else 1 | FinishTick => 1 | _ => 0 end.

Definition tick_ok (a : activity) : Prop := match a with Tick _ t => service_ t = negb (finished_ t) | _ => True end.

Lemma token_nonneg a : 0 ≤ token a.
Proof. destruct a; cbn; try lia. case_match; lia. Qed.

Lemma flight_token a : 0 ≤ flight a ≤ token a.
Proof. destruct a; cbn; try lia. case_match; lia. Qed.

Lemma cancel_waits_total (f : activity → Z) c l : (∀ b, f (Expired b) = f Wait) → total f (cancel_waits c l) = total f l.
Proof. intros Hf. destruct c; [|done]. apply total_fmap. intros []; cbn [cancel_wait]; by rewrite ?Hf. Qed.

Lemma cancel_waits_forall (P : activity → Prop) c l : P (Expired true) → Forall P l → Forall P (cancel_waits c l).
Proof. intros He Hl. destruct c; [|done]. apply Forall_fmap. eapply Forall_impl; [done|]. by intros []. Qed.

(** A tick's own steps: nothing is lost and [finish_tick] runs once. *)
Lemma tick_step_counts e n t acts : tick_step e n t = Some acts → tick_ok (Tick n t) →
  total flight acts = flight (Tick n t) ∧ total token acts = token (Tick n t) ∧ Forall tick_ok acts.
Proof.
  intros Hs Hok. destruct t as [fin srv]. cbn [tick_ok service_ finished_] in Hok. subst srv.
  destruct e, n as [|[|n]]; try done; destruct fin; injection Hs as <-; split_and!; try done; repeat constructor.
Qed.

Lemma activity_step_counts cfg e s a s' c acts : activity_step cfg e s a = Some (s', c, acts) → tick_ok a → flight a ≤ in_flight_ s →
  in_flight_ s' = in_flight_ s - flight a + total flight acts ∧ total token acts ≤ token a ∧ Forall tick_ok acts.
Proof.
  intros Hs Hok Hf. assert ((∃ n t, a = Tick n t) ∨ ¬ ∃ n t, a = Tick n t) as [(n & t & ->)|Hn] by (destruct a; eauto; right; by intros (? & ? & ?)).
  - assert (∃ l, tick_step e n t = Some l ∧ (s', c, acts) = (s, false, l)) as (l & Hl & Heq).
    { destruct e; cbn [activity_step] in Hs; apply bind_Some in Hs as (l & Hl & [= <- <- <-]); by exists l. }
    injection Heq as -> -> ->. destruct (tick_step_counts _ _ _ _ Hl Hok) as (-> & -> & ?). split_and!; [lia|lia|done].
  - destruct e, a; try done; try (destruct Hn; by eexists _, _); cbn [activity_step] in Hs; unfold leave_flight in Hs; repeat case_match;
      try done; injection Hs as <- <- <-; cbn [flight] in Hf;
      (split; [cbn; try lia|split; [cbn; lia|repeat constructor]]).
Qed.

Definition counted_ticks (st : Service * list activity) : Prop :=
  in_flight_ st.1 = total flight st.2 ∧ total token st.2 ≤ 1 ∧ Forall tick_ok st.2.

Lemma counted_ticks_step cfg st st' : life_step cfg st st' → counted_ticks st → counted_ticks st'.
Proof.
  intros Hstep (Hc & Ht & Hok). destruct Hstep as [e s s' l1 l2 a acts c Hs]. cbn [fst snd] in *.
  apply Forall_app in Hok as [Hok1 [Ha Hok2]%Forall_cons].
  rewrite total_app in Hc, Ht. change (total flight (a :: l2)) with (flight a + total flight l2) in Hc.
  change (total token (a :: l2)) with (token a + total token l2) in Ht.
  pose proof (total_nonneg flight l1 (λ b, proj1 (flight_token b))). pose proof (total_nonneg flight l2 (λ b, proj1 (flight_token b))).
  destruct (activity_step_counts _ _ _ _ _ _ _ Hs Ha) as (Hf & Htok & Hacts); [lia|].
  unfold counted_ticks. cbn [fst snd]. rewrite !total_app, !cancel_waits_total by done. split_and!; [lia|lia|].
  apply Forall_app. split; [by apply cancel_waits_forall|]. apply Forall_app. split; [done|by apply cancel_waits_forall].
Qed.

(** Nothing here can start a tick once [running_] is false. *)
Definition past_launch (a : activity) : Prop := a ≠ Start ∧ a ≠ Launch.

Definition quiet (st : Service * list activity) : Prop :=
  running_ st.1 = false ∧ in_flight_ st.1 = 0 ∧ Forall (λ a, past_launch a ∧ flight a = 0) st.2.

Lemma past_launch_activities acts : Forall (λ a, past_launch a ∧ flight a = 0) acts ↔
  forallb (λ a, match a with Start | Launch | FinishTick => false | Tick _ t => finished_ t | _ => true end) acts = true.
Proof.
  rewrite forallb_forall, Forall_forall. split; intros Hq a Ha.
  - apply list_elem_of_In, Hq in Ha as [[? ?] Hf]. destruct a; try done. cbn in Hf. by case_match.
  - apply list_elem_of_In, Hq in Ha. split; [by destruct a|]. destruct a; try done. cbn. by rewrite Ha.
Qed.

Lemma quiet_step cfg st st' : life_step cfg st st' → counted_ticks st → quiet st → quiet st'.
Proof.
  intros Hstep Hc (Hr & Hz & Hq). destruct Hstep as [e s s' l1 l2 a acts c Hs]. cbn [fst snd] in *.
  apply Forall_app in Hq as [Hq1 [[[Hns Hnl] Hf] Hq2]%Forall_cons].
  assert (running_ s' = false ∧ Forall (λ a, past_launch a ∧ flight a = 0) acts) as [Hr' Hacts].
  { rewrite past_launch_activities. destruct e, a as [| | | | | |n [[] srv]| | | | | | | | |]; try done; cbn [activity_step] in Hs;
      try (destruct n as [|[|n]]; [done|by injection Hs as <- <- <-..]);
      rewrite ?Hr in Hs; repeat case_match; try done; injection Hs as <- <- <-; try done; by rewrite orb_true_r in *. }
  assert (in_flight_ s' = 0) as Hz'.
  { pose proof (counted_ticks_step cfg _ _ (life_move cfg e s s' l1 l2 a acts c Hs) Hc) as (Hc' & _). cbn [fst snd] in Hc'.
    assert (∀ l, Forall (λ a, past_launch a ∧ flight a = 0) l → total flight l = 0) as Hl.
    { intros l Hl. apply total_zero. intros b Hb. by destruct (proj1 (Forall_forall _ _) Hl b Hb). }
    rewrite Hc', !total_app, !cancel_waits_total, !Hl by done. done. }
  split; [done|]. split; [done|]. cbn [snd].
  apply Forall_app. split; [by apply cancel_waits_forall|]. apply Forall_app. split; [done|by apply cancel_waits_forall].
Qed.

(** What runs when the service starts: [start] once, and calls of [stop] and of
    [io_context::stop] at any time. *)
Definition initial_activities (l : list activity) : Prop := ∃ rest, l = Start :: rest ∧ Forall (λ a, a = StopStore ∨ a = IocStop) rest.

Lemma initial_counted l : initial_activities l → counted_ticks (service0, l).
Proof.
  intros (rest & -> & Hr). rewrite Forall_forall in Hr.
  assert (total flight rest = 0 ∧ total token rest = 0) as [Hf Ht].
  { split; apply total_zero; intros p Hp; by destruct (Hr p Hp) as [-> | ->]. }
  unfold counted_ticks. cbn [fst snd]. change (total flight (Start :: rest)) with (0 + total flight rest).
  change (total token (Start :: rest)) with (1 + total token rest). rewrite Hf, Ht. split_and!; [done|lia|].
  constructor; [done|]. apply Forall_forall. intros p Hp. by destruct (Hr p Hp) as [-> | ->].
Qed.

(** C19: in every interleaving of the timer, the ticks, calls of [stop] and the end
    of the [io_context], [in_flight_] is the number of ticks whose completion has
    not yet run, and that is at most one: ticks never overlap, however often the
    completion of a tick is copied and called, and also when every copy is
    destroyed without a call.  Once [running_] is false, no handler is between its
    check and [launch_tick], and [in_flight_] is zero (what [stop] waits for), it
    is zero for ever and no tick runs. *)
Theorem sync_ticks_counted cfg l s acts :
  initial_activities l → rtc (life_step cfg) (service0, l) (s, acts) →
  in_flight_ s = total flight acts ∧ 0 ≤ in_flight_ s ≤ 1 ∧
  (running_ s = false → in_flight_ s = 0 → Forall past_launch acts →
   ∀ s' acts', rtc (life_step cfg) (s, acts) (s', acts') → in_flight_ s' = 0 ∧ Forall (λ a, flight a = 0) acts').
Proof.
  intros Hi Hrun. assert (∀ st st', rtc (life_step cfg) st st' → counted_ticks st → counted_ticks st') as Hinv.
  { induction 1; [done|]. intros ?. by eauto using counted_ticks_step. }
  pose proof (Hinv _ _ Hrun (initial_counted _ Hi)) as Hc. destruct (Hc) as (Heq & Ht & _). cbn [fst snd] in *.
  pose proof (total_nonneg flight acts (λ b, proj1 (flight_token b))).
  pose proof (total_mono flight token acts (λ p _, proj2 (flight_token p))).
  split; [done|]. split; [lia|]. intros Hr Hz Hp.
  assert (quiet (s, acts)) as Hq.
  { split_and!; [done|done|]. cbn [snd]. apply Forall_and. split; [done|]. apply Forall_forall. intros a (i & Ha)%list_elem_of_lookup.
    pose proof (total_one flight acts i a (λ b, proj1 (flight_token b)) Ha). pose proof (flight_token a). lia. }
  intros s' acts' Hlater. cut (quiet (s', acts')).
  { intros (_ & ? & Hq'). split; [done|]. eapply Forall_impl; [done|]. by intros ? []. }
  clear -Hlater Hc Hq. remember (s, acts) as st eqn:E1. remember (s', acts') as st' eqn:E2. clear E1 E2.
  induction Hlater as [|x y z Hxy _ IH]; [done|]. apply IH; [by eapply counted_ticks_step|by eapply quiet_step].
Qed.

(** ** The race of stop and the timer's handler *)

Definition enabled_sync : ConfigSyncConfig :=
  mkSync true 5 [] "async" 3000 (mkAdmin [] [] [] 60 false) (mkHistory "compat" true 1 1 1 1 1 1 1 1 1 1 1 1 1 1 1).

(** Moves by position, for concrete runs. *)
Definition move (cfg : ConfigSyncConfig) (st : Service * list activity) (m : event * nat) : option (Service * list activity) :=
  a ← st.2 !! m.2; r ← activity_step cfg m.1 st.1 a;
  Some (r.1.1, cancel_waits r.1.2 (take m.2 st.2) ++ r.2 ++ cancel_waits r.1.2 (drop (S m.2) st.2)).

Definition moves (cfg : ConfigSyncConfig) (ms : list (event * nat)) (st : Service * list activity) : option (Service * list activity) :=
  foldl (λ o m, o ≫= λ st, move cfg st m) (Some st) ms.

Lemma move_step cfg st m st' : move cfg st m = Some st' → life_step cfg st st'.
Proof.
  unfold move. intros (a & Ha & [[[s' c] acts] [Hr [= <-]]]%bind_Some)%bind_Some. cbn [fst snd].
  destruct st as [s l]. cbn [fst snd] in *. rewrite <- (take_drop_middle _ _ _ Ha) at 1. by apply (life_move cfg m.1).
Qed.

Lemma moves_run cfg ms st st' : moves cfg ms st = Some st' → rtc (life_step cfg) st st'.
Proof.
  revert st'. induction ms as [|m ms IH] using rev_ind; intros st'; unfold moves.
  - intros [= <-]. done.
  - rewrite foldl_app. cbn [foldl]. intros (st1 & H1 & H2)%bind_Some. eapply rtc_r; [by apply IH|by eapply move_step].
Qed.

(** [stop] takes [in_flight_] for zero while the timer's handler is between its
    check of [running_] and [launch_tick]: it returns as drained, and a tick
    starts after it. *)
Lemma stop_misses_launch : ∃ s acts, rtc (life_step enabled_sync) (service0, [Start; StopStore]) (s, acts) ∧
  StopDone Drained ∈ acts ∧ Tick 1 tick_completion ∈ acts ∧ in_flight_ s = 1.
Proof.
  eexists _, _. split.
  - apply (moves_run _ [(Go, 0%nat); (Go, 0%nat); (Go, 0%nat); (Go, 0%nat); (Go, 0%nat); (Go, 1%nat); (Go, 1%nat); (Go, 1%nat); (Go, 1%nat); (Go, 0%nat)]).
    vm_compute. reflexivity.
  - split_and!; [set_solver|set_solver|done].
Qed.

(** A tick, its completion copied, called and dropped, then [stop], which finds
    nothing in flight. *)
Definition sample_moves : list (event * nat) :=
  [(Go, 0%nat); (Go, 0%nat); (Go, 0%nat); (Go, 0%nat); (Go, 0%nat); (Go, 0%nat); (Copy, 0%nat); (Call, 0%nat); (Go, 1%nat); (Drop, 0%nat);
   (Call, 0%nat); (Drop, 0%nat); (Go, 1%nat); (Go, 0%nat); (Go, 0%nat); (Go, 0%nat); (Go, 0%nat)].

Definition sample_end : Service * list activity := (mkService false 0 false, [StopDone Drained]).

Lemma sync_ticks_counted_witness : moves enabled_sync sample_moves (service0, [Start; StopStore]) = Some sample_end ∧
  in_flight_ sample_end.1 = total flight sample_end.2.
Proof.
  assert (moves enabled_sync sample_moves (service0, [Start; StopStore]) = Some sample_end) as Hm by (vm_compute; reflexivity).
  split; [exact Hm|].
  refine (proj1 (sync_ticks_counted enabled_sync [Start; StopStore] sample_end.1 sample_end.2 _ _)).
  - exists [StopStore]. split; [reflexivity|]. constructor; [by left|constructor].
  - exact (moves_run enabled_sync _ _ _ Hm).
Defined.

Definition blocking_sync : ConfigSyncConfig := mkSync true 5 [] "blocking" 3000 (mkAdmin [] [] [] 60 false) HistorySample.limits.

(** The replies of a tick that applies version 3, in time. *)
Definition pull_replies : list (tick_io * (bool * RedisReplyData)) :=
  (λ p : tick_io * RedisReplyData, (p.1, (false, p.2))) <$> SyncSample.replies 3 SyncSample.remote ++ [(SyncSample.tick, reply_data0)].

Abbreviation sample_pull := (@blocking_first_pull Sample.ssl [] HistorySample.limits [] blocking_sync true SyncSample.fs0 pull_replies).

Lemma first_pull_decides_witness : sample_pull.2 = true ∧
  ∃ fs', SyncSample.run SyncSample.fs0 AwaitVersion
    ((λ p : tick_io * (bool * RedisReplyData), (p.1, first_pull_reply p.2.1 p.2.2)) <$> pull_replies) = (fs', Finished sample_pull.2).
Proof.
  split; [vm_compute; reflexivity|].
  pose proof (@first_pull_decides Sample.ssl [] HistorySample.limits [] blocking_sync SyncSample.fs0 pull_replies eq_refl eq_refl) as Hd.
  specialize (Hd ltac:(vm_compute; lia)). destruct sample_pull as [fs' ok]. exists fs'. exact (proj1 Hd).
Defined.
