(* ===== verification/AppLifecycle.v ===== *)
(** * The application: start-up and shutdown

    application.cpp: the configuration and the number of threads [run] starts
    with, and the end of the process as an interleaved machine of the threads in
    [run_io_context], the handlers that call [request_stop] or throw, and the
    coroutine that waits for the sessions to drain.  A step is one access to a
    shared member, or a call that may throw.  The waiting itself is
    [wait_for_drain] of Lifecycle; here it ends sooner or later, drained or not.
    The wiring of the components in [initialize] and the releases of [cleanup]
    are not modelled. *)

From S2P Require Import Prelude Config Response AppConfig Lifecycle SyncLifecycle.
Open Scope Z_scope.

(** ** Start-up *)

Inductive startup := LoadFailed | StartThrows | StartWith (cfg : Config) (app : AppConfig).

Definition with_config (cfg : Config) (app : outcome AppConfig) : startup :=
  match app with Ret a => StartWith cfg a | _ => StartThrows end.

(** The configuration of [run]: [loaded] and [reloaded] are the two loads of the
    files, [pull] the result of the blocking first pull. *)
Definition startup_config (loaded : option Config) (pull : AppConfig → bool) (reloaded : option Config) : startup :=
  match loaded with
  | None => LoadFailed
  | Some cfg =>
      match app_config_from cfg with
      | Ret app =>
          if pull app && (cs_enabled (config_sync app) && beqb (first_pull (config_sync app)) "blocking") then
            match reloaded with
            | Some cfg' => with_config cfg' (app_config_from cfg')
            | None => StartWith cfg app
            end
          else StartWith cfg app
      | _ => StartThrows
      end
  end.

(** [effective_io_threads_] from [hardware_concurrency()] and the configuration;
    both are [unsigned int]. *)
Definition effective_io_threads (hardware configured : Z) : Z :=
  let hw := if hardware =? 0 then 4 else hardware in
  if negb (configured =? 0) then configured mod 2 ^ 32 else Z.min hw 16.

(** ** Shutdown *)

(** Who called [request_stop]: a handler run by the [io_context], or
    [stop_after_handler_exception], with its [already_stopping]. *)
Inductive caller := InHandler | InCatch (already_stopping : bool).

(** A thread of [run_io_context], by what it does next. *)
Inductive io_pc :=
| RunIoc                      (* in ioc_.run() *)
| StoreFatal                  (* an exception escaped: stop_after_handler_exception *)
| LoadStopping
| Exchange (c : caller)       (* request_stop *)
| BeginDraining (c : caller)
| StoreDraining (c : caller)
| ServerStop (c : caller)
| SpawnDrain (c : caller)
| ForceMark (c : caller)      (* its catch block *)
| ForceStop (c : caller)
| StopIoc                     (* ioc_.stop() of stop_after_handler_exception *)
| Exited.

#[export] Instance caller_eq_dec : EqDecision caller.
Proof. solve_decision. Defined.
#[export] Instance io_pc_eq_dec : EqDecision io_pc.
Proof. solve_decision. Defined.

(** The coroutine [request_stop] spawns. *)
Inductive drain_pc := NoDrain | DrainWait | DrainMark | DrainStop | DrainDone.

(** The members of the application; [thrown] counts the exceptions that escaped
    from [ioc_.run()]. *)
Record App := mkState {
  route_runtime : RouteRuntime;
  stop_requested : bool;
  fatal_handler_exception : bool;
  draining_state : bool;
  ioc_ended : bool;
  drain : drain_pc;
  thrown : nat
}.

Definition app0 : App := mkState (mkRuntime lifecycle0 (Some coordinator0)) false false false false NoDrain 0.

Definition set_runtime (r : RouteRuntime) (s : App) : App :=
  mkState r (stop_requested s) (fatal_handler_exception s) (draining_state s) (ioc_ended s) (drain s) (thrown s).
Definition set_requested (s : App) : App :=
  mkState (route_runtime s) true (fatal_handler_exception s) (draining_state s) (ioc_ended s) (drain s) (thrown s).
Definition set_fatal (s : App) : App :=
  mkState (route_runtime s) (stop_requested s) true (draining_state s) (ioc_ended s) (drain s) (thrown s).
Definition set_draining (s : App) : App :=
  mkState (route_runtime s) (stop_requested s) (fatal_handler_exception s) true (ioc_ended s) (drain s) (thrown s).
Definition stop_ioc (s : App) : App :=
  mkState (route_runtime s) (stop_requested s) (fatal_handler_exception s) (draining_state s) true (drain s) (thrown s).
Definition set_drain (d : drain_pc) (s : App) : App :=
  mkState (route_runtime s) (stop_requested s) (fatal_handler_exception s) (draining_state s) (ioc_ended s) d (thrown s).
Definition count_thrown (s : App) : App :=
  mkState (route_runtime s) (stop_requested s) (fatal_handler_exception s) (draining_state s) (ioc_ended s) (drain s) (S (thrown s)).

(** [request_stop] returns, or throws: out of a handler into [run_io_context],
    or into the catch block of [stop_after_handler_exception]. *)
Definition return_to (c : caller) : io_pc := match c with InCatch true => StopIoc | _ => RunIoc end.
Definition raise_to (c : caller) (s : App) : App * io_pc :=
  match c with InHandler => (count_thrown s, StoreFatal) | InCatch _ => (s, StopIoc) end.

(** What a thread does: its next access, a handler that asks for the stop (the
    signal, the failed accept loop), or a throw. *)
Inductive io_event := Step | AskStop | Throws.

Definition io_step (e : io_event) (s : App) (p : io_pc) : option (App * io_pc) :=
  match e, p with
  | Step, RunIoc => if ioc_ended s then Some (s, Exited) else None
  | AskStop, RunIoc => Some (s, Exchange InHandler)
  | Throws, RunIoc => Some (count_thrown s, StoreFatal)
  | Step, StoreFatal => Some (set_fatal s, LoadStopping)
  | Step, LoadStopping => Some (s, Exchange (InCatch (stop_requested s)))
  | Step, Exchange c => if stop_requested s then Some (s, return_to c) else Some (set_requested s, BeginDraining c)
  | Step, BeginDraining c =>
      let '(began, r) := runtime_begin_draining (route_runtime s) in
      Some (set_runtime r s, if began then StoreDraining c else return_to c)
  | Step, StoreDraining c => Some (set_draining s, ServerStop c)
  | Step, ServerStop c => Some (s, SpawnDrain c)
  | Throws, ServerStop c => Some (raise_to c s)
  | Step, SpawnDrain c => Some (set_drain DrainWait s, return_to c)
  | Throws, SpawnDrain c => Some (s, ForceMark c)
  | Step, ForceMark c => Some (set_runtime (runtime_mark_stopped (route_runtime s)) s, ForceStop c)
  | Step, ForceStop c => Some (stop_ioc s, return_to c)
  | Step, StopIoc => Some (stop_ioc s, RunIoc)
  | _, _ => None
  end.

(** The coroutine is resumed from its wait only while the [io_context] runs. *)
Definition drain_step (s : App) : option App :=
  match drain s with
  | DrainWait => if ioc_ended s then None else Some (set_drain DrainMark s)
  | DrainMark => Some (set_drain DrainStop (set_runtime (runtime_mark_stopped (route_runtime s)) s))
  | DrainStop => Some (set_drain DrainDone (stop_ioc s))
  | NoDrain | DrainDone => None
  end.

Inductive app_step : App * list io_pc → App * list io_pc → Prop :=
| app_thread e s ts i p s' p' : ts !! i = Some p → io_step e s p = Some (s', p') → app_step (s, ts) (s', <[i := p']> ts)
| app_drain s ts s' : drain_step s = Some s' → app_step (s, ts) (s', ts).

(** The result of [run] once the threads have been joined. *)
Definition exit_code (s : App) : Z := if fatal_handler_exception s then 1 else 0.

(** ** The shutdown is carried out *)

(** How far a thread is from [ioc_.stop()], once the stop has been requested; 0
    for a thread that does not lead there. *)
Definition urgency (p : io_pc) : Z :=
  match p with
  | BeginDraining _ => 9 | StoreDraining _ => 8 | ServerStop _ => 7 | SpawnDrain _ => 6
  | StoreFatal => 4 | LoadStopping => 3 | Exchange (InCatch true) => 2 | ForceMark _ => 2 | ForceStop _ => 1 | StopIoc => 1
  | Exchange _ | RunIoc | Exited => 0
  end.

Definition drain_left (d : drain_pc) : Z := match d with DrainWait => 3 | DrainMark => 2 | DrainStop => 1 | NoDrain | DrainDone => 0 end.

(** A thread or the coroutine at distance [n] from [ioc_.stop()]. *)
Definition carrier (st : App * list io_pc) (n : Z) : Prop :=
  0 < n ∧ ((∃ i p, st.2 !! i = Some p ∧ urgency p = n) ∨ drain_left (drain st.1) = n).

(** The thread whose exchange came first, and whether it is about to begin the
    draining. *)
Definition winner (p : io_pc) : Z :=
  match p with
  | BeginDraining _ | StoreDraining _ | ServerStop _ | SpawnDrain _ | ForceMark _ | ForceStop _ => 1
  | _ => 0
  end.
Definition beginning (p : io_pc) : Z := match p with BeginDraining _ => 1 | _ => 0 end.
Definition drain_spawned (s : App) : Z := match drain s with NoDrain => 0 | _ => 1 end.
Definition storing (p : io_pc) : Z := match p with StoreFatal => 1 | _ => 0 end.
Definition app_phase (s : App) : Phase := rl_phase (rt_lifecycle (route_runtime s)).

Record app_inv (st : App * list io_pc) : Prop := {
  ai_winner : total winner st.2 + drain_spawned st.1 ≤ Z.b2z (stop_requested st.1);
  ai_phase : stop_requested st.1 = false ∨ 0 < total beginning st.2 → app_phase st.1 = Running;
  ai_carried : stop_requested st.1 = true → ioc_ended st.1 = true ∨ ∃ n, carrier st n;
  ai_exited : Exited ∈ st.2 → ioc_ended st.1 = true;
  ai_thrown : if fatal_handler_exception st.1 then (0 < thrown st.1)%nat else Z.of_nat (thrown st.1) = total storing st.2
}.

Lemma winner_nonneg p : 0 ≤ winner p. Proof. by destruct p. Qed.
Lemma beginning_winner p : 0 ≤ beginning p ≤ winner p. Proof. by destruct p. Qed.
Lemma storing_nonneg p : 0 ≤ storing p. Proof. by destruct p. Qed.
Lemma urgency_range p : 0 ≤ urgency p ≤ 9. Proof. destruct p as [| | |[|[]]| | | | | | | |]; cbn; lia. Qed.

Ltac io_cases Hs :=
  match type of Hs with io_step ?e ?s ?p = _ =>
    destruct e, p as [| | |[|[]]|[|[]]|[|[]]|[|[]]|[|[]]|[|[]]|[|[]]| |]; try done; cbn [io_step] in Hs;
    repeat case_match; try done; injection Hs as <- <- end.

(** What a step does to the members that are only ever set. *)
Lemma io_step_monotone e s p s' p' : io_step e s p = Some (s', p') →
  (stop_requested s = true → stop_requested s' = true) ∧ (ioc_ended s = true → ioc_ended s' = true) ∧
  (drain s' = drain s ∨ winner p = 1 ∧ drain s' = DrainWait) ∧ (p' = Exited → ioc_ended s = true) ∧ p ≠ Exited.
Proof. intros Hs. io_cases Hs; split_and!; try done; first [by left|by right]. Qed.

Lemma io_step_winner e s p s' p' : io_step e s p = Some (s', p') → winner p + drain_spawned s ≤ 1 →
  winner p' + drain_spawned s' + Z.b2z (stop_requested s) ≤ winner p + drain_spawned s + Z.b2z (stop_requested s').
Proof.
  intros Hs Hw. io_cases Hs; cbn [winner] in *; unfold drain_spawned in *; cbn in *;
    repeat match goal with H : stop_requested _ = _ |- _ => rewrite H end; destruct (drain s); cbn; lia.
Qed.

Lemma io_step_phase e s p s' p' : io_step e s p = Some (s', p') →
  (app_phase s' = app_phase s ∨ winner p = 1 ∧ beginning p' = 0) ∧ (0 < beginning p' → stop_requested s = false).
Proof. intros Hs. io_cases Hs; (split; [first [by left|by right]|done]). Qed.

Lemma io_step_thrown e s p s' p' : io_step e s p = Some (s', p') →
  if fatal_handler_exception s' then (if fatal_handler_exception s then (thrown s ≤ thrown s')%nat else storing p = 1 ∧ thrown s' = thrown s)
  else fatal_handler_exception s = false ∧ Z.of_nat (thrown s') - Z.of_nat (thrown s) = storing p' - storing p.
Proof. intros Hs. io_cases Hs; cbn in *; try split; first [done|congruence|lia]. Qed.

(** A thread that leads to the stop gets closer, hands over to the coroutine, or
    is there. *)
Lemma io_step_carrier e s p s' p' : io_step e s p = Some (s', p') → stop_requested s = true → 0 < urgency p →
  (0 < beginning p → app_phase s = Running) →
  ioc_ended s' = true ∨ 0 < urgency p' < urgency p ∨ 0 < drain_left (drain s') < urgency p.
Proof.
  intros Hs Hr Hu Hb. assert (∀ r, runtime_begin_draining (route_runtime s) = (false, r) → app_phase s = Running → False) as Hd.
  { intros r Hd Hp. pose proof (runtime_draining (route_runtime s)) as Ht. rewrite Hd in Ht. destruct Ht as [Ht _].
    unfold app_phase in Hp. by rewrite Hp in Ht. }
  io_cases Hs; cbn in *; try rewrite Hr; cbn; try lia; try (by left); try (exfalso; by eauto with lia); try congruence.
Qed.

Lemma io_step_enabled s p : 0 < urgency p → ∃ r, io_step Step s p = Some r.
Proof.
  intros Hu. destruct p as [| | |[|[]]|[|[]]|[|[]]|[|[]]|[|[]]|[|[]]|[|[]]| |]; try done; cbn; repeat case_match; by eexists.
Qed.

Section invariant.
Context (e : io_event) (s s' : App) (ts : list io_pc) (i : nat) (p p' : io_pc).
Hypothesis Hi : ts !! i = Some p.
Hypothesis Hs : io_step e s p = Some (s', p').
Hypothesis Hinv : app_inv (s, ts).

Lemma others_not_winning : winner p = 1 → total beginning ts = beginning p ∧ stop_requested s = true.
Proof using Hi Hinv.
  intros Hw. pose proof (ai_winner _ Hinv) as Ht. cbn [fst snd] in Ht.
  pose proof (total_insert winner ts i p RunIoc Hi). pose proof (total_insert beginning ts i p RunIoc Hi).
  pose proof (total_mono beginning winner (<[i := RunIoc]> ts) (λ q _, proj2 (beginning_winner q))).
  pose proof (total_nonneg beginning (<[i := RunIoc]> ts) (λ q, proj1 (beginning_winner q))).
  assert (0 ≤ drain_spawned s) by (unfold drain_spawned; case_match; lia).
  cbn [winner beginning] in *. destruct (stop_requested s); cbn in Ht; [split; [lia|done]|exfalso].
  pose proof (total_one winner ts i p winner_nonneg Hi). lia.
Qed.

Lemma thread_winner : total winner (<[i := p']> ts) + drain_spawned s' ≤ Z.b2z (stop_requested s').
Proof using Hi Hs Hinv.
  pose proof (ai_winner _ Hinv) as Ht. cbn [fst snd] in Ht. pose proof (total_one winner ts i p winner_nonneg Hi).
  assert (Z.b2z (stop_requested s) ≤ 1) by (by destruct (stop_requested s)).
  pose proof (io_step_winner _ _ _ _ _ Hs ltac:(lia)). rewrite (total_insert _ _ _ _ _ Hi). lia.
Qed.

Lemma thread_phase : stop_requested s' = false ∨ 0 < total beginning (<[i := p']> ts) → app_phase s' = Running.
Proof using Hi Hs Hinv.
  intros Hc. destruct (io_step_phase _ _ _ _ _ Hs) as [Hp Hb]. destruct (io_step_monotone _ _ _ _ _ Hs) as [Hm _].
  rewrite (total_insert _ _ _ _ _ Hi) in Hc. destruct Hp as [-> | [Hw Hz]].
  - apply (ai_phase _ Hinv). cbn [fst snd]. destruct Hc as [Hc|Hc].
    + left. destruct (stop_requested s); [by rewrite Hm in Hc|done].
    + destruct (decide (0 < beginning p')); [left; by apply Hb|right]. pose proof (beginning_winner p). pose proof (beginning_winner p'). lia.
  - exfalso. destruct (others_not_winning Hw) as [Ho Hr]. destruct Hc as [Hc|Hc]; [by rewrite Hm in Hc|lia].
Qed.

(** A carrier other than the thread that moves stays where it is; the thread that
    moves leads on. *)
Lemma thread_carrier n : stop_requested s = true → carrier (s, ts) n →
  ioc_ended s' = true ∨ ∃ m, carrier (s', <[i := p']> ts) m.
Proof using Hi Hs Hinv.
  intros Hr (Hn & [(j & q & Hj & Hq)|Hd]); cbn [fst snd] in *.
  - destruct (decide (j = i)) as [->|Hne].
    + rewrite Hi in Hj. injection Hj as <-.
      destruct (io_step_carrier _ _ _ _ _ Hs Hr) as [?|[Hu|Hu]]; [lia| | by left| |].
      * intros Hb. apply (ai_phase _ Hinv). right. cbn [snd]. pose proof (total_one beginning ts i p (λ q, proj1 (beginning_winner q)) Hi). lia.
      * right. exists (urgency p'). split; [lia|]. left. exists i, p'. split; [|done]. cbn [snd].
        apply list_lookup_insert_eq. by eapply lookup_lt_Some.
      * right. exists (drain_left (drain s')). split; [lia|by right].
    + right. exists n. split; [done|]. left. exists j, q. cbn [snd]. by rewrite list_lookup_insert_ne.
  - right. destruct (io_step_monotone _ _ _ _ _ Hs) as (_ & _ & [He|[_ He]] & _).
    + exists n. split; [done|]. right. cbn [fst]. by rewrite He.
    + exists 3. split; [lia|]. right. cbn [fst]. by rewrite He.
Qed.

Lemma thread_inv : app_inv (s', <[i := p']> ts).
Proof using Hi Hs Hinv.
  destruct (io_step_monotone _ _ _ _ _ Hs) as (Hm & Hio & _ & Hx & Hnx). split; cbn [fst snd].
  - exact thread_winner.
  - exact thread_phase.
  - intros Hr. destruct (stop_requested s) eqn:Hr0.
    + destruct (ai_carried _ Hinv Hr0) as [He|[n Hn]]; [left; by apply Hio|by apply (thread_carrier n)].
    + right. exists 9. split; [lia|]. left. exists i, p'. cbn [snd]. rewrite list_lookup_insert_eq by by eapply lookup_lt_Some.
      split; [done|]. clear Hm Hio Hx Hnx. io_cases Hs; cbn in Hr; first [done|congruence].
  - intros (j & Hj)%list_elem_of_lookup. destruct (decide (j = i)) as [->|Hne].
    + rewrite list_lookup_insert_eq in Hj by by eapply lookup_lt_Some. injection Hj as ->. auto.
    + rewrite list_lookup_insert_ne in Hj by done. apply Hio, (ai_exited _ Hinv). cbn [snd]. by eapply list_elem_of_lookup_2.
  - pose proof (io_step_thrown _ _ _ _ _ Hs) as Ht. pose proof (ai_thrown _ Hinv) as Ho. cbn [fst snd] in Ho.
    rewrite (total_insert _ _ _ _ _ Hi). pose proof (total_one storing ts i p storing_nonneg Hi).
    destruct (fatal_handler_exception s'), (fatal_handler_exception s); lia.
Qed.
End invariant.

Lemma drain_inv s s' ts : drain_step s = Some s' → app_inv (s, ts) → app_inv (s', ts).
Proof.
  intros Hd Hinv. pose proof (ai_winner _ Hinv) as Hw. cbn [fst snd] in Hw.
  assert (drain_spawned s = 1 ∧ drain_spawned s' = 1 ∧ stop_requested s' = stop_requested s ∧ fatal_handler_exception s' = fatal_handler_exception s ∧
    thrown s' = thrown s ∧ (ioc_ended s = true → ioc_ended s' = true) ∧ (ioc_ended s' = true ∨ 0 < drain_left (drain s') < drain_left (drain s)))
    as (H1 & H2 & Hr & Hf & Ht & Hio & Hc).
  { unfold drain_step in Hd. unfold drain_spawned. destruct (drain s) eqn:E; try done; [case_match; [done|]|..]; injection Hd as <-; rewrite ?E; cbn;
      (split_and!; [done..|auto with lia]). }
  pose proof (total_nonneg winner ts winner_nonneg).
  pose proof (total_mono beginning winner ts (λ q _, proj2 (beginning_winner q))).
  assert (stop_requested s = true) as Hreq by (destruct (stop_requested s); [done|cbn in Hw; lia]).
  split; cbn [fst snd]; rewrite ?Hr, ?Hf, ?Ht.
  - lia.
  - intros [Hc'|Hc']; [congruence|]. rewrite Hreq in Hw. cbn in Hw. lia.
  - intros _. destruct Hc as [?|Hc]; [by left|]. right. exists (drain_left (drain s')). split; [lia|by right].
  - intros Hx. apply Hio, (ai_exited _ Hinv Hx).
  - exact (ai_thrown _ Hinv).
Qed.

Lemma app_step_inv st st' : app_step st st' → app_inv st → app_inv st'.
Proof. destruct 1 as [e s ts i p s' p' Hi Hs|s ts s' Hd]; intros Hinv; [by eapply thread_inv|by eapply drain_inv]. Qed.

Lemma app_start_inv n : app_inv (app0, replicate n RunIoc).
Proof.
  assert (∀ f, f RunIoc = 0 → total f (replicate n RunIoc) = 0) as Ht.
  { intros f Hf. apply total_zero. intros q Hq. by apply elem_of_replicate in Hq as [-> _]. }
  split; cbn [fst snd]; rewrite ?Ht by done; try done. intros [? _]%elem_of_replicate. done.
Qed.

(** *** Without further events

    Steps of what is already under way: no handler throws or asks for the stop
    anew; a call of [request_stop] that is under way may still fail. *)
Inductive settle_step : App * list io_pc → App * list io_pc → Prop :=
| settle_thread e s ts i p s' p' : ts !! i = Some p → io_step e s p = Some (s', p') → (p = RunIoc → e = Step) →
    settle_step (s, ts) (s', <[i := p']> ts)
| settle_drain s ts s' : drain_step s = Some s' → settle_step (s, ts) (s', ts).

Lemma settle_app st st' : settle_step st st' → app_step st st'.
Proof. destruct 1; [by eapply app_thread|by apply app_drain]. Qed.

(** The steps a thread can still take once the stop has been requested, with those
    of the coroutine it may spawn. *)
Definition steps_left (p : io_pc) : Z :=
  match p with
  | BeginDraining _ => 9 | StoreDraining _ => 8 | ServerStop _ => 7 | SpawnDrain _ => 6
  | StoreFatal => 5 | LoadStopping => 4 | ForceMark _ => 4 | Exchange _ => 3 | ForceStop _ => 3 | StopIoc => 2 | RunIoc => 1 | Exited => 0
  end.

Definition measure (st : App * list io_pc) : Z := total steps_left st.2 + drain_left (drain st.1).

Lemma steps_left_range p : 0 ≤ steps_left p ≤ 9. Proof. by destruct p. Qed.
Lemma drain_left_range d : 0 ≤ drain_left d ≤ 3. Proof. by destruct d. Qed.

Lemma io_step_left e s p s' p' : io_step e s p = Some (s', p') → stop_requested s = true → (p = RunIoc → e = Step) →
  steps_left p' + drain_left (drain s') < steps_left p + drain_left (drain s).
Proof.
  intros Hs Hr He. pose proof (drain_left_range (drain s)).
  io_cases Hs; cbn in *; try congruence; try lia; by specialize (He eq_refl).
Qed.

Lemma settle_decreases st st' : settle_step st st' → stop_requested st.1 = true →
  stop_requested st'.1 = true ∧ 0 ≤ measure st' < measure st.
Proof.
  intros Hs Hr. unfold measure. pose proof (total_nonneg steps_left st'.2 (λ q, proj1 (steps_left_range q))).
  pose proof (drain_left_range (drain st'.1)). destruct Hs as [e s ts i p s' p' Hi Hs He|s ts s' Hd]; cbn [fst snd] in *.
  - split; [by apply (io_step_monotone _ _ _ _ _ Hs)|]. rewrite (total_insert _ _ _ _ _ Hi) in *.
    pose proof (io_step_left _ _ _ _ _ Hs Hr He). lia.
  - unfold drain_step in Hd. destruct (drain s); try done; [case_match; [done|]|..]; injection Hd as <-; cbn in *; (split; [done|lia]).
Qed.

Lemma settle_bounded k : ∀ st st', nsteps settle_step k st st' → stop_requested st.1 = true → Z.of_nat k + measure st' ≤ measure st.
Proof.
  induction k as [|k IH]; intros st st' Hrun Hr; inversion Hrun as [|? ? st1 ? Hs Hrest]; subst; [lia|].
  destruct (settle_decreases _ _ Hs Hr) as [Hr1 Hm]. pose proof (IH _ _ Hrest Hr1). lia.
Qed.

(** As long as a thread has not left, something under way can go on: a thread, or
    the coroutine, which is then waiting for the sessions or about to stop the
    [io_context]. *)
Lemma settle_progress s ts : app_inv (s, ts) → stop_requested s = true → ¬ Forall (λ p, p = Exited) ts → ∃ st', settle_step (s, ts) st'.
Proof.
  intros Hinv Hr Hx.
  assert (∀ i p, ts !! i = Some p → p ≠ Exited → (p = RunIoc → ioc_ended s = true) → ∃ st', settle_step (s, ts) st') as Hgo.
  { intros i p Hi Hp Hrun. assert (∃ r, io_step Step s p = Some r) as [[s' p'] Hs].
    { destruct p; try done; cbn; repeat case_match; try by eexists. by specialize (Hrun eq_refl). }
    eexists. by eapply settle_thread. }
  destruct (ioc_ended s) eqn:He.
  - apply not_Forall_Exists in Hx; [|intros p; apply _]. apply Exists_exists in Hx as (p & [i Hi]%list_elem_of_lookup & Hp). by eapply Hgo.
  - destruct (ai_carried _ Hinv Hr) as [Hc|(n & Hn & [(i & p & Hi & Hu)|Hd])]; [cbn in Hc; congruence| |]; cbn [fst snd] in *.
    + eapply (Hgo i p); [done|..]; intros ->; cbn in Hu; lia.
    + destruct (drain_step s) as [s'|] eqn:Hs; [eexists; by apply settle_drain|]. unfold drain_step in Hs. rewrite He in Hs.
      destruct (drain s); cbn in Hd; try done; lia.
Qed.

Lemma app_reachable n st : rtc app_step (app0, replicate n RunIoc) st → app_inv st ∧ length st.2 = n.
Proof.
  intros Hrun. assert (app_inv (app0, replicate n RunIoc) ∧ length (app0, replicate n RunIoc).2 = n) as H0
    by (split; [apply app_start_inv|apply length_replicate]).
  induction Hrun as [x|x y z Hxy _ IH]; [done|]. apply IH. destruct H0 as [Hi Hl]. split; [by eapply app_step_inv|].
  destruct Hxy; cbn [snd] in *; [by rewrite length_insert|done].
Qed.

Lemma settled_app st st' : rtc settle_step st st' → rtc app_step st st'.
Proof. apply rtc_subrel. intros x y. apply settle_app. Qed.

Lemma settled_requested st st' : rtc settle_step st st' → stop_requested st.1 = true → stop_requested st'.1 = true.
Proof. induction 1 as [|x y z Hxy _ IH]; [done|]. intros Hr. apply IH. by apply (settle_decreases _ _ Hxy). Qed.

Lemma measure_range st : 0 ≤ measure st ≤ 9 * Z.of_nat (length st.2) + 3.
Proof.
  unfold measure. pose proof (drain_left_range (drain st.1)). pose proof (total_bounds steps_left st.2 0 9 steps_left_range). lia.
Qed.

(** C14: for any number of threads, however their handlers throw or ask for the
    stop and however the attempts interleave: once the stop has been requested,
    the shutdown is carried out by what is already under way.  Every run without
    new events from there (no handler throws or asks anew; calls under way may
    still fail, and the coroutine's wait for the sessions ends sooner or later) has
    at most 9 steps for each thread and 3 for the coroutine, and cannot get stuck
    before every thread has left, so every such run that goes on as long as it can
    ends with every thread out of the stopped [io_context].  Draining is begun by
    at most one thread.  The process ends only when the [io_context] was stopped,
    and its exit code is 1 exactly when an exception escaped from a handler. *)
Theorem shutdown_completes n s ts :
  rtc app_step (app0, replicate n RunIoc) (s, ts) →
  (stop_requested s = true →
   (∀ k st, nsteps settle_step k (s, ts) st → Z.of_nat k ≤ 9 * Z.of_nat n + 3) ∧
   (∀ st, rtc settle_step (s, ts) st → (∀ st', ¬ settle_step st st') →
      Forall (λ p, p = Exited) st.2 ∧ (n ≠ 0%nat → ioc_ended st.1 = true))) ∧
  total winner ts ≤ 1 ∧
  (ts ≠ [] → Forall (λ p, p = Exited) ts → ioc_ended s = true ∧ exit_code s = (if decide (thrown s = 0%nat) then 0 else 1)).
Proof.
  intros Hrun. destruct (app_reachable n (s, ts) Hrun) as [Hinv Hlen]. cbn [snd] in Hlen. split_and!.
  - intros Hr. split.
    + intros k st Hk. pose proof (settle_bounded _ _ _ Hk Hr) as Hb. pose proof (measure_range st). pose proof (measure_range (s, ts)).
      cbn [snd] in *. lia.
    + intros [s' ts'] Hset Hstuck. pose proof (settled_app _ _ Hset) as Happ.
      destruct (app_reachable n (s', ts') ltac:(by etrans)) as [Hinv' Hlen']. cbn [snd fst] in *.
      assert (stop_requested s' = true) as Hr' by exact (settled_requested _ _ Hset Hr).
      assert (Forall (λ p, p = Exited) ts') as Hall.
      { destruct (decide (Forall (λ p, p = Exited) ts')) as [|Hx]; [done|]. destruct (settle_progress _ _ Hinv' Hr' Hx) as [st' Hst].
        by destruct (Hstuck st'). }
      split; [done|]. intros Hn. apply (ai_exited _ Hinv'). cbn [snd]. destruct ts' as [|q ts']; [cbn in Hlen'; lia|].
      apply Forall_cons in Hall as [-> _]. by left.
  - pose proof (ai_winner _ Hinv) as Hw. cbn [fst snd] in Hw. unfold drain_spawned in Hw.
    destruct (stop_requested s), (drain s); cbn in Hw; lia.
  - intros Hne Hall. split.
    + apply (ai_exited _ Hinv). cbn [snd]. destruct ts as [|q ts]; [done|]. apply Forall_cons in Hall as [-> _]. by left.
    + pose proof (ai_thrown _ Hinv) as Ht. cbn [fst snd] in Ht. unfold exit_code.
      destruct (fatal_handler_exception s); [by rewrite decide_False by lia|].
      rewrite total_zero in Ht by (intros q Hq; by rewrite (proj1 (Forall_forall _ _) Hall q Hq)). by rewrite decide_True by lia.
Qed.

(** Two threads: the signal asks for the stop in one, a handler throws in the
    other, which finds the stop under way and ends the [io_context] itself. *)
Definition sample_run : list (io_event * nat) :=
  [(AskStop, 0%nat); (Step, 0%nat); (Throws, 1%nat); (Step, 1%nat); (Step, 1%nat); (Step, 0%nat); (Step, 1%nat); (Step, 1%nat); (Step, 1%nat);
   (Step, 0%nat); (Step, 0%nat); (Step, 0%nat); (Step, 0%nat)].

Definition io_move (st : option (App * list io_pc)) (m : io_event * nat) : option (App * list io_pc) :=
  st ← st; p ← st.2 !! m.2; r ← io_step m.1 st.1 p; Some (r.1, <[m.2 := r.2]> st.2).

Lemma io_moves_run ms st st' : foldl io_move (Some st) ms = Some st' → rtc app_step st st'.
Proof.
  revert st'. induction ms as [|m ms IH] using rev_ind; intros st'; [by intros [= <-]|].
  rewrite foldl_app. cbn [foldl]. intros (st1 & H1 & (p & Hp & ([s' p'] & Hs & [= <-])%bind_Some)%bind_Some)%bind_Some.
  eapply rtc_r; [by apply IH|]. destruct st1 as [s ts]. by eapply app_thread.
Qed.

Definition sample_end_state : App * list io_pc :=
  (mkState (mkRuntime (mkLifecycle Draining 0) (Some (mkCoordinator Draining 0 0))) true true true true DrainWait 1, [Exited; Exited]).

Lemma shutdown_completes_witness : foldl io_move (Some (app0, replicate 2 RunIoc)) sample_run = Some sample_end_state ∧
  ioc_ended sample_end_state.1 = true ∧ exit_code sample_end_state.1 = 1.
Proof.
  assert (foldl io_move (Some (app0, replicate 2 RunIoc)) sample_run = Some sample_end_state) as Hrun by (vm_compute; reflexivity).
  split; [exact Hrun|]. refine (proj2 (proj2 (shutdown_completes 2 sample_end_state.1 sample_end_state.2 _)) _ _).
  - exact (io_moves_run _ _ _ Hrun).
  - discriminate.
  - repeat constructor.
Defined.

(** ** Start-up *)

(** At least one thread and at most 256 run the [io_context]. *)
Lemma io_threads_range cfg app hardware : app_config_from cfg = Ret app → 0 ≤ hardware →
  1 ≤ effective_io_threads hardware (io_threads app) ≤ 256.
Proof.
  intros Ha%app_config_ok Hh. pose proof (ao_threads _ Ha). unfold effective_io_threads.
  destruct (Z.eqb_spec (io_threads app) 0); cbn [negb].
  - destruct (Z.eqb_spec hardware 0); lia.
  - rewrite Z.mod_small by lia. lia.
Qed.

(** Files that fail to load after the first pull leave the configuration from
    before it; files that load and are then refused end the process, also when the
    configuration from before was good. *)
Lemma first_pull_fallback cfg app : app_config_from cfg = Ret app → startup_config (Some cfg) (λ _, true) None = StartWith cfg app.
Proof. intros Ha. unfold startup_config. rewrite Ha. by case_match. Qed.

Definition before_pull : Config := (load_file empty_config (Some ("[config_sync]" ++ [LF] ++ "enabled=true" ++ [LF] ++ "first_pull=blocking"))).2.
Definition pulled_file : bytes := "[server]" ++ [LF] ++ "port=0".

Lemma refused_pull_ends_start :
  ConfigSync.validate_managed_file "50-server.ini" pulled_file = None ∧
  is_ret (app_config_from before_pull) = true ∧
  startup_config (Some before_pull) (λ _, true) (Some (load_file before_pull (Some pulled_file)).2) = StartThrows.
Proof. split_and!; vm_compute; reflexivity. Qed.
