(* ===== verification/AppWiring.v ===== *)
(** * The objects of the application (src/src/app/application.cpp, initialize and
      cleanup; pool_stats_service.hpp, snapshot_service.hpp)

    Which object holds a share of which, which merely refers to which, what is
    started and in which order all of it is taken down.  Construction may fail at
    any step; the run then stops the event loop, joins its threads and cleans up
    what there is.  The theorem shows that at no point of either sequence an
    object that is alive refers to one that is not, nor is one destroyed while its
    threads or timers run. *)

From S2P Require Import Prelude.

Inductive object :=
| Credentials | AdminMetrics | ConfigMetrics | LoginThrottle | AuthLimiter | Runtime | Mysql | Redis | AuthWorkers
| FileWorkers | ComboLimiter | Server | Rules | Snapshots | History | PoolStatistics | Sync | Reload | Signals | IoThreads.

#[export] Instance object_eq_dec : EqDecision object.
Proof. solve_decision. Defined.

Definition all_objects : list object :=
  [Credentials; AdminMetrics; ConfigMetrics; LoginThrottle; AuthLimiter; Runtime; Mysql; Redis; AuthWorkers; FileWorkers;
   ComboLimiter; Server; Rules; Snapshots; History; PoolStatistics; Sync; Reload; Signals; IoThreads].

(** [w_members] are the members of [Application] that are set; [w_owns] the shares
    and [w_refers] the references and raw pointers between objects; [w_running] the
    objects with threads, timers or sockets under way. *)
Record wiring := mkWiring {
  w_members : list object;
  w_owns : list (object * object);
  w_refers : list (object * object);
  w_running : list object
}.

Definition wiring0 : wiring := mkWiring [] [] [] [].

Definition mem (o : object) (l : list object) : bool := existsb (λ x, bool_decide (x = o)) l.

(** What is reachable by shares from the members. *)
Fixpoint reach (fuel : nat) (w : wiring) (seen : list object) : list object :=
  match fuel with
  | O => seen
  | S fuel =>
      let next := (filter (λ e, mem e.1 seen && negb (mem e.2 seen) = true) (w_owns w)).*2 in
      match next with [] => seen | o :: _ => reach fuel w (o :: seen) end
  end.

Definition alive (w : wiring) : list object := reach (length all_objects) w (w_members w).

(** ** The actions *)

Inductive action :=
| Make (o : object) (owns refers : list object)   (* a member is constructed *)
| MakeIn (parent o : object)                      (* an object is constructed as a member of another *)
| Link (o : object) (owns refers : list object)   (* further shares and references *)
| Start (o : object)
| Halt (o : object)                               (* stop, join or shutdown *)
| Drop (o : object).                              (* reset of a member *)

(** The constructors of the pools and of the thread pools start their threads. *)
Definition starts_threads (o : object) : bool :=
  match o with Mysql | Redis | AuthWorkers | FileWorkers => true | _ => false end.

Definition pairs (o : object) (l : list object) : list (object * object) := (λ x, (o, x)) <$> l.

Definition began (o : object) (running : list object) : list object := if starts_threads o then o :: running else running.

Definition remove_obj (o : object) (l : list object) : list object := filter (λ x, negb (bool_decide (x = o)) = true) l.

Definition perform (w : wiring) (a : action) : wiring :=
  match a with
  | Make o owns refers =>
      mkWiring (o :: w_members w) (pairs o owns ++ w_owns w) (pairs o refers ++ w_refers w) (began o (w_running w))
  | MakeIn parent o => mkWiring (w_members w) ((parent, o) :: w_owns w) (w_refers w) (began o (w_running w))
  | Link o owns refers => mkWiring (w_members w) (pairs o owns ++ w_owns w) (pairs o refers ++ w_refers w) (w_running w)
  | Start o => mkWiring (w_members w) (w_owns w) (w_refers w) (o :: w_running w)
  | Halt o =>
      if mem o (alive w) then mkWiring (w_members w) (w_owns w) (w_refers w) (remove_obj o (w_running w)) else w
  | Drop o => mkWiring (remove_obj o (w_members w)) (w_owns w) (w_refers w) (w_running w)
  end.

Definition perform_all (w : wiring) (l : list action) : wiring := foldl perform w l.

(** [initialize], then the rest of [run] up to the threads. *)
Definition initialize : list action :=
  [Make Credentials [] []; Make AdminMetrics [] []; Make ConfigMetrics [] []; Make LoginThrottle [] []; Make AuthLimiter [] [];
   Make Runtime [] []; MakeIn Runtime Mysql; MakeIn Runtime Redis; MakeIn Runtime AuthWorkers; MakeIn Runtime FileWorkers;
   Link Runtime [Credentials; AdminMetrics; LoginThrottle; AuthLimiter; ConfigMetrics] [];
   Make ComboLimiter [] [];
   Make Server [Runtime] [];
   Make Rules [] [];
   Link Server [] [Rules];                                            (* set_security_rules *)
   Make Snapshots [] [Rules]; Start Snapshots;
   Make History [] [Redis];
   Link Server [Runtime; ComboLimiter; History; Credentials; AdminMetrics; LoginThrottle; AuthLimiter]
     [Mysql; Redis; AuthWorkers; Server];                             (* register_routes *)
   Make PoolStatistics [] [Server]; Start PoolStatistics;
   Make Sync [ConfigMetrics] [Redis; FileWorkers]; Start Sync;
   Start History;
   Make Reload [] [Rules; Server]; Start Reload;
   Start Server; Make Signals [] []; Make IoThreads [] []; Start IoThreads].

(** [ioc_.stop] and [join_all], then [cleanup]. *)
Definition cleanup : list action :=
  [Halt IoThreads; Drop IoThreads;
   Halt History; Halt Sync; Halt Reload; Halt PoolStatistics; Halt Snapshots; Halt Server; Halt AuthWorkers; Halt FileWorkers;
   Drop Signals; Drop History; Drop Sync; Drop Reload; Drop PoolStatistics; Drop Snapshots; Drop Server; Drop Credentials;
   Drop AdminMetrics; Drop ConfigMetrics; Drop LoginThrottle; Drop AuthLimiter;
   Halt Mysql; Halt Redis; Drop Runtime; Drop ComboLimiter; Drop Rules].

(** ** Nothing dangles *)

(** References of living objects are to living objects, and what runs is alive. *)
Definition sound (w : wiring) : bool :=
  let live := alive w in
  forallb (λ e, implb (mem e.1 live) (mem e.2 live)) (w_refers w) && forallb (λ o, mem o live) (w_running w).

Definition empty (w : wiring) : bool := match alive w, w_running w with [], [] => true | _, _ => false end.

Definition unwinds (k j : nat) : bool :=
  let w := perform_all wiring0 (take k initialize) in
  sound (perform_all w (take j cleanup)) && empty (perform_all w cleanup).

(** The run may be cut short after any step of the construction, by an exception
    or by the end of the event loop: the whole of cleanup is then safe step by
    step, and at its end no object is alive and nothing runs. *)
Lemma unwinding_sound k j :
  let w := perform_all wiring0 (take k initialize) in
  sound (perform_all w (take j cleanup)) = true ∧ empty (perform_all w cleanup) = true.
Proof.
  assert (forallb (λ k, forallb (unwinds k) (seq 0 (S (length cleanup)))) (seq 0 (S (length initialize))) = true) as Hall
    by (vm_compute; reflexivity).
  assert (∀ A (l : list A) n, take n l = take (n `min` length l) l) as Hmin.
  { intros A l n. destruct (decide (n ≤ length l)%nat); [by rewrite Nat.min_l|].
    rewrite Nat.min_r by lia. by rewrite !take_ge by lia. }
  rewrite forallb_forall in Hall. specialize (Hall (k `min` length initialize)%nat).
  rewrite forallb_forall in Hall. specialize (Hall ltac:(apply in_seq; lia) (j `min` length cleanup)%nat ltac:(apply in_seq; lia)).
  unfold unwinds in Hall. rewrite <- !Hmin in Hall. by apply andb_true_iff in Hall.
Qed.

(** Taking the rules down before the server, or the runtime before the services
    that use its pools, would leave a reference to a dead object. *)
Example order_matters :
  sound (perform_all (perform_all wiring0 initialize) (Halt IoThreads :: Drop IoThreads :: [Drop Rules])) = false ∧
  sound (perform_all (perform_all wiring0 initialize) (take 10 cleanup ++ [Drop Server; Halt Mysql; Halt Redis; Drop Runtime])) = false.
Proof. by vm_compute. Qed.

(** ** The periodic services

    [PoolStatsService] and [SnapshotService]: a flag and a timer.  [ps_acts] counts
    the evictions or snapshots. *)
Record periodic := mkPeriodic { ps_running : bool; ps_pending : nat; ps_acts : nat }.

Inductive periodic_event := PStart (enabled : bool) | PStop | PFire (ec : bool).

Definition schedule (s : periodic) : periodic := mkPeriodic (ps_running s) (S (ps_pending s)) (ps_acts s).

(** [enabled]: a positive interval (and, for snapshots, a limiter).  A callback
    takes a pending wait; [ec] is set when the wait was cancelled. *)
Definition periodic_step (ev : periodic_event) (s : periodic) : option periodic :=
  match ev with
  | PStart enabled => Some (if enabled then schedule (mkPeriodic true (ps_pending s) (ps_acts s)) else s)
  | PStop => Some (mkPeriodic false (ps_pending s) (ps_acts s))
  | PFire ec =>
      match ps_pending s with
      | O => None
      | S n =>
          let s := mkPeriodic (ps_running s) n (ps_acts s) in
          Some (if ec || negb (ps_running s) then s
                else let s := mkPeriodic (ps_running s) (ps_pending s) (S (ps_acts s)) in
                     if ps_running s then schedule s else s)
      end
  end.

Definition periodic0 : periodic := mkPeriodic false 0 0.

Fixpoint periodic_run (evs : list periodic_event) (s : periodic) : option periodic :=
  match evs with
  | [] => Some s
  | ev :: evs => s ← periodic_step ev s; periodic_run evs s
  end.

Definition no_start (evs : list periodic_event) : Prop := Forall (λ ev, match ev with PStart _ => False | _ => True end) evs.

Lemma periodic_no_start evs s s' : periodic_run evs s = Some s' → no_start evs → ps_running s = false →
  ps_acts s' = ps_acts s ∧ ps_running s' = false ∧ (ps_pending s' ≤ ps_pending s)%nat.
Proof.
  revert s. induction evs as [|ev evs IH]; intros s Hr Hn Hs; cbn [periodic_run] in Hr; [by simplify_eq|].
  apply Forall_cons in Hn as [He Hn]. destruct ev as [enabled| |ec]; [done|..]; cbn [periodic_step mbind option_bind] in Hr.
  - apply IH in Hr; [|done|done]. done.
  - destruct (ps_pending s) as [|n] eqn:Ep; [done|]. cbn [mbind option_bind ps_running] in Hr. rewrite Hs, orb_true_r in Hr.
    apply IH in Hr as (? & ? & ?); [|done|done]. split_and!; [done..|]. cbn in *. lia.
Qed.

(** A periodic service started once acts on one timer at a time, and not at all
    after it was stopped, however late its callbacks come. *)
Lemma periodic_bounded enabled before after s s' :
  no_start before → no_start after →
  periodic_run (PStart enabled :: before) periodic0 = Some s → periodic_run (PStop :: after) s = Some s' →
  (ps_pending s ≤ 1)%nat ∧ ps_acts s' = ps_acts s ∧ ps_running s' = false.
Proof.
  intros Hb Ha Hr Hs. split.
  - assert (∀ evs s s', no_start evs → periodic_run evs s = Some s' → (ps_pending s ≤ 1)%nat → (ps_pending s' ≤ 1)%nat) as Hinv.
    { clear. induction evs as [|ev evs IH]; intros s s' Hn Hr Hp; cbn [periodic_run] in Hr; [by simplify_eq|].
      apply Forall_cons in Hn as [He Hn]. destruct ev as [enabled| |ec]; [done|..]; cbn [periodic_step mbind option_bind] in Hr.
      - by eapply IH.
      - destruct (ps_pending s) as [|n] eqn:Ep; [done|]. cbn [mbind option_bind ps_running ps_pending ps_acts] in Hr.
        eapply IH in Hr; [done..|]. destruct (ec || _); cbn; [lia|]. destruct (ps_running s); cbn; lia. }
    cbn [periodic_run periodic_step mbind option_bind] in Hr. apply Hinv in Hr; [done..|]. destruct enabled; cbn; lia.
  - cbn [periodic_run periodic_step mbind option_bind] in Hs. by apply periodic_no_start in Hs as (? & ? & _).
Qed.
