(* ===== verification/RedisStore.v ===== *)
(** * The Redis server as the Lua scripts see it

    The scripts of the configuration history run inside the Redis server, one at a
    time.  The server is a parameter: a type of states, [redis.call], and a view of
    a state as the typed key space that the documentation describes.  What the
    scripts rely on is one law: a command answers and changes the view as the
    reference of the command says ([exec]), where the order of the fields of a hash
    is not specified.  Scripts are a monad over it: a command on a key of the wrong
    type raises an error that ends the script, and what the script did before stays
    done.  Their properties are proved with a predicate transformer on the view. *)

From S2P Require Import Prelude Config AdminJson OrderedMap.

(** ** The key space *)

Inductive rvalue :=
| RStr (s : bytes)
| RHash (h : gmap bytes bytes)
| RZset (z : gmap bytes Z)
| RList (l : list bytes).

Abbreviation keyspace := (@gmap bytes (@list_eq_dec ascii Ascii.eq_dec) (@list_countable ascii Ascii.eq_dec Ascii.countable) rvalue).

Definition type_name (v : option rvalue) : bytes :=
  match v with
  | None => "none" | Some (RStr _) => "string" | Some (RHash _) => "hash" | Some (RZset _) => "zset" | Some (RList _) => "list"
  end.

(** A key that does not exist is an empty value of every type. *)
Definition as_str (ks : keyspace) (k : bytes) : option (option bytes) :=
  match ks !! k with None => Some None | Some (RStr s) => Some (Some s) | _ => None end.
Definition as_hash (ks : keyspace) (k : bytes) : option (gmap bytes bytes) :=
  match ks !! k with None => Some ∅ | Some (RHash h) => Some h | _ => None end.
Definition as_zset (ks : keyspace) (k : bytes) : option (gmap bytes Z) :=
  match ks !! k with None => Some ∅ | Some (RZset z) => Some z | _ => None end.
Definition as_list (ks : keyspace) (k : bytes) : option (list bytes) :=
  match ks !! k with None => Some [] | Some (RList l) => Some l | _ => None end.

(** A key whose value became empty does not exist any more. *)
Definition put_hash (k : bytes) (h : gmap bytes bytes) (ks : keyspace) : keyspace :=
  if bool_decide (h = ∅) then delete k ks else <[k := RHash h]> ks.
Definition put_zset (k : bytes) (z : gmap bytes Z) (ks : keyspace) : keyspace :=
  if bool_decide (z = ∅) then delete k ks else <[k := RZset z]> ks.
Definition put_list (k : bytes) (l : list bytes) (ks : keyspace) : keyspace :=
  if bool_decide (l = []) then delete k ks else <[k := RList l]> ks.

Definition set_fields (pairs : list (bytes * bytes)) (h : gmap bytes bytes) : gmap bytes bytes :=
  foldl (λ h kv, <[kv.1 := kv.2]> h) h pairs.

(** Members by score, equal scores by their bytes. *)
Definition zless (a b : bytes * Z) : bool := (a.2 <? b.2) || ((a.2 =? b.2) && str_ltb a.1 b.1).
Definition zmembers (z : gmap bytes Z) : list (bytes * Z) := insertion_sort (bytes * Z)%type zless (map_to_list z).

(** Positions of a range; a negative one counts from the end, the last is
    included. *)
Definition range_pos (len i : Z) : Z := if i <? 0 then len + i else i.
Definition in_range_of {A} (l : list A) (first last : Z) : list A :=
  let len := Z.of_nat (length l) in
  let first := Z.max 0 (range_pos len first) in
  take (Z.to_nat (range_pos len last - first + 1)) (drop (Z.to_nat first) l).

Definition flatten (pairs : list (bytes * bytes)) : list bytes := concat ((λ kv, [kv.1; kv.2]) <$> pairs).

Definition truth (b : bool) : Z := if b then 1 else 0.

(** ** Commands

    The commands of the scripts, each with the type of its answer; [None] of an
    [option] is the nil answer. *)

Inductive cmd : Type → Type :=
| TYPE (k : bytes) : cmd bytes
| GET (k : bytes) : cmd (option bytes)
| SET (k v : bytes) : cmd unit
| INCR (k : bytes) : cmd Z
| EXISTS (k : bytes) : cmd Z
| DEL (k : bytes) : cmd Z
| UNLINK (k : bytes) : cmd Z
| RENAME (k k' : bytes) : cmd unit
| HGET (k f : bytes) : cmd (option bytes)
| HMGET (k : bytes) (fs : list bytes) : cmd (list (option bytes))
| HSET (k : bytes) (pairs : list (bytes * bytes)) : cmd Z
| HEXISTS (k f : bytes) : cmd Z
| HLEN (k : bytes) : cmd Z
| HDEL (k f : bytes) : cmd Z
| HGETALL (k : bytes) : cmd (list bytes)
| HVALS (k : bytes) : cmd (list bytes)
| ZADD (k : bytes) (score : Z) (m : bytes) : cmd Z
| ZREM (k m : bytes) : cmd Z
| ZCARD (k : bytes) : cmd Z
| ZSCORE (k m : bytes) : cmd (option bytes)
| ZRANK (k m : bytes) : cmd (option Z)
| ZRANGE (k : bytes) (first last : Z) : cmd (list bytes)
| ZREVRANGE (k : bytes) (first last : Z) : cmd (list bytes)
| ZREVRANGEBYSCORE (k : bytes) (below : option Z) (limit : Z) : cmd (list bytes)
| LPUSH (k v : bytes) : cmd Z
| LTRIM (k : bytes) (first last : Z) : cmd unit.

(** A read, and an update, of a value that has the right type. *)
Definition reads {X A : Type} (ks : keyspace) (o : option X) (f : X → A) : option A * keyspace := (f <$> o, ks).
Definition updates {X A : Type} (ks : keyspace) (o : option X) (f : X → A * keyspace) : option A * keyspace :=
  match o with Some x => (Some (f x).1, (f x).2) | None => (None, ks) end.

(** What the command reference says; [order] lists the fields of a hash. *)
Definition exec (order : gmap bytes bytes → list (bytes * bytes)) {A : Type} (c : cmd A) (ks : keyspace) : option A * keyspace :=
  match c in cmd A return option A * keyspace with
  | TYPE k => (Some (type_name (ks !! k)), ks)
  | GET k => reads ks (as_str ks k) id
  | SET k v => (Some (), <[k := RStr v]> ks)
  | INCR k =>
      match as_str ks k with
      | Some o =>
          match parse_int64 (default ("0" : bytes) o) with
          | Some n => if n <? INT64_MAX then (Some (n + 1), <[k := RStr (to_string (n + 1))]> ks) else (None, ks)
          | None => (None, ks)
          end
      | None => (None, ks)
      end
  | EXISTS k => (Some (truth (bool_decide (is_Some (ks !! k)))), ks)
  | DEL k | UNLINK k => (Some (truth (bool_decide (is_Some (ks !! k)))), delete k ks)
  | RENAME k k' => match ks !! k with Some v => (Some (), <[k' := v]> (delete k ks)) | None => (None, ks) end
  | HGET k f => reads ks (as_hash ks k) (λ h, h !! f)
  | HMGET k fs => reads ks (as_hash ks k) (λ h, (λ f, h !! f) <$> fs)
  | HSET k pairs =>
      if bool_decide (pairs = []) then (None, ks)
      else updates ks (as_hash ks k) (λ h, (Z.of_nat (size (set_fields pairs h)) - Z.of_nat (size h), put_hash k (set_fields pairs h) ks))
  | HEXISTS k f => reads ks (as_hash ks k) (λ h, truth (bool_decide (is_Some (h !! f))))
  | HLEN k => reads ks (as_hash ks k) (λ h, Z.of_nat (size h))
  | HDEL k f => updates ks (as_hash ks k) (λ h, (truth (bool_decide (is_Some (h !! f))), put_hash k (delete f h) ks))
  | HGETALL k => reads ks (as_hash ks k) (λ h, flatten (order h))
  | HVALS k => reads ks (as_hash ks k) (λ h, (order h).*2)
  | ZADD k score m => updates ks (as_zset ks k) (λ z, (truth (bool_decide (z !! m = None)), put_zset k (<[m := score]> z) ks))
  | ZREM k m => updates ks (as_zset ks k) (λ z, (truth (bool_decide (is_Some (z !! m))), put_zset k (delete m z) ks))
  | ZCARD k => reads ks (as_zset ks k) (λ z, Z.of_nat (size z))
  | ZSCORE k m => reads ks (as_zset ks k) (λ z, to_string <$> z !! m)
  | ZRANK k m =>
      reads ks (as_zset ks k) (λ z, s ← z !! m; Some (Z.of_nat (length (filter (λ e, zless e (m, s) = true) (zmembers z)))))
  | ZRANGE k first last => reads ks (as_zset ks k) (λ z, in_range_of (zmembers z).*1 first last)
  | ZREVRANGE k first last => reads ks (as_zset ks k) (λ z, in_range_of (reverse (zmembers z).*1) first last)
  | ZREVRANGEBYSCORE k below limit =>
      reads ks (as_zset ks k) (λ z,
        take (Z.to_nat limit)
          (filter (λ e : bytes * Z, match below with Some b => e.2 <? b | None => true end = true) (reverse (zmembers z))).*1)
  | LPUSH k v => updates ks (as_list ks k) (λ l, (Z.of_nat (length l) + 1, put_list k (v :: l) ks))
  | LTRIM k first last => updates ks (as_list ks k) (λ l, ((), put_list k (in_range_of l first last) ks))
  end.

Definition lists_fields (order : gmap bytes bytes → list (bytes * bytes)) : Prop := ∀ h, order h ≡ₚ map_to_list h.

(** The server. *)
Class Redis := {
  rdb : Type;
  redis_call : ∀ {A}, cmd A → rdb → option A * rdb;
  view : rdb → keyspace
}.

(** It behaves as documented. *)
Class RedisLaws `{Redis} := redis_documented A (c : cmd A) (db : rdb) :
  ∃ order, lists_fields order ∧ ((redis_call c db).1, view (redis_call c db).2) = exec order c (view db).

(** ** Scripts *)

Section scripts.
Context `{Redis}.

(** [None]: a command raised an error and the script ended. *)
Definition script (A : Type) : Type := rdb → option A * rdb.

#[export] Instance script_ret : MRet script := λ A a db, (Some a, db).
#[export] Instance script_bind : MBind script := λ A B k s db,
  match s db with (Some a, db') => k a db' | (None, db') => (None, db') end.

Definition call {A} (c : cmd A) : script A := redis_call c.

(** An error inside is dropped, what was done stays. *)
Definition pcall {A} (s : script A) : script unit := λ db, (Some (), (s db).2).

(** The key has the expected type or does not exist. *)
Fixpoint types_ok (keys : list (bytes * bytes)) : script bool :=
  match keys with
  | [] => mret true
  | (k, expected) :: rest =>
      t ← call (TYPE k);
      if negb (beqb t expected) && negb (beqb t "none") then mret false else types_ok rest
  end.

(** Every pair is a field of the hash. *)
Fixpoint same_fields (k : bytes) (pairs : list (bytes * bytes)) : script bool :=
  match pairs with
  | [] => mret true
  | (f, v) :: rest =>
      r ← call (HGET k f);
      if negb (bool_decide (r = Some v)) then mret false else same_fields k rest
  end.

(** ** What a script establishes

    [wp s ks Q]: from every state whose view is [ks], the result and the view after
    the script satisfy [Q]. *)
Definition wp {A} (s : script A) (ks : keyspace) (Q : option A → keyspace → Prop) : Prop :=
  ∀ db, view db = ks → Q (s db).1 (view (s db).2).

Lemma wp_mono {A} (s : script A) ks (Q Q' : option A → keyspace → Prop) :
  wp s ks Q → (∀ r ks', Q r ks' → Q' r ks') → wp s ks Q'.
Proof. intros Hs HQ db Hdb. by apply HQ, Hs. Qed.

Lemma wp_ret {A} (a : A) ks Q : Q (Some a) ks → wp (mret a : script A) ks Q.
Proof. intros HQ db <-. done. Qed.

Lemma wp_bind {A B} (s : script A) (k : A → script B) ks Q :
  wp s ks (λ r ks', match r with Some a => wp (k a) ks' Q | None => Q None ks' end) → wp (s ≫= k) ks Q.
Proof.
  intros Hs db Hdb. specialize (Hs db Hdb). unfold mbind, script_bind. destruct (s db) as [[a|] db']; cbn [fst snd] in *; [|done].
  by apply Hs.
Qed.

Lemma wp_pcall {A} (s : script A) ks (Q : option unit → keyspace → Prop) : wp s ks (λ _ ks', Q (Some ()) ks') → wp (pcall s) ks Q.
Proof. intros Hs db Hdb. by apply Hs. Qed.

Context `{!RedisLaws}.

Lemma wp_call {A} (c : cmd A) ks Q :
  (∀ order, lists_fields order → Q (exec order c ks).1 (exec order c ks).2) → wp (call c) ks Q.
Proof.
  intros HQ db <-. destruct (redis_documented A c db) as (order & Ho & Hc). unfold call. specialize (HQ order Ho). rewrite <- Hc in HQ. done.
Qed.

(** The commands that answer without changing anything. *)
Lemma types_ok_spec keys ks Q :
  Q (Some (forallb (λ ke, beqb (type_name (ks !! ke.1)) ke.2 || beqb (type_name (ks !! ke.1)) "none") keys)) ks → wp (types_ok keys) ks Q.
Proof.
  revert Q. induction keys as [|[k e] keys IH]; intros Q HQ; cbn [types_ok]; [by apply wp_ret|]. apply wp_bind, wp_call. intros order _.
  cbn [exec fst snd]. cbn [forallb fst snd] in HQ. rewrite <- negb_orb. destruct (beqb _ e || _); cbn [negb andb] in *; [by apply IH|by apply wp_ret].
Qed.

Lemma same_fields_spec k pairs ks Q :
  match as_hash ks k with
  | Some h => Q (Some (forallb (λ fv, bool_decide (h !! fv.1 = Some fv.2)) pairs)) ks
  | None => Q (if bool_decide (pairs = []) then Some true else None) ks
  end → wp (same_fields k pairs) ks Q.
Proof.
  revert Q. induction pairs as [|[f v] pairs IH]; intros Q HQ; cbn [same_fields].
  { apply wp_ret. by destruct (as_hash ks k). }
  apply wp_bind, wp_call. intros order _. cbn [exec fst snd]. unfold reads. destruct (as_hash ks k) as [h|] eqn:E; cbn [fmap option_fmap option_map fst snd]; [|done].
  cbn [forallb fst snd] in HQ. destruct (bool_decide (h !! f = Some v)); cbn [negb andb] in *; [|by apply wp_ret]. apply IH. done.
Qed.

End scripts.

(** ** The laws can hold *)

Definition spec_redis : Redis := {| rdb := keyspace; redis_call := λ A c ks, exec map_to_list c ks; view := id |}.
#[export] Instance spec_redis_laws : @RedisLaws spec_redis.
Proof.
  intros A c db. exists map_to_list. split; [by intros h|]. cbn. by destruct (exec map_to_list c db).
Qed.

(** ** Numbers of Lua

    Lua numbers are doubles: whole numbers are exact and printed in full below
    10^14, and larger ones stay larger. *)

Definition LUA_EXACT : Z := 10 ^ 14.

Class LuaNumbers := {
  tonumber : bytes → option Z;
  tostring : Z → bytes;
  number_arg : Z → bytes;
  tonumber_empty : tonumber [] = None;
  tonumber_exact : ∀ n, 0 ≤ n < LUA_EXACT → tonumber (to_string n) = Some n;
  tonumber_large : ∀ n, LUA_EXACT ≤ n ≤ INT64_MAX → ∃ m, tonumber (to_string n) = Some m ∧ LUA_EXACT ≤ m;
  tostring_exact : ∀ n, 0 ≤ n < LUA_EXACT → tostring n = to_string n;
  number_arg_exact : ∀ n, 0 ≤ n < LUA_EXACT → number_arg n = to_string n
}.

Definition spec_lua : LuaNumbers.
Proof.
  refine {| tonumber := parse_int64; tostring := to_string; number_arg := to_string |}; try done.
  - intros n Hn. apply parse_int64_print. unfold LUA_EXACT, INT64_MAX in *. lia.
  - intros n Hn. exists n. split; [|lia]. apply parse_int64_print. unfold LUA_EXACT, INT64_MAX in *. lia.
Defined.
