(* ===== verification/HistoryScripts.v ===== *)
(** * The scripts of the configuration history
    (src/src/app/admin/config_history_scripts.cpp, config_history_service.hpp)

    Versions live in Redis: a counter, a snapshot per version, an index and a hash
    of metadata, and a mirror of the current files.  They change only through Lua
    scripts, which the server runs one at a time.  Each script is translated with
    its KEYS and ARGV; the calls of the gateway ([txn]) are built as its handlers
    build them.  That the keys of different values differ is shown here, what the
    scripts do in [HistorySafety]. *)

From S2P Require Import Prelude Config Response AdminJson AppConfig OrderedMap ConfigHistory ConfigSync RedisStore.

Definition kAuditKey : bytes := "asio_owen:config:audit".

Section model.
Context `{Redis, LuaNumbers}.

(** KEYS[i] and ARGV[i]. *)
Definition nth1 (l : list bytes) (i : nat) : bytes := nth (i - 1) l [].

(** The pairs from ARGV[i] on. *)
Definition pairs_from (i : nat) (ARGV : list bytes) : list (bytes * bytes) := pair_elements (drop (i - 1) ARGV).

(** The loops over the sizes: each file, then the sum so far. *)
Fixpoint sizes_ok (max_file_bytes max_total_bytes total : Z) (pairs : list (bytes * bytes)) : bool :=
  match pairs with
  | [] => true
  | (_, content) :: rest =>
      let file_bytes := slen content in
      if max_file_bytes <? file_bytes then false
      else if max_total_bytes <? total + file_bytes then false
      else sizes_ok max_file_bytes max_total_bytes (total + file_bytes) rest
  end.

(** [tonumber(redis.call('GET', key) or def)] *)
Definition get_number (k def : bytes) : script (option Z) :=
  r ← call (GET k); mret (tonumber (default def r)).

(** [tonumber(top[1])], [None] without a member; a member that is no number is
    [Some None]. *)
Definition top_number (k : bytes) : script (option (option Z)) :=
  top ← call (ZREVRANGE k 0 0); mret (match top with [] => None | m :: _ => Some (tonumber m) end).

(** The audit trail, whose failure is ignored. *)
Definition audit (k entry : bytes) : script unit :=
  pcall (_ ← call (LPUSH k entry); call (LTRIM k 0 199)).

(** DEL, HSET, RENAME: [staging] is filled and moved to [target]. *)
Definition publish_hash (staging target : bytes) (pairs : list (bytes * bytes)) : script unit :=
  _ ← call (DEL staging); _ ← call (HSET staging pairs); call (RENAME staging target).

Definition expect (KEYS expected : list bytes) : list (bytes * bytes) := zip KEYS expected.

(** ** Publishing *)

(** The current version is the top of the index and complete; without a version
    there is no history. *)
Definition current_complete (cur : Z) (meta_key index_key snapshot_key : bytes) : script bool :=
  top ← top_number index_key;
  if 0 <? cur then
    if negb (bool_decide (top = Some (Some cur))) then mret false
    else
      meta ← call (HGET meta_key (tostring cur));
      if bool_decide (meta = None) then mret false
      else e ← call (EXISTS snapshot_key); mret (e =? 1)
  else if bool_decide (top ≠ None) then mret false
  else
    card ← call (ZCARD index_key);
    if negb (card =? 0) then mret false
    else len ← call (HLEN meta_key); mret (len =? 0).

(** The new version has left no trace. *)
Definition version_free (member snapshot_key meta_key index_key : bytes) : script bool :=
  e ← call (EXISTS snapshot_key);
  if negb (e =? 0) then mret false
  else
    he ← call (HEXISTS meta_key member);
    if negb (he =? 0) then mret false
    else zs ← call (ZSCORE index_key member); mret (bool_decide (zs = None)).

(** From DEL to the end: snapshot, metadata, index, mirror, counter, audit. *)
Definition publish (KEYS : list bytes) (newv : Z) (pairs : list (bytes * bytes)) (entry meta : bytes) : script Z :=
  _ ← publish_hash (nth1 KEYS 8) (nth1 KEYS 7) pairs;
  _ ← call (HSET (nth1 KEYS 5) [(tostring newv, meta)]);
  _ ← call (ZADD (nth1 KEYS 6) newv (tostring newv));
  _ ← publish_hash (nth1 KEYS 4) (nth1 KEYS 2) pairs;
  published ← call (INCR (nth1 KEYS 1));
  if negb (published =? newv) then mret (-7)
  else _ ← audit (nth1 KEYS 3) entry; mret published.

Definition save_types : list bytes :=
  ["string" : bytes; "hash" : bytes; "list" : bytes; "hash" : bytes; "hash" : bytes; "zset" : bytes; "hash" : bytes; "hash" : bytes; "hash" : bytes].

Definition save_script (KEYS ARGV : list bytes) : script Z :=
  let n := Z.of_nat (length ARGV) in
  if negb ((n - 6) mod 2 =? 0) then mret (-2)
  else if n <? 8 then mret (-2)
  else
    match tonumber (nth1 ARGV 1), tonumber (nth1 ARGV 4), tonumber (nth1 ARGV 5), tonumber (nth1 ARGV 6) with
    | Some base, Some max_files, Some max_file_bytes, Some max_total_bytes =>
        let file_count := (n - 6) / 2 in
        let pairs := pairs_from 7 ARGV in
        if (file_count <? 1) || (max_files <? file_count) then mret (-8)
        else if negb (sizes_ok max_file_bytes max_total_bytes 0 pairs) then mret (-8)
        else
          typed ← types_ok (expect KEYS save_types);
          if negb typed then mret (-3)
          else
            cur ← get_number (nth1 KEYS 1) "0";
            match cur with
            | None => mret (-4)
            | Some cur =>
                if negb (cur =? base) then mret (-1)
                else
                  complete ← current_complete cur (nth1 KEYS 5) (nth1 KEYS 6) (nth1 KEYS 9);
                  if negb complete then mret (-5)
                  else
                    free ← version_free (tostring (base + 1)) (nth1 KEYS 7) (nth1 KEYS 5) (nth1 KEYS 6);
                    if negb free then mret (-6)
                    else publish KEYS (base + 1) pairs (nth1 ARGV 2) (nth1 ARGV 3)
            end
    | _, _, _, _ => mret (-2)
    end.

Definition rollback_types : list bytes := save_types ++ ["hash" : bytes].

(** The version that is rolled back to is still what the caller read. *)
Definition source_unchanged (source_version cur : Z) (snapshot_key meta_key index_key source_meta : bytes) (file_count : Z)
    (pairs : list (bytes * bytes)) : script bool :=
  if cur <? source_version then mret false
  else
    e ← call (EXISTS snapshot_key);
    if negb (e =? 1) then mret false
    else
      meta ← call (HGET meta_key (tostring source_version));
      if negb (bool_decide (meta = Some source_meta)) then mret false
      else
        zs ← call (ZSCORE index_key (tostring source_version));
        if bool_decide (zs = None) then mret false
        else
          len ← call (HLEN snapshot_key);
          if negb (len =? file_count) then mret false else same_fields snapshot_key pairs.

Definition rollback_script (KEYS ARGV : list bytes) : script Z :=
  let n := Z.of_nat (length ARGV) in
  if negb ((n - 8) mod 2 =? 0) then mret (-2)
  else if n <? 10 then mret (-2)
  else
    match tonumber (nth1 ARGV 1), tonumber (nth1 ARGV 4), tonumber (nth1 ARGV 5), tonumber (nth1 ARGV 6), tonumber (nth1 ARGV 8) with
    | Some base, Some max_files, Some max_file_bytes, Some max_total_bytes, Some source_version =>
        let file_count := (n - 8) / 2 in
        let pairs := pairs_from 9 ARGV in
        if (file_count <? 1) || (max_files <? file_count) then mret (-8)
        else if negb (sizes_ok max_file_bytes max_total_bytes 0 pairs) then mret (-8)
        else
          typed ← types_ok (expect KEYS rollback_types);
          if negb typed then mret (-3)
          else
            cur ← get_number (nth1 KEYS 1) "0";
            match cur with
            | None => mret (-4)
            | Some cur =>
                if negb (cur =? base) then mret (-1)
                else
                  complete ← current_complete cur (nth1 KEYS 5) (nth1 KEYS 6) (nth1 KEYS 10);
                  if negb complete then mret (-5)
                  else
                    same ← source_unchanged source_version cur (nth1 KEYS 9) (nth1 KEYS 5) (nth1 KEYS 6) (nth1 ARGV 7) file_count pairs;
                    if negb same then mret (-9)
                    else
                      free ← version_free (tostring (base + 1)) (nth1 KEYS 7) (nth1 KEYS 5) (nth1 KEYS 6);
                      if negb free then mret (-6)
                      else publish KEYS (base + 1) pairs (nth1 ARGV 2) (nth1 ARGV 3)
            end
    | _, _, _, _, _ => mret (-2)
    end.

(** ** Repairing *)

Definition repair_types : list bytes :=
  ["string" : bytes; "hash" : bytes; "hash" : bytes; "zset" : bytes; "hash" : bytes; "hash" : bytes; "list" : bytes].

(** No member of the index is above the current version. *)
Definition index_not_above (index_key : bytes) (cur : Z) : script bool :=
  top ← top_number index_key;
  mret (match top with None => true | Some None => false | Some (Some high) => negb (cur <? high) end).

(** The first part of the three scripts that repair the current version: the
    arguments, the types, the counter, the index.  [inl]: the code that is
    returned. *)
Definition repair_prologue (check_sizes : bool) (KEYS ARGV : list bytes) : script (Z + Z * Z * Z * Z) :=
  let n := Z.of_nat (length ARGV) in
  if negb ((n - 6) mod 2 =? 0) then mret (inl (-2))
  else if n <? 8 then mret (inl (-2))
  else
    match tonumber (nth1 ARGV 1), tonumber (nth1 ARGV 4), tonumber (nth1 ARGV 5), tonumber (nth1 ARGV 6) with
    | Some version, Some max_files, Some max_file_bytes, Some max_total_bytes =>
        let file_count := (n - 6) / 2 in
        if (file_count <? 1) || (max_files <? file_count) then mret (inl (-8))
        else if check_sizes && negb (sizes_ok max_file_bytes max_total_bytes 0 (pairs_from 7 ARGV)) then mret (inl (-8))
        else
          typed ← types_ok (expect KEYS repair_types);
          if negb typed then mret (inl (-3))
          else
            cur ← get_number (nth1 KEYS 1) [];
            match cur with
            | None => mret (inl (-4))
            | Some cur =>
                if negb (cur =? version) then mret (inl (-1))
                else
                  below ← index_not_above (nth1 KEYS 4) cur;
                  if negb below then mret (inl (-5)) else mret (inr (version, file_count, max_file_bytes, max_total_bytes))
            end
    | _, _, _, _ => mret (inl (-2))
    end.

(** The metadata, the index entry and the number of files are as expected. *)
Definition recorded (KEYS : list bytes) (member meta : bytes) (hash_key : bytes) (file_count : Z) : script bool :=
  m ← call (HGET (nth1 KEYS 3) member);
  if negb (bool_decide (m = Some meta)) then mret false
  else
    zs ← call (ZSCORE (nth1 KEYS 4) member);
    if bool_decide (zs = None) then mret false
    else len ← call (HLEN hash_key); mret (len =? file_count).

Definition snapshot_repair_script (KEYS ARGV : list bytes) : script Z :=
  p ← repair_prologue true KEYS ARGV;
  match p with
  | inl code => mret code
  | inr (version, file_count, _, _) =>
      let pairs := pairs_from 7 ARGV in
      e ← call (EXISTS (nth1 KEYS 5));
      if negb (e =? 0) then mret (-6)
      else
        ok ← recorded KEYS (tostring version) (nth1 ARGV 2) (nth1 KEYS 2) file_count;
        if negb ok then mret (-9)
        else
          same ← same_fields (nth1 KEYS 2) pairs;
          if negb same then mret (-9)
          else
            _ ← publish_hash (nth1 KEYS 6) (nth1 KEYS 5) pairs;
            _ ← audit (nth1 KEYS 7) (nth1 ARGV 3); mret version
  end.

(** The loop that tests sizes and fields together: the code, or nothing. *)
Fixpoint check_files (k : bytes) (max_file_bytes max_total_bytes total : Z) (pairs : list (bytes * bytes)) : script (option Z) :=
  match pairs with
  | [] => mret None
  | (name, content) :: rest =>
      let file_bytes := slen content in
      if max_file_bytes <? file_bytes then mret (Some (-8))
      else if max_total_bytes <? total + file_bytes then mret (Some (-8))
      else
        r ← call (HGET k name);
        if negb (bool_decide (r = Some content)) then mret (Some (-9))
        else check_files k max_file_bytes max_total_bytes (total + file_bytes) rest
  end.

Definition mirror_rebuild_script (KEYS ARGV : list bytes) : script Z :=
  p ← repair_prologue false KEYS ARGV;
  match p with
  | inl code => mret code
  | inr (version, file_count, max_file_bytes, max_total_bytes) =>
      let pairs := pairs_from 7 ARGV in
      e ← call (EXISTS (nth1 KEYS 5));
      if negb (e =? 1) then mret (-9)
      else
        ok ← recorded KEYS (tostring version) (nth1 ARGV 2) (nth1 KEYS 5) file_count;
        if negb ok then mret (-9)
        else
          bad ← check_files (nth1 KEYS 5) max_file_bytes max_total_bytes 0 pairs;
          match bad with
          | Some code => mret code
          | None =>
              _ ← publish_hash (nth1 KEYS 6) (nth1 KEYS 2) pairs;
              _ ← audit (nth1 KEYS 7) (nth1 ARGV 3); mret version
          end
  end.

(** There is no history yet. *)
Definition no_history (KEYS : list bytes) (member : bytes) : script bool :=
  card ← call (ZCARD (nth1 KEYS 4));
  if negb (card =? 0) then mret false
  else
    len ← call (HLEN (nth1 KEYS 3));
    if negb (len =? 0) then mret false
    else version_free member (nth1 KEYS 5) (nth1 KEYS 3) (nth1 KEYS 4).

Definition migration_script (KEYS ARGV : list bytes) : script Z :=
  p ← repair_prologue false KEYS ARGV;
  match p with
  | inl code => mret code
  | inr (version, file_count, max_file_bytes, max_total_bytes) =>
      let pairs := pairs_from 7 ARGV in
      let member := tostring version in
      none ← no_history KEYS member;
      if negb none then mret (-6)
      else
        len ← call (HLEN (nth1 KEYS 2));
        if negb (len =? file_count) then mret (-9)
        else
          bad ← check_files (nth1 KEYS 2) max_file_bytes max_total_bytes 0 pairs;
          match bad with
          | Some code => mret code
          | None =>
              _ ← publish_hash (nth1 KEYS 6) (nth1 KEYS 5) pairs;
              _ ← call (HSET (nth1 KEYS 3) [(member, nth1 ARGV 2)]);
              _ ← call (ZADD (nth1 KEYS 4) version member);
              _ ← audit (nth1 KEYS 7) (nth1 ARGV 3); mret version
          end
  end.

(** ** Orphans: versions above the counter *)

(** [string.match(value, '^([^|]+)')] *)
Fixpoint until_pipe (s : bytes) : bytes :=
  match s with c :: t => if ceqb c "|" then [] else c :: until_pipe t | [] => [] end.
Definition first_field (s : bytes) : option bytes := let f := until_pipe s in if beqb f [] then None else Some f.

(** The version a heartbeat reports. *)
Definition beat_version (value : bytes) : option Z := f ← first_field value; tonumber f.

Definition restore_types : list bytes :=
  ["string" : bytes; "hash" : bytes; "zset" : bytes; "hash" : bytes; "hash" : bytes; "hash" : bytes; "list" : bytes; "hash" : bytes].

(** The loop of the restoration: any deviation is -9. *)
Fixpoint restore_files (k : bytes) (max_file_bytes max_total_bytes total : Z) (pairs : list (bytes * bytes)) : script bool :=
  match pairs with
  | [] => mret true
  | (name, content) :: rest =>
      let file_bytes := slen content in
      if (max_file_bytes <? file_bytes) || (max_total_bytes <? total + file_bytes) then mret false
      else
        r ← call (HGET k name);
        if negb (bool_decide (r = Some content)) then mret false
        else restore_files k max_file_bytes max_total_bytes (total + file_bytes) rest
  end.

Definition restore_version_script (KEYS ARGV : list bytes) : script Z :=
  let n := Z.of_nat (length ARGV) in
  if negb ((n - 7) mod 2 =? 0) || (n <? 9) then mret (-2)
  else
    match tonumber (nth1 ARGV 1), tonumber (nth1 ARGV 2), tonumber (nth1 ARGV 5), tonumber (nth1 ARGV 6), tonumber (nth1 ARGV 7) with
    | Some expected_current, Some target, Some max_files, Some max_file_bytes, Some max_total_bytes =>
        let pairs := pairs_from 8 ARGV in
        typed ← types_ok (expect KEYS restore_types);
        if negb typed then mret (-3)
        else
          cur ← get_number (nth1 KEYS 1) "0";
          match cur with
          | None => mret (-4)
          | Some current =>
              if negb (current =? expected_current) then mret (-1)
              else if target <=? current then mret (-5)
              else
                top ← top_number (nth1 KEYS 3);
                if negb (bool_decide (top = Some (Some target))) then mret (-5)
                else
                  let member := tostring target in
                  let file_count := (n - 7) / 2 in
                  if (file_count <? 1) || (max_files <? file_count) then mret (-9)
                  else
                    e ← call (EXISTS (nth1 KEYS 5));
                    if negb (e =? 1) then mret (-9)
                    else
                      m ← call (HGET (nth1 KEYS 4) member);
                      if negb (bool_decide (m = Some (nth1 ARGV 3))) then mret (-9)
                      else
                        zs ← call (ZSCORE (nth1 KEYS 3) member);
                        if bool_decide (zs = None) then mret (-9)
                        else
                          len ← call (HLEN (nth1 KEYS 5));
                          if negb (len =? file_count) then mret (-9)
                          else
                            same ← restore_files (nth1 KEYS 5) max_file_bytes max_total_bytes 0 pairs;
                            if negb same then mret (-9)
                            else
                              beats ← call (HVALS (nth1 KEYS 8));
                              if existsb (λ v, match beat_version v with Some w => target <? w | None => false end) beats then mret (-5)
                              else
                                _ ← publish_hash (nth1 KEYS 6) (nth1 KEYS 2) pairs;
                                _ ← call (SET (nth1 KEYS 1) (number_arg target));
                                _ ← audit (nth1 KEYS 7) (nth1 ARGV 4); mret target
          end
    | _, _, _, _, _ => mret (-2)
    end.

Definition orphan_types : list bytes := ["string" : bytes; "zset" : bytes; "hash" : bytes; "hash" : bytes; "list" : bytes; "hash" : bytes].
Definition flag (b : bool) : bytes := if b then "1" else "0".
Definition kMissing : bytes := "__missing__".

(** The snapshot that is deleted is what the caller read. *)
Definition orphan_files (snapshot k : bytes) (file_count : Z) (pairs : list (bytes * bytes)) : script bool :=
  if beqb snapshot "1" then
    if file_count <? 1 then mret false
    else len ← call (HLEN k); if negb (len =? file_count) then mret false else same_fields k pairs
  else mret (file_count =? 0).

Definition delete_orphan_script (KEYS ARGV : list bytes) : script Z :=
  let n := Z.of_nat (length ARGV) in
  if negb ((n - 6) mod 2 =? 0) then mret (-2)
  else
    match tonumber (nth1 ARGV 1), tonumber (nth1 ARGV 2) with
    | Some expected_current, Some target =>
        let expected_indexed := nth1 ARGV 4 in
        let expected_snapshot := nth1 ARGV 5 in
        if (negb (beqb expected_indexed "0") && negb (beqb expected_indexed "1")) ||
           (negb (beqb expected_snapshot "0") && negb (beqb expected_snapshot "1")) then mret (-2)
        else
          typed ← types_ok (expect KEYS orphan_types);
          if negb typed then mret (-3)
          else
            cur ← get_number (nth1 KEYS 1) "0";
            match cur with
            | None => mret (-4)
            | Some current =>
                if negb (current =? expected_current) then mret (-1)
                else if negb (target =? current + 1) then mret (-5)
                else
                  beats ← call (HVALS (nth1 KEYS 6));
                  if existsb (λ v, match beat_version v with Some w => current <? w | None => false end) beats then mret (-5)
                  else
                    let member := tostring target in
                    zs ← call (ZSCORE (nth1 KEYS 2) member);
                    m ← call (HGET (nth1 KEYS 3) member);
                    e ← call (EXISTS (nth1 KEYS 4));
                    let indexed := flag (bool_decide (zs ≠ None)) in
                    let meta := default kMissing m in
                    let snapshot := flag (e =? 1) in
                    if negb (beqb indexed expected_indexed) || negb (beqb meta (nth1 ARGV 3)) || negb (beqb snapshot expected_snapshot)
                    then mret (-9)
                    else if beqb indexed "0" && beqb meta kMissing && beqb snapshot "0" then mret (-9)
                    else
                      same ← orphan_files snapshot (nth1 KEYS 4) ((n - 6) / 2) (pairs_from 7 ARGV);
                      if negb same then mret (-9)
                      else
                        _ ← call (UNLINK (nth1 KEYS 4));
                        _ ← call (HDEL (nth1 KEYS 3) member);
                        _ ← call (ZREM (nth1 KEYS 2) member);
                        _ ← audit (nth1 KEYS 5) (nth1 ARGV 6); mret 1
            end
    | _, _ => mret (-2)
    end.

(** ** Seeding *)

Definition seed_types : list bytes := ["hash" : bytes; "hash" : bytes; "hash" : bytes; "zset" : bytes; "hash" : bytes; "hash" : bytes].

(** Nothing of version 1 exists. *)
Definition seed_free (KEYS : list bytes) : script bool :=
  card ← call (ZCARD (nth1 KEYS 5));
  if negb (card =? 0) then mret false
  else
    len ← call (HLEN (nth1 KEYS 4));
    if negb (len =? 0) then mret false
    else e ← call (EXISTS (nth1 KEYS 6)); mret (e =? 0).

Definition seed_script (KEYS ARGV : list bytes) : script Z :=
  let n := Z.of_nat (length ARGV) in
  if negb ((n - 4) mod 2 =? 0) then mret (-2)
  else
    match tonumber (nth1 ARGV 2), tonumber (nth1 ARGV 3), tonumber (nth1 ARGV 4) with
    | Some max_files, Some max_file_bytes, Some max_total_bytes =>
        t ← call (TYPE (nth1 KEYS 1));
        if negb (beqb t "none") then mret 0
        else
          typed ← types_ok (expect (drop 1 KEYS) seed_types);
          if negb typed then mret (-3)
          else
            let file_count := (n - 4) / 2 in
            let pairs := pairs_from 5 ARGV in
            if max_files <? file_count then mret (-8)
            else if negb (sizes_ok max_file_bytes max_total_bytes 0 pairs) then mret (-8)
            else
              free ← seed_free KEYS;
              if negb free then mret (-6)
              else if file_count =? 0 then
                _ ← call (DEL (nth1 KEYS 2)); _ ← call (SET (nth1 KEYS 1) (number_arg 1)); mret 1
              else
                _ ← publish_hash (nth1 KEYS 7) (nth1 KEYS 6) pairs;
                _ ← call (HSET (nth1 KEYS 4) [("1" : bytes, nth1 ARGV 1)]);
                _ ← call (ZADD (nth1 KEYS 5) 1 "1");
                _ ← publish_hash (nth1 KEYS 3) (nth1 KEYS 2) pairs;
                _ ← call (SET (nth1 KEYS 1) (number_arg 1)); mret 1
    | _, _, _ => mret (-2)
    end.

(** ** Garbage collection *)

(** [string.match(meta, '"ts"%s*:%s*(%d+)')]: at one position, and the first
    position where it matches. *)
Fixpoint take_digits (s : bytes) : bytes :=
  match s with c :: t => if isdigit c then c :: take_digits t else [] | [] => [] end.
Definition ts_at (s : bytes) : option bytes :=
  if starts_with (quoted "ts") s then
    match drop_space (drop 4 s) with
    | c :: t =>
        if ceqb c ":" then
          let d := take_digits (drop_space t) in if beqb d [] then None else Some d
        else None
    | [] => None
    end
  else None.
Fixpoint find_ts (s : bytes) : option bytes :=
  match ts_at s with
  | Some d => Some d
  | None => match s with [] => None | _ :: t => find_ts t end
  end.

(** [meta and tonumber(...) or nil] *)
Definition meta_ts (meta : option bytes) : option Z := m ← meta; d ← find_ts m; tonumber d.

Definition gc_delete_script (KEYS ARGV : list bytes) : script Z :=
  cur ← get_number (nth1 KEYS 1) [];
  match tonumber (nth1 ARGV 1), tonumber (nth1 ARGV 2), tonumber (nth1 ARGV 3), cur with
  | Some candidate, Some retain, Some cutoff, Some current =>
      below ← index_not_above (nth1 KEYS 2) current;
      if negb below then mret (-5)
      else if current <=? candidate then mret 0
      else
        let member := tostring candidate in
        rank ← call (ZRANK (nth1 KEYS 2) member);
        count ← call (ZCARD (nth1 KEYS 2));
        match rank with
        | None => mret 0
        | Some rank =>
            if count - retain <=? rank then mret 0
            else
              meta ← call (HGET (nth1 KEYS 3) member);
              match meta_ts meta with
              | None => mret 0
              | Some ts =>
                  if cutoff <=? ts then mret 0
                  else
                    _ ← call (UNLINK (nth1 KEYS 4));
                    _ ← call (HDEL (nth1 KEYS 3) member);
                    _ ← call (ZREM (nth1 KEYS 2) member); mret 1
              end
        end
  | _, _, _, _ => mret (-2)
  end.

(** The loop of the candidates. *)
Fixpoint gc_loop (meta_key : bytes) (current cutoff batch : Z) (versions out : list bytes) : script (list bytes) :=
  match versions with
  | [] => mret out
  | version :: rest =>
      meta ← call (HGET meta_key version);
      match tonumber version, meta_ts meta with
      | Some numeric, Some ts =>
          if (numeric <? current) && (ts <? cutoff) then
            let out := out ++ [version] in
            if batch <=? Z.of_nat (length out) then mret out else gc_loop meta_key current cutoff batch rest out
          else gc_loop meta_key current cutoff batch rest out
      | _, _ => gc_loop meta_key current cutoff batch rest out
      end
  end.

Definition gc_candidates_script (KEYS ARGV : list bytes) : script (list bytes) :=
  match tonumber (nth1 ARGV 1), tonumber (nth1 ARGV 2), tonumber (nth1 ARGV 3), tonumber (nth1 ARGV 4) with
  | Some current, Some retain, Some cutoff, Some batch =>
      count ← call (ZCARD (nth1 KEYS 1));
      let eligible := count - retain in
      if eligible <=? 0 then mret []
      else
        versions ← call (ZRANGE (nth1 KEYS 1) 0 (Z.min (eligible - 1) (batch * 4 - 1)));
        gc_loop (nth1 KEYS 2) current cutoff batch versions []
  | _, _, _, _ => mret []
  end.

(** ** Reading *)

Definition detail_script (KEYS ARGV : list bytes) : script (list bytes) :=
  cur ← get_number (nth1 KEYS 1) [];
  match cur, tonumber (nth1 ARGV 1) with
  | Some cur, Some version =>
      if cur <? version then mret []
      else
        meta ← call (HGET (nth1 KEYS 2) (tostring version));
        match meta with
        | None => mret []
        | Some meta =>
            zs ← call (ZSCORE (nth1 KEYS 3) (tostring version));
            if bool_decide (zs = None) then mret []
            else
              e ← call (EXISTS (nth1 KEYS 4));
              if negb (e =? 1) then mret []
              else
                files ← call (HGETALL (nth1 KEYS 4));
                if bool_decide (files = []) then mret [] else mret (tostring cur :: meta :: files)
        end
  | _, _ => mret []
  end.

Fixpoint list_rows (cur : Z) (prefix : bytes) (versions : list bytes) (metas : list (option bytes)) : script (list bytes) :=
  match versions, metas with
  | version :: versions, meta :: metas =>
      match tonumber version, meta with
      | Some numeric, Some meta =>
          if cur <? numeric then list_rows cur prefix versions metas
          else
            e ← call (EXISTS (prefix ++ version));
            rest ← list_rows cur prefix versions metas;
            mret (if e =? 1 then version :: meta :: rest else rest)
      | _, _ => list_rows cur prefix versions metas
      end
  | _, _ => mret []
  end.

Definition list_script (KEYS ARGV : list bytes) : script (list bytes) :=
  cur ← get_number (nth1 KEYS 1) [];
  match cur, tonumber (nth1 ARGV 1), tonumber (nth1 ARGV 2) with
  | Some cur, Some before, Some limit =>
      if limit <? 1 then mret ["__error__" : bytes; "invalid" : bytes]
      else
        versions ← call (ZREVRANGEBYSCORE (nth1 KEYS 2) (if 0 <? before then Some before else None) limit);
        metas ← (if bool_decide (versions = []) then mret [] else call (HMGET (nth1 KEYS 3) versions));
        rows ← list_rows cur (nth1 ARGV 3) versions metas;
        mret (tostring cur :: rows)
  | _, _, _ => mret ["__error__" : bytes; "invalid" : bytes]
  end.

Definition highest_beat (beats : list bytes) : Z :=
  foldl (λ high v, match beat_version v with Some w => if high <? w then w else high | None => high end) 0 beats.

Definition inspect_types : list bytes := ["string" : bytes; "zset" : bytes; "hash" : bytes; "hash" : bytes; "hash" : bytes].
Definition inspect_error : list bytes := ["__error__" : bytes].

Definition orphan_inspect_script (KEYS ARGV : list bytes) : script (list bytes) :=
  typed ← types_ok (expect KEYS inspect_types);
  if negb typed then mret inspect_error
  else
    cur ← get_number (nth1 KEYS 1) "0";
    match cur, tonumber (nth1 ARGV 1) with
    | Some current, Some target =>
        if target <=? current then mret inspect_error
        else
          top ← call (ZREVRANGE (nth1 KEYS 2) 0 0);
          match tonumber (default ("0" : bytes) (head top)) with
          | None => mret inspect_error
          | Some index_high =>
              beats ← call (HVALS (nth1 KEYS 5));
              let member := tostring target in
              zs ← call (ZSCORE (nth1 KEYS 2) member);
              meta ← call (HGET (nth1 KEYS 3) member);
              e ← call (EXISTS (nth1 KEYS 4));
              let out := [tostring current; tostring index_high; tostring (highest_beat beats); flag (bool_decide (zs ≠ None));
                          default kMissing meta; flag (e =? 1)] in
              if e =? 1 then files ← call (HGETALL (nth1 KEYS 4)); mret (out ++ files) else mret out
          end
    | _, _ => mret inspect_error
    end.

(** ** Health *)

(** [string.match(value, '^[^|]+|([^|]+)')] *)
Definition second_field (s : bytes) : option bytes :=
  first ← first_field s;
  match drop (length first) s with
  | c :: t => if ceqb c "|" then first_field t else None
  | [] => None
  end.

(** Machines whose heartbeat is too old are forgotten. *)
Fixpoint sweep_machines (k : bytes) (now ttl high : Z) (machines : list (bytes * bytes)) : script Z :=
  match machines with
  | [] => mret high
  | (name, value) :: rest =>
      match (f ← second_field value; tonumber f) with
      | Some timestamp =>
          if ttl <? now - timestamp then _ ← call (HDEL k name); sweep_machines k now ttl high rest
          else
            sweep_machines k now ttl (match beat_version value with Some w => if high <? w then w else high | None => high end) rest
      | None => _ ← call (HDEL k name); sweep_machines k now ttl high rest
      end
  end.

(** Every value is read whether the verdict needs it or not: the types were tested,
    so no read fails. *)
Definition integrity (KEYS ARGV : list bytes) (current index_high : Z) : script bytes :=
  if negb (0 <? current) then mret ("ok" : bytes)
  else
    let member := tostring current in
    exists_ ← call (EXISTS (nth1 ARGV 1 ++ member));
    card ← call (ZCARD (nth1 KEYS 2));
    metas ← call (HLEN (nth1 KEYS 4));
    mirror ← call (HLEN (nth1 KEYS 5));
    zs ← call (ZSCORE (nth1 KEYS 2) member);
    meta ← call (HGET (nth1 KEYS 4) member);
    let no_history := (card =? 0) && (metas =? 0) && (exists_ =? 0) in
    mret (if no_history && (current =? 1) && (mirror =? 0) then ("legacy-empty" : bytes)
          else if no_history && (0 <? mirror) then ("legacy" : bytes)
          else if negb (index_high =? current) || bool_decide (zs = None) || bool_decide (meta = None) || negb (exists_ =? 1)
          then ("incomplete" : bytes) else ("ok" : bytes)).

Definition health_script (KEYS ARGV : list bytes) : script (list bytes) :=
  typed ← types_ok (expect KEYS inspect_types);
  if negb typed then mret ["invalid" : bytes; "invalid" : bytes; "invalid" : bytes; "invalid" : bytes]
  else
    cur ← get_number (nth1 KEYS 1) "0";
    match cur with
    | None => mret ["invalid" : bytes; "0" : bytes; "0" : bytes; "invalid" : bytes]
    | Some current =>
        top ← top_number (nth1 KEYS 2);
        let index_high := match top with None => 0 | Some None => -1 | Some (Some h) => h end in
        machines ← call (HGETALL (nth1 KEYS 3));
        machine_high ← sweep_machines (nth1 KEYS 3) (default 0 (tonumber (nth1 ARGV 2))) (default 3600 (tonumber (nth1 ARGV 3))) 0
                         (pair_elements machines);
        verdict ← integrity KEYS ARGV current index_high;
        mret [tostring current; tostring index_high; tostring machine_high; verdict]
    end.

(** ** The calls of the gateway

    KEYS and ARGV as the handlers build them. *)

Definition limits (cfg : ConfigHistoryConfig) : list bytes :=
  [to_string (max_files cfg); to_string (max_file_bytes cfg); to_string (max_snapshot_bytes cfg)].

Inductive txn :=
| TSave (base : Z) (audit meta : bytes) (files : files_map)
| TRollback (base target : Z) (audit meta source_meta : bytes) (files : files_map)
| TRepairSnapshot (version : Z) (meta audit : bytes) (files : files_map)
| TRebuildMirror (version : Z) (meta audit : bytes) (files : files_map)
| TMigrate (version : Z) (meta audit : bytes) (files : files_map)
| TRestore (current target : Z) (meta audit : bytes) (files : files_map)
| TDeleteOrphan (current target : Z) (meta audit : bytes) (indexed snapshot : bool) (files : files_map)
| TSeed (meta : bytes) (files : files_map)
| TCollect (candidate cutoff : Z)
| THealth (now : Z)
| TBeat (machine payload : bytes).

Definition repair_keys (version : Z) (staging : bytes) : list bytes :=
  [kVersionKey; kFilesKey; kMetaKey; kIndexKey; snapshot_key version; staging; kAuditKey].
Definition repair_args (cfg : ConfigHistoryConfig) (version : Z) (meta audit : bytes) (files : files_map) : list bytes :=
  [to_string version; meta; audit] ++ limits cfg ++ flatten files.

(** The result of a script that answers a number; the other answers do not matter
    for the store. *)
Definition run_txn (cfg : ConfigHistoryConfig) (t : txn) : script Z :=
  match t with
  | TSave base audit meta files =>
      save_script [kVersionKey; kFilesKey; kAuditKey; kStagingKey; kMetaKey; kIndexKey; snapshot_key (base + 1); kSnapshotStagingKey; snapshot_key base]
        ([to_string base; audit; meta] ++ limits cfg ++ flatten files)
  | TRollback base target audit meta source_meta files =>
      rollback_script
        [kVersionKey; kFilesKey; kAuditKey; kStagingKey; kMetaKey; kIndexKey; snapshot_key (base + 1); kSnapshotStagingKey; snapshot_key target;
         snapshot_key base]
        ([to_string base; audit; meta] ++ limits cfg ++ [source_meta; to_string target] ++ flatten files)
  | TRepairSnapshot version meta audit files =>
      snapshot_repair_script (repair_keys version kSnapshotStagingKey) (repair_args cfg version meta audit files)
  | TRebuildMirror version meta audit files => mirror_rebuild_script (repair_keys version kStagingKey) (repair_args cfg version meta audit files)
  | TMigrate version meta audit files => migration_script (repair_keys version kSnapshotStagingKey) (repair_args cfg version meta audit files)
  | TRestore current target meta audit files =>
      restore_version_script
        [kVersionKey; kFilesKey; kIndexKey; kMetaKey; snapshot_key target; kStagingKey; kAuditKey; kMachinesKey]
        ([to_string current; to_string target; meta; audit] ++ limits cfg ++ flatten files)
  | TDeleteOrphan current target meta audit indexed snapshot files =>
      delete_orphan_script [kVersionKey; kIndexKey; kMetaKey; snapshot_key target; kAuditKey; kMachinesKey]
        ([to_string current; to_string target; meta; flag indexed; flag snapshot; audit] ++ flatten files)
  | TSeed meta files =>
      seed_script [kVersionKey; kFilesKey; kStagingKey; kMetaKey; kIndexKey; snapshot_key 1; kSnapshotStagingKey]
        ([meta] ++ limits cfg ++ flatten files)
  | TCollect candidate cutoff =>
      gc_delete_script [kVersionKey; kIndexKey; kMetaKey; snapshot_key candidate]
        [to_string candidate; to_string (retention_versions cfg); to_string cutoff]
  | THealth now =>
      _ ← health_script [kVersionKey; kIndexKey; kMachinesKey; kMetaKey; kFilesKey] [kSnapshotPrefix; to_string now; to_string (machine_ttl_sec cfg)];
      mret 0
  | TBeat machine payload => call (HSET kMachinesKey [(machine, payload)])
  end.

End model.

(** ** The keys are distinct *)

Lemma to_string_head n : 0 ≤ n ≤ SIZE_MAX → ∃ c t, to_string n = c :: t ∧ isdigit c = true.
Proof.
  intros Hn. destruct (to_string_digits n Hn) as (Hd & _ & Hne). destruct (to_string n) as [|c t]; [done|]. exists c, t.
  split; [done|]. by apply Forall_inv in Hd.
Qed.

Lemma snapshot_key_inj v w : 0 ≤ v ≤ SIZE_MAX → 0 ≤ w ≤ SIZE_MAX → snapshot_key v = snapshot_key w → v = w.
Proof.
  intros Hv Hw E. apply app_inv_head in E. destruct (to_string_digits v Hv) as (_ & Hv' & _). destruct (to_string_digits w Hw) as (_ & Hw' & _).
  by rewrite <- Hv', <- Hw', E.
Qed.

Definition fixed_keys : list bytes :=
  [kVersionKey; kFilesKey; kAuditKey; kStagingKey; kMetaKey; kIndexKey; kSnapshotStagingKey; kMachinesKey].

Lemma snapshot_key_fixed v k : 0 ≤ v ≤ SIZE_MAX → k ∈ fixed_keys → snapshot_key v ≠ k.
Proof.
  intros Hv Hk. destruct (to_string_head v Hv) as (c & t & E & Hc). unfold snapshot_key. rewrite E.
  unfold fixed_keys in Hk. rewrite !elem_of_cons, elem_of_nil in Hk.
  intros Heq. apply (f_equal (λ s, nth 25 s NUL)) in Heq.
  destruct Hk as [->|[->|[->|[->|[->|[->|[->|[->|[]]]]]]]]]; vm_compute in Heq; subst c; by vm_compute in Hc.
Qed.
