(* ===== verification/HistorySafety.v ===== *)
(** * What the scripts do to the history

    Every transaction of the gateway is described by its effect on the rows of the
    history (snapshot, metadata and index entry of a version), the counter and the
    mirror; a transaction that is refused or fails leaves all of them as they were.
    From these effects follows that a published version is immutable: under every
    sequence of transactions it stays as it was published until the garbage
    collection removes it, and the counter only grows. *)

From S2P Require Import Prelude Config Response AdminJson AppConfig OrderedMap ConfigHistory ConfigSync RedisStore HistoryScripts.

(** A fact on concrete keys. *)
Ltac on_keys := by apply (bool_decide_unpack _); vm_compute.

(** ** Rows *)

Definition meta_of (ks : keyspace) (v : Z) : option bytes := h ← as_hash ks kMetaKey; h !! to_string v.
Definition index_of (ks : keyspace) (v : Z) : option Z := z ← as_zset ks kIndexKey; z !! to_string v.
Definition row (ks : keyspace) (v : Z) : option rvalue * option bytes * option Z := (ks !! snapshot_key v, meta_of ks v, index_of ks v).
Definition no_row : option rvalue * option bytes * option Z := (None, None, None).

(** The counter; without the key it is 0. *)
Definition version_is (ks : keyspace) (n : Z) : Prop :=
  match ks !! kVersionKey with None => n = 0 | Some (RStr s) => s = to_string n | Some _ => False end ∧ 0 ≤ n < LUA_EXACT - 1.

Definition version_num (v : Z) : Prop := 0 ≤ v ≤ INT64_MAX.

(** The history is the same: the counter, the mirror and all rows. *)
Definition same_rows (P : Z → Prop) (ks ks' : keyspace) : Prop := ∀ v, version_num v → P v → row ks' v = row ks v.
Definition unchanged (ks ks' : keyspace) : Prop :=
  ks' !! kVersionKey = ks !! kVersionKey ∧ ks' !! kFilesKey = ks !! kFilesKey ∧ same_rows (λ _, True) ks ks'.

#[export] Instance unchanged_refl : Reflexive unchanged.
Proof. done. Qed.

(** Key spaces that agree outside some keys. *)
Definition agree_but (K : list bytes) (ks ks' : keyspace) : Prop := ∀ k, k ∉ K → ks' !! k = ks !! k.

Lemma version_num_size v : version_num v → 0 ≤ v ≤ SIZE_MAX.
Proof. unfold version_num, INT64_MAX, SIZE_MAX. lia. Qed.

Lemma row_agree ks ks' v : ks' !! snapshot_key v = ks !! snapshot_key v → ks' !! kMetaKey = ks !! kMetaKey → ks' !! kIndexKey = ks !! kIndexKey →
  row ks' v = row ks v.
Proof. intros Hs Hm Hi. unfold row, meta_of, index_of, as_hash, as_zset. by rewrite Hs, Hm, Hi. Qed.

(** Keys that are not part of the history. *)
Definition side_keys : list bytes := [kAuditKey; kStagingKey; kSnapshotStagingKey; kMachinesKey].

Lemma agree_unchanged K ks ks' : agree_but K ks ks' → K ⊆ side_keys → unchanged ks ks'.
Proof.
  intros Ha HK. assert (∀ k, k ∉ side_keys → ks' !! k = ks !! k) as Hk by (intros k Hk; apply Ha; intros Hin; by apply Hk, HK).
  split_and!; [apply Hk; on_keys..|]. intros v Hv _.
  apply row_agree; apply Hk; [|on_keys..]. intros Hin.
  apply (snapshot_key_fixed v (snapshot_key v)); [by apply version_num_size| |done].
  revert Hin. unfold side_keys, fixed_keys. rewrite !elem_of_cons, elem_of_nil. tauto.
Qed.

(** ** Files as hashes *)

Definition hash_of (files : files_map) : gmap bytes bytes := set_fields files ∅.

Lemma set_fields_lookup files h f : NoDup files.*1 →
  set_fields files h !! f = match list_to_map (M := gmap bytes bytes) files !! f with Some v => Some v | None => h !! f end.
Proof.
  unfold set_fields. revert h. induction files as [|[k v] files IH]; intros h; [done|]. cbn [fmap list_fmap fst]. intros [Hk Hnd]%NoDup_cons.
  cbn [foldl fst snd list_to_map foldr]. rewrite IH by done. destruct (decide (k = f)) as [->|Hne].
  - rewrite lookup_insert_eq. apply not_elem_of_list_to_map_1 in Hk. rewrite Hk. by rewrite lookup_insert_eq.
  - by rewrite !lookup_insert_ne by done.
Qed.

Lemma hash_of_map files : NoDup files.*1 → hash_of files = list_to_map files.
Proof.
  intros Hnd. apply map_eq. intros f. unfold hash_of. rewrite set_fields_lookup by done. rewrite lookup_empty. by destruct (_ !! f).
Qed.

(** A hash with the given fields and no other. *)
Lemma hash_of_fields files h : NoDup files.*1 → (∀ kv, kv ∈ files → h !! kv.1 = Some kv.2) → Z.of_nat (size h) = Z.of_nat (length files) → h = hash_of files.
Proof.
  intros Hnd Hf Hs. rewrite hash_of_map by done. symmetry.
  assert ((list_to_map files : gmap bytes bytes) ⊆ h) as Hsub.
  { apply map_subseteq_spec. intros k v Hk. apply elem_of_list_to_map_2 in Hk. by apply (Hf (k, v)). }
  apply map_subseteq_size_eq; [done|].
  rewrite <- (length_map_to_list (list_to_map files : gmap bytes bytes)), map_to_list_to_map by done. lia.
Qed.

Lemma set_fields_nonempty files h : files ≠ [] → set_fields files h ≠ ∅.
Proof.
  unfold set_fields. destruct files as [|[k v] files]; [done|]. intros _. cbn [foldl fst snd].
  assert (∀ fs (h : gmap bytes bytes), h ≠ ∅ → foldl (λ h kv, <[kv.1 := kv.2]> h) h fs ≠ ∅) as Hg.
  { induction fs as [|[k' v'] fs IH]; intros h' Hh; [done|]. cbn [foldl]. apply IH, insert_non_empty. }
  apply Hg, insert_non_empty.
Qed.

Section specs.
Context `{Redis, !RedisLaws, LuaNumbers}.

(** ** Scripts that only read *)

(** The store stays, and a result satisfies [P]. *)
Definition returns {A} (s : script A) (ks : keyspace) (P : A → Prop) : Prop := wp s ks (λ r ks', ks' = ks ∧ ∀ a, r = Some a → P a).

Lemma wp_returns {A B} (s : script A) (k : A → script B) ks P Q :
  returns s ks P → Q None ks → (∀ a, P a → wp (k a) ks Q) → wp (s ≫= k) ks Q.
Proof. intros Hs HN Hk. apply wp_bind. eapply wp_mono; [exact Hs|]. intros [a|] ks' [-> HP]; [by apply Hk, HP|done]. Qed.

Lemma returns_ret {A} (a : A) ks (P : A → Prop) : P a → returns (mret a) ks P.
Proof. intros HP. apply wp_ret. split; [done|]. by intros ? [= <-]. Qed.

Lemma returns_bind {A B} (s : script A) (k : A → script B) ks P P' :
  returns s ks P → (∀ a, P a → returns (k a) ks P') → returns (s ≫= k) ks P'.
Proof. intros Hs Hk. eapply wp_returns; [exact Hs|done|exact Hk]. Qed.

Lemma returns_mono {A} (s : script A) ks (P P' : A → Prop) : returns s ks P → (∀ a, P a → P' a) → returns s ks P'.
Proof. intros Hs HP. eapply wp_mono; [exact Hs|]. intros r ks' [-> Hr]. split; [done|]. intros a Ha. by apply HP, Hr. Qed.

(** A command that leaves the key space as it is. *)
Lemma returns_call {A} (c : cmd A) ks (P : A → Prop) :
  (∀ order, lists_fields order → (exec order c ks).2 = ks ∧ ∀ a, (exec order c ks).1 = Some a → P a) → returns (call c) ks P.
Proof. intros Hc. apply wp_call. exact Hc. Qed.

Lemma returns_read {X A} (c : cmd A) ks (o : option X) (f : X → A) (P : A → Prop) :
  (∀ order, exec order c ks = reads ks o f) → (∀ x, o = Some x → P (f x)) → returns (call c) ks P.
Proof.
  intros Hc HP. apply returns_call. intros order _. rewrite Hc. unfold reads. cbn [fst snd]. split; [done|].
  intros a Ha. apply fmap_Some in Ha as (x & -> & ->). by apply HP.
Qed.

Lemma returns_type k ks : returns (call (TYPE k)) ks (λ t, t = type_name (ks !! k)).
Proof. apply returns_call. intros order _. split; [done|]. by intros ? [= <-]. Qed.
Lemma returns_get k ks : returns (call (GET k)) ks (λ r, as_str ks k = Some r).
Proof. by eapply returns_read. Qed.
Lemma returns_exists k ks : returns (call (EXISTS k)) ks (λ e, e = truth (bool_decide (is_Some (ks !! k)))).
Proof. apply returns_call. intros order _. split; [done|]. by intros ? [= <-]. Qed.
Lemma returns_hget k f ks : returns (call (HGET k f)) ks (λ r, ∃ h, as_hash ks k = Some h ∧ r = h !! f).
Proof. eapply returns_read; [done|]. intros h Hh. by exists h. Qed.
Lemma returns_hexists k f ks : returns (call (HEXISTS k f)) ks (λ r, ∃ h, as_hash ks k = Some h ∧ r = truth (bool_decide (is_Some (h !! f)))).
Proof. eapply returns_read; [done|]. intros h Hh. by exists h. Qed.
Lemma returns_hlen k ks : returns (call (HLEN k)) ks (λ r, ∃ h, as_hash ks k = Some h ∧ r = Z.of_nat (size h)).
Proof. eapply returns_read; [done|]. intros h Hh. by exists h. Qed.
Lemma returns_zcard k ks : returns (call (ZCARD k)) ks (λ r, ∃ z, as_zset ks k = Some z ∧ r = Z.of_nat (size z)).
Proof. eapply returns_read; [done|]. intros z Hz. by exists z. Qed.
Lemma returns_zscore k m ks : returns (call (ZSCORE k m)) ks (λ r, ∃ z, as_zset ks k = Some z ∧ r = to_string <$> z !! m).
Proof. eapply returns_read; [done|]. intros z Hz. by exists z. Qed.
Lemma returns_zrank k m ks :
  returns (call (ZRANK k m)) ks (λ r, ∃ z, as_zset ks k = Some z ∧
    r = s ← z !! m; Some (Z.of_nat (length (filter (λ e, zless e (m, s) = true) (zmembers z))))).
Proof. eapply returns_read; [done|]. intros z Hz. by exists z. Qed.
Lemma returns_zrevrange k a b ks : returns (call (ZREVRANGE k a b)) ks (λ r, ∃ z, as_zset ks k = Some z ∧ r = in_range_of (reverse (zmembers z).*1) a b).
Proof. eapply returns_read; [done|]. intros z Hz. by exists z. Qed.
Lemma returns_hvals k ks : returns (call (HVALS k)) ks (λ _, True).
Proof. apply returns_call. intros order _. split; [|done]. cbn [exec]. unfold reads. by destruct (as_hash ks k). Qed.
Lemma returns_hgetall k ks : returns (call (HGETALL k)) ks (λ _, True).
Proof. apply returns_call. intros order _. split; [|done]. cbn [exec]. unfold reads. by destruct (as_hash ks k). Qed.

Lemma returns_types keys ks :
  returns (types_ok keys) ks (λ r, r = forallb (λ ke, beqb (type_name (ks !! ke.1)) ke.2 || beqb (type_name (ks !! ke.1)) "none") keys).
Proof. apply types_ok_spec. split; [done|]. by intros ? [= <-]. Qed.

Lemma returns_same_fields k pairs ks : returns (same_fields k pairs) ks (λ r, r = true → ∀ kv, kv ∈ pairs → ∃ h, as_hash ks k = Some h ∧ h !! kv.1 = Some kv.2).
Proof.
  apply same_fields_spec. destruct (as_hash ks k) as [h|].
  - split; [done|]. intros ? [= <-] Hf kv Hin. exists h. split; [done|]. rewrite forallb_forall in Hf.
    eapply bool_decide_eq_true_1, Hf. by apply list_elem_of_In.
  - split; [done|]. case_bool_decide as Hp; [|done]. subst pairs. intros ? [= <-] _ kv Hin. by apply not_elem_of_nil in Hin.
Qed.

(** A test that fails ends the reading. *)
Lemma returns_if {A} (b : bool) (s t : script A) ks P : (b = true → returns s ks P) → (b = false → returns t ks P) → returns (if b then s else t) ks P.
Proof. destruct b; auto. Qed.

Lemma returns_number k def ks : returns (get_number k def) ks (λ r, ∃ o, as_str ks k = Some o ∧ r = tonumber (default def o)).
Proof. eapply returns_bind; [apply returns_get|]. intros o Ho. apply returns_ret. by exists o. Qed.

Lemma returns_top k ks : returns (top_number k) ks (λ _, True).
Proof. eapply returns_bind; [apply returns_zrevrange|]. intros top _. by apply returns_ret. Qed.

End specs.

(** Reads one command after the other. *)
Ltac read_command :=
  first [apply returns_type | apply returns_get | apply returns_exists | apply returns_hget | apply returns_hexists | apply returns_hlen
        | apply returns_zcard | apply returns_zscore | apply returns_zrank | apply returns_zrevrange | apply returns_hvals | apply returns_hgetall
        | apply returns_types | apply returns_same_fields | apply returns_number | apply returns_top].
Ltac read_result := let r := fresh "r" in let Hr := fresh "Hr" in intros r Hr; cbv beta in Hr.
Ltac reading :=
  repeat match goal with
  | |- returns (mret _) _ _ => apply returns_ret
  | |- returns (if _ then _ else _) _ _ => apply returns_if; let Hc := fresh "Hc" in intros Hc
  | |- returns (_ ≫= _) _ _ => eapply returns_bind; [read_command|read_result]
  | |- returns (call _) _ _ => eapply returns_mono; [read_command|read_result]
  | |- returns (same_fields _ _) _ _ => eapply returns_mono; [read_command|read_result]
  end.

Section specs.
Context `{Redis, !RedisLaws, LuaNumbers}.

Lemma returns_complete cur mk ik sk ks : returns (current_complete cur mk ik sk) ks (λ _, True).
Proof. unfold current_complete. by reading. Qed.

Lemma returns_below ik cur ks : returns (index_not_above ik cur) ks (λ _, True).
Proof. unfold index_not_above. by reading. Qed.

(** Nothing of a version exists. *)
Definition free (ks : keyspace) (member sk mk ik : bytes) : Prop :=
  ks !! sk = None ∧ (∃ h, as_hash ks mk = Some h ∧ h !! member = None) ∧ ∃ z, as_zset ks ik = Some z ∧ z !! member = None.

Lemma truth_0 b : truth b = 0 ↔ b = false.
Proof. by destruct b. Qed.
Lemma truth_1 b : truth b = 1 ↔ b = true.
Proof. by destruct b. Qed.
Lemma not_Some {A} (o : option A) : bool_decide (is_Some o) = false ↔ o = None.
Proof. rewrite bool_decide_eq_false, <- eq_None_not_Some. done. Qed.

Lemma returns_free member sk mk ik ks : returns (version_free member sk mk ik) ks (λ r, r = true → free ks member sk mk ik).
Proof.
  unfold version_free. reading; try done. intros Hz%bool_decide_eq_true. destruct Hr0 as (h & Hh & ->), Hr1 as (z & Hz' & ->). subst r.
  apply negb_false_iff, Z.eqb_eq, truth_0, not_Some in Hc. apply negb_false_iff, Z.eqb_eq, truth_0, not_Some in Hc0. apply fmap_None in Hz.
  split_and!; eauto.
Qed.

(** The fields of a hash. *)
Definition has_fields (ks : keyspace) (k : bytes) (pairs : files_map) : Prop := ∀ kv, kv ∈ pairs → ∃ h, as_hash ks k = Some h ∧ h !! kv.1 = Some kv.2.

Lemma returns_recorded KEYS member meta k count ks :
  returns (recorded KEYS member meta k count) ks (λ r, r = true →
    (∃ h, as_hash ks (nth1 KEYS 3) = Some h ∧ h !! member = Some meta) ∧ (∃ z, as_zset ks (nth1 KEYS 4) = Some z ∧ is_Some (z !! member)) ∧
    ∃ h, as_hash ks k = Some h ∧ Z.of_nat (size h) = count).
Proof.
  unfold recorded. reading; try done. intros Hl%Z.eqb_eq. destruct Hr as (h & Hh & ->), Hr0 as (z & Hz & ->), Hr1 as (h' & Hh' & ->).
  apply negb_false_iff, bool_decide_eq_true in Hc. apply bool_decide_eq_false in Hc0. rewrite fmap_None in Hc0.
  split_and!; [by exists h|exists z; split; [done|by apply not_eq_None_Some]|by exists h'].
Qed.

Lemma returns_source version cur sk mk ik meta count pairs ks :
  returns (source_unchanged version cur sk mk ik meta count pairs) ks (λ r, r = true →
    version ≤ cur ∧ is_Some (ks !! sk) ∧ (∃ h, as_hash ks mk = Some h ∧ h !! tostring version = Some meta) ∧
    (∃ h, as_hash ks sk = Some h ∧ Z.of_nat (size h) = count) ∧ has_fields ks sk pairs).
Proof.
  unfold source_unchanged. reading; try done. intros Ht. destruct Hr0 as (h & Hh & ->), Hr2 as (h' & Hh' & ->). subst r.
  apply Z.ltb_ge in Hc. apply negb_false_iff, Z.eqb_eq, truth_1, bool_decide_eq_true in Hc0.
  apply negb_false_iff, bool_decide_eq_true in Hc1. apply negb_false_iff, Z.eqb_eq in Hc3.
  split_and!; [lia|done|by exists h|by exists h'|exact (Hr3 Ht)].
Qed.

Lemma returns_check k mf mt total pairs ks : returns (check_files k mf mt total pairs) ks (λ r, match r with Some c => (0 <? c) = false | None => has_fields ks k pairs end).
Proof.
  revert total. induction pairs as [|[f v] pairs IH]; intros total; cbn [check_files].
  { apply returns_ret. intros kv Hin. by apply not_elem_of_nil in Hin. }
  reading; try done. eapply returns_mono; [apply IH|]. intros [c|] Hf; [done|]. intros kv [->|Hin]%elem_of_cons; [|by apply Hf].
  destruct Hr as (h & Hh & ->). exists h. split; [done|]. by apply negb_false_iff, bool_decide_eq_true in Hc1.
Qed.

Lemma returns_restore k mf mt total pairs ks : returns (restore_files k mf mt total pairs) ks (λ r, r = true → has_fields ks k pairs).
Proof.
  revert total. induction pairs as [|[f v] pairs IH]; intros total; cbn [restore_files].
  { apply returns_ret. intros _ kv Hin. by apply not_elem_of_nil in Hin. }
  reading; try done. eapply returns_mono; [apply IH|]. intros r' Hf Hn kv [->|Hin]%elem_of_cons; [|by apply Hf].
  destruct Hr as (h & Hh & ->). exists h. split; [done|]. by apply negb_false_iff, bool_decide_eq_true in Hc0.
Qed.

Lemma returns_orphan snapshot k count pairs ks : returns (orphan_files snapshot k count pairs) ks (λ _, True).
Proof. unfold orphan_files. by reading. Qed.

Lemma returns_seed_free KEYS ks : returns (seed_free KEYS) ks (λ r, r = true →
  as_zset ks (nth1 KEYS 5) = Some ∅ ∧ as_hash ks (nth1 KEYS 4) = Some ∅ ∧ ks !! nth1 KEYS 6 = None).
Proof.
  unfold seed_free. reading; try done. intros He%Z.eqb_eq. destruct Hr as (z & Hz & ->), Hr0 as (h & Hh & ->). subst r1.
  apply negb_false_iff, Z.eqb_eq in Hc, Hc0. apply truth_0, not_Some in He.
  rewrite Hz, Hh. assert (z = ∅) as -> by (apply map_size_empty_iff; lia).
  by assert (h = ∅) as -> by (apply map_size_empty_iff; lia).
Qed.

(** ** Commands that write *)

Lemma wp_publish_hash staging target pairs ks (Q : option unit → keyspace → Prop) :
  pairs ≠ [] → Q (Some ()) (<[target := RHash (hash_of pairs)]> (delete staging ks)) → wp (publish_hash staging target pairs) ks Q.
Proof.
  intros Hp HQ. unfold publish_hash. apply wp_bind, wp_call. intros order _. cbn [exec fst snd].
  apply wp_bind, wp_call. intros order' _. cbn [exec]. rewrite bool_decide_eq_false_2 by done. unfold as_hash. rewrite lookup_delete_eq.
  cbn [updates fst snd]. unfold put_hash. rewrite bool_decide_eq_false_2 by by apply set_fields_nonempty.
  apply wp_call. intros order'' _. cbn [exec]. rewrite lookup_insert_eq. cbn [fst snd]. fold (hash_of pairs).
  by rewrite delete_insert_eq, delete_delete_eq.
Qed.

Lemma put_list_other k l ks k' : k' ≠ k → put_list k l ks !! k' = ks !! k'.
Proof. intros Hk. unfold put_list. case_bool_decide; [by rewrite lookup_delete_ne|by rewrite lookup_insert_ne]. Qed.
Lemma put_hash_other k h ks k' : k' ≠ k → put_hash k h ks !! k' = ks !! k'.
Proof. intros Hk. unfold put_hash. case_bool_decide; [by rewrite lookup_delete_ne|by rewrite lookup_insert_ne]. Qed.
Lemma put_zset_other k z ks k' : k' ≠ k → put_zset k z ks !! k' = ks !! k'.
Proof. intros Hk. unfold put_zset. case_bool_decide; [by rewrite lookup_delete_ne|by rewrite lookup_insert_ne]. Qed.
Lemma put_hash_same k h ks : as_hash (put_hash k h ks) k = Some h.
Proof. unfold put_hash, as_hash. case_bool_decide as Hh; [by rewrite lookup_delete_eq, Hh|by rewrite lookup_insert_eq]. Qed.
Lemma put_zset_same k z ks : as_zset (put_zset k z ks) k = Some z.
Proof. unfold put_zset, as_zset. case_bool_decide as Hz; [by rewrite lookup_delete_eq, Hz|by rewrite lookup_insert_eq]. Qed.

Lemma wp_audit k entry ks (Q : option unit → keyspace → Prop) :
  (∀ ks', agree_but [k] ks ks' → Q (Some ()) ks') → wp (audit k entry) ks Q.
Proof.
  intros HQ. unfold audit. apply wp_pcall, wp_bind, wp_call. intros order _. cbn [exec]. unfold updates.
  destruct (as_list ks k) as [l|]; cbn [fst snd]; [|by apply HQ].
  apply wp_call. intros order' _. cbn [exec]. unfold updates. destruct (as_list _ k) as [l'|]; cbn [fst snd]; apply HQ; intros k' Hk';
    apply not_elem_of_cons in Hk' as [Hk' _]; by rewrite ?put_list_other.
Qed.

Lemma wp_hset k f v ks (Q : option Z → keyspace → Prop) h : as_hash ks k = Some h →
  (∀ a, Q (Some a) (put_hash k (<[f := v]> h) ks)) → wp (call (HSET k [(f, v)])) ks Q.
Proof. intros Hh HQ. apply wp_call. intros order _. cbn [exec]. rewrite bool_decide_eq_false_2 by done. rewrite Hh. cbn [updates fst snd]. apply HQ. Qed.
Lemma wp_zadd k s m ks (Q : option Z → keyspace → Prop) z : as_zset ks k = Some z →
  (∀ a, Q (Some a) (put_zset k (<[m := s]> z) ks)) → wp (call (ZADD k s m)) ks Q.
Proof. intros Hz HQ. apply wp_call. intros order _. cbn [exec]. rewrite Hz. cbn [updates fst snd]. apply HQ. Qed.
Lemma wp_hdel k f ks (Q : option Z → keyspace → Prop) h : as_hash ks k = Some h →
  (∀ a, Q (Some a) (put_hash k (delete f h) ks)) → wp (call (HDEL k f)) ks Q.
Proof. intros Hh HQ. apply wp_call. intros order _. cbn [exec]. rewrite Hh. cbn [updates fst snd]. apply HQ. Qed.
Lemma wp_zrem k m ks (Q : option Z → keyspace → Prop) z : as_zset ks k = Some z →
  (∀ a, Q (Some a) (put_zset k (delete m z) ks)) → wp (call (ZREM k m)) ks Q.
Proof. intros Hz HQ. apply wp_call. intros order _. cbn [exec]. rewrite Hz. cbn [updates fst snd]. apply HQ. Qed.
Lemma wp_set k v ks (Q : option unit → keyspace → Prop) : Q (Some ()) (<[k := RStr v]> ks) → wp (call (SET k v)) ks Q.
Proof. intros HQ. apply wp_call. intros order _. done. Qed.
Lemma wp_unlink k ks (Q : option Z → keyspace → Prop) : (∀ a, Q (Some a) (delete k ks)) → wp (call (UNLINK k)) ks Q.
Proof. intros HQ. apply wp_call. intros order _. cbn [exec fst snd]. apply HQ. Qed.
Lemma wp_del k ks (Q : option Z → keyspace → Prop) : (∀ a, Q (Some a) (delete k ks)) → wp (call (DEL k)) ks Q.
Proof. intros HQ. apply wp_call. intros order _. cbn [exec fst snd]. apply HQ. Qed.

End specs.

(** ** Key spaces after writes *)

Lemma snap_ne v k : version_num v → k ∈ fixed_keys → snapshot_key v ≠ k.
Proof. intros Hv Hk. by apply snapshot_key_fixed; [apply version_num_size|]. Qed.
Lemma snap_ne_snap v w : version_num v → version_num w → v ≠ w → snapshot_key v ≠ snapshot_key w.
Proof. intros Hv Hw Hne E. apply Hne. apply snapshot_key_inj in E; [done|by apply version_num_size..]. Qed.

Lemma to_string_inj v w : version_num v → version_num w → to_string v = to_string w → v = w.
Proof. intros Hv Hw E. apply snapshot_key_inj; [by apply version_num_size..|]. unfold snapshot_key. by rewrite E. Qed.

(** Two keys differ. *)
Ltac key_ne :=
  lazymatch goal with
  | |- snapshot_key _ ≠ snapshot_key _ => apply snap_ne_snap; [assumption || (unfold version_num in *; lia)..|done || lia]
  | |- snapshot_key _ ≠ _ => apply snap_ne; [assumption || (unfold version_num in *; lia)|on_keys]
  | |- _ ≠ snapshot_key _ => apply not_eq_sym, snap_ne; [assumption || (unfold version_num in *; lia)|on_keys]
  | |- _ ≠ _ => on_keys
  end.

Ltac look :=
  repeat first
    [ rewrite lookup_insert_eq | rewrite lookup_delete_eq
    | rewrite lookup_insert_ne by key_ne | rewrite lookup_delete_ne by key_ne
    | rewrite put_hash_other by key_ne | rewrite put_zset_other by key_ne ].

(** After the audit entry was written. *)
Lemma audited ks ks' : agree_but [kAuditKey] ks ks' → ∀ k, k ≠ kAuditKey → ks' !! k = ks !! k.
Proof. intros Ha k Hk. apply Ha. by rewrite list_elem_of_singleton. Qed.

Lemma as_hash_eq ks ks' k : ks' !! k = ks !! k → as_hash ks' k = as_hash ks k.
Proof. unfold as_hash. by intros ->. Qed.
Lemma as_zset_eq ks ks' k : ks' !! k = ks !! k → as_zset ks' k = as_zset ks k.
Proof. unfold as_zset. by intros ->. Qed.

Lemma typed_hash ks k : beqb (type_name (ks !! k)) "hash" || beqb (type_name (ks !! k)) "none" = true → ∃ h, as_hash ks k = Some h.
Proof. unfold as_hash. destruct (ks !! k) as [[]|]; try done; eauto. Qed.
Lemma typed_zset ks k : beqb (type_name (ks !! k)) "zset" || beqb (type_name (ks !! k)) "none" = true → ∃ z, as_zset ks k = Some z.
Proof. unfold as_zset. destruct (ks !! k) as [[]|]; try done; eauto. Qed.

(** A version was published: its row is new and complete, the mirror holds its
    files, and no other row changed. *)
Definition published (ks ks' : keyspace) (n : Z) (h : gmap bytes bytes) (meta : bytes) : Prop :=
  ks' !! kVersionKey = Some (RStr (to_string (n + 1))) ∧ ks' !! kFilesKey = Some (RHash h) ∧
  row ks (n + 1) = no_row ∧ row ks' (n + 1) = (Some (RHash h), Some meta, Some (n + 1)) ∧ same_rows (λ v, v ≠ n + 1) ks ks'.

(** ** The effect of a transaction *)

(** A row appeared, or was removed, and nothing else changed. *)
Definition row_changed (ks ks' : keyspace) (v : Z) (r : option rvalue * option bytes * option Z) : Prop :=
  ks' !! kVersionKey = ks !! kVersionKey ∧ ks' !! kFilesKey = ks !! kFilesKey ∧ row ks' v = r ∧ same_rows (λ w, w ≠ v) ks ks'.

Section effects.
Context `{LuaNumbers} (cfg : ConfigHistoryConfig).

(** What a transaction that answers [c > 0] did, when the counter was [n]. *)
Definition effect (t : txn) (n c : Z) (ks ks' : keyspace) : Prop :=
  match t with
  | TSave base _ meta files => base = n ∧ c = n + 1 ∧ published ks ks' n (hash_of files) meta
  | TRollback base target _ meta source files =>
      base = n ∧ c = n + 1 ∧ published ks ks' n (hash_of files) meta ∧
      target ≤ n ∧ ks !! snapshot_key target = Some (RHash (hash_of files)) ∧ meta_of ks target = Some source
  | TRepairSnapshot v meta _ files =>
      v = n ∧ c = n ∧ ks !! snapshot_key n = None ∧ meta_of ks n = Some meta ∧ is_Some (index_of ks n) ∧ ks !! kFilesKey = Some (RHash (hash_of files)) ∧
      row_changed ks ks' n (Some (RHash (hash_of files)), Some meta, index_of ks n)
  | TRebuildMirror v meta _ files =>
      v = n ∧ c = n ∧ ks !! snapshot_key n = Some (RHash (hash_of files)) ∧ meta_of ks n = Some meta ∧ is_Some (index_of ks n) ∧
      ks' !! kVersionKey = ks !! kVersionKey ∧ ks' !! kFilesKey = Some (RHash (hash_of files)) ∧ same_rows (λ _, True) ks ks'
  | TMigrate v meta _ files =>
      v = n ∧ c = n ∧ as_hash ks kMetaKey = Some ∅ ∧ as_zset ks kIndexKey = Some ∅ ∧ ks !! snapshot_key n = None ∧ ks !! kFilesKey = Some (RHash (hash_of files)) ∧
      row_changed ks ks' n (Some (RHash (hash_of files)), Some meta, Some n)
  | TRestore current target meta _ files =>
      current = n ∧ c = target ∧ n < target ∧ ks !! snapshot_key target = Some (RHash (hash_of files)) ∧ meta_of ks target = Some meta ∧
      is_Some (index_of ks target) ∧
      ks' !! kVersionKey = Some (RStr (to_string target)) ∧ ks' !! kFilesKey = Some (RHash (hash_of files)) ∧ same_rows (λ _, True) ks ks'
  | TDeleteOrphan current target _ _ _ _ _ => current = n ∧ target = n + 1 ∧ c = 1 ∧ row_changed ks ks' (n + 1) no_row
  | TSeed meta files =>
      ks !! kVersionKey = None ∧ c = 1 ∧
      (if bool_decide (files = [])
       then ks' !! kVersionKey = Some (RStr "1") ∧ ks' !! kFilesKey = None ∧ same_rows (λ _, True) ks ks'
       else published ks ks' 0 (hash_of files) meta)
  | TCollect v cutoff =>
      v < n ∧ c = 1 ∧ row_changed ks ks' v no_row ∧
      ∃ z s, as_zset ks kIndexKey = Some z ∧ z !! to_string v = Some s ∧
        (∃ retain, tonumber (to_string (retention_versions cfg)) = Some retain ∧
         Z.of_nat (length (filter (λ e, zless e (to_string v, s) = true) (zmembers z))) < Z.of_nat (size z) - retain) ∧
        ∃ ts limit, meta_ts (meta_of ks v) = Some ts ∧ tonumber (to_string cutoff) = Some limit ∧ ts < limit
  | THealth _ | TBeat _ _ => unchanged ks ks'
  end.

(** A transaction that fails or is refused leaves the history as it was. *)
Definition txn_outcome (t : txn) (n : Z) (r : option Z) (ks ks' : keyspace) : Prop :=
  match r with
  | Some c => if 0 <? c then effect t n c ks ks' else unchanged ks ks'
  | None => unchanged ks ks'
  end.

(** Arguments as the gateway passes them: 64-bit versions (those that are repaired
    are positive), files of a map. *)
Definition names_differ (files : files_map) : Prop := NoDup files.*1.
Definition txn_ok (t : txn) : Prop :=
  match t with
  | TSave base _ _ files => version_num base ∧ names_differ files
  | TRollback base target _ _ _ files => version_num base ∧ version_num target ∧ names_differ files
  | TRepairSnapshot v _ _ files | TRebuildMirror v _ _ files | TMigrate v _ _ files => 0 < v ≤ INT64_MAX ∧ names_differ files
  | TRestore current target _ _ files => version_num current ∧ 0 ≤ target < LUA_EXACT - 1 ∧ names_differ files
  | TDeleteOrphan current target _ _ _ _ files => version_num current ∧ version_num target ∧ names_differ files
  | TSeed _ files => names_differ files
  | TCollect v _ => version_num v
  | THealth _ | TBeat _ _ => True
  end.

End effects.

Section txns.
Context `{Redis, !RedisLaws, LuaNumbers}.

Lemma number_of n : version_num n → ∃ m, tonumber (to_string n) = Some m ∧ (n < LUA_EXACT → m = n) ∧ (LUA_EXACT ≤ n → LUA_EXACT ≤ m).
Proof.
  intros Hn. destruct (decide (n < LUA_EXACT)) as [Hl|Hl].
  - exists n. split; [by apply tonumber_exact; destruct Hn|]. split; [done|lia].
  - destruct (tonumber_large n) as (m & Hm & Hge); [destruct Hn; lia|]. exists m. split; [done|]. split; [lia|done].
Qed.

Lemma version_read ks n o : version_is ks n → as_str ks kVersionKey = Some o → tonumber (default ("0" : bytes) o) = Some n.
Proof.
  intros [Hv Hn] Ho. unfold as_str in Ho. destruct (ks !! kVersionKey) as [[s| | |]|]; try done; injection Ho as <-; cbn [default from_option id].
  - subst s. apply tonumber_exact. lia.
  - subst n. by apply (tonumber_exact 0).
Qed.

Lemma version_incr ks n : version_is ks n → n < INT64_MAX ∧ parse_int64 (default ("0" : bytes) (match ks !! kVersionKey with Some (RStr s) => Some s | _ => None end)) = Some n.
Proof.
  intros [Hv Hn]. split; [unfold LUA_EXACT, INT64_MAX in *; lia|]. destruct (ks !! kVersionKey) as [[s| | |]|]; try done; cbn [default from_option id]; subst.
  - apply parse_int64_print. unfold LUA_EXACT, INT64_MAX in *. lia.
  - by vm_compute.
Qed.

(** Snapshot, metadata, index entry and mirror of one version are written. *)
Definition filled (ks ks' : keyspace) (v : Z) (h : gmap bytes bytes) (meta : bytes) : Prop :=
  ks' !! kVersionKey = ks !! kVersionKey ∧ ks' !! kFilesKey = Some (RHash h) ∧ row ks' v = (Some (RHash h), Some meta, Some v) ∧
  same_rows (λ w, w ≠ v) ks ks'.

Lemma wp_fill v pairs meta ks mh z (s : script Z) (Q : option Z → keyspace → Prop) :
  version_num v → pairs ≠ [] → as_hash ks kMetaKey = Some mh → as_zset ks kIndexKey = Some z →
  (∀ ks', filled ks ks' v (hash_of pairs) meta → wp s ks' Q) →
  wp (_ ← publish_hash kSnapshotStagingKey (snapshot_key v) pairs; _ ← call (HSET kMetaKey [(to_string v, meta)]);
      _ ← call (ZADD kIndexKey v (to_string v)); _ ← publish_hash kStagingKey kFilesKey pairs; s) ks Q.
Proof.
  intros Hv Hp Hm Hz HQ. apply wp_bind, wp_publish_hash; [done|]. set (k1 := <[_ := _]> (delete _ ks)).
  apply wp_bind. apply (wp_hset _ _ _ _ _ mh); [rewrite <- Hm; apply as_hash_eq; unfold k1; by look|]. intros _. set (k2 := put_hash _ _ k1).
  apply wp_bind. apply (wp_zadd _ _ _ _ _ z); [rewrite <- Hz; apply as_zset_eq; unfold k2, k1; by look|]. intros _. set (k3 := put_zset _ _ k2).
  apply wp_bind, wp_publish_hash; [done|]. set (k4 := <[_ := _]> (delete _ k3)). apply HQ.
  assert (as_hash k4 kMetaKey = Some (<[to_string v := meta]> mh)) as Hmeta.
  { rewrite <- (put_hash_same kMetaKey (<[to_string v := meta]> mh) k1). apply as_hash_eq. unfold k4, k3. by look. }
  assert (as_zset k4 kIndexKey = Some (<[to_string v := v]> z)) as Hidx.
  { rewrite <- (put_zset_same kIndexKey (<[to_string v := v]> z) k2). apply as_zset_eq. unfold k4. by look. }
  unfold filled. split_and!; [unfold k4, k3, k2, k1; by look|unfold k4; by look| |].
  - unfold row, meta_of, index_of. rewrite Hmeta, Hidx. cbn [mbind option_bind]. rewrite !lookup_insert_eq. do 2 f_equal. unfold k4, k3, k2, k1. by look.
  - intros w Hw Hne. unfold row, meta_of, index_of. rewrite Hmeta, Hidx, Hm, Hz. cbn [mbind option_bind].
    rewrite !lookup_insert_ne by (intros E; apply to_string_inj in E; [lia|done..]). do 2 f_equal. unfold k4, k3, k2, k1. by look.
Qed.

(** Then the counter is set. *)
Lemma filled_published ks k1 ks' n h meta : version_num (n + 1) → filled ks k1 (n + 1) h meta → row ks (n + 1) = no_row →
  agree_but [kAuditKey] (<[kVersionKey := RStr (to_string (n + 1))]> k1) ks' → published ks ks' n h meta.
Proof.
  intros Hn (Hc & Hf & Hrow & Hrest) Hfree Ha. pose proof (audited _ _ Ha) as Hks.
  assert (∀ w, version_num w → row ks' w = row k1 w) as Hsame by (intros w Hw; apply row_agree; rewrite Hks by key_ne; by look).
  unfold published. split_and!; [rewrite Hks by key_ne; by look|rewrite Hks by key_ne; by look|done|by rewrite Hsame|].
  intros w Hw Hne. rewrite Hsame by done. by apply Hrest.
Qed.

Lemma wp_publish rest n pairs entry meta ks mh z (Q : option Z → keyspace → Prop) :
  version_is ks n → pairs ≠ [] → as_hash ks kMetaKey = Some mh → as_zset ks kIndexKey = Some z → row ks (n + 1) = no_row →
  (∀ ks', published ks ks' n (hash_of pairs) meta → Q (Some (n + 1)) ks') →
  wp (publish (kVersionKey :: kFilesKey :: kAuditKey :: kStagingKey :: kMetaKey :: kIndexKey :: snapshot_key (n + 1) :: kSnapshotStagingKey :: rest)
        (n + 1) pairs entry meta) ks Q.
Proof.
  intros Hver Hp Hm Hz Hfree HQ. pose proof Hver as [_ Hn].
  assert (version_num (n + 1)) as Hn1 by (unfold version_num, LUA_EXACT, INT64_MAX in *; lia).
  unfold publish. cbn [nth1 nth Nat.sub]. rewrite tostring_exact by lia. apply (wp_fill _ _ _ _ mh z); [done..|]. intros k1 Hk1.
  apply wp_bind, wp_call. intros order _. cbn [exec]. unfold as_str. rewrite (proj1 Hk1). destruct (version_incr ks n Hver) as [Hmax Hparse].
  assert (∃ o, match ks !! kVersionKey with None => Some None | Some (RStr s) => Some (Some s) | _ => None end = Some o ∧
               parse_int64 (default ("0" : bytes) o) = Some n) as (o & Ho & Hpn).
  { destruct Hver as [Hv _]. destruct (ks !! kVersionKey) as [[]|]; try done; eauto. }
  rewrite Ho, Hpn. rewrite (proj2 (Z.ltb_lt n INT64_MAX) Hmax). cbn [fst snd]. rewrite Z.eqb_refl. cbn [negb].
  apply wp_bind, wp_audit. intros ks' Ha. apply wp_ret, HQ. by apply (filled_published ks k1).
Qed.

(** *** Arguments *)

Lemma pair_flatten (files : files_map) : pair_elements (flatten files) = files.
Proof. induction files as [|[k v] files IH]; [done|]. cbn. by rewrite <- IH at 2. Qed.
Lemma length_flatten (files : files_map) : length (flatten files) = (2 * length files)%nat.
Proof. induction files as [|[k v] files IH]; [done|]. unfold flatten in *. cbn [fmap list_fmap concat app length]. rewrite IH. cbn [length]. lia. Qed.

Lemma args_count (pre : list bytes) (files : files_map) : Z.of_nat (length (pre ++ flatten files)) - Z.of_nat (length pre) = 2 * Z.of_nat (length files).
Proof. rewrite length_app, length_flatten. lia. Qed.

Lemma args_pairs (pre : list bytes) (files : files_map) : pairs_from (S (length pre)) (pre ++ flatten files) = files.
Proof. unfold pairs_from. rewrite Nat.sub_succ, Nat.sub_0_r, drop_app_length. apply pair_flatten. Qed.

Lemma existing_hash ks k h : as_hash ks k = Some h → is_Some (ks !! k) → ks !! k = Some (RHash h).
Proof. unfold as_hash. destruct (ks !! k) as [[]|]; intros E [? ?]; try done. by injection E as ->. Qed.

Lemma hash_exists ks k files : as_hash ks k = Some (hash_of files) → files ≠ [] → ks !! k = Some (RHash (hash_of files)).
Proof.
  intros Hh Hf. apply existing_hash; [done|]. unfold as_hash in Hh. destruct (ks !! k); [done|]. injection Hh as Hh. exfalso.
  by apply (set_fields_nonempty files ∅ Hf).
Qed.

(** The fields were compared and counted. *)
Lemma fields_exact ks k files h : names_differ files → as_hash ks k = Some h → has_fields ks k files →
  Z.of_nat (size h) = Z.of_nat (length files) → h = hash_of files.
Proof.
  intros Hnd Hh Hf Hs. apply hash_of_fields; [done| |done]. intros kv Hin. destruct (Hf kv Hin) as (h' & Hh' & Hkv). congruence.
Qed.

(** *** Refusals *)

Context (cfg : ConfigHistoryConfig).

Lemma wp_refuse t n c ks : (0 <? c) = false → wp (mret c : script Z) ks (λ r ks', txn_outcome cfg t n r ks ks').
Proof. intros Hc. apply wp_ret. cbn [txn_outcome]. by rewrite Hc. Qed.

End txns.

Ltac refused := first [by apply wp_refuse | reflexivity].

(** One test, or one read, before anything is written. *)
Ltac guard_step :=
  match goal with
  | |- wp (if negb ?r then _ else _) _ _ =>
      is_var r; destruct r; cbn [negb]; [|refused]; try match goal with Ht : true = true → _ |- _ => specialize (Ht eq_refl) end
  | |- wp (if ?b then _ else _) _ _ => let Hg := fresh "Hg" in destruct b eqn:Hg; [refused|]
  | |- wp (match ?r with Some c => mret c | None => _ end) _ _ => is_var r; destruct r; [by apply wp_refuse|]
  | |- wp (_ ≫= _) _ _ =>
      eapply wp_returns; [first [read_command | apply returns_complete | apply returns_below | apply returns_free | apply returns_recorded
                                | apply returns_source | apply returns_check | apply returns_restore | apply returns_orphan | apply returns_seed_free]
                         |refused|read_result]
  end.

(** Arguments that are numbers. *)
Ltac numbers :=
  repeat lazymatch goal with |- wp (match tonumber ?x with _ => _ end) _ _ => let Hn := fresh "Hnum" in destruct (tonumber x) eqn:Hn; [|refused] end.

Section txns2.
Context `{Redis, !RedisLaws, LuaNumbers} (cfg : ConfigHistoryConfig).

Lemma free_row ks v : version_num v → free ks (to_string v) (snapshot_key v) kMetaKey kIndexKey → row ks v = no_row.
Proof.
  intros Hv (Hs & (h & Hh & Hm) & z & Hz & Hi). unfold row, meta_of, index_of. rewrite Hs, Hh, Hz. cbn [mbind option_bind]. by rewrite Hm, Hi.
Qed.

(** The number that was compared with the counter is the counter. *)
Lemma number_is base n : version_num base → n < LUA_EXACT → tonumber (to_string base) = Some n → base = n.
Proof.
  intros Hb Hn Hm. destruct (number_of base Hb) as (m & Hm' & Hexact & Hlarge). rewrite Hm in Hm'. injection Hm' as <-.
  destruct (decide (base < LUA_EXACT)); [symmetry; auto|]. specialize (Hlarge ltac:(lia)). lia.
Qed.

Lemma count_nonempty (files : files_map) z : (Z.of_nat (length files) <? 1) || (z <? Z.of_nat (length files)) = false → files ≠ [].
Proof. intros Hc ->. by apply orb_false_iff in Hc as [Hc _]. Qed.

Lemma publish_free rest n pairs entry meta ks (Q : option Z → keyspace → Prop) :
  version_is ks n → pairs ≠ [] → free ks (tostring (n + 1)) (snapshot_key (n + 1)) kMetaKey kIndexKey →
  (∀ ks', published ks ks' n (hash_of pairs) meta → Q (Some (n + 1)) ks') →
  wp (publish (kVersionKey :: kFilesKey :: kAuditKey :: kStagingKey :: kMetaKey :: kIndexKey :: snapshot_key (n + 1) :: kSnapshotStagingKey :: rest)
        (n + 1) pairs entry meta) ks Q.
Proof.
  intros Hver Hp Hf HQ. pose proof Hver as [_ Hn]. rewrite tostring_exact in Hf by lia. pose proof Hf as (_ & (h & Hh & _) & z & Hz & _).
  apply (wp_publish _ _ _ _ _ _ h z); try done. apply free_row; [|done]. unfold version_num, LUA_EXACT, INT64_MAX in *. lia.
Qed.

Lemma save_effect base au meta files n ks : txn_ok (TSave base au meta files) → version_is ks n →
  wp (run_txn cfg (TSave base au meta files)) ks (λ r ks', txn_outcome cfg (TSave base au meta files) n r ks ks').
Proof.
  intros [Hb Hnd] Hver. cbn [run_txn]. unfold save_script. set (ARGV := _ ++ _).
  assert (Z.of_nat (length ARGV) - 6 = 2 * Z.of_nat (length files)) as Hlen.
  { unfold ARGV. rewrite app_assoc. apply (args_count ([to_string base; au; meta] ++ limits cfg)). }
  assert (pairs_from 7 ARGV = files) as Hpairs by (unfold ARGV; rewrite app_assoc; apply (args_pairs ([to_string base; au; meta] ++ limits cfg))).
  rewrite Hlen, Hpairs, Z.mul_comm, Z_mod_mult, Z_div_mult by lia. do 2 guard_step.
  unfold ARGV. cbn [nth1 nth Nat.sub app limits]. numbers.
  do 5 guard_step. destruct Hr0 as (o & Ho & ->). rewrite (version_read _ _ _ Hver Ho). cbv beta iota.
  guard_step. apply negb_false_iff, Z.eqb_eq in Hg3 as <-. apply number_is in Hnum as ->; [|done|destruct Hver; lia].
  do 4 guard_step. apply (publish_free _ _ _ _ _ _ _ Hver); [by eapply count_nonempty|done|]. intros ks' Hp. unfold txn_outcome.
  rewrite (proj2 (Z.ltb_lt 0 (n + 1))) by (destruct Hver; lia). by split_and!.
Qed.

Lemma rollback_effect base target au meta source files n ks : txn_ok (TRollback base target au meta source files) → version_is ks n →
  wp (run_txn cfg (TRollback base target au meta source files)) ks (λ r ks', txn_outcome cfg (TRollback base target au meta source files) n r ks ks').
Proof.
  intros (Hb & Ht & Hnd) Hver. cbn [run_txn]. unfold rollback_script. set (ARGV := _ ++ _).
  assert (Z.of_nat (length ARGV) - 8 = 2 * Z.of_nat (length files)) as Hlen.
  { unfold ARGV. rewrite !app_assoc. apply (args_count (([to_string base; au; meta] ++ limits cfg) ++ [source; to_string target])). }
  assert (pairs_from 9 ARGV = files) as Hpairs.
  { unfold ARGV. rewrite !app_assoc. apply (args_pairs (([to_string base; au; meta] ++ limits cfg) ++ [source; to_string target])). }
  rewrite Hlen, Hpairs, Z.mul_comm, Z_mod_mult, Z_div_mult by lia. do 2 guard_step.
  unfold ARGV. cbn [nth1 nth Nat.sub app limits]. numbers.
  do 5 guard_step. destruct Hr0 as (o & Ho & ->). rewrite (version_read _ _ _ Hver Ho). cbv beta iota.
  guard_step. apply negb_false_iff, Z.eqb_eq in Hg3 as <-. apply number_is in Hnum as ->; [|done|destruct Hver; lia].
  do 6 guard_step. destruct Hr1 as (Hle & Hex & (mh & Hmh & Hsm) & (h & Hh & Hsize) & Hf).
  pose proof Hver as [_ Hn]. apply number_is in Hnum3 as <-; [|done|lia].
  rewrite tostring_exact in Hsm by (destruct Ht; lia).
  apply (publish_free _ _ _ _ _ _ _ Hver); [by eapply count_nonempty|done|]. intros ks' Hp. unfold txn_outcome.
  rewrite (proj2 (Z.ltb_lt 0 (n + 1))) by lia. rewrite (fields_exact _ _ _ _ Hnd Hh Hf Hsize) in Hh.
  split_and!; try done; [by apply existing_hash|]. unfold meta_of. by rewrite Hmh.
Qed.

(** *** Repairs *)

Lemma returns_prologue chk version staging meta au files n ks : version_num version → version_is ks n →
  returns (repair_prologue chk (repair_keys version staging) (repair_args cfg version meta au files)) ks
    (λ p, match p with
          | inl c => (0 <? c) = false
          | inr (v, count, _, _) => v = n ∧ version = n ∧ count = Z.of_nat (length files) ∧ files ≠ []
          end).
Proof.
  intros Hv Hver. unfold repair_prologue. set (ARGV := repair_args _ _ _ _ _).
  assert (Z.of_nat (length ARGV) - 6 = 2 * Z.of_nat (length files)) as Hlen.
  { unfold ARGV, repair_args. rewrite app_assoc. apply (args_count ([to_string version; meta; au] ++ limits cfg)). }
  rewrite Hlen, Z.mul_comm, Z_mod_mult, Z_div_mult by lia. reading; try done. unfold ARGV. cbn [nth1 nth Nat.sub app limits repair_args repair_keys].
  destruct (tonumber (to_string version)) as [m|] eqn:Hm; [|by apply returns_ret].
  repeat lazymatch goal with |- returns (match tonumber ?x with _ => _ end) _ _ => destruct (tonumber x); [|by apply returns_ret] end.
  reading; try done. destruct Hr0 as (o & Ho & ->). destruct (tonumber (default [] o)) as [cur|] eqn:Hcur; [|by apply returns_ret].
  assert (cur = n) as ->.
  { pose proof (version_read _ _ _ Hver Ho) as Hread. destruct o as [s|]; cbn [default from_option id] in *; [congruence|].
    by rewrite tonumber_empty in Hcur. }
  reading; try done. eapply returns_bind; [apply returns_below|]. read_result. reading; [done|]. apply negb_false_iff, Z.eqb_eq in Hc4 as <-.
  apply number_is in Hm as ->; [|done|destruct Hver; lia]. split_and!; try done. by eapply count_nonempty.
Qed.

(** The key space after a row was filled from a staging key. *)
Lemma snapshot_filled ks ks' n h : version_num n → agree_but [kAuditKey] (<[snapshot_key n := RHash h]> (delete kSnapshotStagingKey ks)) ks' →
  row_changed ks ks' n (Some (RHash h), meta_of ks n, index_of ks n).
Proof.
  intros Hn Ha. pose proof (audited _ _ Ha) as Hks.
  split_and!; [rewrite Hks by key_ne; by look..| |].
  - unfold row, meta_of, index_of. rewrite (as_hash_eq ks ks' kMetaKey), (as_zset_eq ks ks' kIndexKey) by (rewrite Hks by key_ne; by look).
    rewrite Hks by key_ne. by look.
  - intros v Hv Hne. apply row_agree; rewrite Hks by key_ne; by look.
Qed.

Lemma repair_pairs version meta au files : pairs_from 7 (repair_args cfg version meta au files) = files.
Proof. unfold repair_args. rewrite app_assoc. apply (args_pairs ([to_string version; meta; au] ++ limits cfg)). Qed.

Lemma positive_version v : 0 < v ≤ INT64_MAX → version_num v.
Proof. unfold version_num. lia. Qed.

Lemma repair_effect version meta au files n ks : txn_ok (TRepairSnapshot version meta au files) → version_is ks n →
  wp (run_txn cfg (TRepairSnapshot version meta au files)) ks (λ r ks', txn_outcome cfg (TRepairSnapshot version meta au files) n r ks ks').
Proof.
  intros [Hv Hnd] Hver. cbn [run_txn]. unfold snapshot_repair_script. eapply wp_returns; [by apply returns_prologue; [apply positive_version|]|refused|].
  intros [c|[[[v count] mf] mt]] Hp; [by apply wp_refuse|]. destruct Hp as (-> & -> & -> & Hne). pose proof Hver as [_ Hn].
  rewrite repair_pairs. cbn [nth1 nth Nat.sub repair_keys repair_args app]. rewrite tostring_exact by lia. do 2 guard_step. subst r.
  apply negb_false_iff, Z.eqb_eq, truth_0, not_Some in Hg. do 4 guard_step. cbn [nth1 nth Nat.sub repair_keys] in Hr.
  destruct Hr as ((mh & Hmh & Hmeta) & (z & Hz & Hi) & h & Hh & Hsize). rewrite (fields_exact _ _ _ _ Hnd Hh Hr0 Hsize) in Hh.
  apply wp_bind, wp_publish_hash; [done|]. apply wp_bind, wp_audit. intros ks' Ha. apply wp_ret. unfold txn_outcome.
  assert (meta_of ks n = Some meta) as Hm by (unfold meta_of; by rewrite Hmh).
  assert (is_Some (index_of ks n)) as His by (unfold index_of; by rewrite Hz).
  rewrite (proj2 (Z.ltb_lt 0 n)) by lia. split_and!; try done; [by apply hash_exists|..]; rewrite <- Hm; apply snapshot_filled; auto using positive_version.
Qed.

Lemma mirror_effect version meta au files n ks : txn_ok (TRebuildMirror version meta au files) → version_is ks n →
  wp (run_txn cfg (TRebuildMirror version meta au files)) ks (λ r ks', txn_outcome cfg (TRebuildMirror version meta au files) n r ks ks').
Proof.
  intros [Hv Hnd] Hver. cbn [run_txn]. unfold mirror_rebuild_script. eapply wp_returns; [by apply returns_prologue; [apply positive_version|]|refused|].
  intros [c|[[[v count] mf] mt]] Hp; [by apply wp_refuse|]. destruct Hp as (-> & -> & -> & Hne). pose proof Hver as [_ Hn].
  rewrite repair_pairs. cbn [nth1 nth Nat.sub repair_keys repair_args app]. rewrite tostring_exact by lia. do 2 guard_step. subst r.
  apply negb_false_iff, Z.eqb_eq, truth_1, bool_decide_eq_true in Hg. do 3 guard_step. cbn [nth1 nth Nat.sub repair_keys] in Hr.
  destruct Hr as ((mh & Hmh & Hmeta) & (z & Hz & Hi) & h & Hh & Hsize).
  guard_step. rewrite (fields_exact _ _ _ _ Hnd Hh Hr0 Hsize) in Hh.
  apply wp_bind, wp_publish_hash; [done|]. apply wp_bind, wp_audit. intros ks' Ha. apply wp_ret. unfold txn_outcome.
  rewrite (proj2 (Z.ltb_lt 0 n)) by lia. pose proof (audited _ _ Ha) as Hks.
  split_and!; try done; [by apply existing_hash|by unfold meta_of; rewrite Hmh|by unfold index_of; rewrite Hz|rewrite Hks by key_ne; by look..|].
  intros v Hvn _. apply row_agree; rewrite Hks by key_ne; by look.
Qed.

Lemma returns_no_history version staging member ks :
  returns (no_history (repair_keys version staging) member) ks (λ r, r = true →
    as_zset ks kIndexKey = Some ∅ ∧ as_hash ks kMetaKey = Some ∅ ∧ ks !! snapshot_key version = None).
Proof.
  unfold no_history. cbn [nth1 nth Nat.sub repair_keys]. reading; try done. eapply returns_mono; [apply returns_free|]. intros b Hb Ht.
  destruct (Hb Ht) as (Hs & _ & _). destruct Hr as (z & Hz & ->), Hr0 as (h & Hh & ->). apply negb_false_iff, Z.eqb_eq in Hc, Hc0.
  assert (z = ∅) as -> by (apply map_size_empty_iff; lia). by assert (h = ∅) as -> by (apply map_size_empty_iff; lia).
Qed.

Lemma migrate_effect version meta au files n ks : txn_ok (TMigrate version meta au files) → version_is ks n →
  wp (run_txn cfg (TMigrate version meta au files)) ks (λ r ks', txn_outcome cfg (TMigrate version meta au files) n r ks ks').
Proof.
  intros [Hv Hnd] Hver. cbn [run_txn]. unfold migration_script. eapply wp_returns; [by apply returns_prologue; [apply positive_version|]|refused|].
  intros [c|[[[v count] mf] mt]] Hp; [by apply wp_refuse|]. destruct Hp as (-> & -> & -> & Hne). pose proof Hver as [_ Hn].
  pose proof (positive_version _ Hv) as Hvn. rewrite repair_pairs. rewrite tostring_exact by lia.
  eapply wp_returns; [apply returns_no_history|refused|read_result]. guard_step.
  cbn [nth1 nth Nat.sub repair_keys repair_args app]. do 4 guard_step. destruct Hr as (Hz & Hm & Hs), Hr0 as (h & Hh & ->).
  apply negb_false_iff, Z.eqb_eq in Hg. rewrite (fields_exact _ _ _ _ Hnd Hh Hr1 Hg) in Hh.
  apply wp_bind, wp_publish_hash; [done|]. set (k1 := <[_ := _]> (delete _ ks)).
  apply wp_bind. apply (wp_hset _ _ _ _ _ ∅); [rewrite <- Hm; apply as_hash_eq; unfold k1; by look|]. intros _. set (k2 := put_hash _ _ k1).
  apply wp_bind. apply (wp_zadd _ _ _ _ _ ∅); [rewrite <- Hz; apply as_zset_eq; unfold k2, k1; by look|]. intros _. set (k3 := put_zset _ _ k2).
  apply wp_bind, wp_audit. intros ks' Ha. apply wp_ret. unfold txn_outcome. rewrite (proj2 (Z.ltb_lt 0 n)) by lia. pose proof (audited _ _ Ha) as Hks.
  assert (as_hash ks' kMetaKey = Some {[to_string n := meta]}) as Hmeta.
  { rewrite <- (put_hash_same kMetaKey {[to_string n := meta]} k1). apply as_hash_eq. rewrite Hks by key_ne. unfold k3. by look. }
  assert (as_zset ks' kIndexKey = Some {[to_string n := n]}) as Hidx.
  { rewrite <- (put_zset_same kIndexKey {[to_string n := n]} k2). apply as_zset_eq. by rewrite Hks by key_ne. }
  split_and!; try done; [by apply hash_exists|]. unfold row_changed.
  split_and!; [rewrite Hks by key_ne; unfold k3, k2, k1; by look..| |].
  - unfold row, meta_of, index_of. rewrite Hmeta, Hidx. cbn [mbind option_bind]. rewrite !lookup_singleton_eq. do 2 f_equal.
    rewrite Hks by key_ne. unfold k3, k2, k1. by look.
  - intros w Hw Hne'. unfold row, meta_of, index_of. rewrite Hmeta, Hidx, Hm, Hz. cbn [mbind option_bind].
    rewrite !lookup_singleton_ne by (intros E; apply to_string_inj in E; [lia|done..]). rewrite !lookup_empty. do 2 f_equal.
    rewrite Hks by key_ne. unfold k3, k2, k1. by look.
Qed.

(** *** Orphans *)

Lemma restore_effect current target meta au files n ks : txn_ok (TRestore current target meta au files) → version_is ks n →
  wp (run_txn cfg (TRestore current target meta au files)) ks (λ r ks', txn_outcome cfg (TRestore current target meta au files) n r ks ks').
Proof.
  intros (Hb & Ht & Hnd) Hver. cbn [run_txn]. unfold restore_version_script. set (ARGV := _ ++ _).
  assert (Z.of_nat (length ARGV) - 7 = 2 * Z.of_nat (length files)) as Hlen.
  { unfold ARGV. rewrite app_assoc. apply (args_count ([to_string current; to_string target; meta; au] ++ limits cfg)). }
  assert (pairs_from 8 ARGV = files) as Hpairs.
  { unfold ARGV. rewrite app_assoc. apply (args_pairs ([to_string current; to_string target; meta; au] ++ limits cfg)). }
  rewrite Hlen, Hpairs, Z.mul_comm, Z_mod_mult, Z_div_mult by lia. guard_step. unfold ARGV. cbn [nth1 nth Nat.sub app limits].
  assert (version_num target) as Htn by (unfold version_num, LUA_EXACT, INT64_MAX in *; lia).
  rewrite (tonumber_exact target) by lia. numbers. cbv beta iota. do 3 guard_step. destruct Hr0 as (o & Ho & ->).
  rewrite (version_read _ _ _ Hver Ho). cbv beta iota. guard_step. apply negb_false_iff, Z.eqb_eq in Hg0 as <-.
  apply number_is in Hnum as ->; [|done|destruct Hver; lia]. guard_step. apply Z.leb_gt in Hg0. do 2 guard_step. rewrite tostring_exact by lia.
  guard_step. do 2 guard_step. subst r0. apply negb_false_iff, Z.eqb_eq, truth_1, bool_decide_eq_true in Hg3.
  do 10 guard_step. destruct Hr1 as (mh & Hmh & ->), Hr2 as (z & Hz & ->), Hr3 as (h & Hh & ->).
  apply negb_false_iff, bool_decide_eq_true in Hg4. apply bool_decide_eq_false in Hg5. rewrite fmap_None in Hg5.
  apply negb_false_iff, Z.eqb_eq in Hg6. rewrite (fields_exact _ _ _ _ Hnd Hh Hr4 Hg6) in Hh. destruct Hver as [_ Hn].
  apply wp_bind, wp_publish_hash; [by eapply count_nonempty|]. apply wp_bind, wp_set. rewrite number_arg_exact by lia.
  apply wp_bind, wp_audit. intros ks' Ha. apply wp_ret. unfold txn_outcome. rewrite (proj2 (Z.ltb_lt 0 target)) by lia.
  pose proof (audited _ _ Ha) as Hks.
  split_and!; try done; [by apply existing_hash|by unfold meta_of; rewrite Hmh| |rewrite Hks by key_ne; by look..|].
  - unfold index_of. rewrite Hz. by apply not_eq_None_Some.
  - intros v Hv _. apply row_agree; rewrite Hks by key_ne; by look.
Qed.

(** The three removals. *)
Lemma wp_remove_row v ks (Q : option Z → keyspace → Prop) (s : script Z) h z :
  version_num v → as_hash ks kMetaKey = Some h → as_zset ks kIndexKey = Some z →
  (∀ ks', row_changed ks ks' v no_row → wp s ks' Q) →
  wp (_ ← call (UNLINK (snapshot_key v)); _ ← call (HDEL kMetaKey (to_string v)); _ ← call (ZREM kIndexKey (to_string v)); s) ks Q.
Proof.
  intros Hv Hh Hz HQ. apply wp_bind, wp_unlink. intros _. set (k1 := delete _ ks).
  apply wp_bind. apply (wp_hdel _ _ _ _ h); [rewrite <- Hh; apply as_hash_eq; unfold k1; by look|]. intros _. set (k2 := put_hash _ _ k1).
  apply wp_bind. apply (wp_zrem _ _ _ _ z); [rewrite <- Hz; apply as_zset_eq; unfold k2, k1; by look|]. intros _. set (k3 := put_zset _ _ k2).
  apply HQ. assert (as_hash k3 kMetaKey = Some (delete (to_string v) h)) as Hmeta.
  { rewrite <- (put_hash_same kMetaKey (delete (to_string v) h) k1). apply as_hash_eq. unfold k3. by look. }
  assert (as_zset k3 kIndexKey = Some (delete (to_string v) z)) as Hidx by apply put_zset_same.
  unfold row_changed. split_and!; [unfold k3, k2, k1; by look..| |].
  - unfold row, meta_of, index_of. rewrite Hmeta, Hidx. cbn [mbind option_bind]. rewrite !lookup_delete_eq. unfold no_row. do 2 f_equal.
    unfold k3, k2, k1. by look.
  - intros w Hw Hne. unfold row, meta_of, index_of. rewrite Hmeta, Hidx, Hh, Hz. cbn [mbind option_bind].
    rewrite !lookup_delete_ne by (intros E; apply to_string_inj in E; [lia|done..]). do 2 f_equal. unfold k3, k2, k1. by look.
Qed.

Lemma row_changed_audited ks k1 ks' v r : version_num v → row_changed ks k1 v r → agree_but [kAuditKey] k1 ks' → row_changed ks ks' v r.
Proof.
  intros Hv (Hc & Hf & Hrv & Hrest) Ha. pose proof (audited _ _ Ha) as Hks.
  assert (∀ w, version_num w → row ks' w = row k1 w) as Hrow by (intros w Hw; apply row_agree; by rewrite Hks by key_ne).
  unfold row_changed. split_and!; [by rewrite Hks by key_ne..|by rewrite Hrow|]. intros w Hw Hne. rewrite Hrow by done. by apply Hrest.
Qed.

Lemma delete_effect current target meta au indexed snapshot files n ks : txn_ok (TDeleteOrphan current target meta au indexed snapshot files) → version_is ks n →
  wp (run_txn cfg (TDeleteOrphan current target meta au indexed snapshot files)) ks
     (λ r ks', txn_outcome cfg (TDeleteOrphan current target meta au indexed snapshot files) n r ks ks').
Proof.
  intros (Hb & Ht & Hnd) Hver. cbn [run_txn]. unfold delete_orphan_script. set (ARGV := _ ++ _).
  assert (Z.of_nat (length ARGV) - 6 = 2 * Z.of_nat (length files)) as Hlen.
  { apply (args_count [to_string current; to_string target; meta; flag indexed; flag snapshot; au]). }
  rewrite Hlen, Z.mul_comm, Z_mod_mult, Z_div_mult by lia. guard_step. unfold ARGV. cbn [nth1 nth Nat.sub app]. numbers.
  guard_step. do 3 guard_step. destruct Hr0 as (o & Ho & ->). rewrite (version_read _ _ _ Hver Ho). cbv beta iota. pose proof Hver as [_ Hn].
  guard_step. apply negb_false_iff, Z.eqb_eq in Hg1 as <-. apply number_is in Hnum as ->; [|done|lia].
  guard_step. apply negb_false_iff, Z.eqb_eq in Hg1 as ->. apply number_is in Hnum0 as ->; [|done|lia].
  do 2 guard_step. rewrite tostring_exact by lia. do 3 guard_step. do 2 guard_step. do 2 guard_step.
  destruct Hr1 as (z & Hz & ->), Hr2 as (h & Hh & ->).
  apply (wp_remove_row _ _ _ _ h z); [done..|]. intros k1 Hk1. apply wp_bind, wp_audit. intros ks' Ha. apply wp_ret. unfold txn_outcome. cbn [Z.ltb Z.compare].
  split_and!; try done. by eapply row_changed_audited.
Qed.

(** *** Seeding *)

Lemma seed_effect meta files n ks : txn_ok (TSeed meta files) → version_is ks n →
  wp (run_txn cfg (TSeed meta files)) ks (λ r ks', txn_outcome cfg (TSeed meta files) n r ks ks').
Proof.
  intros Hnd Hver. cbn [run_txn]. unfold seed_script. set (ARGV := _ ++ _).
  assert (Z.of_nat (length ARGV) - 4 = 2 * Z.of_nat (length files)) as Hlen.
  { unfold ARGV. rewrite app_assoc. apply (args_count ([meta] ++ limits cfg)). }
  assert (pairs_from 5 ARGV = files) as Hpairs by (unfold ARGV; rewrite app_assoc; apply (args_pairs ([meta] ++ limits cfg))).
  rewrite Hlen, Hpairs, Z.mul_comm, Z_mod_mult, Z_div_mult by lia. guard_step. unfold ARGV. cbn [nth1 nth Nat.sub app limits drop]. numbers.
  do 2 guard_step. subst r. assert (ks !! kVersionKey = None) as Hnone.
  { apply negb_false_iff in Hg0. by destruct (ks !! kVersionKey) as [[]|]. }
  do 6 guard_step. cbn [nth1 nth Nat.sub] in Hr0. destruct Hr0 as (Hz & Hm & Hs).
  assert (row ks (0 + 1) = no_row) as Hfree.
  { unfold row, meta_of, index_of. rewrite Hz, Hm. change (snapshot_key (0 + 1)) with (snapshot_key 1). by rewrite Hs. }
  rewrite number_arg_exact by (unfold LUA_EXACT; lia). destruct (Z.of_nat (length files) =? 0) eqn:Hc.
  - assert (files = []) as -> by (apply Z.eqb_eq in Hc; destruct files; [done|cbn [length] in Hc; lia]).
    apply wp_bind, wp_del. intros _. apply wp_bind, wp_set, wp_ret. unfold txn_outcome. cbn [Z.ltb Z.compare effect].
    split_and!; try done. rewrite bool_decide_eq_true_2 by done. split_and!; [by look..|]. intros v Hv _. apply row_agree; by look.
  - assert (files ≠ []) as Hne by by intros ->.
    apply (wp_fill 1 _ _ _ ∅ ∅); [done..|]. intros k1 Hk1. apply wp_bind, wp_set, wp_ret. unfold txn_outcome. cbn [Z.ltb Z.compare effect].
    split_and!; try done. rewrite bool_decide_eq_false_2 by done. by apply (filled_published ks k1).
Qed.

(** *** Garbage collection, health, heartbeats *)

Lemma collect_effect candidate cutoff n ks : txn_ok (TCollect candidate cutoff) → version_is ks n →
  wp (run_txn cfg (TCollect candidate cutoff)) ks (λ r ks', txn_outcome cfg (TCollect candidate cutoff) n r ks ks').
Proof.
  intros Hv Hver. cbn [run_txn]. unfold gc_delete_script. cbn [nth1 nth Nat.sub]. guard_step. destruct Hr as (o & Ho & ->). numbers.
  lazymatch type of Hnum2 with _ = Some ?cur => assert (cur = n) as -> end.
  { pose proof (version_read _ _ _ Hver Ho) as Hread. destruct o as [t|]; cbn [default from_option id] in *; [congruence|].
    by rewrite tonumber_empty in Hnum2. }
  destruct Hver as [_ Hn]. do 3 guard_step. apply Z.leb_gt in Hg. apply number_is in Hnum as <-; [|done|lia].
  rewrite tostring_exact by (destruct Hv; lia). do 2 guard_step. destruct Hr0 as (zs & Hz & ->), Hr1 as (zs' & Hz' & ->).
  rewrite Hz in Hz'. injection Hz' as <-. destruct (zs !! to_string candidate) as [sc|] eqn:Hsc; cbn [mbind option_bind]; [|refused].
  do 2 guard_step. destruct Hr0 as (h & Hh & ->). destruct (meta_ts (h !! to_string candidate)) as [ts|] eqn:Hts; [|refused]. guard_step.
  apply (wp_remove_row _ _ _ _ h zs); [done..|]. intros ks' Hk. apply wp_ret. unfold txn_outcome. cbn [Z.ltb Z.compare effect].
  apply Z.leb_gt in Hg0, Hg1. split_and!; [lia|done|done|]. exists zs, sc. split_and!; [done|done|by eexists|].
  eexists ts, _. unfold meta_of. rewrite Hh. cbn [mbind option_bind]. by split_and!.
Qed.

(** Only the hash of the machines changes. *)
Lemma sweep_keeps now ttl high machines ks0 ks (Q : option Z → keyspace → Prop) :
  agree_but [kMachinesKey] ks0 ks → (∀ r ks', agree_but [kMachinesKey] ks0 ks' → Q r ks') → wp (sweep_machines kMachinesKey now ttl high machines) ks Q.
Proof.
  intros Ha HQ. assert (∀ name k, agree_but [kMachinesKey] ks0 k → wp (call (HDEL kMachinesKey name)) k (λ _ k', agree_but [kMachinesKey] ks0 k')) as Hdel.
  { intros name k Hk. apply wp_call. intros order _. cbn [exec]. unfold updates. destruct (as_hash k kMachinesKey) as [h|]; cbn [fst snd]; [|done].
    intros k' Hk'. rewrite put_hash_other by (intros ->; apply Hk'; by apply list_elem_of_singleton). by apply Hk. }
  revert high ks Ha. induction machines as [|[name value] machines IH]; intros high ks Ha; cbn [sweep_machines]; [apply wp_ret; auto|].
  assert (∀ high, wp (_ ← call (HDEL kMachinesKey name); sweep_machines kMachinesKey now ttl high machines) ks Q) as Hstep.
  { intros high'. apply wp_bind. eapply wp_mono; [by apply Hdel|]. cbn beta. intros [a|] k Hk; [by apply IH|by apply HQ]. }
  destruct (second_field value ≫= _) as [timestamp|]; [|apply Hstep]. destruct (ttl <? now - timestamp); [apply Hstep|by apply IH].
Qed.

Lemma health_effect now n ks : wp (run_txn cfg (THealth now)) ks (λ r ks', txn_outcome cfg (THealth now) n r ks ks').
Proof.
  cbn [run_txn]. apply wp_bind. assert (∀ (r : option Z) ks', unchanged ks ks' → txn_outcome cfg (THealth now) n r ks ks') as Hout.
  { intros [c|] ks' Hu; cbn [txn_outcome]; [by destruct (0 <? c)|done]. }
  set (Q := λ (r : option (list bytes)) ks', unchanged ks ks'). assert (∀ r, Q r ks) as Hq by (intros r; exact (unchanged_refl ks)).
  apply (wp_mono _ _ Q); [|intros [a|] ks' Hu; [apply wp_ret|]; by apply Hout].
  unfold health_script. eapply wp_returns; [apply returns_types|apply Hq|read_result]. case_if; [apply wp_ret, Hq|].
  eapply wp_returns; [apply returns_number|apply Hq|read_result]. destruct r0 as [cur|]; [|apply wp_ret, Hq].
  eapply wp_returns; [apply returns_top|apply Hq|read_result]. eapply wp_returns; [apply returns_hgetall|apply Hq|read_result].
  apply wp_bind. cbn [nth1 nth Nat.sub]. eapply sweep_keeps; [done|]. intros [high|] k1 Hk1; [|by eapply agree_unchanged; [exact Hk1|on_keys]].
  assert (unchanged ks k1) as Hu by (eapply agree_unchanged; [exact Hk1|on_keys]). apply wp_bind.
  assert (returns (integrity [kVersionKey; kIndexKey; kMachinesKey; kMetaKey; kFilesKey] [kSnapshotPrefix; to_string now; to_string (machine_ttl_sec cfg)] cur
    (match r0 with None => 0 | Some None => -1 | Some (Some h) => h end)) k1 (λ _, True)) as Hi by (unfold integrity; by reading).
  eapply wp_mono; [exact Hi|]. cbn beta. intros [v|] k2 [-> _]; [by apply wp_ret|done].
Qed.

Lemma beat_effect machine payload n ks : wp (run_txn cfg (TBeat machine payload)) ks (λ r ks', txn_outcome cfg (TBeat machine payload) n r ks ks').
Proof.
  cbn [run_txn]. assert (∀ (r : option Z) ks', unchanged ks ks' → txn_outcome cfg (TBeat machine payload) n r ks ks') as Hout.
  { intros [c|] ks' Hu; cbn [txn_outcome]; [by destruct (0 <? c)|done]. }
  apply wp_call. intros order _. cbn [exec]. rewrite bool_decide_eq_false_2 by done. unfold updates.
  destruct (as_hash ks kMachinesKey) as [h|]; cbn [fst snd]; apply Hout; [|done]. eapply (agree_unchanged [kMachinesKey]); [|on_keys].
  intros k Hk. by rewrite put_hash_other by (intros ->; apply Hk; by apply list_elem_of_singleton).
Qed.

(** Every transaction of the gateway. *)
Lemma txn_effect t n ks : txn_ok t → version_is ks n → wp (run_txn cfg t) ks (λ r ks', txn_outcome cfg t n r ks ks').
Proof.
  intros Hok Hver. destruct t; [by apply save_effect|by apply rollback_effect|by apply repair_effect|by apply mirror_effect|by apply migrate_effect
    |by apply restore_effect|by apply delete_effect|by apply seed_effect|by apply collect_effect|by apply health_effect|by apply beat_effect].
Qed.

End txns2.

(** ** The theorems *)

Section theorems.
Context `{Redis, !RedisLaws, LuaNumbers} (cfg : ConfigHistoryConfig).

(** C18: Every transaction of the gateway has exactly its effect on the history: a
    save or rollback publishes the next version with its files as snapshot and
    mirror, its metadata and its index entry (a rollback the files of the version it
    names), a repair copies what the digest was checked against, a restoration moves
    the counter to a complete version above it, the garbage collection removes a
    version below the counter that is neither among the newest nor recent; and a
    transaction that is refused or fails has changed nothing. *)
Theorem transactions_exact t n db : txn_ok t → version_is (view db) n →
  txn_outcome cfg t n (run_txn cfg t db).1 (view db) (view (run_txn cfg t db).2).
Proof. intros Hok Hver. exact (txn_effect cfg t n (view db) Hok Hver db eq_refl). Qed.

(** The counter, without the bound on the next version. *)
Definition counter_is (ks : keyspace) (n : Z) : Prop :=
  match ks !! kVersionKey with None => n = 0 | Some (RStr s) => s = to_string n | Some _ => False end ∧ 0 ≤ n < LUA_EXACT.

Lemma version_counter ks n : version_is ks n → counter_is ks n.
Proof. intros [Hv Hn]. split; [done|]. unfold LUA_EXACT in *. lia. Qed.

Lemma counter_num n : 0 ≤ n < LUA_EXACT → version_num n.
Proof. unfold version_num, LUA_EXACT, INT64_MAX. lia. Qed.

Lemma counter_unique ks n m : counter_is ks n → counter_is ks m → n = m.
Proof.
  intros [Hn Hn'] [Hm Hm']. destruct (ks !! kVersionKey) as [[]|]; try done; [|congruence]. subst. by apply to_string_inj; [apply counter_num..|].
Qed.

(** A transaction, from a store whose counter has room. *)
Inductive history_step : rdb → rdb → Prop :=
| HStep t n db : txn_ok t → version_is (view db) n → history_step db (run_txn cfg t db).2.

Definition complete_row (r : option rvalue * option bytes * option Z) : Prop := ∃ h m s, r = (Some (RHash h), Some m, Some s).

(** One transaction: the counter does not go back, and a row at or below it stays
    unless it was neither complete nor gone, or is collected. *)
Lemma effect_keeps t n c ks ks' v : txn_ok t → version_is ks n → effect cfg t n c ks ks' → 0 < v ≤ n →
  complete_row (row ks v) ∨ (row ks v = no_row ∧ v < n) →
  ∃ n', counter_is ks' n' ∧ n ≤ n' ∧ (row ks' v = row ks v ∨ (row ks' v = no_row ∧ v < n')).
Proof.
  intros Hok Hver He Hv Hrow. pose proof Hver as [Hval Hn]. assert (version_num v) as Hvn by (apply counter_num; lia).
  pose proof (version_counter _ _ Hver) as Hcnt.
  assert (∀ ks', ks' !! kVersionKey = ks !! kVersionKey → counter_is ks' n) as Hkeep by (intros k E; unfold counter_is; by rewrite E).
  assert (∀ h m, published ks ks' n h m → ∃ n', counter_is ks' n' ∧ n ≤ n' ∧ (row ks' v = row ks v ∨ (row ks' v = no_row ∧ v < n'))) as Hpub.
  { intros h m (Hc & _ & _ & _ & Hsame). exists (n + 1). split; [split; [by rewrite Hc|lia]|]. split; [lia|]. left. apply Hsame; [done|lia]. }
  destruct t; cbn [effect] in He.
  - destruct He as (_ & _ & Hp). by eapply Hpub.
  - destruct He as (_ & _ & Hp & _). by eapply Hpub.
  - destruct He as (_ & _ & Hs & Hm & _ & _ & Hch). destruct Hch as (Hc & _ & _ & Hsame). exists n. split; [by apply Hkeep|]. split; [lia|]. left.
    apply Hsame; [done|]. intros ->. destruct Hrow as [(? & ? & ? & Hr)|[_ ?]]; [|lia]. unfold row in Hr. congruence.
  - destruct He as (_ & _ & _ & _ & _ & Hc & _ & Hsame). exists n. split; [by apply Hkeep|]. split; [lia|]. left. by apply Hsame.
  - destruct He as (_ & _ & _ & _ & Hs & _ & Hch). destruct Hch as (Hc & _ & _ & Hsame). exists n. split; [by apply Hkeep|]. split; [lia|]. left.
    apply Hsame; [done|]. intros ->. destruct Hrow as [(? & ? & ? & Hr)|[_ ?]]; [|lia]. unfold row in Hr. congruence.
  - destruct He as (_ & _ & Hlt & _ & _ & _ & Hc & _ & Hsame). destruct Hok as (_ & Hok & _). exists target.
    split; [split; [by rewrite Hc|lia]|]. split; [lia|]. left. by apply Hsame.
  - destruct He as (_ & _ & _ & Hch). destruct Hch as (Hc & _ & _ & Hsame). exists n. split; [by apply Hkeep|]. split; [lia|]. left. apply Hsame; [done|lia].
  - destruct He as (Hnone & _). rewrite Hnone in Hval. lia.
  - destruct He as (Hlt & _ & Hch & _). destruct Hch as (Hc & _ & Hgone & Hsame). exists n. split; [by apply Hkeep|]. split; [lia|].
    destruct (decide (v = candidate)) as [->|Hne]; [by right|]. left. by apply Hsame.
  - destruct He as (Hc & _ & Hsame). exists n. split; [by apply Hkeep|]. split; [lia|]. left. by apply Hsame.
  - destruct He as (Hc & _ & Hsame). exists n. split; [by apply Hkeep|]. split; [lia|]. left. by apply Hsame.
Qed.

Lemma step_keeps db db' n v : history_step db db' → counter_is (view db) n → 0 < v ≤ n →
  complete_row (row (view db) v) ∨ (row (view db) v = no_row ∧ v < n) →
  ∃ n', counter_is (view db') n' ∧ n ≤ n' ∧ (row (view db') v = row (view db) v ∨ (row (view db') v = no_row ∧ v < n')).
Proof.
  intros Hstep Hcnt Hv Hrow. destruct Hstep as [t m db Hok Hver]. assert (m = n) as -> by (eapply counter_unique; [by apply version_counter|done]).
  pose proof (txn_effect cfg t n (view db) Hok Hver db eq_refl) as Ho. unfold txn_outcome in Ho.
  assert (unchanged (view db) (view (run_txn cfg t db).2) → ∃ n', counter_is (view (run_txn cfg t db).2) n' ∧ n ≤ n' ∧
    (row (view (run_txn cfg t db).2) v = row (view db) v ∨ (row (view (run_txn cfg t db).2) v = no_row ∧ v < n'))) as Hun.
  { intros (Hc & _ & Hsame). exists n. split; [unfold counter_is; by rewrite Hc|]. split; [lia|]. left. apply Hsame; [|done]. destruct Hver. apply counter_num. lia. }
  destruct ((run_txn cfg t db).1) as [c|]; [|by apply Hun]. destruct (0 <? c); [|by apply Hun]. by eapply effect_keeps.
Qed.

(** C13: Published versions are immutable: whatever transactions follow, in whatever
    order, a complete version at or below the counter keeps its snapshot, metadata
    and index entry, or was removed altogether by the garbage collection while a
    newer version was current; and the counter never goes back. *)
Theorem published_immutable db db' n v r :
  counter_is (view db) n → 0 < v ≤ n → row (view db) v = r → complete_row r → rtc history_step db db' →
  ∃ n', counter_is (view db') n' ∧ n ≤ n' ∧ (row (view db') v = r ∨ (row (view db') v = no_row ∧ v < n')).
Proof.
  intros Hcnt Hv Hr Hc Hrun. assert (row (view db) v = r ∨ (row (view db) v = no_row ∧ v < n)) as Hrow by by left. clear Hr.
  revert n Hcnt Hv Hrow. induction Hrun as [db|db db1 db' Hstep _ IH]; intros n Hcnt Hv Hrow.
  { exists n. split; [done|]. split; [lia|]. done. }
  destruct (step_keeps db db1 n v Hstep Hcnt Hv) as (n1 & Hcnt1 & Hle & Hrow1).
  { destruct Hrow as [->|Hrow]; [by left|by right]. }
  destruct (IH n1 Hcnt1) as (n' & Hcnt' & Hle' & Hrow'); [lia| |exists n'; split; [done|]; split; [lia|done]].
  destruct Hrow1 as [Hrow1|Hrow1]; [|by right]. rewrite Hrow1. destruct Hrow as [Hrow|[Hrow ?]]; [by left|]. right. split; [done|lia].
Qed.

End theorems.

(** ** Examples *)

Module HistoryRuns.
Definition cfg : ConfigHistoryConfig := mkHistory "required" false 1 10 100 200 100 100 5 5 100 10 10 1000 10 10 10.
Definition files1 : files_map := [("10-a.ini" : bytes, "[log]" : bytes)].
Definition files2 : files_map := [("10-a.ini" : bytes, "[log]" : bytes); ("20-b.ini" : bytes, "x=1" : bytes)].
Definition meta (v : Z) : bytes := metadata_json v (v - 1) (100 * v) "root" "save" "" (mkInfo 1 1 "00") None.

Definition run (t : txn) (ks : keyspace) : option Z * keyspace := @run_txn spec_redis spec_lua cfg t ks.

Definition seeded : keyspace := (run (TSeed (meta 1) files1) ∅).2.
Definition saved : keyspace := (run (TSave 1 "a" (meta 2) files2) seeded).2.

(** Seed, save, a second save on the same base, rollback, collection. *)
Lemma a_history :
  (run (TSeed (meta 1) files1) ∅).1 = Some 1 ∧ (run (TSave 1 "a" (meta 2) files2) seeded).1 = Some 2 ∧
  (run (TSave 1 "a" (meta 2) files1) saved).1 = Some (-1) ∧
  (run (TRollback 2 1 "a" (meta 3) (meta 1) files1) saved).1 = Some 3 ∧
  (run (TCollect 1 150) saved).1 = Some 1 ∧ (run (TCollect 1 50) saved).1 = Some 0 ∧ (run (TCollect 2 500) saved).1 = Some 0.
Proof. by vm_compute. Qed.

Lemma save_ok : txn_ok (TSave 1 "a" (meta 2) files2).
Proof. split; [by vm_compute|]. by apply (bool_decide_unpack _); vm_compute. Qed.
Lemma seeded_version : version_is seeded 1.
Proof. split; [by vm_compute|by vm_compute]. Qed.
End HistoryRuns.

Lemma transactions_exact_witness :
  published HistoryRuns.seeded HistoryRuns.saved 1 (hash_of HistoryRuns.files2) (HistoryRuns.meta 2).
Proof.
  pose proof (@transactions_exact spec_redis spec_redis_laws spec_lua HistoryRuns.cfg _ 1 HistoryRuns.seeded HistoryRuns.save_ok HistoryRuns.seeded_version) as Ho.
  lazymatch type of Ho with txn_outcome _ _ _ ?r _ _ => assert (r = Some 2) as E by (by vm_compute) end. rewrite E in Ho.
  exact (proj2 (proj2 Ho)).
Defined.

Lemma published_immutable_witness :
  ∃ n', counter_is HistoryRuns.saved n' ∧ 1 ≤ n' ∧
    (row HistoryRuns.saved 1 = row HistoryRuns.seeded 1 ∨ (row HistoryRuns.saved 1 = no_row ∧ 1 < n')).
Proof.
  refine (@published_immutable spec_redis spec_redis_laws spec_lua HistoryRuns.cfg HistoryRuns.seeded HistoryRuns.saved 1 1 _ _ _ eq_refl _ _).
  - apply version_counter, HistoryRuns.seeded_version.
  - lia.
  - eexists _, _, _. vm_compute. reflexivity.
  - apply rtc_once. exact (@HStep spec_redis spec_lua HistoryRuns.cfg _ 1 HistoryRuns.seeded HistoryRuns.save_ok HistoryRuns.seeded_version).
Defined.
