(* ===== verification/HistoryService.v ===== *)
(** * The history service (src/src/app/config_history_service.hpp)

    A periodic check reads the health of the history, migrates a store from before
    the history, and collects old versions.  Requests for a check are gathered: one
    check runs at a time and serves all that were waiting when it started.  The
    check is a machine that is driven by the replies of Redis; gathering is a step
    relation that interleaves the threads that ask with the one that runs.  The
    theorems show that every request is answered exactly once and none is left when
    the service is idle, and that versions are collected only under a healthy
    verdict, below the version it reported, each at most once. *)

From S2P Require Import Prelude Config Response AdminJson AppConfig AdminAuth OrderedMap ConfigHistory DbPool RedisPool ConfigSync RedisStore HistoryScripts.

(** ** The state *)

Record HistoryStats := mkStats {
  checks : Z;
  inconsistent_checks : Z;
  gc_deleted : Z;
  gc_failures : Z;
  max_observed_version : Z;
  inconsistent : bool
}.

Definition stats0 : HistoryStats := mkStats 0 0 0 0 0 true.

Definition mark_inconsistent (s : HistoryStats) : HistoryStats :=
  mkStats (checks s) (wrap64 (inconsistent_checks s + 1)) (gc_deleted s) (gc_failures s) (max_observed_version s) true.
Definition gc_failed (s : HistoryStats) : HistoryStats :=
  mkStats (checks s) (inconsistent_checks s) (gc_deleted s) (wrap64 (gc_failures s + 1)) (max_observed_version s) (inconsistent s).
Definition count_deleted (s : HistoryStats) : HistoryStats :=
  mkStats (checks s) (inconsistent_checks s) (wrap64 (gc_deleted s + 1)) (gc_failures s) (max_observed_version s) (inconsistent s).
Definition count_check (s : HistoryStats) : HistoryStats :=
  mkStats (wrap64 (checks s + 1)) (inconsistent_checks s) (gc_deleted s) (gc_failures s) (max_observed_version s) (inconsistent s).
Definition observe (current : Z) (s : HistoryStats) : HistoryStats :=
  mkStats (checks s) (inconsistent_checks s) (gc_deleted s) (gc_failures s) (Z.max (max_observed_version s) current) (inconsistent s).
Definition set_consistent (s : HistoryStats) : HistoryStats :=
  mkStats (checks s) (inconsistent_checks s) (gc_deleted s) (gc_failures s) (max_observed_version s) false.

(** ** One check

    The command under way. *)
Inductive check_pc :=
| AwaitHealth (now : Z)
| AwaitLegacy (current : Z)
| AwaitMigration (current : Z) (meta audit : bytes) (files : files_map)
| AwaitCandidates (current cutoff : Z)
| AwaitDelete (current cutoff : Z) (candidate : Z) (rest : list Z)
| CheckDone.

Section model.
Context `{OpenSsl} (cfg : ConfigHistoryConfig).

(** The scripts of a pending reply that change the store. *)
Definition check_txn (pc : check_pc) : option txn :=
  match pc with
  | AwaitHealth now => Some (THealth now)
  | AwaitMigration current meta audit files => Some (TMigrate current meta audit files)
  | AwaitDelete _ cutoff candidate _ => Some (TCollect candidate cutoff)
  | AwaitLegacy _ | AwaitCandidates _ _ | CheckDone => None
  end.

(** [run_health_check] *)
Definition start_check (now : Z) (s : HistoryStats) : HistoryStats * check_pc := (count_check s, AwaitHealth now).

(** [parse_hgetall]: a repeated name is malformed. *)
Fixpoint distinct_pairs (pairs : list (bytes * bytes)) (files : files_map) : option files_map :=
  match pairs with
  | [] => Some files
  | (k, v) :: rest => if sm_has k files then None else distinct_pairs rest (sm_insert k v files)
  end.
Definition history_hgetall (reply : RedisReplyData) : option files_map :=
  if negb (rd_ok reply) || negb (beqb (rd_type reply) "array") || negb (Nat.even (length (rd_elements reply))) then None
  else distinct_pairs (pair_elements (rd_elements reply)) [].

Definition migration_reason : bytes := "automatic Phase 4 legacy history migration".
Definition migration_audit (current : Z) : bytes :=
  "{" ++ quoted "user" ++ ":" ++ quoted "system" ++ "," ++ quoted "base_version" ++ ":" ++ to_string current ++ "," ++ quoted "new_version" ++ ":" ++
  to_string current ++ "," ++ quoted "action" ++ ":" ++ quoted "migration" ++ "," ++ quoted "reason" ++ ":" ++ quoted migration_reason ++ "}".

(** [read_gc_candidates] *)
Definition read_gc_candidates (now current : Z) : check_pc := AwaitCandidates current (now - retention_days cfg * 24 * 60 * 60).

(** What a healthy verdict leads to. *)
Definition healthy (now current : Z) (s : HistoryStats) : HistoryStats * check_pc :=
  (set_consistent s, if current <=? 0 then CheckDone else read_gc_candidates now current).

(** The reply of the health script: [now] is the time when it arrives. *)
Definition health_reply (now : Z) (s : HistoryStats) (reply : RedisReplyData) : HistoryStats * check_pc :=
  if negb (rd_ok reply) || negb (beqb (rd_type reply) "array") then (gc_failed s, CheckDone)
  else
    match rd_elements reply with
    | [e0; e1; e2; verdict] =>
        match parse_int64 e0, parse_int64 e1, parse_int64 e2 with
        | Some current, Some index_high, Some machine_high =>
            let s := observe current s in
            let trusted_high := Z.max (max_observed_version s) (Z.max index_high machine_high) in
            if (current <? trusted_high) || (current <? index_high) then (mark_inconsistent s, CheckDone)
            else if beqb verdict "legacy" then
              if auto_migrate_legacy cfg then
                if current <=? 0 then (mark_inconsistent s, CheckDone) else (s, AwaitLegacy current)
              else if negb (beqb (read_mode cfg) "compat") then (mark_inconsistent s, CheckDone)
              else healthy now current s
            else if beqb verdict "legacy-empty" then
              if negb (beqb (read_mode cfg) "compat") then (mark_inconsistent s, CheckDone) else healthy now current s
            else if negb (beqb verdict "ok") then (mark_inconsistent s, CheckDone)
            else healthy now current s
        | _, _, _ => (mark_inconsistent s, CheckDone)
        end
    | _ => (gc_failed s, CheckDone)
    end.

Definition legacy_reply (now current : Z) (s : HistoryStats) (reply : RedisReplyData) : HistoryStats * check_pc :=
  match history_hgetall reply with
  | None | Some [] => (mark_inconsistent s, CheckDone)
  | Some files =>
      match validate_snapshot files cfg true with
      | inl _ => (mark_inconsistent s, CheckDone)
      | inr info =>
          (s, AwaitMigration current (metadata_json current current now "system" "migration" migration_reason info None) (migration_audit current) files)
      end
  end.

(** [redis_integer] *)
Definition reply_code (reply : RedisReplyData) : option Z := if rd_ok reply then script_integer reply else None.

Definition migration_reply (now current : Z) (s : HistoryStats) (reply : RedisReplyData) : HistoryStats * check_pc :=
  match reply_code reply with
  | None => (mark_inconsistent (gc_failed s), CheckDone)
  | Some code =>
      if negb (code =? current) && negb (code =? -6) then (mark_inconsistent s, CheckDone) else start_check now s
  end.

(** [delete_next_candidate] *)
Definition next_delete (current cutoff : Z) (candidates : list Z) (s : HistoryStats) : check_pc :=
  match candidates with
  | [] => CheckDone
  | candidate :: rest => if inconsistent s then CheckDone else AwaitDelete current cutoff candidate rest
  end.

Definition candidates_reply (current cutoff : Z) (s : HistoryStats) (reply : RedisReplyData) : HistoryStats * check_pc :=
  if negb (rd_ok reply) || negb (beqb (rd_type reply) "array") then (gc_failed s, CheckDone)
  else
    let candidates := filter (λ v, 0 < v ∧ v < current) (omap parse_int64 (rd_elements reply)) in
    (s, next_delete current cutoff candidates s).

Definition delete_reply (current cutoff : Z) (rest : list Z) (s : HistoryStats) (reply : RedisReplyData) : HistoryStats * check_pc :=
  match reply_code reply with
  | None => let s := gc_failed s in (s, next_delete current cutoff rest s)
  | Some code =>
      if code =? 1 then let s := count_deleted s in (s, next_delete current cutoff rest s)
      else if code =? -5 then (mark_inconsistent s, CheckDone)
      else (s, next_delete current cutoff rest s)
  end.

Definition check_step (now : Z) (s : HistoryStats) (pc : check_pc) (reply : RedisReplyData) : HistoryStats * check_pc :=
  match pc with
  | AwaitHealth _ => health_reply now s reply
  | AwaitLegacy current => legacy_reply now current s reply
  | AwaitMigration current _ _ _ => migration_reply now current s reply
  | AwaitCandidates current cutoff => candidates_reply current cutoff s reply
  | AwaitDelete current cutoff _ rest => delete_reply current cutoff rest s reply
  | CheckDone => (s, CheckDone)
  end.

(** ** The gathering of requests

    Requests are numbered in the order in which they enter the queue.  The log is
    the history of what was asked, started and answered. *)

Inductive event := Asked (r : nat) | Started | Served (r : nat).

(** A thread that holds the duty to run checks. *)
Inductive runner :=
| Launching
| Running (batch : list nat) (pc : check_pc)
| Finishing (batch : list nat).

Record gather := mkGather {
  in_flight : bool;
  pending_health_checks : list nat;
  runners : list runner;
  stats : HistoryStats;
  log : list event
}.

Definition gather0 : gather := mkGather false [] [] stats0 [].

Definition asked (l : list event) : list nat := omap (λ e, if e is Asked r then Some r else None) l.
Definition served (l : list event) : list nat := omap (λ e, if e is Served r then Some r else None) l.

Definition request_health_check (g : gather) : gather :=
  let r := length (asked (log g)) in
  mkGather true (pending_health_checks g ++ [r]) (if in_flight g then runners g else runners g ++ [Launching])
    (stats g) (log g ++ [Asked r]).

Definition launch_health_check (now : Z) (i : nat) (g : gather) : gather :=
  let '(s, pc) := start_check now (stats g) in
  mkGather (in_flight g) [] (<[i := Running (pending_health_checks g) pc]> (runners g)) s (log g ++ [Started]).

(** A reply arrives; the completion of the check begins to answer its batch. *)
Definition check_replied (now : Z) (i : nat) (batch : list nat) (pc : check_pc) (reply : RedisReplyData) (g : gather) : gather :=
  let '(s, pc') := check_step now (stats g) pc reply in
  mkGather (in_flight g) (pending_health_checks g)
    (<[i := match pc' with CheckDone => Finishing batch | _ => Running batch pc' end]> (runners g)) s (log g).

Definition answer_next (i : nat) (r : nat) (batch : list nat) (g : gather) : gather :=
  mkGather (in_flight g) (pending_health_checks g) (<[i := Finishing batch]> (runners g)) (stats g) (log g ++ [Served r]).

(** The end of [finish_health_check]. *)
Definition finish_health_check (i : nat) (g : gather) : gather :=
  match pending_health_checks g with
  | [] => mkGather false [] (delete i (runners g)) (stats g) (log g)
  | _ => mkGather (in_flight g) (pending_health_checks g) (<[i := Launching]> (runners g)) (stats g) (log g)
  end.

Inductive gather_step : gather → gather → Prop :=
| g_request g : gather_step g (request_health_check g)
| g_launch now i g : runners g !! i = Some Launching → gather_step g (launch_health_check now i g)
| g_reply now i batch pc reply g :
    runners g !! i = Some (Running batch pc) → gather_step g (check_replied now i batch pc reply g)
| g_answer i r batch g : runners g !! i = Some (Finishing (r :: batch)) → gather_step g (answer_next i r batch g)
| g_finish i g : runners g !! i = Some (Finishing []) → gather_step g (finish_health_check i g).

End model.

(** ** Who waits, and for what *)

Definition batch_of (q : runner) : list nat :=
  match q with Launching => [] | Running batch _ | Finishing batch => batch end.

(** A check was started after [r] was asked. *)
Definition fresh_for (l : list event) (r : nat) : Prop := ∃ l1 l2 l3, l = l1 ++ Asked r :: l2 ++ Started :: l3.

(** What a version collected in a check may be. *)
Definition gc_ok (s : HistoryStats) (pc : check_pc) : Prop :=
  match pc with
  | AwaitCandidates current _ => inconsistent s = false ∧ 0 < current ∧ current = max_observed_version s
  | AwaitDelete current _ candidate rest =>
      inconsistent s = false ∧ current = max_observed_version s ∧ Forall (λ v, 0 < v < current) (candidate :: rest)
  | _ => True
  end.
Definition runner_ok (g : gather) (q : runner) : Prop :=
  match q with Running _ pc => gc_ok (stats g) pc ∧ pc ≠ CheckDone | _ => True end.

Record gather_inv (g : gather) : Prop := mkGatherInv {
  gi_single : if in_flight g then ∃ q, runners g = [q] ∧ (q = Launching → pending_health_checks g ≠ [])
              else runners g = [] ∧ pending_health_checks g = [];
  gi_order : served (log g) ++ concat (map batch_of (runners g)) ++ pending_health_checks g = asked (log g);
  gi_asked : asked (log g) = seq 0 (length (asked (log g)));
  gi_batch : ∀ r, r ∈ concat (map batch_of (runners g)) → fresh_for (log g) r;
  gi_served : ∀ l1 r l2, log g = l1 ++ Served r :: l2 → fresh_for l1 r;
  gi_runner : Forall (runner_ok g) (runners g)
}.

Create HintDb event_log.

Section proofs.
Context `{OpenSsl} (cfg : ConfigHistoryConfig).

Lemma next_delete_ok current cutoff l s :
  current = max_observed_version s → Forall (λ v, 0 < v < current) l → gc_ok s (next_delete current cutoff l s).
Proof.
  intros Hc Hl. destruct l as [|v l]; cbn [next_delete]; [done|].
  destruct (inconsistent s) eqn:Hs; cbn [gc_ok]; auto.
Qed.

Lemma healthy_ok now current s : current = max_observed_version s → gc_ok (healthy cfg now current s).1 (healthy cfg now current s).2.
Proof.
  intros Hc. unfold healthy. cbn [fst snd]. destruct (Z.leb_spec current 0); [done|].
  cbn. auto.
Qed.

(** Only a verdict for the highest version ever seen leads to the collection. *)
Lemma health_reply_ok now s reply : gc_ok (health_reply cfg now s reply).1 (health_reply cfg now s reply).2.
Proof.
  unfold health_reply. destruct (negb (rd_ok reply) || _); [done|].
  destruct (rd_elements reply) as [|e0 [|e1 [|e2 [|v [|? ?]]]]]; try done.
  destruct (parse_int64 e0) as [cur|], (parse_int64 e1) as [ih|], (parse_int64 e2) as [mh|]; try done.
  cbv zeta. destruct ((cur <? _) || _) eqn:Hlow; [done|].
  assert (cur = max_observed_version (observe cur s)) as Hc by (cbn in *; lia).
  pose proof (healthy_ok now cur (observe cur s) Hc).
  repeat case_match; try done.
Qed.

Lemma check_step_ok now s pc reply :
  gc_ok s pc → gc_ok (check_step cfg now s pc reply).1 (check_step cfg now s pc reply).2.
Proof.
  destruct pc as [?|cur|cur me au fi|cur cut|cur cut cand rest|]; cbn [check_step gc_ok].
  - intros _. apply health_reply_ok.
  - intros _. unfold legacy_reply. repeat case_match; done.
  - intros _. unfold migration_reply, start_check. repeat case_match; done.
  - intros (Hs & Hp & Hc). unfold candidates_reply. case_match; [done|]. cbn [fst snd].
    apply next_delete_ok; [done|]. apply Forall_forall. intros v [Hv _]%list_elem_of_filter. exact Hv.
  - intros (Hs & Hc & [_ Hr]%Forall_cons). unfold delete_reply.
    repeat case_match; try done; cbn [fst snd]; by apply next_delete_ok.
  - done.
Qed.

Lemma check_step_max now s pc reply : max_observed_version s <= max_observed_version (check_step cfg now s pc reply).1.
Proof.
  destruct pc; cbn [check_step];
    unfold health_reply, legacy_reply, migration_reply, candidates_reply, delete_reply, start_check, healthy;
    repeat case_match; cbn; lia.
Qed.

Lemma omap_snoc {A B} (f : A → option B) l x : omap f (l ++ [x]) = omap f l ++ option_list (f x).
Proof. rewrite omap_app. cbn. by destruct (f x). Qed.
Lemma asked_asked l r : asked (l ++ [Asked r]) = asked l ++ [r].
Proof. unfold asked. by rewrite omap_snoc. Qed.
Lemma asked_started l : asked (l ++ [Started]) = asked l.
Proof. unfold asked. rewrite omap_snoc. cbn. apply app_nil_r. Qed.
Lemma asked_served l r : asked (l ++ [Served r]) = asked l.
Proof. unfold asked. rewrite omap_snoc. cbn. apply app_nil_r. Qed.
Lemma served_asked l r : served (l ++ [Asked r]) = served l.
Proof. unfold served. rewrite omap_snoc. cbn. apply app_nil_r. Qed.
Lemma served_started l : served (l ++ [Started]) = served l.
Proof. unfold served. rewrite omap_snoc. cbn. apply app_nil_r. Qed.
Lemma served_served l r : served (l ++ [Served r]) = served l ++ [r].
Proof. unfold served. by rewrite omap_snoc. Qed.
#[local] Hint Rewrite asked_asked asked_started asked_served served_asked served_started served_served : event_log.

Lemma fresh_for_snoc l e r : fresh_for l r → fresh_for (l ++ [e]) r.
Proof.
  intros (l1 & l2 & l3 & ->). exists l1, l2, (l3 ++ [e]). by rewrite <-app_assoc, <-app_comm_cons, <-app_assoc.
Qed.

Lemma fresh_for_started l r : r ∈ asked l → fresh_for (l ++ [Started]) r.
Proof.
  intros (e & He & Hr)%list_elem_of_omap. destruct e as [r'| |]; try done. injection Hr as ->.
  apply list_elem_of_split in He as (l1 & l2 & ->). exists l1, l2, []. by rewrite <-app_assoc.
Qed.

(** The order of the log is kept by an event that answers only what is fresh. *)
Lemma served_fresh_snoc l e :
  (∀ l1 r l2, l = l1 ++ Served r :: l2 → fresh_for l1 r) → (∀ r, e = Served r → fresh_for l r) →
  ∀ l1 r l2, l ++ [e] = l1 ++ Served r :: l2 → fresh_for l1 r.
Proof.
  intros Hl He l1 r l2. destruct l2 as [|x l2] using rev_ind.
  - intros [-> [= ->]]%app_inj_tail. by apply He.
  - rewrite app_comm_cons, app_assoc. intros [Hll _]%app_inj_tail. by apply (Hl l1 r l2).
Qed.

Lemma seq_snoc n : seq 0 n ++ [n] = seq 0 (length (seq 0 n ++ [n])).
Proof. rewrite length_app, length_seq. cbn. rewrite Nat.add_1_r. by rewrite seq_S. Qed.

Lemma single_runner g i q :
  gather_inv g → runners g !! i = Some q → in_flight g = true ∧ i = 0%nat ∧ runners g = [q].
Proof.
  intros Hi Hq. pose proof (gi_single _ Hi) as Hs. destruct (in_flight g).
  - destruct Hs as (q' & Hr & _). rewrite Hr in Hq |- *. destruct i as [|i]; cbn in Hq; [|by destruct i].
    by injection Hq as ->.
  - destruct Hs as [Hr _]. by rewrite Hr in Hq.
Qed.

Lemma request_inv g : gather_inv g → gather_inv (request_health_check g).
Proof.
  intros Hi. unfold request_health_check. split; cbn [in_flight pending_health_checks runners stats log].
  - pose proof (gi_single _ Hi) as Hs. destruct (in_flight g).
    + destruct Hs as (q & -> & _). exists q. split; [done|]. intros _. by destruct (pending_health_checks g).
    + destruct Hs as [-> ->]. by exists Launching.
  - autorewrite with event_log. rewrite <-(gi_order _ Hi) at 2. rewrite <-!app_assoc. f_equal.
    destruct (in_flight g); [done|]. rewrite map_app, concat_app. cbn. by rewrite app_nil_r.
  - autorewrite with event_log. set (n := length (asked (log g))).
    rewrite (gi_asked _ Hi). fold n. apply seq_snoc.
  - intros r Hr. apply fresh_for_snoc, (gi_batch _ Hi). destruct (in_flight g); [done|].
    rewrite map_app, concat_app in Hr. cbn in Hr. by rewrite app_nil_r in Hr.
  - apply served_fresh_snoc; [apply (gi_served _ Hi)|done].
  - destruct (in_flight g); [exact (gi_runner _ Hi)|]. apply Forall_app. split; [exact (gi_runner _ Hi)|].
    by apply Forall_singleton.
Qed.

Lemma launch_inv now i g : runners g !! i = Some Launching → gather_inv g → gather_inv (launch_health_check now i g).
Proof.
  intros Hq Hi. destruct (single_runner _ _ _ Hi Hq) as (Hf & -> & Hr).
  pose proof (gi_order _ Hi) as Ho. rewrite Hr in Ho. cbn in Ho.
  unfold launch_health_check, start_check. rewrite Hr, Hf.
  split; cbn [in_flight pending_health_checks runners stats log map batch_of concat insert list_insert]; autorewrite with event_log.
  - by eexists.
  - cbn. by rewrite !app_nil_r.
  - exact (gi_asked _ Hi).
  - cbn. rewrite app_nil_r. intros r Hp. apply fresh_for_started. rewrite <-Ho. set_solver.
  - apply served_fresh_snoc; [apply (gi_served _ Hi)|done].
  - by apply Forall_singleton.
Qed.

Lemma reply_inv now i batch pc reply g :
  runners g !! i = Some (Running batch pc) → gather_inv g → gather_inv (check_replied cfg now i batch pc reply g).
Proof.
  intros Hq Hi. destruct (single_runner _ _ _ Hi Hq) as (Hf & -> & Hr).
  pose proof (gi_order _ Hi) as Ho. pose proof (gi_batch _ Hi) as Hb. pose proof (gi_runner _ Hi) as Hru.
  rewrite Hr in Ho, Hb, Hru. apply Forall_singleton in Hru as [Hok _].
  pose proof (check_step_ok now _ _ reply Hok) as Hok'.
  unfold check_replied. destruct (check_step cfg now (stats g) pc reply) as [s pc']. cbn [fst snd] in Hok'.
  rewrite Hr, Hf. set (q := match pc' with CheckDone => _ | _ => _ end).
  assert (batch_of q = batch) as Hq' by (by destruct pc').
  split; cbn [in_flight pending_health_checks runners stats log insert list_insert].
  - exists q. split; [done|]. intros Hl. by destruct pc'.
  - cbn [map concat]. by rewrite Hq'.
  - exact (gi_asked _ Hi).
  - cbn [map concat]. rewrite Hq'. exact Hb.
  - apply (gi_served _ Hi).
  - apply Forall_singleton. by destruct pc'.
Qed.

Lemma answer_inv i r batch g : runners g !! i = Some (Finishing (r :: batch)) → gather_inv g → gather_inv (answer_next i r batch g).
Proof.
  intros Hq Hi. destruct (single_runner _ _ _ Hi Hq) as (Hf & -> & Hr).
  pose proof (gi_order _ Hi) as Ho. pose proof (gi_batch _ Hi) as Hb. rewrite Hr in Ho, Hb. cbn in Ho, Hb.
  unfold answer_next. rewrite Hr, Hf.
  split; cbn [in_flight pending_health_checks runners stats log insert list_insert map batch_of concat]; autorewrite with event_log.
  - by eexists.
  - rewrite <-Ho, <-!app_assoc. done.
  - exact (gi_asked _ Hi).
  - intros r' Hr'. apply fresh_for_snoc, Hb. by right.
  - apply served_fresh_snoc; [apply (gi_served _ Hi)|]. intros ? [= <-]. apply Hb. by left.
  - by apply Forall_singleton.
Qed.

Lemma finish_inv i g : runners g !! i = Some (Finishing []) → gather_inv g → gather_inv (finish_health_check i g).
Proof.
  intros Hq Hi. destruct (single_runner _ _ _ Hi Hq) as (Hf & -> & Hr).
  pose proof (gi_order _ Hi) as Ho. rewrite Hr in Ho. cbn in Ho.
  unfold finish_health_check. rewrite Hr, Hf. destruct (pending_health_checks g) as [|p ps] eqn:Hp.
  all: split; cbn [in_flight pending_health_checks runners stats log insert list_insert map batch_of concat].
  all: try exact (gi_asked _ Hi); try apply (gi_served _ Hi); try done.
  - intros r Hb. by apply elem_of_nil in Hb.
  - by eexists.
  - intros r Hb. by apply elem_of_nil in Hb.
  - by apply Forall_singleton.
Qed.

Lemma gather_reachable g : rtc (gather_step cfg) gather0 g → gather_inv g.
Proof.
  revert g. apply rtc_ind_r.
  - split; try done; cbn; try set_solver. intros l1 r l2 Hl. by destruct l1.
  - intros g g' _ Hs IH. destruct Hs; eauto using request_inv, launch_inv, reply_inv, answer_inv, finish_inv.
Qed.

(** The one that runs can always go on by itself, or when a reply arrives. *)
Lemma runner_steps g : gather_inv g → in_flight g = true → ∃ g', gather_step cfg g g' ∧ asked (log g') = asked (log g).
Proof.
  intros Hi Hf. pose proof (gi_single _ Hi) as Hs. rewrite Hf in Hs. destruct Hs as (q & Hr & _).
  assert (runners g !! 0%nat = Some q) as Hq by (by rewrite Hr).
  destruct q as [|batch pc|[|r batch]]; eexists.
  - split; [by apply (g_launch _ 0)|]. cbn. by autorewrite with event_log.
  - split; [by apply (g_reply _ 0 0 batch pc reply_data0)|]. unfold check_replied. by destruct (check_step cfg 0 _ _ _).
  - split; [by apply (g_finish _ 0)|]. unfold finish_health_check. by destruct (pending_health_checks g).
  - split; [by apply (g_answer _ 0)|]. cbn. by autorewrite with event_log.
Qed.

(** C38: requests for a health check are gathered without loss or repetition,
    whatever the interleaving of the threads that ask with the one that runs: at most
    one check runs; the requests are answered in the order in which they were made,
    each once; an answer comes from a check that was started after the request was
    made; while a check is in flight it can go on without another request; and when
    none is in flight every request has been answered. *)
Theorem health_checks_served g :
  rtc (gather_step cfg) gather0 g →
  (length (runners g) <= 1)%nat ∧
  served (log g) `prefix_of` seq 0 (length (asked (log g))) ∧
  (∀ l1 r l2, log g = l1 ++ Served r :: l2 → fresh_for l1 r) ∧
  (if in_flight g then ∃ g', gather_step cfg g g' ∧ asked (log g') = asked (log g)
   else served (log g) = seq 0 (length (asked (log g)))).
Proof.
  intros Hi%gather_reachable. pose proof (gi_single _ Hi) as Hs. pose proof (gi_order _ Hi) as Ho.
  pose proof (gi_asked _ Hi) as Ha. split_and!.
  - destruct (in_flight g); [destruct Hs as (q & -> & _)|destruct Hs as [-> _]]; cbn; lia.
  - rewrite <-Ha, <-Ho. by apply prefix_app_r.
  - exact (gi_served _ Hi).
  - destruct (in_flight g) eqn:Hf; [by apply runner_steps|]. destruct Hs as [Hr Hp]. rewrite Hr, Hp in Ho. cbn in Ho. by rewrite app_nil_r, Ha in Ho.
Qed.

(** versions are collected only under a healthy verdict: whenever the service
    issues the deletion of a version, the history is marked consistent, the verdict
    was given for the highest version the service has ever observed, and what is
    deleted is positive and below it; no step lowers that highest version. *)
Lemma gc_confined g g' :
  rtc (gather_step cfg) gather0 g → gather_step cfg g g' →
  (∀ batch pc candidate cutoff, Running batch pc ∈ runners g → check_txn pc = Some (TCollect candidate cutoff) →
    inconsistent (stats g) = false ∧ 0 < candidate < max_observed_version (stats g)) ∧
  max_observed_version (stats g) <= max_observed_version (stats g').
Proof.
  intros Hi%gather_reachable Hs. split.
  - intros batch pc candidate cutoff Hr Ht. pose proof (gi_runner _ Hi) as Hru. rewrite Forall_forall in Hru.
    destruct (Hru _ Hr) as [Hok _]. destruct pc; try done. cbn in Ht. injection Ht as -> ->.
    destruct Hok as (Hc & -> & [Hv _]%Forall_cons). done.
  - destruct Hs as [| | now i batch pc reply | |]; try done.
    + unfold check_replied. pose proof (check_step_max now (stats g) pc reply) as Hm.
      by destruct (check_step cfg now (stats g) pc reply).
    + unfold finish_health_check. by destruct (pending_health_checks g).
Qed.

End proofs.

(** ** A run: two requests are gathered, the first check collects a version *)

Module ServiceSample.
Definition limits : ConfigHistoryConfig := mkHistory "compat" false 10 10 100 200 100 100 5 5 100 10 10 1000 10 10 10.
Definition healthy_reply : RedisReplyData := mkReplyData true [] [] 0 ["7" : bytes; "7" : bytes; "6" : bytes; "ok" : bytes] "array".
Definition candidates : RedisReplyData := mkReplyData true [] [] 0 ["3" : bytes; "9" : bytes] "array".
Definition failing : RedisReplyData := mkReplyData false [] [] 0 [] "error".

Definition replied (g : gather) (reply : RedisReplyData) : gather :=
  match runners g with
  | Running batch pc :: _ => @check_replied Sample.ssl limits 1000 0 batch pc reply g
  | _ => g
  end.
Definition collecting : gather :=
  foldl replied (request_health_check (launch_health_check 1000 0 (request_health_check gather0))) [healthy_reply; candidates].
Definition answered : gather := answer_next 0 0 [] (replied collecting failing).

Lemma replied_step g batch pc reply :
  runners g = [Running batch pc] → @gather_step Sample.ssl limits g (replied g reply).
Proof.
  intros Hr. unfold replied. rewrite Hr. apply (@g_reply Sample.ssl limits 1000 0 batch pc reply g). by rewrite Hr.
Qed.

Lemma collecting_reached : rtc (@gather_step Sample.ssl limits) gather0 collecting.
Proof.
  eapply rtc_l; [apply g_request|]. eapply rtc_l; [by apply (g_launch limits 1000 0)|].
  eapply rtc_l; [apply g_request|].
  eapply rtc_l; [by eapply (replied_step _ _ _ healthy_reply)|].
  eapply rtc_l; [by eapply (replied_step _ _ _ candidates)|]. apply rtc_refl.
Qed.

Lemma answered_reached : rtc (@gather_step Sample.ssl limits) gather0 answered.
Proof.
  eapply rtc_r; [eapply rtc_r; [apply collecting_reached|by eapply (replied_step _ _ _ failing)]|]. by apply (g_answer limits 0).
Qed.
End ServiceSample.

Lemma health_checks_served_witness :
  rtc (@gather_step Sample.ssl ServiceSample.limits) gather0 ServiceSample.answered ∧
  log ServiceSample.answered = [Asked 0; Started; Asked 1; Served 0] ∧
  served (log ServiceSample.answered) `prefix_of` seq 0 (length (asked (log ServiceSample.answered))).
Proof.
  split; [apply ServiceSample.answered_reached|]. split; [reflexivity|].
  exact (proj1 (proj2 (@health_checks_served Sample.ssl ServiceSample.limits _ ServiceSample.answered_reached))).
Defined.

Lemma gc_confined_witness :
  runners ServiceSample.collecting = [Running [0%nat] (AwaitDelete 7 (1000 - 10 * 24 * 60 * 60) 3 [])] ∧
  max_observed_version (stats ServiceSample.collecting) <=
  max_observed_version (stats (ServiceSample.replied ServiceSample.collecting ServiceSample.failing)).
Proof.
  split; [reflexivity|].
  apply (@gc_confined Sample.ssl ServiceSample.limits _ _ ServiceSample.collecting_reached).
  by eapply ServiceSample.replied_step.
Defined.
