(* ===== verification/HistoryTimer.v ===== *)
(** * The timer of the history service (src/src/app/config_history_service.hpp,
      start, stop, schedule_after, run_command)

    A timer asks for a health check, and the completion of that check arms the
    timer again.  The chain is interleaved with the gathering of requests of
    [HistoryService], with other threads that ask, and with stop.  The lemmas show
    that the chain does not break before stop and asks for nothing after it, that
    stop returns, and that a command is completed exactly once, also when it
    throws. *)

From stdpp Require Import relations.
From S2P Require Import Prelude AppConfig AdminAuth ConfigHistory DbPool RedisPool HistoryService.

(** ** The chain *)

Inductive timer_pc :=
| TSchedule                (* schedule_after, before its test *)
| TArm                     (* the test has passed *)
| TWaiting
| TAsked (r : nat)         (* its request for a check is not answered yet *)
| TCompleted               (* the completion runs, before its test *)
| TEnd.

Inductive timer_stop := NotStopped | StopCancel | StopWait | StopDone.

#[export] Instance timer_stop_eq_dec : EqDecision timer_stop.
Proof. solve_decision. Defined.

(** [ht_asks] counts the requests the timer made. *)
Record history_timer := mkTimer {
  ht_gather : gather;
  ht_running : bool;
  ht_cancelled : bool;
  ht_pc : timer_pc;
  ht_stop : timer_stop;
  ht_asks : nat
}.

(** [start], up to the call of [schedule_after]. *)
Definition timer_started : history_timer := mkTimer gather0 true false TSchedule NotStopped 0.

Definition set_pc (s : history_timer) (p : timer_pc) : history_timer :=
  mkTimer (ht_gather s) (ht_running s) (ht_cancelled s) p (ht_stop s) (ht_asks s).

(** A wait that is armed after the cancellation is not cancelled by it; [ec] can be
    set only if the timer was cancelled. *)
Definition timer_fires (ec : bool) (s : history_timer) : history_timer :=
  if ec || negb (ht_running s) then set_pc s TEnd
  else mkTimer (request_health_check (ht_gather s)) (ht_running s) (ht_cancelled s)
         (TAsked (length (asked (log (ht_gather s))))) (ht_stop s) (S (ht_asks s)).

Definition tested (s : history_timer) (next : timer_pc) : history_timer :=
  set_pc s (if ht_running s then next else TEnd).

Section machine.
Context `{OpenSsl} (cfg : ConfigHistoryConfig).

Inductive timer_step : history_timer → history_timer → Prop :=
| tm_schedule s : ht_pc s = TSchedule → timer_step s (tested s TArm)
| tm_arm s : ht_pc s = TArm → timer_step s (set_pc s TWaiting)
| tm_fire s ec : ht_pc s = TWaiting → (ec = true → ht_cancelled s = true) → timer_step s (timer_fires ec s)
| tm_served s r : ht_pc s = TAsked r → r ∈ served (log (ht_gather s)) → timer_step s (set_pc s TCompleted)
| tm_completed s : ht_pc s = TCompleted → timer_step s (tested s TSchedule)
(* the gathering goes on, and other threads ask *)
| tm_gather s g : gather_step cfg (ht_gather s) g →
    timer_step s (mkTimer g (ht_running s) (ht_cancelled s) (ht_pc s) (ht_stop s) (ht_asks s))
(* stop *)
| tm_stop s : ht_stop s = NotStopped →
    timer_step s (mkTimer (ht_gather s) false (ht_cancelled s) (ht_pc s) StopCancel (ht_asks s))
| tm_cancel s : ht_stop s = StopCancel →
    timer_step s (mkTimer (ht_gather s) (ht_running s) true (ht_pc s) StopWait (ht_asks s))
| tm_stopped s ioc_stopped timed_out : ht_stop s = StopWait →
    ioc_stopped || timed_out || negb (in_flight (ht_gather s)) = true →
    timer_step s (mkTimer (ht_gather s) (ht_running s) (ht_cancelled s) (ht_pc s) StopDone (ht_asks s)).

(** ** The invariant *)

Record timer_inv (s : history_timer) : Prop := mkTimerInv {
  ti_gather : gather_inv (ht_gather s);
  ti_running : ht_running s = bool_decide (ht_stop s = NotStopped);
  ti_cancelled : ht_cancelled s = true → ht_stop s ≠ NotStopped;
  ti_asked : ∀ r, ht_pc s = TAsked r → r ∈ asked (log (ht_gather s));
  ti_alive : ht_stop s = NotStopped → ht_pc s ≠ TEnd
}.

Lemma gather_step_inv g g' : gather_step cfg g g' → gather_inv g → gather_inv g'.
Proof. intros Hs Hi. destruct Hs; eauto using request_inv, launch_inv, reply_inv, answer_inv, finish_inv. Qed.

Lemma gather_step_asked g g' : gather_step cfg g g' → ∀ r, r ∈ asked (log g) → r ∈ asked (log g').
Proof.
  intros Hs r Hr. assert (∀ l e, r ∈ asked l → r ∈ asked (l ++ [e])) as Hsnoc.
  { intros l e Hl. unfold asked. rewrite omap_app. apply elem_of_app. by left. }
  destruct Hs; cbn; auto; unfold check_replied, finish_health_check; repeat case_match; done.
Qed.

Lemma tested_inv s next : (∀ r, next ≠ TAsked r) → next ≠ TEnd → timer_inv s → timer_inv (tested s next).
Proof.
  intros Hn He [H1 H2 H3 H4 H5]. unfold tested, set_pc. split; cbn; [done..|by destruct (ht_running s); intros r ?; [destruct (Hn r)|]|].
  intros Hs. rewrite H2, Hs. done.
Qed.

Lemma set_pc_inv s p : (∀ r, p ≠ TAsked r) → (ht_stop s = NotStopped → p ≠ TEnd) → timer_inv s → timer_inv (set_pc s p).
Proof. intros Hn He [H1 H2 H3 H4 H5]. split; cbn; try done. intros r Hr. by destruct (Hn r). Qed.

Lemma timer_step_inv s s' : timer_step s s' → timer_inv s → timer_inv s'.
Proof.
  intros Hs Hi. pose proof Hi as [H1 H2 H3 H4 H5]. destruct Hs as [s Hp|s Hp|s ec Hp Hec|s r Hp Hr|s Hp|s g Hg|s Hs|s Hs|s a b Hs Hw].
  - by apply tested_inv.
  - by apply set_pc_inv.
  - unfold timer_fires. destruct (ec || negb (ht_running s)) eqn:E.
    + apply set_pc_inv; [done| |done]. intros Hn. rewrite H2, Hn in E. cbn in E. rewrite orb_false_r in E.
      by destruct (H3 (Hec E)).
    + split; cbn; [by apply request_inv|done|done| |done]. intros r [= <-]. unfold asked. rewrite omap_app. cbn.
      apply elem_of_app. right. left.
  - by apply set_pc_inv.
  - by apply tested_inv.
  - split; cbn; [by eapply gather_step_inv|done|done| |done]. intros r Hr. by eapply gather_step_asked, H4.
  - split; cbn; try done.
  - split; cbn; try done. by rewrite H2, Hs.
  - split; cbn; try done. by rewrite H2, Hs.
Qed.

Lemma timer_reachable s : rtc timer_step timer_started s → timer_inv s.
Proof.
  revert s. apply rtc_ind_r.
  - split; cbn; try done. apply (gather_reachable cfg gather0). apply rtc_refl.
  - intros x y _ Hxy. by apply timer_step_inv.
Qed.

(** Once the flag is down the timer asks for nothing. *)
Lemma stopped_step s s' : timer_step s s' → ht_running s = false → ht_running s' = false ∧ ht_asks s' = ht_asks s.
Proof.
  intros Hs Hr. destruct Hs; try done. unfold timer_fires. by rewrite Hr, orb_true_r.
Qed.

(** The periodic check: under every interleaving with other requests, with the
    check itself and with stop, the chain of the timer is intact until stop is
    called, and can always go on, by itself or with the check that is in flight;
    after stop it asks for no further check; and stop never waits for ever. *)
Lemma history_timer_runs s :
  rtc timer_step timer_started s →
  (ht_stop s = NotStopped → ht_pc s ≠ TEnd) ∧
  (ht_pc s ≠ TEnd → ∃ s', timer_step s s' ∧ (ht_pc s' ≠ ht_pc s ∨ in_flight (ht_gather s) = true)) ∧
  (ht_running s = false → ∀ s', rtc timer_step s s' → ht_asks s' = ht_asks s) ∧
  (ht_stop s ≠ NotStopped → ∃ s1, rtc timer_step s s1 ∧ ht_stop s1 = StopDone).
Proof.
  intros Hr. pose proof (timer_reachable s Hr) as Hi. split_and!.
  - apply (ti_alive _ Hi).
  - intros Hp. destruct (ht_pc s) as [| | |r| |] eqn:Ep; [| | | | |done].
    + eexists. split; [by apply tm_schedule|]. left. cbn. by destruct (ht_running s).
    + eexists. split; [by apply tm_arm|]. by left.
    + exists (timer_fires false s). split; [by apply tm_fire|]. left. unfold timer_fires. by case_if.
    + pose proof (ti_asked _ Hi r Ep) as Ha. destruct (in_flight (ht_gather s)) eqn:Ef.
      * destruct (runner_steps cfg _ (ti_gather _ Hi) Ef) as (g' & Hg & _). eexists. split; [by apply tm_gather|]. by right.
      * eexists. split; [apply (tm_served _ r); [done|]|by left].
        pose proof (gi_single _ (ti_gather _ Hi)) as Hs. rewrite Ef in Hs. destruct Hs as [Hru Hpe].
        pose proof (gi_order _ (ti_gather _ Hi)) as Ho. rewrite Hru, Hpe in Ho. cbn in Ho. rewrite app_nil_r in Ho. by rewrite Ho.
    + eexists. split; [by apply tm_completed|]. left. cbn. by destruct (ht_running s).
  - clear Hr Hi. intros Hf s' Hs'. revert Hf. induction Hs' as [x|x y z Hxy _ IH]; intros Hf; [done|].
    destruct (stopped_step _ _ Hxy Hf) as [Hy Ha]. by rewrite (IH Hy).
  - intros Hs. assert (∀ x, ht_stop x = StopWait → ∃ s1, rtc timer_step x s1 ∧ ht_stop s1 = StopDone) as Hwait.
    { intros x Hx. eexists. split; [by apply rtc_once, (tm_stopped _ false true)|done]. }
    destruct (ht_stop s) eqn:Es; [done| | |].
    + destruct (Hwait (mkTimer (ht_gather s) (ht_running s) true (ht_pc s) StopWait (ht_asks s)) eq_refl) as (s1 & Hs1 & Hd).
      exists s1. split; [|done]. eapply rtc_l; [by apply tm_cancel|exact Hs1].
    + destruct (Hwait s Es) as (s1 & ? & ?). by exists s1.
    + exists s. by split.
Qed.

End machine.

(** ** Commands *)

(** How a command ends: its callback comes with a reply; the coroutine ends with
    an exception; spawning it throws. *)
Inductive command_end := CmdReply (r : RedisReplyData) | CmdException (what : option bytes) | SpawnThrows (what : option bytes).

Definition command_exception_reply (what : option bytes) : RedisReplyData :=
  mkReplyData false (default ("unknown Redis command exception" : bytes) what) [] 0 [] "error".

(** The command of the pool: the replies the completion is called with. *)
Definition pool_command (e : command_end) : list RedisReplyData :=
  match e with
  | CmdReply r => [r]
  | CmdException what => [command_exception_reply what]
  | SpawnThrows what => [command_exception_reply what]
  end.

(** [run_command] around a command that calls back with [replies] or throws before
    it has called; what the completion throws is swallowed in the callback. *)
Definition run_history_command (command : list RedisReplyData + option bytes) : list RedisReplyData :=
  match command with
  | inl replies => replies
  | inr what => [command_exception_reply what]
  end.

(** Through the pool every command is completed exactly once, with its reply or
    with the text of what went wrong. *)
Lemma command_completed_once e :
  ∃ r, run_history_command (inl (pool_command e)) = [r] ∧
    match e with
    | CmdReply reply => r = reply
    | CmdException what | SpawnThrows what => rd_ok r = false ∧ rd_error r = default ("unknown Redis command exception" : bytes) what
    end.
Proof. destruct e; eexists; (split; [reflexivity|done]). Qed.
