(* ===== verification/PublicRoutes.v ===== *)
(** * The routes of the gateway itself

    routes.cpp and public_routes.cpp: the table of local routes, and the handlers
    for liveness, readiness, metrics, the build and the demonstrations of the
    pools.  What the pools, the state file and the other components answer is an
    argument of a handler; the permit and the deadline of a combined query are
    modelled in Combo.  The text of the pools' statistics is an argument. *)

From S2P Require Import Prelude HttpProtocol Response Jwt Lifecycle DbPool RedisPool DbJson MysqlPool ClientSession HttpServer AdminLogin OrderedMap ConfigHistory ConfigSync HistoryService SyncLifecycle JsonText.

(** ** The table *)

Inductive endpoint :=
| api_health_ | api_ready_ | api_metrics_ | api_build_ | admin_page | admin_settings_page | api_redis_ | api_mysql_ | api_combo_
| admin_login_ | admin_config_ | admin_machines | admin_history | admin_history_path | admin_rollback | admin_snapshot_repair
| admin_mirror_rebuild | admin_history_migration | admin_orphan_resolution.

#[export] Instance endpoint_eq_dec : EqDecision endpoint.
Proof. solve_decision. Defined.

(** The calls of [route] in [register_routes], in order. *)
Definition exact_routes : list (bytes * endpoint) :=
  [("/api/health" : bytes, api_health_); ("/api/ready" : bytes, api_ready_); ("/api/metrics" : bytes, api_metrics_);
   ("/api/build" : bytes, api_build_); ("/admin" : bytes, admin_page); ("/admin/login" : bytes, admin_page);
   ("/admin/settings" : bytes, admin_settings_page); ("/api/redis" : bytes, api_redis_); ("/api/mysql" : bytes, api_mysql_);
   ("/api/combo" : bytes, api_combo_); ("/api/admin/login" : bytes, admin_login_); ("/api/admin/config" : bytes, admin_config_);
   ("/api/admin/config/machines" : bytes, admin_machines); ("/api/admin/config/history" : bytes, admin_history);
   ("/api/admin/config/rollback" : bytes, admin_rollback);
   ("/api/admin/config/history/repair-snapshot" : bytes, admin_snapshot_repair);
   ("/api/admin/config/history/rebuild-mirror" : bytes, admin_mirror_rebuild);
   ("/api/admin/config/history/migrate" : bytes, admin_history_migration);
   ("/api/admin/config/history/resolve-orphan" : bytes, admin_orphan_resolution)].

Definition history_prefix : bytes := "/api/admin/config/history/".

Definition register_routes : gmap (list ascii) endpoint * list (bytes * endpoint) :=
  (foldl (λ rs r, route rs r.1 r.2) ∅ exact_routes, route_prefixes [(history_prefix, admin_history_path)]).

(** The handler a request target reaches. *)
Definition serve (path_str : bytes) : option endpoint :=
  local_handler (λ p, register_routes.1 !! (p : list ascii)) register_routes.2 path_str.

(** ** Handlers *)

Definition DB_ERROR : Z := 501.

Definition json_reply (ctx : HttpContext) (status : Z) (body : bytes) : HttpContext :=
  respond (add_header ctx "Content-Type" "application/json") status body.

Definition api_mysql (res : Result) (ctx : HttpContext) : HttpContext :=
  if negb (res_ok res) then json_reply ctx 500 (resp_err DB_ERROR (res_error res)) else json_reply ctx 200 (resp_ok (res_json res)).

(** [inl] is the text of an exception, which leaves the headers as they were. *)
Definition api_redis (g : bytes + RedisReplyData) (ctx : HttpContext) : HttpContext :=
  match g with
  | inl what => respond ctx 500 (resp_err DB_ERROR what)
  | inr g => if negb (rd_ok g) then json_reply ctx 500 (resp_err DB_ERROR (rd_error g)) else json_reply ctx 200 (resp_ok_str (rd_str g))
  end.

(** [PoolComboBackend::get_cache] *)
Definition get_cache (reply : RedisReplyData) : bytes := if rd_ok reply then rd_str reply else [].

(** The response, and the command that is sent to Redis in the background.
    [permit] is whether [try_acquire] succeeds, [query] the result of the query,
    [None] past the deadline, and [redis] whether there is a pool. *)
Definition handle_api_combo (reply : RedisReplyData) (permit : bool) (query : option Result) (redis : bool) (ctx : HttpContext) :
    HttpContext * option (list bytes) :=
  let redis_ret := get_cache reply in
  if negb (beqb redis_ret []) then (json_reply ctx 200 (resp_ok_str redis_ret), None)
  else if negb permit then (json_reply ctx 503 (resp_err DB_ERROR "too many in-flight MySQL queries"), None)
  else
    match query with
    | None => (json_reply ctx 504 (resp_err DB_ERROR "MySQL query deadline exceeded"), None)
    | Some mysql_ret =>
        if negb (res_ok mysql_ret) then (json_reply ctx 500 (resp_err DB_ERROR (res_error mysql_ret)), None)
        else
          match extract_first_string_value (res_json mysql_ret) with
          | None => (json_reply ctx 500 (resp_err DB_ERROR "invalid MySQL response"), None)
          | Some data =>
              (json_reply ctx 200 (resp_ok_str data),
               if redis then Some ["SET" : bytes; "cache:user:1" : bytes; data; "EX" : bytes; "300" : bytes] else None)
          end
    end.

Definition api_health (ctx : HttpContext) : HttpContext := json_reply ctx 200 (resp_ok_str "running").

Definition api_build (ctx : HttpContext) : HttpContext :=
  json_reply ctx 200 ("{" ++ quoted "code" ++ ":0," ++ quoted "build" ++ ":" ++ quoted "asio_owen" ++ "}").

(** The atomics of [AdminRuntimeMetrics]. *)
Record AdminCounters := mkAdminCounters {
  am_auth_attempts : Z; am_auth_rejected : Z; am_login_failures : Z; am_login_successes : Z; am_auth_in_flight : Z;
  am_auth_work_rejections : Z; am_throttle_locked_ips : Z; am_drain_started_ns : Z; am_drain_completed_ns : Z;
  am_drain_duration_ns : Z; am_drain_timeout_count : Z; am_forced_stop_count : Z
}.

(** What a handler reads of [AppServices]; [None] is a null pointer. *)
Record AppServices := mkServices {
  as_draining : option bool;
  as_sync_enabled : bool;
  as_state_file : option bytes;
  as_history : option HistoryStats;
  as_shutdown : option ShutdownCoordinator;
  as_max_clients : Z;
  as_io_threads : Z;
  as_admin_metrics : option AdminCounters;
  as_config_metrics : option FileCounters;
  as_pool_stats : option bytes
}.

Definition draining (sv : AppServices) : bool := default false (as_draining sv).

(** [sync_state]: read only when the synchronization is on. *)
Definition sync_state (sv : AppServices) : State := if as_sync_enabled sv then load_state (as_state_file sv) else state0.

Definition sync_ready (sv : AppServices) : bool :=
  negb (as_sync_enabled sv) || (st_exists (sync_state sv) && beqb (status (sync_state sv)) "ok").

Definition history_ready (sv : AppServices) : bool := match as_history sv with Some h => negb (inconsistent h) | None => true end.

Definition ready (sv : AppServices) : bool := negb (draining sv) && sync_ready sv && history_ready sv.

Definition status_text (sv : AppServices) : bytes :=
  quoted (json_escape (if as_sync_enabled sv then status (sync_state sv) else "disabled")).

(** A list of members as the stream writes it. *)
Definition fields (l : list (bytes * bytes)) : bytes := object_text ((λ kv, (quoted kv.1, kv.2)) <$> l).

Definition ready_data (sv : AppServices) : bytes :=
  fields ([("ready" : bytes, json_bool (ready sv)); ("draining" : bytes, json_bool (draining sv));
           ("config_sync" : bytes, fields [("required" : bytes, json_bool (as_sync_enabled sv)); ("healthy" : bytes, json_bool (sync_ready sv));
                                           ("synced_version" : bytes, to_string (synced_version (sync_state sv))); ("status" : bytes, status_text sv)]);
           ("history" : bytes, fields [("healthy" : bytes, json_bool (history_ready sv))])] ++
          match as_history sv with Some h => [("history_max_version" : bytes, to_string (max_observed_version h))] | None => [] end).

Definition api_ready (sv : AppServices) (ctx : HttpContext) : HttpContext :=
  json_reply ctx (if ready sv then 200 else 503)
    (json_resp (if ready sv then 0 else 503) (if ready sv then "ready" else "not ready") (ready_data sv)).

Definition counter {M} (m : option M) (f : M → Z) : bytes := to_string (match m with Some x => f x | None => 0 end).

Definition stats_default : HistoryStats := HistoryService.mkStats 0 0 0 0 0 false.

Definition metrics_data (sv : AppServices) : bytes :=
  let h := default stats_default (as_history sv) in
  let admin := counter (as_admin_metrics sv) in
  let files := counter (as_config_metrics sv) in
  fields
    [("draining" : bytes, json_bool (draining sv));
     ("connections" : bytes, fields [("active" : bytes, counter (as_shutdown sv) active_sessions);
        ("rejected" : bytes, counter (as_shutdown sv) capacity_rejections); ("limit" : bytes, to_string (as_max_clients sv))]);
     ("io_threads" : bytes, to_string (as_io_threads sv));
     ("config_sync" : bytes, fields [("enabled" : bytes, json_bool (as_sync_enabled sv));
        ("version" : bytes, to_string (synced_version (sync_state sv))); ("status" : bytes, status_text sv)]);
     ("history" : bytes, fields [("checks" : bytes, to_string (checks h)); ("inconsistent_checks" : bytes, to_string (inconsistent_checks h));
        ("gc_deleted" : bytes, to_string (gc_deleted h)); ("gc_failures" : bytes, to_string (gc_failures h));
        ("max_observed_version" : bytes, to_string (max_observed_version h)); ("inconsistent" : bytes, json_bool (inconsistent h))]);
     ("admin_auth" : bytes, fields [("attempts" : bytes, admin am_auth_attempts); ("rejected" : bytes, admin am_auth_rejected);
        ("login_failures" : bytes, admin am_login_failures); ("login_successes" : bytes, admin am_login_successes);
        ("in_flight" : bytes, admin am_auth_in_flight); ("work_rejections" : bytes, admin am_auth_work_rejections);
        ("locked_ips" : bytes, admin am_throttle_locked_ips); ("drain_started_ns" : bytes, admin am_drain_started_ns);
        ("drain_completed_ns" : bytes, admin am_drain_completed_ns); ("drain_duration_ns" : bytes, admin am_drain_duration_ns);
        ("drain_timeouts" : bytes, admin am_drain_timeout_count); ("forced_stops" : bytes, admin am_forced_stop_count)]);
     ("config_workers" : bytes, fields [("jobs" : bytes, files file_worker_jobs); ("fallbacks" : bytes, files file_worker_fallbacks);
        ("busy" : bytes, files file_worker_busy); ("queue_delay_us_total" : bytes, files file_worker_queue_delay_us_total);
        ("queue_delay_us_max" : bytes, files file_worker_queue_delay_us_max); ("scan_us_total" : bytes, files file_scan_duration_us_total);
        ("scan_us_max" : bytes, files file_scan_duration_us_max); ("files_scanned" : bytes, files files_scanned);
        ("bytes_read" : bytes, files file_bytes_read)]);
     ("http_pool" : bytes, quoted (json_escape (default [] (as_pool_stats sv))))].

Definition api_metrics (sv : AppServices) (ctx : HttpContext) : HttpContext :=
  respond (add_header (add_header ctx "Content-Type" "application/json") "Cache-Control" "no-store") 200 (resp_ok (metrics_data sv)).

(** ** Which handler is reached *)

(** An exact route is found before the prefix, so that the fixed names under the
    history are not taken for versions. *)
Lemma serve_exact path_str h : (local_route_path path_str, h) ∈ exact_routes → serve path_str = Some h.
Proof.
  unfold serve, local_handler. generalize (local_route_path path_str) as p. intros p Hin.
  assert (forallb (λ r, bool_decide (register_routes.1 !! (r.1 : list ascii) = Some r.2)) exact_routes = true) as Hall by (vm_compute; reflexivity).
  rewrite forallb_forall in Hall. specialize (Hall (p, h) (proj1 (list_elem_of_In _ _) Hin)). apply bool_decide_eq_true in Hall.
  cbn [fst snd] in Hall. by rewrite Hall.
Qed.

Lemma serve_prefix path_str : local_route_path path_str ∉ exact_routes.*1 →
  serve path_str = if starts_with history_prefix (local_route_path path_str) then Some admin_history_path else None.
Proof.
  unfold serve, local_handler. generalize (local_route_path path_str) as p. intros p Hin.
  assert (register_routes.1 !! (p : list ascii) = None) as ->; [|change register_routes.2 with [(history_prefix, admin_history_path)];
    unfold find_prefix_route; cbn [foldl]; unfold prefix_step; cbn [fst snd]; change (0 <? slen history_prefix) with true; by destruct (starts_with history_prefix p)].
  unfold register_routes. cbn [fst exact_routes foldl]. unfold route.
  rewrite !lookup_insert_ne; [done|..]; intros <-; apply Hin; clear; apply (bool_decide_eq_true_1 _); vm_compute; reflexivity.
Qed.

(** ** Responses *)

Abbreviation doc := (json_doc utf8_run).

(** The names of [fields] are checked by computation. *)
Lemma fields_doc l : forallb (λ kv : bytes * bytes, forallb (λ c, code c <? 128) kv.1 && beqb (json_escape kv.1) kv.1) l = true →
  Forall (λ kv, doc kv.2) l → doc (fields l).
Proof.
  intros Hk Hv. apply doc_object, Forall_fmap, Forall_forall. intros [k v] Hin. cbn [compose fst snd]. split.
  - rewrite forallb_forall in Hk. specialize (Hk (k, v) (proj1 (list_elem_of_In _ _) Hin)). apply andb_true_iff in Hk as [Hl Hk%beqb_eq].
    by apply key_string.
  - by apply (proj1 (Forall_forall _ _) Hv (k, v)).
Qed.

Lemma json_bool_doc b : doc (json_bool b).
Proof. destruct b; [apply (doc_bool _ true)|apply (doc_bool _ false)]. Qed.

Lemma escaped_doc s : utf8_text s = true → doc (quoted (json_escape s)).
Proof. intros Hs. by apply doc_string, json_escape_string. Qed.

Lemma counter_doc {M} (m : option M) f : doc (counter m f).
Proof. apply doc_int. Qed.

#[local] Hint Resolve json_bool_doc counter_doc : json.

Ltac members := repeat (apply Forall_cons; split; [cbn [snd]|]); [..|apply Forall_nil; exact I].

Ltac json_fields := repeat first [apply fields_doc; [vm_compute; reflexivity|members] | by auto with json].

(** The texts of the two reports: the status of the synchronization and the
    statistics of the pools. *)
Definition shown_status (sv : AppServices) : bytes := if as_sync_enabled sv then status (sync_state sv) else "disabled".

Lemma status_doc sv : utf8_text (shown_status sv) = true → doc (status_text sv).
Proof. apply escaped_doc. Qed.

Lemma ready_data_doc sv : utf8_text (shown_status sv) = true → doc (ready_data sv).
Proof. intros Hs%status_doc. unfold ready_data. destruct (as_history sv) as [h|]; cbn [app]; json_fields. Qed.

Lemma metrics_data_doc sv : utf8_text (shown_status sv) = true → utf8_text (default [] (as_pool_stats sv)) = true → doc (metrics_data sv).
Proof. intros Hs%status_doc Hp%escaped_doc. unfold metrics_data. json_fields. Qed.

(** The names and cells of an answer hold no sequence of UTF-8 shape that is not
    UTF-8 (an overlong form, a surrogate, a number beyond U+10FFFF). *)
Definition clean_answer (a : query_answer) : Prop :=
  match a with
  | ResultSet names rows => Forall (admitted utf8_run) names ∧ Forall (Forall (λ cell, ∀ v, cell = Some v → admitted utf8_run v)) rows
  | _ => True
  end.

Lemma shape_answer a :
  match a with
  | ResultSet names rows => Forall (admitted utf8_shape) names ∧ Forall (Forall (λ cell, ∀ v, cell = Some v → admitted utf8_shape v)) rows
  | _ => True
  end.
Proof. destruct a as [| |names rows]; [done..|]. split; repeat (apply Forall_true; intros); apply shape_admitted. Qed.

Lemma query_result_doc mb a :
  match a with
  | ResultSet names rows => Forall (admitted mb) names ∧ Forall (Forall (λ cell, ∀ v, cell = Some v → admitted mb v)) rows
  | _ => True
  end → res_ok (query_result a).1 = true → json_doc mb (res_json (query_result a).1).
Proof.
  destruct a as [| |fs rows]; cbn [query_result]; [done| |by intros [? ?] _; apply mysql_result_doc].
  intros _. destruct (negb _); [done|]. intros _. cbn [fst res_json]. change ("[]" : bytes) with (array_text []). by apply doc_array.
Qed.

Lemma reply_body ctx status body : response_body (json_reply ctx status body) = body.
Proof. reflexivity. Qed.

Lemma respond_body ctx status body : response_body (respond ctx status body) = body.
Proof. reflexivity. Qed.

Lemma reply_status ctx status body : status_code (json_reply ctx status body) = status.
Proof. reflexivity. Qed.

#[local] Opaque json_reply respond.

(** The text a response carries. *)
Definition carries (body t : bytes) : Prop := body = resp_ok_str t ∨ ∃ c, body = resp_err c t.

Lemma carries_decodes body t : carries body t → doc body ↔ utf8_text t = true.
Proof. intros [->|[c ->]]; [apply ok_str_decodes|apply err_decodes]. Qed.

Definition redis_text (g : bytes + RedisReplyData) : bytes :=
  match g with inl what => what | inr g => if rd_ok g then rd_str g else rd_error g end.

Lemma redis_carries g ctx : carries (response_body (api_redis g ctx)) (redis_text g).
Proof.
  destruct g as [what|g]; unfold api_redis, redis_text; [rewrite respond_body; right; by eexists|].
  destruct (rd_ok g); cbn [negb]; rewrite reply_body; [by left|right; by eexists].
Qed.

(** The text of a combined query: the cached value, a fixed message, the error of
    the query, or the value that was found. *)
Definition combo_text (reply : RedisReplyData) (permit : bool) (query : option Result) : bytes :=
  if negb (beqb (get_cache reply) []) then get_cache reply
  else if negb permit then "too many in-flight MySQL queries"
  else
    match query with
    | None => "MySQL query deadline exceeded"
    | Some r => if res_ok r then default ("invalid MySQL response" : bytes) (extract_first_string_value (res_json r)) else res_error r
    end.

Lemma combo_carries reply permit query redis ctx :
  carries (response_body (handle_api_combo reply permit query redis ctx).1) (combo_text reply permit query).
Proof.
  unfold handle_api_combo, combo_text. destruct (negb (beqb (get_cache reply) [])); [by left|]. destruct (negb permit); [right; by eexists|].
  destruct query as [r|]; [|right; by eexists]. destruct (res_ok r); cbn [negb]; [|right; by eexists].
  destruct (extract_first_string_value (res_json r)) as [v|]; [by left|right; by eexists].
Qed.

(** The instance takes traffic. *)
Definition accepts_traffic (sv : AppServices) : Prop :=
  as_draining sv ≠ Some true ∧
  (as_sync_enabled sv = true → st_exists (load_state (as_state_file sv)) = true ∧ status (load_state (as_state_file sv)) = "ok") ∧
  (∀ h, as_history sv = Some h → inconsistent h = false).

Lemma ready_spec sv : ready sv = true ↔ accepts_traffic sv.
Proof.
  unfold ready, accepts_traffic, draining, sync_ready, sync_state, history_ready.
  rewrite !andb_true_iff, negb_true_iff, orb_true_iff, negb_true_iff, andb_true_iff.
  assert (default false (as_draining sv) = false ↔ as_draining sv ≠ Some true) as -> by (destruct (as_draining sv) as [[]|]; naive_solver).
  destruct (as_sync_enabled sv); rewrite ?beqb_eq; destruct (as_history sv) as [h|]; rewrite ?negb_true_iff; naive_solver.
Qed.

(** C29: which responses of the gateway's own public routes can be decoded as JSON
    (RFC 8259, in the UTF-8 of RFC 3629).  A response that carries a value of Redis,
    a value found by a combined query or an error text can be decoded exactly when
    that text is UTF-8; the text is not tested.  The rows of a result set are always
    a document in which every multi-byte sequence has the shape of UTF-8, and can be
    decoded if no name or cell holds a sequence of that shape that is not UTF-8.
    Health and build can always be decoded, the two reports if the status of the
    synchronization and the statistics they show are UTF-8.  Readiness is answered
    with 200 exactly when the gateway is not draining, the synchronization (where it
    is on) has applied a version without failure, and the last check found the
    history consistent.  A combined query caches exactly the value it answers
    with. *)
Theorem public_responses ctx :
  (∀ a, let body := response_body (api_mysql (query_result a).1 ctx) in
     if res_ok (query_result a).1 then json_doc utf8_shape body ∧ (clean_answer a → json_doc utf8_run body)
     else json_doc utf8_run body ↔ utf8_text (res_error (query_result a).1) = true) ∧
  (∀ g, json_doc utf8_run (response_body (api_redis g ctx)) ↔ utf8_text (redis_text g) = true) ∧
  (∀ reply permit query redis,
     (json_doc utf8_run (response_body (handle_api_combo reply permit query redis ctx).1) ↔ utf8_text (combo_text reply permit query) = true) ∧
     ∀ cmd, (handle_api_combo reply permit query redis ctx).2 = Some cmd →
       ∃ data, cmd = ["SET" : bytes; "cache:user:1" : bytes; data; "EX" : bytes; "300" : bytes] ∧
         response_body (handle_api_combo reply permit query redis ctx).1 = resp_ok_str data) ∧
  json_doc utf8_run (response_body (api_health ctx)) ∧ json_doc utf8_run (response_body (api_build ctx)) ∧
  (∀ sv, utf8_text (shown_status sv) = true → json_doc utf8_run (response_body (api_ready sv ctx)) ∧
     (utf8_text (default [] (as_pool_stats sv)) = true → json_doc utf8_run (response_body (api_metrics sv ctx)))) ∧
  (∀ sv, status_code (api_ready sv ctx) = 200 ↔ accepts_traffic sv).
Proof.
  split_and!.
  - intros a. cbv zeta. unfold api_mysql. destruct (res_ok (query_result a).1) eqn:E; cbn [negb]; rewrite reply_body; [|apply err_decodes].
    unfold resp_ok. split; [apply json_resp_doc; [apply ok_text_any|apply query_result_doc; [by apply shape_answer|done]]|].
    intros Hc. apply json_resp_doc; [exact ok_text|by apply query_result_doc].
  - intros g. apply carries_decodes, redis_carries.
  - intros reply permit query redis. split; [apply carries_decodes, combo_carries|]. intros cmd. unfold handle_api_combo.
    repeat case_match; cbn [fst snd]; try discriminate. intros [= <-]. eexists. split; [reflexivity|]. rewrite reply_body. reflexivity.
  - unfold api_health. rewrite reply_body. apply ok_str_decodes. vm_compute. reflexivity.
  - unfold api_build. rewrite reply_body.
    refine (fields_doc [("code" : bytes, to_string 0); ("build" : bytes, quoted (json_escape "asio_owen"))] _ _); [vm_compute; reflexivity|].
    members; [exact (doc_int _ 0)|apply escaped_doc; vm_compute; reflexivity].
  - intros sv Hs. split; [unfold api_ready; rewrite reply_body|intros Hp; unfold api_metrics; rewrite respond_body; unfold resp_ok].
    + apply json_resp_doc; [|by apply ready_data_doc]. apply json_escape_string. destruct (ready sv); vm_compute; reflexivity.
    + apply json_resp_doc; [exact ok_text|by apply metrics_data_doc].
  - intros sv. rewrite <- ready_spec. unfold api_ready. rewrite reply_status. destruct (ready sv); split; done.
Qed.

(** A value of Redis that is not UTF-8 is sent as it is. *)
Lemma redis_bytes_undecodable ctx : ¬ json_doc utf8_run (response_body (api_redis (inr (mkReplyData true [] [chr 0xFF] 0 [] "string")) ctx)).
Proof. rewrite (carries_decodes _ [chr 0xFF]) by apply redis_carries. vm_compute. done. Qed.

(** An overlong form in a cell passes the test of the writer. *)
Lemma overlong_cell_undecodable ctx :
  ¬ json_doc utf8_run (response_body (api_mysql (query_result (ResultSet ["v" : bytes] [[Some [chr 0xC0; chr 0x80]]])).1 ctx)).
Proof. unfold api_mysql. cbn [query_result fst res_ok negb]. rewrite reply_body. intros Hd%doc_utf8. vm_compute in Hd. done. Qed.
