(* ===== verification/AdminStore.v ===== *)
(** * What the admin API reads and checks (src/src/app/admin/config_admin_store.cpp)

    Replies of Redis as numbers and files; the validation of a set of files; the
    dry run, which loads the files together with the local ones from a temporary
    directory and prepares rules and routes from them; the JSON of files, machines
    and audit entries.  The theorem shows what an accepted dry run says about the
    reload: the same directory loads, and the reload can then only fail for the
    reload interval and for the file descriptors of the pools, which the dry run
    does not look at. *)

From S2P Require Import Prelude Doubles RateLimiter IpRules PathRules Config Response Jwt SecurityRules HttpPool Upstream AppConfig ReloadService AdminJson AdminAuth OrderedMap ConfigHistory DbPool RedisPool ConfigSync SyncSafety.

(** ** Replies *)

Definition redis_integer (reply : RedisReplyData) : option Z :=
  if beqb (rd_type reply) "integer" then Some (rd_integer reply)
  else if beqb (rd_type reply) "string" then parse_int64 (rd_str reply)
  else None.

Definition redis_version (reply : RedisReplyData) : option Z :=
  if negb (rd_ok reply) then None
  else if beqb (rd_type reply) "nil" then Some 0
  else
    match redis_integer reply with
    | Some parsed => if parsed <? 0 then None else Some parsed
    | None => None
    end.

(** [parse_hgetall]: the last of two equal names counts. *)
Definition admin_hgetall (reply : RedisReplyData) : option files_map :=
  if negb (rd_ok reply) || negb (beqb (rd_type reply) "array") || negb (Nat.even (length (rd_elements reply))) then None
  else Some (sm_insert_all (pair_elements (rd_elements reply)) []).

(** ** Sets of files *)

Definition restart_required (content : bytes) : bool := contains_section content "server" || contains_section content "mysql".

Definition file_pair (f : ManagedFile) : bytes * bytes := (mf_name f, mf_content f).
Definition managed (kv : bytes * bytes) : ManagedFile := mkManagedFile kv.1 kv.2.

(** The loop of [validate_file_set]: the first name that is repeated or invalid. *)
Fixpoint validate_files (files : list ManagedFile) (seen : list bytes) : option bytes :=
  match files with
  | [] => None
  | f :: rest =>
      if existsb (beqb (mf_name f)) seen then Some ("duplicate file: " ++ mf_name f)
      else
        match validate_managed_file (mf_name f) (mf_content f) with
        | Some reason => Some (mf_name f ++ ": " ++ reason)
        | None => validate_files rest (mf_name f :: seen)
        end
  end.

Definition validate_file_set (files : list ManagedFile) (reject_empty : bool) : option bytes :=
  if reject_empty && bool_decide (files = []) then Some ("files must not be empty" : bytes) else validate_files files [].

(** ** The dry run *)

(** The temporary directory: why it cannot be created; whether a local file can be
    examined and copied; how a file is written (a short write is not noticed);
    whether the directory can be opened and read to its end. *)
Record dry_io := mkDryIo {
  di_temp : option bytes;
  di_exists : bytes → bool;
  di_copy : bytes → bool;
  di_write : bytes → write_io;
  di_open : bool;
  di_scan : bool
}.

Definition never_sync : list bytes := ["11-redis.ini" : bytes; "12-config-sync.ini" : bytes; "99-local.ini" : bytes].

Fixpoint copy_locals (io : dry_io) (fs : LocalFs) (names : list bytes) (temp : smap local_file) : bytes + smap local_file :=
  match names with
  | [] => inr temp
  | name :: rest =>
      match sm_find name (entries fs) with
      | Some f =>
          if negb (di_exists io name) then copy_locals io fs rest temp
          else
            match lf_content f with
            | Some content =>
                if negb (lf_regular f && di_copy io name) then inl ("failed to copy local " ++ name)
                else copy_locals io fs rest (sm_insert name (mkFile true (Some content)) temp)
            | None => inl ("failed to copy local " ++ name)
            end
      | None => copy_locals io fs rest temp
      end
  end.

Definition write_file (w : write_io) (temp : smap local_file) (name content : bytes) : option (smap local_file) :=
  if negb (wi_mkdir w) then None
  else if negb (wi_open w) then None
  else Some (sm_insert name (mkFile true (Some (on_disk w content))) temp).

Fixpoint write_staged (io : dry_io) (files : list ManagedFile) (temp : smap local_file) : bytes + smap local_file :=
  match files with
  | [] => inr temp
  | f :: rest =>
      match write_file (di_write io (mf_name f)) temp (mf_name f) (mf_content f) with
      | None => inl ("failed to write staged file " ++ mf_name f)
      | Some temp => write_staged io rest temp
      end
  end.

Definition dir_of (temp : smap local_file) : list dir_entry :=
  (λ kv : bytes * local_file, mkEntry kv.1 (Some (lf_regular kv.2)) (lf_content kv.2)) <$> temp.

Section dry_run.
Context `{Double, !DoubleText, StdSort, StdHash, AsioAddress, JwtCpp, KeyStore}.

(** What is prepared from the staged configuration. *)
Definition dry_prepare (cfg : Config) : outcome unit :=
  _ ← validate_config_for_staging cfg;
  pool_cfg ← http_pool_config_from cfg;
  _ ← Upstream.prepare_reload manager0 cfg pool_cfg; Ret ().

Definition dry_run_config_set (io : dry_io) (fs : LocalFs) (files : list ManagedFile) : option bytes :=
  match di_temp io with
  | Some what => Some what
  | None =>
      match copy_locals io fs never_sync [] with
      | inl error => Some error
      | inr temp =>
          match write_staged io files temp with
          | inl error => Some error
          | inr temp =>
              match load empty_config (if di_open io then Some (dir_of temp) else None) (di_scan io) with
              | (false, _) => Some ("staged config does not parse" : bytes)
              | (true, cfg) => match dry_prepare cfg with Ret _ => None | Throw what => Some what end
              end
          end
      end
  end.
End dry_run.

(** ** JSON *)

Definition stored_file_json (kv : bytes * bytes) : bytes :=
  "{" ++ quoted "name" ++ ":" ++ quoted (json_escape kv.1) ++ "," ++ quoted "content" ++ ":" ++ quoted (json_escape kv.2) ++
  "," ++ quoted "restart_required" ++ ":" ++ json_bool (restart_required kv.2) ++ "}".

Definition files_json (version : Z) (files : files_map) (degraded : bool) : bytes :=
  "{" ++ quoted "version" ++ ":" ++ to_string version ++ "," ++ quoted "degraded" ++ ":" ++ json_bool degraded ++
  "," ++ quoted "files" ++ ":[" ++ join_with "," (stored_file_json <$> files) ++ "]}".

Definition split_pipe_fields (value : bytes) : list bytes := split_on "|" value.

Definition string_member (key value : bytes) : bytes := "," ++ quoted key ++ ":" ++ quoted (json_escape value).

Definition machine_json (kv : bytes * bytes) : bytes :=
  "{" ++ quoted "machine" ++ ":" ++ quoted (json_escape kv.1) ++
  match split_pipe_fields kv.2 with
  | version :: ts :: pid :: status :: rest =>
      string_member "version" version ++ string_member "ts" ts ++ string_member "pid" pid ++ string_member "status" status ++
      match rest with detail :: _ => string_member "detail" detail | [] => [] end
  | _ => string_member "raw" kv.2
  end ++ "}".

Definition machines_json (machines : files_map) : bytes :=
  "{" ++ quoted "machines" ++ ":[" ++ join_with "," (machine_json <$> machines) ++ "]}".

(** The name in records: the user name, else the subject. *)
Definition user_of (principal : option Principal) : bytes :=
  match principal with
  | Some p => if beqb (username p) [] then subject p else username p
  | None => "insecure"
  end.

Definition audit_json (principal : option Principal) (now base_version new_version : Z) (action reason : bytes) (names : list bytes) : bytes :=
  "{" ++ quoted "ts" ++ ":" ++ to_string now ++ "," ++ quoted "user" ++ ":" ++ quoted (json_escape (user_of principal)) ++
  "," ++ quoted "base_version" ++ ":" ++ to_string base_version ++ "," ++ quoted "new_version" ++ ":" ++ to_string new_version ++
  string_member "action" action ++ string_member "reason" reason ++
  "," ++ quoted "files" ++ ":[" ++ join_with "," ((λ n, quoted (json_escape n)) <$> names) ++ "]}".

(** ** What an accepted dry run says about the reload *)

Lemma validate_files_ok files seen : validate_files files seen = None →
  NoDup (mf_name <$> files) ∧ Forall (λ f, mf_name f ∉ seen ∧ validate_managed_file (mf_name f) (mf_content f) = None) files.
Proof.
  revert seen. induction files as [|f files IH]; intros seen; cbn [validate_files fmap list_fmap]; [by split; constructor|].
  destruct (existsb (beqb (mf_name f)) seen) eqn:Hs; [done|].
  destruct (validate_managed_file (mf_name f) (mf_content f)) eqn:Hv; [done|]. intros [Hnd Hall]%IH.
  assert (mf_name f ∉ seen) as Hf.
  { intros Hin. apply not_true_iff_false in Hs. apply Hs, existsb_exists. exists (mf_name f).
    split; [by apply list_elem_of_In|apply beqb_refl]. }
  split.
  - constructor; [|done]. intros (g & Hg & Hin)%list_elem_of_fmap. rewrite Forall_forall in Hall.
    destruct (Hall g Hin) as [Hn _]. apply Hn. rewrite Hg. by left.
  - constructor; [done|]. eapply Forall_impl; [exact Hall|]. intros g [Hn Hg]. split; [|done].
    intros Hin. apply Hn. by right.
Qed.

Lemma never_sync_file n : n ∈ never_sync ↔ is_never_sync_file n = true.
Proof. unfold is_never_sync_file, never_sync. rewrite !orb_true_iff, !beqb_eq, !elem_of_cons, elem_of_nil. tauto. Qed.

(** The ini files that a directory shows to the loader. *)
Definition ini_files (m : smap local_file) : smap local_file :=
  filter (λ kv : bytes * local_file, lf_regular kv.2 = true ∧ extension kv.1 = ".ini") (m : list (bytes * local_file)).

Lemma scan_dir m : scan_entries (dir_of m) = Some (dir_of (ini_files m)).
Proof.
  induction m as [|[k f] m IH]; [done|]. unfold dir_of in *. cbn [fmap list_fmap scan_entries is_regular]. rewrite IH.
  cbn [mbind option_bind filename fst snd]. f_equal. unfold ini_files. destruct (lf_regular f) eqn:Hr, (beqb (extension k) ".ini") eqn:Hx.
  2,3,4: rewrite filter_cons_False; [done|]; cbn; rewrite <- ?beqb_eq; naive_solver congruence.
  rewrite filter_cons_True; [cbn; by rewrite Hr|]. by apply beqb_eq in Hx.
Qed.

Lemma dir_names m : filename <$> dir_of m = m.*1.
Proof. unfold dir_of. rewrite <- list_fmap_compose. done. Qed.

(** The files of the machine as the loader sees them: the local ones, and exactly
    the files of the set. *)
Definition installed (fs : LocalFs) (files : list ManagedFile) (fs' : LocalFs) : Prop :=
  sm_sorted (entries fs') ∧
  ∀ name f, sm_find name (ini_files (entries fs')) = Some f ↔
    if is_never_sync_file name then sm_find name (entries fs) = Some f
    else ∃ g, g ∈ files ∧ mf_name g = name ∧ f = mkFile true (Some (mf_content g)).

Lemma copy_locals_spec io fs names temp temp' : (∀ n, di_exists io n = true) → copy_locals io fs names temp = inr temp' → sm_sorted temp →
  sm_sorted temp' ∧
  (∀ n, sm_find n temp' = if bool_decide (n ∈ names) then match sm_find n (entries fs) with Some f => Some f | None => sm_find n temp end
                          else sm_find n temp) ∧
  ∀ n f, n ∈ names → sm_find n (entries fs) = Some f → lf_regular f = true.
Proof.
  intros Hex. revert temp. induction names as [|name names IH]; intros temp; cbn [copy_locals].
  { intros [= ->] Hs. split_and!; [done|done|]. intros n f Hn. by apply elem_of_nil in Hn. }
  destruct (sm_find name (entries fs)) as [f|] eqn:Hf.
  - rewrite Hex. cbn [negb]. destruct (lf_content f) as [c|] eqn:Hc; [|done].
    destruct (lf_regular f) eqn:Hr; [|done]. destruct (di_copy io name); [|done]. cbn [negb andb]. intros Hcopy Hs.
    assert (f = mkFile true (Some c)) as E by (destruct f; cbn in *; congruence).
    apply IH in Hcopy as (Hs' & Hfind & Hreg); [|by apply sm_insert_sorted]. split_and!; [done| |].
    + intros n. rewrite Hfind, sm_find_insert_case. destruct (beqb name n) eqn:En.
      * apply beqb_eq in En as ->. rewrite (bool_decide_eq_true_2 (n ∈ n :: names)), Hf by by left. rewrite <- E. by case_bool_decide.
      * apply beqb_ne in En. assert (n ∈ name :: names ↔ n ∈ names) as Hiff by (rewrite elem_of_cons; naive_solver).
        by rewrite (bool_decide_ext _ _ Hiff).
    + intros n g [->|Hn]%elem_of_cons Hg; [congruence|by eapply Hreg].
  - intros Hcopy Hs. apply IH in Hcopy as (Hs' & Hfind & Hreg); [|done]. split_and!; [done| |].
    + intros n. rewrite Hfind. destruct (decide (n = name)) as [->|Hne].
      * rewrite Hf. by repeat case_bool_decide.
      * assert (n ∈ name :: names ↔ n ∈ names) as Hiff by (rewrite elem_of_cons; naive_solver).
        by rewrite (bool_decide_ext _ _ Hiff).
    + intros n g [->|Hn]%elem_of_cons Hg; [congruence|by eapply Hreg].
Qed.

Lemma write_staged_spec io files temp temp' : (∀ n, wi_written (di_write io n) = None) → NoDup (mf_name <$> files) →
  write_staged io files temp = inr temp' → sm_sorted temp →
  sm_sorted temp' ∧
  (∀ g, g ∈ files → sm_find (mf_name g) temp' = Some (mkFile true (Some (mf_content g)))) ∧
  ∀ n, n ∉ mf_name <$> files → sm_find n temp' = sm_find n temp.
Proof.
  intros Hw. revert temp. induction files as [|f files IH]; intros temp Hnd; cbn [write_staged].
  { intros [= ->] Hs. split_and!; [done| |done]. intros g Hg. by apply elem_of_nil in Hg. }
  unfold write_file, on_disk. rewrite Hw. apply NoDup_cons in Hnd as [Hn Hnd].
  destruct (wi_mkdir _); [|done]. destruct (wi_open _); [|done]. cbn [negb]. intros Hst Hs.
  apply IH in Hst as (Hs' & Hin & Hout); [|done|by apply sm_insert_sorted]. split_and!; [done| |].
  - intros g [->|Hg]%elem_of_cons; [|by apply Hin]. rewrite Hout by done. apply sm_find_insert.
  - intros n Hx. rewrite fmap_cons, not_elem_of_cons in Hx. destruct Hx as [Hne Hx]. rewrite Hout by done. by apply sm_find_insert_ne.
Qed.

(** The temporary directory shows the loader what the machine will show it. *)
Lemma staged_installed io fs files temp temp' fs' :
  (∀ n, di_exists io n = true) → (∀ n, wi_written (di_write io n) = None) → validate_files files [] = None →
  copy_locals io fs never_sync [] = inr temp → write_staged io files temp = inr temp' → installed fs files fs' →
  ini_files (entries fs') = temp' ∧ ini_files temp' = temp'.
Proof.
  intros Hex Hw [Hnd Hok]%validate_files_ok Hcopy Hst [Hsort Hinst]. rewrite Forall_forall in Hok.
  apply copy_locals_spec in Hcopy as (Hs & Hfind & Hreg); [|done|constructor].
  apply write_staged_spec in Hst as (Hs' & Hin & Hout); [|done|done|done].
  assert (∀ g, g ∈ files → is_never_sync_file (mf_name g) = false ∧ extension (mf_name g) = ".ini") as Hname.
  { intros g [_ [Hn Hx]%validate_name]%Hok. split; [done|by apply valid_name_ext]. }
  assert (∀ n, sm_find n temp = if is_never_sync_file n then sm_find n (entries fs) else None) as Htemp.
  { intros n. rewrite Hfind. destruct (is_never_sync_file n) eqn:En.
    - rewrite bool_decide_eq_true_2 by by apply never_sync_file. by destruct (sm_find n (entries fs)).
    - rewrite bool_decide_eq_false_2; [done|]. rewrite never_sync_file. congruence. }
  assert (∀ n f, sm_find n temp' = Some f ↔
    if is_never_sync_file n then sm_find n (entries fs) = Some f else ∃ g, g ∈ files ∧ mf_name g = n ∧ f = mkFile true (Some (mf_content g))) as Hall.
  { intros n f. destruct (decide (n ∈ mf_name <$> files)) as [(g & -> & Hg)%list_elem_of_fmap|Hn].
    - rewrite (Hin g Hg), (proj1 (Hname g Hg)). split; [intros [= <-]; eauto|]. intros (g' & Hg' & Heq & ->).
      rewrite <- (Hin g Hg), <- Heq. by apply Hin.
    - rewrite (Hout n Hn), Htemp. destruct (is_never_sync_file n) eqn:En; [done|]. split; [done|].
      intros (g & Hg & <- & _). exfalso. apply Hn. by apply list_elem_of_fmap_2. }
  split.
  - apply sm_ext; [by apply filter_sorted|done|]. intros k. apply option_eq. intros f. by rewrite Hall, Hinst.
  - unfold ini_files. apply filter_all, Forall_forall. intros [n f] Hnf. cbn [fst snd]. apply sm_find_elem in Hnf; [|done].
    pose proof Hnf as Hf. apply Hall in Hf. destruct (is_never_sync_file n) eqn:En.
    + apply never_sync_file in En. split; [by eapply Hreg|]. unfold never_sync in En.
      rewrite !elem_of_cons, elem_of_nil in En. destruct En as [->|[->|[->|[]]]]; by vm_compute.
    + destruct Hf as (g & Hg & <- & ->). split; [done|]. by apply Hname.
Qed.

Section reload.
Context `{Double, !DoubleText, StdSort, !StdSortLaws, StdHash, AsioAddress, JwtCpp, KeyStore}.

Lemma prepare_upstreams_any w w' cfg pool : manager_wf w → manager_wf w' →
  is_ret (Upstream.prepare_reload w cfg pool) = true → is_ret (Upstream.prepare_reload w' cfg pool) = true.
Proof.
  intros Hw Hw'. unfold Upstream.prepare_reload. destruct (get_bool cfg _ _ _) as [json|]; [|done]. cbn [mbind outcome_bind].
  destruct (prepare_entries w _ _ _ _ _) as [[[u p] h]|] eqn:E; [|done].
  destruct (prepare_entries w' _ _ _ _ _) as [[[u' p'] h']|] eqn:E'; [done|].
  apply (prepare_entries_throw _ _ _ [] _ _ _ _ Hw' (prepared_inv0 w' pool)) in E' as (name & val & Hin & Hbad).
  apply (prepare_entries_ok _ _ _ [] _ _ _ _ Hw (prepared_inv0 w pool)) in E. apply pi_ok in E. cbn [app] in E.
  rewrite Forall_forall in E. by destruct (E _ Hin) as [v Hv%Hbad].
Qed.

Lemma dry_prepare_apply cfg validator interval rules ups : dry_prepare cfg = Ret () → manager_wf ups →
  ∃ pool, http_pool_config_from cfg = Ret pool ∧
    is_ret (apply_config validator cfg interval rules ups).2 =
    is_ret (get_int cfg "security" "config_reload_interval_sec" interval) && is_ret (validator pool).
Proof.
  unfold dry_prepare. rewrite bind_Ret_inv. intros ([] & Hval & Hrest) Hw. rewrite bind_Ret_inv in Hrest.
  destruct Hrest as (pool & Hpool & Hprep). exists pool. split; [done|]. rewrite bind_Ret_inv in Hprep. destruct Hprep as (x & Hx & _).
  unfold validate_config_for_staging in Hval. rewrite bind_Ret_inv in Hval. destruct Hval as ([s rl] & Hb & _).
  unfold apply_config. destruct (get_int cfg _ _ _) as [next|]; [|done]. unfold SecurityRules.prepare_reload. rewrite Hb.
  cbn [mbind outcome_bind snd is_ret andb]. rewrite Hpool. cbn [mbind outcome_bind]. destruct (validator pool) as [[]|]; [|done].
  cbn [mbind outcome_bind is_ret].
  pose proof (prepare_upstreams_any manager0 ups cfg pool manager0_wf Hw) as Hany. rewrite Hx in Hany. specialize (Hany eq_refl).
  by destruct (Upstream.prepare_reload ups cfg pool) as [[pu heap]|].
Qed.

End reload.

(** ** Examples *)

Module DrySample.
Definition write_ok : write_io := mkWriteIo true true None true.
Definition io : dry_io := mkDryIo None (λ _, true) (λ _, true) (λ _, write_ok) true true.
Definition local : LocalFs := mkLocal true true [("99-local.ini" : bytes, mkFile true (Some ("[security]" ++ [LF] ++ "jwt_disabled = true")))] None.
Definition file (text : bytes) : ManagedFile := mkManagedFile "10-a.ini" text.
Definition good : ManagedFile := file ("[log]" ++ [LF] ++ "level = info").
Definition soon : ManagedFile := file ("[security]" ++ [LF] ++ "config_reload_interval_sec = soon").

Definition dry (f : ManagedFile) : option bytes :=
  @dry_run_config_set binary64 sample_text insertion_sort DottedQuad.dotted sample_jwt sample_keys io local [f].
Definition machine (f : ManagedFile) : LocalFs :=
  mkLocal true true ((mf_name f, mkFile true (Some (mf_content f))) :: entries local) None.
Definition reload (f : ManagedFile) : bool :=
  match @load insertion_sort empty_config (Some (dir_of (entries (machine f)))) true with
  | (true, cfg) =>
      is_ret (@apply_config binary64 sample_text insertion_sort DottedQuad.dotted sample_jwt sample_keys
        (λ _, Ret ()) cfg 30 rules0 manager0).2
  | (false, _) => false
  end.

(** A reload interval that is no number passes the dry run; every machine then
    refuses the reload. *)
Lemma dry_run_misses_interval : dry good = None ∧ reload good = true ∧ dry soon = None ∧ reload soon = false.
Proof. by vm_compute. Qed.

(** *** Errors the dry run does not report

    A local file that is broken, and cannot be examined during the dry run. *)
Definition broken : bytes * local_file := ("11-redis.ini" : bytes, mkFile true (Some ("oops" : bytes))).
Definition local_broken : LocalFs := mkLocal true true (broken :: entries local) None.
Definition unexamined : dry_io := mkDryIo None (λ n, negb (beqb n "11-redis.ini")) (λ _, true) (λ _, write_ok) true true.

Lemma dry_run_skips_local :
  @dry_run_config_set binary64 sample_text insertion_sort DottedQuad.dotted sample_jwt sample_keys unexamined local_broken [good] = None ∧
  (@load insertion_sort empty_config (Some (dir_of ((mf_name good, mkFile true (Some (mf_content good))) :: entries local_broken))) true).1 = false.
Proof. by vm_compute. Qed.

(** A file that does not parse, of which only the beginning reaches the disk of the
    dry run. *)
Definition long : ManagedFile := file ("[log]" ++ [LF] ++ "level = info" ++ [LF] ++ "oops").
Definition cut_short : dry_io := mkDryIo None (λ _, true) (λ _, true) (λ _, mkWriteIo true true (Some 18%nat) true) true true.

Lemma dry_run_reads_short :
  @dry_run_config_set binary64 sample_text insertion_sort DottedQuad.dotted sample_jwt sample_keys cut_short local [long] = None ∧
  dry long = Some ("staged config does not parse" : bytes) ∧ reload long = false.
Proof. by vm_compute. Qed.

Lemma machine_installed : installed local [good] (machine good).
Proof.
  split; [by repeat constructor|]. intros name f.
  change (ini_files (entries (machine good))) with (entries (machine good)). unfold machine, local. cbn [entries sm_find].
  destruct (beqb (mf_name good) name) eqn:E1.
  - apply beqb_eq in E1 as <-. change (is_never_sync_file (mf_name good)) with false. cbv iota.
    split; [intros [= <-]; exists good; split; [by left|done]|]. intros (g & ->%list_elem_of_singleton & _ & ->). done.
  - destruct (beqb "99-local.ini" name) eqn:E2; [by apply beqb_eq in E2 as <-|].
    destruct (is_never_sync_file name); [done|]. split; [done|]. intros (g & ->%list_elem_of_singleton & Hn & _).
    rewrite <- Hn, beqb_refl in E1. done.
Qed.
End DrySample.

