(* ===== verification/AdminOps.v ===== *)
(** * The operations of the admin API
    (src/src/app/admin/admin_config_routes.cpp, admin_history_operation.cpp,
    admin_history_common.cpp, admin_history_query.cpp, admin_history_rollback.cpp,
    admin_history_repair.cpp, admin_history_orphan.cpp)

    An operation runs after its request was authorized.  It alternates between
    commands for Redis and the code that handles their replies, and ends with a
    response; the state between two commands is a constructor of [op_pc], the code
    after a reply is one definition each, composed in [op_step].  Files, clock and
    the verdict of the history service are read when they are needed and may change
    in between, so they are arguments of every step. *)

From S2P Require Import Prelude Doubles RateLimiter IpRules PathRules Config Response Jwt SecurityRules HttpPool Upstream AppConfig AdminJson AdminAuth AdminLogin OrderedMap ConfigHistory DbPool RedisPool ConfigSync RedisStore HistoryScripts HistoryService AdminStore.

(** ** Paths and queries *)

Definition path_only (path : bytes) : bytes := match find_char "?" path with Some pos => take pos path | None => path end.

(** The first part of the query that has the name. *)
Fixpoint query_part (key : bytes) (parts : list bytes) : option bytes :=
  match parts with
  | [] => None
  | part :: rest =>
      match find_char "=" part with
      | Some eq => if beqb (take eq part) key then Some (drop (S eq) part) else query_part key rest
      | None => query_part key rest
      end
  end.
Definition query_value (path key : bytes) : option bytes :=
  match find_char "?" path with
  | None => None
  | Some query => query_part key (split_on "&" (drop (S query) path))
  end.

(** ** States of an operation *)

Inductive repair_script := RSnapshot | RMirror | RMigration.
Record RepairPlan := mkPlan {
  compat_only : bool;
  read_history_snapshot : bool;
  synthesize_metadata : bool;
  use_config_staging : bool;
  plan_action : bytes;
  plan_script : repair_script
}.

Definition snapshot_repair_plan : RepairPlan := mkPlan false false false false "snapshot-repair" RSnapshot.
Definition mirror_rebuild_plan : RepairPlan := mkPlan false true false true "mirror-rebuild" RMirror.
Definition migration_plan : RepairPlan := mkPlan true false true false "migration" RMigration.

(** What the record of a version is read for. *)
Inductive detail_use :=
| UDetail (version : Z)
| UDiffFrom (from_version : Z) (to_version : option Z)
| UDiffTo (from_version target : Z) (saved_from : SnapshotRecord)
| URollback (request : RollbackRequest)
| URebuild (plan : RepairPlan) (request : RepairRequest).

(** The command whose reply is awaited. *)
Inductive op_pc :=
| ReadVersion (attempt : nat)
| ReadFiles (version : Z) (attempt : nat)
| ReadMirror (version : Z) (attempt : nat)
| VerifyHash (version : Z) (attempt : nat) (files : files_map) (degraded : bool)
| VerifyVersion (version : Z) (attempt : nat) (files : files_map) (degraded : bool)
| AwaitSave (t : txn)
| ReadConflict
| ReadMachines
| AwaitList (before limit : Z)
| AwaitDetail (version : Z) (use : detail_use)
| AwaitRollback (request : RollbackRequest) (restart sensitive : bool) (t : txn)
| RepairMirror (plan : RepairPlan) (request : RepairRequest)
| RepairMeta (plan : RepairPlan) (request : RepairRequest) (files : files_map) (mirror_hash : bytes)
| AwaitRepair (action : bytes) (t : txn)
| Inspect (request : OrphanResolutionRequest)
| AwaitOrphan (request : OrphanResolutionRequest) (action : bytes) (t : txn)
| AwaitRefresh (action : bytes) (version : Z)
| OpDone (ctx : HttpContext)
| OpCrashed.

(** The transaction that is under way. *)
Definition op_txn (pc : op_pc) : option txn :=
  match pc with
  | AwaitSave t | AwaitRollback _ _ _ t | AwaitRepair _ t | AwaitOrphan _ _ t => Some t
  | _ => None
  end.

(** What the code reads outside of Redis: the clock, the temporary directory, the
    local files, the history service where there is one. *)
Record op_env := mkOpEnv {
  oe_now : Z;
  oe_dry : dry_io;
  oe_fs : LocalFs;
  oe_history : option HistoryStats
}.

Definition frozen (env : op_env) : bool := match oe_history env with Some s => inconsistent s | None => false end.

Section ops.
Context `{Double, !DoubleText, StdSort, StdHash, AsioAddress, JwtCpp, KeyStore, OpenSsl}.
Context (cfg : ConfigHistoryConfig) (stack : nat) (config_base_empty : bool) (ctx : HttpContext).

(** ** Responses *)

Definition finish (status : Z) (body : bytes) : op_pc := OpDone (respond ctx status body).
Definition bad_request (message : bytes) : op_pc := finish 400 (resp_err 400 message).
Definition history_not_found : op_pc := finish 404 (resp_err 404 "history version not found").
Definition redis_failed (message : bytes) : op_pc := finish 500 (resp_err 501 message).
Definition server_error (message : bytes) : op_pc := finish 500 (resp_err 500 message).
Definition inconsistent_state (message : bytes) : op_pc := finish 409 (json_resp 409 message "null").
Definition invalid_version : op_pc := server_error "version key content is not numeric, manual repair required".
Definition wrong_method (allow : bytes) : op_pc := OpDone (method_not_allowed ctx allow).

(** A parsed request; a stack overflow of the parser ends the process. *)
Definition with_request {R} (parsed : reader R) (k : R → op_pc) : op_pc :=
  match parsed with
  | Got request _ => k request
  | Bad error => bad_request error
  | StackOverflow | Exhausted => OpCrashed
  end.

(** ** Reading the configuration *)

Definition version_reply_read (attempt : nat) (reply : RedisReplyData) : op_pc :=
  if negb (rd_ok reply) then redis_failed (rd_error reply)
  else match redis_version reply with None => invalid_version | Some version => ReadFiles version attempt end.

Definition files_reply_read (version : Z) (attempt : nat) (reply : RedisReplyData) : op_pc :=
  if negb (rd_ok reply) then redis_failed (rd_error reply)
  else
    match admin_hgetall reply with
    | None => server_error "files hash returned malformed data"
    | Some [] => ReadMirror version attempt
    | Some files => VerifyHash version attempt files false
    end.

Definition mirror_reply_read (version : Z) (attempt : nat) (reply : RedisReplyData) : op_pc :=
  if negb (rd_ok reply) then redis_failed (rd_error reply)
  else
    match admin_hgetall reply with
    | None | Some [] => inconsistent_state "current history snapshot is missing"
    | Some files => if beqb (read_mode cfg) "compat" then VerifyVersion version attempt files true else VerifyHash version attempt files true
    end.

(** The digest in the metadata is that of the files. *)
Definition digest_matches (meta : option bytes) (files : files_map) : bool :=
  match (m ← meta; json_string_field m "content_sha256"), content_sha256 files with
  | Some expected, Some actual => beqb expected actual
  | _, _ => false
  end.

Definition hash_reply_read (version : Z) (attempt : nat) (files : files_map) (degraded : bool) (reply : RedisReplyData) : op_pc :=
  if digest_matches (if rd_ok reply && beqb (rd_type reply) "string" then Some (rd_str reply) else None) files
  then VerifyVersion version attempt files degraded
  else inconsistent_state "current history snapshot hash is inconsistent".

Definition version_checked (version : Z) (attempt : nat) (files : files_map) (degraded : bool) (reply : RedisReplyData) : op_pc :=
  match redis_version reply with
  | None => invalid_version
  | Some version_after =>
      if negb (version_after =? version) then
        match attempt with
        | O => ReadVersion 1
        | S _ => finish 409 (json_resp 409 "version changed during read, retry" "null")
        end
      else finish 200 (resp_ok (files_json version files degraded))
  end.

(** ** Saving *)

Definition too_long (reason : bytes) : bool := max_reason_bytes cfg <? slen reason.

Definition save_txn (now : Z) (request : SaveRequest) (info : SnapshotInfo) : txn :=
  let base := sv_base_version request in
  TSave base
    (audit_json (ctx_admin_principal ctx) now base (base + 1) "save" (sv_reason request) (mf_name <$> sv_files request))
    (metadata_json (base + 1) base now (user_of (ctx_admin_principal ctx)) "save" (sv_reason request) info None)
    (file_pair <$> sv_files request).

Definition save_config (env : op_env) : op_pc :=
  if frozen env then inconsistent_state "history is inconsistent; save, rollback and GC are frozen"
  else
    with_request (parse_save_request stack (ctx_body ctx)) (λ request,
      match validate_file_set (sv_files request) true with
      | Some error => bad_request error
      | None =>
          if too_long (sv_reason request) then bad_request ("reason exceeds " ++ to_string (max_reason_bytes cfg) ++ " bytes")
          else if sv_base_version request =? INT64_MAX then bad_request "base_version is too large"
          else
            match validate_snapshot (sm_insert_all (file_pair <$> sv_files request) []) cfg true with
            | inl error => bad_request error
            | inr info =>
                if config_base_empty then server_error "config base is unavailable"
                else
                  match dry_run_config_set (oe_dry env) (oe_fs env) (sv_files request) with
                  | Some error => bad_request ("dry-run rejected: " ++ error)
                  | None => AwaitSave (save_txn (oe_now env) request info)
                  end
            end
      end).

Definition handle_save_reply (reply : RedisReplyData) : op_pc :=
  if negb (rd_ok reply) then redis_failed (rd_error reply)
  else
    match redis_integer reply with
    | None => server_error "save script returned non-integer"
    | Some code =>
        if 0 <? code then finish 200 (resp_ok ("{" ++ quoted "version" ++ ":" ++ to_string code ++ "}"))
        else if code =? -1 then ReadConflict
        else if code =? -2 then server_error "save script rejected invalid argv"
        else if code =? -3 then server_error "config Redis key type is invalid"
        else if code =? -4 then invalid_version
        else if code =? -5 then inconsistent_state "history is inconsistent; save, rollback and GC are frozen"
        else if code =? -6 then inconsistent_state "history target already exists; manual repair required"
        else if code =? -7 then server_error "version publish returned an unexpected value"
        else if code =? -8 then bad_request "snapshot exceeds configured capacity limits"
        else server_error ("save script returned unexpected code " ++ to_string code)
    end.

Definition conflict_reply_read (reply : RedisReplyData) : op_pc :=
  let current := match redis_version reply with Some v => to_string v | None => "null" end in
  finish 409 (json_resp 409 "version conflict" ("{" ++ quoted "current_version" ++ ":" ++ current ++ "}")).

Definition start_config (env : op_env) : op_pc :=
  if beqb (ctx_method ctx) "GET" then ReadVersion 0
  else if beqb (ctx_method ctx) "POST" then save_config env
  else wrong_method "GET, POST".

Definition start_machines : op_pc := if negb (beqb (ctx_method ctx) "GET") then wrong_method "GET" else ReadMachines.

Definition machines_reply_read (reply : RedisReplyData) : op_pc :=
  if negb (rd_ok reply) then redis_failed (rd_error reply)
  else
    match admin_hgetall reply with
    | None => server_error "machines hash returned malformed data"
    | Some machines => finish 200 (resp_ok (machines_json machines))
    end.

(** ** The list of versions *)

Definition start_list : op_pc :=
  if negb (beqb (ctx_method ctx) "GET") then wrong_method "GET"
  else
    let with_limit before :=
      match query_value (ctx_path ctx) "limit" with
      | None => AwaitList before (history_page_size cfg)
      | Some value =>
          match parse_int64 value with
          | None => bad_request "invalid history limit"
          | Some parsed =>
              if (parsed <=? 0) || (history_page_size_max cfg <? parsed) then bad_request "invalid history limit"
              else AwaitList before parsed
          end
      end in
    match query_value (ctx_path ctx) "before" with
    | None => with_limit 0
    | Some value =>
        match parse_int64 value with
        | None => bad_request "invalid before cursor"
        | Some parsed => if parsed <=? 0 then bad_request "invalid before cursor" else with_limit parsed
        end
    end.

Definition list_reply_read (reply : RedisReplyData) : op_pc :=
  if negb (rd_ok reply) then redis_failed (rd_error reply)
  else
    match rd_elements reply with
    | current :: rows =>
        if negb (beqb (rd_type reply) "array") then inconsistent_state "history list returned malformed data"
        else
          match parse_int64 current with
          | None => inconsistent_state "history version is not numeric"
          | Some current =>
              if current <? 0 then inconsistent_state "history version is not numeric"
              else if negb (Nat.even (length rows)) then inconsistent_state "history list returned malformed rows"
              else finish 200 (resp_ok (history_list_json rows current))
          end
    | [] => inconsistent_state "history list returned malformed data"
    end.

(** ** One version, differences *)

Definition history_prefix : bytes := "/api/admin/config/history/".
Definition diff_suffix : bytes := "/diff".

Definition start_diff (from_version : Z) : op_pc :=
  match query_value (ctx_path ctx) "to" with
  | None => AwaitDetail from_version (UDiffFrom from_version None)
  | Some value =>
      match parse_int64 value with
      | None => bad_request "invalid diff target version"
      | Some to => if to <=? 0 then bad_request "invalid diff target version" else AwaitDetail from_version (UDiffFrom from_version (Some to))
      end
  end.

Definition start_path : op_pc :=
  if negb (beqb (ctx_method ctx) "GET") then wrong_method "GET"
  else
    let path := path_only (ctx_path ctx) in
    if negb (starts_with history_prefix path) then history_not_found
    else
      let suffix := drop (length history_prefix) path in
      let diff := (slen diff_suffix <? slen suffix) && beqb (drop (length suffix - length diff_suffix) suffix) diff_suffix in
      let suffix := if diff then take (length suffix - length diff_suffix) suffix else suffix in
      match parse_int64 suffix with
      | None => history_not_found
      | Some version =>
          if version <=? 0 then history_not_found
          else if diff then start_diff version else AwaitDetail version (UDetail version)
      end.

Definition valid_record_hash (record : SnapshotRecord) : bool := digest_matches (Some (meta_json record)) (rec_files record).

Definition detail_found (version : Z) (record : SnapshotRecord) : op_pc :=
  if negb (valid_record_hash record) then inconsistent_state "history snapshot hash mismatch"
  else finish 200 (resp_ok (detail_json version record)).

Definition no_changes (from target : Z) : bytes :=
  "{" ++ quoted "from" ++ ":" ++ to_string from ++ "," ++ quoted "to" ++ ":" ++ to_string target ++ "," ++ quoted "changes" ++ ":[]}".

Definition diff_from_found (from_version : Z) (to_version : option Z) (from : SnapshotRecord) : op_pc :=
  if negb (valid_record_hash from) then inconsistent_state "history source hash mismatch"
  else
    let target := default (current_version from) to_version in
    if target =? from_version then
      finish 200 (resp_ok (default (no_changes from_version target) (diff_json from_version from target from (max_diff_response_bytes cfg))))
    else AwaitDetail target (UDiffTo from_version target from).

Definition diff_to_found (from_version target : Z) (saved_from to : SnapshotRecord) : op_pc :=
  if negb (valid_record_hash to) then inconsistent_state "history target hash mismatch"
  else
    match diff_json from_version saved_from target to (max_diff_response_bytes cfg) with
    | None => finish 413 (resp_err 413 "diff response exceeds configured limit")
    | Some result => finish 200 (resp_ok result)
    end.

(** ** Rolling back *)

Definition start_rollback : op_pc :=
  if negb (beqb (ctx_method ctx) "POST") then wrong_method "POST"
  else
    with_request (parse_rollback_request stack (ctx_body ctx)) (λ request,
      if too_long (rb_reason request) then bad_request "reason exceeds configured limit"
      else if rb_base_version request =? INT64_MAX then bad_request "base_version is too large"
      else AwaitDetail (rb_target_version request) (URollback request)).

Definition start_rollback_request (env : op_env) : op_pc :=
  if frozen env then inconsistent_state "history is inconsistent; rollback is frozen" else start_rollback.

(** The files that the rules of today refuse. *)
Definition conflicts (files : files_map) : list bytes :=
  omap (λ kv : bytes * bytes, (λ reason, kv.1 ++ ": " ++ reason) <$> validate_managed_file kv.1 kv.2) files.
Definition conflicts_json (cs : list bytes) : bytes :=
  "{" ++ quoted "conflicts" ++ ":[" ++ join_with "," ((λ c, quoted (json_escape c)) <$> cs) ++ "]}".

Definition rollback_txn (now : Z) (request : RollbackRequest) (source : SnapshotRecord) (info : SnapshotInfo) : txn :=
  let base := rb_base_version request in
  TRollback base (rb_target_version request)
    (audit_json (ctx_admin_principal ctx) now base (base + 1) "rollback" (rb_reason request) (rec_files source).*1)
    (metadata_json (base + 1) base now (user_of (ctx_admin_principal ctx)) "rollback" (rb_reason request) info (Some (rb_target_version request)))
    (meta_json source) (rec_files source).

Definition prepare_rollback (env : op_env) (request : RollbackRequest) (record : SnapshotRecord) : op_pc :=
  if negb (current_version record =? rb_base_version request) then
    finish 409 (json_resp 409 "version conflict" ("{" ++ quoted "current_version" ++ ":" ++ to_string (current_version record) ++ "}"))
  else if negb (valid_record_hash record) then inconsistent_state "rollback source hash mismatch"
  else
    match conflicts (rec_files record) with
    | [] =>
        match dry_run_config_set (oe_dry env) (oe_fs env) (managed <$> rec_files record) with
        | Some error => inconsistent_state ("rollback rejected by current validation: " ++ error)
        | None =>
            match validate_snapshot (rec_files record) cfg true with
            | inl error => inconsistent_state error
            | inr info =>
                AwaitRollback request (existsb restart_required (rec_files record).*2) (existsb looks_sensitive (rec_files record).*2)
                  (rollback_txn (oe_now env) request record info)
            end
        end
    | cs => finish 409 (json_resp 409 "rollback conflicts with current managed-file rules" (conflicts_json cs))
    end.

Definition handle_rollback_reply (request : RollbackRequest) (restart sensitive : bool) (reply : RedisReplyData) : op_pc :=
  if negb (rd_ok reply) then redis_failed (rd_error reply)
  else
    match redis_integer reply with
    | None => inconsistent_state "rollback script returned non-integer"
    | Some code =>
        if 0 <? code then
          finish 200 (resp_ok ("{" ++ quoted "version" ++ ":" ++ to_string code ++ "," ++ quoted "rollback_from" ++ ":" ++
            to_string (rb_target_version request) ++ "," ++ quoted "restart_required" ++ ":" ++ json_bool restart ++ "," ++
            quoted "sensitive" ++ ":" ++ json_bool sensitive ++ "}"))
        else if code =? -1 then inconsistent_state "version conflict"
        else if code =? -9 then inconsistent_state "rollback source changed or was deleted; refresh and retry"
        else if (code =? -5) || (code =? -6) then inconsistent_state "history is inconsistent; rollback is frozen"
        else if code =? -8 then inconsistent_state "rollback snapshot exceeds current capacity limits"
        else if code =? -4 then invalid_version
        else server_error ("rollback script failed with code " ++ to_string code)
    end.

(** ** Repairing *)

Definition start_repair (plan : RepairPlan) : op_pc :=
  if negb (beqb (ctx_method ctx) "POST") then wrong_method "POST"
  else
    with_request (parse_repair_request stack (ctx_body ctx)) (λ request,
      if too_long (rp_reason request) then bad_request "reason exceeds configured limit"
      else if compat_only plan && negb (beqb (read_mode cfg) "compat") then inconsistent_state "migration is allowed only in local compat mode"
      else if read_history_snapshot plan then AwaitDetail (rp_version request) (URebuild plan request)
      else RepairMirror plan request).

Definition submit_repair (env : op_env) (plan : RepairPlan) (request : RepairRequest) (files : files_map) (meta : bytes) : op_pc :=
  let version := rp_version request in
  let audit := audit_json (ctx_admin_principal ctx) (oe_now env) version version (plan_action plan) (rp_reason request) files.*1 in
  AwaitRepair (plan_action plan)
    (match plan_script plan with
     | RSnapshot => TRepairSnapshot version meta audit files
     | RMirror => TRebuildMirror version meta audit files
     | RMigration => TMigrate version meta audit files
     end).

Definition rebuild_found (env : op_env) (plan : RepairPlan) (request : RepairRequest) (record : option SnapshotRecord) : op_pc :=
  match record with
  | None => inconsistent_state "current history snapshot is not complete"
  | Some record =>
      if negb (current_version record =? rp_version request) then inconsistent_state "current history snapshot is not complete"
      else if negb (valid_record_hash record) then inconsistent_state "current history snapshot hash mismatch"
      else submit_repair env plan request (rec_files record) (meta_json record)
  end.

Definition repair_mirror_read (env : op_env) (plan : RepairPlan) (request : RepairRequest) (reply : RedisReplyData) : op_pc :=
  match admin_hgetall reply with
  | None | Some [] => inconsistent_state "current mirror is missing or malformed"
  | Some files =>
      match validate_snapshot files cfg true with
      | inl error => inconsistent_state error
      | inr info =>
          if synthesize_metadata plan then
            submit_repair env plan request files
              (metadata_json (rp_version request) (rp_version request) (oe_now env) (user_of (ctx_admin_principal ctx)) "migration" (rp_reason request)
                 info None)
          else RepairMeta plan request files (content_hash_hex info)
      end
  end.

Definition repair_meta_read (env : op_env) (plan : RepairPlan) (request : RepairRequest) (files : files_map) (mirror_hash : bytes)
    (reply : RedisReplyData) : op_pc :=
  if negb (rd_ok reply) || negb (beqb (rd_type reply) "string") then inconsistent_state "current history metadata is missing"
  else
    match json_string_field (rd_str reply) "content_sha256" with
    | Some expected =>
        if beqb expected mirror_hash then submit_repair env plan request files (rd_str reply)
        else inconsistent_state "current mirror hash does not match history metadata"
    | None => inconsistent_state "current mirror hash does not match history metadata"
    end.

Definition repaired_json (version : Z) (action : bytes) (consistent : bool) : bytes :=
  "{" ++ quoted "version" ++ ":" ++ to_string version ++ string_member "action" action ++ "," ++
  quoted "history_consistent" ++ ":" ++ json_bool consistent ++ "}".

(** A check that is started now answers first, where there is a service. *)
Definition respond_repaired (env : op_env) (action : bytes) (version : Z) : op_pc :=
  finish 200 (resp_ok (repaired_json version action (negb (frozen env)))).
Definition finish_repair_success (env : op_env) (action : bytes) (version : Z) : op_pc :=
  match oe_history env with
  | Some _ => AwaitRefresh action version
  | None => respond_repaired env action version
  end.

Definition handle_repair_reply (env : op_env) (action : bytes) (reply : RedisReplyData) : op_pc :=
  if negb (rd_ok reply) then redis_failed (rd_error reply)
  else
    match redis_integer reply with
    | None => inconsistent_state "history repair returned non-integer"
    | Some code =>
        if 0 <? code then finish_repair_success env action code
        else
          let status := if (code =? -2) || (code =? -3) || (code =? -4) then 500 else 409 in
          finish status (json_resp status ("history repair refused with code " ++ to_string code) "null")
    end.

(** ** Orphans *)

Definition start_orphan_resolution : op_pc :=
  if negb (beqb (ctx_method ctx) "POST") then wrong_method "POST"
  else
    with_request (parse_orphan_resolution_request stack (ctx_body ctx)) (λ request,
      if too_long (or_reason request) then bad_request "reason exceeds configured limit" else Inspect request).

Definition orphan_audit (env : op_env) (request : OrphanResolutionRequest) (action : bytes) (files : files_map) : bytes :=
  audit_json (ctx_admin_principal ctx) (oe_now env) (or_current_version request) (or_target_version request) action (or_reason request) files.*1.

Definition submit_restore_version (env : op_env) (request : OrphanResolutionRequest) (files : files_map) (meta : bytes) : op_pc :=
  AwaitOrphan request "restore-version"
    (TRestore (or_current_version request) (or_target_version request) meta (orphan_audit env request "restore-version" files) files).

Definition submit_delete_orphan (env : op_env) (request : OrphanResolutionRequest) (files : files_map) (meta : bytes)
    (indexed snapshot_exists : bool) : op_pc :=
  AwaitOrphan request "delete-orphan"
    (TDeleteOrphan (or_current_version request) (or_target_version request) meta (orphan_audit env request "delete-orphan" files) indexed
       snapshot_exists files).

Definition observed_version (env : op_env) : Z := match oe_history env with Some s => max_observed_version s | None => 0 end.

Definition resolve_restore (env : op_env) (request : OrphanResolutionRequest) (index_high machine_high : Z) (indexed snapshot_exists : bool)
    (meta : bytes) (files : files_map) : op_pc :=
  let target := or_target_version request in
  if negb indexed || beqb meta kMissing || negb snapshot_exists || bool_decide (files = []) || negb (index_high =? target) ||
     (target <? machine_high) || (target <? observed_version env)
  then inconsistent_state "target is not a complete trusted high-water snapshot"
  else if negb (valid_record_hash (mkRecord 0 meta files)) then inconsistent_state "orphan snapshot hash does not match metadata"
  else
    match validate_snapshot files cfg true with
    | inl error => inconsistent_state error
    | inr _ => submit_restore_version env request files meta
    end.

Definition resolve_delete (env : op_env) (request : OrphanResolutionRequest) (current machine_high : Z) (indexed snapshot_exists : bool)
    (meta : bytes) (files : files_map) : op_pc :=
  if negb (or_target_version request =? current + 1) || (current <? machine_high) || (current <? observed_version env) ||
     (negb indexed && beqb meta kMissing && negb snapshot_exists)
  then inconsistent_state "delete refused: published-version evidence exists or target is not current+1"
  else submit_delete_orphan env request files meta indexed snapshot_exists.

Definition prepare_orphan_resolution (env : op_env) (request : OrphanResolutionRequest) (reply : RedisReplyData) : op_pc :=
  let malformed := inconsistent_state "orphan state is missing, malformed or changed" in
  if negb (rd_ok reply) || negb (beqb (rd_type reply) "array") then malformed
  else
    match rd_elements reply with
    | e0 :: e1 :: e2 :: e3 :: e4 :: e5 :: rest =>
        if negb (Nat.even (length rest)) || beqb e0 "__error__" then malformed
        else
          match parse_int64 e0, parse_int64 e1, parse_int64 e2 with
          | Some current, Some index_high, Some machine_high =>
              if negb (current =? or_current_version request) then inconsistent_state "orphan state changed; inspect again"
              else
                let indexed := beqb e3 "1" in
                let snapshot_exists := beqb e5 "1" in
                if (negb (beqb e3 "0") && negb indexed) || (negb (beqb e5 "0") && negb snapshot_exists)
                then inconsistent_state "orphan inspection returned malformed flags"
                else
                  let files := sm_insert_all (pair_elements rest) [] in
                  if beqb (or_action request) "restore-version"
                  then resolve_restore env request index_high machine_high indexed snapshot_exists e4 files
                  else resolve_delete env request current machine_high indexed snapshot_exists e4 files
          | _, _, _ => inconsistent_state "orphan state changed; inspect again"
          end
    | _ => malformed
    end.

(** A deletion answers with the version that stays current. *)
Definition handle_orphan_resolution_reply (env : op_env) (request : OrphanResolutionRequest) (action : bytes) (reply : RedisReplyData) : op_pc :=
  if negb (rd_ok reply) then finish 500 (json_resp 500 (rd_error reply) "null")
  else
    match redis_integer reply with
    | None => finish 500 (json_resp 500 "orphan resolution returned non-integer" "null")
    | Some code =>
        if code <=? 0 then
          let status := if (code =? -2) || (code =? -3) || (code =? -4) then 500 else 409 in
          finish status (json_resp status ("orphan resolution refused with code " ++ to_string code) "null")
        else finish_repair_success env action (if beqb action "delete-orphan" then or_current_version request else code)
    end.

(** ** The record of a version *)

Definition detail_reply_read (env : op_env) (use : detail_use) (reply : RedisReplyData) : op_pc :=
  if negb (rd_ok reply) then redis_failed (rd_error reply)
  else if negb (beqb (rd_type reply) "array") then inconsistent_state "history detail returned malformed data"
  else
    let missing := match use with URebuild plan request => rebuild_found env plan request None | _ => history_not_found end in
    match rd_elements reply with
    | [] => missing
    | elements =>
        match parse_detail_elements elements with
        | None => inconsistent_state "history detail returned malformed fields"
        | Some record =>
            match use with
            | UDetail version => detail_found version record
            | UDiffFrom from to => diff_from_found from to record
            | UDiffTo from target saved => diff_to_found from target saved record
            | URollback request => prepare_rollback env request record
            | URebuild plan request => rebuild_found env plan request (Some record)
            end
        end
    end.

(** ** One reply *)

Definition op_step (env : op_env) (pc : op_pc) (reply : RedisReplyData) : op_pc :=
  match pc with
  | ReadVersion attempt => version_reply_read attempt reply
  | ReadFiles version attempt => files_reply_read version attempt reply
  | ReadMirror version attempt => mirror_reply_read version attempt reply
  | VerifyHash version attempt files degraded => hash_reply_read version attempt files degraded reply
  | VerifyVersion version attempt files degraded => version_checked version attempt files degraded reply
  | AwaitSave _ => handle_save_reply reply
  | ReadConflict => conflict_reply_read reply
  | ReadMachines => machines_reply_read reply
  | AwaitList _ _ => list_reply_read reply
  | AwaitDetail _ use => detail_reply_read env use reply
  | AwaitRollback request restart sensitive _ => handle_rollback_reply request restart sensitive reply
  | RepairMirror plan request => repair_mirror_read env plan request reply
  | RepairMeta plan request files hash => repair_meta_read env plan request files hash reply
  | AwaitRepair action _ => handle_repair_reply env action reply
  | Inspect request => prepare_orphan_resolution env request reply
  | AwaitOrphan request action _ => handle_orphan_resolution_reply env request action reply
  | AwaitRefresh action version => respond_repaired env action version
  | OpDone _ | OpCrashed => pc
  end.

(** The routes of the API. *)
Inductive admin_route := RConfig | RMachines | RHistory | RHistoryPath | RRollback | RSnapshotRepair | RMirrorRebuild | RHistoryMigration | ROrphan.

Definition start_action (env : op_env) (r : admin_route) : op_pc :=
  match r with
  | RConfig => start_config env
  | RMachines => start_machines
  | RHistory => start_list
  | RHistoryPath => start_path
  | RRollback => start_rollback_request env
  | RSnapshotRepair => start_repair snapshot_repair_plan
  | RMirrorRebuild => start_repair mirror_rebuild_plan
  | RHistoryMigration => start_repair migration_plan
  | ROrphan => start_orphan_resolution
  end.

(** [start_blocking], after [authorize_admin]. *)
Definition start_blocking (env : op_env) (authorized redis_available : bool) (r : admin_route) : op_pc :=
  if negb authorized then OpDone ctx
  else if negb redis_available then finish 503 (resp_err 500 "Redis service unavailable")
  else start_action env r.

(** ** The commands

    What an operation sends, run on the store; the reply carries what the script or
    command answered. *)
Context `{Redis, LuaNumbers}.

Definition error_reply (what : bytes) : RedisReplyData := mkReplyData false what [] 0 [] "error".
Definition string_reply (s : option bytes) : RedisReplyData :=
  match s with Some s => mkReplyData true [] s 0 [] "string" | None => mkReplyData true [] [] 0 [] "nil" end.
Definition array_reply (l : list bytes) : RedisReplyData := mkReplyData true [] [] 0 l "array".
Definition integer_reply (n : Z) : RedisReplyData := mkReplyData true [] [] n [] "integer".

Definition replied {A} (what : bytes) (k : A → RedisReplyData) (s : script A) (db : rdb) : RedisReplyData * rdb :=
  match s db with (Some a, db') => (k a, db') | (None, db') => (error_reply what, db') end.

Definition op_command (what : bytes) (pc : op_pc) (db : rdb) : RedisReplyData * rdb :=
  match pc with
  | ReadVersion _ | VerifyVersion _ _ _ _ | ReadConflict => replied what string_reply (call (GET kVersionKey)) db
  | ReadFiles version _ => replied what array_reply (call (HGETALL (snapshot_key version))) db
  | ReadMirror _ _ | RepairMirror _ _ => replied what array_reply (call (HGETALL kFilesKey)) db
  | ReadMachines => replied what array_reply (call (HGETALL kMachinesKey)) db
  | VerifyHash version _ _ _ => replied what string_reply (call (HGET kMetaKey (to_string version))) db
  | RepairMeta _ request _ _ => replied what string_reply (call (HGET kMetaKey (to_string (rp_version request)))) db
  | AwaitList before limit =>
      replied what array_reply
        (list_script [kVersionKey; kIndexKey; kMetaKey] [to_string before; to_string limit; kSnapshotPrefix]) db
  | AwaitDetail version _ =>
      replied what array_reply (detail_script [kVersionKey; kMetaKey; kIndexKey; snapshot_key version] [to_string version]) db
  | Inspect request =>
      let target := or_target_version request in
      replied what array_reply
        (orphan_inspect_script [kVersionKey; kIndexKey; kMetaKey; snapshot_key target; kMachinesKey] [to_string target]) db
  | AwaitSave t | AwaitRollback _ _ _ t | AwaitRepair _ t | AwaitOrphan _ _ t => replied what integer_reply (run_txn cfg t) db
  | AwaitRefresh _ _ | OpDone _ | OpCrashed => (error_reply what, db)
  end.

End ops.
