(* ===== verification/AdminSafety.v ===== *)
(** * What the admin API does to the history

    Operations run against the store, interleaved with the transactions of other
    gateways; a reply may be lost, with or without its command having run.  The
    theorems show that an operation only issues transactions whose arguments are as
    the history requires, so that a run of operations is a run of the history; that
    an operation acknowledges a transaction exactly when it took effect; and that
    the configuration an administrator reads is the one of a single moment. *)

From S2P Require Import Prelude Doubles RateLimiter IpRules PathRules Config Response Jwt SecurityRules HttpPool Upstream AppConfig AdminJson AdminAuth AdminLogin OrderedMap ConfigHistory DbPool RedisPool ConfigSync RedisStore HistoryScripts HistorySafety HistoryService AdminStore AdminOps.

(** ** Runs of the store *)

Section store.
Context `{Redis, !RedisLaws, LuaNumbers} (cfg : ConfigHistoryConfig).

(** A transaction, or a read. *)
Definition store_step (db db' : rdb) : Prop := history_step cfg db db' ∨ view db' = view db.

Lemma effect_counter t n c ks ks' : txn_ok t → version_is ks n → effect cfg t n c ks ks' → ∃ n', counter_is ks' n' ∧ n ≤ n'.
Proof.
  intros Hok Hver He. pose proof Hver as [Hval Hn]. pose proof (version_counter _ _ Hver) as Hcnt.
  assert (∀ ks', ks' !! kVersionKey = ks !! kVersionKey → ∃ n', counter_is ks' n' ∧ n ≤ n') as Hkeep.
  { intros k E. exists n. split; [unfold counter_is; by rewrite E|lia]. }
  assert (∀ h m, published ks ks' n h m → ∃ n', counter_is ks' n' ∧ n ≤ n') as Hpub.
  { intros h m (Hc & _). exists (n + 1). split; [split; [by rewrite Hc|lia]|lia]. }
  assert (∀ v r, row_changed ks ks' v r → ∃ n', counter_is ks' n' ∧ n ≤ n') as Hrow by (intros v r [Hc _]; by apply Hkeep).
  destruct t; cbn [effect] in He.
  - destruct He as (_ & _ & Hp). by eapply Hpub.
  - destruct He as (_ & _ & Hp & _). by eapply Hpub.
  - destruct He as (_ & _ & _ & _ & _ & _ & Hr). by eapply Hrow.
  - destruct He as (_ & _ & _ & _ & _ & Hc & _). by apply Hkeep.
  - destruct He as (_ & _ & _ & _ & _ & _ & Hr). by eapply Hrow.
  - destruct He as (_ & _ & Hlt & _ & _ & _ & Hc & _). destruct Hok as (_ & Hok & _).
    exists target. split; [split; [by rewrite Hc|lia]|lia].
  - destruct He as (_ & _ & _ & Hr). by eapply Hrow.
  - destruct He as (Hnone & _ & He). rewrite Hnone in Hval. subst n. case_bool_decide; [|by eapply Hpub].
    exists 1. destruct He as (Hc & _). split; [|lia]. split; [by rewrite Hc|]. unfold LUA_EXACT. lia.
  - destruct He as (_ & _ & Hr & _). by eapply Hrow.
  - apply Hkeep, He.
  - apply Hkeep, He.
Qed.

Lemma store_step_counter db db' n : store_step db db' → counter_is (view db) n → ∃ n', counter_is (view db') n' ∧ n ≤ n'.
Proof.
  intros [Hstep|Hview] Hcnt; [|exists n; rewrite Hview; split; [done|lia]].
  destruct Hstep as [t m db Hok Hver]. assert (m = n) as -> by (eapply counter_unique; [by apply version_counter|done]).
  pose proof (txn_effect cfg t n (view db) Hok Hver db eq_refl) as Ho. unfold txn_outcome in Ho.
  assert (unchanged (view db) (view (run_txn cfg t db).2) → ∃ n', counter_is (view (run_txn cfg t db).2) n' ∧ n ≤ n') as Hun.
  { intros (Hc & _). exists n. split; [unfold counter_is; by rewrite Hc|lia]. }
  destruct ((run_txn cfg t db).1) as [c|]; [|by apply Hun]. destruct (0 <? c); [|by apply Hun]. by eapply effect_counter.
Qed.

Lemma store_counter db db' n : rtc store_step db db' → counter_is (view db) n → ∃ n', counter_is (view db') n' ∧ n ≤ n'.
Proof.
  intros Hrun. revert n. induction Hrun as [db|db db1 db' Hs _ IH]; intros n Hcnt; [exists n; split; [done|lia]|].
  destruct (store_step_counter _ _ _ Hs Hcnt) as (n1 & Hcnt1 & Hle). destruct (IH n1 Hcnt1) as (n' & Hcnt' & Hle').
  exists n'. split; [done|lia].
Qed.

(** A complete version stays what it is, until it is collected. *)
Lemma store_keeps db db' n v r : rtc store_step db db' → counter_is (view db) n → 0 < v ≤ n → complete_row r →
  row (view db) v = r ∨ (row (view db) v = no_row ∧ v < n) →
  ∃ n', counter_is (view db') n' ∧ n ≤ n' ∧ (row (view db') v = r ∨ (row (view db') v = no_row ∧ v < n')).
Proof.
  intros Hrun. revert n. induction Hrun as [db|db db1 db' Hs _ IH]; intros n Hcnt Hv Hc Hrow; [exists n; split; [done|]; split; [lia|done]|].
  assert (∃ n1, counter_is (view db1) n1 ∧ n ≤ n1 ∧ (row (view db1) v = r ∨ (row (view db1) v = no_row ∧ v < n1))) as (n1 & Hcnt1 & Hle & Hrow1).
  { destruct Hs as [Hs|Hview]; [|exists n; rewrite Hview; split; [done|]; split; [lia|done]].
    destruct (step_keeps cfg db db1 n v Hs Hcnt Hv) as (n1 & Hcnt1 & Hle & Hrow1).
    { destruct Hrow as [->|Hrow]; [by left|by right]. }
    exists n1. split; [done|]. split; [done|]. destruct Hrow1 as [Hrow1|Hrow1]; [|by right]. rewrite Hrow1.
    destruct Hrow as [Hrow|[Hrow ?]]; [by left|]. right. split; [done|lia]. }
  destruct (IH n1 Hcnt1) as (n' & Hcnt' & Hle' & Hrow'); [lia|done|done|]. exists n'. split; [done|]. split; [lia|done].
Qed.

(** What lies between two moments with the same counter has it too. *)
Lemma counter_between db1 db2 db3 n : rtc store_step db1 db2 → rtc store_step db2 db3 →
  counter_is (view db1) n → counter_is (view db3) n → counter_is (view db2) n.
Proof.
  intros H12 H23 Hn1 Hn3. destruct (store_counter _ _ _ H12 Hn1) as (m & Hm & Hle). destruct (store_counter _ _ _ H23 Hm) as (k & Hk & Hle').
  assert (k = n) as -> by by eapply counter_unique. assert (m = n) as -> by lia. done.
Qed.
End store.

(** ** The requests of an operation *)

Definition use_ok (use : detail_use) : Prop :=
  match use with URollback request => valid_rollback request | URebuild _ request => valid_repair request | _ => True end.

Definition pc_ok (pc : op_pc) : Prop :=
  match pc with
  | AwaitDetail _ use => use_ok use
  | RepairMirror _ request => valid_repair request
  | RepairMeta _ request files _ => valid_repair request ∧ names_differ files
  | Inspect request => valid_orphan request ∧ or_target_version request < LUA_EXACT - 1
  | _ => match op_txn pc with Some t => txn_ok t | None => True end
  end.

Lemma insert_all_differ l : names_differ (sm_insert_all l []).
Proof. apply sorted_keys_nodup, insert_all_sorted. constructor. Qed.

Lemma hgetall_differ reply files : admin_hgetall reply = Some files → names_differ files.
Proof. unfold admin_hgetall. case_match; [done|]. intros [= <-]. apply insert_all_differ. Qed.

Lemma detail_differ elements record : parse_detail_elements elements = Some record → names_differ (rec_files record).
Proof.
  unfold parse_detail_elements. repeat case_match; try done. intros [= <-]. apply insert_all_differ.
Qed.

Lemma with_request_ok {R} ctx (parsed : reader R) k : (∀ request s, parsed = Got request s → pc_ok (k request)) → pc_ok (with_request ctx parsed k).
Proof. intros Hk. destruct parsed; cbn [with_request]; try done. by eapply Hk. Qed.

Section safety.
Context `{Double, !DoubleText, StdSort, StdHash, AsioAddress, JwtCpp, KeyStore, OpenSsl}.
Context (cfg : ConfigHistoryConfig) (stack : nat) (config_base_empty : bool) (ctx : HttpContext).

(** Orphans are resolved below the versions that Lua counts exactly. *)
Definition targets_exact : Prop :=
  ∀ request s, parse_orphan_resolution_request stack (ctx_body ctx) = Got request s → or_target_version request < LUA_EXACT - 1.

Lemma save_config_ok env : pc_ok (save_config cfg stack config_base_empty ctx env).
Proof.
  unfold save_config. case_match; [done|]. apply with_request_ok. intros request s Hp. apply save_valid in Hp.
  destruct (validate_file_set (sv_files request) true) eqn:Hv; [done|]. repeat case_match; try done.
  cbn [pc_ok op_txn save_txn txn_ok]. split; [exact Hp|]. unfold names_differ. rewrite <- list_fmap_compose.
  unfold validate_file_set in Hv. case_match; [done|]. by apply validate_files_ok in Hv as [Hnd _].
Qed.

Lemma submit_repair_ok env plan request files meta : valid_repair request → names_differ files →
  pc_ok (submit_repair ctx env plan request files meta).
Proof. intros [Hv _] Hd. unfold submit_repair. cbn [pc_ok op_txn]. by destruct (plan_script plan). Qed.

Lemma detail_read_ok env use reply : use_ok use → pc_ok (detail_reply_read cfg ctx env use reply).
Proof.
  intros Hu. unfold detail_reply_read. case_match; [done|]. case_match; [done|]. destruct (rd_elements reply) as [|e es] eqn:El.
  { by destruct use. }
  destruct (parse_detail_elements (e :: es)) as [record|] eqn:Hp; [|done]. apply detail_differ in Hp. destruct use; cbn [use_ok] in Hu.
  - unfold detail_found. by case_match.
  - unfold diff_from_found. by repeat case_match.
  - unfold diff_to_found. by repeat case_match.
  - unfold prepare_rollback. repeat case_match; try done. cbn [pc_ok op_txn rollback_txn txn_ok].
    destruct Hu as (Hb & Ht & _). split; [exact Hb|]. split; [unfold version_num; lia|done].
  - unfold rebuild_found. repeat case_match; try done. by apply submit_repair_ok.
Qed.

Lemma orphan_read_ok env request reply : valid_orphan request → or_target_version request < LUA_EXACT - 1 →
  pc_ok (prepare_orphan_resolution cfg ctx env request reply).
Proof.
  intros (Hc & Ht & _) Hl. unfold prepare_orphan_resolution, resolve_restore, resolve_delete.
  repeat case_match; try done; cbn [pc_ok op_txn submit_restore_version submit_delete_orphan txn_ok].
  - split; [exact Hc|]. split; [lia|apply insert_all_differ].
  - split; [exact Hc|]. split; [unfold version_num; lia|apply insert_all_differ].
Qed.

Lemma op_step_ok env pc reply : pc_ok pc → pc_ok (op_step cfg ctx env pc reply).
Proof.
  destruct pc; cbn [op_step]; intros Hpc; try done.
  - unfold version_reply_read. by repeat case_match.
  - unfold files_reply_read. by repeat case_match.
  - unfold mirror_reply_read. by repeat case_match.
  - unfold hash_reply_read. by repeat case_match.
  - unfold version_checked. by repeat case_match.
  - unfold handle_save_reply. by repeat case_match.
  - unfold machines_reply_read. by repeat case_match.
  - unfold list_reply_read. by repeat case_match.
  - by apply detail_read_ok.
  - unfold handle_rollback_reply. by repeat case_match.
  - unfold repair_mirror_read. destruct (admin_hgetall reply) as [[|kv files]|] eqn:Hg; try done. apply hgetall_differ in Hg.
    repeat case_match; try done. by apply submit_repair_ok.
  - destruct Hpc as [Hv Hd]. unfold repair_meta_read. repeat case_match; try done. by apply submit_repair_ok.
  - unfold handle_repair_reply, finish_repair_success. by repeat case_match.
  - destruct Hpc. by apply orphan_read_ok.
  - unfold handle_orphan_resolution_reply, finish_repair_success. by repeat case_match.
Qed.

Lemma start_ok env authorized available r : targets_exact → pc_ok (start_blocking cfg stack config_base_empty ctx env authorized available r).
Proof.
  intros Htargets. unfold start_blocking. case_match; [done|]. case_match; [done|]. destruct r; cbn [start_action].
  - unfold start_config. case_match; [done|]. case_match; [apply save_config_ok|done].
  - unfold start_machines. by case_match.
  - unfold start_list. by repeat case_match.
  - unfold start_path, start_diff. by repeat case_match.
  - unfold start_rollback_request, start_rollback. case_match; [done|]. case_match; [done|]. apply with_request_ok.
    intros request s Hp. apply rollback_valid in Hp. by repeat case_match.
  - unfold start_repair. case_match; [done|]. apply with_request_ok. intros request s Hp. apply repair_valid in Hp. by repeat case_match.
  - unfold start_repair. case_match; [done|]. apply with_request_ok. intros request s Hp. apply repair_valid in Hp. by repeat case_match.
  - unfold start_repair. case_match; [done|]. apply with_request_ok. intros request s Hp. apply repair_valid in Hp. by repeat case_match.
  - unfold start_orphan_resolution. case_match; [done|]. apply with_request_ok. intros request s Hp.
    case_match; [done|]. cbn [pc_ok]. split; [by eapply orphan_valid|by eapply Htargets].
Qed.

(** ** The commands *)

Context `{Redis, !RedisLaws, LuaNumbers}.

Lemma replied_db {A} what (k : A → RedisReplyData) s db : (replied what k s db).2 = (s db).2.
Proof. unfold replied. by destruct (s db) as [[a|] db']. Qed.

Lemma returns_view {A} (s : script A) db P : returns s (view db) P → view (s db).2 = view db.
Proof. intros Hs. by destruct (Hs db eq_refl) as [-> _]. Qed.

Lemma returns_hmget k fs ks : returns (call (HMGET k fs)) ks (λ _, True).
Proof. apply returns_call. intros order _. split; [|done]. cbn [exec]. unfold reads. by destruct (as_hash ks k). Qed.
Lemma returns_zrevrangebyscore k b l ks : returns (call (ZREVRANGEBYSCORE k b l)) ks (λ _, True).
Proof. apply returns_call. intros order _. split; [|done]. cbn [exec]. unfold reads. by destruct (as_zset ks k). Qed.

Lemma returns_rows cur prefix versions metas ks : returns (list_rows cur prefix versions metas) ks (λ _, True).
Proof.
  revert metas. induction versions as [|v versions IH]; intros metas; [by apply returns_ret|].
  destruct metas as [|m metas]; [by apply returns_ret|]. cbn [list_rows]. destruct (tonumber v), m; try apply IH. case_match; [apply IH|].
  eapply returns_bind; [apply returns_exists|]. intros e _. eapply returns_bind; [apply IH|]. intros rest _. by apply returns_ret.
Qed.

Lemma returns_list KEYS ARGV ks : returns (list_script KEYS ARGV) ks (λ _, True).
Proof.
  unfold list_script. eapply returns_bind; [apply returns_number|]. intros cur _.
  destruct cur, (tonumber (nth1 ARGV 1)), (tonumber (nth1 ARGV 2)); try by apply returns_ret.
  apply returns_if; intros _; [by apply returns_ret|].
  eapply returns_bind; [apply returns_zrevrangebyscore|]. intros versions _.
  eapply (returns_bind _ _ _ (λ _, True)); [apply returns_if; intros _; [by apply returns_ret|apply returns_hmget]|]. intros metas _.
  eapply returns_bind; [apply returns_rows|]. intros rows _. by apply returns_ret.
Qed.

Lemma returns_detail KEYS ARGV ks : returns (detail_script KEYS ARGV) ks (λ _, True).
Proof.
  unfold detail_script. eapply returns_bind; [apply returns_number|]. intros cur _. destruct cur, (tonumber (nth1 ARGV 1)); try by apply returns_ret.
  apply returns_if; intros _; [by apply returns_ret|]. eapply returns_bind; [apply returns_hget|]. intros [m|] _; [|by apply returns_ret]. by reading.
Qed.

Lemma returns_inspect KEYS ARGV ks : returns (orphan_inspect_script KEYS ARGV) ks (λ _, True).
Proof.
  unfold orphan_inspect_script. eapply returns_bind; [apply returns_types|]. intros typed _. apply returns_if; intros _; [by apply returns_ret|].
  eapply returns_bind; [apply returns_number|]. intros cur _. destruct cur, (tonumber (nth1 ARGV 1)); try by apply returns_ret.
  apply returns_if; intros _; [by apply returns_ret|]. eapply returns_bind; [apply returns_zrevrange|]. intros top _.
  case_match; [|by apply returns_ret]. by reading.
Qed.

(** A command is a step of the store. *)
Lemma command_step what pc db n : pc_ok pc → version_is (view db) n → store_step cfg db (op_command cfg what pc db).2.
Proof.
  intros Hpc Hver. destruct pc; cbn [op_command]; rewrite ?replied_db.
  all: try (left; by eapply HStep).
  all: right; try done; eapply returns_view.
  all: first [apply returns_get | apply returns_hgetall | apply returns_hget | apply returns_list | apply returns_detail | apply returns_inspect].
Qed.

(** ** Runs of an operation

    The command is executed and answered; its reply is lost after it was executed,
    or it was never executed; or somebody else changes the store. *)
Inductive admin_step : rdb * op_pc → rdb * op_pc → Prop :=
| AExec env what n pc db : version_is (view db) n →
    admin_step (db, pc) ((op_command cfg what pc db).2, op_step cfg ctx env pc (op_command cfg what pc db).1)
| ALost env what n pc db reply : version_is (view db) n → rd_ok reply = false →
    admin_step (db, pc) ((op_command cfg what pc db).2, op_step cfg ctx env pc reply)
| AUnsent env pc db reply : rd_ok reply = false → admin_step (db, pc) (db, op_step cfg ctx env pc reply)
| AOther pc db db' : store_step cfg db db' → admin_step (db, pc) (db', pc).

Lemma admin_run w w' : rtc admin_step w w' → pc_ok w.2 → pc_ok w'.2 ∧ rtc (store_step cfg) w.1 w'.1.
Proof.
  intros Hrun. induction Hrun as [w|w w1 w' Hs _ IH]; intros Hpc; [done|].
  destruct Hs as [env what n pc db Hver|env what n pc db reply Hver Hlost|env pc db reply Hlost|pc db db' Hs]; cbn [fst snd] in *.
  - destruct IH as [IH1 IH2]; [by apply op_step_ok|]. split; [done|]. eapply rtc_l; [|exact IH2]. by eapply command_step.
  - destruct IH as [IH1 IH2]; [by apply op_step_ok|]. split; [done|]. eapply rtc_l; [|exact IH2]. by eapply command_step.
  - by apply IH, op_step_ok.
  - destruct IH as [IH1 IH2]; [done|]. split; [done|]. by eapply rtc_l.
Qed.

(** C22: whatever an administrator sends and whatever Redis answers, an operation of
    the admin API, interleaved with other gateways and with replies that get lost,
    only takes the steps of the history: the transactions it issues have the
    arguments the history requires, a complete version keeps its files, metadata and
    index entry until it is collected, and the version counter does not go back. *)
Theorem admin_keeps_history env authorized available r db db' pc n v row0 :
  targets_exact → rtc admin_step (db, start_blocking cfg stack config_base_empty ctx env authorized available r) (db', pc) →
  counter_is (view db) n → 0 < v ≤ n → row (view db) v = row0 → complete_row row0 →
  (∀ t, op_txn pc = Some t → txn_ok t) ∧
  ∃ n', counter_is (view db') n' ∧ n ≤ n' ∧ (row (view db') v = row0 ∨ (row (view db') v = no_row ∧ v < n')).
Proof.
  intros Htargets Hrun Hcnt Hv Hrow Hc. destruct (admin_run _ _ Hrun) as [Hpc Hst]; [by apply start_ok|]. cbn [fst snd] in *. split.
  - intros t Ht. destruct pc; try done; cbn in Ht, Hpc; by injection Ht as <-.
  - by eapply store_keeps; [..|left].
Qed.

(** ** Acknowledgement *)

Definition acknowledged (pc : op_pc) : Prop :=
  match pc with OpDone c => status_code c = 200 | AwaitRefresh _ _ => True | _ => False end.
Definition refused (pc : op_pc) : Prop :=
  match pc with OpDone c => status_code c ≠ 200 | ReadConflict => True | _ => False end.

Lemma integer_code c : redis_integer (integer_reply c) = Some c.
Proof. done. Qed.

Lemma txn_ack env pc t what db n :
  op_txn pc = Some t → txn_ok t → version_is (view db) n →
  let pc' := op_step cfg ctx env pc (op_command cfg what pc db).1 in
  (acknowledged pc' ∧ ∃ c, 0 < c ∧ effect cfg t n c (view db) (view (op_command cfg what pc db).2)) ∨
  (refused pc' ∧ unchanged (view db) (view (op_command cfg what pc db).2)).
Proof.
  intros Ht Hok Hver pc'. pose proof (txn_effect cfg t n (view db) Hok Hver db eq_refl) as Ho. unfold txn_outcome in Ho.
  assert (op_command cfg what pc db = replied what integer_reply (run_txn cfg t) db) as E
    by (destruct pc; try done; cbn in Ht; by injection Ht as ->).
  subst pc'. rewrite E. unfold replied. destruct (run_txn cfg t db) as [[c|] db']; cbn [fst snd] in *.
  - destruct (0 <? c) eqn:Hc.
    + left. split; [|exists c; split; [lia|done]]. destruct pc; try done; cbn [op_step].
      * unfold handle_save_reply. cbn [integer_reply rd_ok negb]. by rewrite integer_code, Hc.
      * unfold handle_rollback_reply. cbn [integer_reply rd_ok negb]. by rewrite integer_code, Hc.
      * unfold handle_repair_reply. cbn [integer_reply rd_ok negb]. rewrite integer_code, Hc. unfold finish_repair_success. by case_match.
      * unfold handle_orphan_resolution_reply. cbn [integer_reply rd_ok negb]. rewrite integer_code.
        replace (c <=? 0) with false by lia. unfold finish_repair_success. by case_match.
    + right. split; [|done]. destruct pc; try done; cbn [op_step].
      * unfold handle_save_reply. cbn [integer_reply rd_ok negb]. rewrite integer_code, Hc. by repeat case_match.
      * unfold handle_rollback_reply. cbn [integer_reply rd_ok negb]. rewrite integer_code, Hc. by repeat case_match.
      * unfold handle_repair_reply. cbn [integer_reply rd_ok negb]. rewrite integer_code, Hc. by repeat case_match.
      * unfold handle_orphan_resolution_reply. cbn [integer_reply rd_ok negb]. rewrite integer_code.
        replace (c <=? 0) with true by lia. by repeat case_match.
  - right. split; [|done]. by destruct pc.
Qed.

(** C23: an operation acknowledges a transaction exactly when it took effect: when the
    reply of its command arrives, either the operation answers with success and the
    transaction had its full effect on the history, or it refuses and the history is
    as it was; a conflict is answered 409, a repair 200 after the check it waits
    for. *)
Theorem acknowledged_when_committed env0 authorized available r db0 db pc t what env n :
  targets_exact → rtc admin_step (db0, start_blocking cfg stack config_base_empty ctx env0 authorized available r) (db, pc) →
  op_txn pc = Some t → version_is (view db) n →
  let pc' := op_step cfg ctx env pc (op_command cfg what pc db).1 in
  ((acknowledged pc' ∧ ∃ c, 0 < c ∧ effect cfg t n c (view db) (view (op_command cfg what pc db).2)) ∨
   (refused pc' ∧ unchanged (view db) (view (op_command cfg what pc db).2))) ∧
  ∀ env' reply, match op_step cfg ctx env' pc' reply with
                | OpDone c => pc' = ReadConflict → status_code c = 409
                | _ => False
                end.
Proof.
  intros Htargets Hrun Ht Hver pc'. destruct (admin_run _ _ Hrun) as [Hpc _]; [by apply start_ok|]. cbn [fst snd] in Hpc.
  assert (txn_ok t) as Hok by (destruct pc; try done; cbn in Ht, Hpc; by injection Ht as <-).
  pose proof (txn_ack env pc t what db n Ht Hok Hver) as Hack. split; [exact Hack|]. intros env' reply. fold pc' in Hack.
  destruct Hack as [[Ha _]|[Ha _]]; destruct pc'; try done.
Qed.

(** ** A save, from the request to the store *)

(** The save of [request] published [n + 1] between two moments of the run. *)
Definition save_done (db0 db : rdb) : Prop :=
  ∃ request s now info n d1 d2,
    parse_save_request stack (ctx_body ctx) = Got request s ∧ validate_files (sv_files request) [] = None ∧ sv_base_version request = n ∧
    rtc (store_step cfg) db0 d1 ∧ rtc (store_step cfg) d2 db ∧
    published (view d1) (view d2) n (hash_of (file_pair <$> sv_files request))
      (metadata_json (n + 1) n now (user_of (ctx_admin_principal ctx)) "save" (sv_reason request) info None).

Definition save_state (db0 : rdb) (w : rdb * op_pc) : Prop :=
  rtc (store_step cfg) db0 w.1 ∧
  match w.2 with
  | AwaitSave t =>
      ∃ request s now info, parse_save_request stack (ctx_body ctx) = Got request s ∧ validate_files (sv_files request) [] = None ∧
        t = save_txn ctx now request info ∧ txn_ok t
  | OpDone c => status_code c = 200 → save_done db0 w.1
  | ReadConflict | OpCrashed => True
  | _ => False
  end.

Lemma save_config_state env db : save_state db (db, save_config cfg stack config_base_empty ctx env).
Proof.
  split; [done|]. cbn [snd fst]. unfold save_config. destruct (frozen env); [done|].
  destruct (parse_save_request stack (ctx_body ctx)) as [request s|e| |] eqn:Hp; cbn [with_request]; try done.
  pose proof (save_valid _ _ _ _ Hp) as Hv. destruct (validate_file_set (sv_files request) true) eqn:Hf; [done|].
  destruct (too_long cfg _); [done|]. destruct (_ =? INT64_MAX); [done|]. destruct (validate_snapshot _ cfg true) as [e|info]; [done|].
  destruct config_base_empty; [done|]. destruct (dry_run_config_set _ _ _); [done|]. exists request, s, (oe_now env), info.
  assert (validate_files (sv_files request) [] = None) as Hok by (unfold validate_file_set in Hf; by case_match).
  split; [done|]. split; [done|]. split; [done|]. split; [exact Hv|]. unfold names_differ. rewrite <- list_fmap_compose.
  by apply validate_files_ok in Hok as [Hnd _].
Qed.

Lemma save_state_error db0 db t env reply : rd_ok reply = false → rtc (store_step cfg) db0 db →
  save_state db0 (db, op_step cfg ctx env (AwaitSave t) reply).
Proof. intros Hr Hst. split; [done|]. cbn [snd op_step]. unfold handle_save_reply. by rewrite Hr. Qed.

Lemma save_done_later db0 db db' : save_done db0 db → rtc (store_step cfg) db db' → save_done db0 db'.
Proof.
  intros (request & s & now & info & n & d1 & d2 & Hp & Hf & Hn & Hst1 & Hst2 & Hpub) Hst.
  exists request, s, now, info, n, d1, d2. repeat (split; [done|]). split; [by etrans|done].
Qed.

(** Without a pending save, a reply only ends the operation. *)
Lemma save_state_idle db0 db db' pc env reply : save_state db0 (db, pc) → op_txn pc = None → rtc (store_step cfg) db db' →
  save_state db0 (db', op_step cfg ctx env pc reply).
Proof.
  intros [Hrun Hpc] Ht Hst. split; [by etrans|]. cbn [fst snd] in *. destruct pc; try done.
  cbn [op_step]. intros Hc. eapply save_done_later; [by apply Hpc|done].
Qed.

Lemma save_state_commit db0 db env what t n : save_state db0 (db, AwaitSave t) → version_is (view db) n →
  save_state db0 ((op_command cfg what (AwaitSave t) db).2, op_step cfg ctx env (AwaitSave t) (op_command cfg what (AwaitSave t) db).1).
Proof.
  intros [Hrun (request & s & now & info & Hp & Hf & -> & Htok)] Hver. cbn [fst] in Hrun. split.
  { eapply rtc_r; [done|]. by eapply command_step. }
  destruct (txn_ack env (AwaitSave (save_txn ctx now request info)) _ what db n eq_refl Htok Hver) as [[Ha (c & Hc & He)]|[Ha _]].
  - cbn [snd]. destruct (op_step _ _ _ _ _) eqn:Ep; try done.
    + cbn [op_step] in Ep. unfold handle_save_reply in Ep. by repeat case_match.
    + intros _. destruct He as (<- & _ & Hpub). by eexists request, s, now, info, _, db, _.
  - cbn [snd]. destruct (op_step _ _ _ _ _) eqn:Ep; try done.
Qed.

Lemma save_state_step db0 w w' : admin_step w w' → save_state db0 w → save_state db0 w'.
Proof.
  intros Hs Hw. assert (pc_ok w.2) as Hok.
  { destruct Hw as [_ Hpc], w as [db []]; try done. by destruct Hpc as (? & ? & ? & ? & _ & _ & _ & ?). }
  destruct Hs as [env what n pc db Hver|env what n pc db reply Hver Hlost|env pc db reply Hlost|pc db db' Hs].
  - destruct (op_txn pc) eqn:Ht; [|eapply save_state_idle; [done|done|by apply rtc_once; eapply command_step]].
    destruct pc; try (by destruct Hw). by eapply save_state_commit.
  - assert (store_step cfg db (op_command cfg what pc db).2) as Hst by by eapply command_step.
    destruct (op_txn pc) eqn:Ht; [|by eapply save_state_idle; [..|apply rtc_once]].
    destruct pc; try (by destruct Hw). apply save_state_error; [done|]. eapply rtc_r; [apply Hw|done].
  - destruct (op_txn pc) eqn:Ht; [|by eapply save_state_idle].
    destruct pc; try (by destruct Hw). apply save_state_error; [done|apply Hw].
  - destruct Hw as [Hrun Hpc]. split; [by eapply rtc_r|]. cbn [snd fst] in *. destruct pc; try done. intros Hc.
    eapply save_done_later; [by apply Hpc|by apply rtc_once].
Qed.

(** C10: a save that is answered 200 was published: the request parsed, its files
    passed the validation, its base was the current version at the moment of the
    commit, and the next version was published at that moment with exactly the files
    of the request as snapshot and mirror and the metadata of this save, in one step
    and leaving every other version as it was; before and after it the store only
    took steps of the history. *)
Theorem save_answered_published env db db' c :
  ctx_method ctx = "POST" → rtc admin_step (db, start_blocking cfg stack config_base_empty ctx env true true RConfig) (db', OpDone c) →
  status_code c = 200 → save_done db db'.
Proof.
  intros Hm Hrun Hc. assert (save_state db (db', OpDone c)) as [_ Hd]; [|by apply Hd].
  revert Hrun. generalize (db', OpDone c). apply rtc_ind_r.
  - unfold start_blocking. cbn [negb start_action]. unfold start_config. rewrite Hm. apply save_config_state.
  - intros w w' _ Hs Hw. by eapply save_state_step.
Qed.

End safety.

(** ** A save on a store with one version *)

Module AdminRuns.
#[local] Existing Instances binary64 sample_text insertion_sort DottedQuad.dotted sample_jwt sample_keys Sample.ssl spec_redis spec_lua.

Definition cfg : ConfigHistoryConfig := mkHistory "required" false 1 10 100 200 100 100 5 5 100 10 10 1000 10 10 10.
Definition files1 : files_map := [("10-a.ini" : bytes, "[log]" : bytes)].
Definition digest (files : files_map) : bytes := default [] (content_sha256 files).
Definition meta1 : bytes := metadata_json 1 0 100 "root" "seed" [] (mkInfo 1 5 (digest files1)) None.
Definition db1 : keyspace := (run_txn cfg (TSeed meta1 files1) ∅).2.

Definition request : SaveRequest := mkSave 1 "why" [mkManagedFile "10-a.ini" "[log]"; mkManagedFile "20-b.ini" ("[log]" ++ [LF] ++ "x=1")].
Definition post : HttpContext := mkContext "POST" "/api/admin/config" (print_save request) [] 0 [] [] [] None None [] false.
Definition env : op_env := mkOpEnv 200 DrySample.io DrySample.local None.

Definition saving : op_pc := start_blocking cfg 100 false post env true true RConfig.
Definition run (ctx : HttpContext) (w : keyspace * op_pc) : keyspace * op_pc :=
  ((op_command cfg "gone" w.2 w.1).2, op_step cfg ctx env w.2 (op_command cfg "gone" w.2 w.1).1).
Definition saved : keyspace * op_pc := run post (db1, saving).

Lemma db1_version : version_is db1 1.
Proof. split; by vm_compute. Qed.
Lemma saved_reached : rtc (admin_step cfg post) (db1, saving) saved.
Proof. apply rtc_once. exact (AExec cfg post env "gone" 1 saving db1 db1_version). Qed.
Definition save_answer : HttpContext := match saved.2 with OpDone c => c | _ => post end.
Lemma saved_ok : saved.2 = OpDone save_answer ∧ status_code save_answer = 200.
Proof. split; vm_compute; reflexivity. Qed.
Lemma saved_run : rtc (admin_step cfg post) (db1, saving) (saved.1, OpDone save_answer).
Proof. rewrite <- (proj1 saved_ok), <- surjective_pairing. exact saved_reached. Qed.

Definition orphans (body : bytes) : bool :=
  match parse_orphan_resolution_request 100 body with Got request _ => or_target_version request <? LUA_EXACT - 1 | _ => true end.
Lemma post_exact : targets_exact 100 post.
Proof.
  intros req s Hp. assert (orphans (ctx_body post) = true) as Ho by by vm_compute. unfold orphans in Ho. rewrite Hp in Ho. lia.
Qed.
End AdminRuns.

Lemma admin_keeps_history_witness :
  ∃ n', counter_is AdminRuns.saved.1 n' ∧ 1 ≤ n' ∧
    (row AdminRuns.saved.1 1 = row AdminRuns.db1 1 ∨ (row AdminRuns.saved.1 1 = no_row ∧ 1 < n')).
Proof.
  apply (@admin_keeps_history binary64 sample_text insertion_sort DottedQuad.dotted sample_jwt sample_keys Sample.ssl AdminRuns.cfg 100 false AdminRuns.post
    spec_redis spec_redis_laws spec_lua AdminRuns.env true true RConfig AdminRuns.db1 AdminRuns.saved.1 AdminRuns.saved.2 1 1 (row AdminRuns.db1 1)).
  - exact AdminRuns.post_exact.
  - exact AdminRuns.saved_reached.
  - apply version_counter, AdminRuns.db1_version.
  - lia.
  - reflexivity.
  - eexists _, _, _. vm_compute. reflexivity.
Defined.

Lemma save_answered_published_witness : @save_done AdminRuns.cfg 100 AdminRuns.post spec_redis spec_lua AdminRuns.db1 AdminRuns.saved.1.
Proof.
  exact (@save_answered_published binary64 sample_text insertion_sort DottedQuad.dotted sample_jwt sample_keys Sample.ssl AdminRuns.cfg 100 false AdminRuns.post
    spec_redis spec_redis_laws spec_lua AdminRuns.env AdminRuns.db1 AdminRuns.saved.1 AdminRuns.save_answer eq_refl AdminRuns.saved_run (proj2 AdminRuns.saved_ok)).
Defined.

Lemma acknowledged_when_committed_witness :
  acknowledged AdminRuns.saved.2 ∨ unchanged AdminRuns.db1 AdminRuns.saved.1.
Proof.
  destruct (op_txn AdminRuns.saving) as [t|] eqn:Ht; [|by vm_compute in Ht].
  destruct (@acknowledged_when_committed binary64 sample_text insertion_sort DottedQuad.dotted sample_jwt sample_keys Sample.ssl AdminRuns.cfg 100 false
    AdminRuns.post spec_redis spec_redis_laws spec_lua AdminRuns.env true true RConfig AdminRuns.db1 AdminRuns.db1 AdminRuns.saving t "gone" AdminRuns.env 1
    AdminRuns.post_exact (rtc_refl _ _) Ht AdminRuns.db1_version) as [[[Ha _]|[_ Hu]] _]; [by left|by right].
Defined.
