(* ===== verification/AdminRead.v ===== *)
(** * What an administrator reads

    The operation that reads the configuration asks for the version, then for the
    files, their digest, and the version again; others may publish in between.  The
    theorem shows that an answer nevertheless shows one moment of the store: the
    files are the snapshot (or the mirror, when the answer says so) of a moment at
    which the version of the answer was current. *)

From S2P Require Import Prelude Doubles RateLimiter IpRules PathRules Config Response Jwt SecurityRules HttpPool Upstream AppConfig AdminJson AdminAuth AdminLogin OrderedMap ConfigHistory DbPool RedisPool ConfigSync RedisStore HistoryScripts HistorySafety HistoryService AdminStore AdminOps AdminSafety.

(** ** Maps and hashes *)

Lemma find_insert_all_in {V} (l : list (bytes * V)) m k v : NoDup l.*1 → (k, v) ∈ l → sm_find k (sm_insert_all l m) = Some v.
Proof.
  unfold sm_insert_all. revert m. induction l as [|[k' v'] l IH]; intros m Hnd Hin; [by apply elem_of_nil in Hin|].
  cbn [fmap list_fmap fst foldl snd] in *. apply NoDup_cons in Hnd as [Hk Hnd]. apply elem_of_cons in Hin as [[= -> ->]|Hin]; [|by apply IH].
  change (sm_find k' (sm_insert_all l (sm_insert k' v' m)) = Some v'). rewrite find_insert_all_ne by done. apply sm_find_insert.
Qed.

Lemma hash_of_find files k : sm_sorted files → hash_of files !! k = sm_find k files.
Proof.
  intros Hs. rewrite hash_of_map by by apply sorted_keys_nodup. apply option_eq. intros v. rewrite (sm_find_elem k v files Hs).
  symmetry. apply elem_of_list_to_map. by apply sorted_keys_nodup.
Qed.

(** The map of the fields of a hash, in whatever order they come. *)
Lemma hash_of_fields_listed (h : gmap bytes bytes) pairs : pairs ≡ₚ map_to_list h → hash_of (sm_insert_all pairs []) = h.
Proof.
  intros Hp. assert (NoDup pairs.*1) as Hnd by (rewrite Hp; apply NoDup_fst_map_to_list).
  apply map_eq. intros k. rewrite hash_of_find by (apply insert_all_sorted; constructor).
  destruct (h !! k) as [v|] eqn:Hk.
  - apply find_insert_all_in; [done|]. rewrite Hp. by apply elem_of_map_to_list.
  - rewrite find_insert_all_ne; [done|]. rewrite Hp. intros ([k' v] & -> & Hin)%list_elem_of_fmap. apply elem_of_map_to_list in Hin.
    cbn in Hk. congruence.
Qed.

Section reads.
Context `{Double, !DoubleText, StdSort, StdHash, AsioAddress, JwtCpp, KeyStore, OpenSsl}.
Context (cfg : ConfigHistoryConfig) (stack : nat) (config_base_empty : bool) (ctx : HttpContext).
Context `{Redis, !RedisLaws, LuaNumbers}.

Lemma returns_fields k ks : returns (call (HGETALL k)) ks (λ l, ∃ h pairs, as_hash ks k = Some h ∧ l = flatten pairs ∧ pairs ≡ₚ map_to_list h).
Proof.
  apply returns_call. intros order Ho. cbn [exec]. unfold reads. cbn [fst snd]. split; [done|].
  intros l (h & Hh & ->)%fmap_Some. by exists h, (order h).
Qed.

Lemma returned {A} (s : script A) db P what k : returns s (view db) P →
  (∃ a, P a ∧ (replied what k s db).1 = k a) ∨ (replied what k s db).1 = error_reply what.
Proof.
  intros Hs. destruct (Hs db eq_refl) as [_ Hr]. unfold replied. destruct (s db) as [[a|] db']; [|by right]. left. exists a. split; [by apply Hr|done].
Qed.

(** A version that was read is the counter. *)
Lemma read_counter what db n v : counter_is (view db) n →
  redis_version (replied what string_reply (call (GET kVersionKey)) db).1 = Some v → v = n.
Proof.
  intros [Hc Hn] Hv. destruct (returned (call (GET kVersionKey)) db _ what string_reply (returns_get kVersionKey (view db))) as [(o & Ho & E)|E].
  - rewrite E in Hv. unfold as_str in Ho. destruct (view db !! kVersionKey) as [[s| | |]|]; try done; injection Ho as <-.
    + subst s. unfold redis_version, redis_integer in Hv. cbn [string_reply rd_ok rd_type rd_str negb] in Hv.
      change (beqb "string" "nil") with false in Hv. change (beqb "string" "integer") with false in Hv.
      change (beqb "string" "string") with true in Hv. cbv iota in Hv.
      rewrite parse_int64_print in Hv by (unfold LUA_EXACT, INT64_MAX in *; lia). case_match; [done|]. by injection Hv as <-.
    + subst n. by vm_compute in Hv; injection Hv as <-.
  - rewrite E in Hv. done.
Qed.

(** The files are those of a key, at this moment. *)
Definition read_at (db : rdb) (version : Z) (files : files_map) (degraded : bool) : Prop :=
  view db !! (if degraded then kFilesKey else snapshot_key version) = Some (RHash (hash_of files)).

Lemma read_files what db k files : files ≠ [] →
  admin_hgetall (replied what array_reply (call (HGETALL k)) db).1 = Some files → view db !! k = Some (RHash (hash_of files)).
Proof.
  intros Hne Hf. destruct (returned (call (HGETALL k)) db _ what array_reply (returns_fields k (view db))) as [(l & (h & pairs & Hh & -> & Hp) & E)|E];
    rewrite E in Hf; [|done].
  unfold admin_hgetall in Hf. cbn [array_reply rd_ok rd_type rd_elements] in Hf. destruct (_ || _) in Hf; [done|]. injection Hf as <-.
  rewrite pair_flatten in *. rewrite (hash_of_fields_listed h pairs Hp). apply existing_hash; [done|].
  unfold as_hash in Hh. destruct (view db !! k); [done|]. injection Hh as <-. rewrite map_to_list_empty in Hp.
  apply Permutation_nil_r in Hp. subst pairs. done.
Qed.

(** ** The invariant of the reading operation *)

Definition since (db0 db : rdb) (P : rdb → Prop) : Prop := ∃ d, rtc (store_step cfg) db0 d ∧ rtc (store_step cfg) d db ∧ P d.

Lemma since_later db0 db db' P : since db0 db P → rtc (store_step cfg) db db' → since db0 db' P.
Proof. intros (d & Hst1 & Hst2 & HP) Hst. exists d. split; [done|]. split; [by etrans|done]. Qed.

(** The version was current, then the files were read. *)
Definition version_then_files (version : Z) (files : files_map) (degraded : bool) (d : rdb) : Prop :=
  ∃ d1, rtc (store_step cfg) d1 d ∧ counter_is (view d1) version ∧ read_at d version files degraded.

(** What an answer shows. *)
Definition shows (db0 db : rdb) (c : HttpContext) : Prop :=
  ∃ version files degraded, response_body c = resp_ok (files_json version files degraded) ∧
    since db0 db (λ d, counter_is (view d) version ∧ read_at d version files degraded).

Definition read_state (db0 : rdb) (w : rdb * op_pc) : Prop :=
  rtc (store_step cfg) db0 w.1 ∧
  match w.2 with
  | ReadVersion _ => True
  | ReadFiles version _ | ReadMirror version _ => since db0 w.1 (λ d, counter_is (view d) version)
  | VerifyHash version _ files degraded | VerifyVersion version _ files degraded => since db0 w.1 (version_then_files version files degraded)
  | OpDone c => status_code c = 200 → shows db0 w.1 c
  | _ => False
  end.

Lemma read_state_later db0 db db' pc : read_state db0 (db, pc) → rtc (store_step cfg) db db' → read_state db0 (db', pc).
Proof.
  intros [Hrun Hpc] Hst. split; [by etrans|]. cbn [fst snd] in *. destruct pc; try done; try by eapply since_later.
  intros Hc. destruct (Hpc Hc) as (v & files & dg & Hb & Hs). exists v, files, dg. split; [done|]. by eapply since_later.
Qed.

(** A lost reply ends the reading without success. *)
Lemma read_state_error db0 db pc env reply : rd_ok reply = false → read_state db0 (db, pc) → read_state db0 (db, op_step cfg ctx env pc reply).
Proof.
  intros Hr [Hrun Hpc]. split; [done|]. cbn [fst snd] in *. destruct pc; try done; cbn [op_step].
  - unfold version_reply_read. by rewrite Hr.
  - unfold files_reply_read. by rewrite Hr.
  - unfold mirror_reply_read. by rewrite Hr.
  - unfold hash_reply_read. by rewrite Hr.
  - unfold version_checked, redis_version. by rewrite Hr.
Qed.

Lemma read_state_exec db0 db n0 pc env what : counter_is (view db0) n0 → read_state db0 (db, pc) →
  read_state db0 (db, op_step cfg ctx env pc (op_command cfg what pc db).1).
Proof.
  intros Hcnt [Hrun Hpc]. split; [done|]. destruct (store_counter cfg _ _ _ Hrun Hcnt) as (n & Hn & _). cbn [fst snd] in *.
  destruct pc; try done; cbn [op_step op_command].
  - unfold version_reply_read. destruct (negb (rd_ok _)); [done|]. destruct (redis_version _) as [v|] eqn:Hv; [|done].
    apply (read_counter what db n v Hn) in Hv as ->. by exists db.
  - unfold files_reply_read. destruct (negb (rd_ok _)); [done|]. destruct (admin_hgetall _) as [[|kv files]|] eqn:Hf; try done.
    apply read_files in Hf; [|done]. destruct Hpc as (d & Hst1 & Hst2 & Hc). exists db. split; [done|]. split; [done|]. by exists d.
  - unfold mirror_reply_read. destruct (negb (rd_ok _)); [done|]. destruct (admin_hgetall _) as [[|kv files]|] eqn:Hf; try done.
    apply read_files in Hf; [|done]. destruct Hpc as (d & Hst1 & Hst2 & Hc).
    destruct (beqb (read_mode cfg) _); exists db; (split; [done|]; split; [done|]; by exists d).
  - unfold hash_reply_read. by destruct (digest_matches _ _).
  - unfold version_checked. destruct (redis_version _) as [v|] eqn:Hv; [|done]. apply (read_counter what db n v Hn) in Hv as ->.
    destruct (negb (n =? version)) eqn:He; [by destruct attempt|]. intros _. exists version, files, degraded. split; [done|].
    destruct Hpc as (d & Hst1 & Hst2 & d1 & Hst0 & Hc & Hr). exists d. split; [done|]. split; [done|]. split; [|done].
    assert (n = version) as -> by (apply negb_false_iff, Z.eqb_eq in He; done). by eapply counter_between.
Qed.

Lemma read_state_step db0 n0 w w' : counter_is (view db0) n0 → admin_step cfg ctx w w' → read_state db0 w → read_state db0 w'.
Proof.
  intros Hcnt Hs Hw.
  assert (pc_ok w.2) as Hok by (destruct Hw as [_ Hpc], w as [db []]; done).
  destruct Hs as [env what n pc db Hver|env what n pc db reply Hver Hlost|env pc db reply Hlost|pc db db' Hs].
  - eapply read_state_later; [by eapply read_state_exec|]. apply rtc_once. by eapply command_step.
  - eapply read_state_later; [by eapply read_state_error|]. apply rtc_once. by eapply command_step.
  - by eapply read_state_error.
  - eapply read_state_later; [done|]. by apply rtc_once.
Qed.

(** C26: the configuration an administrator reads is consistent: while other gateways
    publish, repair and collect, an answer 200 names a version and files such that at
    one moment between request and answer this version was current and the files
    were its snapshot, or the mirror when the answer is marked as degraded. *)
Theorem config_read_consistent env db db' c n :
  ctx_method ctx = "GET" → counter_is (view db) n →
  rtc (admin_step cfg ctx) (db, start_blocking cfg stack config_base_empty ctx env true true RConfig) (db', OpDone c) →
  status_code c = 200 → shows db db' c.
Proof.
  intros Hm Hcnt Hrun Hc. assert (read_state db (db', OpDone c)) as [_ Hd].
  { revert Hrun. generalize (db', OpDone c). apply rtc_ind_r.
    - unfold start_blocking. cbn [negb start_action]. unfold start_config. rewrite Hm. done.
    - intros w w' _ Hs Hw. by eapply read_state_step. }
  by apply Hd.
Qed.

End reads.

(** ** Reading a store with one version *)

Module ReadRun.
#[local] Existing Instances binary64 sample_text insertion_sort DottedQuad.dotted sample_jwt sample_keys Sample.ssl spec_redis spec_lua.

Definition read_ctx : HttpContext := mkContext "GET" "/api/admin/config" [] [] 0 [] [] [] None None [] false.
Definition reading_pc : op_pc := start_blocking AdminRuns.cfg 100 false read_ctx AdminRuns.env true true RConfig.
Definition after (k : nat) : keyspace * op_pc := Nat.iter k (AdminRuns.run read_ctx) (AdminRuns.db1, reading_pc).
Definition shown : HttpContext := match (after 4).2 with OpDone c => c | _ => read_ctx end.

(** Reads leave the store as it is. *)
Definition only_reads (pc : op_pc) : bool :=
  match pc with ReadVersion _ | ReadFiles _ _ | VerifyHash _ _ _ _ | VerifyVersion _ _ _ _ => true | _ => false end.
Lemma read_keeps pc (db : keyspace) : only_reads pc = true → (op_command AdminRuns.cfg "gone" pc db).2 = db.
Proof.
  intros Hp. destruct pc; try done; cbn [op_command]; rewrite replied_db; eapply (returns_view (H7 := spec_redis) _ db);
    [apply returns_get|apply returns_hgetall|apply returns_hget|apply returns_get].
Qed.
Lemma after_reads : forallb (λ k, only_reads (after k).2) [0; 1; 2; 3]%nat = true.
Proof. by vm_compute. Qed.
Lemma after_db k : (k ≤ 4)%nat → (after k).1 = AdminRuns.db1.
Proof.
  induction k as [|k IH]; intros Hk; [reflexivity|].
  change ((op_command AdminRuns.cfg "gone" (after k).2 (after k).1).2 = AdminRuns.db1). rewrite read_keeps; [apply IH; lia|].
  pose proof after_reads as Hr. rewrite forallb_forall in Hr. apply Hr. destruct k as [|[|[|[|k]]]]; cbn; lia.
Qed.
Lemma after_run k : (k ≤ 4)%nat → rtc (admin_step AdminRuns.cfg read_ctx) (AdminRuns.db1, reading_pc) (after k).
Proof.
  induction k as [|k IH]; intros Hk; [apply rtc_refl|]. eapply rtc_r; [apply IH; lia|].
  assert (version_is (after k).1 1) as Hver by (rewrite after_db by lia; exact AdminRuns.db1_version).
  rewrite (surjective_pairing (after k)). exact (AExec AdminRuns.cfg read_ctx (H7 := spec_redis) AdminRuns.env "gone" 1 (after k).2 (after k).1 Hver).
Qed.
Lemma answered : (after 4).2 = OpDone shown ∧ status_code shown = 200.
Proof. split; vm_compute; reflexivity. Qed.
Lemma answer_run : rtc (admin_step AdminRuns.cfg read_ctx) (AdminRuns.db1, reading_pc) (AdminRuns.db1, OpDone shown).
Proof.
  assert ((AdminRuns.db1, OpDone shown) = after 4) as -> by (rewrite <- (proj1 answered), <- (after_db 4) by lia; symmetry; apply surjective_pairing).
  apply after_run. lia.
Qed.
End ReadRun.

Lemma config_read_consistent_witness :
  ∃ version files degraded, response_body ReadRun.shown = resp_ok (files_json version files degraded) ∧
    ∃ d, counter_is d version ∧ d !! (if degraded then kFilesKey else snapshot_key version) = Some (RHash (hash_of files)).
Proof.
  destruct (@config_read_consistent binary64 sample_text insertion_sort DottedQuad.dotted sample_jwt sample_keys Sample.ssl AdminRuns.cfg 100 false ReadRun.read_ctx
    spec_redis spec_redis_laws spec_lua AdminRuns.env AdminRuns.db1 AdminRuns.db1 ReadRun.shown 1 eq_refl (version_counter _ _ AdminRuns.db1_version)
    ReadRun.answer_run (proj2 ReadRun.answered)) as (v & files & dg & Hb & d & _ & _ & Hc & Hr).
  exists v, files, dg. split; [exact Hb|]. exists d. split; [exact Hc|exact Hr].
Defined.
