(* ===== verification/AdminAsync.v ===== *)
(** * The way of an admin request between the executors
    (src/src/app/admin/admin_routes.cpp, admin_config_routes.cpp,
    admin_history_common.cpp, admin_history_operation.cpp)

    An admin request leaves the session's coroutine: its work runs on the workers,
    its commands on the [io_context], their replies on the workers again, and at
    the end the coroutine is resumed.  Any of these calls may throw, and so may the
    work.  Here an operation is only what the interface [Operation] says of it; the
    operations of AdminOps implement it.  A failed allocation while a reply is
    being written is not modelled. *)

From S2P Require Import Prelude HttpProtocol Config Doubles PathRules RateLimiter IpRules SecurityRules Response Jwt AdminJson AppConfig AdminAuth AdminLogin DbPool RedisPool OrderedMap ConfigHistory ConfigSync RedisStore HistoryScripts HistoryService AdminStore AdminOps AdminSafety AdminRead.

(** ** What an operation promises *)

(** An operation waits for a command, for a check of the history, has its answer,
    or has overflowed the stack. *)
Inductive op_state := NeedsCommand | NeedsRefresh | Answered (ctx : HttpContext) | Crashed.

(** [X] is what arrives: a reply and what the code reads when it arrives. *)
Class Operation (X PC : Type) := {
  op_view : PC → op_state;
  op_next : PC → X → PC;
  op_left : PC → nat;
  op_left_next pc x : op_view pc = NeedsCommand ∨ op_view pc = NeedsRefresh → (op_left (op_next pc x) < op_left pc)%nat
}.

(** ** The calls *)

(** What happens to a step: what arrives, the text with which [post] or [co_spawn]
    throws ([None] when they accept), whether the completion can be posted, and the
    text of an exception of the work.  An exception that is not a [std::exception]
    has the text [fail] starts from. *)
Record async_io (X : Type) := mkAsync { io_input : X; io_throws : option bytes; io_completes : bool; io_raises : option bytes }.
Arguments mkAsync {X}.
Arguments io_input {X}.
Arguments io_throws {X}.
Arguments io_completes {X}.
Arguments io_raises {X}.

(** [redis_exception_reply] *)
Definition exception_reply (what : option bytes) : RedisReplyData :=
  mkReplyData false (default ("unknown Redis command exception" : bytes) what) [] 0 [] "error".

Section async.
Context {X PC : Type} `{Operation X PC}.

(** Where the request is: [dispatch_admin_work] is called, [start_blocking] is
    queued, a command runs, its callback is queued, the history is checked, the
    completion is posted. *)
Inductive async_pc := Dispatch | Job | Command (pc : PC) | Callback (pc : PC) (x : X) | Refresh (pc : PC) | Resume.

(** [completed_], the context the handler answers with, how often the coroutine
    was resumed, and whether the process died. *)
Record request := mkRequest { completed_ : bool; rq_ctx : HttpContext; resumed : nat; crashed : bool }.

Definition request0 (ctx : HttpContext) : request := mkRequest false ctx 0 false.

Definition set_ctx (c : HttpContext) (q : request) : request := mkRequest (completed_ q) c (resumed q) (crashed q).
Definition resume (q : request) : request := mkRequest (completed_ q) (rq_ctx q) (S (resumed q)) (crashed q).

(** [complete_admin_request]: the first call posts the completion, or runs it in
    place when it cannot be posted. *)
Definition complete_admin_request (posts : bool) (q : request) : request * list async_pc :=
  if completed_ q then (q, [])
  else
    let q := mkRequest true (rq_ctx q) (resumed q) (crashed q) in
    if posts then (q, [Resume]) else (resume q, []).

Definition fail (posts : bool) (message : bytes) (q : request) : request * list async_pc :=
  complete_admin_request posts (set_ctx (respond (rq_ctx q) 500 (resp_err SERVER_ERROR message)) q).

(** What the work does next: [run_command] ([throws]: of its [co_spawn]),
    [refresh], or [complete]. *)
Definition proceed (throws : option bytes) (completes : bool) (pc : PC) (q : request) : request * list async_pc :=
  match op_view pc with
  | NeedsCommand => match throws with None => (q, [Command pc]) | Some what => fail completes what q end
  | NeedsRefresh => (q, [Refresh pc])
  | Answered c => complete_admin_request completes (set_ctx c q)
  | Crashed => (mkRequest (completed_ q) (rq_ctx q) (resumed q) true, [])
  end.

(** The body of a queued job: an exception goes to [fail]. *)
Definition run_body (io : async_io X) (pc : PC) (q : request) : request * list async_pc :=
  match io_raises io with
  | Some what => fail (io_completes io) what q
  | None => proceed (io_throws io) (io_completes io) pc q
  end.

(** A step; [workers] is whether there are any, [start] the state of the operation
    after [start_blocking]. *)
Definition async_step (workers : bool) (start : X → PC) (io : async_io X) (q : request) (a : async_pc) : request * list async_pc :=
  match a with
  | Dispatch =>
      if negb workers then run_body io (start (io_input io)) q
      else match io_throws io with None => (q, [Job]) | Some what => fail (io_completes io) what q end
  | Job => run_body io (start (io_input io)) q
  | Command pc =>
      if negb workers then run_body io (op_next pc (io_input io)) q
      else match io_throws io with None => (q, [Callback pc (io_input io)]) | Some what => fail (io_completes io) what q end
  | Callback pc x => run_body io (op_next pc x) q
  | Refresh pc => proceed (io_throws io) (io_completes io) (op_next pc (io_input io)) q
  | Resume => (resume q, [])
  end.

Inductive request_step (workers : bool) (start : X → PC) : request * list async_pc → request * list async_pc → Prop :=
| request_move io q l1 a l2 q' acts : async_step workers start io q a = (q', acts) →
    request_step workers start (q, l1 ++ a :: l2) (q', l1 ++ acts ++ l2).

(** ** One activity at a time *)

Definition async_ok (a : async_pc) : Prop :=
  match a with
  | Command pc | Callback pc _ => op_view pc = NeedsCommand
  | Refresh pc => op_view pc = NeedsRefresh
  | _ => True
  end.

(** Steps until the coroutine is resumed, at most. *)
Definition async_left (bound : nat) (a : async_pc) : nat :=
  match a with
  | Dispatch => 2 * bound + 3
  | Job => 2 * bound + 2
  | Command pc => 2 * op_left pc + 1
  | Callback pc _ => 2 * op_left pc
  | Refresh pc => 2 * op_left pc
  | Resume => 1
  end.

(** The answers an operation can reach. *)
Inductive reaches (start : X → PC) : PC → Prop :=
| reaches_start x : reaches start (start x)
| reaches_next pc x : reaches start pc → reaches start (op_next pc x).

Definition from_start (start : X → PC) (a : async_pc) : Prop :=
  match a with Command pc | Callback pc _ | Refresh pc => reaches start pc | _ => True end.

(** The response: the operation's own, or the report of a failure. *)
Definition honest (start : X → PC) (q : request) : Prop :=
  (∃ pc, reaches start pc ∧ op_view pc = Answered (rq_ctx q)) ∨
  ∃ c message, rq_ctx q = respond c 500 (resp_err SERVER_ERROR message).

(** Either one activity is left and the request is not answered, or the request
    was answered once, or the process is gone. *)
Definition one_activity (start : X → PC) (bound : nat) (st : request * list async_pc) (left : nat) : Prop :=
  let '(q, acts) := st in
  (∃ a, acts = [a] ∧ resumed q = 0%nat ∧ crashed q = false ∧ async_ok a ∧ from_start start a ∧ (async_left bound a ≤ left)%nat ∧
        (completed_ q = true ↔ a = Resume) ∧ (a = Resume → honest start q)) ∨
  (acts = [] ∧ completed_ q = true ∧ resumed q = 1%nat ∧ crashed q = false ∧ honest start q) ∨
  (acts = [] ∧ crashed q = true ∧ resumed q = 0%nat).

Lemma complete_one start bound posts q q' acts left :
  complete_admin_request posts q = (q', acts) → completed_ q = false → resumed q = 0%nat → crashed q = false → honest start q → (1 ≤ left)%nat →
  one_activity start bound (q', acts) left.
Proof.
  unfold complete_admin_request. intros Hc Hn Hr Hk Hh Hl. rewrite Hn in Hc. destruct posts; injection Hc as <- <-.
  - left. exists Resume. split_and!; done.
  - right. left. split_and!; try done. cbn. by rewrite Hr.
Qed.

Lemma fail_one start bound posts message q q' acts left :
  fail posts message q = (q', acts) → completed_ q = false → resumed q = 0%nat → crashed q = false → (1 ≤ left)%nat →
  one_activity start bound (q', acts) left.
Proof. intros Hf Hn Hr Hk Hl. eapply complete_one; [exact Hf|done..| |done]. right. by eexists _, _. Qed.

Lemma proceed_one start bound throws completes pc q q' acts left :
  proceed throws completes pc q = (q', acts) → completed_ q = false → resumed q = 0%nat → crashed q = false →
  reaches start pc → (2 * op_left pc + 1 ≤ left)%nat → one_activity start bound (q', acts) left.
Proof.
  unfold proceed. intros Hp Hn Hr Hk Hs Hl. destruct (op_view pc) as [| |c|] eqn:Hv.
  - destruct throws as [what|]; [by eapply fail_one; [exact Hp|done..|lia]|]. injection Hp as <- <-. left. exists (Command pc).
    split_and!; try done. split; [congruence|done].
  - injection Hp as <- <-. left. exists (Refresh pc). split_and!; try done; [cbn [async_left]; lia|]. split; [congruence|done].
  - eapply complete_one; [exact Hp|done..| |lia]. left. by exists pc.
  - injection Hp as <- <-. right. right. done.
Qed.

Lemma body_one start bound io pc q q' acts left :
  run_body io pc q = (q', acts) → completed_ q = false → resumed q = 0%nat → crashed q = false →
  reaches start pc → (2 * op_left pc + 1 ≤ left)%nat → one_activity start bound (q', acts) left.
Proof.
  unfold run_body. destruct (io_raises io) as [what|]; intros Hb Hn Hr Hk Hs Hl; [|by eapply proceed_one].
  eapply fail_one; [exact Hb|done..|lia].
Qed.

(** A step uses one unit of what is left. *)
Lemma one_activity_step workers start bound st st' left :
  (∀ x, (op_left (start x) ≤ bound)%nat) → request_step workers start st st' → one_activity start bound st (S left) → one_activity start bound st' left.
Proof.
  intros Hb Hstep. destruct Hstep as [io q l1 a l2 q' acts Hs]. intros [(b & Hl & Hr & Hk & Hok & Hfrom & Hleft & Hc & Hh)|[(Hl & _)|(Hl & _)]];
    [|by destruct l1..].
  assert (l1 = [] ∧ l2 = [] ∧ a = b) as (-> & -> & ->) by (destruct l1 as [|? [|]]; [by simplify_list_eq|done|done]).
  cbn [app]. rewrite app_nil_r. destruct (decide (completed_ q = true)) as [Hd|Hd].
  { apply Hc in Hd as ->. injection Hs as <- <-. right. left. split_and!; try done; [by apply Hc|cbn; by rewrite Hr|by apply Hh]. }
  apply not_true_is_false in Hd. assert (b ≠ Resume) as Hnr by (intros ->; by rewrite (proj2 Hc) in Hd).
  destruct b as [| |pc|pc x|pc|]; cbn [async_step async_left async_ok from_start] in *.
  - pose proof (Hb (io_input io)). destruct (negb workers); [eapply body_one; [exact Hs|done..|constructor|lia]|].
    destruct (io_throws io) as [what|]; [by eapply fail_one; [exact Hs|done..|lia]|]. injection Hs as <- <-. left. exists Job.
    split_and!; try done; [cbn [async_left]; lia|]. split; congruence.
  - pose proof (Hb (io_input io)). eapply body_one; [exact Hs|done..|constructor|lia].
  - pose proof (op_left_next pc (io_input io) (or_introl Hok)). destruct (negb workers); [eapply body_one; [exact Hs|done..|by constructor|lia]|].
    destruct (io_throws io) as [what|]; [by eapply fail_one; [exact Hs|done..|lia]|]. injection Hs as <- <-. left. exists (Callback pc (io_input io)).
    split_and!; try done; [cbn [async_left]; lia|]. split; congruence.
  - pose proof (op_left_next pc x (or_introl Hok)). eapply body_one; [exact Hs|done..|by constructor|lia].
  - pose proof (op_left_next pc (io_input io) (or_intror Hok)). eapply proceed_one; [exact Hs|done..|by constructor|lia].
  - done.
Qed.

Lemma one_activity_start start bound ctx : one_activity start bound (request0 ctx, [Dispatch]) (2 * bound + 3).
Proof. left. exists Dispatch. split_and!; done. Qed.

Lemma one_activity_run workers start bound k : (∀ x, (op_left (start x) ≤ bound)%nat) → ∀ st st' left,
  one_activity start bound st (k + left) → nsteps (request_step workers start) k st st' → one_activity start bound st' left.
Proof.
  intros Hb. induction k as [|k IH]; intros st st' left Ho Hn; [by inversion Hn; subst|].
  inversion Hn as [|? ? y ? Hs Hr]; subst. eapply IH; [|exact Hr]. by eapply one_activity_step.
Qed.

Lemma activity_left bound a (x : X) : async_ok a → (1 ≤ async_left bound a)%nat.
Proof.
  intros Hok. destruct a as [| |pc|pc y|pc|]; cbn [async_left async_ok] in *; try lia.
  - pose proof (op_left_next pc x (or_introl Hok)). lia.
  - pose proof (op_left_next pc x (or_intror Hok)). lia.
Qed.

Lemma run_bounded workers start bound k st st' (x : X) : (∀ x, (op_left (start x) ≤ bound)%nat) →
  nsteps (request_step workers start) k st st' → one_activity start bound st (2 * bound + 3) → (k ≤ 2 * bound + 3)%nat.
Proof.
  intros Hb Hn Ho. destruct (decide (k ≤ 2 * bound + 3)%nat) as [|Hk]; [done|exfalso].
  replace k with ((2 * bound + 3) + S (k - (2 * bound + 3) - 1))%nat in Hn by lia.
  apply nsteps_add_inv in Hn as (y & H1 & H2). inversion H2 as [|? ? z ? Hs _]; subst.
  assert (one_activity start bound y 0) as Hy by (eapply one_activity_run; [exact Hb| |exact H1]; by rewrite Nat.add_0_r).
  destruct Hs as [io q l1 a l2 q' acts Hs]. destruct Hy as [(b & Hl & _ & _ & Hok & _ & Hleft & _)|[(Hl & _)|(Hl & _)]]; [|by destruct l1..].
  pose proof (activity_left bound b x Hok). lia.
Qed.

(** Nothing but the request itself holds it up. *)
Lemma activity_moves workers start (inh : X) q l : l ≠ [] → ∃ st', request_step workers start (q, l) st'.
Proof.
  intros Hl. destruct l as [|a l]; [done|]. destruct (async_step workers start (mkAsync inh None true None) q a) as [q' acts] eqn:Hs.
  exists (q', [] ++ acts ++ l). by apply (request_move workers start (mkAsync inh None true None) q [] a l).
Qed.
End async.

(** ** The operations of the admin API *)

(** The replies an operation still waits for, at most: the configuration is read
    twice when the version changed meanwhile. *)
Definition reads_left (attempt left : nat) : nat := match attempt with O => left + 5 | S _ => left end.

Definition replies_to_come (pc : op_pc) : nat :=
  match pc with
  | ReadVersion attempt => reads_left attempt 5
  | ReadFiles _ attempt => reads_left attempt 4
  | ReadMirror _ attempt => reads_left attempt 3
  | VerifyHash _ attempt _ _ => reads_left attempt 2
  | VerifyVersion _ attempt _ _ => reads_left attempt 1
  | AwaitSave _ => 2
  | ReadConflict | ReadMachines | AwaitList _ _ | AwaitRollback _ _ _ _ | AwaitRefresh _ _ => 1
  | AwaitDetail _ (UDetail _) | AwaitDetail _ (UDiffTo _ _ _) => 1
  | AwaitDetail _ (UDiffFrom _ _) | AwaitDetail _ (URollback _) => 2
  | AwaitDetail _ (URebuild _ _) => 3
  | RepairMirror _ _ => 4
  | RepairMeta _ _ _ _ => 3
  | AwaitRepair _ _ => 2
  | Inspect _ => 3
  | AwaitOrphan _ _ _ => 2
  | OpDone _ | OpCrashed => 0
  end.

Definition admin_view (pc : op_pc) : op_state :=
  match pc with
  | OpDone ctx => Answered ctx
  | OpCrashed => Crashed
  | AwaitRefresh _ _ => NeedsRefresh
  | _ => NeedsCommand
  end.

Section admin.
Context `{Double, !DoubleText, StdSort, StdHash, AsioAddress, JwtCpp, KeyStore, OpenSsl}.
Context (cfg : ConfigHistoryConfig) (stack : nat) (config_base_empty : bool) (ctx : HttpContext).

Abbreviation step := (op_step cfg ctx).

(** Opens the conditionals of a reader until only its outcomes are left. *)
Ltac outcomes :=
  repeat match goal with
  | |- context [replies_to_come (match ?x with _ => _ end)] => destruct x
  end; cbn [replies_to_come finish reads_left]; lia.

Lemma repair_success_left env action version : (replies_to_come (finish_repair_success ctx env action version) ≤ 1)%nat.
Proof. unfold finish_repair_success, respond_repaired. outcomes. Qed.

Lemma rebuild_left env plan request record : (replies_to_come (rebuild_found ctx env plan request record) ≤ 2)%nat.
Proof. unfold rebuild_found, inconsistent_state, submit_repair. outcomes. Qed.

Lemma rollback_left env request record : (replies_to_come (prepare_rollback cfg ctx env request record) ≤ 1)%nat.
Proof. unfold prepare_rollback, inconsistent_state. outcomes. Qed.

Lemma detail_left env v use reply : (replies_to_come (detail_reply_read cfg ctx env use reply) < replies_to_come (AwaitDetail v use))%nat.
Proof.
  unfold detail_reply_read, redis_failed, inconsistent_state, history_not_found. cbv zeta.
  destruct (negb (rd_ok reply)); [destruct use; cbn [replies_to_come finish]; lia|].
  destruct (negb (beqb (rd_type reply) "array")); [destruct use; cbn [replies_to_come finish]; lia|].
  assert (∀ plan request, replies_to_come (rebuild_found ctx env plan request None) = 0%nat) as Hn by done.
  destruct (rd_elements reply) as [|e es]; [destruct use; rewrite ?Hn; cbn [replies_to_come finish]; lia|].
  destruct (parse_detail_elements (e :: es)) as [record|]; [|destruct use; cbn [replies_to_come finish]; lia].
  destruct use as [version|from to|from target saved|request|plan request].
  - unfold detail_found, inconsistent_state. outcomes.
  - unfold diff_from_found, inconsistent_state. cbv zeta. outcomes.
  - unfold diff_to_found, inconsistent_state. outcomes.
  - pose proof (rollback_left env request record). cbn [replies_to_come]. lia.
  - pose proof (rebuild_left env plan request (Some record)). cbn [replies_to_come]. lia.
Qed.

Lemma orphan_left env request reply : (replies_to_come (prepare_orphan_resolution cfg ctx env request reply) ≤ 2)%nat.
Proof.
  assert (∀ ih mh i se meta files, replies_to_come (resolve_restore cfg ctx env request ih mh i se meta files) ≤ 2)%nat as Hr.
  { intros. unfold resolve_restore, inconsistent_state, submit_restore_version. cbv zeta. outcomes. }
  assert (∀ c mh i se meta files, replies_to_come (resolve_delete ctx env request c mh i se meta files) ≤ 2)%nat as Hd.
  { intros. unfold resolve_delete, inconsistent_state, submit_delete_orphan. outcomes. }
  unfold prepare_orphan_resolution, inconsistent_state. cbv zeta.
  repeat match goal with
  | |- context [replies_to_come (match ?x with _ => _ end)] => destruct x
  end; first [apply Hr | apply Hd | cbn [replies_to_come finish]; lia].
Qed.

Lemma reads_step pc env reply : admin_view pc = NeedsCommand ∨ admin_view pc = NeedsRefresh →
  (replies_to_come (step env pc reply) < replies_to_come pc)%nat.
Proof.
  intros Hv. destruct pc; cbn [op_step]; try (by destruct Hv).
  - unfold version_reply_read, redis_failed, invalid_version, server_error. destruct attempt; outcomes.
  - unfold files_reply_read, redis_failed, server_error. destruct attempt; outcomes.
  - unfold mirror_reply_read, redis_failed, inconsistent_state. destruct attempt; outcomes.
  - unfold hash_reply_read, inconsistent_state. destruct attempt; outcomes.
  - unfold version_checked, invalid_version, server_error. destruct attempt; outcomes.
  - unfold handle_save_reply, redis_failed, server_error, inconsistent_state, invalid_version, bad_request, server_error. outcomes.
  - cbn. lia.
  - unfold machines_reply_read, redis_failed, server_error. outcomes.
  - unfold list_reply_read, redis_failed, inconsistent_state. outcomes.
  - apply detail_left.
  - unfold handle_rollback_reply, redis_failed, inconsistent_state, invalid_version, server_error. outcomes.
  - unfold repair_mirror_read, inconsistent_state, submit_repair. outcomes.
  - unfold repair_meta_read, inconsistent_state, submit_repair. outcomes.
  - unfold handle_repair_reply, redis_failed, inconsistent_state. cbv zeta. cbn [replies_to_come].
    destruct (negb (rd_ok reply)); [cbn; lia|]. destruct (redis_integer reply) as [code|]; [|cbn; lia].
    destruct (0 <? code); [pose proof (repair_success_left env action code); lia|cbn [finish replies_to_come]; lia].
  - cbn [replies_to_come]. apply le_n_S, orphan_left.
  - unfold handle_orphan_resolution_reply. cbv zeta. cbn [replies_to_come].
    destruct (negb (rd_ok reply)); [cbn [finish replies_to_come]; lia|]. destruct (redis_integer reply) as [code|]; [|cbn [finish replies_to_come]; lia].
    destruct (code <=? 0); [cbn [finish replies_to_come]; lia|]. eapply Nat.le_lt_trans; [apply repair_success_left|lia].
  - unfold respond_repaired. cbn [finish replies_to_come]. lia.
Qed.

#[export] Instance admin_operation : Operation (op_env * RedisReplyData) op_pc := {|
  op_view := admin_view;
  op_next pc x := step x.1 pc x.2;
  op_left := replies_to_come;
  op_left_next pc x := reads_step pc x.1 x.2
|}.

(** [start_blocking]; what [authorize_admin] decided and whether there is a Redis
    are fixed for the request. *)
Definition start_request (authorized redis_available : bool) (r : admin_route) (x : op_env * RedisReplyData) : op_pc :=
  start_blocking cfg stack config_base_empty ctx x.1 authorized redis_available r.

Lemma request_left {R} (parsed : reader R) k n : (∀ r, replies_to_come (k r) ≤ n)%nat → (replies_to_come (with_request ctx parsed k) ≤ n)%nat.
Proof. intros Hk. unfold with_request, bad_request. destruct parsed; [apply Hk|cbn; lia..]. Qed.

Lemma start_left authorized redis_available r x : (replies_to_come (start_request authorized redis_available r x) ≤ 10)%nat.
Proof.
  unfold start_request, start_blocking. destruct (negb authorized); [cbn; lia|]. destruct (negb redis_available); [cbn [finish replies_to_come]; lia|].
  assert (∀ plan, replies_to_come (start_repair cfg stack ctx plan) ≤ 10)%nat as Hrep.
  { intros plan. unfold start_repair, wrong_method. destruct (negb _); [cbn; lia|]. apply request_left. intros request.
    unfold bad_request, inconsistent_state. outcomes. }
  destruct r; cbn [start_action]; [| | | | |apply Hrep..|].
  - unfold start_config, wrong_method, save_config, inconsistent_state.
    destruct (beqb (ctx_method ctx) "GET"); [cbn; lia|]. destruct (beqb (ctx_method ctx) "POST"); [|cbn; lia].
    destruct (frozen x.1); [cbn; lia|]. apply request_left. intros request. unfold bad_request, server_error. outcomes.
  - unfold start_machines, wrong_method. outcomes.
  - unfold start_list, wrong_method, bad_request. cbv zeta. outcomes.
  - unfold start_path, wrong_method, history_not_found, start_diff, bad_request. cbv zeta. outcomes.
  - unfold start_rollback_request, start_rollback, inconsistent_state, wrong_method. destruct (frozen x.1); [cbn; lia|].
    destruct (negb _); [cbn; lia|]. apply request_left. intros request. unfold bad_request. outcomes.
  - unfold start_orphan_resolution, wrong_method. destruct (negb _); [cbn; lia|]. apply request_left. intros request. unfold bad_request. outcomes.
Qed.

(** C15: a request of the admin API, whatever its operation, whether or not there
    are workers, and wherever the work, a post or a command throws: at every moment
    exactly one of these holds: one activity is under way that can go on, the
    coroutine was resumed once, or the parser overflowed the stack.  At most 23
    steps are made, so that the coroutine is resumed, exactly once, and then with
    the operation's own answer or the report of a failure. *)
Theorem admin_request_answered workers authorized redis_available r k q acts :
  nsteps (request_step workers (start_request authorized redis_available r)) k (request0 ctx, [Dispatch]) (q, acts) →
  (k ≤ 23)%nat ∧
  (length acts + resumed q + (if crashed q then 1 else 0) = 1)%nat ∧
  (acts ≠ [] → ∃ st, request_step workers (start_request authorized redis_available r) (q, acts) st) ∧
  (resumed q = 1%nat → completed_ q = true ∧ honest (start_request authorized redis_available r) q).
Proof.
  intros Hrun. set (start := start_request authorized redis_available r) in *.
  assert (∀ x, (op_left (start x) ≤ 10)%nat) as Hb by (intros x; apply start_left).
  pose proof (one_activity_start start 10 ctx) as H0s.
  set (x0 := (mkOpEnv 0 (mkDryIo None (λ _, false) (λ _, false) (λ _, mkWriteIo false false None false) false false) (mkLocal true true [] None) None, reply_data0) : op_env * RedisReplyData).
  pose proof (run_bounded workers start 10 k _ _ x0 Hb Hrun H0s) as Hk.
  assert (one_activity start 10 (q, acts) (23 - k)) as Ho.
  { eapply one_activity_run; [exact Hb| |exact Hrun]. replace (k + (23 - k))%nat with (2 * 10 + 3)%nat by lia. done. }
  split; [lia|]. split; [|split].
  - destruct Ho as [(a & -> & -> & -> & _)|[(-> & _ & -> & -> & _)|(-> & -> & ->)]]; done.
  - by apply activity_moves.
  - intros Hr. destruct Ho as [(a & _ & Hz & _)|[(_ & Hc & _ & _ & Hh)|(_ & _ & Hz)]]; [by rewrite Hr in Hz|done|by rewrite Hr in Hz].
Qed.
End admin.

(** ** A run: the list of machines, with a command that fails *)

Module AsyncRun.
#[local] Existing Instances binary64 sample_text insertion_sort DottedQuad.dotted sample_jwt sample_keys Sample.ssl.

Definition lost : RedisReplyData := exception_reply (Some ("connection lost" : bytes)).
Definition input : op_env * RedisReplyData := (AdminRuns.env, lost).
Definition io : async_io (op_env * RedisReplyData) := mkAsync input None true None.
Definition final : request := mkRequest true (respond ReadRun.read_ctx 500 (resp_err 501 "connection lost")) 1 false.

#[local] Instance operation : Operation (op_env * RedisReplyData) op_pc := admin_operation AdminRuns.cfg ReadRun.read_ctx.

Definition machines_start := start_request AdminRuns.cfg 100 false ReadRun.read_ctx true true RMachines.

Lemma run : nsteps (request_step true machines_start) 5 (request0 ReadRun.read_ctx, [Dispatch]) (final, []).
Proof.
  eapply nsteps_l; [apply (request_move true machines_start io _ [] _ []); reflexivity|].
  eapply nsteps_l; [apply (request_move true machines_start io _ [] _ []); reflexivity|].
  eapply nsteps_l; [apply (request_move true machines_start io _ [] _ []); reflexivity|].
  eapply nsteps_l; [apply (request_move true machines_start io _ [] _ []); reflexivity|].
  eapply nsteps_l; [apply (request_move true machines_start io _ [] _ []); reflexivity|].
  constructor.
Qed.
End AsyncRun.

Lemma admin_request_answered_witness : completed_ AsyncRun.final = true ∧ (5 ≤ 23)%nat ∧ status_code (rq_ctx AsyncRun.final) = 500.
Proof.
  destruct (@admin_request_answered binary64 sample_text insertion_sort DottedQuad.dotted sample_jwt sample_keys Sample.ssl AdminRuns.cfg 100 false
    ReadRun.read_ctx true true true RMachines 5 AsyncRun.final [] AsyncRun.run) as (Hk & _ & _ & Hd).
  split; [exact (proj1 (Hd eq_refl))|]. split; [exact Hk|reflexivity].
Defined.
